(* ===== verification/_CoqProject ===== *)
-Q . S2P
Prelude.v
GoBase.v
Job.v
Store.v
StoreFacts.v
Steps.v
Demo.v
Claim.v
Invariant.v
History.v
StoreSpec.v
Outbox.v
Tracing.v
Worker.v
WorkerFacts.v
Lifecycle.v
Ledger.v
Verdicts.v
Progress.v
Fairness.v
LateReports.v
Shipper.v
ShipperFacts.v
GrpcServer.v
WireTypes.v
FilePath.v
Handlers.v
Config.v
Process.v
Metrics.v
Reports.v
Backlog.v
DurationText.v
Percentiles.v
Fmt.v
Flag.v
Json.v
JsonFacts.v
Payloads.v
Cli.v
Work.v
WorkFacts.v
Pool.v
CliFacts.v
Main.v
Resources.v
Cluster.v
Contract.v
Leases.v
Starvation.v
Recovery.v
Shutdown.v
CommandDemo.v
Conformance.v
ClusterDemo.v
