(* ===== verification/Prelude.v ===== *)
(** * Verification of the Observable Job Queue

    A Postgres-backed job queue in Go: clients submit jobs over gRPC, worker
    processes claim them under a lease, execute them and report, a reaper
    recovers the jobs of crashed workers, and every state change leaves an
    event in an outbox table that a shipper copies to ClickHouse.  All
    coordination goes through SQL statements on three tables.

    ** The parts, and where they are modelled

    - [GoBase], [Job]: what the program uses of Go (errors with [%w] wrapping,
      contexts, durations and their text) and the types of [internal/job].
    - [Store]: the tables of [migrations/] as the record [db] and every method
      of [internal/store/jobs.go].  A method is [run_stmt] on the function of
      its one SQL statement ([stmt_claim], [stmt_reap], ...): a statement is
      atomic, either a new [db] or a server error and no change.  What the
      server, the driver and the clock decide is the [stmt_env] of the call:
      transaction time, rows locked by others, the order of rows the query does
      not order (any permutation), gaps in identity sequences, connection
      failures before or after the commit.  The [jsonb], [interval], text and
      time conversions of Postgres are the class [Postgres].
    - [StoreFacts], [Steps]: lookup and inversion lemmas, the common shape of
      the five updating statements ([update_effect]), the step relation
      [db_step] (one committed statement) and [reachable].
    - [Claim], [StoreSpec], [Outbox]: the contract of each method, every branch.
    - [Invariant]: the table invariant [db_wf].  [History]: the event-sourced
      specification (a small state machine over the seven event types) and the
      refinement of the tables to it.
    - [Worker], [WorkerFacts]: [internal/worker], the claim/execute/report loop
      with its metrics and spans as outputs, both backoffs at [int64].
    - [Tracing]: [internal/tracing] over a class [Otel] for the OpenTelemetry
      library, whose laws are the class [OtelLaws].
    - [Lifecycle]: the queue with workers that respect their leases, as a step
      relation [sys_step] with crashes, and its invariant.  [Ledger]: the
      stricter state machine its log follows, and the accounts of the log.
      [Progress]: from every state each job can be brought to its end.
      [Fairness]: a due job is passed over a bounded number of times.
      [LateReports]: what the same statements do when a report comes after the
      lease.
    - [Shipper], [ShipperFacts]: [internal/analytics/shipper.go] and
      [client.go], with the ClickHouse table as a list of rows, and a rely and
      guarantee relation [pipe_step] for what runs between a cycle's calls.
    - [GrpcServer]: [internal/grpcserver], unary calls and the polling stream.
      [WireTypes]: the widths of the values that pass between the components.
    - [FilePath], [Handlers]: [internal/handlers], with the path functions of
      the standard library, files and log lines as the handlers' world.
      [Json], [JsonFacts], [Payloads]: what they and [enqueue] use of
      [encoding/json], and the payload structs decoded with it.
    - [Config]: [internal/config] with [time.ParseDuration] and [strconv.Atoi].
      [DurationText]: the text of a duration is read back, exactly.
    - [Process]: the reaper's loop of [cmd/jobqueue], the collector of
      [internal/metrics], the level of [internal/logging].  [Metrics]: the
      instruments of [internal/metrics] and their use, over a class
      [Prometheus] for the client library.
    - [Reports], [Percentiles], [Backlog]: the queries of
      [internal/analytics/reports.go] over the rows of [Shipper] (ClickHouse's
      approximate [uniq] and [quantile] are arguments), the drain-time estimate,
      and the report of the backlog against the tables.
    - [Fmt], [Flag], [Cli], [CliFacts]: the client subcommands of
      [cmd/jobqueue/main.go], with what they use of [fmt], [time] and [flag];
      a command is a function on the tables that prints lines and returns,
      exits or waits.  The transport of gRPC is part of the environment.
    - [Work], [WorkFacts]: [runServe] and [runWork], their start-up, and the
      goroutines of a worker process as the labelled interleaving relation
      [own_step]; [proc_step] is the process among arbitrary others.  [Pool]:
      its demand of database connections.
    - [Main]: the entry point, the logger and the dispatch.  [Resources]: what
      the commands acquire, defer and release.
    - [Cluster]: the whole system, closed: any number of worker processes that
      start with [startWork], step, crash and are killed, and clients that call
      [Submit], over one pair of databases ([cluster_step]), with the list of
      all handler runs as a ghost.  [Verdicts]: what the events of the outbox
      say about runs.  [Contract]: the commands of a user on top of it.
      [Leases]: the cluster against a clock, as an instance of [Lifecycle].
      [Starvation]: the bound of [Fairness] for the processes.
      [Recovery]: one more process ends any job.  [Shutdown]: whose hands a
      running row is in.
    - [Demo], [CommandDemo], [ClusterDemo]: instances of the classes, small
      tables and a run of the cluster on which the theorems are applied.
      [Conformance]: the repository's own tests, run on the model.

    ** What the theorems show

    - The outbox is a complete and faithful history: replaying it gives the
      tables, attempts count claims, and a claimed job is not handed out again
      before an event puts it back ([History]).
    - Claims respect eligibility, priority and limits, and make progress
      ([Claim]); each report, the reaper and the queries behave as specified on
      every branch ([StoreSpec], [Outbox]); the tables stay well formed
      ([Invariant]).
    - With leases respected, attempts are bounded, terminal states are final,
      dead letters are the failed jobs, and the reaper is never blocked
      ([Lifecycle]); without, two concrete histories show a completed job run
      again and a reaper that can never succeed ([LateReports]).  Each job then
      has a bounded log, and what was enqueued and has not ended is what waits
      or runs ([Ledger]), so the backlog report ends at the length of the queue in
      Postgres when ClickHouse has each event once and the window holds them all
      ([Backlog]); and no job is ever stuck, whoever
      crashes ([Progress]), or passed over more than a bounded number of
      times, whatever is submitted after it, but for claims that find its row
      locked ([Fairness], [Starvation]).
    - A worker never panics, records the outcome of each job or logs why the
      server did not take it, shuts down cleanly, and its spans belong to the
      submitter's trace ([WorkerFacts], [GrpcServer]).
    - The shipper delivers at least once, the deduplicated view exactly once,
      drains its backlog, and cannot disturb the queue ([ShipperFacts]).
    - [write_file] writes below its directory only, makes no directory that is
      not on the way there, and is idempotent, with the base directories for
      which the test fails; [http_check] and its timeout
      ([Handlers]); configuration is parsed totally, each field from its own variable,
      and fails fast ([Config]);
      scrapes are exact, and failed passes never stop the reaper ([Process]);
      instruments are registered and used as declared ([Metrics]); the reports
      agree with each other, the estimate is deterministic ([Reports]), and
      redelivery changes counts but no percentile ([Percentiles]).
    - No conversion between Postgres, Go, protobuf and ClickHouse loses a bit
      ([WireTypes]); payloads are decoded to what was encoded ([Payloads]).
    - A worker process is safe under every interleaving of its goroutines with
      each other and with other processes, starts whatever happens to the
      observability services, and returns after a signal ([WorkFacts]); its
      pool always has a free connection ([Pool]).
    - Over the whole cluster, whatever crashes: no attempt is run twice, each
      event reports on a run of its own, completed rows had a successful run of
      their handler, every process is an instance of the single-process model,
      and ClickHouse ends as a faithful copy of the outbox ([Cluster]); what
      [enqueue] and [watch] print to a user is so ([Contract]); if no report
      comes after its lease, the cluster refines the abstract queue of
      [Lifecycle], so a handler runs at most five times for a job and ended jobs
      stay as they are ([Leases]), and a fresh process can bring any job to its
      end whatever its handlers meet ([Recovery]); when all workers have returned,
      only jobs of lost or refused answers can be running ([Shutdown]).
    - A file enqueued on the command line under a plain name is on the disk with
      its content once a worker that can write there has run the job; [enqueue] and [watch] tell their caller the
      truth ([CliFacts]); every exit has its code and its line ([Main]); what a
      command acquired is released when it returns, but for a connection to
      ClickHouse that did not answer, and not when it calls [os.Exit]
      ([Resources]).

    ** Bounds and fuel

    The loops of the program run over explicit lists of turns (what the
    scheduler, clock and database did in each), so no fuel is needed: a theorem
    for every list is a theorem for every finite run.  The rounds of [Recovery]
    are bounded by [outbox_bounded]: each writes an event, and under the lease
    discipline a job has at most eleven.  The duration parser has
    the length of its input as fuel, which [parse_duration_total] proves is
    enough, and the JSON parser twice the length of its input and two, for which
    [parse_total] proves the same.  Integers wrap at their Go width ([int64],
    [int32], [uint32]) and Postgres columns abort when exceeded.

    ** What is not modelled

    Concurrency inside one statement (row locks other than SKIP LOCKED's): the
    server takes them, and the model has a committed statement as one step, with
    the rows it found locked in its environment.  Identity values are in the
    order of the commits, which Postgres does not promise across transactions;
    and under the lease discipline ([sys_step], [timely]) the times of the
    statements do not decrease in the order of their commits, whereas [now()] is
    the start of a transaction.  The inside of the connection
    pool, the HTTP server in front of the collector, the generated
    protobuf code and deployment files.  Parameters
    stand for the libraries that are not the standard one: pgx and Postgres,
    ClickHouse, gRPC, OpenTelemetry and Prometheus. *)

From stdpp Require Import prelude gmap strings list sorting.
From Stdlib Require Import ZArith Lia.

Declare Scope jq_scope.
Delimit Scope jq_scope with jq.
#[global] Open Scope Z_scope.

(** The hint database of the development: the steps of the store and the
    invariants they keep. *)
Create HintDb jq discriminated.

(** ** Lists *)

Section lists.
Context {A : Type}.
Implicit Types (l k : list A) (x y : A).

(** SQL's ORDER BY as a stable insertion sort: rows with equal keys keep the
    order in which the plan below the sort produced them. *)
Fixpoint insert_by (le : A → A → bool) (x : A) (l : list A) : list A :=
  match l with
  | [] => [x]
  | y :: l' => if le x y then x :: y :: l' else y :: insert_by le x l'
  end.

Fixpoint order_by (le : A → A → bool) (l : list A) : list A :=
  match l with
  | [] => []
  | x :: l' => insert_by le x (order_by le l')
  end.

Lemma insert_by_perm le x l : insert_by le x l ≡ₚ x :: l.
Proof.
  induction l as [|y l IH]; simpl; [done|].
  case_match; [done|]. rewrite IH. apply Permutation_swap.
Qed.

Lemma order_by_perm le l : order_by le l ≡ₚ l.
Proof. induction l as [|x l IH]; simpl; [done|]. by rewrite insert_by_perm, IH. Qed.

Section order.
Context (le : A → A → bool).
Context (le_total : ∀ x y, le x y ∨ le y x).
Context (le_trans : ∀ x y z, le x y → le y z → le x z).

Lemma insert_by_sorted x l :
  StronglySorted le l → StronglySorted le (insert_by le x l).
Proof.
  induction 1 as [|y l Hs IH Hf]; simpl; [repeat constructor|].
  destruct (le x y) eqn:E.
  - constructor; [by constructor|]. constructor; [by rewrite E|].
    eapply Forall_impl; [exact Hf|]. intros z Hz. by eapply le_trans; [rewrite E|].
  - constructor; [done|]. rewrite insert_by_perm. constructor; [|done].
    destruct (le_total x y) as [H|H]; [by rewrite E in H|done].
Qed.

Lemma order_by_sorted l : StronglySorted le (order_by le l).
Proof. induction l; simpl; [constructor|by apply insert_by_sorted]. Qed.

End order.

Lemma strongly_sorted_take (R : relation A) n l :
  StronglySorted R l → StronglySorted R (take n l).
Proof.
  intros Hs. revert n. induction Hs as [|x l Hs IH Hf]; intros [|n]; simpl; try by constructor.
  constructor; [done|]. by apply Forall_take.
Qed.

(** In a sorted list every element kept by LIMIT precedes every dropped one. *)
Lemma strongly_sorted_take_drop (R : relation A) n l x y :
  StronglySorted R l → x ∈ take n l → y ∈ drop n l → R x y.
Proof.
  intros Hs. revert n. induction Hs as [|z l Hs IH Hf]; intros [|n]; simpl;
    rewrite ?elem_of_nil; try done.
  rewrite list_elem_of_In. intros [->|Hx]%in_inv Hy.
  - rewrite Forall_forall in Hf. apply Hf.
    rewrite <-(take_drop n l). set_solver.
  - eapply IH; [by apply list_elem_of_In|done].
Qed.

Lemma strongly_sorted_filter (R : relation A) (P : A → Prop) `{∀ x, Decision (P x)} l :
  StronglySorted R l → StronglySorted R (filter P l).
Proof.
  induction 1 as [|x l Hs IH Hf]; [by constructor|]. rewrite filter_cons.
  case_decide; [|done]. constructor; [done|]. apply Forall_forall.
  intros y [_ Hy]%list_elem_of_filter. rewrite Forall_forall in Hf. by apply Hf.
Qed.

(** A list ordered by an injective key is the only sorted permutation of itself. *)
Lemma order_by_key (le : A → A → bool) (key : A → Z) l k :
  (∀ x y, le x y ↔ key x ≤ key y) → StronglySorted (λ x y, key x < key y) l → k ≡ₚ l →
  order_by le k = l.
Proof.
  intros Hle Hs Hp.
  assert (∀ x y, x ∈ l → y ∈ l → key x = key y → x = y) as Hinj.
  { clear Hp k. induction Hs as [|z l Hs IH Hf]; intros x y; [by intros ?%not_elem_of_nil|].
    rewrite Forall_forall in Hf. rewrite !elem_of_cons.
    intros [->|Hx] [->|Hy] E; [done| | |by apply IH].
    - specialize (Hf _ Hy). simpl in Hf. lia.
    - specialize (Hf _ Hx). simpl in Hf. lia. }
  apply (StronglySorted_unique_strong le).
  - intros x y Hx Hy Hxy Hyx. rewrite order_by_perm, Hp in Hx.
    apply Hinj; [done|done|]. apply Hle in Hxy, Hyx. lia.
  - apply order_by_sorted.
    + intros x y. rewrite !Hle. lia.
    + intros x y z. rewrite !Hle. lia.
  - clear Hp Hinj k. induction Hs as [|z l Hs IH Hf]; constructor; [done|].
    eapply Forall_impl; [exact Hf|]. intros y Hy. apply Hle. simpl in Hy. lia.
  - by rewrite order_by_perm.
Qed.

Lemma filter_all (P : A → Prop) `{∀ x, Decision (P x)} l :
  (∀ x, x ∈ l → P x) → filter P l = l.
Proof.
  induction l as [|x l IH]; intros Hl; [done|]. rewrite filter_cons, decide_True.
  - f_equal. apply IH. intros y Hy. apply Hl. by right.
  - apply Hl. by left.
Qed.

(** Sums of natural numbers, term by term. *)
Lemma sum_list_with_le (f g : A → nat) (l : list A) :
  (∀ x, x ∈ l → (f x ≤ g x)%nat) → (sum_list_with f l ≤ sum_list_with g l)%nat.
Proof.
  induction l as [|x l IH]; intros Hle; [done|]. simpl.
  pose proof (Hle x ltac:(by left)). specialize (IH ltac:(intros; apply Hle; by right)). lia.
Qed.

Lemma sum_list_with_lt (f g : A → nat) (l : list A) (x : A) :
  (∀ x, x ∈ l → (f x ≤ g x)%nat) → x ∈ l → (f x < g x)%nat → (sum_list_with f l < sum_list_with g l)%nat.
Proof.
  intros Hle (l1 & l2 & ->)%list_elem_of_split Hlt. rewrite !sum_list_with_app. simpl.
  assert (sum_list_with f l1 ≤ sum_list_with g l1)%nat by (apply sum_list_with_le; set_solver).
  assert (sum_list_with f l2 ≤ sum_list_with g l2)%nat by (apply sum_list_with_le; set_solver). lia.
Qed.

Lemma NoDup_submseteq_inv (l k : list A) : l ⊆+ k → NoDup k → NoDup l.
Proof. intros [k' ->]%submseteq_Permutation Hnd. by apply NoDup_app in Hnd as (? & _). Qed.

Lemma omap_none {B} (f : A → option B) (l : list A) : (∀ x, x ∈ l → f x = None) → omap f l = [].
Proof.
  induction l as [|x l IH]; intros H; [done|]. simpl. rewrite (H x) by (by left).
  apply IH. intros y Hy. apply H. by right.
Qed.

Lemma omap_middle {B} (f : A → option B) l1 x l2 :
  omap f (l1 ++ x :: l2) = omap f l1 ++ option_list (f x) ++ omap f l2.
Proof. rewrite omap_app. simpl. by destruct (f x). Qed.

Lemma filter_ext_in (P Q : A → Prop) `{∀ x, Decision (P x)} `{∀ x, Decision (Q x)} l :
  (∀ x, x ∈ l → P x ↔ Q x) → filter P l = filter Q l.
Proof.
  induction l as [|x l IH]; intros Hl; [done|]. rewrite !filter_cons, IH.
  - pose proof (Hl x ltac:(by left)). by repeat case_decide; try tauto.
  - intros y Hy. apply Hl. by right.
Qed.

Lemma filter_none (P : A → Prop) `{∀ x, Decision (P x)} l :
  (∀ x, x ∈ l → ¬ P x) → filter P l = [].
Proof.
  induction l as [|x l IH]; intros Hl; [done|]. rewrite filter_cons, decide_False.
  - apply IH. intros y Hy. apply Hl. by right.
  - apply Hl. by left.
Qed.

End lists.

Lemma strongly_sorted_fmap {A B} (f : A → B) (R : relation B) l :
  StronglySorted R (f <$> l) ↔ StronglySorted (λ x y, R (f x) (f y)) l.
Proof.
  induction l as [|x l IH]; simpl; [by split; constructor|].
  split; inversion_clear 1; constructor; try (by apply IH); by apply Forall_fmap.
Qed.

Lemma strongly_sorted_lt_NoDup (l : list Z) : StronglySorted Z.lt l → NoDup l.
Proof.
  induction 1 as [|x l _ IH Hf]; constructor; [|done].
  intros Hx. rewrite Forall_forall in Hf. specialize (Hf _ Hx). simpl in Hf. lia.
Qed.

(** A strictly increasing key determines the element. *)
Lemma strongly_sorted_key_inj {A} (f : A → Z) l x y :
  StronglySorted Z.lt (f <$> l) → x ∈ l → y ∈ l → f x = f y → x = y.
Proof.
  induction l as [|z l IH]; simpl; [by rewrite elem_of_nil|].
  intros [Hs Hf]%StronglySorted_inv. rewrite Forall_fmap, Forall_forall in Hf. simpl in Hf.
  rewrite !elem_of_cons. intros [->|Hx] [->|Hy] E; [done| | |by auto].
  - specialize (Hf _ Hy). simpl in Hf. lia.
  - specialize (Hf _ Hx). simpl in Hf. lia.
Qed.

(** ** Strings *)

Lemma string_app_assoc (a b c : string) : (a +:+ b) +:+ c = a +:+ (b +:+ c).
Proof. induction a as [|x a IH]; [done|]. apply (f_equal (String.String x)), IH. Qed.

Lemma string_app_nil_r (a : string) : a +:+ "" = a.
Proof. induction a as [|x a IH]; [done|]. apply (f_equal (String.String x)), IH. Qed.

(** ** Machine integers *)

(** The value of [z] in a [w]-bit two's complement integer. *)
Definition wrap (w z : Z) : Z := (z + 2 ^ (w - 1)) mod 2 ^ w - 2 ^ (w - 1).
Definition in_width (w z : Z) : Prop := - 2 ^ (w - 1) ≤ z < 2 ^ (w - 1).

Lemma wrap_id w z : 0 < w → in_width w z → wrap w z = z.
Proof.
  unfold in_width, wrap. intros Hw [Hl Hh].
  assert (2 ^ w = 2 * 2 ^ (w - 1)) as E.
  { rewrite <-Z.pow_succ_r by lia. f_equal; lia. }
  rewrite Z.mod_small; lia.
Qed.

Lemma wrap_in_width w z : 0 < w → in_width w (wrap w z).
Proof.
  unfold in_width, wrap. intros Hw.
  assert (2 ^ w = 2 * 2 ^ (w - 1)) as E.
  { rewrite <-Z.pow_succ_r by lia. f_equal; lia. }
  assert (0 < 2 ^ (w - 1)) by (apply Z.pow_pos_nonneg; lia).
  pose proof (Z.mod_pos_bound (z + 2 ^ (w - 1)) (2 ^ w)). lia.
Qed.

(** Go's [int64], [int32] and [uint32] conversions. *)
Definition int64 (z : Z) : Z := wrap 64 z.
Definition int32 (z : Z) : Z := wrap 32 z.
Definition uint32 (z : Z) : Z := z mod 2 ^ 32.

Definition max_int64 : Z := 2 ^ 63 - 1.
Definition max_int4 : Z := 2 ^ 31 - 1.

Lemma int64_id z : - 2 ^ 63 ≤ z < 2 ^ 63 → int64 z = z.
Proof. intros. apply wrap_id; unfold in_width; lia. Qed.

Lemma int64_range z : - 2 ^ 63 ≤ int64 z < 2 ^ 63.
Proof. pose proof (wrap_in_width 64 z). unfold in_width in *. unfold int64. lia. Qed.

Lemma int32_id z : - 2 ^ 31 ≤ z < 2 ^ 31 → int32 z = z.
Proof. intros. apply wrap_id; unfold in_width; lia. Qed.

(** Doubling a positive [int64] either is exact or yields a non-positive value. *)
Lemma int64_double z :
  0 < z < 2 ^ 63 → int64 (z * 2) = z * 2 ∧ z * 2 < 2 ^ 63 ∨ int64 (z * 2) ≤ 0 ∧ 2 ^ 63 ≤ z * 2.
Proof.
  intros Hz. destruct (decide (z * 2 < 2 ^ 63)); [left; rewrite int64_id; lia|right].
  split; [|lia]. unfold int64, wrap.
  replace (z * 2 + 2 ^ (64 - 1)) with (z * 2 - 2 ^ 63 + 1 * 2 ^ 64) by lia.
  rewrite Z.mod_add by lia. rewrite Z.mod_small; lia.
Qed.
