(* ===== verification/GoBase.v ===== *)
(** * Go values shared by every component

    Results and errors as the source uses them: a call returns a value or an
    error; [fmt.Errorf("prefix: %w", err)] wraps an error under a prefix and
    [errors.Is] looks through the wrappers; a [context.Context] carries its
    cancellation and the active span. *)

From stdpp Require Import prelude strings pretty.
From S2P Require Import Prelude.

(** ** Results *)

Inductive result (E A : Type) : Type :=
| Ok (a : A)
| Err (e : E).
Arguments Ok {E A} _.
Arguments Err {E A} _.

Definition is_ok {E A} (r : result E A) : bool :=
  match r with Ok _ => true | Err _ => false end.

Definition bind_result {E A B} (r : result E A) (k : A → result E B) : result E B :=
  match r with Ok a => k a | Err e => Err e end.

Notation "'let?' x ':=' r 'in' k" := (bind_result r (λ x, k))
  (at level 10, x pattern, r at level 100, k at level 200) : jq_scope.

Lemma bind_result_ok {E A B} (r : result E A) (k : A → result E B) b :
  bind_result r k = Ok b ↔ ∃ a, r = Ok a ∧ k a = Ok b.
Proof.
  destruct r as [a|e]; simpl; [|by split; [|intros (?&?&?)]].
  split; [by eauto|]. by intros (?&[= <-]&?).
Qed.

(** A guard of a statement or handler: the error when the test fails. *)
Definition check {E} (b : bool) (e : E) : result E unit := if b then Ok tt else Err e.

Lemma check_ok {E} b (e : E) u : check b e = Ok u ↔ b = true.
Proof. unfold check. by destruct b, u. Qed.

(** ** Errors *)

(** The error values the program builds or receives: a plain text (also a
    driver's error, which the program only prints), pgx's [ErrNoRows] sentinel
    with the text the driver gives it, and a wrapper made with [%w]. *)
Inductive error : Type :=
| EText (s : string)
| ENoRows (s : string)
| EWrap (prefix : string) (e : error).

#[global] Instance error_eq_dec : EqDecision error.
Proof. solve_decision. Defined.

(** [err.Error()]. *)
Fixpoint Error (e : error) : string :=
  match e with
  | EText s | ENoRows s => s
  | EWrap p e => p +:+ Error e
  end.

(** [errors.Is(err, pgx.ErrNoRows)]: looks through every [%w] wrapper. *)
Fixpoint is_no_rows (e : error) : bool :=
  match e with
  | EText _ => false
  | ENoRows _ => true
  | EWrap _ e => is_no_rows e
  end.

(** The quoted form of a string: [fmt]'s %q verb, and the [quote] of package
    [time]. *)
Class Quoting : Type := {
  quote : string → string;
  time_quote : string → string;
}.

(** ** Contexts *)

(** A [context.Context]: the error [ctx.Err()] reports, if it is done, and the
    span the OpenTelemetry library stored in it, of a type [S] the library
    owns. *)
Record context (S : Type) : Type := Context {
  ctx_err : option string;
  ctx_span : option S;
}.
Arguments Context {S} _ _.
Arguments ctx_err {S} _.
Arguments ctx_span {S} _.

(** [context.Background()]. *)
Definition Background {S} : context S := Context None None.

(** [context.WithoutCancel(ctx)]: the values of [ctx], never done. *)
Definition WithoutCancel {S} (ctx : context S) : context S :=
  Context None (ctx_span ctx).

(** ** Durations *)

(** A [time.Duration] is an [int64] count of nanoseconds. *)
Definition Microsecond : Z := 1000.
Definition Millisecond : Z := 1000 * Microsecond.
Definition Second : Z := 1000 * Millisecond.
Definition Minute : Z := 60 * Second.
Definition Hour : Z := 60 * Minute.

Definition digit_char (d : Z) : Ascii.ascii := Ascii.ascii_of_nat (48 + Z.to_nat d).

(** [time.fmtFrac]: the fraction of [v / 10^prec] without trailing zeros, put
    in front of [buf], and the integer part that is left. *)
Fixpoint fmtFrac_loop (prec : nat) (v : Z) (print : bool) (buf : string) : string * Z * bool :=
  match prec with
  | O => (buf, v, print)
  | S prec =>
      let digit := v mod 10 in
      let print := print || negb (digit =? 0) in
      fmtFrac_loop prec (v / 10) print
        (if print then String.String (digit_char digit) buf else buf)
  end.

Definition fmtFrac (v : Z) (prec : nat) (buf : string) : string * Z :=
  match fmtFrac_loop prec v false buf with
  | (buf, v, print) => (if print then "." +:+ buf else buf, v)
  end.

(** [time.fmtInt]. *)
Definition fmtInt (v : Z) (buf : string) : string := pretty (Z.to_N v) +:+ buf.

(** The two bytes of the micro sign U+00B5 that [Duration.String] prints. *)
Definition micro_sign : string :=
  String.String (Ascii.ascii_of_nat 194) (String.String (Ascii.ascii_of_nat 181) EmptyString).

(** The text of the magnitude [u] of a duration. *)
Definition Duration_body (u : Z) : string :=
  if u =? 0 then "0s"
  else if u <? Microsecond then fmtInt u "ns"
  else if u <? Millisecond then
    let '(buf, u) := fmtFrac u 3 (micro_sign +:+ "s") in fmtInt u buf
  else if u <? Second then let '(buf, u) := fmtFrac u 6 "ms" in fmtInt u buf
  else
    let '(buf, u) := fmtFrac u 9 "s" in
    let buf := fmtInt (u mod 60) buf in
    let u := u / 60 in
    if 0 <? u then
      let buf := fmtInt (u mod 60) ("m" +:+ buf) in
      let u := u / 60 in
      if 0 <? u then fmtInt u ("h" +:+ buf) else buf
    else buf.

(** [time.Duration.String]. *)
Definition Duration_String (d : Z) : string :=
  if d <? 0 then "-" +:+ Duration_body (Z.abs d) else Duration_body (Z.abs d).

Example Duration_String_lease : Duration_String (30 * Second) = "30s".
Proof. reflexivity. Qed.
Example Duration_String_mixed : Duration_String (5400 * Second + 500 * Millisecond) = "1h30m0.5s".
Proof. reflexivity. Qed.
Example Duration_String_negative : Duration_String (- Second) = "-1s".
Proof. reflexivity. Qed.
Example Duration_String_millis : Duration_String (1500 * Microsecond) = "1.5ms".
Proof. reflexivity. Qed.
