(* ===== verification/Job.v ===== *)
(** * Domain types

    [internal/job]: the lifecycle status, the event types of the outbox and the
    records the storage layer hands to the worker, the gRPC service, the shipper
    and the command line.  An [int64] or [int] field is a [Z]; a timestamp is a
    [Z] counting microseconds, the resolution of Postgres. *)

From stdpp Require Import prelude strings.
From S2P Require Import Prelude.

(** [job.Status]. *)
Inductive Status : Type := StatusQueued | StatusRunning | StatusCompleted | StatusFailed.

#[global] Instance Status_eq_dec : EqDecision Status.
Proof. solve_decision. Defined.

(** The text of a status, in the table and on the wire. *)
Definition status_text (st : Status) : string :=
  match st with
  | StatusQueued => "queued"
  | StatusRunning => "running"
  | StatusCompleted => "completed"
  | StatusFailed => "failed"
  end.

(** [job.EventType]. *)
Inductive EventType : Type :=
| EventEnqueued | EventClaimed | EventCompleted | EventRetried | EventFailed
| EventReapedRetry | EventReapedFailed.

#[global] Instance EventType_eq_dec : EqDecision EventType.
Proof. solve_decision. Defined.

Definition event_type_text (t : EventType) : string :=
  match t with
  | EventEnqueued => "enqueued"
  | EventClaimed => "claimed"
  | EventCompleted => "completed"
  | EventRetried => "retried"
  | EventFailed => "failed"
  | EventReapedRetry => "reaped_retry"
  | EventReapedFailed => "reaped_failed"
  end.

(** [job.Event]: one row of the outbox, as the shipper reads it. *)
Record Event : Type := MkEvent {
  ID : Z;
  JobID : Z;
  JobType : string;
  Event_EventType : EventType;
  Event_Attempts : Z;
  WorkerID : string;
  ErrorMessage : string;
  OccurredAt : Z;
}.

(** [job.Job]: the shape of a claimed row. *)
Record Job : Type := MkJob {
  Job_ID : Z;
  Type_ : string;
  Payload : string;
  Attempts : Z;
  MaxAttempts : Z;
  TraceContext : string;
}.

(** [job.Snapshot]. *)
Record Snapshot : Type := MkSnapshot {
  Snap_ID : Z;
  Snap_Status : Status;
  Snap_Attempts : Z;
  Snap_MaxAttempts : Z;
  Snap_LastError : string;
}.

(** [job.DeadLetter]. *)
Record DeadLetter : Type := MkDeadLetter {
  DL_ID : Z;
  DL_JobID : Z;
  DL_Type : string;
  DL_Payload : string;
  DL_Attempts : Z;
  DL_LastError : string;
  DL_FailedAt : Z;
}.

#[global] Instance Event_eq_dec : EqDecision Event.
Proof. solve_decision. Defined.
#[global] Instance Job_eq_dec : EqDecision Job.
Proof. solve_decision. Defined.
#[global] Instance DeadLetter_eq_dec : EqDecision DeadLetter.
Proof. solve_decision. Defined.

Lemma status_text_inj st st' : status_text st = status_text st' → st = st'.
Proof. by destruct st, st'. Qed.

Lemma event_type_text_inj t t' : event_type_text t = event_type_text t' → t = t'.
Proof. by destruct t, t'. Qed.

#[global] Instance status_text_Inj : Inj (=) (=) status_text.
Proof. intros ??. apply status_text_inj. Qed.
#[global] Instance event_type_text_Inj : Inj (=) (=) event_type_text.
Proof. intros ??. apply event_type_text_inj. Qed.
