(* ===== verification/Store.v ===== *)
(** * The storage layer

    [internal/store]: the three Postgres tables of [migrations/] and the SQL
    statement of every [Store] method as a function on them.

    A statement is atomic: it maps the tables to new tables or aborts with a
    server error and changes nothing.  What Postgres and pgx decide is in the
    statement's environment [stmt_env]: the transaction time, the rows other
    transactions hold locked, the order of rows a query does not order, gaps in
    the identity sequences, and whether the connection fails (before or after
    the commit).  Functions of theirs the program relies on (the [jsonb] and
    [interval] input functions, the text check, the conversion of a Go time)
    are the fields of the class [Postgres]. *)

From stdpp Require Import prelude gmap strings list sorting.
From S2P Require Import Prelude GoBase Job.
#[local] Open Scope jq_scope.

(** ** The server and the driver *)

(** The server errors the statements below can meet. *)
Inductive pg_error : Type :=
| InvalidText | InvalidJson | InvalidInterval | NegativeLimit
| IntegerOutOfRange | SequenceExhausted | UniqueViolation.

Class Postgres : Type := {
  text_ok : string → bool;
  jsonb_in : string → option string;
  interval_in : string → option Z;
  timestamptz_in : Z → Z;
  pg_message : pg_error → string;
  no_rows_text : string;
}.

Inductive seq_name : Type := SeqJobs | SeqDeadLetters | SeqEvents.

(** What surrounds one execution of one statement.  [env_fault] is a connection
    failure the client sees; its flag says whether the server had committed the
    statement by then.  [env_late] says whether the driver reports an error of
    a query only while its rows are read. *)
Record stmt_env : Type := StmtEnv {
  env_now : Z;
  env_locked : gset Z;
  env_gap : seq_name → N;
  env_fault : option (bool * string);
  env_late : bool;
  env_plan : ∀ A : Type, list A → list A;
  env_plan_perm : ∀ (A : Type) (l : list A), env_plan A l ≡ₚ l;
}.
Arguments env_plan _ {A} _.

(** An undisturbed execution at time [now]. *)
Definition quiet (now : Z) : stmt_env :=
  StmtEnv now ∅ (λ _, 0%N) None false (λ _ l, l) (λ _ l, Permutation_refl l).

(** ** The tables *)

(** A row of [jobs]; its primary key [id] is the key of the table. *)
Record job_row : Type := JobRow {
  r_type : string;
  r_payload : string;
  r_status : Status;
  r_priority : Z;
  r_attempts : Z;
  r_max_attempts : Z;
  r_run_after : Z;
  r_claimed_at : option Z;
  r_claimed_by : option string;
  r_lease_expires_at : option Z;
  r_created_at : Z;
  r_completed_at : option Z;
  r_last_error : option string;
  r_trace_context : string;
}.

(** A row of [job_events]: what the shipper reads, and the shipping mark. *)
Record event_row : Type := EventRow {
  ev_event : Event;
  ev_shipped_at : option Z;
}.

(** The tables.  [job_events] and [dead_letters] list their rows in insertion
    order; [next_*] is the least value an identity sequence can still give. *)
Record db : Type := Db {
  jobs : gmap Z job_row;
  dead_letters : list DeadLetter;
  job_events : list event_row;
  next_job : Z;
  next_dead_letter : Z;
  next_event : Z;
}.

(** The schema just migrated. *)
Definition db_empty : db := Db ∅ [] [] 1 1 1.

#[global] Instance job_row_eq_dec : EqDecision job_row.
Proof. solve_decision. Defined.

Definition with_jobs (m : gmap Z job_row) (s : db) : db :=
  Db m (dead_letters s) (job_events s) (next_job s) (next_dead_letter s) (next_event s).

(** ** The SQL the statements are built from *)

(** [UPDATE jobs SET f WHERE P], and the rows its RETURNING clause produces. *)
Definition sql_update (P : Z → job_row → bool) (f : job_row → job_row)
    (m : gmap Z job_row) : gmap Z job_row :=
  map_imap (λ id r, Some (if P id r then f r else r)) m.

Definition sql_returning (P : Z → job_row → bool) (f : job_row → job_row)
    (m : gmap Z job_row) : list (Z * job_row) :=
  (λ p : Z * job_row, (p.1, f p.2)) <$> filter (λ p : Z * job_row, P p.1 p.2) (map_to_list m).

(** An identity column takes the next value of its sequence for each row. *)
Definition next_id (e : stmt_env) (sq : seq_name) (next : Z) : Z := next + Z.of_N (env_gap e sq).

(** A row to insert into [job_events]: the columns the statements list. *)
Record new_event : Type := NewEvent {
  ne_job_id : Z;
  ne_job_type : string;
  ne_event_type : EventType;
  ne_attempts : Z;
  ne_worker_id : string;
  ne_error_message : string;
}.

Definition event_of (now id : Z) (n : new_event) : event_row :=
  EventRow (MkEvent id (ne_job_id n) (ne_job_type n) (ne_event_type n) (ne_attempts n)
              (ne_worker_id n) (ne_error_message n) now) None.

Fixpoint number_events (now id : Z) (l : list new_event) : list event_row :=
  match l with
  | [] => []
  | n :: l => event_of now id n :: number_events now (id + 1) l
  end.

(** [INSERT INTO job_events ... SELECT ...]. *)
Definition insert_job_events (e : stmt_env) (l : list new_event) (s : db) : result pg_error db :=
  match l with
  | [] => Ok s
  | _ =>
      let id := next_id e SeqEvents (next_event s) in
      let id' := id + Z.of_nat (length l) in
      let? _ := check (id' - 1 <=? max_int64) SequenceExhausted in
      Ok (Db (jobs s) (dead_letters s) (job_events s ++ number_events (env_now e) id l)
             (next_job s) (next_dead_letter s) id')
  end.

(** [INSERT INTO dead_letters ... SELECT ...], under [UNIQUE (job_id)]. *)
Fixpoint insert_dead_letter_rows (now : Z) (lastErr : string) (id : Z)
    (rows : list (Z * job_row)) (tbl : list DeadLetter) : result pg_error (list DeadLetter) :=
  match rows with
  | [] => Ok tbl
  | (job_id, r) :: rows =>
      let? _ := check (bool_decide (job_id ∉ DL_JobID <$> tbl)) UniqueViolation in
      let? _ := check (id <=? max_int64) SequenceExhausted in
      insert_dead_letter_rows now lastErr (id + 1) rows
        (tbl ++ [MkDeadLetter id job_id (r_type r) (r_payload r) (r_attempts r) lastErr now])
  end.

Definition insert_dead_letters (e : stmt_env) (lastErr : string) (rows : list (Z * job_row))
    (s : db) : result pg_error db :=
  match rows with
  | [] => Ok s
  | _ =>
      let id := next_id e SeqDeadLetters (next_dead_letter s) in
      let? tbl := insert_dead_letter_rows (env_now e) lastErr id rows (dead_letters s) in
      Ok (Db (jobs s) tbl (job_events s) (next_job s) (id + Z.of_nat (length rows)) (next_event s))
  end.

Arguments insert_job_events : simpl never.
Arguments insert_dead_letters : simpl never.

(** A statement of the program: its answer and the tables it leaves, or the
    server error that aborts it. *)
Definition stmt (A : Type) : Type := stmt_env → db → result pg_error (A * db).

Definition of_option {A} (o : option A) (err : pg_error) : result pg_error A :=
  match o with Some a => Ok a | None => Err err end.

Section Store.
Context {Pg : Postgres} {Sp : Type}.
Implicit Types (ctx : context Sp) (e : stmt_env) (s : db).

(** One call of the pool.  A done context stops it; a connection failure loses
    the answer and, unless the server had committed, the effect. *)
Definition run_stmt {A} ctx e (prefix : string) (body : stmt A) (s : db) : result error A * db :=
  match ctx_err ctx, env_fault e with
  | Some t, _ => (Err (EWrap prefix (EText t)), s)
  | None, Some (false, t) => (Err (EWrap prefix (EText t)), s)
  | None, f =>
      match body e s with
      | Err c => (Err (EWrap prefix (EText (pg_message c))), s)
      | Ok (a, s') =>
          match f with
          | Some (_, t) => (Err (EWrap prefix (EText t)), s')
          | None => (Ok a, s')
          end
      end
  end.

(** The two places where a method that collects rows can see an error. *)
Definition rows_prefix e (prefix : string) : string :=
  if env_late e then prefix +:+ "scanning rows: " else prefix.

(** ** Enqueue *)

Definition enqueue_row e (jobType payload traceContext : string) : job_row :=
  JobRow jobType payload StatusQueued 0 0 5 (env_now e) None None None (env_now e) None None
         traceContext.

Definition stmt_enqueue (jobType payload traceContext : string) : stmt Z := λ e s,
  let? _ := check (text_ok jobType && text_ok traceContext) InvalidText in
  let? doc := of_option (jsonb_in payload) InvalidJson in
  let id := next_id e SeqJobs (next_job s) in
  let? _ := check (id <=? max_int64) SequenceExhausted in
  let r := enqueue_row e jobType doc traceContext in
  let s1 := Db (<[id := r]> (jobs s)) (dead_letters s) (job_events s) (id + 1)
               (next_dead_letter s) (next_event s) in
  let? s2 := insert_job_events e
               [NewEvent id (r_type r) EventEnqueued (r_attempts r) "" ""] s1 in
  Ok (id, s2).

Definition Enqueue ctx e (jobType payload traceContext : string) : db → result error Z * db :=
  run_stmt ctx e "store: enqueue: " (stmt_enqueue jobType payload traceContext).

(** ** GetStatus *)

Definition snapshot_of (id : Z) (r : job_row) : Snapshot :=
  MkSnapshot id (r_status r) (r_attempts r) (r_max_attempts r) (default "" (r_last_error r)).

Definition stmt_get (id : Z) : stmt (option Snapshot) := λ _ s,
  Ok (snapshot_of id <$> jobs s !! id, s).

Definition GetStatus ctx e (id : Z) (s : db) : result error Snapshot :=
  match (run_stmt ctx e "store: get status: " (stmt_get id) s).1 with
  | Ok (Some snap) => Ok snap
  | Ok None => Err (EWrap "store: get status: " (ENoRows no_rows_text))
  | Err err => Err err
  end.

(** ** Claim *)

(** The subquery: [WHERE status = 'queued' AND run_after <= now()], without the
    rows [FOR UPDATE SKIP LOCKED] skips. *)
Definition claim_where e (id : Z) (r : job_row) : bool :=
  bool_decide (r_status r = StatusQueued) && (r_run_after r <=? env_now e)
  && bool_decide (id ∉ env_locked e).

(** [ORDER BY priority DESC, run_after]. *)
Definition claim_le (p q : Z * job_row) : bool :=
  (r_priority q.2 <? r_priority p.2)
  || (r_priority p.2 =? r_priority q.2) && (r_run_after p.2 <=? r_run_after q.2).

Definition claim_eligible e s : list (Z * job_row) :=
  filter (λ p : Z * job_row, claim_where e p.1 p.2) (map_to_list (jobs s)).

(** [... ORDER BY ... LIMIT $3]. *)
Definition claim_select e (limit : Z) s : list (Z * job_row) :=
  take (Z.to_nat limit) (order_by claim_le (env_plan e (claim_eligible e s))).

Definition claim_set e (workerID : string) (interval : Z) (r : job_row) : job_row :=
  JobRow (r_type r) (r_payload r) StatusRunning (r_priority r) (r_attempts r + 1)
         (r_max_attempts r) (r_run_after r) (Some (env_now e)) (Some workerID)
         (Some (env_now e + interval)) (r_created_at r) (r_completed_at r) (r_last_error r)
         (r_trace_context r).

Definition job_of_row (p : Z * job_row) : Job :=
  MkJob p.1 (r_type p.2) (r_payload p.2) (r_attempts p.2) (r_max_attempts p.2)
        (r_trace_context p.2).

Definition claim_event (workerID : string) (p : Z * job_row) : new_event :=
  NewEvent p.1 (r_type p.2) EventClaimed (r_attempts p.2) workerID "".

Definition stmt_claim (workerID : string) (lease limit : Z) : stmt (list Job) := λ e s,
  let? interval := of_option (interval_in (Duration_String lease)) InvalidInterval in
  let? _ := check (text_ok workerID) InvalidText in
  let? _ := check (0 <=? limit) NegativeLimit in
  let ids := (claim_select e limit s).*1 in
  let P := λ (id : Z) (_ : job_row), bool_decide (id ∈ ids) in
  let f := claim_set e workerID interval in
  let claimed := env_plan e (sql_returning P f (jobs s)) in
  let? _ := check (forallb (λ p, r_attempts p.2 <=? max_int4) claimed) IntegerOutOfRange in
  let? s' := insert_job_events e (claim_event workerID <$> claimed)
               (with_jobs (sql_update P f (jobs s)) s) in
  Ok (job_of_row <$> claimed, s').

Definition Claim ctx e (workerID : string) (lease limit : Z) : db → result error (list Job) * db :=
  run_stmt ctx e (rows_prefix e "store: claim: ") (stmt_claim workerID lease limit).

(** ** Complete, Retry, Fail *)

Definition by_id (id : Z) (id' : Z) (_ : job_row) : bool := id =? id'.

Definition complete_set e (r : job_row) : job_row :=
  JobRow (r_type r) (r_payload r) StatusCompleted (r_priority r) (r_attempts r)
         (r_max_attempts r) (r_run_after r) (r_claimed_at r) (r_claimed_by r)
         (r_lease_expires_at r) (r_created_at r) (Some (env_now e)) (r_last_error r)
         (r_trace_context r).

Definition outcome_event (t : EventType) (msg : string) (p : Z * job_row) : new_event :=
  NewEvent p.1 (r_type p.2) t (r_attempts p.2) "" msg.

Definition stmt_complete (id : Z) : stmt unit := λ e s,
  let completed := sql_returning (by_id id) (complete_set e) (jobs s) in
  let? s' := insert_job_events e (outcome_event EventCompleted "" <$> completed)
               (with_jobs (sql_update (by_id id) (complete_set e) (jobs s)) s) in
  Ok (tt, s').

Definition Complete ctx e (id : Z) : db → result error unit * db :=
  run_stmt ctx e "store: complete: " (stmt_complete id).

Definition retry_set (runAfter : Z) (lastErr : string) (r : job_row) : job_row :=
  JobRow (r_type r) (r_payload r) StatusQueued (r_priority r) (r_attempts r)
         (r_max_attempts r) runAfter None None None (r_created_at r) (r_completed_at r)
         (Some lastErr) (r_trace_context r).

(** [runAfter] is a Go time in nanoseconds. *)
Definition stmt_retry (id runAfter : Z) (lastErr : string) : stmt unit := λ e s,
  let? _ := check (text_ok lastErr) InvalidText in
  let f := retry_set (timestamptz_in runAfter) lastErr in
  let retried := sql_returning (by_id id) f (jobs s) in
  let? s' := insert_job_events e (outcome_event EventRetried lastErr <$> retried)
               (with_jobs (sql_update (by_id id) f (jobs s)) s) in
  Ok (tt, s').

Definition Retry ctx e (id runAfter : Z) (lastErr : string) : db → result error unit * db :=
  run_stmt ctx e "store: retry: " (stmt_retry id runAfter lastErr).

Definition fail_set e (lastErr : string) (r : job_row) : job_row :=
  JobRow (r_type r) (r_payload r) StatusFailed (r_priority r) (r_attempts r)
         (r_max_attempts r) (r_run_after r) None None None (r_created_at r)
         (Some (env_now e)) (Some lastErr) (r_trace_context r).

Definition stmt_fail (id : Z) (lastErr : string) : stmt unit := λ e s,
  let? _ := check (text_ok lastErr) InvalidText in
  let failed := sql_returning (by_id id) (fail_set e lastErr) (jobs s) in
  let? s1 := insert_dead_letters e lastErr failed
               (with_jobs (sql_update (by_id id) (fail_set e lastErr) (jobs s)) s) in
  let? s2 := insert_job_events e (outcome_event EventFailed lastErr <$> failed) s1 in
  Ok (tt, s2).

Definition Fail ctx e (id : Z) (lastErr : string) : db → result error unit * db :=
  run_stmt ctx e "store: fail: " (stmt_fail id lastErr).

(** ** ReapExpiredLeases *)

Definition reap_error : string := "lease expired: worker did not report back in time".

(** [WHERE status = 'running' AND lease_expires_at < now()]; a NULL lease
    compares to neither. *)
Definition reap_where e (_ : Z) (r : job_row) : bool :=
  bool_decide (r_status r = StatusRunning)
  && match r_lease_expires_at r with Some t => t <? env_now e | None => false end.

Definition exhausted (r : job_row) : bool := r_max_attempts r <=? r_attempts r.

Definition reap_set e (r : job_row) : job_row :=
  JobRow (r_type r) (r_payload r) (if exhausted r then StatusFailed else StatusQueued)
         (r_priority r) (r_attempts r) (r_max_attempts r) (r_run_after r) None None None
         (r_created_at r) (if exhausted r then Some (env_now e) else None) (Some reap_error)
         (r_trace_context r).

Definition row_failed (p : Z * job_row) : bool := bool_decide (r_status p.2 = StatusFailed).

Definition reap_event (p : Z * job_row) : new_event :=
  outcome_event (if row_failed p then EventReapedFailed else EventReapedRetry) reap_error p.

Definition stmt_reap : stmt (Z * Z) := λ e s,
  let reaped := env_plan e (sql_returning (reap_where e) (reap_set e) (jobs s)) in
  let dead := filter (λ p, row_failed p) reaped in
  let? s1 := insert_dead_letters e reap_error dead
               (with_jobs (sql_update (reap_where e) (reap_set e) (jobs s)) s) in
  let? s2 := insert_job_events e (reap_event <$> reaped) s1 in
  Ok ((Z.of_nat (length reaped), Z.of_nat (length dead)), s2).

Definition ReapExpiredLeases ctx e : db → result error (Z * Z) * db :=
  run_stmt ctx e "store: reap expired leases: " stmt_reap.

(** ** ListDeadLetters *)

(** [ORDER BY failed_at DESC]. *)
Definition letter_le (a b : DeadLetter) : bool := DL_FailedAt b <=? DL_FailedAt a.

Definition stmt_list_dead_letters (limit : Z) : stmt (list DeadLetter) := λ e s,
  let? _ := check (0 <=? limit) NegativeLimit in
  Ok (take (Z.to_nat limit) (order_by letter_le (env_plan e (dead_letters s))), s).

Definition ListDeadLetters ctx e (limit : Z) (s : db) : result error (list DeadLetter) :=
  (run_stmt ctx e (rows_prefix e "store: list dead letters: ")
     (stmt_list_dead_letters limit) s).1.

(** ** The outbox *)

Definition unshipped (r : event_row) : bool := bool_decide (ev_shipped_at r = None).

(** [ORDER BY id]. *)
Definition event_le (a b : event_row) : bool := ID (ev_event a) <=? ID (ev_event b).

Definition stmt_fetch_unshipped (limit : Z) : stmt (list Event) := λ e s,
  let? _ := check (0 <=? limit) NegativeLimit in
  Ok (ev_event <$> take (Z.to_nat limit)
        (order_by event_le (env_plan e (filter (λ r, unshipped r) (job_events s)))), s).

Definition FetchUnshippedEvents ctx e (limit : Z) (s : db) : result error (list Event) :=
  (run_stmt ctx e (rows_prefix e "store: fetch unshipped events: ")
     (stmt_fetch_unshipped limit) s).1.

Definition mark_row e (ids : list Z) (r : event_row) : event_row :=
  if bool_decide (ID (ev_event r) ∈ ids) then EventRow (ev_event r) (Some (env_now e)) else r.

Definition stmt_mark_shipped (ids : list Z) : stmt unit := λ e s,
  Ok (tt, Db (jobs s) (dead_letters s) (mark_row e ids <$> job_events s)
             (next_job s) (next_dead_letter s) (next_event s)).

Definition MarkEventsShipped ctx e (ids : list Z) (s : db) : result error unit * db :=
  if bool_decide (length ids = O) then (Ok tt, s)
  else run_stmt ctx e "store: mark events shipped: " (stmt_mark_shipped ids) s.

(** ** CountByStatusAndType and ShipperLag *)

Definition count_rows (status ty : string) s : Z :=
  Z.of_nat (length (filter (λ p : Z * job_row,
    status_text (r_status p.2) = status ∧ r_type p.2 = ty) (map_to_list (jobs s)))).

(** [SELECT type, count( * ) FROM jobs WHERE status = $1 GROUP BY type]. *)
Definition stmt_count (status : string) : stmt (list (string * Z)) := λ e s,
  let rows := filter (λ p : Z * job_row, status_text (r_status p.2) = status)
                (map_to_list (jobs s)) in
  let types := remove_dups ((λ p : Z * job_row, r_type p.2) <$> rows) in
  Ok (env_plan e ((λ ty, (ty, count_rows status ty s)) <$> types), s).

(** The loop over the rows: [counts[jobType] = n]. *)
Definition CountByStatusAndType ctx e (status : string) (s : db) : result error (gmap string Z) :=
  match (run_stmt ctx e "store: count by status and type: " (stmt_count status) s).1 with
  | Ok rows => Ok (foldl (λ counts (r : string * Z), <[r.1 := r.2]> counts) ∅ rows)
  | Err err => Err err
  end.

Definition stmt_oldest_unshipped : stmt (option Z) := λ e s,
  Ok (OccurredAt ∘ ev_event <$>
        head (order_by event_le (env_plan e (filter (λ r, unshipped r) (job_events s)))), s).

(** [time.Since(t)] for [t] in microseconds, at the Go time [now] in
    nanoseconds: the difference, saturated to an [int64]. *)
Definition Since (now t : Z) : Z :=
  Z.max (- 2 ^ 63) (Z.min max_int64 (now - t * Microsecond)).

Definition ShipperLag ctx e (now : Z) (s : db) : result error Z :=
  match (run_stmt ctx e "store: shipper lag: " stmt_oldest_unshipped s).1 with
  | Ok None => Ok 0
  | Ok (Some occurredAt) => Ok (Since now occurredAt)
  | Err err => Err err
  end.

End Store.
