(* ===== verification/StoreFacts.v ===== *)
(** * Lemmas on the statements

    What UPDATE, RETURNING and the two INSERTs do, as lookup and membership
    equations, and the inversion of a pool call: it fails without effect, or
    the whole statement took place.  Every later file builds on these. *)

From stdpp Require Import prelude gmap strings list sorting.
From S2P Require Import Prelude GoBase Job Store.
#[local] Open Scope jq_scope.

(** ** UPDATE and RETURNING *)

Section tables.
Implicit Types (m : gmap Z job_row) (P : Z → job_row → bool) (f : job_row → job_row).

Lemma lookup_sql_update P f m id :
  sql_update P f m !! id = (λ r, if P id r then f r else r) <$> m !! id.
Proof. unfold sql_update. rewrite map_lookup_imap. by destruct (m !! id). Qed.

Lemma elem_of_sql_returning P f m id r' :
  (id, r') ∈ sql_returning P f m ↔ ∃ r, m !! id = Some r ∧ P id r ∧ r' = f r.
Proof.
  unfold sql_returning. rewrite list_elem_of_fmap. setoid_rewrite list_elem_of_filter. split.
  - intros ([i r] & [= -> ->] & HP & Hin). simpl in *.
    apply elem_of_map_to_list in Hin. eauto.
  - intros (r & Hm & HP & ->). exists (id, r). by rewrite elem_of_map_to_list.
Qed.

Lemma sql_returning_fst P f m :
  (sql_returning P f m).*1 = (filter (λ p : Z * job_row, P p.1 p.2) (map_to_list m)).*1.
Proof. unfold sql_returning. rewrite <-list_fmap_compose. by apply list_fmap_ext. Qed.

Lemma NoDup_fst_filter_map_to_list (Q : Z * job_row → Prop) `{∀ p, Decision (Q p)} m :
  NoDup (filter Q (map_to_list m)).*1.
Proof.
  eapply sublist_NoDup; [apply (NoDup_fst_map_to_list m)|].
  apply fmap_sublist, sublist_filter.
Qed.

Lemma NoDup_sql_returning P f m : NoDup (sql_returning P f m).*1.
Proof. rewrite sql_returning_fst. apply NoDup_fst_filter_map_to_list. Qed.

Lemma sql_returning_length P f m :
  length (sql_returning P f m) = length (filter (λ p : Z * job_row, P p.1 p.2) (map_to_list m)).
Proof. apply length_fmap. Qed.

(** A statement whose WHERE clause is [id = $1] returns the one row. *)
Lemma sql_returning_by_id id f m :
  sql_returning (by_id id) f m = match m !! id with Some r => [(id, f r)] | None => [] end.
Proof.
  pose proof (NoDup_sql_returning (by_id id) f m) as Hnd.
  assert (∀ i r', (i, r') ∈ sql_returning (by_id id) f m ↔
                  i = id ∧ ∃ r, m !! id = Some r ∧ r' = f r) as Hin.
  { intros i r'. rewrite elem_of_sql_returning. unfold by_id. split.
    - intros (r & Hm & Hi & ->). apply Is_true_true, Z.eqb_eq in Hi as <-. eauto.
    - intros (-> & r & Hm & ->). exists r. by rewrite Z.eqb_refl. }
  destruct (sql_returning (by_id id) f m) as [|[i x] [|[i' x'] l]] eqn:E.
  - destruct (m !! id) as [r|] eqn:Hm; [|done].
    exfalso. apply (not_elem_of_nil (id, f r)), Hin. eauto.
  - destruct (proj1 (Hin i x)) as (-> & r & -> & ->); [by left|done].
  - exfalso. destruct (proj1 (Hin i x)) as (-> & _); [by left|].
    destruct (proj1 (Hin i' x')) as (-> & _); [by right; left|].
    simpl in Hnd. apply NoDup_cons in Hnd as [Hnd _]. apply Hnd. by left.
Qed.

Lemma sql_update_by_id id f m r :
  m !! id = Some r → sql_update (by_id id) f m = <[id := f r]> m.
Proof.
  intros Hm. apply map_eq. intros i. rewrite lookup_sql_update. unfold by_id.
  destruct (decide (id = i)) as [<-|Hne].
  - rewrite lookup_insert_eq, Hm, Z.eqb_refl. done.
  - rewrite lookup_insert_ne by done. apply Z.eqb_neq in Hne. rewrite Hne.
    by destruct (m !! i).
Qed.

Lemma sql_update_by_id_None id f m : m !! id = None → sql_update (by_id id) f m = m.
Proof.
  intros Hm. apply map_eq. intros i. rewrite lookup_sql_update. unfold by_id.
  destruct (Z.eqb_spec id i) as [<-|]; [by rewrite Hm|by destruct (m !! i)].
Qed.

End tables.

(** ** INSERT INTO job_events *)

Lemma number_events_fmap {B} (f : event_row → B) now l (g : new_event → B) :
  (∀ i n, f (event_of now i n) = g n) → ∀ id, f <$> number_events now id l = g <$> l.
Proof. intros Hf. induction l as [|n l IH]; intros id; simpl; [done|]. by rewrite Hf, IH. Qed.

Lemma number_events_length now id l : length (number_events now id l) = length l.
Proof. revert id. induction l as [|n l IH]; intros id; simpl; [done|]. by rewrite IH. Qed.

(** A numbered row carries an id of the block, the statement's time, and is not
    shipped. *)
Lemma elem_of_number_events now id l r :
  r ∈ number_events now id l →
  ∃ n k, n ∈ l ∧ r = event_of now k n ∧ id ≤ k < id + Z.of_nat (length l).
Proof.
  revert id. induction l as [|n l IH]; intros id; simpl; [by rewrite elem_of_nil|].
  rewrite elem_of_cons. intros [->|Hr].
  - exists n, id. split_and!; [by left|done|lia|lia].
  - destruct (IH _ Hr) as (n' & k & ? & ? & ?). exists n', k.
    split_and!; [by right|done|lia|lia].
Qed.

Section inserts.
Implicit Types (e : stmt_env) (s : db).

Lemma insert_job_events_ok e l s s' :
  insert_job_events e l s = Ok s' →
  ∃ id, job_events s' = job_events s ++ number_events (env_now e) id l ∧
    jobs s' = jobs s ∧ dead_letters s' = dead_letters s ∧ next_job s' = next_job s ∧
    next_dead_letter s' = next_dead_letter s ∧ next_event s ≤ id ∧
    next_event s' = id + Z.of_nat (length l).
Proof.
  unfold insert_job_events. destruct l as [|n l].
  - intros [= <-]. exists (next_event s). simpl. rewrite app_nil_r. split_and!; lia || done.
  - intros (? & _ & [= <-])%bind_result_ok.
    exists (next_id e SeqEvents (next_event s)). simpl. unfold next_id. split_and!; lia || done.
Qed.

(** ** INSERT INTO dead_letters *)

Definition letter_of (now id : Z) (lastErr : string) (p : Z * job_row) : DeadLetter :=
  MkDeadLetter id p.1 (r_type p.2) (r_payload p.2) (r_attempts p.2) lastErr now.

Fixpoint number_letters (now id : Z) (lastErr : string) (rows : list (Z * job_row)) :
    list DeadLetter :=
  match rows with
  | [] => []
  | p :: rows => letter_of now id lastErr p :: number_letters now (id + 1) lastErr rows
  end.

Lemma number_letters_job_ids now id lastErr rows :
  DL_JobID <$> number_letters now id lastErr rows = rows.*1.
Proof. revert id. induction rows as [|p rows IH]; intros id; simpl; [done|]. by rewrite IH. Qed.

Lemma elem_of_number_letters now id lastErr rows d :
  d ∈ number_letters now id lastErr rows →
  ∃ p k, p ∈ rows ∧ d = letter_of now k lastErr p ∧ id ≤ k < id + Z.of_nat (length rows).
Proof.
  revert id. induction rows as [|p rows IH]; intros id; simpl; [by rewrite elem_of_nil|].
  rewrite elem_of_cons. intros [->|Hd].
  - exists p, id. split_and!; [by left|done|lia|lia].
  - destruct (IH _ Hd) as (p' & k & ? & ? & ?). exists p', k.
    split_and!; [by right|done|lia|lia].
Qed.

Lemma insert_dead_letter_rows_ok now lastErr id rows tbl tbl' :
  NoDup (DL_JobID <$> tbl) →
  insert_dead_letter_rows now lastErr id rows tbl = Ok tbl' →
  tbl' = tbl ++ number_letters now id lastErr rows ∧ NoDup (DL_JobID <$> tbl').
Proof.
  revert id tbl. induction rows as [|[i r] rows IH]; intros id tbl Hnd; simpl.
  - intros [= <-]. by rewrite app_nil_r.
  - intros (? & Hi%check_ok%bool_decide_eq_true & (? & _ & Hrec)%bind_result_ok)%bind_result_ok.
    apply IH in Hrec as [-> Hnd'].
    + by rewrite <-app_assoc in *.
    + rewrite fmap_app. apply NoDup_app. split_and!; [done| |apply NoDup_singleton].
      intros j Hj Hj'%list_elem_of_singleton. simplify_eq/=. done.
Qed.

Lemma insert_dead_letters_ok e lastErr rows s s' :
  NoDup (DL_JobID <$> dead_letters s) →
  insert_dead_letters e lastErr rows s = Ok s' →
  ∃ id, dead_letters s' = dead_letters s ++ number_letters (env_now e) id lastErr rows ∧
    NoDup (DL_JobID <$> dead_letters s') ∧
    jobs s' = jobs s ∧ job_events s' = job_events s ∧ next_job s' = next_job s ∧
    next_event s' = next_event s ∧ next_dead_letter s ≤ id ∧
    next_dead_letter s' = id + Z.of_nat (length rows).
Proof.
  intros Hnd. unfold insert_dead_letters. destruct rows as [|p rows].
  - intros [= <-]. exists (next_dead_letter s). simpl. rewrite app_nil_r. split_and!; lia || done.
  - intros (tbl & Hrows & [= <-])%bind_result_ok.
    exists (next_id e SeqDeadLetters (next_dead_letter s)).
    apply insert_dead_letter_rows_ok in Hrows as [-> Hnd']; [|done].
    simpl in *. unfold next_id in *. split_and!; lia || done.
Qed.

(** A row whose job already has a dead letter aborts the insert. *)
Lemma insert_dead_letter_rows_dup now lastErr id rows tbl i :
  i ∈ rows.*1 → i ∈ DL_JobID <$> tbl →
  ∃ c, insert_dead_letter_rows now lastErr id rows tbl = Err c.
Proof.
  revert id tbl. induction rows as [|[i' r] rows IH]; intros id tbl; simpl;
    [by rewrite elem_of_nil|].
  unfold check. intros Hi Ht. case_bool_decide as Hi'; simpl; [|by eauto].
  case_match; simpl; [|by eauto]. apply IH.
  - apply elem_of_cons in Hi as [->|]; done.
  - rewrite fmap_app, elem_of_app. by left.
Qed.

End inserts.

(** ** Pool calls *)

Section calls.
Context {Pg : Postgres} {Sp : Type}.
Implicit Types (ctx : context Sp) (e : stmt_env) (s : db).

(** A call that succeeds committed its statement. *)
Lemma run_stmt_ok {A} ctx e p (body : stmt A) s a s' :
  run_stmt ctx e p body s = (Ok a, s') → body e s = Ok (a, s').
Proof.
  unfold run_stmt. intros H. repeat case_match; by simplify_eq.
Qed.

(** Any call leaves the tables as they were or commits its statement whole. *)
Lemma run_stmt_atomic {A} ctx e p (body : stmt A) s r s' :
  run_stmt ctx e p body s = (r, s') → s' = s ∨ ∃ a, body e s = Ok (a, s').
Proof.
  unfold run_stmt. intros H. repeat case_match; simplify_eq; eauto.
Qed.

Lemma run_stmt_quiet {A} ctx e p (body : stmt A) s a s' :
  ctx_err ctx = None → env_fault e = None →
  body e s = Ok (a, s') → run_stmt ctx e p body s = (Ok a, s').
Proof. unfold run_stmt. by intros -> -> ->. Qed.

End calls.
