(* ===== verification/Steps.v ===== *)
(** * Statement effects and the step relation

    The five statements that update [jobs] have one shape: an UPDATE, the rows
    it returns, one outbox event per returned row and dead letters for some of
    them.  [update_effect] states that shape once; each statement is shown to
    have it, and the invariants are proved against it.  [db_step] is one
    committed statement, [reachable] any sequence of them from the migrated
    schema. *)

From stdpp Require Import prelude gmap strings list relations sorting.
From S2P Require Import Prelude GoBase Job Store StoreFacts.
#[local] Open Scope jq_scope.

(** [update_effect now P f ev dead msg s s']: the tables [s'] are [s] after
    [UPDATE jobs SET f WHERE P] with an event [ev] for every updated row and a
    dead letter with message [msg] for those that satisfy [dead]. *)
Record update_effect (now : Z) (P : Z → job_row → bool) (f : job_row → job_row)
    (ev : Z * job_row → new_event) (dead : Z * job_row → bool) (msg : string)
    (rows : list (Z * job_row)) (s s' : db) : Prop := UpdateEffect {
  eff_rows : rows ≡ₚ sql_returning P f (jobs s);
  eff_jobs : jobs s' = sql_update P f (jobs s);
  eff_next_job : next_job s' = next_job s;
  eff_events : ∃ id,
    job_events s' = job_events s ++ number_events now id (ev <$> rows) ∧
    next_event s ≤ id ∧ next_event s' = id + Z.of_nat (length rows);
  eff_letters : ∃ id,
    dead_letters s' = dead_letters s ++ number_letters now id msg (filter (λ p, dead p) rows) ∧
    next_dead_letter s ≤ id ∧
    next_dead_letter s' = id + Z.of_nat (length (filter (λ p, dead p) rows));
  eff_unique : NoDup (DL_JobID <$> dead_letters s) → NoDup (DL_JobID <$> dead_letters s');
}.

Section effects.
Context {Pg : Postgres}.
Implicit Types (e : stmt_env) (s : db).

Definition no_letter (_ : Z * job_row) : bool := false.
Definition letter_always (_ : Z * job_row) : bool := true.

Lemma filter_no_letter (l : list (Z * job_row)) : filter (λ p, no_letter p) l = [].
Proof. by induction l. Qed.
Lemma filter_letter_always (l : list (Z * job_row)) : filter (λ p, letter_always p) l = l.
Proof. induction l as [|x l IH]; [done|]. rewrite filter_cons_True by done. by rewrite IH. Qed.

(** The common tail of the statements without dead letters. *)
Lemma update_effect_events e P f ev rows s s' msg :
  rows ≡ₚ sql_returning P f (jobs s) →
  insert_job_events e (ev <$> rows) (with_jobs (sql_update P f (jobs s)) s) = Ok s' →
  update_effect (env_now e) P f ev no_letter msg rows s s'.
Proof.
  intros Hrows (id & Hev & Hj & Hd & Hn & Hnd & Hle & Hnext)%insert_job_events_ok.
  rewrite length_fmap in Hnext. split; [done|done|done| | |].
  - eauto.
  - exists (next_dead_letter s). rewrite filter_no_letter, Hd, Hnd. simpl.
    rewrite app_nil_r. split_and!; lia || done.
  - by rewrite Hd.
Qed.

(** The common tail of the statements with dead letters. *)
Lemma update_effect_letters e P f ev (dead : Z * job_row → bool) rows s s1 s' msg :
  rows ≡ₚ sql_returning P f (jobs s) →
  insert_dead_letters e msg (filter (λ p, dead p) rows)
    (with_jobs (sql_update P f (jobs s)) s) = Ok s1 →
  insert_job_events e (ev <$> rows) s1 = Ok s' →
  NoDup (DL_JobID <$> dead_letters s) →
  update_effect (env_now e) P f ev dead msg rows s s'.
Proof.
  intros Hrows Hins (id & Hev & Hj & Hd & Hn & Hnd & Hle & Hnext)%insert_job_events_ok Hu.
  apply insert_dead_letters_ok in Hins as (id' & Hd' & Hu' & Hj' & Hev' & Hn' & Hne' & Hle' & Hnx');
    [|done].
  rewrite length_fmap in Hnext. simpl in *. split; [done| | | | |].
  - by rewrite Hj, Hj'.
  - by rewrite Hn, Hn'.
  - exists id. rewrite Hev, Hev', Hnext. rewrite Hne' in Hle. done.
  - exists id'. rewrite Hd, Hd', Hnd. done.
  - intros _. by rewrite Hd.
Qed.

Lemma stmt_claim_effect w lease limit e s jl s' :
  stmt_claim w lease limit e s = Ok (jl, s') →
  ∃ iv rows, interval_in (Duration_String lease) = Some iv ∧ text_ok w = true ∧ 0 ≤ limit ∧
    jl = job_of_row <$> rows ∧ Forall (λ p, r_attempts p.2 ≤ max_int4) rows ∧
    update_effect (env_now e) (λ id _, bool_decide (id ∈ (claim_select e limit s).*1))
      (claim_set e w iv) (claim_event w) no_letter "" rows s s'.
Proof.
  unfold stmt_claim, of_option.
  destruct (interval_in _) as [iv|] eqn:Hiv; simpl; [|done].
  intros (? & Hw%check_ok & (? & Hl%check_ok & (? & Ha%check_ok &
    (s1 & Hins & [= <- <-])%bind_result_ok)%bind_result_ok)%bind_result_ok)%bind_result_ok.
  exists iv. eexists. split_and!; [done|done|lia|done| |].
  - apply Forall_forall. intros p Hp%list_elem_of_In.
    rewrite forallb_forall in Ha. specialize (Ha _ Hp). lia.
  - eapply update_effect_events; [apply env_plan_perm|done].
Qed.

Lemma stmt_complete_effect id e s u s' :
  stmt_complete id e s = Ok (u, s') →
  update_effect (env_now e) (by_id id) (complete_set e) (outcome_event EventCompleted "")
    no_letter "" (sql_returning (by_id id) (complete_set e) (jobs s)) s s'.
Proof.
  unfold stmt_complete. intros (s1 & Hins & [= _ <-])%bind_result_ok.
  by eapply update_effect_events.
Qed.

Lemma stmt_retry_effect id t err e s u s' :
  stmt_retry id t err e s = Ok (u, s') →
  text_ok err = true ∧
  update_effect (env_now e) (by_id id) (retry_set (timestamptz_in t) err)
    (outcome_event EventRetried err) no_letter ""
    (sql_returning (by_id id) (retry_set (timestamptz_in t) err) (jobs s)) s s'.
Proof.
  unfold stmt_retry. intros (? & Ht%check_ok & (s1 & Hins & [= _ <-])%bind_result_ok)%bind_result_ok.
  split; [done|]. by eapply update_effect_events.
Qed.

Lemma stmt_fail_effect id err e s u s' :
  NoDup (DL_JobID <$> dead_letters s) →
  stmt_fail id err e s = Ok (u, s') →
  text_ok err = true ∧
  update_effect (env_now e) (by_id id) (fail_set e err)
    (outcome_event EventFailed err) letter_always err
    (sql_returning (by_id id) (fail_set e err) (jobs s)) s s'.
Proof.
  intros Hu. unfold stmt_fail.
  intros (? & Ht%check_ok & (s1 & Hdl & (s2 & Hins & [= _ <-])%bind_result_ok)%bind_result_ok)%bind_result_ok.
  split; [done|]. eapply update_effect_letters; [done| |done|done]. by rewrite filter_letter_always.
Qed.

Lemma stmt_reap_effect e s n d s' :
  NoDup (DL_JobID <$> dead_letters s) →
  stmt_reap e s = Ok ((n, d), s') →
  ∃ rows, n = Z.of_nat (length rows) ∧ d = Z.of_nat (length (filter (λ p, row_failed p) rows)) ∧
    update_effect (env_now e) (reap_where e) (reap_set e) reap_event row_failed reap_error
      rows s s'.
Proof.
  intros Hu. unfold stmt_reap.
  intros (s1 & Hdl & (s2 & Hins & [= <- <- <-])%bind_result_ok)%bind_result_ok.
  eexists. split_and!; [done|done|].
  eapply update_effect_letters; [apply env_plan_perm|done|done|done].
Qed.

(** ** Enqueue *)

Lemma stmt_enqueue_effect ty pl tc e s id s' :
  stmt_enqueue ty pl tc e s = Ok (id, s') →
  ∃ doc k, jsonb_in pl = Some doc ∧ text_ok ty = true ∧ text_ok tc = true ∧
    id = next_id e SeqJobs (next_job s) ∧ id ≤ max_int64 ∧ next_job s' = id + 1 ∧
    jobs s' = <[id := enqueue_row e ty doc tc]> (jobs s) ∧
    dead_letters s' = dead_letters s ∧ next_dead_letter s' = next_dead_letter s ∧
    job_events s' = job_events s ++
      [event_of (env_now e) k (NewEvent id ty EventEnqueued 0 "" "")] ∧
    next_event s ≤ k ∧ next_event s' = k + 1.
Proof.
  unfold stmt_enqueue, of_option.
  intros (? & Ht%check_ok & Hb)%bind_result_ok. apply andb_true_iff in Ht as [Ht1 Ht2].
  destruct (jsonb_in pl) as [doc|]; simpl in Hb; [|done].
  apply bind_result_ok in Hb as (? & Hid%check_ok & (s2 & Hins & [= <- <-])%bind_result_ok).
  apply insert_job_events_ok in Hins as (k & Hev & Hj & Hd & Hn & Hnd & Hle & Hnext).
  simpl in *. exists doc, k. split_and!; lia || done.
Qed.

(** ** Steps *)

(** One committed statement of the program. *)
Inductive db_step : db → db → Prop :=
| step_enqueue ty pl tc e s id s' :
    stmt_enqueue ty pl tc e s = Ok (id, s') → db_step s s'
| step_claim w lease limit e s jl s' :
    stmt_claim w lease limit e s = Ok (jl, s') → db_step s s'
| step_complete id e s u s' :
    stmt_complete id e s = Ok (u, s') → db_step s s'
| step_retry id t err e s u s' :
    stmt_retry id t err e s = Ok (u, s') → db_step s s'
| step_fail id err e s u s' :
    stmt_fail id err e s = Ok (u, s') → db_step s s'
| step_reap e s nd s' :
    stmt_reap e s = Ok (nd, s') → db_step s s'
| step_mark ids e s u s' :
    stmt_mark_shipped ids e s = Ok (u, s') → db_step s s'.

Definition reachable (s : db) : Prop := rtc db_step db_empty s.

(** Rule induction on the statements that led to a state. *)
Lemma reachable_ind_r (I : db → Prop) :
  I db_empty → (∀ s s', reachable s → I s → db_step s s' → I s') →
  ∀ s, reachable s → I s.
Proof.
  intros H0 HS s Hr. unfold reachable in *.
  apply (rtc_ind_r (R:=db_step) I db_empty); eauto.
Qed.

End effects.

#[export] Hint Constructors db_step : jq.
