(* ===== verification/Demo.v ===== *)
(** * A concrete server

    A small instance of [Postgres], used to evaluate the model on concrete
    inputs: text is valid without a NUL byte, a JSON document is any non-empty
    text, an interval is a whole number of seconds as [Duration.String] prints
    it, and a Go time is truncated to microseconds. *)

From stdpp Require Import prelude gmap strings list sorting.
From Stdlib Require Ascii String.
From S2P Require Import Prelude GoBase Job Store.

Fixpoint demo_text_ok (s : string) : bool :=
  match s with
  | EmptyString => true
  | String.String c s => negb (bool_decide (c = Ascii.ascii_of_nat 0)) && demo_text_ok s
  end.

Fixpoint demo_seconds (s : string) (acc : Z) : option Z :=
  match s with
  | EmptyString => None
  | String.String c s' =>
      let d := Z.of_nat (Ascii.nat_of_ascii c) - 48 in
      if bool_decide (s = "s") then Some acc
      else if (0 <=? d) && (d <=? 9) then demo_seconds s' (acc * 10 + d) else None
  end.

Definition demo_interval (s : string) : option Z :=
  match s with
  | String.String c s' =>
      if bool_decide (c = Ascii.ascii_of_nat 45)
      then (λ n, - n * 1000000) <$> demo_seconds s' 0
      else (λ n, n * 1000000) <$> demo_seconds s 0
  | EmptyString => None
  end.

Definition demo_message (c : pg_error) : string :=
  match c with
  | UniqueViolation => "duplicate key value violates unique constraint"
  | _ => "statement aborted"
  end.

#[export] Instance pg_demo : Postgres := {|
  text_ok := demo_text_ok;
  jsonb_in := λ s, if bool_decide (s = "") then None else Some s;
  interval_in := demo_interval;
  timestamptz_in := λ t, t / 1000;
  pg_message := demo_message;
  no_rows_text := "no rows in result set";
|}.

(** A context with no span, not done. *)
Definition bg : context unit := Background.

(** Times of the demonstrations, in microseconds. *)
Definition sec (n : Z) : Z := n * 1000000.

(** A queued row. *)
Definition demo_row (ty : string) (priority attempts run_after : Z) : job_row :=
  JobRow ty "{}" StatusQueued priority attempts 5 run_after None None None 0 None None "".

(** Three queued jobs; the second has the highest priority, the third is not
    due before second 100. *)
Definition demo_db : db :=
  Db {[ 1 := demo_row "sum_numbers" 0 0 (sec 1);
        2 := demo_row "http_check" 7 0 (sec 2);
        3 := demo_row "write_file" 9 0 (sec 100) ]} [] [] 4 1 1.

(** The tables a statement leaves, when it commits. *)
Definition after {A} (r : result pg_error (A * db)) : db :=
  match r with Ok (_, s) => s | Err _ => db_empty end.

(** A job enqueued at second 0, claimed at second 1 and completed at second 2. *)
Definition demo_enqueued : db := after (stmt_enqueue "sum_numbers" "[1]" "" (quiet 0) db_empty).
Definition demo_running : db :=
  after (stmt_claim "worker-0" (30 * Second) 1 (quiet (sec 1)) demo_enqueued).
Definition demo_completed : db := after (stmt_complete 1 (quiet (sec 2)) demo_running).

Lemma demo_running_job : is_Some (jobs demo_running !! 1).
Proof. vm_compute. by eexists. Qed.

Lemma demo_running_letters : dead_letters demo_running = [].
Proof. by vm_compute. Qed.

Lemma demo_completed_job :
  ∃ r, jobs demo_completed !! 1 = Some r ∧ r_status r = StatusCompleted ∧ r_attempts r = 1 ∧
    r_last_error r = None.
Proof. vm_compute. eexists. by split_and!. Qed.
