(* ===== verification/Claim.v ===== *)
(** * Claiming jobs

    [Store.Claim]: which rows the subquery selects, what the UPDATE does to them
    and what is returned.  The selected rows are the first [limit] eligible ones
    in [(priority DESC, run_after)] order, for any order in which the plan
    produces rows with equal keys. *)

From stdpp Require Import prelude gmap strings list sorting.
From S2P Require Import Prelude GoBase Job Store StoreFacts Steps Demo.
#[local] Open Scope jq_scope.

Section claim.
Context {Pg : Postgres} {Sp : Type}.
Implicit Types (ctx : context Sp) (e : stmt_env) (s : db) (id limit lease : Z).

(** A row the subquery may select. *)
Definition eligible e s id (r : job_row) : Prop :=
  jobs s !! id = Some r ∧ r_status r = StatusQueued ∧ r_run_after r ≤ env_now e ∧
  id ∉ env_locked e.

Lemma claim_where_true e id r :
  claim_where e id r ↔
  r_status r = StatusQueued ∧ r_run_after r ≤ env_now e ∧ id ∉ env_locked e.
Proof.
  unfold claim_where. rewrite !andb_True, !bool_decide_spec.
  rewrite (Is_true_true (_ <=? _)), Z.leb_le. tauto.
Qed.

Lemma elem_of_claim_eligible e s id r :
  (id, r) ∈ claim_eligible e s ↔ eligible e s id r.
Proof.
  unfold claim_eligible, eligible. rewrite list_elem_of_filter, elem_of_map_to_list.
  simpl. rewrite claim_where_true. tauto.
Qed.

Lemma claim_plan_perm e s :
  order_by claim_le (env_plan e (claim_eligible e s)) ≡ₚ claim_eligible e s.
Proof. by rewrite order_by_perm, env_plan_perm. Qed.

Lemma elem_of_claim_select e limit s p :
  p ∈ claim_select e limit s → eligible e s p.1 p.2.
Proof.
  unfold claim_select. intros Hp. destruct p as [id r].
  apply elem_of_claim_eligible. rewrite <-(claim_plan_perm e s).
  eapply elem_of_take in Hp as (i & Hi & _). by apply list_elem_of_lookup_2 in Hi.
Qed.

Lemma NoDup_claim_select e limit s : NoDup (claim_select e limit s).*1.
Proof.
  unfold claim_select. rewrite fmap_take.
  eapply sublist_NoDup; [|apply sublist_take].
  rewrite claim_plan_perm. apply NoDup_fst_filter_map_to_list.
Qed.

Lemma length_claim_select e limit s :
  length (claim_select e limit s) = Nat.min (Z.to_nat limit) (length (claim_eligible e s)).
Proof. unfold claim_select. by rewrite length_take, claim_plan_perm. Qed.

Lemma claim_le_total p q : claim_le p q ∨ claim_le q p.
Proof. unfold claim_le. rewrite !Is_true_true, !orb_true_iff, !andb_true_iff. lia. Qed.

Lemma claim_le_trans p q t : claim_le p q → claim_le q t → claim_le p t.
Proof. unfold claim_le. rewrite !Is_true_true, !orb_true_iff, !andb_true_iff. lia. Qed.

Lemma claim_sorted e s :
  StronglySorted claim_le (order_by claim_le (env_plan e (claim_eligible e s))).
Proof. apply order_by_sorted; [apply claim_le_total|apply claim_le_trans]. Qed.

(** The rows the UPDATE returns are the selected ones, updated. *)
Lemma claim_returning e w iv limit s :
  sql_returning (λ id _, bool_decide (id ∈ (claim_select e limit s).*1))
    (claim_set e w iv) (jobs s)
  ≡ₚ (λ p, (p.1, claim_set e w iv p.2)) <$> claim_select e limit s.
Proof.
  apply NoDup_Permutation.
  - apply (NoDup_fmap_1 fst), NoDup_sql_returning.
  - apply (NoDup_fmap_1 fst). rewrite <-list_fmap_compose.
    apply (NoDup_claim_select e limit s).
  - intros [id r']. rewrite elem_of_sql_returning. split.
    + intros (r & Hr & ([i x] & -> & Hx)%bool_decide_spec%list_elem_of_fmap & ->).
      pose proof (elem_of_claim_select _ _ _ _ Hx) as (Hx' & _). simpl in *.
      apply list_elem_of_fmap. exists (i, x). by simplify_eq.
    + intros ([i x] & [= -> ->] & Hx)%list_elem_of_fmap.
      pose proof (elem_of_claim_select _ _ _ _ Hx) as (Hx' & _). simpl in *.
      exists x. split_and!; [done| |done]. apply bool_decide_spec, list_elem_of_fmap. by exists (i, x).
Qed.

(** A claimed row was queued; the statement's WHERE clause gives no other. *)
Lemma claim_pred_queued e limit s id r :
  jobs s !! id = Some r → bool_decide (id ∈ (claim_select e limit s).*1) →
  r_status r = StatusQueued.
Proof.
  intros Hr ([i x] & -> & Hx)%bool_decide_spec%list_elem_of_fmap.
  pose proof (elem_of_claim_select _ _ _ _ Hx) as (Hx' & ? & _). by simplify_eq/=.
Qed.

Lemma claim_event_fields now w k rows :
  (λ r, (JobID (ev_event r), Event_EventType (ev_event r), Event_Attempts (ev_event r),
         WorkerID (ev_event r))) <$> number_events now k (claim_event w <$> rows)
  = (λ p : Z * job_row, (p.1, EventClaimed, r_attempts p.2, w)) <$> rows.
Proof.
  rewrite (number_events_fmap _ _ _
    (λ n, (ne_job_id n, ne_event_type n, ne_attempts n, ne_worker_id n))) by done.
  by rewrite <-list_fmap_compose.
Qed.

Lemma claim_rows_length e w iv limit s rows s' :
  update_effect (env_now e) (λ id _, bool_decide (id ∈ (claim_select e limit s).*1))
    (claim_set e w iv) (claim_event w) no_letter "" rows s s' →
  length rows = Nat.min (Z.to_nat limit) (length (claim_eligible e s)).
Proof.
  intros [Hrows _ _ _ _ _]. rewrite Hrows, claim_returning, length_fmap.
  apply length_claim_select.
Qed.

(** C9. [Claim] returns and updates exactly the rows its subquery selects: each
    of them was queued, due and not locked, and is now running under this
    worker's lease with one more attempt; no other row changes; there are at
    most [limit] of them, without repetition, and the statement appends exactly
    one 'claimed' event for each, carrying the new attempt number and the
    worker. *)
Theorem Claim_spec ctx e w lease limit s jl s' :
  Claim ctx e w lease limit s = (Ok jl, s') →
  ∃ iv evs, interval_in (Duration_String lease) = Some iv ∧
    jl ≡ₚ (λ p, job_of_row (p.1, claim_set e w iv p.2)) <$> claim_select e limit s ∧
    (∀ id r, (id, r) ∈ claim_select e limit s →
       eligible e s id r ∧ jobs s' !! id = Some (claim_set e w iv r)) ∧
    (∀ id, id ∉ (claim_select e limit s).*1 → jobs s' !! id = jobs s !! id) ∧
    NoDup (Job_ID <$> jl) ∧ Z.of_nat (length jl) ≤ limit ∧
    dead_letters s' = dead_letters s ∧ job_events s' = job_events s ++ evs ∧
    (λ r, (JobID (ev_event r), Event_EventType (ev_event r), Event_Attempts (ev_event r),
           WorkerID (ev_event r))) <$> evs
    = (λ j, (Job_ID j, EventClaimed, Attempts j, w)) <$> jl.
Proof.
  intros Hc%run_stmt_ok.
  apply stmt_claim_effect in Hc as (iv & rows & Hiv & _ & Hl & -> & _ & Heff).
  pose proof (claim_rows_length _ _ _ _ _ _ _ Heff) as Hlen.
  destruct Heff as [Hrows Hj _ (k & Hev & _ & _) (k' & Hdl & _ & _) _].
  exists iv. eexists. split_and!; [done| | | | | | |exact Hev|].
  - rewrite Hrows, claim_returning, <-list_fmap_compose. done.
  - intros id r Hin. pose proof (elem_of_claim_select _ _ _ _ Hin) as Hel. split; [done|].
    destruct Hel as (Hid & _). simpl in Hid. rewrite Hj, lookup_sql_update, Hid. simpl.
    rewrite bool_decide_true; [done|]. apply list_elem_of_fmap. by exists (id, r).
  - intros id Hid. rewrite Hj, lookup_sql_update. rewrite bool_decide_false by done.
    by destruct (jobs s !! id).
  - rewrite <-list_fmap_compose, Hrows. apply (NoDup_sql_returning _ _ (jobs s)).
  - rewrite length_fmap, Hlen. lia.
  - rewrite Hdl, filter_no_letter. simpl. by rewrite app_nil_r.
  - rewrite claim_event_fields. by rewrite <-list_fmap_compose.
Qed.

(** A selected row comes before every eligible row left behind. *)
Lemma claim_select_order e limit s p id r :
  p ∈ claim_select e limit s → eligible e s id r → id ∉ (claim_select e limit s).*1 →
  r_priority r < r_priority p.2 ∨ r_priority r = r_priority p.2 ∧ r_run_after p.2 ≤ r_run_after r.
Proof.
  intros Hin Hel Hid.
  assert ((id, r) ∈ drop (Z.to_nat limit) (order_by claim_le (env_plan e (claim_eligible e s))))
    as Hdrop.
  { apply elem_of_claim_eligible in Hel. rewrite <-claim_plan_perm in Hel.
    rewrite <-(take_drop (Z.to_nat limit)) in Hel. apply elem_of_app in Hel as [Hel|]; [|done].
    exfalso. apply Hid. apply list_elem_of_fmap. by exists (id, r). }
  pose proof (strongly_sorted_take_drop _ _ _ _ _ (claim_sorted e s) Hin Hdrop) as Hle.
  unfold claim_le in Hle. simpl in Hle. destruct (r_priority r <? r_priority p.2) eqn:?; simpl in Hle;
    [|apply Is_true_true, andb_true_iff in Hle]; lia.
Qed.

(** C10. Priority order: an eligible row that a successful [Claim] left behind has
    a lower priority than every claimed row, or the same priority and a later
    or equal [run_after]. *)
Theorem Claim_priority ctx e w lease limit s jl s' j id r :
  Claim ctx e w lease limit s = (Ok jl, s') →
  j ∈ jl → eligible e s id r → id ∉ Job_ID <$> jl →
  ∃ r0, jobs s !! Job_ID j = Some r0 ∧
    (r_priority r < r_priority r0 ∨
     r_priority r = r_priority r0 ∧ r_run_after r0 ≤ r_run_after r).
Proof.
  intros Hc%run_stmt_ok Hj Hel Hid.
  apply stmt_claim_effect in Hc as (iv & rows & _ & _ & _ & -> & _ & [Hrows _ _ _ _ _]).
  rewrite claim_returning in Hrows. rewrite Hrows in Hj, Hid. clear Hrows rows.
  apply list_elem_of_fmap in Hj as (p & -> & ([id0 r0] & -> & Hin)%list_elem_of_fmap).
  rewrite <-!list_fmap_compose in Hid. simpl.
  exists r0. pose proof (elem_of_claim_select _ _ _ _ Hin) as (Hr0 & _).
  split; [done|]. apply (claim_select_order e limit s (id0, r0) id r Hin Hel).
  intros ([i x] & -> & Hx)%list_elem_of_fmap. apply Hid, list_elem_of_fmap. by exists (i, x).
Qed.

(** The statement succeeds when its arguments are accepted and there is room. *)
Lemma stmt_claim_ok e w lease limit s iv :
  interval_in (Duration_String lease) = Some iv → text_ok w = true → 0 ≤ limit →
  (∀ id r, jobs s !! id = Some r → r_attempts r < max_int4) →
  next_id e SeqEvents (next_event s) + limit ≤ max_int64 →
  ∃ jl s', stmt_claim w lease limit e s = Ok (jl, s').
Proof.
  intros Hiv Hw Hl Hatt Hseq. unfold stmt_claim. rewrite Hiv, Hw. simpl. unfold check at 1.
  rewrite (proj2 (Z.leb_le 0 limit)) by done. simpl.
  set (rows := env_plan e _). unfold check at 1.
  replace (forallb _ rows) with true; simpl.
  2:{ symmetry. apply forallb_forall. intros [id r'] Hin%list_elem_of_In.
      unfold rows in Hin. rewrite env_plan_perm in Hin.
      apply elem_of_sql_returning in Hin as (r & Hr & _ & ->). simpl.
      specialize (Hatt _ _ Hr). lia. }
  assert (Z.of_nat (length rows) ≤ limit) as Hlen.
  { unfold rows. rewrite env_plan_perm, claim_returning, length_fmap, length_claim_select. lia. }
  unfold insert_job_events. destruct (claim_event w <$> rows) eqn:E; simpl; [by eauto|].
  rewrite <-(length_fmap (claim_event w)), E in Hlen. simpl in Hlen.
  unfold check. rewrite (proj2 (Z.leb_le _ _)) by lia. simpl. eauto.
Qed.

(** C11. Progress: on a healthy connection, with a lease the server can read and
    counters in range, [Claim] succeeds and returns as many jobs as the limit
    allows or as there are eligible rows, so an idle worker that asks for one
    job gets one whenever one is eligible. *)
Theorem Claim_progress ctx e w lease limit s iv :
  ctx_err ctx = None → env_fault e = None →
  interval_in (Duration_String lease) = Some iv → text_ok w = true → 0 ≤ limit →
  (∀ id r, jobs s !! id = Some r → r_attempts r < max_int4) →
  next_id e SeqEvents (next_event s) + limit ≤ max_int64 →
  ∃ jl s', Claim ctx e w lease limit s = (Ok jl, s') ∧
    length jl = Nat.min (Z.to_nat limit) (length (claim_eligible e s)).
Proof.
  intros Hctx Hf Hiv Hw Hl Hatt Hseq. unfold Claim.
  destruct (stmt_claim_ok e w lease limit s iv) as (jl & s' & Hok); [done..|].
  exists jl, s'. split; [by apply run_stmt_quiet|].
  apply stmt_claim_effect in Hok as (iv' & rows & _ & _ & _ & -> & _ & Heff).
  rewrite length_fmap. by eapply claim_rows_length.
Qed.

End claim.

(** ** The claim of one job out of three

    At second 10 job 3 is not due, and job 2 outranks job 1. *)

Definition demo_claim : result error (list Job) * db :=
  Claim bg (quiet (sec 10)) "worker-0" (30 * Second) 1 demo_db.

Lemma Claim_spec_witness :
  ∃ jl s', demo_claim = (Ok jl, s') ∧ Job_ID <$> jl = [2] ∧ NoDup (Job_ID <$> jl) ∧
    dead_letters s' = [].
Proof.
  destruct demo_claim as [[jl|err] s'] eqn:E; [|by vm_compute in E].
  exists jl, s'. split; [done|]. split; [vm_compute in E; by simplify_eq|].
  destruct (Claim_spec _ _ _ _ _ _ _ _ E) as (iv & evs & _ & _ & _ & _ & Hnd & _ & Hdl & _).
  by split.
Defined.

Lemma Claim_priority_witness :
  ∃ jl s', demo_claim = (Ok jl, s') ∧
    ∃ r0, jobs demo_db !! 2 = Some r0 ∧ (0 < r_priority r0 ∨ 0 = r_priority r0 ∧ r_run_after r0 ≤ sec 1).
Proof.
  destruct demo_claim as [[jl|err] s'] eqn:E; [|by vm_compute in E].
  exists jl, s'. split; [done|].
  assert (jl = [MkJob 2 "http_check" "{}" 1 5 ""]) as -> by (vm_compute in E; by simplify_eq).
  apply (Claim_priority _ _ _ _ _ _ _ _ (MkJob 2 "http_check" "{}" 1 5 "") 1
           (demo_row "sum_numbers" 0 0 (sec 1)) E).
  - by left.
  - split_and!; [by vm_compute|by vm_compute|by vm_compute|by apply not_elem_of_empty].
  - by apply (bool_decide_unpack _); vm_compute.
Defined.

Lemma Claim_progress_witness :
  ∃ jl s', demo_claim = (Ok jl, s') ∧ length jl = 1%nat.
Proof.
  destruct (Claim_progress bg (quiet (sec 10)) "worker-0" (30 * Second) 1 demo_db (sec 30))
    as (jl & s' & E & Hlen); [done|done|by vm_compute|done|done| |by vm_compute|].
  - unfold demo_db. cbn [jobs]. intros id r Hr.
    repeat (apply lookup_insert_Some in Hr as [[_ <-]|[_ Hr]]; [by vm_compute|]).
    apply lookup_singleton_Some in Hr as [_ <-]. by vm_compute.
  - exists jl, s'. by split.
Defined.
