(* ===== verification/Invariant.v ===== *)
(** * The table invariant

    [db_wf]: what holds of the three tables after any sequence of statements,
    in any interleaving: identity values are fresh, a row's claim columns agree
    with its status, every failed job has a dead letter, dead letters are
    unique per job and copy the job they refer to, and the outbox is ordered by
    its identity column. *)

From stdpp Require Import prelude gmap strings list relations sorting.
From S2P Require Import Prelude GoBase Job Store StoreFacts Steps Claim Demo.
#[local] Open Scope jq_scope.

(** The columns of a row agree with its status. *)
Definition row_wf (r : job_row) : Prop :=
  0 ≤ r_attempts r ≤ max_int4 ∧
  match r_status r with
  | StatusQueued =>
      r_claimed_by r = None ∧ r_claimed_at r = None ∧ r_lease_expires_at r = None
  | StatusRunning =>
      is_Some (r_claimed_by r) ∧ is_Some (r_claimed_at r) ∧ is_Some (r_lease_expires_at r) ∧
      1 ≤ r_attempts r
  | StatusCompleted => is_Some (r_completed_at r)
  | StatusFailed =>
      r_claimed_by r = None ∧ r_claimed_at r = None ∧ r_lease_expires_at r = None ∧
      is_Some (r_completed_at r) ∧ is_Some (r_last_error r)
  end.

(** A dead letter is a copy of the job it refers to. *)
Definition letter_wf (m : gmap Z job_row) (d : DeadLetter) : Prop :=
  ∃ r, m !! DL_JobID d = Some r ∧ r_type r = DL_Type d ∧ r_payload r = DL_Payload d ∧
    DL_Attempts d ≤ r_attempts r.

Definition ids_below (l : list Z) (next : Z) : Prop :=
  StronglySorted Z.lt l ∧ Forall (λ i, 1 ≤ i < next) l ∧ 1 ≤ next.

Record db_wf (s : db) : Prop := DbWf {
  wf_next_job : 1 ≤ next_job s;
  wf_job_ids : ∀ id r, jobs s !! id = Some r → 1 ≤ id < next_job s;
  wf_rows : ∀ id r, jobs s !! id = Some r → row_wf r;
  wf_letters_unique : NoDup (DL_JobID <$> dead_letters s);
  wf_letters : Forall (letter_wf (jobs s)) (dead_letters s);
  wf_failed : ∀ id r, jobs s !! id = Some r → r_status r = StatusFailed →
    id ∈ DL_JobID <$> dead_letters s;
  wf_letter_ids : ids_below (DL_ID <$> dead_letters s) (next_dead_letter s);
  wf_event_ids : ids_below ((ID ∘ ev_event) <$> job_events s) (next_event s);
}.

Lemma ids_below_app l next k l' next' :
  ids_below l next → next ≤ k → StronglySorted Z.lt l' → Forall (λ i, k ≤ i < next') l' →
  k ≤ next' → ids_below (l ++ l') next'.
Proof.
  intros (Hs & Hf & H1) Hk Hs' Hf' Hn. split_and!; [| |lia].
  - apply StronglySorted_app; split_and!; try done.
    rewrite Forall_forall in Hf, Hf'. intros x y Hx Hy.
    specialize (Hf _ Hx). specialize (Hf' _ Hy). lia.
  - apply Forall_app. split; eapply Forall_impl; eauto; simpl; lia.
Qed.

(** A block of consecutive identity values. *)
Lemma numbered_sorted {A} (f : A → Z) (l : list A) k :
  (∀ i x, l !! i = Some x → f x = k + Z.of_nat i) →
  StronglySorted Z.lt (f <$> l) ∧ Forall (λ i, k ≤ i < k + Z.of_nat (length l)) (f <$> l).
Proof.
  revert k. induction l as [|x l IH]; intros k Hl; simpl; [by repeat constructor|].
  destruct (IH (k + 1)) as [Hs Hf].
  { intros i y Hy. rewrite (Hl (S i) y Hy). lia. }
  assert (f x = k) as -> by (rewrite (Hl O x eq_refl); lia).
  split; constructor; try done; try lia; eapply Forall_impl; try exact Hf; simpl; lia.
Qed.

Lemma number_events_ids now k l i r :
  number_events now k l !! i = Some r → (ID ∘ ev_event) r = k + Z.of_nat i.
Proof.
  revert k i. induction l as [|n l IH]; intros k [|i]; simpl; try done.
  - intros [= <-]. simpl. lia.
  - intros Hr. pose proof (IH _ _ Hr). simpl in *. lia.
Qed.

Lemma number_letters_ids now k msg rows i d :
  number_letters now k msg rows !! i = Some d → DL_ID d = k + Z.of_nat i.
Proof.
  revert k i. induction rows as [|p rows IH]; intros k [|i]; simpl; try done.
  - intros [= <-]. simpl. lia.
  - intros Hd. rewrite (IH _ _ Hd). lia.
Qed.

Lemma number_letters_length now k msg rows :
  length (number_letters now k msg rows) = length rows.
Proof. revert k. induction rows as [|p rows IH]; intros k; simpl; [done|]. by rewrite IH. Qed.

Lemma ids_below_events now k l evs next next' :
  ids_below ((ID ∘ ev_event) <$> evs) next → next ≤ k → next' = k + Z.of_nat (length l) →
  ids_below ((ID ∘ ev_event) <$> evs ++ number_events now k l) next'.
Proof.
  intros Hb Hk ->. rewrite fmap_app.
  destruct (numbered_sorted (ID ∘ ev_event) (number_events now k l) k) as [Hs Hf].
  { intros i r. apply number_events_ids. }
  rewrite number_events_length in Hf. eapply ids_below_app; try done; lia.
Qed.

Lemma ids_below_letters now k msg rows tbl next next' :
  ids_below (DL_ID <$> tbl) next → next ≤ k → next' = k + Z.of_nat (length rows) →
  ids_below (DL_ID <$> tbl ++ number_letters now k msg rows) next'.
Proof.
  intros Hb Hk ->. rewrite fmap_app.
  destruct (numbered_sorted DL_ID (number_letters now k msg rows) k) as [Hs Hf].
  { intros i r. apply number_letters_ids. }
  rewrite number_letters_length in Hf. eapply ids_below_app; try done; lia.
Qed.

(** ** Updates preserve the invariant *)

(** What the SET clause keeps of a row. *)
Definition keeps (r r' : job_row) : Prop :=
  r_type r' = r_type r ∧ r_payload r' = r_payload r ∧ r_attempts r ≤ r_attempts r'.

Lemma letter_wf_update P f m d :
  (∀ r, keeps r (f r)) → letter_wf m d → letter_wf (sql_update P f m) d.
Proof.
  intros Hf (r & Hr & Ht & Hp & Ha). destruct (Hf r) as (Ht' & Hp' & Ha').
  exists (if P (DL_JobID d) r then f r else r). rewrite lookup_sql_update, Hr. simpl.
  split; [done|]. destruct (P _ r); rewrite ?Ht', ?Hp'; split_and!; lia || done.
Qed.

Section preserve.
Context (now : Z) (P : Z → job_row → bool) (f : job_row → job_row)
  (ev : Z * job_row → new_event) (dead : Z * job_row → bool) (msg : string)
  (rows : list (Z * job_row)) (s s' : db).
Context (Hkeeps : ∀ r, keeps r (f r)).
Context (Hwf : ∀ id r, jobs s !! id = Some r → P id r → (id, f r) ∈ rows →
  row_wf r → row_wf (f r)).
Context (Hdead : ∀ id r, r_status (f r) = StatusFailed → dead (id, f r)).

Lemma update_effect_wf :
  db_wf s → update_effect now P f ev dead msg rows s s' → db_wf s'.
Proof.
  intros [Hn Hids Hrows Hu Hlet Hfail Hli Hei]
    [Hret Hj Hnj (k & Hev & Hk & Hnext) (k' & Hdl & Hk' & Hnext') Hu'].
  assert (∀ id r, jobs s !! id = Some r → P id r → (id, f r) ∈ rows) as Hin.
  { intros id r Hr HP. rewrite Hret. apply elem_of_sql_returning. eauto. }
  split; [lia| | |by auto| | | |].
  - intros id r'. rewrite Hj, lookup_sql_update, Hnj. intros (r & Hr & _)%fmap_Some. eauto.
  - intros id r'. rewrite Hj, lookup_sql_update. intros (r & Hr & ->)%fmap_Some.
    destruct (P id r) eqn:E; [|eauto]. apply Is_true_true in E. eauto.
  - rewrite Hdl, Hj. apply Forall_app. split.
    + eapply Forall_impl; [exact Hlet|]. intros d. by apply letter_wf_update.
    + apply Forall_forall. intros d Hd.
      apply elem_of_number_letters in Hd as (p & i & Hp & -> & _).
      apply list_elem_of_filter in Hp as [_ Hp]. rewrite Hret in Hp.
      destruct p as [id r']. apply elem_of_sql_returning in Hp as (r & Hr & HP & ->).
      exists (f r). simpl. rewrite lookup_sql_update, Hr. simpl.
      by apply Is_true_true in HP as ->.
  - intros id r' Hr' Hst. rewrite Hdl, fmap_app, number_letters_job_ids. apply elem_of_app.
    rewrite Hj, lookup_sql_update in Hr'. apply fmap_Some in Hr' as (r & Hr & ->).
    destruct (P id r) eqn:E; [right|left; by eapply Hfail].
    apply Is_true_true in E. apply list_elem_of_fmap. exists (id, f r). split; [done|].
    apply list_elem_of_filter. eauto.
  - rewrite Hdl. by eapply ids_below_letters.
  - rewrite Hev. eapply ids_below_events; [done|done|]. by rewrite length_fmap.
Qed.

End preserve.

Section steps.
Context {Pg : Postgres}.
Implicit Types (e : stmt_env) (s : db).

Lemma row_wf_claim e w iv r :
  row_wf r → r_attempts r + 1 ≤ max_int4 → row_wf (claim_set e w iv r).
Proof. intros [[Ha _] _] Hm. split; simpl; [lia|]. split_and!; try by eexists. lia. Qed.

Lemma row_wf_complete e r : row_wf r → row_wf (complete_set e r).
Proof. intros [Ha _]. split; [done|]. by eexists. Qed.

Lemma row_wf_retry t msg r : row_wf r → row_wf (retry_set t msg r).
Proof. intros [Ha _]. by split. Qed.

Lemma row_wf_fail e msg r : row_wf r → row_wf (fail_set e msg r).
Proof. intros [Ha _]. split; [done|]. simpl. split_and!; by try eexists. Qed.

Lemma row_wf_reap e r : row_wf r → row_wf (reap_set e r).
Proof.
  intros [Ha _]. split; [done|]. simpl. destruct (exhausted r); simpl; split_and!; by try eexists.
Qed.

Lemma db_wf_empty : db_wf db_empty.
Proof.
  split; simpl; try done; try (intros ??; by rewrite lookup_empty); try by constructor.
  all: split_and!; by try constructor.
Qed.

Lemma db_wf_enqueue ty pl tc e s id s' :
  db_wf s → stmt_enqueue ty pl tc e s = Ok (id, s') → db_wf s'.
Proof.
  intros [Hn Hids Hrows Hu Hlet Hfail Hli Hei] Hs.
  apply stmt_enqueue_effect in Hs as
    (doc & k & _ & _ & _ & -> & Hmax & Hnj & Hj & Hdl & Hnd & Hev & Hk & Hne).
  assert (next_job s ≤ next_id e SeqJobs (next_job s)) as Hid by (unfold next_id; lia).
  assert (jobs s !! next_id e SeqJobs (next_job s) = None) as Hfresh.
  { destruct (jobs s !! _) as [r|] eqn:E; [|done]. apply Hids in E. lia. }
  split; [lia| | | | | | |].
  - intros i r. rewrite Hj, Hnj, lookup_insert_Some.
    intros [[<- _]|[_ Hr]]; [lia|]. apply Hids in Hr. lia.
  - intros i r. rewrite Hj, lookup_insert_Some. intros [[_ <-]|[_ Hr]]; [|by eauto].
    split; simpl; [unfold max_int4; lia|done].
  - by rewrite Hdl.
  - rewrite Hdl, Hj. eapply Forall_impl; [exact Hlet|]. intros d (r & Hr & Hd).
    exists r. split; [|done]. rewrite lookup_insert_ne; [done|]. intros E.
    rewrite <-E in Hr. congruence.
  - intros i r. rewrite Hj, Hdl, lookup_insert_Some. intros [[_ <-]|[_ Hr]]; [done|eauto].
  - by rewrite Hdl, Hnd.
  - rewrite Hev. apply (ids_below_events _ _ [_] _ (next_event s)); [done|done|simpl; lia].
Qed.

Lemma db_wf_mark ids e s u s' :
  db_wf s → stmt_mark_shipped ids e s = Ok (u, s') → db_wf s'.
Proof.
  intros [] [= _ <-]. split; try done. simpl.
  rewrite <-list_fmap_compose. erewrite list_fmap_ext; [done|].
  intros i r _. simpl. unfold mark_row. by case_bool_decide.
Qed.

Lemma db_wf_step s s' : db_wf s → db_step s s' → db_wf s'.
Proof.
  intros Hwf Hs. pose proof (wf_letters_unique _ Hwf) as Hu. destruct Hs as
    [ty pl tc e s id s' Hs|w lease limit e s jl s' Hs|id e s u s' Hs|id t err e s u s' Hs
    |id err e s u s' Hs|e s [n d] s' Hs|ids e s u s' Hs].
  - by eapply db_wf_enqueue.
  - apply stmt_claim_effect in Hs as (iv & rows & _ & _ & _ & _ & Hatt & Heff).
    eapply update_effect_wf in Heff; [done| | | |done]; simpl.
    + intros r. split_and!; simpl; lia || done.
    + intros id r _ _ Hin Hr. apply row_wf_claim; [done|].
      rewrite Forall_forall in Hatt. exact (Hatt _ Hin).
    + done.
  - apply stmt_complete_effect in Hs.
    eapply update_effect_wf in Hs; [done| | | |done]; try done.
    intros. by apply row_wf_complete.
  - apply stmt_retry_effect in Hs as [_ Hs].
    eapply update_effect_wf in Hs; [done| | | |done]; try done.
    intros. by eapply row_wf_retry.
  - apply stmt_fail_effect in Hs as [_ Hs]; [|done].
    eapply update_effect_wf in Hs; [done| | | |done]; try done.
    intros. by eapply row_wf_fail.
  - apply stmt_reap_effect in Hs as (rows & _ & _ & Hs); [|done].
    eapply update_effect_wf in Hs; [done| | | |done].
    + done.
    + intros. by eapply row_wf_reap.
    + intros id r Hst. unfold row_failed. by apply bool_decide_spec.
  - by eapply db_wf_mark.
Qed.

Lemma reachable_wf s : reachable s → db_wf s.
Proof.
  apply reachable_ind_r; [apply db_wf_empty|]. intros s1 s2 _ Hwf Hs. by eapply db_wf_step.
Qed.

(** C18. The tables stay well formed under any sequence of committed statements
    from the migrated schema: every queued row is unclaimed, every running row
    has a holder, a claim time, a lease and an attempt, every completed or
    failed row has its completion time; attempts fit the column; identity values
    are fresh and both logs are ordered by theirs; a failed job has a dead
    letter, a job has at most one, and it copies the job. *)
Theorem tables_invariant s : reachable s → db_wf s.
Proof. apply reachable_wf. Qed.

End steps.

Lemma tables_invariant_witness : db_wf demo_running.
Proof.
  apply tables_invariant.
  eapply rtc_l; [apply (step_enqueue "sum_numbers" "[1]" "" (quiet 0) db_empty 1); reflexivity|].
  apply rtc_once. by eapply (step_claim "worker-0" (30 * Second) 1 (quiet (sec 1))).
Defined.

#[export] Hint Resolve db_wf_empty db_wf_step reachable_wf : jq.
