(* ===== verification/History.v ===== *)
(** * The outbox is the history of the jobs

    The abstract specification of the storage layer is event-sourced: a job is
    its type, status and number of attempts, and each outbox event is one
    transition of it.  [replay] runs a list of events on that abstract state
    and fails on an event that is not legal there.  The refinement theorem: in
    every reachable state, replaying the whole outbox from nothing succeeds and
    gives exactly the [jobs] table. *)

From stdpp Require Import prelude gmap strings list relations sorting.
From S2P Require Import Prelude GoBase Job Store StoreFacts Steps Claim Invariant Demo.
#[local] Open Scope jq_scope.

(** ** The abstract job *)

Record hist : Type := Hist {
  h_type : string;
  h_status : Status;
  h_attempts : Z;
}.

#[global] Instance hist_eq_dec : EqDecision hist.
Proof. solve_decision. Defined.

(** The transition of an event, with the statuses it may start from: a claim
    takes a queued job and the reaper a running one; the three reports of a
    worker are accepted from any status, as [Complete], [Retry] and [Fail]
    match a row by its id alone. *)
Definition next_status (t : EventType) (st : Status) : option Status :=
  match t, st with
  | EventEnqueued, _ => None
  | EventClaimed, StatusQueued => Some StatusRunning
  | EventClaimed, _ => None
  | EventCompleted, _ => Some StatusCompleted
  | EventRetried, _ => Some StatusQueued
  | EventFailed, _ => Some StatusFailed
  | EventReapedRetry, StatusRunning => Some StatusQueued
  | EventReapedRetry, _ => None
  | EventReapedFailed, StatusRunning => Some StatusFailed
  | EventReapedFailed, _ => None
  end.

Definition next_attempts (t : EventType) (n : Z) : Z :=
  if decide (t = EventClaimed) then n + 1 else n.

Definition hist_step (t : EventType) (ty : string) (n : Z) (o : option hist) : option hist :=
  match t, o with
  | EventEnqueued, None => if decide (n = 0) then Some (Hist ty StatusQueued 0) else None
  | _, None => None
  | _, Some h =>
      st ← next_status t (h_status h);
      if decide (ty = h_type h ∧ n = next_attempts t (h_attempts h))
      then Some (Hist ty st n) else None
  end.

(** A log is run by the transition of its events. *)
Definition apply_with (step : EventType → string → Z → option hist → option hist)
    (m : gmap Z hist) (ev : Event) : option (gmap Z hist) :=
  h ← step (Event_EventType ev) (JobType ev) (Event_Attempts ev) (m !! JobID ev);
  Some (<[JobID ev := h]> m).

Fixpoint replay_with (step : EventType → string → Z → option hist → option hist)
    (l : list Event) (m : gmap Z hist) : option (gmap Z hist) :=
  match l with
  | [] => Some m
  | ev :: l => m' ← apply_with step m ev; replay_with step l m'
  end.

Abbreviation apply_event := (apply_with hist_step).
Abbreviation replay := (replay_with hist_step).

(** The abstraction of a table row. *)
Definition hist_of (r : job_row) : hist := Hist (r_type r) (r_status r) (r_attempts r).

Definition abs_jobs (s : db) : gmap Z hist := hist_of <$> jobs s.
Definition outbox (s : db) : list Event := ev_event <$> job_events s.

Lemma replay_app step l l' m : replay_with step (l ++ l') m = m' ← replay_with step l m; replay_with step l' m'.
Proof.
  revert m. induction l as [|ev l IH]; intros m; simpl; [done|].
  destruct (apply_with step m ev); simpl; [apply IH|done].
Qed.

(** ** Statements append their own history *)

(** Events of distinct jobs, each legal for its job, replay to the union of
    their outcomes. *)
Lemma replay_rows step (rows : list (Z * job_row)) (ev : Z * job_row → new_event) now k m :
  NoDup rows.*1 →
  (∀ p, p ∈ rows → ne_job_id (ev p) = p.1) →
  (∀ p, p ∈ rows →
     step (ne_event_type (ev p)) (ne_job_type (ev p)) (ne_attempts (ev p)) (m !! p.1)
     = Some (hist_of p.2)) →
  replay_with step (ev_event <$> number_events now k (ev <$> rows)) m
  = Some (list_to_map ((λ p, (p.1, hist_of p.2)) <$> rows) ∪ m).
Proof.
  revert m k. induction rows as [|p rows IH]; intros m k Hnd Hid Hst; simpl.
  - by rewrite (left_id_L ∅ (∪)).
  - apply NoDup_cons in Hnd as [Hp Hnd].
    unfold apply_with. simpl. rewrite (Hid p), (Hst p) by by left. simpl.
    rewrite IH; [|done| |].
    + f_equal. rewrite <-insert_union_l. apply map_eq. intros i.
      destruct (decide (p.1 = i)) as [<-|Hne].
      * rewrite lookup_insert_eq, lookup_union_r, lookup_insert_eq; [done|].
        apply not_elem_of_list_to_map_1. rewrite <-list_fmap_compose. done.
      * rewrite lookup_insert_ne by done. by rewrite !lookup_union, lookup_insert_ne.
    + intros q Hq. apply Hid. by right.
    + intros q Hq. rewrite lookup_insert_ne; [apply Hst; by right|].
      intros E. apply Hp. rewrite E. apply list_elem_of_fmap. eauto.
Qed.

(** A statement of the update shape whose event is legal for every row it
    updates appends events that lead from the old table to the new one. *)
Lemma update_effect_replay step now P f ev dead msg rows s s' :
  update_effect now P f ev dead msg rows s s' →
  (∀ p, ne_job_id (ev p) = p.1) →
  (∀ id r, jobs s !! id = Some r → P id r →
     step (ne_event_type (ev (id, f r))) (ne_job_type (ev (id, f r)))
       (ne_attempts (ev (id, f r))) (Some (hist_of r)) = Some (hist_of (f r))) →
  ∃ l, outbox s' = outbox s ++ l ∧ replay_with step l (abs_jobs s) = Some (abs_jobs s').
Proof.
  intros [Hret Hj _ (k & Hev & _ & _) _ _] Hid Hst. unfold outbox. rewrite Hev, fmap_app.
  eexists. split; [done|].
  assert (∀ id r', (id, r') ∈ rows ↔ ∃ r, jobs s !! id = Some r ∧ P id r ∧ r' = f r) as Hin.
  { intros id r'. by rewrite Hret, elem_of_sql_returning. }
  assert (NoDup rows.*1) as Hnd by (rewrite Hret; apply NoDup_sql_returning).
  rewrite replay_rows; [|done|by auto|].
  - f_equal. unfold abs_jobs. rewrite Hj. apply map_eq. intros id.
    rewrite lookup_fmap, lookup_sql_update, lookup_union, lookup_fmap.
    set (m := list_to_map _ : gmap Z hist).
    destruct (m !! id) as [h|] eqn:E; subst m.
    + apply elem_of_list_to_map_2, list_elem_of_fmap in E as ([i r'] & [= -> ->] & Hp).
      apply Hin in Hp as (r & Hr & HP%Is_true_true & ->). by rewrite Hr; simpl; rewrite HP.
    + rewrite (left_id_L None _). destruct (jobs s !! id) as [r|] eqn:Hr; [|done]. simpl.
      destruct (P id r) eqn:HP; [|done]. apply not_elem_of_list_to_map_2 in E.
      exfalso. apply E. rewrite <-list_fmap_compose. apply list_elem_of_fmap.
      exists (id, f r). split; [done|]. apply Hin. apply Is_true_true in HP. eauto.
  - intros [id r'] Hp. apply Hin in Hp as (r & Hr & HP & ->). simpl.
    unfold abs_jobs. rewrite lookup_fmap, Hr. by apply Hst.
Qed.

Section refinement.
Context {Pg : Postgres}.
Implicit Types (e : stmt_env) (s : db).

(** The tables agree with the outbox. *)
Definition history_ok (s : db) : Prop := replay (outbox s) ∅ = Some (abs_jobs s).

Lemma history_append s s' l :
  history_ok s → outbox s' = outbox s ++ l → replay l (abs_jobs s) = Some (abs_jobs s') →
  history_ok s'.
Proof. unfold history_ok. intros H -> Hl. rewrite replay_app, H. done. Qed.

Lemma reap_event_legal e id r :
  r_status r = StatusRunning →
  hist_step (ne_event_type (reap_event (id, reap_set e r)))
    (ne_job_type (reap_event (id, reap_set e r))) (ne_attempts (reap_event (id, reap_set e r)))
    (Some (hist_of r)) = Some (hist_of (reap_set e r)).
Proof.
  intros Hst. unfold reap_event, row_failed, hist_of. simpl. rewrite Hst.
  destruct (exhausted r); simpl; by rewrite decide_True.
Qed.

Lemma enqueue_history step ty pl tc e s id s' :
  (∀ ty, step EventEnqueued ty 0 None = Some (Hist ty StatusQueued 0)) →
  db_wf s → stmt_enqueue ty pl tc e s = Ok (id, s') →
  ∃ l, outbox s' = outbox s ++ l ∧ replay_with step l (abs_jobs s) = Some (abs_jobs s').
Proof.
  intros Hstep Hwf Hs. apply stmt_enqueue_effect in Hs as
    (doc & k & _ & _ & _ & -> & _ & _ & Hj & _ & _ & Hev & _ & _).
  eexists. split; [unfold outbox; by rewrite Hev, fmap_app|].
  unfold abs_jobs. rewrite Hj, fmap_insert. simpl. unfold apply_with. simpl.
  rewrite lookup_fmap. destruct (jobs s !! _) as [r|] eqn:E; [|simpl; by rewrite Hstep].
  apply (wf_job_ids _ Hwf) in E. unfold next_id in E. lia.
Qed.

Lemma stmt_mark_shipped_outbox ids e s u s' :
  stmt_mark_shipped ids e s = Ok (u, s') → outbox s' = outbox s ∧ jobs s' = jobs s.
Proof.
  intros [= _ <-]. unfold outbox. simpl. rewrite <-list_fmap_compose. split; [|done].
  apply list_fmap_ext. intros i r _. simpl. unfold mark_row. by case_bool_decide.
Qed.

(** A statement appends to the outbox the transitions it makes. *)
Lemma step_replays s s' :
  db_wf s → db_step s s' →
  ∃ l, outbox s' = outbox s ++ l ∧ replay l (abs_jobs s) = Some (abs_jobs s').
Proof.
  intros Hwf Hs. pose proof (wf_letters_unique _ Hwf) as Hu.
  destruct Hs as
    [ty pl tc e s id s' Hs|w lease limit e s jl s' Hs|id e s u s' Hs|id t err e s u s' Hs
    |id err e s u s' Hs|e s [n d] s' Hs|ids e s u s' Hs].
  - by eapply (enqueue_history hist_step).
  - apply stmt_claim_effect in Hs as (iv & rows & _ & _ & _ & _ & _ & Heff).
    eapply (update_effect_replay hist_step); [exact Heff|done|]. intros id r Hr HP. simpl.
    rewrite (claim_pred_queued _ _ _ _ _ Hr HP). simpl. by rewrite decide_True.
  - apply stmt_complete_effect in Hs. eapply (update_effect_replay hist_step); [exact Hs|done|].
    intros id' r _ _. simpl. by rewrite decide_True.
  - apply stmt_retry_effect in Hs as [_ Hs]. eapply (update_effect_replay hist_step); [exact Hs|done|].
    intros id' r _ _. simpl. by rewrite decide_True.
  - apply stmt_fail_effect in Hs as [_ Hs]; [|done].
    eapply (update_effect_replay hist_step); [exact Hs|done|].
    intros id' r _ _. simpl. by rewrite decide_True.
  - apply stmt_reap_effect in Hs as (rows & _ & _ & Hs); [|done].
    eapply (update_effect_replay hist_step); [exact Hs|done|]. intros id r _ HP.
    apply reap_event_legal. apply andb_True in HP as [HP _]. by apply bool_decide_spec in HP.
  - exists []. apply stmt_mark_shipped_outbox in Hs as [Ho Hj].
    rewrite app_nil_r. split; [done|]. simpl. unfold abs_jobs. by rewrite Hj.
Qed.

Lemma history_step s s' : db_wf s → history_ok s → db_step s s' → history_ok s'.
Proof.
  intros Hwf Hh (l & Hl & Hr)%step_replays; [|done]. by eapply history_append.
Qed.

Lemma history_reachable s : reachable s → history_ok s.
Proof.
  apply reachable_ind_r; [done|]. intros s1 s2 Hr Hh Hs.
  eapply history_step; [|done|done]. by apply reachable_wf.
Qed.

(** So does any run of statements. *)
Lemma run_replays s s' :
  reachable s → rtc db_step s s' →
  ∃ l, outbox s' = outbox s ++ l ∧ replay l (abs_jobs s) = Some (abs_jobs s').
Proof.
  intros Hr Hs. induction Hs as [s|s s1 s' Hs1 _ IH].
  - exists []. by rewrite app_nil_r.
  - apply step_replays in Hs1 as Hl1; [|by apply reachable_wf].
    destruct Hl1 as (l1 & Ho1 & Hm1), IH as (l2 & Ho2 & Hm2); [by eapply rtc_r|].
    exists (l1 ++ l2). rewrite Ho2, Ho1, (assoc_L (++)), replay_app, Hm1. done.
Qed.

End refinement.

(** ** Consequences for the log *)

Definition claims_of (id : Z) (l : list Event) : nat :=
  length (filter (λ ev, JobID ev = id ∧ Event_EventType ev = EventClaimed) l).
Definition enqueues_of (id : Z) (l : list Event) : nat :=
  length (filter (λ ev, JobID ev = id ∧ Event_EventType ev = EventEnqueued) l).

(** Attempts of a job in the abstract state, 0 before it exists. *)
Definition attempts_in (m : gmap Z hist) (id : Z) : Z := from_option h_attempts 0 (m !! id).

Lemma apply_event_inv m ev m' :
  apply_event m ev = Some m' →
  ∃ h, m' = <[JobID ev := h]> m ∧
    (Event_EventType ev = EventEnqueued ∧ m !! JobID ev = None ∧ h_attempts h = 0 ∨
     Event_EventType ev ≠ EventEnqueued ∧ is_Some (m !! JobID ev) ∧
     h_attempts h = Event_Attempts ev ∧
     Event_Attempts ev = next_attempts (Event_EventType ev) (attempts_in m (JobID ev))).
Proof.
  unfold apply_with. intros (h & Hh & [= <-])%bind_Some. exists h. split; [done|].
  unfold hist_step, attempts_in in *.
  destruct (m !! JobID ev) as [h0|] eqn:E.
  - destruct (Event_EventType ev) eqn:Et; apply bind_Some in Hh as (st & Hst & Hh);
      try done; case_decide as Hd; try done; destruct Hd as [_ Hn];
      right; injection Hh as <-; simpl; by eauto.
  - destruct (Event_EventType ev); try done. case_decide; simplify_eq. by left.
Qed.

Lemma attempts_in_step m ev m' id :
  apply_event m ev = Some m' →
  attempts_in m' id = attempts_in m id +
    (if decide (JobID ev = id ∧ Event_EventType ev = EventClaimed) then 1 else 0).
Proof.
  intros (h & -> & Hh)%apply_event_inv. unfold attempts_in.
  destruct (decide (JobID ev = id)) as [<-|Hne].
  - rewrite lookup_insert_eq. simpl. destruct Hh as [(Et & Hm & ->)|(_ & Hm & -> & ->)].
    + rewrite Hm, decide_False; [done|]. intros [_ E]. congruence.
    + unfold next_attempts, attempts_in. repeat case_decide; lia || tauto.
  - rewrite lookup_insert_ne by done. rewrite decide_False by tauto. lia.
Qed.

Lemma replay_attempts l m m' id :
  replay l m = Some m' → attempts_in m' id = attempts_in m id + Z.of_nat (claims_of id l).
Proof.
  revert m. induction l as [|ev l IH]; intros m; simpl.
  - intros [= ->]. unfold claims_of. simpl. lia.
  - intros (m1 & Hm & Hr)%bind_Some. rewrite (IH _ Hr), (attempts_in_step _ _ _ id Hm).
    unfold claims_of. rewrite filter_cons. case_decide; simpl; lia.
Qed.

Lemma replay_enqueues l m m' id :
  replay l m = Some m' →
  (enqueues_of id l + (if m !! id is Some _ then 1 else 0) = if m' !! id is Some _ then 1 else 0)%nat.
Proof.
  revert m. induction l as [|ev l IH]; intros m; simpl.
  - intros [= ->]. unfold enqueues_of. done.
  - intros (m1 & Hm & Hr)%bind_Some. rewrite <-(IH _ Hr).
    unfold enqueues_of. rewrite filter_cons. clear IH Hr m'.
    apply apply_event_inv in Hm as (h & -> & Hh).
    destruct (decide (JobID ev = id)) as [<-|Hne].
    + rewrite lookup_insert_eq.
      destruct Hh as [(Et & -> & _)|(Et & [? ->] & _)]; case_decide; simpl; try lia; tauto.
    + rewrite lookup_insert_ne by done. rewrite decide_False by tauto. lia.
Qed.

(** A claim event in a replayed log raised the attempts of its job to the number
    it carries; later ones carry larger numbers. *)
Lemma replay_claims_NoDup l m m' :
  replay l m = Some m' →
  let cl := (λ ev, (JobID ev, Event_Attempts ev)) <$>
              filter (λ ev, Event_EventType ev = EventClaimed) l in
  NoDup cl ∧ ∀ id n, (id, n) ∈ cl → attempts_in m id < n.
Proof.
  simpl. revert m. induction l as [|ev l IH]; intros m; simpl.
  - intros _. split; [constructor|]. intros ?? []%not_elem_of_nil.
  - intros (m1 & Hm & Hr)%bind_Some. destruct (IH _ Hr) as [Hnd Hlt].
    pose proof (λ id, attempts_in_step _ _ _ id Hm) as Hst.
    assert (∀ id, attempts_in m id ≤ attempts_in m1 id) as Hmono.
    { intros id. rewrite Hst. destruct (decide (_ ∧ _)); lia. }
    rewrite filter_cons. case_decide as Et.
    + assert (Event_Attempts ev = attempts_in m (JobID ev) + 1) as Ha.
      { apply apply_event_inv in Hm as (h & _ & [(E & _)|(_ & _ & _ & ->)]); [congruence|].
        unfold next_attempts. by rewrite decide_True. }
      simpl. split.
      * apply NoDup_cons. split; [|done]. intros Hin%Hlt.
        rewrite Hst, decide_True in Hin by done. lia.
      * intros id n [[= -> ->]|Hin]%elem_of_cons; [rewrite Ha; lia|]. specialize (Hlt _ _ Hin).
        specialize (Hmono id). lia.
    + split; [done|]. intros id n Hin. specialize (Hlt _ _ Hin). specialize (Hmono id). lia.
Qed.

(** An event that puts its job back in the queue. *)
Definition requeues (id : Z) (ev : Event) : Prop :=
  JobID ev = id ∧ (Event_EventType ev = EventRetried ∨ Event_EventType ev = EventReapedRetry).

(** A job that left the queue is in it again only after such an event. *)
Lemma replay_requeued l m m' id h h' :
  replay l m = Some m' → m !! id = Some h → h_status h ≠ StatusQueued →
  m' !! id = Some h' → h_status h' = StatusQueued → Exists (requeues id) l.
Proof.
  revert m h. induction l as [|ev l IH]; intros m h; simpl.
  - intros [= ->] E Hst ? ?. simplify_eq.
  - intros (m1 & Hm & Hr)%bind_Some E Hst E' Hst'.
    unfold apply_with in Hm. apply bind_Some in Hm as (h1 & Hh & [= <-]).
    destruct (decide (JobID ev = id)) as [<-|Hne].
    + rewrite E in Hh. destruct (decide (h_status h1 = StatusQueued)) as [Hq|Hq].
      * left. split; [done|]. unfold hist_step in Hh.
        destruct (Event_EventType ev), (h_status h) eqn:Eh; simpl in Hh; try done; auto;
          case_decide; simplify_eq; done.
      * right. by eapply (IH _ h1); [done|apply lookup_insert_eq| | |].
    + right. eapply (IH _ h); [done|by rewrite lookup_insert_ne|done|done|done].
Qed.

Section properties.
Context {Pg : Postgres}.
Implicit Types (s : db).

(** The row of a claimed job: queued before, running with one more attempt
    after. *)
Lemma claimed_was_queued w lease limit e s jl s' j :
  stmt_claim w lease limit e s = Ok (jl, s') → j ∈ jl →
  NoDup (Job_ID <$> jl) ∧
  abs_jobs s !! Job_ID j = Some (Hist (Type_ j) StatusQueued (Attempts j - 1)) ∧
  abs_jobs s' !! Job_ID j = Some (Hist (Type_ j) StatusRunning (Attempts j)).
Proof.
  intros (iv & rows & _ & _ & _ & -> & _ & Heff)%stmt_claim_effect Hj.
  destruct Heff as [Hret Hjobs _ _ _ _].
  assert (NoDup rows.*1) as Hnd by (rewrite Hret; apply NoDup_sql_returning).
  split; [rewrite <-list_fmap_compose; exact Hnd|].
  apply list_elem_of_fmap in Hj as ([id r'] & -> & Hin).
  rewrite Hret, elem_of_sql_returning in Hin. destruct Hin as (r & Hr & HP & ->).
  unfold abs_jobs. simpl. rewrite Hjobs, !lookup_fmap, lookup_sql_update, Hr. simpl.
  apply Is_true_true in HP as E. rewrite E. unfold hist_of. simpl.
  rewrite (claim_pred_queued _ _ _ _ _ Hr HP).
  split; [do 2 f_equal; lia|done].
Qed.

(** C2. Refinement: the storage layer implements the event-sourced specification.
    In every state reachable by any interleaving of the statements, replaying
    the outbox from nothing succeeds, so every logged event was a legal
    transition of its job, and yields exactly the type, status and attempts of
    every row of [jobs]. *)
Theorem outbox_refines_jobs s :
  reachable s → replay (outbox s) ∅ = Some (hist_of <$> jobs s).
Proof. apply history_reachable. Qed.

(** C3. Mutual exclusion of the workers: a claimed job is not handed out again
    until it has been put back.  When one statement claims a job and, after any
    statements of any workers, reapers and shippers, another claims the same
    job, an event between the two says that the job was requeued, by the report
    of a failed attempt ([retried]) or by the reaper ([reaped_retry]); the
    second claim carries a larger attempt number; and one claim never returns a
    job twice. *)
Theorem no_double_claim s w lease limit e jl s1 s2 w' lease' limit' e' jl' s3 j j' :
  reachable s → stmt_claim w lease limit e s = Ok (jl, s1) →
  rtc db_step s1 s2 → stmt_claim w' lease' limit' e' s2 = Ok (jl', s3) →
  j ∈ jl → j' ∈ jl' → Job_ID j' = Job_ID j →
  NoDup (Job_ID <$> jl) ∧ Attempts j < Attempts j' ∧
  ∃ mid, outbox s2 = outbox s1 ++ mid ∧ Exists (requeues (Job_ID j)) mid.
Proof.
  intros Hr Hc Hs Hc' Hj Hj' Hid.
  assert (reachable s1) as Hr1 by (eapply rtc_r; [exact Hr|exact (step_claim _ _ _ _ _ _ _ Hc)]).
  destruct (claimed_was_queued _ _ _ _ _ _ _ _ Hc Hj) as (Hnd & _ & Hrun).
  destruct (claimed_was_queued _ _ _ _ _ _ _ _ Hc' Hj') as (_ & Hq & _).
  rewrite Hid in Hq. destruct (run_replays _ _ Hr1 Hs) as (mid & Ho & Hm).
  split_and!; [done| |].
  - apply (replay_attempts _ _ _ (Job_ID j)) in Hm. unfold attempts_in in Hm.
    rewrite Hrun, Hq in Hm. simpl in Hm. lia.
  - exists mid. split; [done|]. by eapply replay_requeued.
Qed.

(** The log is complete: a job's attempts column counts its claim events, and
    the job has exactly one enqueue event. *)
Theorem outbox_counts s id r :
  reachable s → jobs s !! id = Some r →
  r_attempts r = Z.of_nat (claims_of id (outbox s)) ∧ enqueues_of id (outbox s) = 1%nat.
Proof.
  intros Hr%history_reachable Hid. unfold history_ok in Hr. split.
  - apply (replay_attempts _ _ _ id) in Hr. unfold attempts_in, abs_jobs in Hr.
    rewrite lookup_fmap, Hid in Hr. simpl in Hr. by rewrite lookup_empty in Hr.
  - apply (replay_enqueues _ _ _ id) in Hr. unfold abs_jobs in Hr.
    rewrite lookup_fmap, Hid, lookup_empty in Hr. simpl in Hr. lia.
Qed.

End properties.

(** ** A job's life, replayed *)

Lemma demo_running_reachable : reachable demo_running.
Proof.
  eapply rtc_l; [apply (step_enqueue "sum_numbers" "[1]" "" (quiet 0) db_empty 1); reflexivity|].
  eapply rtc_l; [eapply (step_claim "worker-0" (30 * Second) 1 (quiet (sec 1))); reflexivity|]. apply rtc_refl.
Qed.

Lemma demo_reachable : reachable demo_completed.
Proof. eapply rtc_r; [exact demo_running_reachable|]. eapply (step_complete 1 (quiet (sec 2))); reflexivity. Qed.

Lemma outbox_refines_jobs_witness :
  Event_EventType <$> outbox demo_completed = [EventEnqueued; EventClaimed; EventCompleted] ∧
  replay (outbox demo_completed) ∅ = Some (hist_of <$> jobs demo_completed).
Proof. split; [by vm_compute|]. apply outbox_refines_jobs, demo_reachable. Defined.

(** The lease runs out, the reaper requeues the job and a second worker claims
    it. *)
Definition demo_reaped : db := after (stmt_reap (quiet (sec 40)) demo_running).
Definition demo_claimed_again : result pg_error (list Job * db) :=
  stmt_claim "worker-1" (30 * Second) 1 (quiet (sec 41)) demo_reaped.

Lemma no_double_claim_witness :
  ∃ mid, outbox demo_reaped = outbox demo_running ++ mid ∧ Exists (requeues 1) mid.
Proof.
  destruct (no_double_claim demo_enqueued "worker-0" (30 * Second) 1 (quiet (sec 1))
    [MkJob 1 "sum_numbers" "[1]" 1 5 ""] demo_running demo_reaped "worker-1" (30 * Second) 1
    (quiet (sec 41)) [MkJob 1 "sum_numbers" "[1]" 2 5 ""] (after demo_claimed_again)
    (MkJob 1 "sum_numbers" "[1]" 1 5 "") (MkJob 1 "sum_numbers" "[1]" 2 5 "")) as (_ & _ & H).
  - eapply rtc_once, (step_enqueue "sum_numbers" "[1]" "" (quiet 0) db_empty 1). by vm_compute.
  - by vm_compute.
  - eapply rtc_once, (step_reap (quiet (sec 40)) demo_running (1, 0)). by vm_compute.
  - by vm_compute.
  - by left.
  - by left.
  - done.
  - exact H.
Defined.
