(* ===== verification/StoreSpec.v ===== *)
(** * The contract of the Store methods

    The functional behaviour of each method on each of its branches: what an
    enqueued job carries to the worker that claims it, the three reports of a
    worker, and the reaper. *)

From stdpp Require Import prelude gmap strings list relations sorting.
From S2P Require Import Prelude GoBase Job Store StoreFacts Steps Claim Invariant History Demo.
#[local] Open Scope jq_scope.

(** ** Columns no statement rewrites *)

Definition same_job (r r' : job_row) : Prop :=
  r_type r' = r_type r ∧ r_payload r' = r_payload r ∧ r_trace_context r' = r_trace_context r ∧
  r_max_attempts r' = r_max_attempts r ∧ r_priority r' = r_priority r ∧
  r_created_at r' = r_created_at r ∧ r_attempts r ≤ r_attempts r'.

#[export] Instance same_job_preorder : PreOrder same_job.
Proof.
  split; [intros r; split_and!; lia || done|].
  intros r1 r2 r3 (?&?&?&?&?&?&?) (?&?&?&?&?&?&?). split_and!; lia || congruence.
Qed.

Lemma same_job_update now P f ev dead msg rows s s' id r :
  update_effect now P f ev dead msg rows s s' → (∀ r, same_job r (f r)) →
  jobs s !! id = Some r → ∃ r', jobs s' !! id = Some r' ∧ same_job r r'.
Proof.
  intros [_ Hj _ _ _ _] Hf Hr. exists (if P id r then f r else r).
  rewrite Hj, lookup_sql_update, Hr. split; [done|]. by destruct (P id r).
Qed.

Lemma update_effect_origin now P f ev dead msg rows s s' id r' :
  update_effect now P f ev dead msg rows s s' → (∀ r, same_job r (f r)) →
  jobs s' !! id = Some r' → ∃ r, jobs s !! id = Some r ∧ same_job r r'.
Proof.
  intros [_ Hj _ _ _ _] Hf. rewrite Hj, lookup_sql_update. intros (r & Hr & ->)%fmap_Some.
  exists r. split; [done|]. by destruct (P id r).
Qed.

Section spec.
Context {Pg : Postgres} {Sp : Type}.
Implicit Types (ctx : context Sp) (e : stmt_env) (s : db) (id : Z).

(** Every committed statement inserts a job, updates rows keeping what the job
    is, or leaves the jobs alone. *)
Lemma db_step_shape s s' :
  db_wf s → db_step s s' →
  (∃ ty pl tc e id, stmt_enqueue ty pl tc e s = Ok (id, s')) ∨
  (∃ now P f ev dead msg rows, update_effect now P f ev dead msg rows s s' ∧
     ∀ r, same_job r (f r)) ∨
  jobs s' = jobs s.
Proof.
  intros Hwf Hs. pose proof (wf_letters_unique _ Hwf) as Hu. destruct Hs as
    [ty pl tc e s i s' Hs|w lease limit e s jl s' Hs|i e s u s' Hs|i t err e s u s' Hs
    |i err e s u s' Hs|e s [n d] s' Hs|ids e s u s' Hs].
  - left. eauto 10.
  - apply stmt_claim_effect in Hs as (iv & rows & _ & _ & _ & _ & _ & Heff). right; left.
    do 7 eexists. split; [exact Heff|]. intros r0. split_and!; simpl; lia || done.
  - apply stmt_complete_effect in Hs. right; left. by do 7 eexists.
  - apply stmt_retry_effect in Hs as [_ Hs]. right; left. by do 7 eexists.
  - apply stmt_fail_effect in Hs as [_ Hs]; [|done]. right; left. by do 7 eexists.
  - apply stmt_reap_effect in Hs as (rows & _ & _ & Hs); [|done]. right; left. by do 7 eexists.
  - apply stmt_mark_shipped_outbox in Hs as [_ Hj]. by right; right.
Qed.

Lemma step_same_job s s' id r :
  db_wf s → db_step s s' → jobs s !! id = Some r →
  ∃ r', jobs s' !! id = Some r' ∧ same_job r r'.
Proof.
  intros Hwf Hs Hr. destruct (db_step_shape _ _ Hwf Hs)
    as [(ty & pl & tc & e & i & He)|[(now & P & f & ev & dead & msg & rows & He & Hf)|Hj]].
  - apply stmt_enqueue_effect in He as (doc & k & _ & _ & _ & -> & _ & _ & Hj & _).
    exists r. rewrite Hj, lookup_insert_ne; [done|]. intros <-.
    apply (wf_job_ids _ Hwf) in Hr. unfold next_id in Hr. lia.
  - by eapply same_job_update in He.
  - exists r. by rewrite Hj.
Qed.

Lemma steps_same_job s s' id r :
  db_wf s → rtc db_step s s' → jobs s !! id = Some r →
  ∃ r', jobs s' !! id = Some r' ∧ same_job r r'.
Proof.
  intros Hwf Hs. revert r Hwf. induction Hs as [|s s1 s' Hs _ IH]; intros r Hwf Hr; [by exists r|].
  destruct (step_same_job _ _ _ _ Hwf Hs Hr) as (r1 & Hr1 & Hs1).
  destruct (IH r1) as (r2 & Hr2 & Hs2); [by eapply db_wf_step|done|].
  exists r2. split; [done|]. by etrans.
Qed.

(** The schema's defaults: every job has five attempts, and no priority. *)
Lemma reachable_defaults s id r :
  reachable s → jobs s !! id = Some r → r_max_attempts r = 5 ∧ r_priority r = 0.
Proof.
  intros Hs. revert s Hs id r.
  apply (reachable_ind_r (λ s, ∀ id r, jobs s !! id = Some r → r_max_attempts r = 5 ∧ r_priority r = 0));
    [intros id r Hr; simpl in Hr; by rewrite lookup_empty in Hr|].
  intros s s' Hre IH Hs id r' Hr'.
  destruct (db_step_shape _ _ (reachable_wf _ Hre) Hs)
    as [(ty & pl & tc & e & i & He)|[(now & P & f & ev & dead & msg & rows & He & Hf)|Hj]].
  - apply stmt_enqueue_effect in He as (doc & k & _ & _ & _ & _ & _ & _ & Hj & _).
    rewrite Hj, lookup_insert_Some in Hr'. destruct Hr' as [[_ <-]|[_ Hr]]; [done|by eauto].
  - eapply update_effect_origin in He as (r & Hr & _ & _ & _ & -> & -> & _); [by eauto|done|done].
  - rewrite Hj in Hr'. by eauto.
Qed.

Lemma reachable_max_attempts s id r : reachable s → jobs s !! id = Some r → r_max_attempts r = 5.
Proof. intros Hs Hr. by destruct (reachable_defaults s id r Hs Hr). Qed.

(** A claimed job carries what the row had at any earlier time. *)
Lemma Claim_carries ctx e s1 s2 id r w lease limit jl s3 j :
  db_wf s1 → jobs s1 !! id = Some r → rtc db_step s1 s2 →
  Claim ctx e w lease limit s2 = (Ok jl, s3) → j ∈ jl → Job_ID j = id →
  Type_ j = r_type r ∧ Payload j = r_payload r ∧ TraceContext j = r_trace_context r ∧
  MaxAttempts j = r_max_attempts r ∧ r_attempts r < Attempts j.
Proof.
  intros Hwf Hr Hs Hc%run_stmt_ok Hj <-.
  destruct (steps_same_job _ _ _ _ Hwf Hs Hr) as (r2 & Hr2 & Hsame).
  apply stmt_claim_effect in Hc as (iv & rows & _ & _ & _ & -> & _ & [Hrows _ _ _ _ _]).
  apply list_elem_of_fmap in Hj as ([i r'] & -> & Hp). simpl in *.
  rewrite Hrows in Hp. apply elem_of_sql_returning in Hp as (r0 & Hr0 & _ & ->).
  simplify_eq. destruct Hsame as (?&?&?&?&_&_&?). simpl in *. split_and!; lia || congruence.
Qed.

Lemma Enqueue_Claim_aux ctx ctx' e e' ty pl tc s id s1 s2 w lease limit jl s3 j :
  db_wf s →
  Enqueue ctx e ty pl tc s = (Ok id, s1) → rtc db_step s1 s2 →
  Claim ctx' e' w lease limit s2 = (Ok jl, s3) → j ∈ jl → Job_ID j = id →
  Type_ j = ty ∧ Some (Payload j) = jsonb_in pl ∧ TraceContext j = tc ∧ MaxAttempts j = 5 ∧
  1 ≤ Attempts j.
Proof.
  intros Hwf Hen%run_stmt_ok Hs Hc Hj Hid.
  assert (db_wf s1) as Hwf1 by by eapply db_wf_enqueue.
  apply stmt_enqueue_effect in Hen as (doc & k & Hdoc & _ & _ & _ & _ & _ & Hj1 & _).
  destruct (Claim_carries ctx' e' s1 s2 id (enqueue_row e ty doc tc) w lease limit jl s3 j)
    as (-> & -> & -> & -> & Ha); [done|by rewrite Hj1, lookup_insert_eq|done..|].
  simpl in *. rewrite Hdoc. split_and!; lia || done.
Qed.

(** C28. Round trip from submission to execution: whatever statements run between
    [Enqueue] and the claim of that job, by any worker and however many
    attempts later, the claimed job carries the submitted type, the submitted
    document as [jsonb] stores it, the submitter's trace context and the
    schema's ceiling of five attempts. *)
Theorem Enqueue_Claim_roundtrip ctx ctx' e e' ty pl tc s id s1 s2 w lease limit jl s3 j :
  reachable s →
  Enqueue ctx e ty pl tc s = (Ok id, s1) → rtc db_step s1 s2 →
  Claim ctx' e' w lease limit s2 = (Ok jl, s3) → j ∈ jl → Job_ID j = id →
  Type_ j = ty ∧ Some (Payload j) = jsonb_in pl ∧ TraceContext j = tc ∧ MaxAttempts j = 5 ∧
  1 ≤ Attempts j.
Proof. intros Hwf%reachable_wf. by apply Enqueue_Claim_aux. Qed.

(** Status round trip: the snapshot [GetStatus] returns is the row: right
    after [Enqueue] the job is queued with no attempt and no error; an id with
    no row is reported as [ErrNotFound] through the method's wrapper, and
    nothing else is. *)
Theorem GetStatus_spec ctx e id s :
  ctx_err ctx = None → env_fault e = None →
  (∀ err, GetStatus ctx e id s = Err err → is_no_rows err = true ∧ jobs s !! id = None) ∧
  (∀ r, jobs s !! id = Some r → GetStatus ctx e id s = Ok (snapshot_of id r)) ∧
  (jobs s !! id = None → ∃ err, GetStatus ctx e id s = Err err ∧ is_no_rows err = true) ∧
  (∀ e0 ty pl tc s0, Enqueue ctx e0 ty pl tc s0 = (Ok id, s) →
     GetStatus ctx e id s = Ok (MkSnapshot id StatusQueued 0 5 "")).
Proof.
  intros Hc Hf. unfold GetStatus, run_stmt, stmt_get. rewrite Hc, Hf. simpl.
  destruct (jobs s !! id) as [r|] eqn:Hr; simpl.
  - split_and!; [done|by intros ? [= ->]|done|].
    intros e0 ty pl tc s0 Hen%run_stmt_ok.
    apply stmt_enqueue_effect in Hen as (doc & k & _ & _ & _ & -> & _ & _ & Hj & _).
    rewrite Hj, lookup_insert_eq in Hr. by simplify_eq.
  - split_and!; [by intros ? [= <-]|done|by eauto|].
    intros e0 ty pl tc s0 Hen%run_stmt_ok.
    apply stmt_enqueue_effect in Hen as (doc & k & _ & _ & _ & -> & _ & _ & Hj & _).
    by rewrite Hj, lookup_insert_eq in Hr.
Qed.

(** ** Reports *)

Lemma insert_job_events_1_ok e n s :
  next_id e SeqEvents (next_event s) ≤ max_int64 →
  ∃ s', insert_job_events e [n] s = Ok s' ∧ jobs s' = jobs s ∧
    dead_letters s' = dead_letters s ∧
    job_events s' = job_events s ++ [event_of (env_now e) (next_id e SeqEvents (next_event s)) n].
Proof.
  intros H. unfold insert_job_events, check. simpl.
  rewrite (proj2 (Z.leb_le _ _)) by lia. simpl. eexists. split; [done|]. done.
Qed.

Lemma with_jobs_id s : with_jobs (jobs s) s = s.
Proof. by destruct s. Qed.

(** The event a report on row [r] of job [id] appends. *)
Definition report_event e id (r : job_row) (t : EventType) (msg : string) s : Event :=
  MkEvent (next_id e SeqEvents (next_event s)) id (r_type r) t (r_attempts r) "" msg (env_now e).

Definition events_left e s : Prop := next_id e SeqEvents (next_event s) ≤ max_int64.
Definition letters_left e s : Prop := next_id e SeqDeadLetters (next_dead_letter s) ≤ max_int64.

Lemma Complete_branches ctx e id s :
  ctx_err ctx = None → env_fault e = None → events_left e s →
  match jobs s !! id with
  | None => Complete ctx e id s = (Ok tt, s)
  | Some r => ∃ s', Complete ctx e id s = (Ok tt, s') ∧
      jobs s' = <[id := complete_set e r]> (jobs s) ∧ dead_letters s' = dead_letters s ∧
      outbox s' = outbox s ++ [report_event e id r EventCompleted "" s]
  end.
Proof.
  intros Hc Hf Hseq. destruct (jobs s !! id) as [r|] eqn:Hr.
  - destruct (insert_job_events_1_ok e (outcome_event EventCompleted "" (id, complete_set e r))
      (with_jobs (<[id := complete_set e r]> (jobs s)) s)) as (s' & Hs' & Hj & Hd & Hev); [done|].
    exists s'. unfold outbox. rewrite Hev, fmap_app. split_and!; [|done..].
    apply run_stmt_quiet; [done..|]. unfold stmt_complete.
    rewrite sql_returning_by_id, Hr, (sql_update_by_id _ _ _ _ Hr). simpl. by rewrite Hs'.
  - apply run_stmt_quiet; [done..|]. unfold stmt_complete.
    rewrite sql_returning_by_id, Hr, sql_update_by_id_None, with_jobs_id by done. done.
Qed.

Lemma Retry_branches ctx e id runAfter msg s :
  ctx_err ctx = None → env_fault e = None → events_left e s →
  match text_ok msg, jobs s !! id with
  | false, _ => Retry ctx e id runAfter msg s
      = (Err (EWrap "store: retry: " (EText (pg_message InvalidText))), s)
  | true, None => Retry ctx e id runAfter msg s = (Ok tt, s)
  | true, Some r => ∃ s', Retry ctx e id runAfter msg s = (Ok tt, s') ∧
      jobs s' = <[id := retry_set (timestamptz_in runAfter) msg r]> (jobs s) ∧
      dead_letters s' = dead_letters s ∧
      outbox s' = outbox s ++ [report_event e id r EventRetried msg s]
  end.
Proof.
  intros Hc Hf Hseq. destruct (text_ok msg) eqn:Ht;
    [|unfold Retry, run_stmt, stmt_retry; by rewrite Hc, Hf, Ht].
  set (f := retry_set _ _). destruct (jobs s !! id) as [r|] eqn:Hr.
  - destruct (insert_job_events_1_ok e (outcome_event EventRetried msg (id, f r))
      (with_jobs (<[id := f r]> (jobs s)) s)) as (s' & Hs' & Hj & Hd & Hev); [done|].
    exists s'. unfold outbox. rewrite Hev, fmap_app. split_and!; [|done..].
    apply run_stmt_quiet; [done..|]. unfold stmt_retry. rewrite Ht. cbn.
    fold f. rewrite sql_returning_by_id, Hr, (sql_update_by_id _ _ _ _ Hr). cbn. by rewrite Hs'.
  - apply run_stmt_quiet; [done..|]. unfold stmt_retry. rewrite Ht. cbn.
    fold f. rewrite sql_returning_by_id, Hr, sql_update_by_id_None, with_jobs_id by done. done.
Qed.

Lemma insert_dead_letters_1 e msg id r s :
  letters_left e s →
  insert_dead_letters e msg [(id, r)] s =
  if decide (id ∈ DL_JobID <$> dead_letters s) then Err UniqueViolation
  else Ok (Db (jobs s)
    (dead_letters s ++ [letter_of (env_now e) (next_id e SeqDeadLetters (next_dead_letter s)) msg (id, r)])
    (job_events s) (next_job s) (next_id e SeqDeadLetters (next_dead_letter s) + 1) (next_event s)).
Proof.
  unfold letters_left, insert_dead_letters. intros Hl. simpl.
  unfold check. case_decide; [by rewrite bool_decide_false by naive_solver|].
  rewrite bool_decide_true by done. simpl. by rewrite (proj2 (Z.leb_le _ _)) by lia.
Qed.

Lemma Fail_branches ctx e id msg s :
  ctx_err ctx = None → env_fault e = None → events_left e s → letters_left e s →
  text_ok msg = true →
  match jobs s !! id with
  | None => Fail ctx e id msg s = (Ok tt, s)
  | Some r =>
      if decide (id ∈ DL_JobID <$> dead_letters s)
      then Fail ctx e id msg s
           = (Err (EWrap "store: fail: " (EText (pg_message UniqueViolation))), s)
      else ∃ s', Fail ctx e id msg s = (Ok tt, s') ∧
        jobs s' = <[id := fail_set e msg r]> (jobs s) ∧
        dead_letters s' = dead_letters s ++
          [MkDeadLetter (next_id e SeqDeadLetters (next_dead_letter s)) id (r_type r)
             (r_payload r) (r_attempts r) msg (env_now e)] ∧
        outbox s' = outbox s ++ [report_event e id r EventFailed msg s]
  end.
Proof.
  intros Hc Hf Hseq Hseq' Ht. unfold Fail. destruct (jobs s !! id) as [r|] eqn:Hr.
  - assert (∀ X, stmt_fail id msg e s = X ↔
      (let? s1 := insert_dead_letters e msg [(id, fail_set e msg r)]
                    (with_jobs (<[id := fail_set e msg r]> (jobs s)) s) in
       let? s2 := insert_job_events e [outcome_event EventFailed msg (id, fail_set e msg r)] s1 in
       Ok (tt, s2)) = X) as Hst.
    { intros X. unfold stmt_fail.
      by rewrite Ht, sql_returning_by_id, Hr, (sql_update_by_id _ _ _ _ Hr). }
    rewrite insert_dead_letters_1 in Hst by done. simpl in Hst. case_decide; simpl in Hst.
    + unfold run_stmt. rewrite Hc, Hf. by rewrite (proj2 (Hst _) eq_refl).
    + edestruct (insert_job_events_1_ok e) as (s' & Hs' & Hj & Hd & Hev).
      2:{ exists s'. split_and!.
          - apply run_stmt_quiet; [done..|]. apply Hst. by erewrite Hs'.
          - by rewrite Hj.
          - by rewrite Hd.
          - unfold outbox. by rewrite Hev, fmap_app. }
      done.
  - apply run_stmt_quiet; [done..|]. unfold stmt_fail. rewrite Ht. simpl.
    rewrite sql_returning_by_id, Hr, sql_update_by_id_None, with_jobs_id by done. done.
Qed.

(** C34. The three reports of a worker, on every branch, when the database is
    reached: a report for an existing row is applied whatever the row's status
    or holder, with exactly one event; [Complete] and [Retry] leave the dead
    letters alone, [Retry] keeps the attempts and clears the claim, [Fail]
    writes one dead letter copying the job in the same statement, or fails
    and changes nothing when the job has one; an id without a row is accepted
    silently, and an error text the server rejects fails the call. *)
Theorem report_branches ctx e id runAfter msg s :
  ctx_err ctx = None → env_fault e = None → events_left e s → letters_left e s →
  match jobs s !! id with
  | None =>
      Complete ctx e id s = (Ok tt, s) ∧
      (text_ok msg = true →
         Retry ctx e id runAfter msg s = (Ok tt, s) ∧ Fail ctx e id msg s = (Ok tt, s))
  | Some r =>
      (∃ s', Complete ctx e id s = (Ok tt, s') ∧
         jobs s' = <[id := complete_set e r]> (jobs s) ∧ dead_letters s' = dead_letters s ∧
         outbox s' = outbox s ++ [report_event e id r EventCompleted "" s]) ∧
      (text_ok msg = true →
         (∃ s', Retry ctx e id runAfter msg s = (Ok tt, s') ∧
            jobs s' = <[id := retry_set (timestamptz_in runAfter) msg r]> (jobs s) ∧
            dead_letters s' = dead_letters s ∧
            outbox s' = outbox s ++ [report_event e id r EventRetried msg s]) ∧
         (id ∈ DL_JobID <$> dead_letters s →
            Fail ctx e id msg s
            = (Err (EWrap "store: fail: " (EText (pg_message UniqueViolation))), s)) ∧
         (id ∉ DL_JobID <$> dead_letters s →
            ∃ s', Fail ctx e id msg s = (Ok tt, s') ∧
              jobs s' = <[id := fail_set e msg r]> (jobs s) ∧
              dead_letters s' = dead_letters s ++
                [MkDeadLetter (next_id e SeqDeadLetters (next_dead_letter s)) id (r_type r)
                   (r_payload r) (r_attempts r) msg (env_now e)] ∧
              outbox s' = outbox s ++ [report_event e id r EventFailed msg s]))
  end ∧
  (text_ok msg = false →
     Retry ctx e id runAfter msg s
       = (Err (EWrap "store: retry: " (EText (pg_message InvalidText))), s) ∧
     Fail ctx e id msg s = (Err (EWrap "store: fail: " (EText (pg_message InvalidText))), s)).
Proof.
  intros Hc Hf He Hl. pose proof (Complete_branches ctx e id s Hc Hf He) as HC.
  pose proof (Retry_branches ctx e id runAfter msg s Hc Hf He) as HR.
  pose proof (Fail_branches ctx e id msg s Hc Hf He Hl) as HF. split.
  - destruct (jobs s !! id) as [r|]; (split; [done|]); intros Ht; rewrite Ht in HR;
      specialize (HF Ht); [|done]. split; [done|].
    by split; intros Hd; [rewrite decide_True in HF by done|rewrite decide_False in HF by done].
  - intros Ht. rewrite Ht in HR. split; [done|].
    unfold Fail, run_stmt, stmt_fail. by rewrite Hc, Hf, Ht.
Qed.

(** ** The reaper *)

(** A row whose lease ran out before the statement's time. *)
Definition expired e (r : job_row) : Prop :=
  r_status r = StatusRunning ∧ ∃ t, r_lease_expires_at r = Some t ∧ t < env_now e.

Lemma reap_where_expired e id r : reap_where e id r ↔ expired e r.
Proof.
  unfold reap_where, expired. rewrite andb_True, bool_decide_spec.
  destruct (r_lease_expires_at r) as [t|].
  - rewrite Is_true_true, Z.ltb_lt. split; [intros [??]; split; eauto|]. by intros [? (? & [= <-] & ?)].
  - split; [by intros [_ []]|]. by intros [_ (? & ? & _)].
Qed.

Definition expired_rows e s : list (Z * job_row) :=
  filter (λ p : Z * job_row, reap_where e p.1 p.2) (map_to_list (jobs s)).

Lemma reap_row_failed e id r : row_failed (id, reap_set e r) = exhausted r.
Proof. unfold row_failed. simpl. by destruct (exhausted r). Qed.

Lemma reap_failed_ids e s id :
  id ∈ (filter (λ p, row_failed p) (sql_returning (reap_where e) (reap_set e) (jobs s))).*1 ↔
  ∃ r, jobs s !! id = Some r ∧ expired e r ∧ exhausted r = true.
Proof.
  rewrite list_elem_of_fmap. split.
  - intros ([i r'] & -> & [Hf (r & Hr & He & ->)%elem_of_sql_returning]%list_elem_of_filter).
    exists r. rewrite reap_row_failed in Hf. apply reap_where_expired in He.
    by apply Is_true_true in Hf.
  - intros (r & Hr & He & Hx). exists (id, reap_set e r). split; [done|].
    apply list_elem_of_filter. rewrite reap_row_failed, Hx. split; [done|].
    apply elem_of_sql_returning. exists r. by rewrite reap_where_expired.
Qed.

Lemma insert_dead_letter_rows_fresh now msg k rows tbl :
  NoDup rows.*1 → (∀ i, i ∈ rows.*1 → i ∉ DL_JobID <$> tbl) →
  k + Z.of_nat (length rows) ≤ max_int64 →
  insert_dead_letter_rows now msg k rows tbl = Ok (tbl ++ number_letters now k msg rows).
Proof.
  revert k tbl. induction rows as [|[i r] rows IH]; intros k tbl; simpl;
    [by rewrite app_nil_r|].
  intros [Hi Hnd]%NoDup_cons Hfr Hk. unfold check.
  rewrite bool_decide_true by (apply Hfr; by left). simpl.
  rewrite (proj2 (Z.leb_le _ _)) by lia. simpl. rewrite IH; [by rewrite <-app_assoc|done| |lia].
  intros j Hj. rewrite fmap_app, not_elem_of_app. split; [apply Hfr; by right|].
  intros ->%list_elem_of_singleton. done.
Qed.

(** C30. The reaper, when it succeeds: every running row whose lease expired is
    reclaimed, back to the queue if it has attempts left and failed with a dead
    letter otherwise; no other row changes; the two counts it returns are the
    numbers of such rows; and nothing is left for a second pass at that time. *)
Theorem Reap_spec ctx e s n d s' :
  reachable s → ReapExpiredLeases ctx e s = (Ok (n, d), s') →
  (∀ id r, jobs s !! id = Some r →
     (expired e r → jobs s' !! id = Some (reap_set e r)) ∧
     (¬ expired e r → jobs s' !! id = Some r) ∧
     (expired e r → exhausted r = true → id ∈ DL_JobID <$> dead_letters s')) ∧
  n = Z.of_nat (length (expired_rows e s)) ∧
  d = Z.of_nat (length (dead_letters s')) - Z.of_nat (length (dead_letters s)) ∧
  expired_rows e s' = [].
Proof.
  intros Hwf%reachable_wf Hs%run_stmt_ok.
  apply stmt_reap_effect in Hs as (rows & -> & -> & [Hrows Hj _ _ (k & Hdl & _ & _) _]);
    [|by apply wf_letters_unique].
  split_and!.
  - intros id r Hr. rewrite Hj, lookup_sql_update, Hr. simpl. rewrite <-(reap_where_expired e id).
    destruct (reap_where e id r) eqn:E; simpl; split_and!; try done.
    intros _ Hx. rewrite Hdl, fmap_app, number_letters_job_ids, elem_of_app. right.
    rewrite Hrows. apply reap_failed_ids. exists r. by rewrite <-(reap_where_expired e id), E.
  - by rewrite Hrows, sql_returning_length.
  - rewrite Hdl, length_app, number_letters_length. lia.
  - unfold expired_rows. apply filter_none. intros [id r'] Hin.
    apply elem_of_map_to_list in Hin. rewrite Hj, lookup_sql_update in Hin.
    apply fmap_Some in Hin as (r & Hr & ->). simpl. rewrite reap_where_expired.
    intros [Hst (t & Hl & Ht)]. destruct (reap_where e id r) eqn:E; simplify_eq/=; try done.
    apply Is_true_false in E. apply E. apply reap_where_expired. split; eauto.
Qed.

Lemma reap_rows_dead e s id :
  let rows := env_plan e (sql_returning (reap_where e) (reap_set e) (jobs s)) in
  id ∈ (filter (λ p, row_failed p) rows).*1 ↔
  ∃ r, jobs s !! id = Some r ∧ expired e r ∧ exhausted r = true.
Proof. simpl. rewrite env_plan_perm. apply reap_failed_ids. Qed.

(** An exhausted expired row that has a dead letter aborts the statement. *)
Lemma stmt_reap_blocked e s id r :
  jobs s !! id = Some r → expired e r → exhausted r = true → id ∈ DL_JobID <$> dead_letters s →
  ∃ c, stmt_reap e s = Err c.
Proof.
  intros Hr Hx Ha Hin. unfold stmt_reap. set (rows := env_plan e _). set (dead := filter _ rows).
  assert (id ∈ dead.*1) as Hid by (apply reap_rows_dead; eauto).
  destruct (insert_dead_letter_rows_dup (env_now e) reap_error
    (next_id e SeqDeadLetters (next_dead_letter s)) dead (dead_letters s) id Hid Hin) as (c & Hc).
  exists c. unfold insert_dead_letters. destruct dead as [|p dead'].
  - by apply elem_of_nil in Hid.
  - unfold with_jobs. simpl in *. by rewrite Hc.
Qed.

(** Room in the two sequences for every row of the table. *)
Definition reap_room e s : Prop :=
  next_id e SeqDeadLetters (next_dead_letter s) + Z.of_nat (size (jobs s)) ≤ max_int64 ∧
  next_id e SeqEvents (next_event s) + Z.of_nat (size (jobs s)) ≤ max_int64.

Lemma insert_dead_letters_fresh e msg rows s :
  NoDup rows.*1 → (∀ i, i ∈ rows.*1 → i ∉ DL_JobID <$> dead_letters s) →
  next_id e SeqDeadLetters (next_dead_letter s) + Z.of_nat (length rows) ≤ max_int64 →
  ∃ s', insert_dead_letters e msg rows s = Ok s' ∧ next_event s' = next_event s.
Proof.
  intros Hnd Hfr Hl. unfold insert_dead_letters. destruct rows as [|p rows]; [by eauto|].
  rewrite insert_dead_letter_rows_fresh by done. simpl. eauto.
Qed.

Lemma insert_job_events_room e l s :
  next_id e SeqEvents (next_event s) + Z.of_nat (length l) ≤ max_int64 →
  ∃ s', insert_job_events e l s = Ok s'.
Proof.
  intros Hl. unfold insert_job_events, check. destruct l; [by eauto|].
  rewrite (proj2 (Z.leb_le _ _)) by lia. simpl. eauto.
Qed.

Lemma stmt_reap_unblocked e s :
  reap_room e s →
  (∀ id r, jobs s !! id = Some r → expired e r → exhausted r = true →
     id ∉ DL_JobID <$> dead_letters s) →
  ∃ nd s', stmt_reap e s = Ok (nd, s').
Proof.
  intros [Hl He] Hno. unfold stmt_reap. set (rows := env_plan e _). set (dead := filter _ rows).
  set (s0 := with_jobs _ s).
  assert (rows ≡ₚ sql_returning (reap_where e) (reap_set e) (jobs s)) as Hrows
    by apply env_plan_perm.
  assert (length rows ≤ size (jobs s))%nat as Hlen.
  { rewrite Hrows, sql_returning_length, <-length_map_to_list. apply length_filter. }
  assert (length dead ≤ length rows)%nat as Hlen' by apply length_filter.
  destruct (insert_dead_letters_fresh e reap_error dead s0) as (s1 & Hs1 & Hn1).
  - unfold dead. eapply sublist_NoDup; [|apply fmap_sublist, sublist_filter].
    rewrite Hrows. apply NoDup_sql_returning.
  - intros i (r & Hr & Hx & Ha)%reap_rows_dead. by eapply Hno.
  - change (next_dead_letter s0) with (next_dead_letter s). lia.
  - destruct (insert_job_events_room e (reap_event <$> rows) s1) as (s2 & Hs2).
    + rewrite Hn1, length_fmap. change (next_event s0) with (next_event s). lia.
    + rewrite Hs1. simpl. rewrite Hs2. simpl. eauto.
Qed.

(** The reaper succeeds when no exhausted expired row already has a dead
    letter; if one does, the unique constraint aborts the whole statement: no
    expired lease is reclaimed, in this call or in any other while that row
    stays, whatever the plan and the time. *)
Theorem Reap_blocked_iff ctx e s :
  ctx_err ctx = None → env_fault e = None → reap_room e s →
  ((∃ id r, jobs s !! id = Some r ∧ expired e r ∧ exhausted r = true ∧
      id ∈ DL_JobID <$> dead_letters s) →
   ∃ err, ReapExpiredLeases ctx e s = (Err err, s)) ∧
  ((∀ id r, jobs s !! id = Some r → expired e r → exhausted r = true →
      id ∉ DL_JobID <$> dead_letters s) →
   ∃ nd s', ReapExpiredLeases ctx e s = (Ok nd, s')).
Proof.
  intros Hc Hf Hroom. unfold ReapExpiredLeases, run_stmt. rewrite Hc, Hf. split.
  - intros (id & r & Hr & Hx & Ha & Hin).
    destruct (stmt_reap_blocked e s id r Hr Hx Ha Hin) as (c & ->). eauto.
  - intros (nd & s' & ->)%(stmt_reap_unblocked e s Hroom). eauto.
Qed.

End spec.

(** ** The methods on concrete tables *)

Lemma Enqueue_Claim_roundtrip_witness :
  let j := MkJob 1 "sum_numbers" "[1]" 1 5 "" in
  Type_ j = "sum_numbers" ∧ Some (Payload j) = jsonb_in "[1]" ∧ TraceContext j = "" ∧
  MaxAttempts j = 5 ∧ 1 ≤ Attempts j.
Proof.
  eapply (Enqueue_Claim_roundtrip bg bg (quiet 0) (quiet (sec 1)) "sum_numbers" "[1]" "" db_empty 1
    demo_enqueued demo_enqueued "worker-0" (30 * Second) 1).
  - apply rtc_refl.
  - reflexivity.
  - apply rtc_refl.
  - reflexivity.
  - by left.
  - done.
Defined.

Lemma report_branches_witness :
  ∃ s', Fail bg (quiet (sec 2)) 1 "boom" demo_running = (Ok tt, s') ∧
    DL_JobID <$> dead_letters s' = [1].
Proof.
  destruct (report_branches bg (quiet (sec 2)) 1 0 "boom" demo_running eq_refl eq_refl) as [H _];
    [by vm_compute|by vm_compute|].
  destruct demo_running_job as [r E]. rewrite E in H. destruct H as (_ & H).
  destruct H as (_ & _ & H); [reflexivity|]. rewrite demo_running_letters in H.
  destruct H as (s' & Hs & _ & Hd & _); [apply not_elem_of_nil|].
  exists s'. split; [exact Hs|]. by rewrite Hd.
Defined.

(** A minute later the lease of [demo_running] has run out. *)
Lemma Reap_spec_witness :
  ∃ s', ReapExpiredLeases bg (quiet (sec 60)) demo_running = (Ok (1, 0), s') ∧
    expired_rows (quiet (sec 60)) s' = [].
Proof.
  destruct (ReapExpiredLeases bg (quiet (sec 60)) demo_running) as [[[n d]|err] s'] eqn:E;
    [|by vm_compute in E].
  assert (n = 1 ∧ d = 0) as [-> ->] by (vm_compute in E; by injection E as <- <- <-).
  exists s'. split; [done|].
  apply (Reap_spec bg (quiet (sec 60)) demo_running 1 0 s'); [|done].
  eapply rtc_l; [apply (step_enqueue "sum_numbers" "[1]" "" (quiet 0) db_empty 1); reflexivity|].
  apply rtc_once. by eapply (step_claim "worker-0" (30 * Second) 1 (quiet (sec 1))).
Defined.

