(* ===== verification/Outbox.v ===== *)
(** * Reading the tables

    The outbox queries of the shipper ([FetchUnshippedEvents],
    [MarkEventsShipped], [ShipperLag]), the dead-letter listing and the counts
    behind the gauges.  The queries that order by the identity column give one
    answer whatever the plan, since the column is unique and increasing. *)

From stdpp Require Import prelude gmap strings list relations sorting.
From S2P Require Import Prelude GoBase Job Store StoreFacts Steps Claim Invariant History Demo.
#[local] Open Scope jq_scope.

(** The rows still to ship, oldest first. *)
Definition pending (s : db) : list event_row := filter (λ r, unshipped r) (job_events s).

Lemma pending_sorted s :
  db_wf s → StronglySorted (λ x y, ID (ev_event x) < ID (ev_event y)) (pending s).
Proof.
  intros [_ _ _ _ _ _ _ (Hs & _)]. apply strongly_sorted_filter.
  by apply (strongly_sorted_fmap (ID ∘ ev_event)).
Qed.

Lemma pending_ordered e s :
  db_wf s →
  order_by event_le (env_plan e (filter (λ r, unshipped r) (job_events s))) = pending s.
Proof.
  intros Hwf. apply (order_by_key _ (ID ∘ ev_event)).
  - intros x y. unfold event_le. by rewrite Is_true_true, Z.leb_le.
  - by apply pending_sorted.
  - apply env_plan_perm.
Qed.

Section reads.
Context {Pg : Postgres} {Sp : Type}.
Implicit Types (ctx : context Sp) (e : stmt_env) (s : db).

Lemma fetch_ok ctx e limit s :
  db_wf s → ctx_err ctx = None → env_fault e = None → 0 ≤ limit →
  FetchUnshippedEvents ctx e limit s = Ok (ev_event <$> take (Z.to_nat limit) (pending s)).
Proof.
  intros Hwf Hc Hf Hl. unfold FetchUnshippedEvents, run_stmt. rewrite Hc, Hf.
  unfold stmt_fetch_unshipped, check. rewrite (proj2 (Z.leb_le _ _)) by lia. simpl.
  by rewrite (pending_ordered e s Hwf).
Qed.

Lemma fetch_inv ctx e limit s evs :
  db_wf s → FetchUnshippedEvents ctx e limit s = Ok evs →
  0 ≤ limit ∧ evs = ev_event <$> take (Z.to_nat limit) (pending s).
Proof.
  unfold FetchUnshippedEvents. intros Hwf Hr.
  destruct (run_stmt _ _ _ _ _) as [r s'] eqn:E. simpl in Hr. subst r.
  apply run_stmt_ok in E. unfold stmt_fetch_unshipped in E.
  apply bind_result_ok in E as (? & Hl%check_ok & [= <- _]).
  split; [lia|]. by rewrite (pending_ordered e s Hwf).
Qed.

Lemma unshipped_mark_row e ids r :
  unshipped (mark_row e ids r) = unshipped r && negb (bool_decide (ID (ev_event r) ∈ ids)).
Proof. unfold unshipped, mark_row. repeat case_bool_decide; simplify_eq/=; done. Qed.

Lemma mark_inv ctx e ids s r s' :
  MarkEventsShipped ctx e ids s = (r, s') →
  s' = s ∨ jobs s' = jobs s ∧ dead_letters s' = dead_letters s ∧
    job_events s' = mark_row e ids <$> job_events s ∧ outbox s' = outbox s.
Proof.
  unfold MarkEventsShipped. case_bool_decide; [by intros [= _ <-]; left|].
  intros [->|(u & Hm)]%run_stmt_atomic; [by left|right].
  pose proof (stmt_mark_shipped_outbox _ _ _ _ _ Hm) as [Ho _]. injection Hm as _ <-.
  by split_and!.
Qed.

Lemma mark_ok ctx e ids s :
  ctx_err ctx = None → env_fault e = None →
  MarkEventsShipped ctx e ids s =
  (Ok tt, Db (jobs s) (dead_letters s) (mark_row e ids <$> job_events s) (next_job s)
             (next_dead_letter s) (next_event s)).
Proof.
  intros Hc Hf. unfold MarkEventsShipped. case_bool_decide as Hl.
  - apply length_zero_iff_nil in Hl as ->. destruct s as [m dl ev n1 n2 n3]. simpl.
    do 2 f_equal. rewrite <-(list_fmap_id ev) at 1. apply list_fmap_ext.
    intros i r _. unfold mark_row. by rewrite bool_decide_false by apply not_elem_of_nil.
  - by apply run_stmt_quiet.
Qed.

Lemma pending_mark e ids s s' :
  job_events s' = mark_row e ids <$> job_events s →
  pending s' = filter (λ r, ID (ev_event r) ∉ ids) (pending s).
Proof.
  intros Hs. unfold pending. rewrite Hs. clear Hs s'.
  induction (job_events s) as [|r l IH]; [done|].
  rewrite fmap_cons, !filter_cons. pose proof (unshipped_mark_row e ids r) as Hm.
  destruct (decide (ID (ev_event r) ∈ ids)) as [Hin|Hin].
  - rewrite bool_decide_true, andb_false_r in Hm by done. rewrite Hm. simpl.
    destruct (decide (unshipped r)); [|done]. by rewrite filter_cons, decide_False by tauto.
  - rewrite bool_decide_false, andb_true_r in Hm by done. rewrite Hm.
    destruct (decide (unshipped r)); [|done]. rewrite filter_cons, decide_True, IH by done.
    unfold mark_row. by rewrite bool_decide_false.
Qed.

(** Marking the oldest [n] pending rows leaves the others, in order. *)
Lemma pending_mark_take e n s s' :
  db_wf s → job_events s' = mark_row e ((ID ∘ ev_event) <$> take n (pending s)) <$> job_events s →
  pending s' = drop n (pending s).
Proof.
  intros Hwf Hs. rewrite (pending_mark _ _ _ _ Hs).
  pose proof (pending_sorted _ Hwf) as Hsort. revert n Hs. generalize (pending s) as l, Hsort.
  clear. intros l Hsort n _. revert n. induction Hsort as [|x l Hs IH Hf]; intros [|n]; simpl; try done.
  - apply (filter_all (λ r, ID (ev_event r) ∉ [])). intros y _. apply not_elem_of_nil.
  - rewrite filter_cons, decide_False by (rewrite elem_of_cons; tauto).
    rewrite <-(IH n). apply filter_ext_in. intros y Hy.
    rewrite Forall_forall in Hf. specialize (Hf _ Hy). simpl in Hf.
    rewrite not_elem_of_cons. split; [tauto|]. split; [lia|done].
Qed.

(** The outbox cycle: [FetchUnshippedEvents] returns the oldest pending events
    in id order, whatever the plan, and [MarkEventsShipped] on their ids removes
    exactly those from the pending ones; events themselves never change. *)
Theorem Fetch_Mark_spec ctx e e' limit s evs s' :
  reachable s → FetchUnshippedEvents ctx e limit s = Ok evs →
  MarkEventsShipped ctx e' (ID <$> evs) s = (Ok tt, s') →
  evs = ev_event <$> take (Z.to_nat limit) (pending s) ∧
  pending s' = drop (Z.to_nat limit) (pending s) ∧ outbox s' = outbox s ∧ jobs s' = jobs s.
Proof.
  intros Hwf%reachable_wf Hf Hm. apply fetch_inv in Hf as [_ ->]; [|done]. split; [done|].
  assert (job_events s' = mark_row e' ((ID ∘ ev_event) <$> take (Z.to_nat limit) (pending s))
            <$> job_events s ∧ outbox s' = outbox s ∧ jobs s' = jobs s) as (Hev & Ho & Hj).
  { rewrite list_fmap_compose. unfold MarkEventsShipped in Hm. case_bool_decide as Hl.
    - injection Hm as <-. apply length_zero_iff_nil in Hl. rewrite Hl. split_and!; [|done..].
      rewrite <-(list_fmap_id (job_events s)) at 1. apply list_fmap_ext.
      intros i r _. unfold mark_row. by rewrite bool_decide_false by apply not_elem_of_nil.
    - apply run_stmt_ok in Hm. pose proof (stmt_mark_shipped_outbox _ _ _ _ _ Hm) as [Ho Hj].
      by injection Hm as <-. }
  split_and!; [|done..]. by eapply pending_mark_take.
Qed.

(** ** Dead letters, counts, lag *)

(** [ListDeadLetters] returns at most [limit] letters, newest first, and every
    letter it leaves out failed no later than every letter it returns. *)
Theorem ListDeadLetters_spec ctx e limit s l :
  ListDeadLetters ctx e limit s = Ok l →
  StronglySorted (λ a b, DL_FailedAt b ≤ DL_FailedAt a) l ∧
  length l = Nat.min (Z.to_nat limit) (length (dead_letters s)) ∧
  ∃ rest, l ++ rest ≡ₚ dead_letters s ∧
    ∀ a b, a ∈ l → b ∈ rest → DL_FailedAt b ≤ DL_FailedAt a.
Proof.
  unfold ListDeadLetters. destruct (run_stmt _ _ _ _ _) as [r s'] eqn:E. simpl. intros ->.
  apply run_stmt_ok in E. unfold stmt_list_dead_letters in E.
  apply bind_result_ok in E as (_ & _ & [= <- _]).
  set (sorted := order_by letter_le (env_plan e (dead_letters s))).
  assert (∀ a b, letter_le a b ↔ DL_FailedAt b ≤ DL_FailedAt a) as Hle.
  { intros a b. unfold letter_le. by rewrite Is_true_true, Z.leb_le. }
  assert (StronglySorted (λ a b, DL_FailedAt b ≤ DL_FailedAt a) sorted) as Hs.
  { assert (StronglySorted letter_le sorted) as Hs.
    { apply order_by_sorted; [intros a b|intros a b c]; rewrite !Hle; lia. }
    clear -Hs Hle. induction Hs as [|x l Hs IH Hf]; constructor; [done|].
    eapply Forall_impl; [exact Hf|]. intros y. apply Hle. }
  assert (sorted ≡ₚ dead_letters s) as Hp by (unfold sorted; by rewrite order_by_perm, env_plan_perm).
  split_and!.
  - by apply strongly_sorted_take.
  - by rewrite length_take, Hp.
  - exists (drop (Z.to_nat limit) sorted). rewrite take_drop. split; [done|].
    intros a b. by apply (strongly_sorted_take_drop _ _ _ _ _ Hs).
Qed.

Lemma foldl_insert_lookup (rows : list (string * Z)) k v :
  NoDup rows.*1 →
  foldl (λ counts (r : string * Z), <[r.1 := r.2]> counts) (∅ : gmap string Z) rows !! k = Some v
  ↔ (k, v) ∈ rows.
Proof.
  assert (∀ m : gmap string Z, (∀ i, i ∈ rows.*1 → m !! i = None) → NoDup rows.*1 →
    foldl (λ counts (r : string * Z), <[r.1 := r.2]> counts) m rows !! k = Some v
    ↔ m !! k = Some v ∨ (k, v) ∈ rows) as H.
  { induction rows as [|[i n] rows IH]; intros m Hm Hnd; simpl in *.
    - rewrite elem_of_nil. tauto.
    - apply NoDup_cons in Hnd as [Hi Hnd]. rewrite IH; [|intros j Hj|done].
      + rewrite elem_of_cons, lookup_insert_Some. specialize (Hm i ltac:(by left)).
        split; [intros [[[<- <-]|[? ?]]|?]; auto|].
        intros [Hk|[[= -> ->]|?]]; auto. left. right. split; [|done]. intros ->. congruence.
      + rewrite lookup_insert_ne by (by intros ->). apply Hm. by right. }
  intros Hnd. rewrite H; [|by intros; apply lookup_empty|done]. rewrite lookup_empty. split; [|auto].
  by intros [|].
Qed.

(** [CountByStatusAndType] maps a job type to the number of rows in the given
    status, for exactly the types that have at least one. *)
Lemma CountByStatusAndType_spec ctx e status s counts ty :
  CountByStatusAndType ctx e status s = Ok counts →
  counts !! ty = if decide (count_rows status ty s = 0) then None
                 else Some (count_rows status ty s).
Proof.
  unfold CountByStatusAndType. destruct (run_stmt _ _ _ _ _) as [[rows|] s'] eqn:E; [|done].
  simpl. intros [= <-]. apply run_stmt_ok in E. unfold stmt_count in E. injection E as <- _.
  set (types := remove_dups _). set (f := λ ty, (ty, count_rows status ty s)).
  assert ((env_plan e (f <$> types)).*1 ≡ₚ types) as Hk.
  { rewrite env_plan_perm, <-list_fmap_compose. by rewrite list_fmap_id. }
  assert (NoDup (env_plan e (f <$> types)).*1) as Hnd by (rewrite Hk; apply NoDup_remove_dups).
  assert (ty ∈ types ↔ count_rows status ty s ≠ 0) as Hty.
  { unfold types, count_rows. rewrite elem_of_remove_dups, list_elem_of_fmap. split.
    - intros ([id r] & -> & [Hst Hin]%list_elem_of_filter).
      assert ((id, r) ∈ filter (λ p : Z * job_row,
        status_text (r_status p.2) = status ∧ r_type p.2 = r_type r) (map_to_list (jobs s))) as Hx.
      { by apply list_elem_of_filter. }
      intros Hz%(Nat2Z.inj _ 0)%nil_length_inv. simpl in Hz. rewrite Hz in Hx. by apply not_elem_of_nil in Hx.
    - intros Hz. destruct (filter _ _) as [|p l] eqn:Ef in Hz; [done|].
      assert (p ∈ p :: l) as Hp by by left. rewrite <-Ef in Hp.
      apply list_elem_of_filter in Hp as [[Hst Ht] Hin].
      exists p. split; [done|]. by apply list_elem_of_filter. }
  case_decide as Hz.
  - apply eq_None_not_Some. intros [v Hv]. apply foldl_insert_lookup in Hv; [|done].
    rewrite env_plan_perm in Hv. apply list_elem_of_fmap in Hv as (t & [= -> _] & Ht). tauto.
  - apply foldl_insert_lookup; [done|]. rewrite env_plan_perm. apply list_elem_of_fmap.
    exists ty. split; [done|]. by apply Hty.
Qed.

(** [ShipperLag] is 0 exactly when nothing is pending, and otherwise the age of
    the oldest pending event. *)
Lemma ShipperLag_spec ctx e now s :
  reachable s → ctx_err ctx = None → env_fault e = None →
  ShipperLag ctx e now s =
  Ok match pending s with [] => 0 | r :: _ => Since now (OccurredAt (ev_event r)) end.
Proof.
  intros Hwf%reachable_wf Hc Hf. unfold ShipperLag, run_stmt. rewrite Hc, Hf.
  unfold stmt_oldest_unshipped. rewrite (pending_ordered e s Hwf). by destruct (pending s).
Qed.

End reads.

(** ** Reading the demonstration tables *)

Definition demo_letters : db :=
  Db ∅ [MkDeadLetter 1 7 "a" "{}" 5 "x" (sec 1); MkDeadLetter 2 8 "a" "{}" 5 "y" (sec 2)] [] 9 3 1.

