(* ===== verification/Tracing.v ===== *)
(** * Trace context

    [internal/tracing]: a trace crosses the queue in the column
    [jobs.trace_context].  The OpenTelemetry library (span creation and the W3C
    propagator) is the class [Otel]; [OtelLaws] states what it documents: a
    child span belongs to its parent's trace, and extracting an injected header
    gives a span context of the same trace. *)

From stdpp Require Import prelude strings.
From S2P Require Import Prelude GoBase.

Class Otel : Type := {
  span_context : Type;
  trace_id : span_context → Z;
  span_start : option span_context → string → option span_context;
  traceparent_of : span_context → string;
  traceparent_parse : string → option span_context;
}.

Class OtelLaws (O : Otel) : Prop := {
  span_start_child : ∀ p name, ∃ c, span_start (Some p) name = Some c ∧ trace_id c = trace_id p;
  traceparent_nonempty : ∀ c, traceparent_of c ≠ "";
  traceparent_roundtrip : ∀ c, ∃ c', traceparent_parse (traceparent_of c) = Some c' ∧
    trace_id c' = trace_id c;
}.

Section tracing.
Context {O : Otel}.
Implicit Types (ctx : context span_context).

(** [tracer.Start(ctx, name)]: the context with the new span. *)
Definition tracer_Start ctx (name : string) : context span_context :=
  Context (ctx_err ctx) (span_start (ctx_span ctx) name).

(** [tracing.Inject]: the propagator writes a [traceparent] entry for a valid
    span and none otherwise; [Get] of a missing entry is empty. *)
Definition Inject ctx : string :=
  match ctx_span ctx with Some c => traceparent_of c | None => "" end.

(** [tracing.Extract]: [ctx] unchanged for an empty string, or for one the
    propagator does not accept. *)
Definition Extract ctx (traceContext : string) : context span_context :=
  if bool_decide (traceContext = "") then ctx
  else match traceparent_parse traceContext with
       | Some c => Context (ctx_err ctx) (Some c)
       | None => ctx
       end.

Definition ctx_trace ctx : option Z := trace_id <$> ctx_span ctx.

Lemma Extract_ctx_err ctx tc : ctx_err (Extract ctx tc) = ctx_err ctx.
Proof. unfold Extract. by repeat case_match. Qed.

Lemma tracer_Start_trace `{!OtelLaws O} ctx name t :
  ctx_trace ctx = Some t → ctx_trace (tracer_Start ctx name) = Some t.
Proof.
  unfold ctx_trace, tracer_Start. simpl. destruct (ctx_span ctx) as [p|]; [|done].
  destruct (span_start_child p name) as (c & -> & Hc). simpl. by rewrite Hc.
Qed.

(** Extracting what was injected continues the same trace. *)
Lemma Extract_Inject_trace `{!OtelLaws O} ctx ctx' t :
  ctx_trace ctx = Some t → ctx_trace (Extract ctx' (Inject ctx)) = Some t.
Proof.
  unfold ctx_trace, Extract, Inject. destruct (ctx_span ctx) as [c|]; [|done]. simpl.
  rewrite bool_decide_false by apply traceparent_nonempty.
  destruct (traceparent_roundtrip c) as (c' & -> & Hc). simpl. by rewrite Hc.
Qed.

End tracing.

(** A library whose span contexts are trace numbers, written in unary. *)
Fixpoint unary (n : nat) : string :=
  match n with O => "." | S n => String.String (Ascii.ascii_of_nat 49) (unary n) end.

Fixpoint unary_parse (s : string) : option nat :=
  match s with
  | EmptyString => None
  | String.String c s' =>
      if bool_decide (s = ".") then Some O
      else if bool_decide (c = Ascii.ascii_of_nat 49) then S <$> unary_parse s' else None
  end.

#[export] Instance otel_demo : Otel := {|
  span_context := nat;
  trace_id := Z.of_nat;
  span_start := λ p _, Some (default 1%nat p);
  traceparent_of := unary;
  traceparent_parse := unary_parse;
|}.

Lemma unary_parse_unary n : unary_parse (unary n) = Some n.
Proof. induction n as [|n IH]; simpl; [done|]. by rewrite IH. Qed.

#[export] Instance otel_demo_laws : OtelLaws otel_demo.
Proof.
  split; simpl.
  - intros p name. by exists p.
  - by intros [].
  - intros c. exists c. by rewrite unary_parse_unary.
Qed.
