(* ===== verification/Worker.v ===== *)
(** * The worker

    [internal/worker]: the claim/execute/report loop of one worker goroutine,
    its retry backoff and its poll backoff.  What the worker only emits
    (metrics, spans, log lines, waits) is the list of [effect]s of its state;
    the job's handler acts on a world of type [W].  The environment of an
    iteration says what the scheduler, the clock and the database did. *)

From stdpp Require Import prelude gmap strings list relations sorting.
From S2P Require Import Prelude GoBase Job Store StoreFacts Steps Claim Invariant History Tracing Demo.
#[local] Open Scope jq_scope.

(** ** Outputs *)

(** The value of a span's attribute. *)
Inductive attr_value : Type :=
| AttrInt (n : Z)
| AttrString (s : string).

Inductive effect : Type :=
| EObserve (metric label : string) (nanoseconds : Z)
| EInc (counter label : string)
| ESpan (name : string) (trace : option Z) (attrs : list (string * attr_value)) (err : option string)
| ELog (msg err : string)
| EWait (nanoseconds : Z).

(** What a handler does: succeed, return an error, or panic with a value that
    [%v] prints as the given text. *)
Inductive outcome : Type :=
| HOk
| HErr (e : error)
| HPanic (v : string).

Record wstate (W : Type) : Type := WState {
  ws_db : db;
  ws_world : W;
  ws_out : list effect;
}.
Arguments WState {W} _ _ _.
Arguments ws_db {W} _.
Arguments ws_world {W} _.
Arguments ws_out {W} _.

Definition emit {W} (l : list effect) (st : wstate W) : wstate W :=
  WState (ws_db st) (ws_world st) (ws_out st ++ l).

(** ** Backoff *)

(** [rand.Int64N(n)] over the source [draw]: it panics unless [n > 0]. *)
Definition Int64N (draw : Z → Z) (n : Z) : option Z := if 0 <? n then Some (draw n) else None.

(** The loop of [calculateRetryDelay]: [n] doublings at most, each one checked
    against the cap and against overflow of the [int64]. *)
Fixpoint backoff_loop (n : nat) (maxRetryDelay delay : Z) : Z :=
  match n with
  | O => delay
  | S n =>
      let delay := int64 (delay * 2) in
      if (maxRetryDelay <? delay) || (delay <=? 0) then maxRetryDelay
      else backoff_loop n maxRetryDelay delay
  end.

Definition backoff (retryBaseDelay maxRetryDelay attempts : Z) : Z :=
  backoff_loop (Z.to_nat (attempts - 1)) maxRetryDelay retryBaseDelay.

(** The poll interval after an empty poll. *)
Definition next_interval (maxPollInterval interval : Z) : Z :=
  let interval := int64 (interval * 2) in
  if maxPollInterval <? interval then maxPollInterval else interval.

Section Worker.
Context {Pg : Postgres} {O : Otel} {W : Type}.

Definition Handler : Type := context span_context → Job → W → outcome * W.

Record Worker : Type := MkWorker {
  w_handler : Handler;
  w_id : string;
  leaseDuration : Z;
  pollInterval : Z;
  maxPollInterval : Z;
  retryBaseDelay : Z;
  maxRetryDelay : Z;
}.

Definition calculateRetryDelay (w : Worker) (draw : Z → Z) (j : Job) : option Z :=
  let delay := backoff (retryBaseDelay w) (maxRetryDelay w) (Attempts j) in
  if delay <=? 0 then Some 0 else Int64N draw delay.

(** [execute]: a panic of the handler becomes an error. *)
Definition execute (w : Worker) (ctx : context span_context) (j : Job) (wd : W) :
    option error * W :=
  match w_handler w ctx j wd with
  | (HOk, wd) => (None, wd)
  | (HErr err, wd) => (Some err, wd)
  | (HPanic v, wd) => (Some (EText ("panic: " +:+ v)), wd)
  end.

(** What surrounds one [process] call: the statement that records the outcome,
    the handler's running time, the clock when the retry time is computed and
    the random source. *)
Record proc_env : Type := ProcEnv {
  pe_stmt : stmt_env;
  pe_elapsed : Z;
  pe_now : Z;
  pe_draw : Z → Z;
}.

(** The effects of the call that records an outcome under a span. *)
Definition report_effects (span : string) (ctx : context span_context) (msg : string)
    (r : result error unit) : list effect :=
  match r with
  | Ok _ => [ESpan span (ctx_trace (tracer_Start ctx span)) [] None]
  | Err err => [ELog msg (Error err); ESpan span (ctx_trace (tracer_Start ctx span)) [] (Some (Error err))]
  end.

(** The attributes of the claim span. *)
Definition claim_attrs (j : Job) : list (string * attr_value) :=
  [("job.id", AttrInt (Job_ID j)); ("job.type", AttrString (Type_ j)); ("job.attempts", AttrInt (Attempts j))].

(** [process]; [None] is a panic that would stop the worker. *)
Definition process (w : Worker) (pe : proc_env) (ctx : context span_context) (j : Job)
    (st : wstate W) : option (wstate W) :=
  let jobCtx := Extract (WithoutCancel ctx) (TraceContext j) in
  let jobCtx := tracer_Start jobCtx "claim" in
  let execCtx := tracer_Start jobCtx "execute" in
  let '(err, wd) := execute w execCtx j (ws_world st) in
  let out := [EObserve "job_duration_seconds" (Type_ j) (pe_elapsed pe);
              ESpan "execute" (ctx_trace execCtx) [] (Error <$> err)] in
  let endClaim := ESpan "claim" (ctx_trace jobCtx) (claim_attrs j) None in
  match err with
  | None =>
      let '(r, s) := Complete jobCtx (pe_stmt pe) (Job_ID j) (ws_db st) in
      Some (WState s wd (ws_out st ++ out ++
        report_effects "complete" jobCtx "complete failed" r ++ [endClaim]))
  | Some err =>
      if MaxAttempts j <=? Attempts j then
        let '(r, s) := Fail jobCtx (pe_stmt pe) (Job_ID j) (Error err) (ws_db st) in
        Some (WState s wd (ws_out st ++ out ++ [EInc "dead_letters_total" (Type_ j)] ++
          report_effects "fail" jobCtx "fail failed" r ++ [endClaim]))
      else
        match calculateRetryDelay w (pe_draw pe) j with
        | None => None
        | Some delay =>
            let runAt := pe_now pe + delay in
            let '(r, s) := Retry jobCtx (pe_stmt pe) (Job_ID j) runAt (Error err) (ws_db st) in
            Some (WState s wd (ws_out st ++ out ++ [EInc "retries_total" (Type_ j)] ++
              report_effects "retry" jobCtx "retry failed" r ++ [endClaim]))
        end
  end.

(** ** The loop *)

(** One turn of [Run]: the context at its head and during the claim, the claim
    statement and how long it took, whether the wait ends because the context
    is done, and the job's processing. *)
Record iter_env : Type := IterEnv {
  it_ctx : context span_context;
  it_claim_ctx : context span_context;
  it_claim : stmt_env;
  it_claim_elapsed : Z;
  it_done_while_waiting : bool;
  it_proc : proc_env;
}.

Inductive loop_state : Type :=
| Returned (st : wstate W)
| Looping (interval : Z) (st : wstate W)
| Panicked.

Definition run_iter (w : Worker) (it : iter_env) (interval : Z) (st : wstate W) : loop_state :=
  match ctx_err (it_ctx it) with
  | Some _ => Returned st
  | None =>
      let '(r, s) := Claim (it_claim_ctx it) (it_claim it) (w_id w) (leaseDuration w) 1 (ws_db st) in
      let out := EObserve "claim_duration_seconds" "" (it_claim_elapsed it) ::
                 match r with Ok _ => [] | Err err => [ELog "claim failed" (Error err)] end in
      let st := WState s (ws_world st) (ws_out st ++ out) in
      match r with
      | Ok (j :: _) =>
          match process w (it_proc it) (it_ctx it) j st with
          | Some st => Looping (pollInterval w) st
          | None => Panicked
          end
      | _ =>
          if it_done_while_waiting it then Returned st
          else Looping (next_interval (maxPollInterval w) interval) (emit [EWait interval] st)
      end
  end.

Fixpoint run_loop (w : Worker) (its : list iter_env) (l : loop_state) : loop_state :=
  match its, l with
  | it :: its, Looping interval st => run_loop w its (run_iter w it interval st)
  | _, _ => l
  end.

(** [Run] over the turns [its]. *)
Definition Run (w : Worker) (its : list iter_env) (st : wstate W) : loop_state :=
  run_loop w its (Looping (pollInterval w) st).

End Worker.
