(* ===== verification/WorkerFacts.v ===== *)
(** * What the worker guarantees

    The backoff formulas against the loops that compute them, the outcome of
    processing one job, shutdown, and trace continuity. *)

From stdpp Require Import prelude gmap strings list relations sorting.
From S2P Require Import Prelude GoBase Job Store StoreFacts Steps Claim Invariant History.
From S2P Require Import StoreSpec Tracing Demo Worker.
#[local] Open Scope jq_scope.

(** ** Backoff *)

Lemma backoff_loop_min n max d :
  0 < d < 2 ^ 63 → 0 < max < 2 ^ 63 →
  backoff_loop n max d = if decide (n = O) then d else Z.min (d * 2 ^ Z.of_nat n) max.
Proof.
  revert d. induction n as [|n IH]; intros d Hd Hm; [done|].
  rewrite decide_False by done. cbn [backoff_loop].
  assert (2 ^ Z.of_nat (S n) = 2 * 2 ^ Z.of_nat n) as ->.
  { rewrite Nat2Z.inj_succ. apply Z.pow_succ_r. lia. }
  assert (0 < 2 ^ Z.of_nat n) as Hp by (apply Z.pow_pos_nonneg; lia).
  destruct (int64_double d Hd) as [[-> Hlt]|[Hle Hge]].
  - destruct (Z.ltb_spec max (d * 2)); simpl; [nia|].
    rewrite (proj2 (Z.leb_gt _ _)) by lia. rewrite IH by lia.
    case_decide as Hn; [subst; simpl; lia|]. f_equal. lia.
  - rewrite (proj2 (Z.leb_le _ _) Hle), orb_true_r. nia.
Qed.

Lemma backoff_loop_le n max d : max < 2 ^ 63 → d < 2 ^ 63 → backoff_loop n max d ≤ Z.max d max.
Proof.
  revert d. induction n as [|n IH]; intros d Hm Hd; simpl; [lia|].
  destruct (Z.ltb_spec max (int64 (d * 2))); simpl; [lia|].
  destruct (Z.leb_spec (int64 (d * 2)) 0); simpl; [lia|].
  pose proof (int64_range (d * 2)). specialize (IH (int64 (d * 2))). lia.
Qed.

(** The first doubling decides when it gives nothing positive below the cap. *)
Lemma backoff_loop_max n max d :
  (0 < n)%nat → (0 < max → int64 (d * 2) ≤ 0) → backoff_loop n max d = max.
Proof.
  intros Hn Hd. destruct n as [|n]; [lia|]. simpl.
  destruct (Z.ltb_spec max (int64 (d * 2))); [done|]. destruct (Z.leb_spec (int64 (d * 2)) 0); [done|]. lia.
Qed.

Section backoff.
Context {O : Otel} {W : Type}.
Implicit Types (w : Worker (W:=W)) (j : Job) (draw : Z → Z).

(** The random source of [rand.Int64N]. *)
Definition draw_ok draw : Prop := ∀ n, 0 < n → 0 ≤ draw n < n.

Lemma retry_delay_range w draw j :
  draw_ok draw →
  ∃ d, calculateRetryDelay w draw j = Some d ∧ 0 ≤ d ∧
    d ≤ Z.max 0 (backoff (retryBaseDelay w) (maxRetryDelay w) (Attempts j) - 1).
Proof.
  intros Hd. unfold calculateRetryDelay, Int64N.
  destruct (Z.leb_spec (backoff (retryBaseDelay w) (maxRetryDelay w) (Attempts j)) 0);
    [exists 0; split_and!; lia || done|].
  rewrite (proj2 (Z.ltb_lt _ _)) by lia. eexists. split; [done|]. specialize (Hd _ H). lia.
Qed.

(** C32. The backoff loop, with its [int64] doublings and its overflow test, in
    closed form for every setting of the cap: the first attempt waits the base
    delay, uncapped; from the second on, a positive base delay gives exponential
    backoff, [base * 2^(attempts-1)] capped at the maximum, and a base delay of
    zero or less gives the maximum itself. *)
Theorem backoff_closed_form base max attempts :
  - 2 ^ 62 ≤ base < 2 ^ 63 → - 2 ^ 63 ≤ max < 2 ^ 63 →
  backoff base max attempts =
  if decide (attempts ≤ 1) then base
  else if decide (0 < base) then Z.min (base * 2 ^ (attempts - 1)) max else max.
Proof.
  intros Hb Hm. unfold backoff. destruct (decide (attempts ≤ 1)) as [Ha|Ha].
  { by replace (Z.to_nat (attempts - 1)) with 0%nat by lia. }
  destruct (decide (0 < base)) as [Hp|Hp]; [destruct (decide (0 < max)) as [Hmp|Hmp]|].
  - rewrite backoff_loop_min by lia. rewrite decide_False by lia. by rewrite Z2Nat.id by lia.
  - assert (0 < 2 ^ (attempts - 1)) by (apply Z.pow_pos_nonneg; lia). rewrite Z.min_r by nia.
    by apply backoff_loop_max; [lia|intros; lia].
  - apply backoff_loop_max; [lia|]. intros _. rewrite int64_id by lia. lia.
Qed.

(** Full jitter is safe for every configuration: [rand.Int64N] is never called
    with a non-positive bound, so [calculateRetryDelay] never panics, and the
    delay lies in [0, cap) for the computed cap; a non-positive cap gives 0. *)
Theorem retry_delay_bounds w draw j :
  draw_ok draw →
  let cap := backoff (retryBaseDelay w) (maxRetryDelay w) (Attempts j) in
  ∃ d, calculateRetryDelay w draw j = Some d ∧
    (0 < cap → 0 ≤ d < cap) ∧ (cap ≤ 0 → d = 0) ∧
    (retryBaseDelay w < 2 ^ 63 → maxRetryDelay w < 2 ^ 63 →
     d ≤ Z.max 0 (Z.max (retryBaseDelay w) (maxRetryDelay w))).
Proof.
  intros Hd cap. destruct (retry_delay_range w draw j Hd) as (d & Hc & Hlo & Hhi).
  exists d. fold cap in Hhi. split_and!; [done|lia|lia|]. intros Hb Hm.
  pose proof (backoff_loop_le (Z.to_nat (Attempts j - 1)) _ _ Hm Hb) as Hle. unfold cap, backoff in *. lia.
Qed.

End backoff.

(** The poll interval: after [k] empty polls in a row an idle worker waits
    [poll * 2^k], capped at the maximum, for every [k]; it stays positive as
    long as both settings are below half the [int64] range. *)
Theorem poll_interval_closed_form max poll k :
  0 < poll < 2 ^ 62 → 0 < max < 2 ^ 62 →
  Nat.iter k (next_interval max) poll =
  if decide (k = O) then poll else Z.min (poll * 2 ^ Z.of_nat k) max.
Proof.
  intros Hp Hm. induction k as [|k IH]; [done|]. rewrite decide_False by done. simpl Nat.iter.
  assert (2 ^ Z.of_nat (S k) = 2 * 2 ^ Z.of_nat k) as ->.
  { rewrite Nat2Z.inj_succ. apply Z.pow_succ_r. lia. }
  assert (0 < 2 ^ Z.of_nat k) by (apply Z.pow_pos_nonneg; lia).
  assert (0 < Nat.iter k (next_interval max) poll < 2 ^ 62) as Hr.
  { rewrite IH. case_decide; nia. }
  unfold next_interval at 1. rewrite int64_id by lia. rewrite IH. clear IH Hr.
  case_decide as Hk.
  - subst k. simpl. destruct (Z.ltb_spec max (poll * 2)); lia.
  - destruct (Z.ltb_spec max (Z.min (poll * 2 ^ Z.of_nat k) max * 2)); nia.
Qed.

(** ** Processing one job *)

Section process.
Context {Pg : Postgres} {O : Otel} {W : Type}.
Implicit Types (w : Worker (W:=W)) (j : Job) (pe : proc_env) (ctx : context span_context)
  (st : wstate W).

(** The context under which the outcome of [j] is recorded. *)
Definition job_ctx ctx j : context span_context :=
  tracer_Start (Extract (WithoutCancel ctx) (TraceContext j)) "claim".

Definition exec_result w ctx j (wd : W) : option error * W :=
  execute w (tracer_Start (job_ctx ctx j) "execute") j wd.

Lemma job_ctx_live ctx j : ctx_err (job_ctx ctx j) = None.
Proof. unfold job_ctx, tracer_Start. simpl. by rewrite Extract_ctx_err. Qed.

(** [process] always returns, and its effect on the tables is that of one
    report: which one depends on the handler's result and the attempts. *)
Lemma process_spec w pe ctx j st :
  draw_ok (pe_draw pe) →
  ∃ st' d, process w pe ctx j st = Some st' ∧
    calculateRetryDelay w (pe_draw pe) j = Some d ∧ 0 ≤ d ∧
    ws_world st' = (exec_result w ctx j (ws_world st)).2 ∧
    ws_db st' =
      match (exec_result w ctx j (ws_world st)).1 with
      | None => (Complete (job_ctx ctx j) (pe_stmt pe) (Job_ID j) (ws_db st)).2
      | Some err =>
          if MaxAttempts j <=? Attempts j
          then (Fail (job_ctx ctx j) (pe_stmt pe) (Job_ID j) (Error err) (ws_db st)).2
          else (Retry (job_ctx ctx j) (pe_stmt pe) (Job_ID j) (pe_now pe + d) (Error err)
                  (ws_db st)).2
      end.
Proof.
  intros Hd. destruct (retry_delay_range w _ j Hd) as (d & Hc & Hd0 & _).
  unfold process. fold (job_ctx ctx j). change (execute w _ j (ws_world st)) with
    (exec_result w ctx j (ws_world st)).
  destruct (exec_result w ctx j (ws_world st)) as [[err|] wd]; simpl.
  - case_match.
    + destruct (Fail _ _ _ _ _) as [r s]. eexists _, d. by split_and!.
    + rewrite Hc. destruct (Retry _ _ _ _ _ _) as [r s] eqn:E.
      eexists _, d. rewrite E. by split_and!.
  - destruct (Complete _ _ _ _) as [r s]. eexists _, d. by split_and!.
Qed.

(** A pool call moves the tables along [db_step]. *)
Lemma call_steps {A} ctx e p (body : stmt A) s :
  (∀ a s', body e s = Ok (a, s') → db_step s s') →
  rtc db_step s (run_stmt ctx e p body s).2.
Proof.
  intros Hb. destruct (run_stmt ctx e p body s) as [r s'] eqn:E.
  apply run_stmt_atomic in E as [->|(a & Ha)]; [done|]. simpl. apply rtc_once. eauto.
Qed.

Lemma process_steps w pe ctx j st st' :
  process w pe ctx j st = Some st' → rtc db_step (ws_db st) (ws_db st').
Proof.
  unfold process. fold (job_ctx ctx j). destruct (execute _ _ _ _) as [[err|] wd].
  - case_match.
    + destruct (Fail _ _ _ _ _) as [r s] eqn:E. intros [= <-]. simpl.
      rewrite <-(f_equal snd E : _ = s). apply call_steps. intros. by eapply step_fail.
    + case_match; [|done]. destruct (Retry _ _ _ _ _ _) as [r s] eqn:E. intros [= <-]. simpl.
      rewrite <-(f_equal snd E : _ = s). apply call_steps. intros. by eapply step_retry.
  - destruct (Complete _ _ _ _) as [r s] eqn:E. intros [= <-]. simpl.
    rewrite <-(f_equal snd E : _ = s). apply call_steps. intros. by eapply step_complete.
Qed.

(** The statement that reports the result [res] of the handler, and the message
    of the log line when it fails. *)
Definition report_stmt (res : option error) (delay : Z) pe j : stmt unit :=
  match res with
  | None => stmt_complete (Job_ID j)
  | Some err =>
      if MaxAttempts j <=? Attempts j then stmt_fail (Job_ID j) (Error err)
      else stmt_retry (Job_ID j) (pe_now pe + delay) (Error err)
  end.

Definition report_log (res : option error) j : string :=
  match res with
  | None => "complete failed"
  | Some _ => if MaxAttempts j <=? Attempts j then "fail failed" else "retry failed"
  end.

(** The tables once the outcome is recorded: the row of the job, its dead letter
    after the last attempt, and nothing else. *)
Definition recorded (res : option error) (delay : Z) pe j (s s' : db) : Prop :=
  match jobs s !! Job_ID j with
  | None => jobs s' = jobs s ∧ dead_letters s' = dead_letters s
  | Some r =>
      match res with
      | None => jobs s' = <[Job_ID j := complete_set (pe_stmt pe) r]> (jobs s) ∧ dead_letters s' = dead_letters s
      | Some err =>
          if MaxAttempts j <=? Attempts j
          then jobs s' = <[Job_ID j := fail_set (pe_stmt pe) (Error err) r]> (jobs s) ∧
               ∃ d, dead_letters s' = dead_letters s ++ [d] ∧ DL_JobID d = Job_ID j ∧
                 DL_LastError d = Error err ∧ DL_Payload d = r_payload r
          else jobs s' = <[Job_ID j := retry_set (timestamptz_in (pe_now pe + delay)) (Error err) r]> (jobs s) ∧
               dead_letters s' = dead_letters s
      end
  end.

Lemma report_recorded res delay pe j s u s' :
  NoDup (DL_JobID <$> dead_letters s) → report_stmt res delay pe j (pe_stmt pe) s = Ok (u, s') →
  recorded res delay pe j s s'.
Proof.
  intros Hu Hs. unfold recorded, report_stmt in *.
  assert (∀ f ev dead msg, update_effect (env_now (pe_stmt pe)) (by_id (Job_ID j)) f ev dead msg
    (sql_returning (by_id (Job_ID j)) f (jobs s)) s s' →
    match jobs s !! Job_ID j with
    | None => jobs s' = jobs s ∧ dead_letters s' = dead_letters s
    | Some r => jobs s' = <[Job_ID j := f r]> (jobs s) ∧ ∃ k, dead_letters s' = dead_letters s ++
        number_letters (env_now (pe_stmt pe)) k msg (filter (λ p, dead p) [(Job_ID j, f r)])
    end) as Hup.
  { intros f ev dead msg [_ Hj _ _ (k & Hl & _) _]. rewrite sql_returning_by_id in Hl.
    destruct (jobs s !! Job_ID j) as [r|] eqn:Hr.
    - rewrite (sql_update_by_id _ _ _ _ Hr) in Hj. split; [done|]. by exists k.
    - rewrite sql_update_by_id_None in Hj by done. split; [done|]. rewrite Hl. simpl. by rewrite app_nil_r. }
  destruct res as [err|]; [destruct (MaxAttempts j <=? Attempts j)|].
  - apply stmt_fail_effect in Hs as [_ H%Hup]; [|done]. destruct (jobs s !! Job_ID j) as [r|]; [|done].
    destruct H as [Hj [k Hl]]. split; [done|]. eexists. split; [exact Hl|done].
  - apply stmt_retry_effect in Hs as [_ H%Hup]. destruct (jobs s !! Job_ID j) as [r|]; [|done].
    destruct H as [Hj [k Hl]]. split; [done|]. by rewrite Hl, app_nil_r.
  - apply stmt_complete_effect, Hup in Hs as H. destruct (jobs s !! Job_ID j) as [r|]; [|done].
    destruct H as [Hj [k Hl]]. split; [done|]. by rewrite Hl, app_nil_r.
Qed.

(** [process] makes one call of the store, and logs its error. *)
Lemma process_call w pe ctx j st :
  draw_ok (pe_draw pe) →
  let res := (exec_result w ctx j (ws_world st)).1 in
  ∃ st' d prefix, process w pe ctx j st = Some st' ∧ calculateRetryDelay w (pe_draw pe) j = Some d ∧
    let r := run_stmt (job_ctx ctx j) (pe_stmt pe) prefix (report_stmt res d pe j) (ws_db st) in
    ws_db st' = r.2 ∧
    ∀ err, r.1 = Err err → ∃ l, ws_out st' = ws_out st ++ l ∧ ELog (report_log res j) (Error err) ∈ l.
Proof.
  intros Hd. destruct (retry_delay_range w _ j Hd) as (d & Hc & _). cbv zeta. unfold process. fold (job_ctx ctx j).
  change (execute w _ j (ws_world st)) with (exec_result w ctx j (ws_world st)).
  destruct (exec_result w ctx j (ws_world st)) as [res wd]. cbn [fst]. unfold report_stmt, report_log.
  destruct res as [err0|]; [destruct (MaxAttempts j <=? Attempts j)|].
  - destruct (Fail _ _ _ _ _) as [r s] eqn:E. eexists _, d, "store: fail: ". split; [done|]. split; [done|].
    unfold Fail in E. rewrite E. split; [done|]. intros err Hr. simpl in Hr. subst r. eexists. split; [done|].
    rewrite !elem_of_app. right. right. left. by left.
  - rewrite Hc. destruct (Retry _ _ _ _ _ _) as [r s] eqn:E. eexists _, d, "store: retry: ". split; [done|]. split; [done|].
    unfold Retry in E. rewrite E. split; [done|]. intros err Hr. simpl in Hr. subst r. eexists. split; [done|].
    rewrite !elem_of_app. right. right. left. by left.
  - destruct (Complete _ _ _ _) as [r s] eqn:E. eexists _, d, "store: complete: ". split; [done|]. split; [done|].
    unfold Complete in E. rewrite E. split; [done|]. intros err Hr. simpl in Hr. subst r. eexists. split; [done|].
    rewrite !elem_of_app. right. left. by left.
Qed.

(** The conditions under which the server takes the report: no fault of the
    connection, room in the sequences, an error text it accepts, and no earlier
    dead letter when one is written. *)
Definition accepts (res : option error) pe j (s : db) : Prop :=
  env_fault (pe_stmt pe) = None ∧ events_left (pe_stmt pe) s ∧ letters_left (pe_stmt pe) s ∧
  ∀ err, res = Some err → text_ok (Error err) = true ∧
    (MaxAttempts j ≤ Attempts j → Job_ID j ∉ DL_JobID <$> dead_letters s).

Lemma report_accepted ctx prefix res delay pe j s :
  ctx_err ctx = None → accepts res pe j s → (run_stmt ctx (pe_stmt pe) prefix (report_stmt res delay pe j) s).1 = Ok tt.
Proof.
  intros Hctx (Hf & Hev & Hlet & Herr).
  assert (∀ p (b : stmt unit) r s', run_stmt ctx (pe_stmt pe) p b s = (Ok r, s') →
    (run_stmt ctx (pe_stmt pe) prefix b s).1 = Ok tt) as Hany.
  { intros p b [] s' H%run_stmt_ok. by rewrite (run_stmt_quiet _ _ _ _ _ _ _ Hctx Hf H). }
  unfold report_stmt. destruct res as [err|].
  - destruct (Herr err eq_refl) as [Ht Hdl]. destruct (Z.leb_spec (MaxAttempts j) (Attempts j)) as [Hle|Hlt].
    + pose proof (Fail_branches ctx _ (Job_ID j) (Error err) _ Hctx Hf Hev Hlet Ht) as H.
      destruct (jobs s !! Job_ID j); [rewrite decide_False in H by auto; destruct H as (s' & H & _)|]; by eapply Hany.
    + pose proof (Retry_branches ctx _ (Job_ID j) (pe_now pe + delay) (Error err) _ Hctx Hf Hev) as H.
      rewrite Ht in H. destruct (jobs s !! Job_ID j); [destruct H as (s' & H & _)|]; by eapply Hany.
  - pose proof (Complete_branches ctx _ (Job_ID j) _ Hctx Hf Hev) as H.
    destruct (jobs s !! Job_ID j); [destruct H as (s' & H & _)|]; by eapply Hany.
Qed.

(** C12. The outcome of one processed job, on every branch and for any handler,
    including one that panics.  [process] itself never panics.  It either records
    the outcome: success completes the row; a failure on the last attempt fails it
    and writes a dead letter with the error; an earlier failure puts it back in
    the queue, to run after a delay smaller than the backoff cap, with the error
    and its attempts; no other row or letter changes.  Or it leaves the tables as
    they were and logs the error of the call, so the row waits for the reaper.
    It does record the outcome when the server takes the report: no fault, room
    in the sequences, an error text Postgres accepts and no earlier dead letter
    of the job. *)
Theorem process_outcome w pe ctx j st :
  draw_ok (pe_draw pe) → reachable (ws_db st) →
  let res := (exec_result w ctx j (ws_world st)).1 in
  ∃ st' delay, process w pe ctx j st = Some st' ∧
    0 ≤ delay ≤ Z.max 0 (backoff (retryBaseDelay w) (maxRetryDelay w) (Attempts j) - 1) ∧
    (recorded res delay pe j (ws_db st) (ws_db st') ∨
     ws_db st' = ws_db st ∧
       ∃ err l, ws_out st' = ws_out st ++ l ∧ ELog (report_log res j) (Error err) ∈ l) ∧
    (accepts res pe j (ws_db st) → recorded res delay pe j (ws_db st) (ws_db st')).
Proof.
  intros Hd Hre res. pose proof (wf_letters_unique _ (reachable_wf _ Hre)) as Hu.
  destruct (process_call w pe ctx j st Hd) as (st' & d & prefix & Hp & Hc & Hdb & Hlog). fold res in Hdb, Hlog.
  destruct (retry_delay_range w _ j Hd) as (d' & Hc' & Hd0 & Hcap). rewrite Hc in Hc'. injection Hc' as <-.
  exists st', d. split; [done|]. split; [done|].
  destruct (run_stmt _ _ _ _ _) as [r s'] eqn:E. simpl in Hdb, Hlog. rewrite Hdb. split.
  - destruct (run_stmt_atomic _ _ _ _ _ _ _ E) as [->|([] & Hs)]; [|left; by eapply report_recorded].
    destruct r as [[]|err]; [left; apply run_stmt_ok in E; by eapply report_recorded|].
    right. split; [done|]. destruct (Hlog err eq_refl) as (l & ? & ?). by exists err, l.
  - intros Hacc. pose proof (report_accepted _ prefix _ d _ _ _ (job_ctx_live ctx j) Hacc) as Hok.
    rewrite E in Hok. simpl in Hok. subst r. apply run_stmt_ok in E. by eapply report_recorded.
Qed.

(** ** The loop *)

(** A claim of limit 1 returns at most one job, so [jobs[0]] is all of it. *)
Lemma claim_one ctx e id lease s j l s' :
  Claim ctx e id lease 1 s = (Ok (j :: l), s') → l = [].
Proof.
  intros Hc%run_stmt_ok. apply stmt_claim_effect in Hc as (iv & rows & _ & _ & _ & Hjl & _ & Heff).
  apply claim_rows_length in Heff. apply (f_equal length) in Hjl.
  rewrite length_fmap in Hjl. destruct l; [done|]. simpl in Hjl. lia.
Qed.

(** The tables of a loop state. *)
Definition loop_db (l : loop_state (W:=W)) : option db :=
  match l with Returned st | Looping _ st => Some (ws_db st) | Panicked => None end.

Lemma run_iter_db w it i st :
  draw_ok (pe_draw (it_proc it)) →
  ∃ s', loop_db (run_iter w it i st) = Some s' ∧ rtc db_step (ws_db st) s'.
Proof.
  intros Hd. unfold run_iter. destruct (ctx_err (it_ctx it)); [by eexists|].
  destruct (Claim _ _ _ _ _ _) as [r s] eqn:E.
  assert (rtc db_step (ws_db st) s) as Hs.
  { rewrite <-(f_equal snd E : _ = s). apply call_steps. intros. by eapply step_claim. }
  destruct r as [[|j l]|err].
  - destruct (it_done_while_waiting it); by eexists.
  - set (st1 := WState s _ _).
    destruct (process_spec w (it_proc it) (it_ctx it) j st1 Hd) as (st2 & d & Hp & _).
    rewrite Hp. eexists. split; [done|]. etrans; [exact Hs|].
    by apply (process_steps _ _ _ _ _ _ Hp).
  - destruct (it_done_while_waiting it); by eexists.
Qed.

Lemma run_loop_db w its l s :
  Forall (λ it, draw_ok (pe_draw (it_proc it))) its → loop_db l = Some s →
  ∃ s', loop_db (run_loop w its l) = Some s' ∧ rtc db_step s s'.
Proof.
  revert l s. induction its as [|it its IH]; intros l s Hd Hl; simpl; [by eexists|].
  apply Forall_cons in Hd as [Hit Hd]. destruct l as [st|i st|]; simpl in Hl; simplify_eq.
  - by eexists.
  - destruct (run_iter_db w it i st Hit) as (s1 & Hs1 & Hr1).
    destruct (IH _ _ Hd Hs1) as (s2 & Hs2 & Hr2). exists s2. split; [done|]. by etrans.
Qed.

(** A worker never panics and only takes statements of the store: whatever the
    handlers, clocks, faults and cancellations of its turns, [Run] leads from a
    reachable state to a reachable one, so every table property above holds
    while any number of workers run. *)
Theorem Run_reachable w its st :
  Forall (λ it, draw_ok (pe_draw (it_proc it))) its → reachable (ws_db st) →
  ∃ s', loop_db (Run w its st) = Some s' ∧ reachable s' ∧
    replay (outbox s') ∅ = Some (hist_of <$> jobs s').
Proof.
  intros Hd Hr. destruct (run_loop_db w its (Looping (pollInterval w) st) _ Hd eq_refl)
    as (s' & Hs' & Hsteps).
  exists s'. assert (reachable s') as Hr' by (unfold reachable in *; by etrans).
  split_and!; [done|done|]. by apply history_reachable.
Qed.

(** Shutdown: a turn that starts with the context done claims nothing and
    returns at once with the state as it was; a job already claimed is
    processed exactly as without the cancellation, so its outcome is still
    recorded. *)
Theorem Run_shutdown w it its i st :
  (∀ t, ctx_err (it_ctx it) = Some t → run_loop w (it :: its) (Looping i st) = Returned st) ∧
  (∀ pe j t sp, process w pe (Context (Some t) sp) j st = process w pe (Context None sp) j st).
Proof.
  split; [|done]. intros t Ht. simpl. unfold run_iter. rewrite Ht. by destruct its.
Qed.

(** ** Traces *)

Definition spans_in (t : Z) (l : list effect) : Prop :=
  Forall (λ x, match x with ESpan _ tr _ _ => tr = Some t | _ => True end) l.

Lemma report_spans `{!OtelLaws O} span ctx msg r t :
  ctx_trace ctx = Some t → spans_in t (report_effects span ctx msg r).
Proof.
  intros Ht. pose proof (tracer_Start_trace ctx span t Ht) as Hs.
  destruct r; simpl; rewrite Hs; by repeat constructor.
Qed.

(** Trace continuity: every span a worker emits for a job, on every branch and
    attempt, belongs to the trace in which the job was submitted, carried
    through the [trace_context] column. *)
Lemma process_trace `{!OtelLaws O} w pe ctx sctx j st st' t :
  ctx_trace sctx = Some t → TraceContext j = Inject sctx →
  process w pe ctx j st = Some st' →
  ∃ l, ws_out st' = ws_out st ++ l ∧ spans_in t l ∧ ESpan "claim" (Some t) (claim_attrs j) None ∈ l.
Proof.
  intros Ht Htc. unfold process. fold (job_ctx ctx j).
  assert (ctx_trace (job_ctx ctx j) = Some t) as Hj.
  { apply tracer_Start_trace. rewrite Htc. by apply Extract_Inject_trace. }
  pose proof (tracer_Start_trace _ "execute" t Hj) as He.
  destruct (execute _ _ _ _) as [err wd]. rewrite He, Hj.
  set (out := [_; _]).
  assert (spans_in t out) as Hout by by repeat constructor.
  assert (∀ l, spans_in t l → ∃ l', out ++ l ++ [ESpan "claim" (Some t) (claim_attrs j) None] = l' ∧
    spans_in t l' ∧ ESpan "claim" (Some t) (claim_attrs j) None ∈ l') as Hfin.
  { intros l Hl. eexists. split; [done|]. split.
    - apply Forall_app. split; [done|]. apply Forall_app. split; [done|]. by repeat constructor.
    - apply elem_of_app. right. apply elem_of_app. right. by left. }
  destruct err as [err|].
  - case_match.
    + destruct (Fail _ _ _ _ _) as [r s]. intros [= <-]. simpl.
      destruct (Hfin (EInc "dead_letters_total" (Type_ j) :: report_effects "fail" (job_ctx ctx j) "fail failed" r))
        as (l' & <- & H1 & H2); [constructor; [done|by apply report_spans]|by eauto].
    + case_match; [|done]. destruct (Retry _ _ _ _ _ _) as [r s]. intros [= <-]. simpl.
      destruct (Hfin (EInc "retries_total" (Type_ j) :: report_effects "retry" (job_ctx ctx j) "retry failed" r))
        as (l' & <- & H1 & H2); [constructor; [done|by apply report_spans]|by eauto].
  - destruct (Complete _ _ _ _) as [r s]. intros [= <-]. simpl.
    destruct (Hfin (report_effects "complete" (job_ctx ctx j) "complete failed" r))
      as (l' & <- & H1 & H2); [by apply report_spans|by eauto].
Qed.

End process.

(** ** A worker on the demonstration tables *)

(** The configured defaults, with a handler that always fails. *)
Definition demo_worker : Worker (W:=unit) :=
  MkWorker (λ _ _ wd, (HErr (EText "boom"), wd)) "worker-0" (30 * Second) (Second / 10) Second
    Second (60 * Second).

Definition demo_draw (n : Z) : Z := n - 1.
Lemma demo_draw_ok : draw_ok demo_draw.
Proof. intros n Hn. unfold demo_draw. lia. Qed.

(** The job of [demo_running], submitted in trace 3. *)
Definition demo_claimed : Job := MkJob 1 "sum_numbers" "[1]" 1 5 (unary 3).
Definition demo_proc : proc_env := ProcEnv (quiet (sec 2)) 5 (2 * Second) demo_draw.
Definition demo_st : wstate unit := WState demo_running tt [].

Lemma backoff_closed_form_witness :
  backoff Second (60 * Second) 7 = 60 * Second ∧ backoff 0 (60 * Second) 2 = 60 * Second.
Proof. split; rewrite backoff_closed_form by done; by vm_compute. Defined.

Lemma retry_delay_bounds_witness :
  ∃ d, calculateRetryDelay demo_worker demo_draw demo_claimed = Some d ∧ 0 ≤ d < Second.
Proof.
  destruct (retry_delay_bounds demo_worker demo_draw demo_claimed demo_draw_ok) as (d & Hd & Hb & _).
  exists d. split; [exact Hd|]. by apply Hb.
Defined.

(** Two turns: one claims and processes a job, the next finds the context done. *)
Definition demo_turns : list iter_env :=
  [IterEnv Background Background (quiet (sec 1)) 3 false demo_proc;
   IterEnv (Context (Some "context canceled") None) Background (quiet (sec 3)) 3 false demo_proc].

Lemma process_outcome_witness :
  ∃ st' delay, process demo_worker demo_proc Background demo_claimed demo_st = Some st' ∧
    0 ≤ delay ≤ Second - 1 ∧
    r_run_after <$> jobs (ws_db st') !! 1 = Some ((2 * Second + delay) / 1000).
Proof.
  destruct (process_outcome demo_worker demo_proc Background demo_claimed demo_st demo_draw_ok demo_running_reachable)
    as (st' & delay & Hp & Hd & _ & Hrec).
  exists st', delay. split; [exact Hp|]. split; [exact Hd|].
  assert (accepts (exec_result demo_worker Background demo_claimed (ws_world demo_st)).1 demo_proc demo_claimed
    (ws_db demo_st)) as Hacc.
  { split; [reflexivity|]. split; [by vm_compute|]. split; [by vm_compute|]. intros err [= <-]. split; [reflexivity|].
    intros _. unfold demo_st, ws_db. rewrite demo_running_letters. apply not_elem_of_nil. }
  apply Hrec in Hacc. unfold recorded in Hacc. change (Job_ID demo_claimed) with 1 in Hacc.
  destruct demo_running_job as [r Hr]. change (ws_db demo_st) with demo_running in Hacc. rewrite Hr in Hacc.
  destruct Hacc as [Hj _]. rewrite Hj, lookup_insert_eq. reflexivity.
Defined.
