(* ===== verification/Lifecycle.v ===== *)
(** * Leases

    A claimed job is held by its worker until its lease expires.  [sys_step] is
    the queue with its workers under the discipline the lease is meant to give:
    a worker reports on a job it claimed, with the decision of
    [Worker.process], no later than the lease allows; it may also crash, or its
    report may be lost, at any time.  Under this discipline attempts are
    bounded, terminal states are final, a dead letter exists exactly for the
    failed jobs, and the reaper always succeeds.

    The statements themselves do not enforce the discipline ([Complete],
    [Retry] and [Fail] match a row by id alone): the last section shows what a
    report that arrives after the lease does. *)

From stdpp Require Import prelude gmap strings list relations sorting.
From S2P Require Import Prelude GoBase Job Store StoreFacts Steps Claim Invariant History.
From S2P Require Import StoreSpec Demo.
#[local] Open Scope jq_scope.

(** The tables, the latest transaction time, and the jobs workers hold with the
    end of their leases. *)
Record sys : Type := Sys {
  sy_db : db;
  sy_clock : Z;
  sy_held : list (Job * Z);
}.

Definition sys_empty : sys := Sys db_empty 0 [].

Section lifecycle.
Context {Pg : Postgres}.
Implicit Types (e : stmt_env) (s : db) (y : sys).

Inductive sys_step : sys → sys → Prop :=
| sys_submit ty pl tc e id s s' c held :
    c ≤ env_now e → stmt_enqueue ty pl tc e s = Ok (id, s') →
    sys_step (Sys s c held) (Sys s' (env_now e) held)
| sys_claim w lease limit iv e jl s s' c held :
    c ≤ env_now e → interval_in (Duration_String lease) = Some iv →
    stmt_claim w lease limit e s = Ok (jl, s') →
    sys_step (Sys s c held)
      (Sys s' (env_now e) (((λ j, (j, env_now e + iv)) <$> jl) ++ held))
| sys_complete e j dl s s' c held held' :
    c ≤ env_now e → env_now e ≤ dl → held ≡ₚ (j, dl) :: held' →
    stmt_complete (Job_ID j) e s = Ok (tt, s') →
    sys_step (Sys s c held) (Sys s' (env_now e) held')
| sys_retry e j dl t msg s s' c held held' :
    c ≤ env_now e → env_now e ≤ dl → held ≡ₚ (j, dl) :: held' →
    Attempts j < MaxAttempts j → stmt_retry (Job_ID j) t msg e s = Ok (tt, s') →
    sys_step (Sys s c held) (Sys s' (env_now e) held')
| sys_fail e j dl msg s s' c held held' :
    c ≤ env_now e → env_now e ≤ dl → held ≡ₚ (j, dl) :: held' →
    MaxAttempts j ≤ Attempts j → stmt_fail (Job_ID j) msg e s = Ok (tt, s') →
    sys_step (Sys s c held) (Sys s' (env_now e) held')
| sys_crash p s c held held' :
    held ≡ₚ p :: held' → sys_step (Sys s c held) (Sys s c held')
| sys_reap e nd s s' c held :
    c ≤ env_now e → stmt_reap e s = Ok (nd, s') →
    sys_step (Sys s c held) (Sys s' (env_now e) held)
| sys_ship ids e s s' c held :
    c ≤ env_now e → stmt_mark_shipped ids e s = Ok (tt, s') →
    sys_step (Sys s c held) (Sys s' (env_now e) held).

Definition sys_reachable (y : sys) : Prop := rtc sys_step sys_empty y.

Lemma sys_db_step y y' : sys_step y y' → sy_db y' = sy_db y ∨ db_step (sy_db y) (sy_db y').
Proof. destruct 1; simpl; eauto with jq. Qed.

Lemma sys_reachable_db y : sys_reachable y → reachable (sy_db y).
Proof.
  unfold sys_reachable, reachable. intros Hr.
  apply (rtc_ind_r (R:=sys_step) (λ y, rtc db_step db_empty (sy_db y)) sys_empty); [done| |done].
  intros y1 y2 _ [->|Hs]%sys_db_step IH; [done|]. by eapply rtc_r.
Qed.

(** ** The invariant of the discipline *)

(** A held job's row, as long as the lease runs. *)
Definition held_ok (m : gmap Z job_row) (c : Z) (p : Job * Z) : Prop :=
  ∃ r, m !! Job_ID p.1 = Some r ∧ Attempts p.1 ≤ r_attempts r ∧
    MaxAttempts p.1 = r_max_attempts r ∧
    (c ≤ p.2 → r_status r = StatusRunning ∧ r_attempts r = Attempts p.1 ∧
               r_lease_expires_at r = Some p.2).

(** Attempts left to a row, by status. *)
Definition attempts_ok (r : job_row) : Prop :=
  r_attempts r ≤ r_max_attempts r ∧ (r_status r = StatusQueued → r_attempts r < r_max_attempts r).

Definition token (p : Job * Z) : Z * Z := (Job_ID p.1, Attempts p.1).

Record sys_inv (y : sys) : Prop := SysInv {
  inv_wf : db_wf (sy_db y);
  inv_held : Forall (held_ok (jobs (sy_db y)) (sy_clock y)) (sy_held y);
  inv_tokens : NoDup (token <$> sy_held y);
  inv_attempts : ∀ id r, jobs (sy_db y) !! id = Some r → attempts_ok r;
  inv_letters : ∀ id r, jobs (sy_db y) !! id = Some r →
    id ∈ DL_JobID <$> dead_letters (sy_db y) → r_status r = StatusFailed;
}.

(** The holder of a live lease is the only one of its job. *)
Lemma live_token_unique y p q :
  sys_inv y → p ∈ sy_held y → q ∈ sy_held y → Job_ID p.1 = Job_ID q.1 →
  sy_clock y ≤ p.2 → sy_clock y ≤ q.2 → token p = token q.
Proof.
  intros [_ Hh _ _ _] Hp Hq E Hcp Hcq. rewrite Forall_forall in Hh.
  destruct (Hh _ Hp) as (r & Hr & _ & _ & Hl). destruct (Hh _ Hq) as (r' & Hr' & _ & _ & Hl').
  unfold token. rewrite E in *. simplify_eq.
  destruct (Hl Hcp) as (_ & <- & _). by destruct (Hl' Hcq) as (_ & <- & _).
Qed.

(** Rows that an update leaves alone keep their held jobs. *)
Lemma held_ok_mono m m' c c' p :
  c ≤ c' → m' !! Job_ID p.1 = m !! Job_ID p.1 → held_ok m c p → held_ok m' c' p.
Proof.
  intros Hc Hm (r & Hr & Ha & Hmx & Hl). exists r. rewrite Hm. split_and!; [done..|].
  intros Hc'. apply Hl. lia.
Qed.

(** An update that only rewrites a row whose lease is over, or held by nobody
    live, keeps a stale held job. *)
Lemma held_ok_stale m m' c c' p r' :
  held_ok m c p → m' !! Job_ID p.1 = Some r' →
  (∀ r, m !! Job_ID p.1 = Some r → r_attempts r ≤ r_attempts r' ∧ r_max_attempts r' = r_max_attempts r) →
  p.2 < c' → held_ok m' c' p.
Proof.
  intros (r & Hr & Ha & Hmx & _) Hr' Hk Hc. destruct (Hk _ Hr) as [Hka Hkm].
  exists r'. split_and!; [done|lia|congruence|lia].
Qed.

(** ** Every step keeps the invariant *)

(** One update of [jobs], seen by the discipline: the rows it changes keep
    their attempts in bounds, and nobody else holds them live. *)
Lemma sys_inv_update now P f ev dead msg rows s s' c held held' :
  sys_inv (Sys s c held) → db_wf s' → update_effect now P f ev dead msg rows s s' →
  c ≤ now → (∀ p, p ∈ held' → p ∈ held) → NoDup (token <$> held') →
  (∀ id r, jobs s !! id = Some r → P id r →
     attempts_ok (f r) ∧ r_attempts r ≤ r_attempts (f r) ∧ r_max_attempts (f r) = r_max_attempts r ∧
     (id ∈ DL_JobID <$> dead_letters s → r_status (f r) = StatusFailed) ∧
     (dead (id, f r) → r_status (f r) = StatusFailed)) →
  (∀ p r, p ∈ held' → jobs s !! Job_ID p.1 = Some r → P (Job_ID p.1) r → p.2 < now) →
  sys_inv (Sys s' now held').
Proof.
  intros [_ Hh _ Ha Hl] Hwf' [Hrows Hj _ _ (k & Hdl & _) _] Hc Hsub Hnd Hrow Hlive.
  simpl in *. rewrite Forall_forall in Hh. split; simpl; [done| |done| |].
  - apply Forall_forall. intros p Hp. destruct (Hh p (Hsub p Hp)) as (r & Hr & Hrest).
    destruct (P (Job_ID p.1) r) eqn:E.
    + apply Is_true_true in E. destruct (Hrow _ _ Hr E) as (_ & Hra & Hrm & _).
      eapply (held_ok_stale (jobs s) _ c); [by exists r| | |by eapply Hlive].
      * rewrite Hj, lookup_sql_update, Hr. simpl. by rewrite (Is_true_eq_true _ E).
      * intros r0 Hr0. by simplify_eq.
    + eapply held_ok_mono; [exact Hc| |by exists r].
      rewrite Hj, lookup_sql_update, Hr. simpl. by rewrite E.
  - intros id r'. rewrite Hj, lookup_sql_update. intros (r & Hr & ->)%fmap_Some.
    destruct (P id r) eqn:E; [|by eauto]. apply Is_true_true in E. by destruct (Hrow _ _ Hr E).
  - intros id r'. rewrite Hj, lookup_sql_update. intros (r & Hr & ->)%fmap_Some.
    rewrite Hdl, fmap_app, number_letters_job_ids, elem_of_app.
    destruct (P id r) eqn:E.
    + apply Is_true_true in E. destruct (Hrow _ _ Hr E) as (_ & _ & _ & Hold & Hnew).
      intros [Hid|([i r'] & -> & [Hd Hin]%list_elem_of_filter)%list_elem_of_fmap]; [by auto|].
      rewrite Hrows in Hin. apply elem_of_sql_returning in Hin as (r0 & Hr0 & _ & ->).
      simplify_eq/=. by auto.
    + intros [Hid|([i r'] & -> & [_ Hin]%list_elem_of_filter)%list_elem_of_fmap]; [by eauto|].
      rewrite Hrows in Hin. apply elem_of_sql_returning in Hin as (r0 & Hr0 & HP & ->).
      simplify_eq/=. by rewrite E in HP.
Qed.

(** What a reporting worker knows of the row it holds. *)
Lemma live_report s c held held' j dl e :
  sys_inv (Sys s c held) → held ≡ₚ (j, dl) :: held' → c ≤ env_now e → env_now e ≤ dl →
  ∃ r, jobs s !! Job_ID j = Some r ∧ r_status r = StatusRunning ∧ r_attempts r = Attempts j ∧
    r_max_attempts r = MaxAttempts j ∧ attempts_ok r ∧
    (Job_ID j ∉ (DL_JobID <$> dead_letters s)) ∧
    NoDup (token <$> held') ∧ (∀ p, p ∈ held' → p ∈ held) ∧
    (∀ p, p ∈ held' → Job_ID p.1 = Job_ID j → p.2 < env_now e).
Proof.
  intros Hinv Hp Hc Hdl. pose proof Hinv as [_ Hh Hnd Ha Hl]. simpl in *.
  rewrite Hp in Hh, Hnd. apply Forall_cons in Hh as [(r & Hr & _ & Hm & Hrow) _].
  destruct Hrow as (Hst & Hat & _); [simpl; lia|]. simpl in Hnd.
  apply NoDup_cons in Hnd as [Hni Hnd].
  assert (∀ p, p ∈ held' → p ∈ held) as Hsub by (intros p Hin; rewrite Hp; by right).
  exists r. split_and!; [done..|by eauto| |done|done|].
  - intros Hin. specialize (Hl _ _ Hr Hin). congruence.
  - intros p Hin Hid. destruct (decide (p.2 < env_now e)) as [|Hlt]; [done|]. exfalso.
    apply Hni. apply list_elem_of_fmap. exists p. split; [|done]. symmetry.
    apply (live_token_unique (Sys s c held)); simpl; try lia; try done; [by auto|].
    rewrite Hp. by left.
Qed.

(** A report by id under a live lease keeps the invariant. *)
Lemma sys_inv_report f ev dead msg rows s s' c held held' j dl e :
  sys_inv (Sys s c held) → db_wf s' → held ≡ₚ (j, dl) :: held' → c ≤ env_now e → env_now e ≤ dl →
  update_effect (env_now e) (by_id (Job_ID j)) f ev dead msg rows s s' →
  (∀ r, r_attempts r = Attempts j → r_max_attempts r = MaxAttempts j → attempts_ok r →
     attempts_ok (f r)) →
  (∀ r, r_attempts (f r) = r_attempts r ∧ r_max_attempts (f r) = r_max_attempts r ∧
     (dead (Job_ID j, f r) → r_status (f r) = StatusFailed)) →
  sys_inv (Sys s' (env_now e) held').
Proof.
  intros Hinv Hwf' Hp Hc Hdl Heff Hf Hk.
  destruct (live_report _ _ _ _ _ _ _ Hinv Hp Hc Hdl)
    as (r & Hr & Hst & Hat & Hm & Hok & Hno & Hnd & Hsub & Hstale).
  eapply sys_inv_update; [done|done|done|done|done|done| |].
  - intros id r0 Hr0 Hid. apply Is_true_true, Z.eqb_eq in Hid as <-. simplify_eq.
    destruct (Hk r) as (-> & -> & Hd). split_and!; [by auto|lia|done|done|done].
  - intros p r0 Hin Hr0 Hid. apply Is_true_true, Z.eqb_eq in Hid. by apply Hstale.
Qed.

(** Jobs just claimed are held with fresh tokens. *)
Lemma sys_inv_claim w lease limit iv e jl s s' c held :
  sys_inv (Sys s c held) → c ≤ env_now e → interval_in (Duration_String lease) = Some iv →
  stmt_claim w lease limit e s = Ok (jl, s') →
  sys_inv (Sys s' (env_now e) (((λ j, (j, env_now e + iv)) <$> jl) ++ held)).
Proof.
  intros Hinv Hc Hiv Hs. assert (db_wf s') as Hwf' by (destruct Hinv; eauto with jq).
  apply stmt_claim_effect in Hs as (iv' & rows & Hiv' & _ & _ & -> & _ & Heff). simplify_eq.
  pose proof Hinv as [_ Hh Hnd Ha Hl]. pose proof Heff as [Hrows Hj _ _ _ _]. simpl in *.
  assert (∀ i r', (i, r') ∈ rows → ∃ r, jobs s !! i = Some r ∧ r_status r = StatusQueued ∧
    r' = claim_set e w iv r ∧ jobs s' !! i = Some r') as Hin.
  { intros i r'. rewrite Hrows. intros (r & Hr & HP & ->)%elem_of_sql_returning.
    exists r. split_and!; [done|by eapply claim_pred_queued|done|].
    rewrite Hj, lookup_sql_update, Hr. simpl. by rewrite (Is_true_eq_true _ HP). }
  assert (sys_inv (Sys s' (env_now e) held)) as [_ Hh' _ Ha' Hl'].
  { eapply sys_inv_update; [done|done|done|done|done|done| |].
    - intros id r Hr HP%(claim_pred_queued _ _ _ _ _ Hr). destruct (Ha _ _ Hr) as [_ Hlt].
      specialize (Hlt HP). unfold attempts_ok. simpl. split_and!; try lia; try done.
      intros Hd. specialize (Hl _ _ Hr Hd). congruence.
    - intros p r Hp Hr HP%(claim_pred_queued _ _ _ _ _ Hr). rewrite Forall_forall in Hh.
      destruct (Hh _ Hp) as (r0 & Hr0 & _ & _ & Hlive). simplify_eq.
      destruct (decide (p.2 < env_now e)) as [|Hlt]; [done|].
      destruct Hlive as [Hrun _]; [lia|congruence]. }
  split; simpl in *; [done| | |done|done].
  - apply Forall_app. split; [|done]. apply Forall_forall.
    intros p (j & -> & ([i r'] & -> & Hq)%list_elem_of_fmap)%list_elem_of_fmap.
    destruct (Hin _ _ Hq) as (r & _ & _ & -> & Hr'). exists (claim_set e w iv r). by split_and!.
  - rewrite fmap_app. apply NoDup_app. split_and!; [| |done].
    + rewrite <-!list_fmap_compose. apply (NoDup_fmap_1 fst). rewrite <-list_fmap_compose.
      rewrite (list_fmap_ext _ fst) by done. rewrite Hrows. apply NoDup_sql_returning.
    + intros t (p & -> & (j & -> & ([i r'] & -> & Hq)%list_elem_of_fmap)%list_elem_of_fmap)%list_elem_of_fmap.
      intros (p & Ht & Hp)%list_elem_of_fmap. destruct (Hin _ _ Hq) as (r & Hr & _ & -> & _).
      rewrite Forall_forall in Hh. destruct (Hh _ Hp) as (r0 & Hr0 & Hle & _).
      unfold token in Ht. simpl in Ht. injection Ht as Hid Hat. rewrite <-Hid in Hr0.
      simplify_eq. lia.
Qed.

Lemma sys_inv_same_jobs s s' c now held :
  sys_inv (Sys s c held) → db_wf s' → c ≤ now → dead_letters s' = dead_letters s →
  (∀ id r, jobs s !! id = Some r → jobs s' !! id = Some r) →
  (∀ id r, jobs s' !! id = Some r → jobs s !! id = Some r ∨
     attempts_ok r ∧ id ∉ DL_JobID <$> dead_letters s) →
  sys_inv (Sys s' now held).
Proof.
  intros [_ Hh Hnd Ha Hl] Hwf' Hc Hdl Hsub Hnew. simpl in *. split; simpl; [done| |done| |].
  - eapply Forall_impl; [exact Hh|]. intros p Hp. pose proof Hp as (r & Hr & _).
    eapply held_ok_mono; [exact Hc| |done]. by rewrite Hr, (Hsub _ _ Hr).
  - intros id r [Hr|[Hok _]]%Hnew; by eauto.
  - intros id r Hr. rewrite Hdl. intros Hin. destruct (Hnew _ _ Hr) as [Hr0|[_ Hno]]; by eauto.
Qed.

Lemma sys_inv_submit ty pl tc e id s s' c held :
  sys_inv (Sys s c held) → c ≤ env_now e → stmt_enqueue ty pl tc e s = Ok (id, s') →
  sys_inv (Sys s' (env_now e) held).
Proof.
  intros Hinv Hc Hs. pose proof (inv_wf _ Hinv) as Hwf. simpl in Hwf.
  assert (db_wf s') as Hwf' by eauto with jq.
  apply stmt_enqueue_effect in Hs as (doc & k & _ & _ & _ & Hid & _ & _ & Hj & Hdl & _).
  assert (jobs s !! id = None) as Hfresh.
  { destruct (jobs s !! id) eqn:E; [|done]. apply (wf_job_ids _ Hwf) in E.
    unfold next_id in Hid. lia. }
  eapply sys_inv_same_jobs; [done..| |]; intros i r; rewrite Hj.
  - intros Hr. rewrite lookup_insert_ne; [done|]. intros <-. congruence.
  - rewrite lookup_insert_Some. intros [[<- <-]|[_ Hr]]; [|by left]. right.
    split; [done|]. intros (d & -> & Hd)%list_elem_of_fmap.
    pose proof (wf_letters _ Hwf) as Hlet. rewrite Forall_forall in Hlet.
    destruct (Hlet _ Hd) as (r & Hr & _). congruence.
Qed.

Lemma sys_inv_reap e nd s s' c held :
  sys_inv (Sys s c held) → c ≤ env_now e → stmt_reap e s = Ok (nd, s') →
  sys_inv (Sys s' (env_now e) held).
Proof.
  intros Hinv Hc Hs. pose proof (inv_wf _ Hinv) as Hwf. simpl in Hwf.
  assert (db_wf s') as Hwf' by eauto with jq.
  destruct nd as [n d]. apply stmt_reap_effect in Hs as (rows & _ & _ & Heff);
    [|by apply wf_letters_unique].
  pose proof Hinv as [_ Hh Hnd Ha Hl]. simpl in *. rewrite Forall_forall in Hh.
  eapply sys_inv_update; [done|done|done|done|done|done| |].
  - intros id r Hr [Hst _]%reap_where_expired. destruct (Ha _ _ Hr) as [Hle _].
    split_and!; [|simpl; lia|done| |].
    + split; simpl; [done|]. unfold exhausted. destruct (Z.leb_spec (r_max_attempts r) (r_attempts r)); [done|lia].
    + intros Hd. specialize (Hl _ _ Hr Hd). congruence.
    + unfold row_failed. by rewrite bool_decide_spec.
  - intros p r Hp Hr [Hst (t & Ht & Hlt)]%reap_where_expired.
    destruct (Hh _ Hp) as (r0 & Hr0 & _ & _ & Hlive). simplify_eq.
    destruct (decide (p.2 < env_now e)) as [|Hge]; [done|].
    destruct Hlive as (_ & _ & Hl'); [lia|]. simplify_eq. lia.
Qed.

Lemma sys_inv_step y y' : sys_inv y → sys_step y y' → sys_inv y'.
Proof.
  intros Hinv Hs. assert (db_wf (sy_db y')) as Hwf'.
  { destruct (sys_db_step _ _ Hs) as [->|Hd]; destruct Hinv; eauto with jq. }
  destruct Hs as [ty pl tc e id s s' c held Hc Hs|w lease limit iv e jl s s' c held Hc Hiv Hs
    |e j dl s s' c held held' Hc Hdl Hp Hs|e j dl t msg s s' c held held' Hc Hdl Hp Hlt Hs
    |e j dl msg s s' c held held' Hc Hdl Hp Hlt Hs|p s c held held' Hp
    |e nd s s' c held Hc Hs|ids e s s' c held Hc Hs]; simpl in *.
  - by eapply sys_inv_submit.
  - by eapply sys_inv_claim.
  - apply stmt_complete_effect in Hs. eapply sys_inv_report; [done..| |done].
    intros r _ _ [Hle _]. by split.
  - apply stmt_retry_effect in Hs as [_ Hs]. eapply sys_inv_report; [done..| |done].
    intros r Hat Hm [Hle _]. split; simpl; lia.
  - apply stmt_fail_effect in Hs as [_ Hs]; [|destruct Hinv as [[]]; done].
    eapply sys_inv_report; [done..| |done]. intros r _ _ [Hle _]. by split.
  - destruct Hinv as [Hwf Hh Hnd Ha Hl]. simpl in *. rewrite Hp in Hh, Hnd.
    apply Forall_cons in Hh as [_ Hh]. simpl in Hnd. apply NoDup_cons in Hnd as [_ Hnd]. by split.
  - by eapply sys_inv_reap.
  - apply stmt_mark_shipped_outbox in Hs as Hj. destruct Hj as [_ Hj]. injection Hs as <-.
    eapply sys_inv_same_jobs; [done..| |]; simpl; eauto.
Qed.

Lemma sys_inv_reachable y : sys_reachable y → sys_inv y.
Proof.
  intros Hr. apply (rtc_ind_r (R:=sys_step) sys_inv sys_empty); [| |done].
  - split; simpl; [by apply db_wf_empty|by constructor|by constructor| |]; intros ??;
      by rewrite lookup_empty.
  - intros y1 y2 _ Hs Hi. by eapply sys_inv_step.
Qed.

(** ** What the lease discipline guarantees *)

Definition terminal (r : job_row) : Prop :=
  r_status r = StatusCompleted ∨ r_status r = StatusFailed.

(** A statement whose WHERE clause takes running rows only leaves the others. *)
Lemma update_keeps_idle now P f ev dead msg rows s s' id r :
  update_effect now P f ev dead msg rows s s' → jobs s !! id = Some r → r_status r ≠ StatusRunning →
  (∀ r, jobs s !! id = Some r → P id r → r_status r = StatusRunning) →
  jobs s' !! id = Some r.
Proof.
  intros [_ Hj _ _ _ _] Hr Ht HP. rewrite Hj, lookup_sql_update, Hr. simpl.
  destruct (P id r) eqn:E; [|done]. apply Is_true_true in E. by destruct (Ht (HP _ Hr E)).
Qed.

(** A row that is not running is changed by a claim only, and then it was
    queued. *)
Lemma idle_step y y' id r :
  sys_inv y → sys_step y y' → jobs (sy_db y) !! id = Some r → r_status r ≠ StatusRunning →
  jobs (sy_db y') !! id = Some r ∨
  r_status r = StatusQueued ∧ ∃ e w iv, jobs (sy_db y') !! id = Some (claim_set e w iv r).
Proof.
  intros Hinv Hs Hr Ht. pose proof (wf_letters_unique _ (inv_wf _ Hinv)) as Hu.
  pose proof (wf_job_ids _ (inv_wf _ Hinv)) as Hids.
  assert (∀ e j dl s c held held', y = Sys s c held → c ≤ env_now e → env_now e ≤ dl →
    held ≡ₚ (j, dl) :: held' → ∀ r, jobs s !! id = Some r → by_id (Job_ID j) id r →
    r_status r = StatusRunning) as Hrep.
  { intros e j dl s c held held' -> Hc Hdl Hp r0 Hr0 Hid%Is_true_true%Z.eqb_eq.
    destruct (live_report _ _ _ _ _ _ e Hinv Hp Hc Hdl) as (r1 & Hr1 & Hst & _).
    by rewrite Hid in Hr1; simplify_eq. }
  destruct Hs as [ty pl tc e i s s' c held Hc Hs|w lease limit iv e jl s s' c held Hc Hiv Hs
    |e j dl s s' c held held' Hc Hdl Hp Hs|e j dl t msg s s' c held held' Hc Hdl Hp Hlt Hs
    |e j dl msg s s' c held held' Hc Hdl Hp Hlt Hs|p s c held held' Hp
    |e [n d] s s' c held Hc Hs|ids e s s' c held Hc Hs]; simpl in *.
  - left. apply stmt_enqueue_effect in Hs as (doc & k & _ & _ & _ & Hi & _ & _ & Hj & _).
    rewrite Hj, lookup_insert_ne; [done|]. intros <-. apply Hids in Hr. unfold next_id in Hi. lia.
  - apply stmt_claim_effect in Hs as (iv' & rows & _ & _ & _ & _ & _ & [_ Hj _ _ _ _]).
    rewrite Hj, lookup_sql_update, Hr. simpl. destruct (bool_decide _) eqn:E; [right|by left].
    apply Is_true_true in E. split; [by eapply claim_pred_queued|by eauto].
  - left. apply stmt_complete_effect in Hs. eapply update_keeps_idle; [done..|].
    by eapply (Hrep e j dl).
  - left. apply stmt_retry_effect in Hs as [_ Hs]. eapply update_keeps_idle; [done..|].
    by eapply (Hrep e j dl).
  - left. apply stmt_fail_effect in Hs as [_ Hs]; [|done]. eapply update_keeps_idle; [done..|].
    by eapply (Hrep e j dl).
  - by left.
  - left. apply stmt_reap_effect in Hs as (rows & _ & _ & Hs); [|done].
    eapply update_keeps_idle; [done..|]. by intros r0 _ [Hst _]%reap_where_expired.
  - left. by injection Hs as <-.
Qed.

Lemma terminal_step y y' id r :
  sys_inv y → sys_step y y' → jobs (sy_db y) !! id = Some r → terminal r →
  jobs (sy_db y') !! id = Some r.
Proof.
  intros Hinv Hs Hr Ht. destruct (idle_step _ _ _ _ Hinv Hs Hr) as [?|[Hq _]]; [|done|];
    destruct Ht; congruence.
Qed.

Lemma terminal_steps y y' id r :
  sys_inv y → rtc sys_step y y' → jobs (sy_db y) !! id = Some r → terminal r → jobs (sy_db y') !! id = Some r.
Proof.
  intros Hy Hs. induction Hs as [|y y1 y' Hs _ IH]; intros Hr Ht; [done|].
  apply IH; [by eapply sys_inv_step|by eapply terminal_step|done].
Qed.

(** C13. Under the lease discipline a job is attempted at most [max_attempts]
    times, counted in the outbox, a queued job always has an attempt left, and
    the dead letters are exactly the failed jobs. *)
Theorem lease_discipline y id r :
  sys_reachable y → jobs (sy_db y) !! id = Some r →
  Z.of_nat (claims_of id (outbox (sy_db y))) ≤ r_max_attempts r ∧
  (r_status r = StatusQueued → r_attempts r < r_max_attempts r) ∧
  (id ∈ DL_JobID <$> dead_letters (sy_db y) ↔ r_status r = StatusFailed).
Proof.
  intros Hy Hr. pose proof (sys_inv_reachable _ Hy) as [Hwf _ _ Ha Hl].
  destruct (Ha _ _ Hr) as [Hle Hlt]. split_and!; [|done|split; [by eauto|by eapply wf_failed]].
  pose proof (history_reachable _ (sys_reachable_db _ Hy)) as Hh.
  apply (replay_attempts _ _ _ id) in Hh. unfold attempts_in, abs_jobs in Hh.
  rewrite lookup_fmap, Hr, lookup_empty in Hh. simpl in Hh. lia.
Qed.

(** C14. Under the lease discipline terminal states are final: once a job is
    completed or failed, no later step of any worker, of the reaper or of the
    shipper changes any column of its row. *)
Theorem terminal_is_final y y' id r :
  sys_reachable y → rtc sys_step y y' → jobs (sy_db y) !! id = Some r → terminal r →
  jobs (sy_db y') !! id = Some r.
Proof.
  intros Hy%sys_inv_reachable. by apply terminal_steps.
Qed.

(** C15. Under the lease discipline the reaper is never blocked: at any time its
    call succeeds, after it no running job has an expired lease, and every job
    it took is queued again or failed. *)
Theorem reaper_never_blocked {Sp} (ctx : context Sp) y e :
  sys_reachable y → ctx_err ctx = None → env_fault e = None → reap_room e (sy_db y) →
  ∃ nd s', ReapExpiredLeases ctx e (sy_db y) = (Ok nd, s') ∧
    ∀ id r, jobs (sy_db y) !! id = Some r → expired e r →
      ∃ r', jobs s' !! id = Some r' ∧ ¬ expired e r' ∧
        (r_status r' = StatusQueued ∧ r_attempts r' < r_max_attempts r' ∨
         r_status r' = StatusFailed ∧ id ∈ DL_JobID <$> dead_letters s').
Proof.
  intros Hy Hc Hf Hroom. pose proof (sys_inv_reachable _ Hy) as Hinv.
  destruct (stmt_reap_unblocked e (sy_db y) Hroom) as (nd & s' & Hs).
  { intros id r Hr [Hst _] _ Hd. pose proof (inv_letters _ Hinv _ _ Hr Hd). congruence. }
  exists nd, s'. split; [by apply run_stmt_quiet|].
  assert (db_wf s') as Hwf' by (eapply db_wf_step; [apply Hinv|by eapply step_reap]).
  destruct nd as [n d]. apply stmt_reap_effect in Hs as (rows & _ & _ & [_ Hj _ _ _ _]);
    [|apply wf_letters_unique, Hinv].
  intros id r Hr Hx. exists (reap_set e r).
  assert (jobs s' !! id = Some (reap_set e r)) as Hr'.
  { rewrite Hj, lookup_sql_update, Hr. simpl. apply (reap_where_expired e id) in Hx.
    by rewrite (Is_true_eq_true _ Hx). }
  split_and!; [done| |].
  - intros [Hst _]. simpl in Hst. by destruct (exhausted r).
  - pose proof (wf_failed _ Hwf' _ _ Hr') as Hfail. simpl in *. unfold exhausted in *.
    destruct (Z.leb_spec (r_max_attempts r) (r_attempts r)); [right|left]; by auto.
Qed.

End lifecycle.

(** ** The discipline on a concrete run *)

(** One job submitted at second 0 and claimed at second 1 for 30 seconds. *)
Definition demo_job : Job := MkJob 1 "sum_numbers" "[1]" 1 5 "".
Definition demo_sys : sys := Sys demo_running (sec 1) [(demo_job, sec 31)].
Definition demo_sys_done : sys := Sys demo_completed (sec 2) [].

Lemma demo_sys_reachable : sys_reachable demo_sys.
Proof.
  eapply rtc_l; [apply (sys_submit "sum_numbers" "[1]" "" (quiet 0) 1 _ demo_enqueued);
                 [done|reflexivity]|].
  apply rtc_once. eapply (sys_claim "worker-0" (30 * Second) 1 (sec 30) (quiet (sec 1)) [demo_job]
    demo_enqueued demo_running 0 []); [done|reflexivity|reflexivity].
Qed.

Lemma demo_sys_done_reachable : sys_reachable demo_sys_done.
Proof.
  eapply rtc_r; [apply demo_sys_reachable|].
  by apply (sys_complete (quiet (sec 2)) demo_job (sec 31)).
Qed.

Lemma lease_discipline_witness :
  Z.of_nat (claims_of 1 (outbox (sy_db demo_sys))) ≤ 5.
Proof.
  destruct demo_running_job as [r Hr].
  destruct (lease_discipline demo_sys 1 r demo_sys_reachable Hr) as [H _].
  assert (r_max_attempts r = 5) as <-; [|exact H]. clear H.
  vm_compute in Hr. by injection Hr as <-.
Defined.

Lemma terminal_is_final_witness :
  ∃ y' r, sys_step demo_sys_done y' ∧ jobs (sy_db y') !! 1 = Some r ∧ r_status r = StatusCompleted.
Proof.
  destruct (jobs demo_completed !! 1) as [r|] eqn:Hr; [|by vm_compute in Hr].
  assert (r_status r = StatusCompleted) as Hst by (vm_compute in Hr; by injection Hr as <-).
  destruct (stmt_mark_shipped [1] (quiet (sec 3)) demo_completed) as [[[] s']|] eqn:Es;
    [|discriminate Es].
  assert (sys_step demo_sys_done (Sys s' (sec 3) [])) as Hs
    by (by eapply (sys_ship [1] (quiet (sec 3)))).
  exists (Sys s' (sec 3) []), r. split; [done|]. split; [|done].
  apply (terminal_is_final demo_sys_done _ 1 r demo_sys_done_reachable (rtc_once _ _ Hs) Hr).
  by left.
Defined.

Lemma reaper_never_blocked_witness :
  ∃ nd s', ReapExpiredLeases bg (quiet (sec 60)) demo_running = (Ok nd, s').
Proof.
  destruct (reaper_never_blocked bg demo_sys (quiet (sec 60)) demo_sys_reachable eq_refl eq_refl)
    as (nd & s' & H & _); [by vm_compute|]. by exists nd, s'.
Defined.
