(* ===== verification/Ledger.v ===== *)
(** * The ledger of the outbox

    Under the lease discipline of [Lifecycle] the log is stricter than
    [History] requires: a worker reports only on a running job.  So every job
    goes through the textbook state machine, its events can be counted from its
    row, and the whole log balances: what was enqueued and has not ended is
    what waits or runs. *)

From stdpp Require Import prelude gmap strings list relations sorting.
From S2P Require Import Prelude GoBase Job Store StoreFacts Steps Claim Invariant History.
From S2P Require Import StoreSpec Lifecycle Demo.
#[local] Open Scope jq_scope.

(** ** The strict machine *)

(** The events of a worker's reports. *)
Definition reported (t : EventType) : bool :=
  match t with EventCompleted | EventRetried | EventFailed => true | _ => false end.

(** A report is legal for a running job only. *)
Definition strict_step (t : EventType) (ty : string) (n : Z) (o : option hist) : option hist :=
  match o with
  | Some h => if reported t && negb (bool_decide (h_status h = StatusRunning)) then None else hist_step t ty n o
  | None => hist_step t ty n o
  end.

(** The events that end a job. *)
Definition ending (t : EventType) : bool :=
  match t with EventCompleted | EventFailed | EventReapedFailed => true | _ => false end.

(** The transitions of the strict machine. *)
Lemma strict_step_inv t ty n o h :
  strict_step t ty n o = Some h →
  match o with
  | None => t = EventEnqueued ∧ h_status h = StatusQueued ∧ h_attempts h = 0
  | Some h0 =>
      t = EventClaimed ∧ h_status h0 = StatusQueued ∧ h_status h = StatusRunning ∧
        h_attempts h = h_attempts h0 + 1 ∨
      (t ≠ EventClaimed ∧ t ≠ EventEnqueued) ∧ h_status h0 = StatusRunning ∧
        h_status h = (if bool_decide (t = EventCompleted) then StatusCompleted
                      else if ending t then StatusFailed else StatusQueued) ∧
        h_attempts h = h_attempts h0
  end.
Proof.
  unfold strict_step. destruct o as [[ty0 st a]|].
  - destruct t, st; simpl; try done; case_decide as Hd; try done; destruct Hd as [-> ->];
      intros [= <-]; simpl; auto 10.
  - destruct t; simpl; try done. case_decide; [|done]. intros [= <-]. auto.
Qed.

(** ** Totals over the jobs *)

Definition total (f : hist → Z) (m : gmap Z hist) : Z := map_fold (λ _ h acc, f h + acc) 0 m.

Lemma total_fresh f m k h : m !! k = None → total f (<[k := h]> m) = f h + total f m.
Proof. intros Hm. unfold total. rewrite map_fold_insert_L; [done| |done]. intros. lia. Qed.

Lemma total_insert f m k h : total f (<[k := h]> m) = total f m + f h - from_option f 0 (m !! k).
Proof.
  destruct (m !! k) as [h0|] eqn:E; simpl; [|rewrite total_fresh by done; lia].
  rewrite <-insert_delete_eq, total_fresh by apply lookup_delete_eq.
  unfold total. rewrite (map_fold_delete_L _ _ k h0 m); [lia| |done]. intros. lia.
Qed.

Lemma total_le f g m : (∀ k h, m !! k = Some h → f h ≤ g h) → total f m ≤ total g m.
Proof.
  induction m as [|k h m Hk IH] using map_ind; [done|]. intros Hle. rewrite !total_fresh by done.
  pose proof (Hle k h (lookup_insert_eq _ _ _)). etrans; [apply Z.add_le_mono_l, IH|lia].
  intros k' h' Hk'. apply (Hle k'). rewrite lookup_insert_ne; [done|]. intros <-. congruence.
Qed.

Lemma total_const c m : total (λ _, c) m = c * Z.of_nat (size m).
Proof.
  induction m as [|k h m Hk IH] using map_ind; [unfold total; rewrite map_fold_empty, map_size_empty; lia|].
  rewrite total_fresh, IH, map_size_insert_None by done. lia.
Qed.

Lemma total_nonneg f m : (∀ h, 0 ≤ f h) → 0 ≤ total f m.
Proof.
  intros Hf. pose proof (total_const 0 m) as H0. rewrite Z.mul_0_l in H0. rewrite <-H0. apply total_le. auto.
Qed.

(** The sum of a value of the events, over all jobs or over one. *)
Definition tally (g : EventType → Z) (l : list Event) : Z := foldr (λ ev acc, g (Event_EventType ev) + acc) 0 l.
Definition tally_of (id : Z) (g : EventType → Z) (l : list Event) : Z :=
  tally g (filter (λ ev, JobID ev = id) l).

Lemma tally_app g l l' : tally g (l ++ l') = tally g l + tally g l'.
Proof. induction l as [|ev l IH]; [done|]. simpl. rewrite IH. lia. Qed.

(** If every transition changes the value of a job by the value of the event,
    the log accounts for the table, job by job and in total. *)
Lemma balanced (f : hist → Z) (g : EventType → Z) l m m' :
  (∀ t ty n o h, strict_step t ty n o = Some h → f h = from_option f 0 o + g t) →
  replay_with strict_step l m = Some m' →
  total f m' = total f m + tally g l ∧
  ∀ id, from_option f 0 (m' !! id) = from_option f 0 (m !! id) + tally_of id g l.
Proof.
  intros Hf. revert m. induction l as [|ev l IH]; intros m; simpl.
  - intros [= ->]. split; [simpl; lia|]. intros id. unfold tally_of. simpl. lia.
  - intros (m1 & Hm & Hr)%bind_Some. destruct (IH _ Hr) as [-> Hid].
    unfold apply_with in Hm. apply bind_Some in Hm as (h & Hh & [= <-]). apply Hf in Hh.
    split; [rewrite total_insert; lia|]. intros id. rewrite Hid. unfold tally_of. rewrite filter_cons.
    destruct (decide (JobID ev = id)) as [<-|Hne].
    + rewrite lookup_insert_eq. simpl. lia.
    + by rewrite lookup_insert_ne.
Qed.

(** ** The disciplined log *)

Section ledger.
Context {Pg : Postgres}.
Implicit Types (e : stmt_env) (s : db) (y : sys).

Lemma report_strict t e j dl s c held held' f msg :
  sys_inv (Sys s c held) → held ≡ₚ (j, dl) :: held' → c ≤ env_now e → env_now e ≤ dl →
  next_status t StatusRunning = Some (r_status (f (enqueue_row e "" "" ""))) →
  (∀ r, r_type (f r) = r_type r ∧ r_attempts (f r) = r_attempts r ∧
        r_status (f r) = r_status (f (enqueue_row e "" "" ""))) → t ≠ EventEnqueued → t ≠ EventClaimed →
  ∀ id r, jobs s !! id = Some r → by_id (Job_ID j) id r →
    strict_step (ne_event_type (outcome_event t msg (id, f r))) (ne_job_type (outcome_event t msg (id, f r)))
      (ne_attempts (outcome_event t msg (id, f r))) (Some (hist_of r)) = Some (hist_of (f r)).
Proof.
  intros Hinv Hp Hc Hdl Hst Hf Ht Ht' id r Hr Hid%Is_true_true%Z.eqb_eq.
  destruct (live_report _ _ _ _ _ _ e Hinv Hp Hc Hdl) as (r1 & Hr1 & Hrun & _).
  rewrite Hid in Hr1. simplify_eq. destruct (Hf r) as (H1 & H2 & H3). unfold strict_step, hist_of. simpl.
  rewrite Hrun, H1, H2, H3. rewrite bool_decide_true by done. rewrite andb_false_r.
  destruct t; try done; simpl in *; injection Hst as <-; by rewrite decide_True.
Qed.

Lemma strict_append y y' :
  sys_inv y → sys_step y y' →
  ∃ l, outbox (sy_db y') = outbox (sy_db y) ++ l ∧
    replay_with strict_step l (abs_jobs (sy_db y)) = Some (abs_jobs (sy_db y')).
Proof.
  intros Hinv Hs. pose proof (inv_wf _ Hinv) as Hwf. pose proof (wf_letters_unique _ Hwf) as Hu.
  destruct Hs as [ty pl tc e id s s' c held Hc Hs|w lease limit iv e jl s s' c held Hc Hiv Hs
    |e j dl s s' c held held' Hc Hdl Hp Hs|e j dl t msg s s' c held held' Hc Hdl Hp Hlt Hs
    |e j dl msg s s' c held held' Hc Hdl Hp Hlt Hs|p s c held held' Hp
    |e [n d] s s' c held Hc Hs|ids e s s' c held Hc Hs]; simpl in *.
  - by eapply (enqueue_history strict_step).
  - apply stmt_claim_effect in Hs as (iv' & rows & _ & _ & _ & _ & _ & Heff).
    eapply (update_effect_replay strict_step); [exact Heff|done|]. intros id r Hr HP. simpl.
    rewrite (claim_pred_queued _ _ _ _ _ Hr HP). simpl. by rewrite decide_True.
  - apply stmt_complete_effect in Hs. eapply (update_effect_replay strict_step); [exact Hs|done|].
    by apply (report_strict EventCompleted e j dl s c held held').
  - apply stmt_retry_effect in Hs as [_ Hs]. eapply (update_effect_replay strict_step); [exact Hs|done|].
    by apply (report_strict EventRetried e j dl s c held held').
  - apply stmt_fail_effect in Hs as [_ Hs]; [|done]. eapply (update_effect_replay strict_step); [exact Hs|done|].
    by apply (report_strict EventFailed e j dl s c held held').
  - exists []. by rewrite app_nil_r.
  - apply stmt_reap_effect in Hs as (rows & _ & _ & Hs); [|done].
    eapply (update_effect_replay strict_step); [exact Hs|done|]. intros id r _ [Hst _]%reap_where_expired.
    rewrite <-(reap_event_legal e id r Hst). unfold strict_step, reap_event, row_failed. simpl.
    by destruct (exhausted r).
  - exists []. apply stmt_mark_shipped_outbox in Hs as [Ho Hj].
    rewrite app_nil_r. split; [done|]. simpl. unfold abs_jobs. by rewrite Hj.
Qed.

Lemma strict_reachable y :
  sys_reachable y → replay_with strict_step (outbox (sy_db y)) ∅ = Some (abs_jobs (sy_db y)).
Proof.
  intros Hr. apply (rtc_ind_r (R:=sys_step) (λ y, replay_with strict_step (outbox (sy_db y)) ∅
    = Some (abs_jobs (sy_db y))) sys_empty); [done| |done].
  intros y1 y2 H1 Hs IH. apply (strict_append _ _ (sys_inv_reachable _ H1)) in Hs as (l & -> & Hl).
  by rewrite replay_app, IH.
Qed.

(** The events a job in a given state has had. *)
Definition entries (h : hist) : Z := 2 * h_attempts h + (if decide (h_status h = StatusRunning) then 0 else 1).
Definition ended_value (h : hist) : Z :=
  if decide (h_status h = StatusCompleted ∨ h_status h = StatusFailed) then 1 else 0.
Definition live_value (h : hist) : Z :=
  if decide (h_status h = StatusQueued ∨ h_status h = StatusRunning) then 1 else 0.

Definition one (t : EventType) : Z := 1.
Definition ending_value (t : EventType) : Z := if ending t then 1 else 0.
Definition net_value (t : EventType) : Z :=
  (if decide (t = EventEnqueued) then 1 else 0) - ending_value t.

Lemma values_step t ty n o h :
  strict_step t ty n o = Some h →
  entries h = from_option entries 0 o + one t ∧
  ended_value h = from_option ended_value 0 o + ending_value t ∧
  live_value h = from_option live_value 0 o + net_value t.
Proof.
  intros Hs%strict_step_inv. unfold entries, ended_value, live_value, one, ending_value, net_value.
  destruct o as [h0|]; simpl.
  - destruct Hs as [(-> & E0 & E & Ea)|([Hc He] & E0 & E & Ea)]; rewrite E0, E, Ea; simpl;
      [repeat case_decide; naive_solver lia|].
    destruct t; try done; simpl; repeat case_decide; naive_solver lia.
  - destruct Hs as (-> & -> & ->). done.
Qed.

Lemma tally_count (P : EventType → bool) l :
  tally (λ t, if P t then 1 else 0) l = Z.of_nat (length (filter (λ ev, P (Event_EventType ev)) l)).
Proof.
  induction l as [|ev l IH]; [done|]. simpl. rewrite IH, filter_cons.
  case_decide as H; destruct (P _); simpl; try done; lia.
Qed.

Lemma tally_one l : tally one l = Z.of_nat (length l).
Proof. induction l as [|ev l IH]; [done|]. simpl. rewrite IH. unfold one. lia. Qed.

(** The events of a job, and those that ended it. *)
Definition events_of (id : Z) s : list Event := filter (λ ev, JobID ev = id) (outbox s).
Definition endings (l : list Event) : list Event := filter (λ ev, ending (Event_EventType ev)) l.

(** At most eleven events for each job. *)
Lemma outbox_bounded y :
  sys_reachable y → Z.of_nat (length (outbox (sy_db y))) ≤ 11 * Z.of_nat (size (jobs (sy_db y))).
Proof.
  intros Hy. pose proof (strict_reachable _ Hy) as Hs. pose proof (inv_attempts _ (sys_inv_reachable _ Hy)) as Ha.
  destruct (balanced entries one _ _ _ (λ t ty n o h H, proj1 (values_step t ty n o h H)) Hs) as [Ht _].
  rewrite tally_one in Ht. replace (total entries ∅) with 0 in Ht by done.
  assert (size (abs_jobs (sy_db y)) = size (jobs (sy_db y))) as Hsize by apply map_size_fmap.
  rewrite <-Hsize, <-total_const. rewrite Z.add_0_l in Ht. rewrite <-Ht. apply total_le.
  intros k h. unfold abs_jobs. rewrite lookup_fmap. intros (r & Hr & ->)%fmap_Some.
  pose proof (reachable_max_attempts _ _ _ (sys_reachable_db _ Hy) Hr) as Hm. destruct (Ha _ _ Hr) as [Hle _].
  unfold entries. simpl. case_decide; lia.
Qed.

(** C19. Every job comes to rest: under the lease discipline a job's log is as long
    as its row says, one event for the submission, one for each claim and one
    for each attempt that is over, so at most twice [max_attempts] and one; it
    has an ending exactly when its row is terminal, and then one; and in any
    run of any length the whole log has at most eleven events for each job
    ever submitted, so between submissions only boundedly many statements
    change anything. *)
Theorem event_ledger y :
  sys_reachable y →
  (∀ id r, jobs (sy_db y) !! id = Some r →
     Z.of_nat (length (events_of id (sy_db y)))
       = 2 * r_attempts r + (if decide (r_status r = StatusRunning) then 0 else 1) ∧
     Z.of_nat (length (events_of id (sy_db y))) ≤ 2 * r_max_attempts r + 1 ∧
     Z.of_nat (length (endings (events_of id (sy_db y))))
       = (if decide (r_status r = StatusCompleted ∨ r_status r = StatusFailed) then 1 else 0)) ∧
  Z.of_nat (length (outbox (sy_db y))) ≤ 11 * Z.of_nat (size (jobs (sy_db y))).
Proof.
  intros Hy. pose proof (strict_reachable _ Hy) as Hs. pose proof (inv_attempts _ (sys_inv_reachable _ Hy)) as Ha.
  destruct (balanced entries one _ _ _ (λ t ty n o h H, proj1 (values_step t ty n o h H)) Hs) as [_ Hid].
  destruct (balanced ended_value ending_value _ _ _ (λ t ty n o h H, proj1 (proj2 (values_step t ty n o h H))) Hs)
    as [_ He]. split.
  - intros id r Hr. specialize (Hid id). specialize (He id). unfold abs_jobs in Hid, He.
    rewrite lookup_fmap, Hr, lookup_empty in Hid, He. cbn in Hid, He.
    unfold tally_of, ending_value in *. rewrite tally_one in Hid. rewrite tally_count in He.
    fold (events_of id (sy_db y)) in Hid, He. unfold entries, ended_value in *. cbn in Hid, He.
    destruct (Ha _ _ Hr) as [Hle _]. unfold endings. split_and!; [lia| |lia].
    destruct (decide (r_status r = StatusRunning)); lia.
  - by apply outbox_bounded.
Qed.

End ledger.

(** ** A finished job *)

Lemma event_ledger_witness :
  Z.of_nat (length (events_of 1 demo_completed)) = 3 ∧
  Z.of_nat (length (endings (events_of 1 demo_completed))) = 1.
Proof.
  destruct (event_ledger demo_sys_done demo_sys_done_reachable) as [H _].
  destruct demo_completed_job as (r & Hr & Hst & Ha & _).
  destruct (H 1 r Hr) as (H1 & _ & H2). rewrite Hst, Ha in H1. rewrite Hst in H2.
  split; [exact H1|exact H2].
Defined.
