(* ===== verification/Verdicts.v ===== *)
(** * Verdicts

    What the outbox says about the handlers: a [completed] event stands for a
    run that succeeded, a [retried] or [failed] event for one that did not.
    Each report of a worker writes at most one verdict, and no other statement
    writes any. *)

From stdpp Require Import prelude gmap strings list relations sorting.
From S2P Require Import Prelude GoBase Job Store StoreFacts Steps Claim Invariant History.
#[local] Open Scope jq_scope.

(** A job, and whether its handler succeeded. *)
Definition verdict (t : EventType) (id : Z) : option (Z * bool) :=
  match t with
  | EventCompleted => Some (id, true)
  | EventRetried | EventFailed => Some (id, false)
  | _ => None
  end.

Definition verdict_of (ev : Event) : option (Z * bool) := verdict (Event_EventType ev) (JobID ev).
Definition new_verdict (n : new_event) : option (Z * bool) := verdict (ne_event_type n) (ne_job_id n).

Definition verdicts (s : db) : list (Z * bool) := omap verdict_of (outbox s).

Section verdicts.
Context {Pg : Postgres}.
Implicit Types (e : stmt_env) (s : db).

Lemma verdicts_app s s' l :
  job_events s' = job_events s ++ l → verdicts s' = verdicts s ++ omap verdict_of (ev_event <$> l).
Proof. intros H. unfold verdicts, outbox. by rewrite H, fmap_app, omap_app. Qed.

Lemma number_events_verdicts now k l :
  omap verdict_of (ev_event <$> number_events now k l) = omap new_verdict l.
Proof.
  revert k. induction l as [|n l IH]; intros k; [done|].
  cbn [number_events fmap list_fmap omap list_omap]. by rewrite IH.
Qed.

Lemma update_effect_silent now P f ev dead msg rows s s' :
  update_effect now P f ev dead msg rows s s' →
  (∀ p, new_verdict (ev p) = None) → verdicts s' = verdicts s.
Proof.
  intros [_ _ _ (k & Hev & _) _ _] Hs. rewrite (verdicts_app _ _ _ Hev), number_events_verdicts, omap_none, app_nil_r; [done|].
  intros n (p & -> & _)%list_elem_of_fmap. apply Hs.
Qed.

(** A statement that matches a row by id, and reports the verdict [v]. *)
Lemma report_effect_verdicts now id f ev dead msg s s' v :
  update_effect now (by_id id) f ev dead msg (sql_returning (by_id id) f (jobs s)) s s' →
  (∀ r, new_verdict (ev (id, r)) = Some v) → verdicts s' ⊆+ v :: verdicts s.
Proof.
  intros [_ _ _ (k & Hev & _) _ _] Hv. rewrite (verdicts_app _ _ _ Hev), number_events_verdicts, sql_returning_by_id.
  destruct (jobs s !! id) as [r|]; cbn [fmap list_fmap omap list_omap].
  - rewrite Hv. by rewrite Permutation_app_comm.
  - rewrite app_nil_r. by apply submseteq_cons.
Qed.

Lemma enqueue_verdicts ty pl tc e s id s' :
  stmt_enqueue ty pl tc e s = Ok (id, s') → verdicts s' = verdicts s.
Proof.
  intros (doc & k & _ & _ & _ & _ & _ & _ & _ & _ & _ & Hev & _)%stmt_enqueue_effect.
  by rewrite (verdicts_app _ _ _ Hev), app_nil_r.
Qed.

Lemma claim_verdicts w lease limit e s jl s' :
  stmt_claim w lease limit e s = Ok (jl, s') → verdicts s' = verdicts s.
Proof.
  intros (iv & rows & _ & _ & _ & _ & _ & H)%stmt_claim_effect. by eapply update_effect_silent.
Qed.

Lemma reap_verdicts e s nd s' :
  db_wf s → stmt_reap e s = Ok (nd, s') → verdicts s' = verdicts s.
Proof.
  destruct nd as [n d]. intros Hwf (rows & _ & _ & H)%stmt_reap_effect; [|by apply wf_letters_unique].
  eapply update_effect_silent; [exact H|]. intros p. unfold reap_event. by destruct (row_failed p).
Qed.

Lemma mark_verdicts ids e s u s' : stmt_mark_shipped ids e s = Ok (u, s') → verdicts s' = verdicts s.
Proof. intros [Ho _]%stmt_mark_shipped_outbox. unfold verdicts. by rewrite Ho. Qed.

Lemma complete_verdicts id e s u s' :
  stmt_complete id e s = Ok (u, s') → verdicts s' ⊆+ (id, true) :: verdicts s.
Proof. intros H%stmt_complete_effect. by eapply report_effect_verdicts. Qed.

Lemma retry_verdicts id t msg e s u s' :
  stmt_retry id t msg e s = Ok (u, s') → verdicts s' ⊆+ (id, false) :: verdicts s.
Proof. intros [_ H]%stmt_retry_effect. by eapply report_effect_verdicts. Qed.

Lemma fail_verdicts id msg e s u s' :
  db_wf s → stmt_fail id msg e s = Ok (u, s') → verdicts s' ⊆+ (id, false) :: verdicts s.
Proof. intros Hwf [_ H]%stmt_fail_effect; [by eapply report_effect_verdicts|by apply wf_letters_unique]. Qed.

End verdicts.

(** ** Statuses and verdicts *)

(** A replayed log that leaves a job completed has a verdict for it; one that
    leaves it failed has a verdict or an event of the reaper. *)
Definition reaped_failed (id : Z) (l : list Event) : Prop :=
  ∃ ev, ev ∈ l ∧ JobID ev = id ∧ Event_EventType ev = EventReapedFailed.

Definition explained (l : list Event) (id : Z) (st : Status) : Prop :=
  match st with
  | StatusCompleted => (id, true) ∈ omap verdict_of l
  | StatusFailed => (id, false) ∈ omap verdict_of l ∨ reaped_failed id l
  | _ => True
  end.

Lemma explained_app l l' id st : explained l id st → explained (l ++ l') id st.
Proof.
  destruct st; simpl; rewrite ?omap_app, ?elem_of_app; [done|done|by left|].
  intros [H|(ev & Hev & H)]; [by left; left|]. right. exists ev. split; [apply elem_of_app; by left|done].
Qed.

(** The event that set a status explains it. *)
Lemma next_status_explains ev st st' :
  next_status (Event_EventType ev) st = Some st' → explained [ev] (JobID ev) st'.
Proof.
  unfold next_status, explained, verdict_of, verdict, reaped_failed. simpl. intros H.
  destruct (Event_EventType ev) eqn:E; destruct st; simplify_eq/=; try done;
    try (left; done); try (left; left; done).
  all: right; exists ev; split_and!; [by left|done|done].
Qed.

Lemma replay_explained l m id h :
  replay l ∅ = Some m → m !! id = Some h → explained l id (h_status h).
Proof.
  revert m id h. induction l as [|ev l IH] using rev_ind; intros m id h.
  { intros [= <-] H. by rewrite lookup_empty in H. }
  rewrite replay_app. intros (m1 & Hm1 & (m2 & Hev & [= ->])%bind_Some)%bind_Some Hm.
  unfold apply_with in Hev. apply bind_Some in Hev as (h' & Hh & [= <-]).
  apply lookup_insert_Some in Hm as [[<- ->]|[_ Hm]]; [|by eapply explained_app, IH].
  unfold hist_step in Hh. destruct (m1 !! JobID ev) as [h1|].
  - assert (next_status (Event_EventType ev) (h_status h1) = Some (h_status h)) as Hst.
    { destruct (Event_EventType ev); apply bind_Some in Hh as (st & Hst & Hh); case_decide; by simplify_eq/=. }
    apply next_status_explains in Hst. unfold explained in *. destruct (h_status h); try done.
    + rewrite omap_app, elem_of_app. by right.
    + rewrite omap_app, elem_of_app. destruct Hst as [Hst|(ev' & Hin & Hst)]; [by left; right|].
      right. exists ev'. split; [apply elem_of_app; by right|done].
  - destruct (Event_EventType ev); try done. case_decide; simplify_eq. done.
Qed.

(** A terminal row has its explanation in the outbox. *)
Lemma terminal_explained `{Postgres} s id r :
  reachable s → jobs s !! id = Some r → explained (outbox s) id (r_status r).
Proof.
  intros Hr%history_reachable Hid. apply (replay_explained _ _ id (hist_of r) Hr).
  unfold abs_jobs. by rewrite lookup_fmap, Hid.
Qed.
