(* ===== verification/Progress.v ===== *)
(** * No job is stuck

    From every state of the queue under the lease discipline, whatever crashed
    and whoever holds what, the steps the program itself takes (a reap, claims
    of one job, completions) bring any given job to an end. *)

From stdpp Require Import prelude gmap strings list relations sorting.
From S2P Require Import Prelude GoBase Job Store StoreFacts Steps Claim Invariant History.
From S2P Require Import StoreSpec Lifecycle Ledger Demo.
#[local] Open Scope jq_scope.

(** ** Statements on a quiet server *)

Lemma insert_job_events_quiet now l s s' :
  insert_job_events (quiet now) l s = Ok s' → next_event s' = next_event s + Z.of_nat (length l).
Proof.
  unfold insert_job_events, next_id. destruct l as [|n l]; [intros [= <-]; simpl; lia|].
  intros (? & _ & [= <-])%bind_result_ok. simpl. lia.
Qed.

(** Rows that wait. *)
Definition queued_value (h : hist) : Z := if decide (h_status h = StatusQueued) then 1 else 0.
Definition waiting (s : db) : Z := total queued_value (abs_jobs s).

Lemma queued_value_nonneg h : 0 ≤ queued_value h.
Proof. unfold queued_value. case_decide; lia. Qed.

Lemma waiting_le s : waiting s ≤ Z.of_nat (size (jobs s)).
Proof.
  unfold waiting. rewrite <-(map_size_fmap hist_of (jobs s)). fold (abs_jobs s).
  rewrite <-(Z.mul_1_l (Z.of_nat _)), <-total_const. apply total_le.
  intros k h _. unfold queued_value. case_decide; lia.
Qed.

Lemma waiting_queued s id r : jobs s !! id = Some r → r_status r = StatusQueued → 1 ≤ waiting s.
Proof.
  intros Hr Hst. unfold waiting. pose (h := Hist "" StatusRunning 0).
  pose proof (total_insert queued_value (abs_jobs s) id h) as Ht.
  unfold abs_jobs in Ht at 3. rewrite lookup_fmap, Hr in Ht. cbn in Ht.
  pose proof (total_nonneg queued_value (<[id := h]> (abs_jobs s)) queued_value_nonneg).
  assert (queued_value h = 0 ∧ queued_value (hist_of r) = 1) as [? ?]; [|lia].
  split; [done|]. unfold queued_value. simpl. by rewrite Hst.
Qed.

Section progress.
Context {Pg : Postgres}.
Context (w : string) (lease iv now : Z).
Context (Hw : text_ok w = true) (Hiv : interval_in (Duration_String lease) = Some iv) (Hpos : 0 ≤ iv).
Implicit Types (s : db) (y : sys).

(** A claim of one job, when one is due. *)
Lemma claim_one_quiet s id r :
  (∀ id r, jobs s !! id = Some r → r_attempts r < max_int4) → next_event s + 1 ≤ max_int64 →
  jobs s !! id = Some r → r_status r = StatusQueued → r_run_after r ≤ now →
  ∃ i q s', jobs s !! i = Some q ∧ r_status q = StatusQueued ∧
    stmt_claim w lease 1 (quiet now) s = Ok ([job_of_row (i, claim_set (quiet now) w iv q)], s') ∧
    jobs s' = <[i := claim_set (quiet now) w iv q]> (jobs s) ∧ next_event s' = next_event s + 1.
Proof.
  intros Hatt Hroom Hr Hst Hdue.
  destruct (stmt_claim_ok (quiet now) w lease 1 s iv) as (jl & s' & Hok); [done..|unfold next_id; simpl; lia|].
  assert (length (claim_select (quiet now) 1 s) = 1%nat) as Hlen.
  { rewrite length_claim_select.
    assert ((id, r) ∈ claim_eligible (quiet now) s) as Hin by (by apply elem_of_claim_eligible).
    destruct (claim_eligible (quiet now) s); [by apply not_elem_of_nil in Hin|]. simpl. lia. }
  destruct (claim_select (quiet now) 1 s) as [|[i q] [|]] eqn:Esel; simplify_eq/=.
  assert (eligible (quiet now) s i q) as (Hq & Hqst & _).
  { apply (elem_of_claim_select (quiet now) 1 s (i, q)). rewrite Esel. by left. }
  exists i, q, s'. split; [done|]. split; [done|].
  assert (sql_returning (λ id _, bool_decide (id ∈ (claim_select (quiet now) 1 s).*1))
    (claim_set (quiet now) w iv) (jobs s) = [(i, claim_set (quiet now) w iv q)]) as Hret.
  { apply Permutation_singleton_r. rewrite claim_returning, Esel. done. }
  pose proof Hok as Hok'. unfold stmt_claim in Hok'. rewrite Hiv, Hw in Hok'. cbn [of_option bind_result check] in Hok'.
  apply bind_result_ok in Hok' as (? & _ & Hok'). cbn zeta in Hok'.
  change (env_plan (quiet now) ?l) with l in Hok'. rewrite Hret in Hok'.
  apply bind_result_ok in Hok' as (? & _ & Hok').
  apply bind_result_ok in Hok' as (s1 & Hins & [= Ejl Es']). subst s1 jl.
  split; [exact Hok|]. apply insert_job_events_quiet in Hins as Hn.
  apply insert_job_events_ok in Hins as (k & _ & Hj & _). split; [|exact Hn].
  rewrite Hj. cbn [jobs with_jobs]. apply map_eq. intros k'. rewrite lookup_sql_update, Esel. simpl.
  destruct (decide (k' = i)) as [->|Hne].
  - rewrite Hq, lookup_insert_eq. simpl. rewrite bool_decide_true by (by left). done.
  - rewrite lookup_insert_ne by done. rewrite bool_decide_false by (by rewrite list_elem_of_singleton).
    by destruct (jobs s !! k').
Qed.

Lemma complete_quiet s id r :
  next_event s + 1 ≤ max_int64 → jobs s !! id = Some r →
  ∃ s', stmt_complete id (quiet now) s = Ok (tt, s') ∧
    jobs s' = <[id := complete_set (quiet now) r]> (jobs s) ∧ next_event s' = next_event s + 1.
Proof.
  intros Hroom Hr. unfold stmt_complete. rewrite sql_returning_by_id, Hr, (sql_update_by_id _ _ _ _ Hr).
  edestruct (insert_job_events_room (quiet now)) as (s' & Hs').
  2:{ exists s'. rewrite Hs'. split; [done|]. apply insert_job_events_quiet in Hs' as Hn.
      apply insert_job_events_ok in Hs' as (k & _ & Hj & _). by rewrite Hj. }
  unfold next_id. simpl. lia.
Qed.

Lemma sys_attempts y id r : sys_reachable y → jobs (sy_db y) !! id = Some r → r_attempts r < max_int4.
Proof.
  intros Hy Hr. destruct (inv_attempts _ (sys_inv_reachable _ Hy) _ _ Hr) as [Hle _].
  rewrite (reachable_max_attempts _ _ _ (sys_reachable_db _ Hy) Hr) in Hle. unfold max_int4. lia.
Qed.

(** One job that waits is claimed and completed: this one, or one before it. *)
Lemma finish_one y id r :
  sys_reachable y → sy_clock y ≤ now → next_event (sy_db y) + 2 ≤ max_int64 →
  jobs (sy_db y) !! id = Some r → r_status r = StatusQueued → r_run_after r ≤ now →
  ∃ y', rtc sys_step y y' ∧ sy_clock y' = now ∧ next_event (sy_db y') = next_event (sy_db y) + 2 ∧
    ((∃ r', jobs (sy_db y') !! id = Some r' ∧ terminal r') ∨
     jobs (sy_db y') !! id = Some r ∧ waiting (sy_db y') = waiting (sy_db y) - 1).
Proof.
  destruct y as [s c held]. simpl. intros Hy Hc Hroom Hr Hst Hdue.
  destruct (claim_one_quiet s id r) as (i & q & s1 & Hq & Hqst & Hcl & Hj1 & Hn1);
    [intros k q; by apply (sys_attempts (Sys s c held) k)|lia|done..|].
  set (j := job_of_row (i, claim_set (quiet now) w iv q)) in *.
  destruct (complete_quiet s1 i (claim_set (quiet now) w iv q)) as (s2 & Hco & Hj2 & Hn2);
    [lia|by rewrite Hj1, lookup_insert_eq|].
  exists (Sys s2 now held). split_and!.
  - eapply rtc_l; [by apply (sys_claim w lease 1 iv (quiet now) [j] s s1 c held)|].
    apply rtc_once. by apply (sys_complete (quiet now) j (now + iv) s1 s2); [|simpl; lia|..].
  - done.
  - simpl. lia.
  - simpl. rewrite Hj1, insert_insert_eq in Hj2. destruct (decide (i = id)) as [->|Hne].
    + left. rewrite Hj2, lookup_insert_eq. eexists. split; [done|]. by left.
    + right. rewrite Hj2, lookup_insert_ne by done. split; [done|].
      unfold waiting, abs_jobs. rewrite Hj2, fmap_insert, total_insert, lookup_fmap, Hq. cbn [fmap option_fmap option_map from_option].
      assert (queued_value (hist_of q) = 1) as -> by (unfold queued_value; simpl; by rewrite Hqst).
      change (queued_value _) with 0. lia.
Qed.

Lemma drains n y id r :
  sys_reachable y → sy_clock y ≤ now → waiting (sy_db y) ≤ Z.of_nat n →
  next_event (sy_db y) + 2 * Z.of_nat n ≤ max_int64 →
  jobs (sy_db y) !! id = Some r → r_status r = StatusQueued → r_run_after r ≤ now →
  ∃ y' r', rtc sys_step y y' ∧ jobs (sy_db y') !! id = Some r' ∧ terminal r'.
Proof.
  revert y. induction n as [|n IH]; intros y Hy Hc Hn Hroom Hr Hst Hdue.
  - exfalso. pose proof (waiting_queued (sy_db y) id r Hr Hst). lia.
  - destruct (finish_one y id r) as (y1 & Hs1 & Hc1 & Hn1 & [(r' & Hr' & Ht)|[Hr1 Hw1]]); try done;
      [lia|by exists y1, r'|].
    destruct (IH y1) as (y2 & r2 & Hs2 & Hr2 & Ht2); try done; [|lia..|].
    + unfold sys_reachable in *. by etrans.
    + exists y2, r2. split; [by etrans|done].
Qed.

End progress.

(** ** Reaping first *)

Lemma sql_update_size P f m : size (sql_update P f m) = size m.
Proof.
  rewrite <-!size_dom. f_equal. apply set_eq. intros k. rewrite !elem_of_dom, lookup_sql_update.
  destruct (m !! k); simpl; by rewrite !is_Some_alt.
Qed.

Section stuck.
Context {Pg : Postgres}.
Implicit Types (s : db) (y : sys).

Lemma reap_quiet now s nd s' :
  db_wf s → stmt_reap (quiet now) s = Ok (nd, s') →
  jobs s' = sql_update (reap_where (quiet now)) (reap_set (quiet now)) (jobs s) ∧
  next_event s' ≤ next_event s + Z.of_nat (size (jobs s)).
Proof.
  intros Hwf Hs. pose proof Hs as Heff. destruct nd as [n d].
  apply stmt_reap_effect in Heff as (rows & _ & _ & [_ Hj _ _ _ _]); [|by apply wf_letters_unique].
  split; [done|]. unfold stmt_reap in Hs. apply bind_result_ok in Hs as (s1 & Hd & Hs).
  apply bind_result_ok in Hs as (s2 & Hi & [= _ _ <-]).
  apply insert_job_events_quiet in Hi. rewrite length_fmap in Hi.
  apply insert_dead_letters_ok in Hd as (k & _ & _ & _ & _ & _ & Hn & _); [|exact (wf_letters_unique _ Hwf)].
  rewrite Hi, Hn. cbn [next_event with_jobs]. apply Zplus_le_compat_l. change (env_plan (quiet now) ?l) with l.
  rewrite sql_returning_length, <-length_map_to_list. apply Nat2Z.inj_le, length_filter.
Qed.

(** No job is ever stuck: from every state of the queue under the lease
    discipline, whichever workers have crashed, any job that has not ended can
    be brought to its end by the steps the program takes, a pass of the reaper
    and workers that claim one job at a time and complete it, as long as the
    identity columns have room for their events. *)
Theorem job_never_stuck y id r w lease iv :
  sys_reachable y → jobs (sy_db y) !! id = Some r →
  text_ok w = true → interval_in (Duration_String lease) = Some iv → 0 ≤ iv →
  next_event (sy_db y) + 3 * Z.of_nat (size (jobs (sy_db y))) ≤ max_int64 →
  next_dead_letter (sy_db y) + Z.of_nat (size (jobs (sy_db y))) ≤ max_int64 →
  ∃ y' r', rtc sys_step y y' ∧ jobs (sy_db y') !! id = Some r' ∧ terminal r'.
Proof.
  intros Hy Hr Hw Hiv Hpos Hev Hdl. set (n := size (jobs (sy_db y))) in *.
  pose proof (sys_inv_reachable _ Hy) as Hinv. pose proof (inv_wf _ Hinv) as Hwf.
  assert (∀ y1 r1, sys_reachable y1 → size (jobs (sy_db y1)) = n →
    next_event (sy_db y1) + 2 * Z.of_nat n ≤ max_int64 →
    jobs (sy_db y1) !! id = Some r1 → r_status r1 = StatusQueued →
    ∃ y' r', rtc sys_step y1 y' ∧ jobs (sy_db y') !! id = Some r' ∧ terminal r') as Hqueued.
  { intros y1 r1 Hy1 Hsz Hroom Hr1 Hst1. pose proof (waiting_le (sy_db y1)).
    apply (drains w lease iv (Z.max (sy_clock y1) (r_run_after r1)) Hw Hiv Hpos n y1 id r1); try done; lia. }
  destruct (r_status r) eqn:Hst.
  - apply (Hqueued y r); try done. lia.
  - destruct (wf_rows _ Hwf _ _ Hr) as [_ Hrow]. rewrite Hst in Hrow. destruct Hrow as (_ & _ & [t Ht] & _).
    set (now := Z.max (sy_clock y) (t + 1)). destruct y as [s c held]. simpl in *.
    destruct (stmt_reap_unblocked (quiet now) s) as (nd & s' & Hs).
    { split; unfold next_id; simpl; lia. }
    { intros k q Hq [Hqst _] _ Hin. pose proof (inv_letters _ Hinv _ _ Hq Hin). congruence. }
    destruct (reap_quiet now s nd s' Hwf Hs) as [Hj Hn].
    assert (sys_step (Sys s c held) (Sys s' now held)) as Hstep by (eapply (sys_reap (quiet now)); [simpl; lia|done]).
    assert (sys_reachable (Sys s' now held)) as Hy' by (unfold sys_reachable in *; by eapply rtc_r).
    assert (jobs s' !! id = Some (reap_set (quiet now) r)) as Hr'.
    { rewrite Hj, lookup_sql_update, Hr. simpl.
      assert (expired (quiet now) r) as Hx%(reap_where_expired _ id) by (split; [done|]; exists t; split; [done|simpl; lia]).
      by rewrite (Is_true_eq_true _ Hx). }
    destruct (exhausted r) eqn:Hex.
    + exists (Sys s' now held), (reap_set (quiet now) r). split_and!; [by apply rtc_once|done|].
      right. simpl. by rewrite Hex.
    + destruct (Hqueued (Sys s' now held) (reap_set (quiet now) r)) as (y2 & r2 & Hs2 & Hr2 & Ht2);
        try done; simpl.
      * by rewrite Hj, sql_update_size.
      * fold n in Hn. lia.
      * by rewrite Hex.
      * exists y2, r2. split; [by eapply rtc_l|done].
  - exists y, r. split_and!; [done..|by left].
  - exists y, r. split_and!; [done..|by right].
Qed.

End stuck.

(** The job that [demo_sys] runs. *)
Lemma job_never_stuck_witness :
  ∃ y' r', rtc sys_step demo_sys y' ∧ jobs (sy_db y') !! 1 = Some r' ∧ terminal r'.
Proof.
  destruct demo_running_job as [r Hr].
  apply (job_never_stuck demo_sys 1 r "worker-0" (30 * Second) (sec 30) demo_sys_reachable Hr);
    [reflexivity|reflexivity|by vm_compute|by vm_compute|by vm_compute].
Defined.
