(* ===== verification/Fairness.v ===== *)
(** * No job is passed over for ever

    [Store.Claim] takes the due rows in [(priority DESC, run_after)] order.
    [Enqueue] leaves the priority at its default and sets [run_after] to the
    time of the submission, so a job submitted later comes after a job that is
    already due.  The jobs that can be taken before it are those of the table
    as it was, each as often as it has attempts left: however much is submitted
    afterwards, and whatever workers fail, crash or are reaped, the number of
    claims that pass over a due job is bounded when it becomes due.  A claim
    that finds the row locked by another transaction skips it and may take a
    later job instead; each such claim adds at most one job to those that go
    before. *)

From stdpp Require Import prelude gmap strings list relations sorting.
From S2P Require Import Prelude GoBase Job Store StoreFacts Steps Claim Invariant History.
From S2P Require Import StoreSpec Lifecycle Demo.
#[local] Open Scope jq_scope.

Section fairness.
Context {Pg : Postgres}.
Implicit Types (e : stmt_env) (s : db) (y : sys) (D : gset Z).

(** The attempts of a job, none before it is submitted. *)
Definition attempts_at s (k : Z) : Z := from_option r_attempts 0 (jobs s !! k).

(** A step that is not a claim of anything: no job has one more attempt. *)
Definition claims_nothing s s' : Prop := ∀ k, attempts_at s' k = attempts_at s k.

(** Whether a claim finds the row of [id] locked by another transaction and
    skips it. *)
Definition skips (id : Z) e : nat := if decide (id ∈ env_locked e) then 1 else 0.

(** Runs in which [n] claims of one job take other jobs than [id]; [m] of them
    find the row of [id] locked. *)
Inductive passed_over (id : Z) : nat → nat → sys → sys → Prop :=
| passed_none y : passed_over id 0 0 y y
| passed_claim n m w lease iv e jl s s' c held y :
    c ≤ env_now e → interval_in (Duration_String lease) = Some iv →
    stmt_claim w lease 1 e s = Ok (jl, s') → id ∉ Job_ID <$> jl →
    passed_over id n m (Sys s' (env_now e) (((λ j, (j, env_now e + iv)) <$> jl) ++ held)) y →
    passed_over id (S n) (skips id e + m) (Sys s c held) y
| passed_other n m y1 y2 y :
    sys_step y1 y2 → claims_nothing (sy_db y1) (sy_db y2) → passed_over id n m y2 y → passed_over id n m y1 y.

(** ** What a step adds *)

Lemma sys_step_clock y y' : sys_step y y' → sy_clock y ≤ sy_clock y'.
Proof. destruct 1; simpl; lia. Qed.

(** A row that was not there is a submission of this moment. *)
Lemma sys_step_new y y' k q :
  sys_inv y → sys_step y y' → jobs (sy_db y) !! k = None → jobs (sy_db y') !! k = Some q →
  r_status q = StatusQueued ∧ sy_clock y ≤ r_run_after q.
Proof.
  intros Hinv Hs Hk Hq. pose proof (wf_letters_unique _ (inv_wf _ Hinv)) as Hu.
  destruct Hs as [ty pl tc e i s s' c held Hc Hs|w lease limit iv e jl s s' c held Hc Hiv Hs
    |e j dl s s' c held held' Hc Hdl Hp Hs|e j dl t msg s s' c held held' Hc Hdl Hp Hlt Hs
    |e j dl msg s s' c held held' Hc Hdl Hp Hlt Hs|p s c held held' Hp
    |e [n d] s s' c held Hc Hs|ids e s s' c held Hc Hs]; simpl in *.
  - apply stmt_enqueue_effect in Hs as (doc & k' & _ & _ & _ & Hi & _ & _ & Hj & _).
    rewrite Hj, lookup_insert_Some in Hq. destruct Hq as [[_ <-]|[_ Hq]]; [done|congruence].
  - apply stmt_claim_effect in Hs as (iv' & rows & _ & _ & _ & _ & _ & [_ Hj _ _ _ _]).
    by rewrite Hj, lookup_sql_update, Hk in Hq.
  - apply stmt_complete_effect in Hs as [_ Hj _ _ _ _]. by rewrite Hj, lookup_sql_update, Hk in Hq.
  - apply stmt_retry_effect in Hs as [_ [_ Hj _ _ _ _]]. by rewrite Hj, lookup_sql_update, Hk in Hq.
  - apply stmt_fail_effect in Hs as [_ [_ Hj _ _ _ _]]; [|done].
    by rewrite Hj, lookup_sql_update, Hk in Hq.
  - congruence.
  - apply stmt_reap_effect in Hs as (rows & _ & _ & [_ Hj _ _ _ _]); [|done].
    by rewrite Hj, lookup_sql_update, Hk in Hq.
  - injection Hs as <-. simpl in Hq. congruence.
Qed.

Lemma sys_step_same_job y y' k q :
  sys_inv y → sys_step y y' → jobs (sy_db y) !! k = Some q →
  ∃ q', jobs (sy_db y') !! k = Some q' ∧ same_job q q'.
Proof.
  intros Hinv Hs Hq. apply (steps_same_job (sy_db y)); [apply Hinv| |done].
  destruct (sys_db_step _ _ Hs) as [->|]; [done|by apply rtc_once].
Qed.

(** Attempts never decrease. *)
Lemma attempts_step y y' k : sys_inv y → sys_step y y' → attempts_at (sy_db y) k ≤ attempts_at (sy_db y') k.
Proof.
  intros Hinv Hs. unfold attempts_at. destruct (jobs (sy_db y) !! k) as [q|] eqn:Hq; simpl.
  - destruct (sys_step_same_job _ _ _ _ Hinv Hs Hq) as (q' & -> & _ & _ & _ & _ & _ & _ & ?). done.
  - destruct (jobs (sy_db y') !! k) as [q'|] eqn:Hq'; simpl; [|done].
    pose proof (wf_rows _ (inv_wf _ (sys_inv_step _ _ Hinv Hs)) _ _ Hq') as [? _]. lia.
Qed.

(** So steps between which no job gains an attempt claim nothing. *)
Lemma passed_zero id y y' :
  sys_inv y → rtc sys_step y y' → claims_nothing (sy_db y) (sy_db y') → passed_over id 0 0 y y'.
Proof.
  intros Hinv Hs. induction Hs as [y|y y1 y' Hs Hss IH]; intros Hno; [apply passed_none|].
  pose proof (sys_inv_step _ _ Hinv Hs) as Hinv1.
  assert (∀ k, attempts_at (sy_db y1) k ≤ attempts_at (sy_db y') k) as Hle.
  { intros k. clear -Hinv1 Hss. induction Hss as [|y y1 y' Hs _ IH]; [done|].
    etrans; [by apply attempts_step|]. apply IH. by eapply sys_inv_step. }
  assert (∀ k, attempts_at (sy_db y1) k = attempts_at (sy_db y) k ∧
               attempts_at (sy_db y') k = attempts_at (sy_db y1) k) as Heq.
  { intros k. pose proof (attempts_step _ _ k Hinv Hs). specialize (Hle k). specialize (Hno k). lia. }
  eapply passed_other; [exact Hs| |apply IH]; [|done|]; intros k; apply Heq.
Qed.

Lemma passed_over_trans id n m n' m' y1 y2 y3 :
  passed_over id n m y1 y2 → passed_over id n' m' y2 y3 → passed_over id (n + n') (m + m') y1 y3.
Proof.
  induction 1 as [y|n m w lease iv e jl s s' c held y Hc Hiv Hcl Hid _ IH
                  |n m y1 y2 y Hs Hno _ IH]; intros H2; [done| |].
  - simpl. rewrite <-Nat.add_assoc. eapply passed_claim; [done..|by apply IH].
  - eapply passed_other; [done..|by apply IH].
Qed.

(** A submission claims nothing, and neither does an update that keeps the
    attempts. *)
Lemma submit_claims_nothing ty pl tc e i s s' :
  db_wf s → stmt_enqueue ty pl tc e s = Ok (i, s') → claims_nothing s s'.
Proof.
  intros Hwf Hs k. unfold attempts_at.
  apply stmt_enqueue_effect in Hs as (doc & k' & _ & _ & _ & Hi & _ & _ & Hj & _). rewrite Hj.
  destruct (decide (i = k)) as [->|Hne]; [|by rewrite lookup_insert_ne]. rewrite lookup_insert_eq.
  destruct (jobs s !! k) as [q|] eqn:Hq; [|done]. apply (wf_job_ids _ Hwf) in Hq. unfold next_id in Hi. lia.
Qed.

Lemma update_claims_nothing now P f ev dead msg rows s s' :
  update_effect now P f ev dead msg rows s s' → (∀ r, r_attempts (f r) = r_attempts r) → claims_nothing s s'.
Proof.
  intros [_ Hj _ _ _ _] Hf k. unfold attempts_at. rewrite Hj, lookup_sql_update.
  destruct (jobs s !! k) as [q|]; simpl; [|done]. by destruct (P k q).
Qed.

(** ** The jobs submitted later stay behind *)

(** [D] is the set of the jobs there were; [r] the row that waits. *)
Definition behind D (r : job_row) s : Prop :=
  ∀ k q, jobs s !! k = Some q → k ∉ D → r_status q = StatusQueued ∧ r_run_after r < r_run_after q.

(** A claim that passes over a due row takes a row of [D], and leaves alone the
    row it passes over and those that came later. *)
Lemma claim_passes D w lease limit e s jl s' id r :
  reachable s → stmt_claim w lease limit e s = Ok (jl, s') → 1 ≤ limit → eligible e s id r →
  id ∉ Job_ID <$> jl → behind D r s →
  (∃ k q iv, k ∈ D ∖ {[id]} ∧ jobs s !! k = Some q ∧ r_status q = StatusQueued ∧
     jobs s' !! k = Some (claim_set e w iv q)) ∧
  ∀ k, k ∉ D ∖ {[id]} → jobs s' !! k = jobs s !! k.
Proof.
  intros Hre Hs Hl Hel Hid Hb. pose proof (λ k q, reachable_defaults s k q Hre) as Hdef.
  apply stmt_claim_effect in Hs as (iv & rows & _ & _ & _ & -> & _ & [Hrows Hj _ _ _ _]).
  rewrite Hrows, claim_returning, <-!list_fmap_compose in Hid.
  change (id ∉ (claim_select e limit s).*1) in Hid.
  assert (∀ k, k ∈ (claim_select e limit s).*1 → k ∈ D ∖ {[id]}) as Hsel.
  { intros k Hk. apply elem_of_difference. split; [|intros ->%elem_of_singleton; done].
    destruct (decide (k ∈ D)) as [|HD]; [done|]. exfalso.
    apply list_elem_of_fmap in Hk as ([k' q] & -> & Hin).
    destruct (elem_of_claim_select _ _ _ _ Hin) as (Hq & _). simpl in *.
    destruct (Hb _ _ Hq HD) as [_ Hlt]. destruct (Hdef _ _ Hq) as [_ Hp], (Hdef _ _ (proj1 Hel)) as [_ Hp'].
    destruct (claim_select_order _ _ _ _ _ _ Hin Hel Hid); simpl in *; lia. }
  assert (∀ k, jobs s' !! k = (λ q, if bool_decide (k ∈ (claim_select e limit s).*1)
                               then claim_set e w iv q else q) <$> jobs s !! k) as Hj'
    by (intros k; by rewrite Hj, lookup_sql_update).
  split.
  - pose proof (length_claim_select e limit s) as Hlen. apply elem_of_claim_eligible in Hel.
    destruct (claim_select e limit s) as [|[k q] l] eqn:E; [|].
    { destruct (claim_eligible e s); [by apply not_elem_of_nil in Hel|]. simpl in Hlen. lia. }
    destruct (elem_of_claim_select e limit s (k, q)) as (Hq & Hqst & _); [rewrite E; by left|]. simpl in Hq, Hqst.
    exists k, q, iv. split_and!; [apply Hsel; by left|done..|]. rewrite Hj', Hq. simpl.
    by rewrite bool_decide_true by (by left).
  - intros k Hk. rewrite Hj', bool_decide_false by eauto. by destruct (jobs s !! k).
Qed.

(** The attempts left to a job, and to the jobs of [D] other than [id]. *)
Definition left_to s (k : Z) : nat :=
  match jobs s !! k with Some q => Z.to_nat (5 - r_attempts q) | None => 0 end.
Definition left_before D (id : Z) s : nat := sum_list_with (left_to s) (elements (D ∖ {[id]})).

Lemma left_to_step y y' k :
  sys_inv y → sys_step y y' → is_Some (jobs (sy_db y) !! k) →
  (left_to (sy_db y') k ≤ left_to (sy_db y) k)%nat.
Proof.
  intros Hinv Hs [q Hq]. destruct (sys_step_same_job _ _ _ _ Hinv Hs Hq) as (q' & Hq' & Hsame).
  unfold left_to. rewrite Hq, Hq'. destruct Hsame as (_ & _ & _ & _ & _ & _ & ?). lia.
Qed.

(** What holds while the job waits. *)
Record waits D (id : Z) (r : job_row) y : Prop := Waits {
  wt_reachable : sys_reachable y;
  wt_row : jobs (sy_db y) !! id = Some r;
  wt_queued : r_status r = StatusQueued;
  wt_due : r_run_after r < sy_clock y;
  wt_there : ∀ k, k ∈ D → is_Some (jobs (sy_db y) !! k);
  wt_behind : behind D r (sy_db y);
}.

(** A step that leaves the row and the later ones alone keeps it so. *)
Lemma waits_step D id r y y' :
  waits D id r y → sys_step y y' →
  (∀ k q, k ∉ D ∖ {[id]} → jobs (sy_db y) !! k = Some q → r_status q = StatusQueued →
     jobs (sy_db y') !! k = Some q) →
  waits D id r y'.
Proof.
  intros [Hy Hr Hst Hdue Hth Hb] Hs Hkeep. pose proof (sys_inv_reachable _ Hy) as Hinv. split.
  - unfold sys_reachable in *. by eapply rtc_r.
  - apply Hkeep; [|done..]. by intros [_ []%not_elem_of_singleton]%elem_of_difference.
  - done.
  - pose proof (sys_step_clock _ _ Hs). lia.
  - intros k [q Hq]%Hth. destruct (sys_step_same_job _ _ _ _ Hinv Hs Hq) as (q' & -> & _). by eauto.
  - intros k q Hq HD. destruct (jobs (sy_db y) !! k) as [q0|] eqn:Hk.
    + destruct (Hb _ _ Hk HD) as [Hq0 Hlt]. assert (jobs (sy_db y') !! k = Some q0); [|by simplify_eq].
      apply Hkeep; [|done..]. by intros [? _]%elem_of_difference.
    + destruct (sys_step_new _ _ _ _ Hinv Hs Hk Hq) as [? ?]. split; [done|lia].
Qed.

(** Another job of the table may be counted among those that go before. *)
Lemma waits_add D id r y k : waits D id r y → is_Some (jobs (sy_db y) !! k) → waits (D ∪ {[k]}) id r y.
Proof.
  intros [Hy Hr Hst Hdue Hth Hb] Hk. split; try done.
  - by intros k' [Hk'| ->%elem_of_singleton]%elem_of_union; [apply Hth|].
  - intros k' q Hq HD. apply (Hb k' q Hq). intros Hin. apply HD, elem_of_union. by left.
Qed.

Lemma left_before_add D id k s : (left_before (D ∪ {[k]}) id s ≤ left_before D id s + left_to s k)%nat.
Proof.
  unfold left_before. destruct (decide (k ∈ D)) as [Hk|Hk].
  { assert (D ∪ {[k]} = D) as ->; [|lia]. rewrite (comm_L (∪)). by apply subseteq_union_1_L, singleton_subseteq_l. }
  destruct (decide (k = id)) as [->|Hne].
  { assert ((D ∪ {[id]}) ∖ {[id]} = D ∖ {[id]}) as -> by set_solver. lia. }
  assert ((D ∪ {[k]}) ∖ {[id]} = {[k]} ∪ D ∖ {[id]}) as -> by set_solver.
  rewrite elements_disj_union, sum_list_with_app, elements_singleton by set_solver. simpl. lia.
Qed.

(** A claim of one job changes nothing but the row of that job. *)
Lemma claim_takes_one w lease e s jl s' :
  stmt_claim w lease 1 e s = Ok (jl, s') →
  jobs s' = jobs s ∨
  ∃ k q iv, k ∈ Job_ID <$> jl ∧ jobs s !! k = Some q ∧ r_status q = StatusQueued ∧
    jobs s' = <[k := claim_set e w iv q]> (jobs s).
Proof.
  intros (iv & rows & _ & _ & _ & -> & _ & [Hrows Hj _ _ _ _])%stmt_claim_effect.
  pose proof (length_claim_select e 1 s) as Hlen.
  assert (∀ k, jobs s' !! k = (λ q, if bool_decide (k ∈ (claim_select e 1 s).*1)
                               then claim_set e w iv q else q) <$> jobs s !! k) as Hj'
    by (intros k; by rewrite Hj, lookup_sql_update).
  setoid_rewrite Hrows. setoid_rewrite claim_returning. setoid_rewrite <-list_fmap_compose.
  setoid_rewrite <-list_fmap_compose.
  destruct (claim_select e 1 s) as [|[k q] [|]] eqn:E; [left|right|cbn [length] in Hlen; lia].
  - apply map_eq. intros k. rewrite Hj', bool_decide_false by apply not_elem_of_nil.
    by destruct (jobs s !! k).
  - destruct (elem_of_claim_select e 1 s (k, q)) as (Hq & Hst & _); [rewrite E; by left|]. simpl in Hq, Hst.
    exists k, q, iv. split_and!; [by left|done|done|]. apply map_eq. intros k'. rewrite Hj'.
    destruct (decide (k = k')) as [<-|Hne].
    + by rewrite lookup_insert_eq, Hq; simpl; rewrite bool_decide_true by (by left).
    + rewrite lookup_insert_ne, bool_decide_false by (done || by intros ->%list_elem_of_singleton).
      by destruct (jobs s !! k').
Qed.

(** The jobs of [D] have no more attempts left after a step. *)
Lemma left_before_step D id r y y' :
  waits D id r y → sys_step y y' → (left_before D id (sy_db y') ≤ left_before D id (sy_db y))%nat.
Proof.
  intros Hw Hs. apply sum_list_with_le. intros k [Hk _]%elem_of_elements%elem_of_difference.
  apply (left_to_step _ _ k (sys_inv_reachable _ (wt_reachable _ _ _ _ Hw)) Hs).
  by apply (wt_there _ _ _ _ Hw).
Qed.

(** A claim that finds the row free and passes over it uses up an attempt of the
    jobs that go before. *)
Lemma free_claim D id r w lease e jl s s' c held y2 :
  waits D id r (Sys s c held) → sys_step (Sys s c held) y2 → sy_db y2 = s' → c ≤ env_now e →
  stmt_claim w lease 1 e s = Ok (jl, s') → id ∉ Job_ID <$> jl → id ∉ env_locked e →
  waits D id r y2 ∧ (S (left_before D id s') ≤ left_before D id s)%nat.
Proof.
  intros Hw Hs <- Hc Hcl Hid Hlock. pose proof (sys_inv_reachable _ (wt_reachable _ _ _ _ Hw)) as Hinv.
  pose proof (sys_reachable_db _ (wt_reachable _ _ _ _ Hw)) as Hre.
  pose proof Hw as [Hy Hr Hst Hdue Hth Hb]. simpl in *.
  destruct (claim_passes D w lease 1 e s jl (sy_db y2) id r) as [(k & q & iv' & HkD & Hq & Hqst & Hq') Hkeep];
    [done..| |done|done|]; [split_and!; [done..|lia|done]|].
  split.
  - eapply waits_step; [exact Hw|exact Hs|]. intros k' q' Hk' Hq0 _. by rewrite Hkeep.
  - apply (sum_list_with_lt _ _ _ k); [|by apply elem_of_elements|].
    + intros k' [Hk' _]%elem_of_elements%elem_of_difference. apply (left_to_step _ _ k' Hinv Hs). by apply Hth.
    + unfold left_to. rewrite Hq, Hq'. simpl. destruct (inv_attempts _ Hinv _ _ Hq) as [_ Hlt].
      specialize (Hlt Hqst). rewrite (reachable_max_attempts _ _ _ Hre Hq) in Hlt. lia.
Qed.

(** One that skips the locked row may add the job it takes to them, with at most
    four attempts left. *)
Lemma locked_claim D id r w lease e jl s s' c held y2 :
  waits D id r (Sys s c held) → sys_step (Sys s c held) y2 → sy_db y2 = s' →
  stmt_claim w lease 1 e s = Ok (jl, s') → id ∉ Job_ID <$> jl →
  ∃ D', waits D' id r y2 ∧ (S (left_before D' id s') ≤ left_before D id s + 5)%nat.
Proof.
  intros Hw Hs <- Hcl Hid. pose proof (left_before_step _ _ _ _ _ Hw Hs) as Hle. simpl in Hle.
  destruct (claim_takes_one _ _ _ _ _ _ Hcl) as [Hj|(k & q & iv & Hin & Hq & Hqst & Hj)].
  - exists D. split; [|lia]. eapply waits_step; [exact Hw|exact Hs|]. intros. by rewrite Hj.
  - assert (k ≠ id) as Hne by (by intros ->). exists (D ∪ {[k]}). split.
    + eapply waits_step; [apply waits_add; [exact Hw|simpl; eauto]|exact Hs|].
      intros k' q' Hk' Hq' _. rewrite Hj, lookup_insert_ne; [done|]. intros <-. apply Hk', elem_of_difference.
      split; [apply elem_of_union; right|apply not_elem_of_singleton; done]. by apply elem_of_singleton.
    + pose proof (left_before_add D id k (sy_db y2)).
      assert (left_to (sy_db y2) k ≤ 4)%nat; [|lia]. unfold left_to. rewrite Hj, lookup_insert_eq. simpl.
      pose proof (wf_rows _ (inv_wf _ (sys_inv_reachable _ (wt_reachable _ _ _ _ Hw))) _ _ Hq) as [? _]. lia.
Qed.

Lemma passed_over_left D id r n m y y' :
  passed_over id n m y y' → waits D id r y →
  ∃ D', waits D' id r y' ∧ (n + left_before D' id (sy_db y') ≤ left_before D id (sy_db y) + 5 * m)%nat.
Proof.
  intros Hp. revert D. induction Hp as [y|n m w lease iv e jl s s' c held y Hc Hiv Hcl Hid _ IH
                  |n m y1 y2 y Hs Hno _ IH]; intros D Hw; [exists D; split; [done|lia]| |].
  - set (y2 := Sys s' (env_now e) _) in *.
    assert (sys_step (Sys s c held) y2) as Hs by (by eapply sys_claim). unfold skips.
    case_decide as Hlock.
    + destruct (locked_claim D id r w lease e jl s s' c held y2) as (D1 & Hw1 & Hle1); [done..|].
      destruct (IH D1 Hw1) as (D' & Hw' & Hle). exists D'. split; [done|]. simpl in *. lia.
    + destruct (free_claim D id r w lease e jl s s' c held y2) as [Hw1 Hle1]; [done..|].
      destruct (IH D Hw1) as (D' & Hw' & Hle). exists D'. split; [done|]. simpl in *. lia.
  - pose proof (sys_inv_reachable _ (wt_reachable _ _ _ _ Hw)) as Hinv.
    pose proof (left_before_step _ _ _ _ _ Hw Hs). destruct (IH D) as (D' & Hw' & Hle).
    { eapply waits_step; [exact Hw|exact Hs|]. intros k q _ Hq Hst.
      destruct (idle_step _ _ _ _ Hinv Hs Hq) as [|[_ (e & w & iv & Hq')]]; [congruence|done|].
      specialize (Hno k). unfold attempts_at in Hno. rewrite Hq, Hq' in Hno. simpl in Hno. lia. }
    exists D'. split; [done|lia].
Qed.

(** No starvation: take a job that is due in some state of the queue under
    the lease discipline.  However many jobs are submitted afterwards, and
    whatever the workers, the reaper and the shipper do, the claims that pass
    over it are at most five for each other job of that state and five for each
    claim that finds its row locked by another transaction; until one takes it,
    its row does not change. *)
Theorem passed_over_bounded y y' id r n m :
  sys_reachable y → jobs (sy_db y) !! id = Some r → r_status r = StatusQueued →
  r_run_after r < sy_clock y → passed_over id n m y y' →
  Z.of_nat n ≤ 5 * (Z.of_nat (size (jobs (sy_db y))) - 1 + Z.of_nat m) ∧ jobs (sy_db y') !! id = Some r.
Proof.
  intros Hy Hr Hst Hdue Hp. set (D := dom (jobs (sy_db y))).
  assert (waits D id r y) as Hw.
  { split; try done; [by intros k ?%elem_of_dom|].
    intros k q Hq []. by apply elem_of_dom; eauto. }
  destruct (passed_over_left _ _ _ _ _ _ _ Hp Hw) as (D' & [_ Hr' _ _ _ _] & Hle). split; [|done].
  assert (left_before D id (sy_db y) ≤ 5 * length (elements (D ∖ {[id]})))%nat as Hbound.
  { unfold left_before. induction (elements _) as [|k l IH]; simpl; [lia|].
    assert (left_to (sy_db y) k ≤ 5)%nat; [|lia]. unfold left_to.
    destruct (jobs (sy_db y) !! k) as [q|] eqn:Hq; [|lia].
    pose proof (wf_rows _ (inv_wf _ (sys_inv_reachable _ Hy)) _ _ Hq) as [? _]. lia. }
  assert (size D = size (jobs (sy_db y))) as HD by apply size_dom.
  assert (id ∈ D) as Hin by (apply elem_of_dom; eauto).
  change (length (elements (D ∖ {[id]}))) with (size (D ∖ {[id]})) in Hbound.
  assert ({[id]} ⊆ D) as Hsub by (by apply singleton_subseteq_l).
  pose proof (subseteq_size _ _ Hsub) as Hone.
  rewrite size_difference in Hbound by done. rewrite size_singleton in Hbound, Hone. lia.
Qed.

End fairness.
