(* ===== verification/LateReports.v ===== *)
(** * Reports after the lease

    [Complete], [Retry] and [Fail] match a row by id alone, so a worker whose
    lease ran out while its handler was busy still reports.  A script of
    statements with their times shows which table states that leads to. *)

From stdpp Require Import prelude gmap strings list relations sorting.
From S2P Require Import Prelude GoBase Job Store StoreFacts Steps Claim Invariant History.
From S2P Require Import StoreSpec Demo.
#[local] Open Scope jq_scope.

(** ** Scripts *)

(** A statement of the program and the second at which it runs. *)
Inductive op : Type :=
| OEnqueue (at_ : Z) (ty payload : string)
| OClaim (at_ : Z) (worker : string)
| OComplete (at_ : Z) (id : Z)
| ORetry (at_ : Z) (id delay : Z) (msg : string)
| OFail (at_ : Z) (id : Z) (msg : string)
| OReap (at_ : Z).

(** Leases of the scripts last 30 seconds. *)
Definition run_op `{Postgres} (o : op) (s : db) : result pg_error db :=
  match o with
  | OEnqueue t ty pl => let? r := stmt_enqueue ty pl "" (quiet (sec t)) s in Ok r.2
  | OClaim t w => let? r := stmt_claim w (30 * Second) 1 (quiet (sec t)) s in Ok r.2
  | OComplete t id => let? r := stmt_complete id (quiet (sec t)) s in Ok r.2
  | ORetry t id d msg => let? r := stmt_retry id ((t + d) * Second) msg (quiet (sec t)) s in Ok r.2
  | OFail t id msg => let? r := stmt_fail id msg (quiet (sec t)) s in Ok r.2
  | OReap t => let? r := stmt_reap (quiet (sec t)) s in Ok r.2
  end.

Fixpoint run_ops `{Postgres} (l : list op) (s : db) : result pg_error db :=
  match l with
  | [] => Ok s
  | o :: l => let? s := run_op o s in run_ops l s
  end.

Section scripts.
Context {Pg : Postgres}.

Lemma run_op_step o s s' : run_op o s = Ok s' → db_step s s'.
Proof.
  destruct o; simpl; intros ([a s1] & Hr & [= <-])%bind_result_ok; simpl; eauto with jq.
Qed.

Lemma run_ops_steps l s s' : run_ops l s = Ok s' → rtc db_step s s'.
Proof.
  revert s. induction l as [|o l IH]; intros s; simpl; [by intros [= <-]|].
  intros (s1 & Ho & Hl)%bind_result_ok. eapply rtc_l; [by eapply run_op_step|by apply IH].
Qed.

(** The table a script leaves, [db_empty] if a statement aborts. *)
Definition script (l : list op) : db :=
  match run_ops l db_empty with Ok s => s | Err _ => db_empty end.

Lemma script_reachable l : reachable (script l).
Proof.
  unfold script. destruct (run_ops l db_empty) eqn:E; [|apply rtc_refl].
  by eapply run_ops_steps.
Qed.

End scripts.

(** ** A completed job runs again *)

Lemma call_result {A B} (p : A * B) (a : A) : p.1 = a → p = (a, p.2).
Proof. by intros <-; destruct p. Qed.

Definition status_at (s : db) (id : Z) : option (Status * Z) :=
  (λ r, (r_status r, r_attempts r)) <$> jobs s !! id.

(** Worker A's lease runs out and B completes the job. *)
Definition stale_script : list op :=
  [OEnqueue 0 "sum_numbers" "[1]"; OClaim 1 "A"; OReap 60; OClaim 61 "B"; OComplete 62 1].

(** A report after the lease undoes a completion: two workers and the reaper
    reach a state in which a job is completed and the first worker, whose
    handler fails only then, puts it back in the queue with its late [Retry];
    the next [Claim] runs it again. *)
Theorem late_retry_reruns_completed :
  let s := script stale_script in
  ∃ s1 jl s2, reachable s ∧ status_at s 1 = Some (StatusCompleted, 2) ∧
    Retry bg (quiet (sec 63)) 1 (64 * Second) "boom" s = (Ok tt, s1) ∧
    Claim bg (quiet (sec 65)) "C" (30 * Second) 1 s1 = (Ok jl, s2) ∧
    Job_ID <$> jl = [1] ∧ status_at s2 1 = Some (StatusRunning, 3).
Proof.
  intros s. eexists _, _, _. split_and!.
  - apply script_reachable.
  - by vm_compute.
  - apply call_result. by vm_compute.
  - apply call_result. by vm_compute.
  - reflexivity.
  - by vm_compute.
Qed.

(** ** A poisoned reaper *)

(** Attempt 4 is A's, whose lease runs out; B fails the job on attempt 5, which
    writes its dead letter; A's handler fails late and, on attempt 4 of 5,
    retries; C claims attempt 6 and crashes.  Job 2 is then submitted, claimed
    by D, and D crashes too. *)
Definition poison_script : list op :=
  [OEnqueue 0 "http_check" "{}";
   OClaim 1 "A"; OReap 60; OClaim 61 "A"; OReap 120; OClaim 121 "A"; OReap 180;
   OClaim 181 "A"; OReap 240; OClaim 241 "B"; OFail 242 1 "boom";
   ORetry 243 1 1 "boom"; OClaim 250 "C";
   OEnqueue 251 "sum_numbers" "[1]"; OClaim 252 "D"].

(** C33. A late report can stop the reaper for good: in a reachable state, with
    four workers, two of which crash, a call of [ReapExpiredLeases] at any later
    time, under any plan and context, fails on the dead letters' unique constraint or on
    the connection and reclaims nothing, so job 2, whose worker crashed on its
    first attempt, stays running. *)
Theorem reaper_poisoned {Sp} (ctx : context Sp) e :
  sec 300 ≤ env_now e →
  let s := script poison_script in
  reachable s ∧ status_at s 1 = Some (StatusRunning, 6) ∧ status_at s 2 = Some (StatusRunning, 1) ∧
  (∃ r, jobs s !! 2 = Some r ∧ expired e r) ∧
  ∃ err, ReapExpiredLeases ctx e s = (Err err, s).
Proof.
  intros He s.
  assert (∀ id, option_map r_lease_expires_at (jobs s !! id) = Some (Some (sec 280)) ∨
    option_map r_lease_expires_at (jobs s !! id) = Some (Some (sec 282)) →
    (fst <$> status_at s id) = Some StatusRunning →
    ∃ r, jobs s !! id = Some r ∧ expired e r) as Hx.
  { intros id Hl Hst. unfold status_at in Hst. destruct (jobs s !! id) as [r|]; [|done].
    exists r. split; [done|]. simplify_eq/=. split; [done|].
    unfold sec in *. destruct Hl as [[= Hl]|[= Hl]]; eexists; (split; [exact Hl|lia]). }
  destruct (Hx 1) as (r1 & Hr1 & Hx1); [left; by vm_compute|by vm_compute|].
  destruct (Hx 2) as (r2 & Hr2 & Hx2); [right; by vm_compute|by vm_compute|].
  split_and!; [apply script_reachable|by vm_compute|by vm_compute|by eauto|].
  destruct (stmt_reap_blocked e s 1 r1 Hr1 Hx1) as (c & Hc).
  - assert (option_map exhausted (jobs s !! 1) = Some true) as Ha by (by vm_compute).
    rewrite Hr1 in Ha. by injection Ha.
  - assert (DL_JobID <$> dead_letters s = [1]) as -> by (by vm_compute). by left.
  - unfold ReapExpiredLeases, run_stmt. rewrite Hc.
    destruct (ctx_err ctx), (env_fault e) as [[[] ]|]; eauto.
Qed.

Lemma reaper_poisoned_witness :
  ∃ err, ReapExpiredLeases bg (quiet (sec 1000)) (script poison_script)
         = (Err err, script poison_script).
Proof. apply (reaper_poisoned bg (quiet (sec 1000))). by vm_compute. Defined.
