(* ===== verification/Shipper.v ===== *)
(** * The shipper

    [internal/analytics]: the loop that copies the outbox to ClickHouse.  The
    ClickHouse table is the list of the rows inserted so far.  What the server
    and its driver decide is in [ch_env]: whether preparing, appending or
    sending fails, and which rows of a failed batch landed all the same.

    The three calls of a cycle are not one transaction: [se_between1] and
    [se_between2] are what the other processes (workers, submitters, the
    reaper, other shippers) did between them. *)

From stdpp Require Import prelude gmap strings list pretty relations sorting.
From S2P Require Import Prelude GoBase Job Store StoreFacts Steps Claim Invariant History.
From S2P Require Import Outbox Demo.
#[local] Open Scope jq_scope.

(** ** ClickHouse *)

(** [datetime64] is the driver's conversion of a Go time (in microseconds) to
    a [DateTime64(3)]. *)
Class ClickHouse : Type := { datetime64 : Z → Z }.

(** A row of [clickhouse/schema.sql]. *)
Record ch_row : Type := ChRow {
  ch_event_id : Z;
  ch_job_id : Z;
  ch_job_type : string;
  ch_event_type : string;
  ch_attempts : Z;
  ch_worker_id : string;
  ch_error_message : string;
  ch_occurred_at : Z;
}.

#[global] Instance ch_row_eq_dec : EqDecision ch_row.
Proof. solve_decision. Defined.

(** One batch: the error of [PrepareBatch], of [Append] for an event, and of
    [Send], with the rows that landed before it failed. *)
Record ch_env : Type := ChEnv {
  ce_prepare : option string;
  ce_append : Event → option string;
  ce_send : option ((Z → bool) * string);
}.

Definition ch_quiet : ch_env := ChEnv None (λ _, None) None.

(** [SELECT ... FINAL] on a [ReplacingMergeTree] ordered by [event_id]: one row
    per key, the last inserted. *)
Definition final (ch : list ch_row) : gmap Z ch_row :=
  foldl (λ m r, <[ch_event_id r := r]> m) ∅ ch.

(** The two databases. *)
Record pipe : Type := Pipe {
  p_pg : db;
  p_ch : list ch_row;
}.

(** The log line a cycle ends with. *)
Inductive ship_log : Type :=
| FetchFailed (err : error)
| NothingToShip
| InsertFailed (err : error) (count : Z)
| MarkFailed (err : error) (count : Z)
| Shipped (count : Z).

Record ship_env (Sp : Type) : Type := ShipEnv {
  se_fetch_ctx : context Sp;
  se_fetch : stmt_env;
  se_between1 : pipe → pipe;
  se_ch : ch_env;
  se_between2 : pipe → pipe;
  se_mark_ctx : context Sp;
  se_mark : stmt_env;
}.
Arguments ShipEnv {Sp} _ _ _ _ _ _ _.
Arguments se_fetch_ctx {Sp} _.
Arguments se_fetch {Sp} _.
Arguments se_between1 {Sp} _ _.
Arguments se_ch {Sp} _.
Arguments se_between2 {Sp} _ _.
Arguments se_mark_ctx {Sp} _.
Arguments se_mark {Sp} _.

Section Shipper.
Context {Pg : Postgres} {Ch : ClickHouse} {Sp : Type}.
Implicit Types (ce : ch_env) (se : ship_env Sp) (p : pipe).

(** The arguments of [batch.Append]. *)
Definition ch_of (e : Event) : ch_row :=
  ChRow (ID e) (JobID e) (JobType e) (event_type_text (Event_EventType e))
        (uint32 (Event_Attempts e)) (WorkerID e) (ErrorMessage e) (datetime64 (OccurredAt e)).

Fixpoint append_events ce (events : list Event) (batch : list ch_row) :
    result error (list ch_row) :=
  match events with
  | [] => Ok batch
  | e :: events =>
      match ce_append ce e with
      | Some t => Err (EWrap ("analytics: appending event " +:+ pretty (ID e) +:+ ": ") (EText t))
      | None => append_events ce events (batch ++ [ch_of e])
      end
  end.

(** [InsertEvents]: its error, and the table it leaves. *)
Definition InsertEvents ce (events : list Event) (ch : list ch_row) :
    result error unit * list ch_row :=
  if bool_decide (length events = O) then (Ok tt, ch) else
  match ce_prepare ce with
  | Some t => (Err (EWrap "analytics: preparing batch: " (EText t)), ch)
  | None =>
      match append_events ce events [] with
      | Err err => (Err err, ch)
      | Ok batch =>
          match ce_send ce with
          | Some (landed, t) =>
              (Err (EWrap "analytics: sending batch: " (EText t)),
               ch ++ filter (λ r, landed (ch_event_id r)) batch)
          | None => (Ok tt, ch ++ batch)
          end
      end
  end.

Definition shipOnce se (batchSize : Z) p : ship_log * pipe :=
  match FetchUnshippedEvents (se_fetch_ctx se) (se_fetch se) batchSize (p_pg p) with
  | Err err => (FetchFailed err, p)
  | Ok events =>
      if bool_decide (length events = O) then (NothingToShip, p) else
      let count := Z.of_nat (length events) in
      let p1 := se_between1 se p in
      match InsertEvents (se_ch se) events (p_ch p1) with
      | (Err err, ch) => (InsertFailed err count, Pipe (p_pg p1) ch)
      | (Ok _, ch) =>
          let p2 := se_between2 se (Pipe (p_pg p1) ch) in
          let ids := ID <$> events in
          match MarkEventsShipped (se_mark_ctx se) (se_mark se) ids (p_pg p2) with
          | (Err err, s) => (MarkFailed err count, Pipe s (p_ch p2))
          | (Ok _, s) => (Shipped count, Pipe s (p_ch p2))
          end
      end
  end.

(** A turn of [RunShipper]: what its [select] picks. *)
Inductive ship_turn : Type :=
| TurnDone
| TurnTick (se : ship_env Sp).

(** [RunShipper] over the turns given: the log of its cycles and the databases
    when it returns, or when the turns end. *)
Fixpoint RunShipper (batchSize : Z) (turns : list ship_turn) p : list ship_log * pipe :=
  match turns with
  | [] | TurnDone :: _ => ([], p)
  | TurnTick se :: turns =>
      let '(l, p) := shipOnce se batchSize p in
      let '(ls, p) := RunShipper batchSize turns p in (l :: ls, p)
  end.

End Shipper.
