(* ===== verification/ShipperFacts.v ===== *)
(** * What the shipper guarantees

    Rely and guarantee: [pipe_step] is what any process may do to the two
    databases while a cycle runs, and a cycle itself only takes such steps.
    Its invariant [pipe_inv] gives at-least-once delivery, and exactly-once in
    the deduplicated view. *)

From stdpp Require Import prelude gmap strings list pretty relations sorting.
From S2P Require Import Prelude GoBase Job Store StoreFacts Steps Claim Invariant History.
From S2P Require Import Outbox Demo Shipper.
#[local] Open Scope jq_scope.

Section shipping.
Context {Pg : Postgres} {Ch : ClickHouse} {Sp : Type}.
Implicit Types (ce : ch_env) (se : ship_env Sp) (p : pipe) (s : db).

(** The statements of submitters, workers and the reaper. *)
Inductive queue_step : db → db → Prop :=
| queue_enqueue ty pl tc e s id s' :
    stmt_enqueue ty pl tc e s = Ok (id, s') → queue_step s s'
| queue_claim w lease limit e s jl s' :
    stmt_claim w lease limit e s = Ok (jl, s') → queue_step s s'
| queue_complete id e s u s' : stmt_complete id e s = Ok (u, s') → queue_step s s'
| queue_retry id t err e s u s' : stmt_retry id t err e s = Ok (u, s') → queue_step s s'
| queue_fail id err e s u s' : stmt_fail id err e s = Ok (u, s') → queue_step s s'
| queue_reap e s nd s' : stmt_reap e s = Ok (nd, s') → queue_step s s'.

(** What a process may do: work on the queue, insert copies of outbox events
    into ClickHouse, or mark events that are there. *)
Inductive pipe_step : pipe → pipe → Prop :=
| pipe_queue s s' ch : queue_step s s' → pipe_step (Pipe s ch) (Pipe s' ch)
| pipe_insert s ch rows :
    Forall (λ r, ∃ ev, ev ∈ outbox s ∧ r = ch_of ev) rows →
    pipe_step (Pipe s ch) (Pipe s (ch ++ rows))
| pipe_mark ids e s s' ch :
    (∀ ev, ev ∈ outbox s → ID ev ∈ ids → ch_of ev ∈ ch) →
    stmt_mark_shipped ids e s = Ok (tt, s') → pipe_step (Pipe s ch) (Pipe s' ch).

Definition pipe_empty : pipe := Pipe db_empty [].
Definition pipe_reachable p : Prop := rtc pipe_step pipe_empty p.

Lemma queue_step_db s s' : queue_step s s' → db_step s s'.
Proof. destruct 1; eauto with jq. Qed.

Lemma update_effect_appends now P f ev dead msg rows s s' :
  update_effect now P f ev dead msg rows s s' →
  ∃ l, job_events s' = job_events s ++ l ∧ Forall (λ r, ev_shipped_at r = None) l.
Proof.
  intros [_ _ _ (k & Hev & _) _ _]. eexists. split; [exact Hev|].
  apply Forall_forall. by intros r (n & i & _ & -> & _)%elem_of_number_events.
Qed.

(** Work on the queue only appends pending events. *)
Lemma queue_step_appends s s' :
  db_wf s → queue_step s s' →
  ∃ l, job_events s' = job_events s ++ l ∧ Forall (λ r, ev_shipped_at r = None) l.
Proof.
  intros Hwf Hs. pose proof (wf_letters_unique _ Hwf) as Hu. destruct Hs as
    [ty pl tc e s id s' Hs|w lease limit e s jl s' Hs|id e s u s' Hs|id t err e s u s' Hs
    |id err e s u s' Hs|e s [n d] s' Hs].
  - apply stmt_enqueue_effect in Hs as (doc & k & _ & _ & _ & _ & _ & _ & _ & _ & _ & Hev & _).
    eexists. split; [exact Hev|]. by repeat constructor.
  - apply stmt_claim_effect in Hs as (iv & rows & _ & _ & _ & _ & _ & Hs).
    by eapply update_effect_appends.
  - apply stmt_complete_effect in Hs. by eapply update_effect_appends.
  - apply stmt_retry_effect in Hs as [_ Hs]. by eapply update_effect_appends.
  - apply stmt_fail_effect in Hs as [_ Hs]; [|done]. by eapply update_effect_appends.
  - apply stmt_reap_effect in Hs as (rows & _ & _ & Hs); [|done]. by eapply update_effect_appends.
Qed.

(** ** The invariant *)

Record pipe_inv p : Prop := PipeInv {
  pi_wf : db_wf (p_pg p);
  pi_shipped : ∀ r, r ∈ job_events (p_pg p) → ev_shipped_at r ≠ None → ch_of (ev_event r) ∈ p_ch p;
  pi_rows : ∀ c, c ∈ p_ch p → ∃ ev, ev ∈ outbox (p_pg p) ∧ c = ch_of ev;
}.

Lemma elem_of_outbox s ev : ev ∈ outbox s ↔ ∃ r, r ∈ job_events s ∧ ev = ev_event r.
Proof. unfold outbox. rewrite list_elem_of_fmap. split; intros (r & ? & ?); eauto. Qed.

Lemma pipe_step_spec p p' :
  pipe_inv p → pipe_step p p' →
  pipe_inv p' ∧ outbox (p_pg p) `prefix_of` outbox (p_pg p') ∧ p_ch p `prefix_of` p_ch p'.
Proof.
  intros [Hwf Hsh Hrows] Hs.
  destruct Hs as [s s' ch Hs|s ch rows Hr|ids e s s' ch Hids Hs]; simpl in *.
  - destruct (queue_step_appends _ _ Hwf Hs) as (l & Hev & Hl).
    assert (outbox s' = outbox s ++ (ev_event <$> l)) as Ho
      by (unfold outbox; by rewrite Hev, fmap_app).
    split_and!; [|by eexists|done]. split; simpl.
    + eapply db_wf_step; [done|]. by apply queue_step_db.
    + intros r. rewrite Hev, elem_of_app. rewrite Forall_forall in Hl. intros [Hr|Hr] Hn; [by auto|].
      by specialize (Hl _ Hr).
    + intros c (ev & Hev' & ->)%Hrows. exists ev. rewrite Ho, elem_of_app. by auto.
  - split_and!; [|done|by eexists]. split; simpl; [done| |].
    + intros r Hin Hn. apply elem_of_app. by auto.
    + rewrite Forall_forall in Hr. intros c [Hc|Hc]%elem_of_app; by auto.
  - destruct (stmt_mark_shipped_outbox _ _ _ _ _ Hs) as [Ho _].
    split_and!; [|by rewrite Ho|done]. split; simpl.
    + by eapply db_wf_mark.
    + injection Hs as <-. simpl. intros r' (r & -> & Hr)%list_elem_of_fmap. unfold mark_row.
      case_bool_decide as Hid; simpl; [|by auto]. intros _. apply Hids; [|done].
      apply elem_of_outbox. eauto.
    + by rewrite Ho.
Qed.

Lemma pipe_steps_spec p p' :
  pipe_inv p → rtc pipe_step p p' →
  pipe_inv p' ∧ outbox (p_pg p) `prefix_of` outbox (p_pg p') ∧ p_ch p `prefix_of` p_ch p'.
Proof.
  intros Hi Hs. induction Hs as [p|p p1 p' Hs _ IH]; [done|].
  destruct (pipe_step_spec _ _ Hi Hs) as (Hi1 & Ho1 & Hc1).
  destruct (IH Hi1) as (Hi2 & Ho2 & Hc2). split_and!; [done|by etrans..].
Qed.

Lemma pipe_inv_empty : pipe_inv pipe_empty.
Proof. split; simpl; [apply db_wf_empty|..]; intros ? []%elem_of_nil. Qed.

Lemma pipe_reachable_inv p : pipe_reachable p → pipe_inv p.
Proof. intros Hr. by apply (pipe_steps_spec _ _ pipe_inv_empty Hr). Qed.

Lemma pipe_reachable_db p : pipe_reachable p → reachable (p_pg p).
Proof.
  intros H. unfold pipe_reachable, reachable in *. change db_empty with (p_pg pipe_empty).
  induction H as [p|p p1 p' Hs _ IH]; [done|].
  destruct Hs as [s s' ch Hs|s ch rows Hr|ids e s s' ch Hids Hs]; simpl in *.
  - eapply rtc_l; [by apply queue_step_db|done].
  - done.
  - eapply rtc_l; [by eapply step_mark|done].
Qed.

(** An event is determined by its identity value. *)
Lemma outbox_id_inj s ev ev' :
  db_wf s → ev ∈ outbox s → ev' ∈ outbox s → ID ev = ID ev' → ev = ev'.
Proof.
  intros [_ _ _ _ _ _ _ (Hs & _)]. rewrite list_fmap_compose in Hs.
  by apply (strongly_sorted_key_inj ID).
Qed.

(** ** One cycle *)

Lemma append_events_spec ce events batch :
  match append_events ce events batch with
  | Ok b => b = batch ++ (ch_of <$> events)
  | Err _ => ∃ ev, ev ∈ events ∧ ce_append ce ev ≠ None
  end.
Proof.
  revert batch. induction events as [|e events IH]; intros batch; simpl; [by rewrite app_nil_r|].
  destruct (ce_append ce e) eqn:E.
  - exists e. split; [by left|congruence].
  - specialize (IH (batch ++ [ch_of e])). destruct (append_events _ _ _).
    + by rewrite IH, <-app_assoc.
    + destruct IH as (ev & Hin & Hev). exists ev. split; [by right|done].
Qed.

(** A successful insert adds one row per event; a failed one adds some rows of
    the batch at most. *)
Lemma InsertEvents_spec ce events ch r ch' :
  InsertEvents ce events ch = (r, ch') →
  ∃ rows, ch' = ch ++ rows ∧ Forall (λ c, ∃ ev, ev ∈ events ∧ c = ch_of ev) rows ∧
    (r = Ok tt → rows = ch_of <$> events).
Proof.
  assert (Forall (λ c, ∃ ev, ev ∈ events ∧ c = ch_of ev) (ch_of <$> events)) as Hall.
  { apply Forall_forall. intros c (ev & -> & Hev)%list_elem_of_fmap. eauto. }
  unfold InsertEvents. case_bool_decide as Hl.
  { apply length_zero_iff_nil in Hl as ->. intros [= <- <-]. exists []. by rewrite app_nil_r. }
  destruct (ce_prepare ce).
  { intros [= <- <-]. exists []. by rewrite app_nil_r. }
  pose proof (append_events_spec ce events []) as Hap. destruct (append_events _ _ _) as [b|err].
  - simpl in Hap. subst b. destruct (ce_send ce) as [[landed t]|]; intros [= <- <-].
    + eexists. split; [done|]. split; [|done].
      apply Forall_forall. intros c [_ Hc]%list_elem_of_filter. rewrite Forall_forall in Hall. by auto.
    + by eexists.
  - intros [= <- <-]. exists []. by rewrite app_nil_r.
Qed.

(** What the other processes do between the calls. *)
Definition se_fair se : Prop :=
  (∀ p, rtc pipe_step p (se_between1 se p)) ∧ (∀ p, rtc pipe_step p (se_between2 se p)).

Lemma fetched_in_outbox (ctx : context Sp) e n s evs :
  db_wf s → FetchUnshippedEvents ctx e n s = Ok evs → ∀ ev, ev ∈ evs → ev ∈ outbox s.
Proof.
  intros Hwf Hf ev. apply fetch_inv in Hf as [_ ->]; [|done].
  intros (r & -> & (i & Hi & _)%elem_of_take)%list_elem_of_fmap.
  apply list_elem_of_lookup_2, list_elem_of_filter in Hi as [_ Hr].
  apply elem_of_outbox. eauto.
Qed.

Lemma mark_pipe_step (ctx : context Sp) e ids s ch r s' :
  (∀ ev, ev ∈ outbox s → ID ev ∈ ids → ch_of ev ∈ ch) →
  MarkEventsShipped ctx e ids s = (r, s') → rtc pipe_step (Pipe s ch) (Pipe s' ch).
Proof.
  intros Hids. unfold MarkEventsShipped. case_bool_decide; [by intros [= _ <-]|].
  intros [->|([] & Hm)]%run_stmt_atomic; [done|]. apply rtc_once. by eapply pipe_mark.
Qed.

(** A cycle only takes steps the other processes rely on. *)
Lemma shipOnce_steps se n p l p' :
  pipe_inv p → se_fair se → shipOnce se n p = (l, p') → rtc pipe_step p p'.
Proof.
  intros Hi [Hb1 Hb2]. unfold shipOnce.
  destruct (FetchUnshippedEvents _ _ _ _) as [evs|err] eqn:Ef; [|by intros [= _ <-]].
  pose proof (fetched_in_outbox _ _ _ _ _ (pi_wf _ Hi) Ef) as Hin.
  case_bool_decide; [by intros [= _ <-]|].
  specialize (Hb1 p). destruct (pipe_steps_spec _ _ Hi Hb1) as (Hi1 & Ho1 & _).
  set (p1 := se_between1 se p) in *. destruct p1 as [s1 ch1]. simpl.
  destruct (InsertEvents _ _ _) as [r ch] eqn:Ei.
  apply InsertEvents_spec in Ei as (rows & -> & Hrows & Hok).
  assert (pipe_step (Pipe s1 ch1) (Pipe s1 (ch1 ++ rows))) as Hins.
  { apply pipe_insert. eapply Forall_impl; [exact Hrows|]. intros c (ev & Hev & ->).
    exists ev. split; [|done]. eapply elem_of_prefix; [by apply Hin|done]. }
  destruct r as [[]|err]; [|intros [= _ <-]; by eapply rtc_r].
  rewrite (Hok eq_refl) in Hins. rewrite (Hok eq_refl). clear rows Hrows Hok.
  specialize (Hb2 (Pipe s1 (ch1 ++ (ch_of <$> evs)))).
  destruct (pipe_step_spec _ _ Hi1 Hins) as (Hi2 & _ & _).
  destruct (pipe_steps_spec _ _ Hi2 Hb2) as (Hi3 & Ho3 & Hc3).
  set (p3 := se_between2 se _) in *. destruct p3 as [s3 ch3]. simpl in *.
  assert (rtc pipe_step p (Pipe s3 ch3)) as Hp3.
  { etrans; [exact Hb1|]. by eapply rtc_l. }
  destruct (MarkEventsShipped _ _ _ _) as [r s'] eqn:Em.
  apply (mark_pipe_step _ _ _ _ ch3) in Em; [|].
  - destruct r; intros [= _ <-]; by etrans.
  - intros ev Hev (ev' & Hid & Hev')%list_elem_of_fmap.
    assert (ev = ev') as ->.
    { eapply outbox_id_inj; [apply Hi3|done| |done]. simpl. eapply elem_of_prefix; [|exact Ho3].
      eapply elem_of_prefix; [by apply Hin|exact Ho1]. }
    eapply elem_of_prefix; [|exact Hc3]. apply elem_of_app. right.
    apply list_elem_of_fmap. eauto.
Qed.

Definition turns_fair (turns : list (ship_turn (Sp:=Sp))) : Prop :=
  Forall (λ t, match t with TurnDone => True | TurnTick se => se_fair se end) turns.

Lemma RunShipper_steps n turns p ls p' :
  pipe_inv p → turns_fair turns → RunShipper n turns p = (ls, p') → rtc pipe_step p p'.
Proof.
  revert p ls. induction turns as [|[|se] turns IH]; intros p ls Hi Hf; simpl;
    [by intros [= _ <-]..|].
  apply Forall_cons in Hf as [Hse Hf]. destruct (shipOnce se n p) as [l p1] eqn:E.
  destruct (RunShipper n turns p1) as [ls1 p2] eqn:E'. intros [= _ <-].
  apply shipOnce_steps in E; [|done..]. etrans; [exact E|].
  eapply IH; [|done|exact E']. by apply (pipe_steps_spec _ _ Hi E).
Qed.

(** ** The deduplicated view *)

Definition unique_rows (ch : list ch_row) : Prop :=
  ∀ a b, a ∈ ch → b ∈ ch → ch_event_id a = ch_event_id b → a = b.

Lemma final_snoc ch r : final (ch ++ [r]) = <[ch_event_id r := r]> (final ch).
Proof. unfold final. by rewrite foldl_app. Qed.

Lemma lookup_final ch i r :
  unique_rows ch → final ch !! i = Some r ↔ r ∈ ch ∧ ch_event_id r = i.
Proof.
  induction ch as [|x ch IH] using rev_ind; intros Hu.
  { unfold final. simpl. rewrite lookup_empty, elem_of_nil. by split; [|intros []]. }
  rewrite final_snoc, elem_of_app, list_elem_of_singleton.
  assert (unique_rows ch) as Hu' by (intros a b Ha Hb; apply Hu; apply elem_of_app; by left).
  rewrite lookup_insert_Some, IH by done. split.
  - intros [[<- ->]|[Hne [Hr <-]]]; auto.
  - intros [[Hr| ->] <-]; [|by left].
    destruct (decide (ch_event_id x = ch_event_id r)) as [E|Hne]; [|by right].
    left. split; [done|]. apply Hu; [apply elem_of_app; right; by left|apply elem_of_app; by left|done].
Qed.

Lemma pipe_inv_unique p : pipe_inv p → unique_rows (p_ch p).
Proof.
  intros Hi a b (ev & Hev & ->)%(pi_rows _ Hi) (ev' & Hev' & ->)%(pi_rows _ Hi) E. simpl in E.
  by rewrite (outbox_id_inj _ _ _ (pi_wf _ Hi) Hev Hev' E).
Qed.

(** The analytical copy the outbox asks for. *)
Definition copy_of (l : list Event) : gmap Z ch_row := list_to_map ((λ ev, (ID ev, ch_of ev)) <$> l).

Lemma lookup_copy_of s i r :
  db_wf s → copy_of (outbox s) !! i = Some r ↔ ∃ ev, ev ∈ outbox s ∧ ID ev = i ∧ r = ch_of ev.
Proof.
  intros Hwf. unfold copy_of. rewrite <-elem_of_list_to_map.
  - rewrite list_elem_of_fmap. split; [intros (ev & [= -> ->] & Hev)|intros (ev & Hev & <- & ->)]; eauto.
  - rewrite <-list_fmap_compose. destruct Hwf as [_ _ _ _ _ _ _ (Hs & _)].
    rewrite list_fmap_compose in Hs. fold (outbox s) in Hs. rewrite (list_fmap_ext _ ID) by done.
    by apply strongly_sorted_lt_NoDup.
Qed.

(** What a reachable state of the two databases says of the delivery. *)
Record delivered p : Prop := Delivered {
  dv_shipped : ∀ r, r ∈ job_events (p_pg p) → ev_shipped_at r ≠ None →
    final (p_ch p) !! ID (ev_event r) = Some (ch_of (ev_event r));
  dv_faithful : final (p_ch p) ⊆ copy_of (outbox (p_pg p));
  dv_complete : pending (p_pg p) = [] → final (p_ch p) = copy_of (outbox (p_pg p));
}.

Lemma pipe_delivered p' : pipe_reachable p' → delivered p'.
Proof.
  intros Hr'. pose proof (pipe_reachable_inv _ Hr') as Hi'. pose proof (pipe_inv_unique _ Hi') as Hu.
  assert (∀ r, r ∈ job_events (p_pg p') → ev_shipped_at r ≠ None →
     final (p_ch p') !! ID (ev_event r) = Some (ch_of (ev_event r))) as Hsh.
  { intros r Hin Hn. apply lookup_final; [done|]. split; [|done]. by apply (pi_shipped _ Hi'). }
  assert (final (p_ch p') ⊆ copy_of (outbox (p_pg p'))) as Hsub.
  { apply map_subseteq_spec. intros i c [Hc <-]%lookup_final; [|done].
    apply lookup_copy_of; [apply Hi'|]. destruct (pi_rows _ Hi' _ Hc) as (ev & Hev & ->). eauto. }
  split; [done..|]. intros Hp. apply (anti_symm (⊆)); [done|].
  apply map_subseteq_spec. intros i c (ev & Hev & <- & ->)%lookup_copy_of; [|apply Hi'].
  apply elem_of_outbox in Hev as (r & Hin & ->). apply Hsh; [done|]. intros Hn.
  assert (r ∈ pending (p_pg p')) as Hpr.
  { apply list_elem_of_filter. split; [|done]. unfold unshipped. by apply bool_decide_spec. }
  rewrite Hp in Hpr. by apply elem_of_nil in Hpr.
Qed.

(** C16. At-least-once delivery, exactly once in the deduplicated view: whatever
    fails in whatever cycle (preparing, appending, a send that lands some rows,
    the mark, the connections), with workers, the reaper and other shippers
    running between the calls of a cycle, every event marked shipped is in
    ClickHouse, the view holds nothing but faithful copies of outbox events,
    each once, and it is the whole outbox as soon as nothing is pending. *)
Theorem shipper_delivery n turns p ls p' :
  pipe_reachable p → turns_fair turns → RunShipper n turns p = (ls, p') →
  pipe_reachable p' ∧
  (∀ r, r ∈ job_events (p_pg p') → ev_shipped_at r ≠ None →
     final (p_ch p') !! ID (ev_event r) = Some (ch_of (ev_event r))) ∧
  final (p_ch p') ⊆ copy_of (outbox (p_pg p')) ∧
  (pending (p_pg p') = [] → final (p_ch p') = copy_of (outbox (p_pg p'))).
Proof.
  intros Hr Hf Hrun. pose proof (pipe_reachable_inv _ Hr) as Hi.
  apply RunShipper_steps in Hrun; [|done..].
  assert (pipe_reachable p') as Hr' by (unfold pipe_reachable in *; by etrans).
  split; [done|]. by destruct (pipe_delivered _ Hr').
Qed.

(** ** Progress and isolation *)

(** A cycle in which nothing fails and nobody else runs. *)
Definition healthy se : Prop :=
  ctx_err (se_fetch_ctx se) = None ∧ env_fault (se_fetch se) = None ∧
  ctx_err (se_mark_ctx se) = None ∧ env_fault (se_mark se) = None ∧
  ce_prepare (se_ch se) = None ∧ (∀ ev, ce_append (se_ch se) ev = None) ∧
  ce_send (se_ch se) = None ∧ (∀ p, se_between1 se p = p) ∧ (∀ p, se_between2 se p = p).

Lemma InsertEvents_healthy ce events ch :
  ce_prepare ce = None → (∀ ev, ce_append ce ev = None) → ce_send ce = None →
  InsertEvents ce events ch = (Ok tt, ch ++ (ch_of <$> events)).
Proof.
  intros Hp Ha Hs. unfold InsertEvents. case_bool_decide as Hl.
  { apply length_zero_iff_nil in Hl as ->. by rewrite app_nil_r. }
  rewrite Hp, Hs. pose proof (append_events_spec ce events []) as H.
  destruct (append_events _ _ _) as [b|]; [by rewrite H|]. destruct H as (ev & _ & Hev).
  by rewrite Ha in Hev.
Qed.

Lemma shipOnce_healthy se n p l p' :
  pipe_inv p → healthy se → 0 ≤ n → shipOnce se n p = (l, p') →
  pending (p_pg p') = drop (Z.to_nat n) (pending (p_pg p)) ∧ pipe_inv p' ∧
  p_ch p' = p_ch p ++ (ch_of ∘ ev_event <$> take (Z.to_nat n) (pending (p_pg p))).
Proof.
  intros Hi Hse Hn Hs. pose proof Hse as (Hc1 & Hf1 & Hc2 & Hf2 & Hp & Ha & Hsd & Hb1 & Hb2).
  assert (pipe_inv p') as Hi'.
  { eapply pipe_steps_spec; [exact Hi|]. eapply shipOnce_steps; [done| |exact Hs].
    split; intros q; [by rewrite Hb1|by rewrite Hb2]. }
  revert Hs. unfold shipOnce. rewrite (fetch_ok _ _ _ _ (pi_wf _ Hi) Hc1 Hf1 Hn).
  case_bool_decide as Hl.
  - intros [= _ <-]. rewrite length_fmap, length_take in Hl.
    assert (take (Z.to_nat n) (pending (p_pg p)) = []) as Ht.
    { apply length_zero_iff_nil. by rewrite length_take. }
    rewrite Ht. simpl. rewrite app_nil_r. split_and!; try done.
    rewrite <-(take_drop (Z.to_nat n) (pending (p_pg p))) at 1. by rewrite Ht.
  - rewrite Hb1, InsertEvents_healthy by done. rewrite Hb2, mark_ok by done. intros [= _ <-].
    split_and!; [|done|simpl; by rewrite <-list_fmap_compose].
    simpl. eapply pending_mark_take; [apply Hi|]. simpl. by rewrite list_fmap_compose.
Qed.

(** C17. Progress: [k] cycles without failures leave exactly the pending events
    beyond the first [k * batchSize], so a backlog of [n] events drains in
    [n / batchSize] cycles, rounded up, oldest first and in order. *)
Theorem shipper_drains n ses p :
  pipe_reachable p → Forall healthy ses → 0 < n →
  let p' := (RunShipper n (TurnTick <$> ses) p).2 in
  pending (p_pg p') = drop (length ses * Z.to_nat n) (pending (p_pg p)) ∧
  p_ch p' = p_ch p ++ (ch_of ∘ ev_event <$> take (length ses * Z.to_nat n) (pending (p_pg p))).
Proof.
  intros Hi%pipe_reachable_inv Hh Hn. simpl. revert p Hi.
  induction ses as [|se ses IH]; intros p Hi.
  { simpl. by rewrite app_nil_r. }
  rewrite fmap_cons. cbn [RunShipper length Nat.mul].
  apply Forall_cons in Hh as [Hse Hh]. destruct (shipOnce se n p) as [l p1] eqn:E.
  apply shipOnce_healthy in E as (Hp1 & Hi1 & Hc1); [|done|done|lia].
  destruct (RunShipper n (TurnTick <$> ses) p1) as [ls p2] eqn:E'. simpl.
  destruct (IH Hh p1 Hi1) as [Hp2 Hc2]. rewrite E' in Hp2, Hc2. simpl in *.
  rewrite Hp2, Hc2, Hp1, Hc1, drop_drop, <-app_assoc. split; [done|]. f_equal.
  rewrite <-fmap_app. f_equal. apply take_take_drop.
Qed.

(** The shipper cannot disturb the queue: whatever fails, a cycle leaves the
    jobs, the dead letters, every event and the sequences as the other
    processes left them; a cycle that logs a failure of the fetch or of the
    insert marks nothing, and ClickHouse only ever gains rows. *)
Theorem shipOnce_isolated se n p l p' :
  (∀ q, se_between1 se q = q) → (∀ q, se_between2 se q = q) → shipOnce se n p = (l, p') →
  jobs (p_pg p') = jobs (p_pg p) ∧ dead_letters (p_pg p') = dead_letters (p_pg p) ∧
  outbox (p_pg p') = outbox (p_pg p) ∧ p_ch p `prefix_of` p_ch p' ∧
  (match l with MarkFailed _ _ | Shipped _ => True | _ => p_pg p' = p_pg p end).
Proof.
  intros Hb1 Hb2. unfold shipOnce.
  destruct (FetchUnshippedEvents _ _ _ _) as [evs|err]; [|by intros [= <- <-]].
  case_bool_decide; [by intros [= <- <-]|]. rewrite Hb1.
  destruct (InsertEvents _ _ _) as [r ch] eqn:Ei.
  apply InsertEvents_spec in Ei as (rows & -> & _ & _).
  destruct r as [[]|err]; [|intros [= <- <-]; simpl; split_and!; [done..|by eexists|done]].
  rewrite Hb2. simpl. destruct (MarkEventsShipped _ _ _ _) as [r s'] eqn:Em.
  apply mark_inv in Em as [->|(Hj & Hd & _ & Ho)];
    destruct r; intros [= <- <-]; simpl; split_and!; try done; by eexists.
Qed.

End shipping.

(** ** A concrete pipeline *)

#[export] Instance ch_demo : ClickHouse := {| datetime64 := λ t, t / 1000 |}.

Definition demo_cycle (now : Z) : ship_env unit :=
  ShipEnv bg (quiet now) (λ p, p) ch_quiet (λ p, p) bg (quiet now).

(** A cycle whose send fails after the first event landed. *)
Definition demo_broken (now : Z) : ship_env unit :=
  ShipEnv bg (quiet now) (λ p, p) (ChEnv None (λ _, None) (Some (λ i, i =? 1, "broken pipe")))
    (λ p, p) bg (quiet now).

Definition demo_pipe : pipe := Pipe demo_completed [].

Lemma demo_pipe_reachable : pipe_reachable demo_pipe.
Proof.
  eapply rtc_l; [apply pipe_queue, (queue_enqueue "sum_numbers" "[1]" "" (quiet 0) db_empty 1); reflexivity|].
  eapply rtc_l; [apply pipe_queue; eapply (queue_claim "worker-0" (30 * Second) 1 (quiet (sec 1))); reflexivity|].
  eapply rtc_l; [apply pipe_queue; eapply (queue_complete 1 (quiet (sec 2))); reflexivity|].
  apply rtc_refl.
Qed.

(** The first cycle lands one event twice; after the third nothing is pending. *)
Definition demo_ship_turns : list (ship_turn (Sp:=unit)) :=
  [TurnTick (demo_broken (sec 3)); TurnTick (demo_cycle (sec 4)); TurnTick (demo_cycle (sec 5))].

Lemma shipper_delivery_witness :
  let p' := (RunShipper 2 demo_ship_turns demo_pipe).2 in
  ch_event_id <$> p_ch p' = [1; 1; 2; 3] ∧ final (p_ch p') = copy_of (outbox (p_pg p')).
Proof.
  intros p'. split; [by vm_compute|].
  destruct (shipper_delivery 2 demo_ship_turns demo_pipe
    (RunShipper 2 demo_ship_turns demo_pipe).1 p' demo_pipe_reachable) as (_ & _ & _ & H).
  - repeat constructor; intros q; apply rtc_refl.
  - apply surjective_pairing.
  - apply H. by vm_compute.
Defined.

Lemma shipper_drains_witness :
  let p' := (RunShipper 2 (TurnTick <$> [demo_cycle (sec 3); demo_cycle (sec 4)]) demo_pipe).2 in
  pending (p_pg p') = [].
Proof.
  intros p'.
  destruct (shipper_drains 2 [demo_cycle (sec 3); demo_cycle (sec 4)] demo_pipe demo_pipe_reachable)
    as [H _]; [by repeat constructor|done|]. unfold p'. rewrite H. by vm_compute.
Defined.

