(* ===== verification/GrpcServer.v ===== *)
(** * The gRPC service

    [internal/grpcserver]: [Submit], [GetStatus] and the polling stream of
    [WatchStatus], on top of the store. *)

From stdpp Require Import prelude gmap strings list relations sorting.
From S2P Require Import Prelude GoBase Job Store StoreFacts Steps Claim Invariant History.
From S2P Require Import StoreSpec Tracing Worker WorkerFacts Demo.
#[local] Open Scope jq_scope.

(** The message [jobqueuepb.StatusUpdate]. *)
Record StatusUpdate : Type := MkStatusUpdate {
  Id : Z;
  Upd_Status : string;
  Upd_Attempts : Z;
  Upd_MaxAttempts : Z;
  Upd_LastError : string;
}.

Inductive code : Type := NotFound | Internal.

(** What a method returns besides its answer: a status, or an error of the
    stream as it is. *)
Inductive rpc_error : Type :=
| RpcStatus (c : code) (msg : string)
| RpcErr (err : error).

Definition update_of (snap : Snapshot) : StatusUpdate :=
  MkStatusUpdate (Snap_ID snap) (status_text (Snap_Status snap)) (int32 (Snap_Attempts snap))
    (int32 (Snap_MaxAttempts snap)) (Snap_LastError snap).

(** The answer to an error of [store.GetStatus]. *)
Definition status_error (err : error) : rpc_error :=
  if is_no_rows err then RpcStatus NotFound "job not found" else RpcStatus Internal (Error err).

Section Server.
Context {Pg : Postgres} {O : Otel}.
Implicit Types (ctx : context span_context) (e : stmt_env) (s : db).

Definition Submit ctx e (ty payload : string) s : result rpc_error Z * db * list effect :=
  let ctx := tracer_Start ctx "submit" in
  match Enqueue ctx e ty payload (Inject ctx) s with
  | (Err err, s) =>
      (Err (RpcStatus Internal (Error err)), s, [ESpan "submit" (ctx_trace ctx) [] (Some (Error err))])
  | (Ok id, s) => (Ok id, s, [ESpan "submit" (ctx_trace ctx) [] None])
  end.

Definition Server_GetStatus ctx e (id : Z) s : result rpc_error StatusUpdate :=
  match GetStatus ctx e id s with
  | Err err => Err (status_error err)
  | Ok snap => Ok (update_of snap)
  end.

(** One turn of the stream's loop: its context at the head and during the
    query, the query and the tables it reads, the error of [Send], and the
    context's error if it ends the wait. *)
Record watch_turn : Type := WatchTurn {
  wt_ctx : context span_context;
  wt_get_ctx : context span_context;
  wt_env : stmt_env;
  wt_db : db;
  wt_send : option error;
  wt_done : option string;
}.

Inductive watch_end : Type :=
| WatchOk
| WatchErr (err : rpc_error)
| Watching.

(** [WatchStatus] over the turns given: the updates sent and how it ended, if
    it did. *)
Fixpoint WatchStatus (id : Z) (turns : list watch_turn) : list StatusUpdate * watch_end :=
  match turns with
  | [] => ([], Watching)
  | t :: turns =>
      match ctx_err (wt_ctx t) with
      | Some txt => ([], WatchErr (RpcErr (EText txt)))
      | None =>
          match GetStatus (wt_get_ctx t) (wt_env t) id (wt_db t) with
          | Err err => ([], WatchErr (status_error err))
          | Ok snap =>
              let update := update_of snap in
              match wt_send t with
              | Some err => ([], WatchErr (RpcErr err))
              | None =>
                  if bool_decide (Snap_Status snap = StatusCompleted)
                     || bool_decide (Snap_Status snap = StatusFailed)
                  then ([update], WatchOk)
                  else match wt_done t with
                       | Some txt => ([update], WatchErr (RpcErr (EText txt)))
                       | None =>
                           let '(updates, r) := WatchStatus id turns in (update :: updates, r)
                       end
              end
          end
      end
  end.

(** ** Statuses *)

(** C35. [GetStatus] over gRPC answers with the row: for any reachable tables the
    [int32] conversions lose nothing and the status text names the row's
    status; an unknown id is [NotFound], never [Internal]; a database failure
    is [Internal] with the error's text, never [NotFound]. *)
Theorem Server_GetStatus_spec ctx e id s :
  reachable s →
  (ctx_err ctx = None → env_fault e = None →
     Server_GetStatus ctx e id s =
     match jobs s !! id with
     | None => Err (RpcStatus NotFound "job not found")
     | Some r => Ok (MkStatusUpdate id (status_text (r_status r)) (r_attempts r) 5
                       (default "" (r_last_error r)))
     end) ∧
  (∀ t, ctx_err ctx = Some t ∨ ctx_err ctx = None ∧ (∃ b, env_fault e = Some (b, t)) →
     Server_GetStatus ctx e id s = Err (RpcStatus Internal ("store: get status: " +:+ t))).
Proof.
  intros Hre. unfold Server_GetStatus, GetStatus, run_stmt, stmt_get. split.
  - intros -> ->. simpl. destruct (jobs s !! id) as [r|] eqn:Hr; simpl; [|done].
    unfold update_of, snapshot_of. simpl.
    rewrite (reachable_max_attempts _ _ _ Hre Hr).
    destruct (wf_rows _ (reachable_wf _ Hre) _ _ Hr) as [Ha _].
    rewrite int32_id by (unfold max_int4 in Ha; lia). done.
  - intros t [->|[-> [[] ->]]]; done.
Qed.

(** ** The stream *)

Definition upd_terminal (u : StatusUpdate) : Prop :=
  Upd_Status u = status_text StatusCompleted ∨ Upd_Status u = status_text StatusFailed.

Lemma update_of_terminal snap :
  upd_terminal (update_of snap) ↔
  bool_decide (Snap_Status snap = StatusCompleted) || bool_decide (Snap_Status snap = StatusFailed).
Proof.
  unfold upd_terminal, update_of. simpl. rewrite orb_True, !bool_decide_spec.
  by destruct (Snap_Status snap); split; intros [|]; auto.
Qed.

(** A turn in which nothing fails. *)
Definition turn_ok (t : watch_turn) : Prop :=
  ctx_err (wt_ctx t) = None ∧ ctx_err (wt_get_ctx t) = None ∧ env_fault (wt_env t) = None ∧
  wt_send t = None ∧ wt_done t = None.

(** The status a turn sees. *)
Definition turn_status (id : Z) (t : watch_turn) : option Status := r_status <$> jobs (wt_db t) !! id.

Lemma GetStatus_quiet ctx e id s r :
  ctx_err ctx = None → env_fault e = None → jobs s !! id = Some r →
  GetStatus ctx e id s = Ok (snapshot_of id r).
Proof. intros Hc Hf Hr. unfold GetStatus, run_stmt, stmt_get. by rewrite Hc, Hf, Hr. Qed.

Lemma WatchStatus_shape id turns us r :
  WatchStatus id turns = (us, r) →
  match r with
  | WatchOk => ∃ pre u, us = pre ++ [u] ∧ Forall (λ u, ¬ upd_terminal u) pre ∧ upd_terminal u
  | _ => Forall (λ u, ¬ upd_terminal u) us
  end.
Proof.
  revert us r. induction turns as [|t turns IH]; intros us r; simpl; [by intros [= <- <-]|].
  destruct (ctx_err (wt_ctx t)); [by intros [= <- <-]|].
  destruct (GetStatus _ _ _ _) as [snap|err]; [|by intros [= <- <-]].
  destruct (wt_send t); [by intros [= <- <-]|].
  pose proof (update_of_terminal snap) as Ht. destruct (_ || _).
  - intros [= <- <-]. exists [], (update_of snap). split_and!; [done..|]. by apply Ht.
  - assert (¬ upd_terminal (update_of snap)) as Hn by (rewrite Ht; by intros []).
    destruct (wt_done t); [intros [= <- <-]; by repeat constructor|].
    destruct (WatchStatus id turns) as [us' r'] eqn:E. intros [= <- <-].
    specialize (IH _ _ eq_refl). destruct r'.
    + destruct IH as (pre & u & -> & Hpre & Hu). exists (update_of snap :: pre), u.
      split_and!; [done|by constructor|done].
    + by constructor.
    + by constructor.
Qed.

Lemma WatchStatus_reaches id turns t rest st :
  Forall turn_ok turns → turn_ok t → turn_status id t = Some st →
  st = StatusCompleted ∨ st = StatusFailed →
  Forall (λ t, turn_status id t = Some StatusQueued ∨ turn_status id t = Some StatusRunning) turns →
  (WatchStatus id (turns ++ t :: rest)).2 = WatchOk ∧
  Upd_Status <$> (WatchStatus id (turns ++ t :: rest)).1
  = (default "" ∘ option_map status_text ∘ turn_status id <$> turns) ++ [status_text st].
Proof.
  intros Hok (Hc & Hg & Hf & Hs & Hd) Hst Hterm. unfold turn_status in *.
  destruct (jobs (wt_db t) !! id) as [r|] eqn:Hr; simplify_eq/=.
  induction turns as [|t0 turns IH]; intros Hrun; simpl.
  - rewrite Hc, (GetStatus_quiet _ _ _ _ _ Hg Hf Hr), Hs. simpl.
    destruct Hterm as [E|E]; rewrite E; simpl; by rewrite E.
  - apply Forall_cons in Hok as [(Hc0 & Hg0 & Hf0 & Hs0 & Hd0) Hok].
    apply Forall_cons in Hrun as [Hst0 Hrun]. specialize (IH Hok Hrun).
    destruct (jobs (wt_db t0) !! id) as [r0|] eqn:Hr0; [|by destruct Hst0].
    assert (bool_decide (r_status r0 = StatusCompleted)
            || bool_decide (r_status r0 = StatusFailed) = false) as Hb.
    { by destruct Hst0 as [[= ->]|[= ->]]. }
    rewrite Hc0, (GetStatus_quiet _ _ _ _ _ Hg0 Hf0 Hr0), Hs0, Hd0.
    cbn [Snap_Status snapshot_of]. rewrite Hb.
    destruct (WatchStatus id (turns ++ t :: rest)) as [us' r']. simpl in *.
    destruct IH as [-> Hus]. split; [done|]. f_equal. exact Hus.
Qed.

(** [WatchStatus] streams every poll until the job is terminal and not longer:
    the stream is closed without error only after a terminal update, which is
    the last and the only terminal one; and as soon as a poll sees the job
    completed or failed the stream ends with exactly that update, after one
    update per earlier poll, each with the status that poll saw. *)
Theorem WatchStatus_spec id turns :
  (∀ us, WatchStatus id turns = (us, WatchOk) →
     ∃ pre u, us = pre ++ [u] ∧ Forall (λ u, ¬ upd_terminal u) pre ∧ upd_terminal u) ∧
  (∀ us err, WatchStatus id turns = (us, WatchErr err) → Forall (λ u, ¬ upd_terminal u) us) ∧
  (∀ t rest st, Forall turn_ok turns → turn_ok t → turn_status id t = Some st →
     st = StatusCompleted ∨ st = StatusFailed →
     Forall (λ t, turn_status id t = Some StatusQueued ∨ turn_status id t = Some StatusRunning)
       turns →
     (WatchStatus id (turns ++ t :: rest)).2 = WatchOk ∧
     Upd_Status <$> (WatchStatus id (turns ++ t :: rest)).1
     = (default "" ∘ option_map status_text ∘ turn_status id <$> turns) ++ [status_text st]).
Proof.
  split_and!.
  - intros us Hw. apply (WatchStatus_shape _ _ _ _ Hw).
  - intros us err Hw. apply (WatchStatus_shape _ _ _ _ Hw).
  - intros t rest st. apply WatchStatus_reaches.
Qed.

(** ** From submission to execution *)

(** C29. One trace from submission to execution: whatever happens between [Submit]
    and the claim of that job, on whatever attempt, every span the worker emits
    for it, on every branch, belongs to the trace of the [submit] span, which
    travels in the row's [trace_context]; the [claim] span among them carries
    the job's id, type and attempt. *)
Theorem trace_end_to_end {W} `{!OtelLaws O} (w : Worker (W:=W))
    (ctx cctx rctx : context span_context) e e' ty pl s id s1
    out s2 limit jl s3 j pe st st' t :
  reachable s → Submit ctx e ty pl s = (Ok id, s1, out) → rtc db_step s1 s2 →
  Claim cctx e' (w_id w) (leaseDuration w) limit s2 = (Ok jl, s3) → j ∈ jl → Job_ID j = id →
  process w pe rctx j st = Some st' →
  out = [ESpan "submit" (Some t) [] None] →
  ∃ l, ws_out st' = ws_out st ++ l ∧ spans_in t l ∧ ESpan "claim" (Some t) (claim_attrs j) None ∈ l.
Proof.
  intros Hre Hsub Hs Hc Hj Hid Hp Hout. unfold Submit in Hsub.
  set (sctx := tracer_Start ctx "submit") in Hsub.
  destruct (Enqueue sctx e ty pl (Inject sctx) s) as [[i|] s0] eqn:E; [|done]. simplify_eq.
  destruct (Enqueue_Claim_aux _ _ _ _ _ _ _ _ _ _ _ _ _ _ _ _ _ (reachable_wf _ Hre) E Hs Hc Hj eq_refl)
    as (_ & _ & Htc & _).
  by eapply process_trace.
Qed.

End Server.

(** ** The service on concrete tables *)

Lemma Server_GetStatus_spec_witness :
  Server_GetStatus Background (quiet (sec 3)) 1 demo_completed
  = Ok (MkStatusUpdate 1 "completed" 1 5 "").
Proof.
  destruct (Server_GetStatus_spec Background (quiet (sec 3)) 1 demo_completed demo_reachable) as [H _].
  destruct demo_completed_job as (r & Hr & Hst & Ha & Hl).
  rewrite H, Hr, Hst, Ha, Hl by done. reflexivity.
Defined.

(** A job submitted in trace 7, claimed and processed by [demo_worker]. *)
Definition demo_submit_db : db :=
  (Submit (Context None (Some 7%nat)) (quiet 0) "sum_numbers" "[1]" db_empty).1.2.
Definition demo_claim_db : db :=
  (Claim bg (quiet (sec 1)) "worker-0" (30 * Second) 1 demo_submit_db).2.
Definition demo_job7 : Job := MkJob 1 "sum_numbers" "[1]" 1 5 (unary 7).

Lemma trace_end_to_end_witness :
  ∃ st', process demo_worker demo_proc Background demo_job7 (WState demo_claim_db tt []) = Some st' ∧
    ESpan "claim" (Some 7) (claim_attrs demo_job7) None ∈ ws_out st'.
Proof.
  destruct (process_spec demo_worker demo_proc Background demo_job7 (WState demo_claim_db tt [])
    demo_draw_ok) as (st' & _ & Hp & _).
  exists st'. split; [exact Hp|].
  destruct (trace_end_to_end demo_worker (Context None (Some 7%nat)) Background Background (quiet 0)
    (quiet (sec 1)) "sum_numbers" "[1]" db_empty 1 demo_submit_db
    [ESpan "submit" (Some 7) [] None] demo_submit_db 1 [demo_job7] demo_claim_db demo_job7 demo_proc
    (WState demo_claim_db tt []) st' 7) as (l & Hl & _ & Hin).
  - apply rtc_refl.
  - vm_compute; reflexivity.
  - apply rtc_refl.
  - vm_compute; reflexivity.
  - by left.
  - reflexivity.
  - exact Hp.
  - reflexivity.
  - by rewrite Hl.
Defined.

(** Two polls see the job queued and then completed. *)
Definition demo_poll (s : db) : watch_turn :=
  WatchTurn Background Background (quiet (sec 3)) s None None.

