(* ===== verification/WireTypes.v ===== *)
(** * Widths across the components

    A job's id and its counters pass through a Postgres [bigint] or [int4], a Go
    [int64] or [int], a protobuf [int64] or [int32] and a ClickHouse [Int64] or
    [UInt32], with conversions in between.  None of them changes a value. *)

From stdpp Require Import prelude gmap strings list relations sorting.
From S2P Require Import Prelude GoBase Job Store StoreFacts Steps Claim Invariant History.
From S2P Require Import StoreSpec Tracing Worker GrpcServer Shipper ShipperFacts Demo.
#[local] Open Scope jq_scope.

(** ** Identity columns *)

(** No sequence has run past the column's type. *)
Definition seqs_fit (s : db) : Prop :=
  next_job s ≤ 2 ^ 63 ∧ next_dead_letter s ≤ 2 ^ 63 ∧ next_event s ≤ 2 ^ 63.

Lemma insert_job_events_fit e l s s' : insert_job_events e l s = Ok s' → seqs_fit s → seqs_fit s'.
Proof.
  unfold insert_job_events, seqs_fit. destruct l as [|n l]; [by intros [= <-]|].
  intros (? & Hle%check_ok & [= <-])%bind_result_ok (? & ? & _). apply Z.leb_le in Hle.
  unfold max_int64 in Hle. simpl in *. lia.
Qed.

Lemma insert_dead_letter_rows_fit now msg id p rows tbl tbl' :
  insert_dead_letter_rows now msg id (p :: rows) tbl = Ok tbl' → id + Z.of_nat (length rows) ≤ max_int64.
Proof.
  revert id p tbl. induction rows as [|q rows IH]; intros id [i r] tbl; cbn [insert_dead_letter_rows];
    intros (? & _ & (? & Hle%check_ok & Hr)%bind_result_ok)%bind_result_ok; apply Z.leb_le in Hle; [simpl; lia|].
  apply IH in Hr. cbn [length]. lia.
Qed.

Lemma insert_dead_letters_fit e msg rows s s' : insert_dead_letters e msg rows s = Ok s' → seqs_fit s → seqs_fit s'.
Proof.
  unfold insert_dead_letters, seqs_fit. destruct rows as [|p rows]; [by intros [= <-]|].
  intros (tbl & Hr%insert_dead_letter_rows_fit & [= <-])%bind_result_ok (? & _ & ?).
  unfold max_int64 in Hr. simpl in *. lia.
Qed.

Section types.
Context {Pg : Postgres} {Ch : ClickHouse}.
Implicit Types (s : db) (p : pipe).

Lemma seqs_fit_step s s' : seqs_fit s → db_step s s' → seqs_fit s'.
Proof.
  intros Hf Hs. destruct Hs as
    [ty pl tc e s id s' Hs|w lease limit e s jl s' Hs|i e s u s' Hs|i t err e s u s' Hs
    |i err e s u s' Hs|e s nd s' Hs|ids e s u s' Hs].
  - apply bind_result_ok in Hs as (? & _ & (doc & _ & (? & Hle%check_ok & (s2 & Hi & [= _ <-])%bind_result_ok)
      %bind_result_ok)%bind_result_ok). apply Z.leb_le in Hle. unfold max_int64 in Hle.
    eapply insert_job_events_fit; [exact Hi|]. unfold seqs_fit in *. simpl. lia.
  - unfold stmt_claim in Hs. do 4 (apply bind_result_ok in Hs as (? & _ & Hs)).
    apply bind_result_ok in Hs as (s1 & Hi & [= _ <-]). by eapply insert_job_events_fit.
  - apply bind_result_ok in Hs as (s1 & Hi & [= _ <-]). by eapply insert_job_events_fit.
  - apply bind_result_ok in Hs as (? & _ & (s1 & Hi & [= _ <-])%bind_result_ok). by eapply insert_job_events_fit.
  - apply bind_result_ok in Hs as (? & _ & (s1 & Hd & (s2 & Hi & [= _ <-])%bind_result_ok)%bind_result_ok).
    eapply insert_job_events_fit; [exact Hi|]. by eapply insert_dead_letters_fit.
  - apply bind_result_ok in Hs as (s1 & Hd & (s2 & Hi & [= _ <-])%bind_result_ok).
    eapply insert_job_events_fit; [exact Hi|]. by eapply insert_dead_letters_fit.
  - by injection Hs as _ <-.
Qed.

Lemma seqs_fit_reachable s : reachable s → seqs_fit s.
Proof.
  apply reachable_ind_r; [unfold seqs_fit; simpl; lia|]. intros s1 s2 _ Hf Hs. by eapply seqs_fit_step.
Qed.

(** ** Events *)

Lemma apply_event_attempts m ev m' :
  apply_event m ev = Some m' → attempts_in m' (JobID ev) = Event_Attempts ev ∧ is_Some (m' !! JobID ev).
Proof.
  unfold apply_with, attempts_in. intros (h & Hh & [= <-])%bind_Some. rewrite lookup_insert_eq. split; [|by eexists].
  simpl. unfold hist_step in Hh. destruct (m !! JobID ev) as [h0|].
  - destruct (Event_EventType ev); apply bind_Some in Hh as (st & Hst & Hh); case_decide; by simplify_eq/=.
  - destruct (Event_EventType ev); try done. case_decide; by simplify_eq/=.
Qed.

(** An event carries attempts its job has had. *)
Lemma replay_event_attempts l m m' ev :
  replay l m = Some m' → (∀ id, 0 ≤ attempts_in m id) → ev ∈ l →
  0 ≤ Event_Attempts ev ≤ attempts_in m' (JobID ev) ∧ is_Some (m' !! JobID ev).
Proof.
  revert m. induction l as [|ev' l IH]; intros m; simpl; [by intros _ _ ?%elem_of_nil|].
  intros (m1 & Hm & Hr)%bind_Some Hpos.
  assert (∀ id, 0 ≤ attempts_in m1 id) as Hpos1.
  { intros id. rewrite (attempts_in_step _ _ _ id Hm). specialize (Hpos id). destruct (decide (_ ∧ _)); lia. }
  intros [->|Hin]%elem_of_cons; [|by eapply IH].
  destruct (apply_event_attempts _ _ _ Hm) as [Ha Hs]. specialize (Hpos1 (JobID ev')).
  rewrite (replay_attempts _ _ _ (JobID ev') Hr), <-Ha. split; [lia|].
  pose proof (replay_enqueues _ _ _ (JobID ev') Hr) as He. destruct Hs as [h Hs]. rewrite Hs in He.
  destruct (m' !! JobID ev'); [by eexists|lia].
Qed.

Lemma event_typed s ev :
  reachable s → ev ∈ outbox s →
  (∃ r, jobs s !! JobID ev = Some r ∧ 0 ≤ Event_Attempts ev ≤ r_attempts r) ∧ 1 ≤ ID ev < 2 ^ 63.
Proof.
  intros Hr Hev. pose proof (reachable_wf _ Hr) as Hwf. split.
  - destruct (replay_event_attempts _ _ _ ev (history_reachable _ Hr)) as [Ha [h Hh]]; [|done|].
    + intros id. unfold attempts_in. by rewrite lookup_empty.
    + unfold attempts_in, abs_jobs in *. rewrite lookup_fmap in Ha, Hh.
      destruct (jobs s !! JobID ev) as [r|]; [|done]. exists r. split; [done|]. exact Ha.
  - destruct (wf_event_ids _ Hwf) as (_ & Hf & _). destruct (seqs_fit_reachable _ Hr) as (_ & _ & Hn).
    rewrite Forall_forall in Hf. unfold outbox in Hev. apply list_elem_of_fmap in Hev as (row & -> & Hin).
    specialize (Hf (ID (ev_event row))). assert (1 ≤ ID (ev_event row) < next_event s); [|lia].
    apply Hf, list_elem_of_fmap. by exists row.
Qed.

(** C27. No conversion on the way loses a bit, in any reachable state of the two
    databases: every job id is a positive [int64] and its counters are [int32]s,
    so a status message carries the row's values; every outbox event has an
    [int64] id and belongs to a row; and every row in ClickHouse, whose
    attempts go through a conversion to [uint32], has exactly the ids, the
    attempts and the type of an event of the outbox. *)
Theorem wire_types p :
  pipe_reachable p →
  (∀ id r, jobs (p_pg p) !! id = Some r →
     0 < id ∧ int64 id = id ∧
     update_of (snapshot_of id r) =
       MkStatusUpdate id (status_text (r_status r)) (r_attempts r) (r_max_attempts r) (default "" (r_last_error r))) ∧
  (∀ ev, ev ∈ outbox (p_pg p) →
     int64 (ID ev) = ID ev ∧ int64 (JobID ev) = JobID ev ∧ is_Some (jobs (p_pg p) !! JobID ev) ∧
     int32 (Event_Attempts ev) = Event_Attempts ev) ∧
  (∀ c, c ∈ p_ch p → ∃ ev, ev ∈ outbox (p_pg p) ∧
     ch_event_id c = ID ev ∧ ch_job_id c = JobID ev ∧ ch_attempts c = Event_Attempts ev ∧
     ch_event_type c = event_type_text (Event_EventType ev) ∧ ch_job_type c = JobType ev).
Proof.
  intros Hp. pose proof (pipe_reachable_inv _ Hp) as Hi. pose proof (pipe_reachable_db _ Hp) as Hr.
  pose proof (reachable_wf _ Hr) as Hwf. destruct (seqs_fit_reachable _ Hr) as (Hn & _ & _).
  assert (∀ id r, jobs (p_pg p) !! id = Some r → 0 < id ∧ int64 id = id ∧ 0 ≤ r_attempts r < 2 ^ 31) as Hrow.
  { intros id r Hid. pose proof (wf_job_ids _ Hwf _ _ Hid). destruct (wf_rows _ Hwf _ _ Hid) as [Ha _].
    unfold max_int4 in Ha. rewrite int64_id by lia. split_and!; lia || done. }
  assert (∀ ev, ev ∈ outbox (p_pg p) → 0 ≤ Event_Attempts ev < 2 ^ 31) as Hatt.
  { intros ev Hev. destruct (event_typed _ _ Hr Hev) as [(r & Hid & Ha) _]. destruct (Hrow _ _ Hid) as (_ & _ & ?). lia. }
  split_and!.
  - intros id r Hid. destruct (Hrow _ _ Hid) as (H0 & H1 & Ha). split_and!; [done..|].
    unfold update_of, snapshot_of. simpl. rewrite (reachable_max_attempts _ _ _ Hr Hid).
    rewrite !int32_id by lia. done.
  - intros ev Hev. destruct (event_typed _ _ Hr Hev) as [(r & Hid & Ha) Hev1].
    destruct (Hrow _ _ Hid) as (_ & H1 & ?). split_and!; [apply int64_id; lia|done|by eexists|apply int32_id; lia].
  - intros c (ev & Hev & ->)%(pi_rows _ Hi). exists ev. specialize (Hatt ev Hev).
    split_and!; try done. simpl. unfold uint32. apply Z.mod_small. lia.
Qed.

End types.

Lemma wire_types_witness :
  ∃ r, jobs demo_completed !! 1 = Some r ∧ Upd_Attempts (update_of (snapshot_of 1 r)) = r_attempts r.
Proof.
  destruct (wire_types demo_pipe demo_pipe_reachable) as [H _].
  destruct demo_completed_job as (r & Hr & _). exists r. split; [exact Hr|].
  destruct (H 1 r Hr) as (_ & _ & E). by rewrite E.
Defined.
