(* ===== verification/FilePath.v ===== *)
(** * Slash-separated paths

    The part of Go's [path/filepath] and [strings] that the [write_file]
    handler uses, on Unix: [Clean], [Join], [Dir] and [HasPrefix].  [Clean]
    works on the elements between slashes, with the output elements on a stack
    whose head is the last element written. *)

From stdpp Require Import prelude strings list.
From Stdlib Require Import Ascii String.
From S2P Require Import Prelude.
#[local] Open Scope jq_scope.

Definition slash : ascii := "/"%char.

(** [strings.Split(s, "/")]. *)
Fixpoint split_slash (s : string) : list string :=
  match s with
  | EmptyString => [""]
  | String c s =>
      if bool_decide (c = slash) then "" :: split_slash s
      else match split_slash s with
           | x :: l => String c x :: l
           | [] => [String c EmptyString]
           end
  end.

(** [strings.Join(l, "/")]. *)
Fixpoint join_slash (l : list string) : string :=
  match l with
  | [] => ""
  | [x] => x
  | x :: l => x +:+ String slash (join_slash l)
  end.

(** The loop of [Clean]. *)
Fixpoint clean_loop (rooted : bool) (elems out : list string) : list string :=
  match elems with
  | [] => out
  | x :: elems =>
      if bool_decide (x = "") || bool_decide (x = ".") then clean_loop rooted elems out
      else if bool_decide (x = "..") then
        match out with
        | y :: out' =>
            if bool_decide (y = "..") then clean_loop rooted elems (".." :: out)
            else clean_loop rooted elems out'
        | [] => if rooted then clean_loop rooted elems [] else clean_loop rooted elems [".."]
        end
      else clean_loop rooted elems (x :: out)
  end.

Definition is_rooted (path : string) : bool :=
  match path with String c _ => bool_decide (c = slash) | EmptyString => false end.

(** The elements of a cleaned path, first to last. *)
Definition clean_elems (path : string) : list string :=
  rev (clean_loop (is_rooted path) (split_slash path) []).

Definition root_of (rooted : bool) : string := if rooted then "/" else "".

Definition Clean (path : string) : string :=
  if bool_decide (path = "") then "."
  else
    let out := root_of (is_rooted path) +:+ join_slash (clean_elems path) in
    if bool_decide (out = "") then "." else out.

(** [filepath.Join] of two elements: empty ones are ignored. *)
Definition Join (a b : string) : string :=
  if bool_decide (a = "") then (if bool_decide (b = "") then "" else Clean b)
  else Clean (a +:+ String slash b).

(** [strings.HasPrefix]. *)
Fixpoint HasPrefix (s prefix : string) {struct prefix} : bool :=
  match prefix, s with
  | EmptyString, _ => true
  | String c prefix, String d s => bool_decide (c = d) && HasPrefix s prefix
  | String _ _, EmptyString => false
  end.

(** [filepath.Dir]: what precedes the last slash, cleaned. *)
Fixpoint up_to_last_slash (s : string) : string :=
  match s with
  | EmptyString => ""
  | String c s =>
      if bool_decide (c = slash) then String c (up_to_last_slash s)
      else match up_to_last_slash s with
           | EmptyString => ""
           | t => String c t
           end
  end.

Definition Dir (path : string) : string := Clean (up_to_last_slash path).

(** ** Splitting and joining *)

Fixpoint no_slash (s : string) : bool :=
  match s with
  | EmptyString => true
  | String c s => negb (bool_decide (c = slash)) && no_slash s
  end.

Lemma split_slash_not_nil s : split_slash s ≠ [].
Proof. destruct s as [|c s]; simpl; [done|]. repeat case_match; done. Qed.

Lemma split_slash_no_slash s : Forall (λ x, no_slash x = true) (split_slash s).
Proof.
  induction s as [|c s IH]; simpl; [by repeat constructor|].
  case_bool_decide as Hc; [by constructor|].
  destruct (split_slash s) as [|x l]; [|inversion_clear IH]; constructor; simpl;
    rewrite ?bool_decide_false by done; done.
Qed.

Lemma split_slash_app a b : split_slash (a +:+ String slash b) = split_slash a ++ split_slash b.
Proof.
  induction a as [|c a IH]; [done|]. simpl in *. rewrite IH. case_bool_decide; [done|].
  pose proof (split_slash_not_nil a). by destruct (split_slash a).
Qed.

Lemma split_slash_single s : no_slash s = true → split_slash s = [s].
Proof.
  induction s as [|c s IH]; simpl; [done|]. case_bool_decide; [done|]. simpl.
  intros Hs. by rewrite IH.
Qed.

Lemma join_slash_cons x l : l ≠ [] → join_slash (x :: l) = x +:+ String slash (join_slash l).
Proof. by destruct l. Qed.

Lemma split_join l :
  l ≠ [] → Forall (λ x, no_slash x = true) l → split_slash (join_slash l) = l.
Proof.
  induction l as [|x l IH]; [done|]. intros _ [Hx Hl]%Forall_cons.
  destruct l as [|y l]; [by apply split_slash_single|].
  rewrite join_slash_cons, split_slash_app, split_slash_single by done. rewrite IH by done. done.
Qed.

Lemma join_slash_app l l' :
  l ≠ [] → l' ≠ [] → join_slash (l ++ l') = join_slash l +:+ String slash (join_slash l').
Proof.
  induction l as [|x l IH]; [done|]. intros _ Hl'. destruct l as [|y l].
  - by rewrite <-join_slash_cons.
  - change ((x :: y :: l) ++ l') with (x :: ((y :: l) ++ l')).
    rewrite !join_slash_cons, IH, string_app_assoc by done. done.
Qed.

(** ** The loop *)

Lemma clean_loop_app rooted l l' out :
  clean_loop rooted (l ++ l') out = clean_loop rooted l' (clean_loop rooted l out).
Proof.
  revert out. induction l as [|x l IH]; intros out; simpl; [done|]. repeat case_match; apply IH.
Qed.

(** An element that names a file or directory. *)
Definition real (x : string) : Prop := x ≠ "" ∧ x ≠ "." ∧ x ≠ "..".

#[global] Instance real_dec x : Decision (real x).
Proof. unfold real. apply _. Defined.

(** The stack: real elements above the unresolved [..]s, which a rooted path
    does not have. *)
Definition stack_ok (rooted : bool) (out : list string) : Prop :=
  ∃ reals k, out = reals ++ replicate k ".." ∧ Forall real reals ∧ (rooted = true → k = O).

Lemma clean_loop_ok rooted l out : stack_ok rooted out → stack_ok rooted (clean_loop rooted l out).
Proof.
  revert out. induction l as [|x l IH]; intros out Hok; simpl; [done|].
  case_bool_decide; [by apply IH|]. simpl. case_bool_decide; [by apply IH|].
  destruct Hok as (reals & k & -> & Hr & Hk). case_bool_decide as Hx.
  - destruct reals as [|y reals]; simpl.
    + destruct k as [|k]; simpl.
      * destruct rooted; apply IH; [by exists [], O|by exists [], 1%nat].
      * apply IH. exists [], (S (S k)). split_and!; [done..|]. intros H'. by specialize (Hk H').
    + apply Forall_cons in Hr as [[_ [_ Hy]] Hr]. rewrite bool_decide_false by done.
      apply IH. by exists reals, k.
  - apply IH. exists (x :: reals), k. split_and!; [done| |done]. by constructor.
Qed.

Lemma clean_loop_no_slash rooted l out :
  Forall (λ x, no_slash x = true) l → Forall (λ x, no_slash x = true) out →
  Forall (λ x, no_slash x = true) (clean_loop rooted l out).
Proof.
  revert out. induction l as [|x l IH]; intros out Hl Ho; simpl; [done|].
  apply Forall_cons in Hl as [Hx Hl].
  case_bool_decide; [by apply IH|]. simpl. case_bool_decide; [by apply IH|].
  case_bool_decide; [|apply IH; [done|by constructor]].
  destruct out as [|y out]; [destruct rooted; apply IH; by repeat constructor|].
  case_bool_decide; apply IH; try done; [by constructor|]. by apply Forall_cons in Ho as [_ Ho].
Qed.

(** Elements that are not [..] are only ever added. *)
Lemma clean_loop_plain rooted l out :
  Forall (λ x, x ≠ "..") l → clean_loop rooted l out = rev (filter real l) ++ out.
Proof.
  revert out. induction l as [|x l IH]; intros out Hl; simpl; [done|].
  apply Forall_cons in Hl as [Hx Hl]. rewrite filter_cons.
  case_bool_decide as H1; [rewrite decide_False by (intros [? _]; done); by apply IH|].
  case_bool_decide as H2; [rewrite decide_False by (intros [_ [? _]]; done); by apply IH|].
  rewrite (bool_decide_false (x = "..")) by done. rewrite decide_True by done.
  simpl. rewrite IH, <-app_assoc by done. done.
Qed.

(** ** Cleaned paths *)

Lemma HasPrefix_spec s p : HasPrefix s p = true ↔ ∃ t, s = p +:+ t.
Proof.
  revert s. induction p as [|c p IH]; intros s; simpl; [split; [by exists s|by intros _]|].
  destruct s as [|d s]; [split; [done|by intros [t ?]]|].
  rewrite andb_true_iff, bool_decide_eq_true, IH. split.
  - intros [-> [t ->]]. by exists t.
  - intros [t Ht]. injection Ht as -> ->. split; [done|by eexists].
Qed.

Definition elem_ok (x : string) : Prop := no_slash x = true ∧ x ≠ "" ∧ x ≠ ".".

Lemma clean_elems_stack path : stack_ok (is_rooted path) (rev (clean_elems path)).
Proof. unfold clean_elems. rewrite rev_involutive. apply clean_loop_ok. by exists [], O. Qed.

Lemma clean_elems_ok path : Forall elem_ok (clean_elems path).
Proof.
  assert (Forall (λ x, no_slash x = true) (clean_elems path)) as Hs.
  { unfold clean_elems. apply Forall_rev, clean_loop_no_slash;
      [apply split_slash_no_slash|constructor]. }
  destruct (clean_elems_stack path) as (reals & k & E & Hr & _).
  apply (f_equal (@rev _)) in E. rewrite rev_involutive in E. rewrite E in *.
  apply Forall_forall. intros x Hx. rewrite Forall_forall in Hs. split; [by apply Hs|].
  rewrite Forall_forall in Hr. apply list_elem_of_In, in_rev, list_elem_of_In in Hx.
  apply elem_of_app in Hx as [(? & ? & _)%Hr|[-> _]%elem_of_replicate]; done.
Qed.

Lemma clean_elems_split path :
  clean_elems path ≠ [] → split_slash (join_slash (clean_elems path)) = clean_elems path.
Proof.
  intros Hne. apply split_join; [done|]. eapply Forall_impl; [apply clean_elems_ok|].
  by intros x [? _].
Qed.

Lemma join_slash_nonempty l : l ≠ [] → Forall elem_ok l → join_slash l ≠ "".
Proof.
  intros Hne Hok. destruct l as [|x [|y l]]; [done| |]; apply Forall_cons in Hok as [(_ & Hx & _) _].
  - done.
  - rewrite join_slash_cons by done. by destruct x.
Qed.

(** The text of a cleaned path. *)
Lemma Clean_text path :
  Clean path = match clean_elems path with
               | [] => if is_rooted path then "/" else "."
               | es => root_of (is_rooted path) +:+ join_slash es
               end.
Proof.
  unfold Clean. case_bool_decide as Hp; [by subst|].
  pose proof (clean_elems_ok path) as Hok. destruct (clean_elems path) as [|x l] eqn:E.
  - by destruct (is_rooted path).
  - rewrite bool_decide_false; [done|]. destruct (is_rooted path); [done|].
    by apply join_slash_nonempty.
Qed.

Lemma is_rooted_app a b : a ≠ "" → is_rooted (a +:+ b) = is_rooted a.
Proof. by destruct a. Qed.

Lemma clean_elems_join base name :
  base ≠ "" →
  clean_elems (base +:+ String slash name)
  = rev (clean_loop (is_rooted base) (split_slash name) (rev (clean_elems base))).
Proof.
  intros Hb. unfold clean_elems. rewrite is_rooted_app, split_slash_app, clean_loop_app by done.
  by rewrite rev_involutive.
Qed.

(** The text of one cleaned path extends that of another by a slash exactly
    when its elements extend the other's by at least one. *)
Lemma text_prefix_elems r es es' :
  es ≠ [] → Forall elem_ok es → Forall elem_ok es' →
  (∃ t, match es' with
        | [] => if r : bool then "/" else "."
        | _ => root_of r +:+ join_slash es'
        end = (root_of r +:+ join_slash es) +:+ String slash t)
  ↔ ∃ rest, rest ≠ [] ∧ es' = es ++ rest.
Proof.
  intros Hne Hok Hok'.
  assert (∀ l, l ≠ [] → Forall elem_ok l → split_slash (join_slash l) = l) as Hsp.
  { intros l Hl Hlo. apply split_join; [done|]. eapply Forall_impl; [exact Hlo|]. by intros x [? _]. }
  assert (∀ s t, s = join_slash es +:+ String slash t → split_slash s = es ++ split_slash t) as Hs.
  { intros s t ->. by rewrite split_slash_app, Hsp. }
  assert (∀ x (t : string), [x] = es ++ split_slash t → False) as Hone.
  { intros x t E. apply (f_equal (@List.length string)) in E. rewrite length_app in E. simpl in E.
    pose proof (split_slash_not_nil t). destruct es, (split_slash t); simpl in E; done || lia. }
  split.
  - intros [t Ht]. rewrite string_app_assoc in Ht. destruct es' as [|x es'].
    + exfalso. destruct r; simpl in Ht.
      * injection Ht as Ht. apply Hs in Ht. by apply Hone in Ht.
      * apply Hs in Ht. by apply Hone in Ht.
    + exists (split_slash t). split; [apply split_slash_not_nil|].
      rewrite <-(Hsp (x :: es')) by done. apply Hs.
      destruct r; simpl in Ht; [by injection Ht|done].
  - intros (rest & Hrest & ->). exists (join_slash rest).
    destruct (es ++ rest) eqn:E; [by destruct es|]. rewrite <-E.
    by rewrite join_slash_app, string_app_assoc by done.
Qed.

(** ** Directories of cleaned paths *)

Lemma stack_ok_tail rooted x out : stack_ok rooted (x :: out) → stack_ok rooted out.
Proof.
  intros ([|y reals] & k & E & Hr & Hk).
  - destruct k as [|k]; [done|]. injection E as _ ->. exists [], k. split_and!; [done..|].
    intros H. by specialize (Hk H).
  - injection E as _ ->. apply Forall_cons in Hr as [_ Hr]. by exists reals, k.
Qed.

Lemma clean_loop_dotdots rooted k m :
  (rooted = true → k = O) →
  clean_loop rooted (replicate k "..") (replicate m "..") = replicate (k + m) "..".
Proof.
  revert m. induction k as [|k IH]; intros m Hk; [done|]. destruct rooted; [by specialize (Hk eq_refl)|].
  simpl. destruct m as [|m]; simpl.
  - etrans; [apply (IH 1%nat); done|]. by rewrite Nat.add_1_r, Nat.add_0_r.
  - etrans; [apply (IH (S (S m))); done|]. by rewrite <-Nat.add_succ_comm.
Qed.

(** Cleaning elements that are clean already changes nothing. *)
Lemma clean_loop_normal rooted es : stack_ok rooted (rev es) → clean_loop rooted es [] = rev es.
Proof.
  intros (reals & k & E & Hr & Hk). apply (f_equal (@rev _)) in E. rewrite rev_involutive in E.
  rewrite rev_app_distr in E. assert (rev (replicate k "..") = replicate k "..") as Hrep.
  { clear. induction k as [|k IH]; simpl; [done|]. by rewrite IH, <-replicate_S_end. }
  rewrite E, Hrep, clean_loop_app.
  assert (clean_loop rooted (replicate k "..") [] = replicate k "..") as ->.
  { etrans; [by apply (clean_loop_dotdots rooted k 0)|]. by rewrite Nat.add_0_r. }
  assert (Forall real (rev reals)) as Hr' by by apply Forall_rev.
  rewrite clean_loop_plain by (eapply Forall_impl; [exact Hr'|by intros x (_ & _ & ?)]).
  rewrite (filter_all real) by (intros x Hx; by rewrite Forall_forall in Hr'; apply Hr').
  by rewrite rev_app_distr, Hrep.
Qed.

Lemma up_to_last_slash_app a b :
  no_slash b = true → up_to_last_slash (a +:+ String slash b) = a +:+ "/".
Proof.
  intros Hb. assert (up_to_last_slash b = "") as Hb'.
  { induction b as [|c b IH]; simpl in *; [done|]. case_bool_decide; [done|]. by rewrite IH. }
  induction a as [|c a IH].
  - simpl. by rewrite Hb'.
  - change (String c a +:+ String slash b) with (String c (a +:+ String slash b)). cbn [up_to_last_slash].
    rewrite IH. case_bool_decide; [done|]. by destruct a.
Qed.

(** The elements of the text of a clean path. *)
Lemma clean_elems_text rooted es :
  es ≠ [] → Forall elem_ok es → stack_ok rooted (rev es) →
  clean_elems (root_of rooted +:+ join_slash es) = es ∧
  is_rooted (root_of rooted +:+ join_slash es) = rooted.
Proof.
  intros Hne Hok Hst.
  assert (split_slash (join_slash es) = es) as Hsp.
  { apply split_join; [done|]. eapply Forall_impl; [exact Hok|]. by intros x [? _]. }
  assert (is_rooted (root_of rooted +:+ join_slash es) = rooted) as Hr.
  { destruct rooted; [done|]. change (root_of false +:+ join_slash es) with (join_slash es).
    destruct es as [|[|c x] l]; [done| |].
    - apply Forall_cons in Hok as [(_ & ? & _) _]. done.
    - apply Forall_cons in Hok as [(Hx & _ & _) _]. simpl in Hx. destruct l; simpl;
        by destruct (bool_decide (c = slash)). }
  split; [|done]. unfold clean_elems. rewrite Hr.
  assert (clean_loop rooted (split_slash (root_of rooted +:+ join_slash es)) []
          = clean_loop rooted es []) as ->.
  { destruct rooted; [|by rewrite <-Hsp at 2].
    change (root_of true +:+ join_slash es) with (String slash (join_slash es)). simpl.
    by rewrite Hsp. }
  rewrite clean_loop_normal by done. apply rev_involutive.
Qed.

(** [Dir] drops the last element. *)
Lemma Dir_text rooted es z :
  es ≠ [] → Forall elem_ok (es ++ [z]) → stack_ok rooted (rev (es ++ [z])) →
  Dir (root_of rooted +:+ join_slash (es ++ [z])) = root_of rooted +:+ join_slash es.
Proof.
  intros Hne [Hok [Hz _]%Forall_singleton]%Forall_app Hst.
  rewrite rev_app_distr in Hst. apply stack_ok_tail in Hst.
  destruct (clean_elems_text rooted es Hne Hok Hst) as [He Hr].
  unfold Dir. rewrite join_slash_app by done. simpl (join_slash [z]).
  rewrite <-string_app_assoc, up_to_last_slash_app by done.
  set (t := root_of rooted +:+ join_slash es) in *.
  assert (t ≠ "") as Ht.
  { unfold t. destruct rooted; [done|]. by apply join_slash_nonempty. }
  rewrite Clean_text, is_rooted_app, Hr by done.
  assert (clean_elems (t +:+ "/") = es) as ->.
  { unfold clean_elems. rewrite is_rooted_app by done.
    change (t +:+ "/") with (t +:+ String slash ""). rewrite (split_slash_app t ""), clean_loop_app. exact He. }
  by destruct es.
Qed.
