(* ===== verification/Handlers.v ===== *)
(** * Job handlers

    [internal/handlers]: the registry that dispatches a claimed job by its type
    and the three handlers.  A handler acts on a world with the files written
    and the lines logged; [handler_env] says what the operating system and the
    remote server answer.  [encoding/json] is the class [Encoding]: the
    theorems hold for every decoder.  Paths are lexical, as in
    the source: symbolic links are the operating system's. *)

From stdpp Require Import prelude gmap strings list pretty.
From Stdlib Require Import Floats.SpecFloat.
From S2P Require Import Prelude GoBase Job Store Tracing Worker FilePath.
#[local] Open Scope jq_scope.

(** ** Payloads *)

Record sumNumbersPayload : Type := SumNumbersPayload { Numbers : list spec_float }.
Record writeFilePayload : Type := WriteFilePayload { Name : string; Content : string }.
Record httpCheckPayload : Type := HttpCheckPayload { URL : string; TimeoutSeconds : Z }.

Class Encoding : Type := {
  unmarshal_sum : string → result string sumNumbersPayload;
  unmarshal_write : string → result string writeFilePayload;
  unmarshal_http : string → result string httpCheckPayload;
}.

(** ** The world of the handlers *)

(** The line of [sum_numbers]: job id, sum and count. *)
Record sum_line : Type := SumLine { sl_job : Z; sl_sum : spec_float; sl_count : Z }.

(** The files by cleaned path, the directories made or found in place by
    [os.MkdirAll], and the lines logged. *)
Record hworld : Type := HWorld {
  hw_files : gmap string string;
  hw_dirs : gset string;
  hw_log : list sum_line;
}.

(** The answers of the system to one run of a handler.  A failed [MkdirAll]
    leaves the number given of the directories on the way; a failed [WriteFile]
    leaves the file as it was or with the content given. *)
Record handler_env : Type := HandlerEnv {
  he_mkdir : string → option (nat * string);
  he_write : string → option (option string * string);
  he_request : string → option string;
  he_do : string → Z → result string Z;
}.

Section handlers.
Context {O : Otel} {En : Encoding} {Q : Quoting}.
Implicit Types (he : handler_env) (ctx : context span_context) (j : Job) (wd : hworld).

(** Addition of [float64]. *)
Definition float64_add : spec_float → spec_float → spec_float := SFadd 53 1024.

Definition SumNumbers ctx j wd : outcome * hworld :=
  match unmarshal_sum (Payload j) with
  | Err t => (HErr (EWrap "sum_numbers: invalid payload: " (EText t)), wd)
  | Ok p =>
      if bool_decide (length (Numbers p) = 0%nat)
      then (HErr (EText "sum_numbers: payload.numbers must be non-empty"), wd)
      else
        let sum := foldl float64_add (S754_zero false) (Numbers p) in
        (HOk, HWorld (hw_files wd) (hw_dirs wd)
                (hw_log wd ++ [SumLine (Job_ID j) sum (Z.of_nat (length (Numbers p)))]))
  end.

(** The containment test of [write_file]. *)
Definition contained (baseDir name : string) : bool :=
  HasPrefix (Join baseDir name) (Clean baseDir +:+ "/").

(** [os.MkdirAll] makes every missing directory on the path, from the top: all of
    them when it succeeds, the first few when it fails on the way. *)
Definition path_dirs (dir : string) : list string :=
  (λ k, root_of (is_rooted dir) +:+ join_slash (take (S k) (clean_elems dir)))
    <$> seq 0 (length (clean_elems dir)).

Definition MkdirAll he (dir : string) wd : option string * hworld :=
  let make l := HWorld (hw_files wd) (list_to_set l ∪ hw_dirs wd) (hw_log wd) in
  match he_mkdir he dir with
  | Some (n, t) => (Some t, make (take n (path_dirs dir)))
  | None => (None, make (path_dirs dir))
  end.

Definition os_WriteFile he (path content : string) wd : option string * hworld :=
  let put c := HWorld (<[path := c]> (hw_files wd)) (hw_dirs wd) (hw_log wd) in
  match he_write he path with
  | Some (None, t) => (Some t, wd)
  | Some (Some c, t) => (Some t, put c)
  | None => (None, put content)
  end.

Definition WriteFile he (baseDir : string) ctx j wd : outcome * hworld :=
  match unmarshal_write (Payload j) with
  | Err t => (HErr (EWrap "write_file: invalid payload: " (EText t)), wd)
  | Ok p =>
      if bool_decide (Name p = "") then (HErr (EText "write_file: payload.name is required"), wd)
      else
        let cleaned := Join baseDir (Name p) in
        if negb (contained baseDir (Name p))
        then (HErr (EText ("write_file: " +:+ quote (Name p) +:+ " escapes the allowed directory")), wd)
        else match MkdirAll he (Dir cleaned) wd with
             | (Some t, wd) => (HErr (EWrap "write_file: creating directory: " (EText t)), wd)
             | (None, wd) =>
                 match os_WriteFile he cleaned (Content p) wd with
                 | (Some t, wd) => (HErr (EWrap "write_file: " (EText t)), wd)
                 | (None, wd) => (HOk, wd)
                 end
             end
  end.

(** The request's timeout: [time.Duration(p.TimeoutSeconds) * time.Second]. *)
Definition http_timeout (p : httpCheckPayload) : Z :=
  if 0 <? TimeoutSeconds p then int64 (TimeoutSeconds p * Second) else 5 * Second.

Definition HTTPCheck he ctx j wd : outcome * hworld :=
  match unmarshal_http (Payload j) with
  | Err t => (HErr (EWrap "http_check: invalid payload: " (EText t)), wd)
  | Ok p =>
      if bool_decide (URL p = "") then (HErr (EText "http_check: payload.url is required"), wd)
      else match he_request he (URL p) with
           | Some t => (HErr (EWrap "http_check: building request: " (EText t)), wd)
           | None =>
               match he_do he (URL p) (http_timeout p) with
               | Err t => (HErr (EWrap "http_check: request failed: " (EText t)), wd)
               | Ok status =>
                   if (status <? 200) || (300 <=? status)
                   then (HErr (EText ("http_check: " +:+ URL p +:+ " returned status " +:+ pretty status)), wd)
                   else (HOk, wd)
               end
           end
  end.

(** ** The registry *)

Definition Registry : Type := gmap string (Handler (W:=hworld)).

Definition NewRegistry : Registry := ∅.
Definition Register (jobType : string) (h : Handler (W:=hworld)) (r : Registry) : Registry :=
  <[jobType := h]> r.

Definition Dispatch (r : Registry) : Handler (W:=hworld) := λ ctx j wd,
  match r !! Type_ j with
  | None => (HErr (EText ("no handler registered for job type " +:+ quote (Type_ j))), wd)
  | Some h => h ctx j wd
  end.

Definition newHandlerRegistry he (writeFileDir : string) : Registry :=
  Register "sum_numbers" SumNumbers
    (Register "write_file" (WriteFile he writeFileDir)
       (Register "http_check" (HTTPCheck he) NewRegistry)).

(** ** The sandbox of [write_file] *)

(** The elements of the path a name resolves to. *)
Definition target_elems (baseDir name : string) : list string :=
  clean_elems (baseDir +:+ String slash name).

Lemma contained_spec baseDir name :
  baseDir ≠ "" → clean_elems baseDir ≠ [] →
  contained baseDir name = true ↔
  ∃ rest, rest ≠ [] ∧ target_elems baseDir name = clean_elems baseDir ++ rest.
Proof.
  intros Hb Hne. unfold contained, Join, target_elems. rewrite bool_decide_false by done.
  rewrite HasPrefix_spec, !Clean_text, is_rooted_app by done.
  pose proof (clean_elems_ok baseDir) as Hok. pose proof (clean_elems_ok (baseDir +:+ String slash name)) as Hok'.
  rewrite <-(text_prefix_elems (is_rooted baseDir)) by done.
  destruct (clean_elems baseDir) as [|x l]; [done|].
  destruct (clean_elems (baseDir +:+ String slash name)) as [|x' l'];
    split; intros [t Ht]; exists t; rewrite Ht, !string_app_assoc; done.
Qed.

(** With no element to contain it, every name is refused. *)
Lemma contained_degenerate baseDir name : clean_elems baseDir = [] → contained baseDir name = false.
Proof.
  intros He. apply not_true_is_false. unfold contained. rewrite HasPrefix_spec. intros [t Ht].
  rewrite (Clean_text baseDir), He in Ht.
  assert (∀ path t, Clean path ≠ "./" +:+ t ∧ (is_rooted path = true → Clean path ≠ "//" +:+ t)) as Hno.
  { intros path u. rewrite Clean_text. pose proof (clean_elems_ok path) as Hok.
    destruct (clean_elems path) as [|x l] eqn:E; [by destruct (is_rooted path)|].
    apply Forall_cons in Hok as [(Hs & Hx1 & Hx2) _]. pose proof (clean_elems_split path) as Hsp. rewrite E in Hsp.
    specialize (Hsp ltac:(done)).
    assert (∀ y u, no_slash y = true → join_slash (x :: l) = y +:+ String slash u → x = y) as Hfst.
    { intros y v Hy Hj. rewrite Hj, split_slash_app, split_slash_single in Hsp by done.
      simpl in Hsp. by injection Hsp. }
    split.
    - destruct (is_rooted path); [done|]. intros Hj. by apply (Hfst "." u) in Hj.
    - intros -> Hj.
      change (String slash (join_slash (x :: l)) = String slash (String slash u)) in Hj.
      injection Hj as Hj. by apply (Hfst "" u) in Hj. }
  destruct (is_rooted baseDir) eqn:Hr.
  - assert (baseDir ≠ "") as Hb by (by intros ->). unfold Join in Ht.
    rewrite bool_decide_false in Ht by done.
    destruct (Hno (baseDir +:+ String slash name) t) as [_ H]. apply H; [by rewrite is_rooted_app|done].
  - unfold Join in Ht. repeat case_bool_decide; try done; by eapply Hno in Ht.
Qed.

(** A base directory that names a directory: its cleaned path has a last
    element and that is not [..]. *)
Definition regular_base (baseDir : string) : Prop :=
  ∃ pre x, clean_elems baseDir = pre ++ [x] ∧ x ≠ "..".

Lemma regular_base_inv baseDir : regular_base baseDir → baseDir ≠ "" ∧ clean_elems baseDir ≠ [].
Proof. intros (pre & x & E & _). split; [by intros ->; destruct pre|]. rewrite E. by destruct pre. Qed.

Lemma above_real l x m reals k :
  l ++ x :: m = reals ++ replicate k ".." → x ≠ ".." → Forall real reals → Forall real l.
Proof.
  revert reals. induction l as [|y l IH]; intros reals E Hx Hr; [done|].
  destruct reals as [|z reals].
  - exfalso. assert (x ∈ replicate k "..") as Hin.
    { simpl in E. rewrite <-E. right. apply elem_of_app. right. by left. }
    by apply elem_of_replicate in Hin as [-> _].
  - injection E as -> E. apply Forall_cons in Hr as [Hz Hr]. constructor; [done|]. by eapply IH.
Qed.

(** Below a regular base only real elements follow. *)
Lemma rest_real baseDir name rest :
  regular_base baseDir → target_elems baseDir name = clean_elems baseDir ++ rest →
  Forall real rest.
Proof.
  intros (pre & x & E & Hx) Ht. unfold target_elems in Ht.
  destruct (clean_elems_stack (baseDir +:+ String slash name)) as (reals & k & Hst & Hr & _).
  rewrite Ht, E, !rev_app_distr in Hst. simpl in Hst.
  apply above_real in Hst; [|done..]. apply Forall_rev in Hst. by rewrite rev_involutive in Hst.
Qed.

(** The texts of the target and the elements of its directory. *)
Lemma target_text baseDir name rest :
  regular_base baseDir → rest ≠ [] → target_elems baseDir name = clean_elems baseDir ++ rest →
  Join baseDir name = Clean baseDir +:+ "/" +:+ join_slash rest ∧
  ∃ rest' z, rest = rest' ++ [z] ∧ clean_elems (Dir (Join baseDir name)) = clean_elems baseDir ++ rest' ∧
    is_rooted (Dir (Join baseDir name)) = is_rooted baseDir.
Proof.
  intros Hb Hrest Ht. destruct (regular_base_inv _ Hb) as [Hne He]. unfold target_elems in Ht.
  pose proof (clean_elems_ok (baseDir +:+ String slash name)) as Hok.
  pose proof (clean_elems_stack (baseDir +:+ String slash name)) as Hst.
  rewrite Ht in Hok, Hst. rewrite is_rooted_app in Hst by done.
  assert (Clean baseDir = root_of (is_rooted baseDir) +:+ join_slash (clean_elems baseDir)) as Hc.
  { rewrite Clean_text. by destruct (clean_elems baseDir). }
  assert (Join baseDir name = root_of (is_rooted baseDir) +:+ join_slash (clean_elems baseDir ++ rest)) as Hj.
  { unfold Join. rewrite bool_decide_false, Clean_text, is_rooted_app, Ht by done.
    by destruct (clean_elems baseDir). }
  rewrite Hj, Hc. split; [by rewrite join_slash_app, string_app_assoc by done|].
  destruct (exists_last Hrest) as (rest' & z & ->). exists rest', z. split; [done|].
  rewrite app_assoc in *. assert (clean_elems baseDir ++ rest' ≠ []) as Hne' by (by destruct (clean_elems baseDir)).
  rewrite Dir_text by done. apply clean_elems_text; [done|by apply Forall_app in Hok as [? _]|].
  rewrite rev_app_distr in Hst. by apply stack_ok_tail in Hst.
Qed.

(** The directories on the way to a target are ancestors of the base, the base
    or reached from it by real elements. *)
Definition on_the_way (baseDir dir : string) : Prop :=
  ∃ es, es ≠ [] ∧ dir = root_of (is_rooted baseDir) +:+ join_slash es ∧
    (es `prefix_of` clean_elems baseDir ∨ ∃ rest, es = clean_elems baseDir ++ rest ∧ Forall real rest).

Lemma path_dirs_on_the_way baseDir dir rest d :
  clean_elems dir = clean_elems baseDir ++ rest → is_rooted dir = is_rooted baseDir → Forall real rest →
  d ∈ path_dirs dir → on_the_way baseDir d.
Proof.
  intros Hes Hr Hreal (k & -> & Hk%elem_of_seq)%list_elem_of_fmap. rewrite Hr.
  exists (take (S k) (clean_elems dir)). split_and!; [by destruct (clean_elems dir); simpl in *; [lia|]|done|].
  rewrite Hes. destruct (decide (S k ≤ length (clean_elems baseDir))%nat) as [Hle|Hgt].
  - left. rewrite take_app_le by done. apply prefix_take.
  - right. rewrite take_app_ge by lia. eexists. split; [done|]. by apply Forall_take.
Qed.

(** What a run of [write_file] can change: one file and the directories on the
    way to it. *)
Lemma WriteFile_effect he baseDir ctx j wd o wd' :
  WriteFile he baseDir ctx j wd = (o, wd') →
  (wd' = wd ∧ o ≠ HOk) ∨ ∃ p l, unmarshal_write (Payload j) = Ok p ∧ contained baseDir (Name p) = true ∧
    hw_log wd' = hw_log wd ∧ l `prefix_of` path_dirs (Dir (Join baseDir (Name p))) ∧
    hw_dirs wd' = list_to_set l ∪ hw_dirs wd ∧
    ((hw_files wd' = hw_files wd ∧ o ≠ HOk) ∨ ∃ c, hw_files wd' = <[Join baseDir (Name p) := c]> (hw_files wd) ∧
        l = path_dirs (Dir (Join baseDir (Name p))) ∧ (o = HOk → c = Content p)).
Proof.
  unfold WriteFile. destruct (unmarshal_write (Payload j)) as [p|t]; [|by intros [= <- <-]; left].
  case_bool_decide; [by intros [= <- <-]; left|].
  destruct (contained baseDir (Name p)) eqn:Hc; simpl; [|by intros [= <- <-]; left].
  unfold MkdirAll. intros H'. right. exists p. destruct (he_mkdir he _) as [[n t]|].
  - injection H' as <- <-. eexists. do 3 (split; [done|]). split; [apply prefix_take|]. split; [done|]. by left.
  - exists (path_dirs (Dir (Join baseDir (Name p)))). unfold os_WriteFile in H'.
    destruct (he_write he _) as [[[c|] t]|]; injection H' as <- <-; simpl; do 5 (split; [done|]);
      [right|left|right]; [by eexists|done|by eexists].
Qed.

(** A plain name is written below the base. *)
Lemma WriteFile_plain he baseDir ctx j wd p :
  regular_base baseDir → unmarshal_write (Payload j) = Ok p →
  Forall (λ x, x ≠ "..") (split_slash (Name p)) → filter real (split_slash (Name p)) ≠ [] →
  (∀ d, he_mkdir he d = None) → (∀ f, he_write he f = None) →
  ∃ wd', WriteFile he baseDir ctx j wd = (HOk, wd') ∧
    hw_files wd' = <[Clean baseDir +:+ "/" +:+ join_slash (filter real (split_slash (Name p))) := Content p]> (hw_files wd).
Proof.
  intros Hb Hp Hdd Hf Hm Hwr. destruct (regular_base_inv _ Hb) as [Hne He].
  assert (target_elems baseDir (Name p) = clean_elems baseDir ++ filter real (split_slash (Name p))) as Ht.
  { unfold target_elems. rewrite clean_elems_join, clean_loop_plain by done.
    by rewrite rev_app_distr, !rev_involutive. }
  assert (contained baseDir (Name p) = true) as Hc by (apply contained_spec; eauto).
  assert (Name p ≠ "") as Hn by (intros Hn; rewrite Hn in Hf; done).
  destruct (target_text _ _ _ Hb Hf Ht) as [Hj _].
  unfold WriteFile. rewrite Hp, bool_decide_false, Hc by done. simpl.
  unfold MkdirAll, os_WriteFile. rewrite Hm, Hwr. eexists. split; [done|]. simpl. by rewrite Hj.
Qed.

(** A name that does not lead below the base is refused and nothing changes. *)
Lemma WriteFile_refused he baseDir ctx j wd p :
  unmarshal_write (Payload j) = Ok p → contained baseDir (Name p) = false →
  ∃ err, WriteFile he baseDir ctx j wd = (HErr err, wd).
Proof. intros Hp Hc. unfold WriteFile. rewrite Hp, Hc. case_bool_decide; by eexists. Qed.

(** C31. The sandbox of [write_file]: with a base directory that names one, and for
    every payload, environment and outcome, the files a run changes lie below
    the base, reached by real elements only (no [..], [.] or empty one); the
    directories it makes are on the way to them: below the base, the base
    itself or, when they are missing, directories above it.  A name that does
    not lead below the base is refused and nothing changes; a name without [..]
    and with a real element is accepted and, when the system lets it write,
    written there with the payload's content. *)
Theorem write_file_sandbox he baseDir ctx j wd o wd' :
  regular_base baseDir → WriteFile he baseDir ctx j wd = (o, wd') →
  (∀ path, hw_files wd' !! path ≠ hw_files wd !! path →
     ∃ rest, rest ≠ [] ∧ Forall real rest ∧ path = Clean baseDir +:+ "/" +:+ join_slash rest) ∧
  (∀ dir, dir ∈ hw_dirs wd' → dir ∉ hw_dirs wd → on_the_way baseDir dir) ∧
  (∀ p, unmarshal_write (Payload j) = Ok p →
     ¬ (∃ rest, rest ≠ [] ∧ target_elems baseDir (Name p) = clean_elems baseDir ++ rest) →
     o ≠ HOk ∧ wd' = wd) ∧
  (∀ p, unmarshal_write (Payload j) = Ok p → Forall (λ x, x ≠ "..") (split_slash (Name p)) →
     filter real (split_slash (Name p)) ≠ [] →
     (∀ d, he_mkdir he d = None) → (∀ f, he_write he f = None) →
     o = HOk ∧ hw_files wd' !! (Clean baseDir +:+ "/" +:+ join_slash (filter real (split_slash (Name p))))
               = Some (Content p)).
Proof.
  intros Hb Hw. destruct (regular_base_inv _ Hb) as [Hne He].
  pose proof (WriteFile_effect _ _ _ _ _ _ _ Hw) as Heff. split_and!.
  - intros path Hp. destruct Heff as [[-> _]|(p & l & _ & Hc & _ & _ & _ & [[Hf _]|(c & Hf & _)])];
      [done|by rewrite Hf in Hp|]. apply contained_spec in Hc as (rest & Hr & Ht); [|done..].
    destruct (target_text _ _ _ Hb Hr Ht) as [Hj _]. pose proof (rest_real _ _ _ Hb Ht) as Hreal.
    destruct (decide (path = Join baseDir (Name p))) as [->|Hd]; [by eauto|].
    by rewrite Hf, lookup_insert_ne in Hp.
  - intros dir Hd Hd'. destruct Heff as [[-> _]|(p & l & _ & Hc & _ & Hl & Hdirs & _)]; [done|].
    rewrite Hdirs, elem_of_union, elem_of_list_to_set in Hd. destruct Hd as [Hd|]; [|done].
    apply contained_spec in Hc as (rest & Hr & Ht); [|done..]. pose proof (rest_real _ _ _ Hb Ht) as Hreal.
    destruct (target_text _ _ _ Hb Hr Ht) as (_ & rest' & z & -> & Hes & Hrt).
    apply Forall_app in Hreal as [Hreal _]. eapply path_dirs_on_the_way; [exact Hes|exact Hrt|exact Hreal|].
    destruct Hl as [l' ->]. apply elem_of_app. by left.
  - intros p Hp Hno. destruct (contained baseDir (Name p)) eqn:Hc; [by apply contained_spec in Hc|].
    destruct (WriteFile_refused he baseDir ctx j wd p Hp Hc) as [err Hw1]. rewrite Hw1 in Hw. by injection Hw as <- <-.
  - intros p Hp Hdd Hf Hm Hwr.
    destruct (WriteFile_plain he baseDir ctx j wd p) as (wd1 & Hw1 & Hf1); [done..|].
    rewrite Hw1 in Hw. injection Hw as <- <-. by rewrite Hf1, lookup_insert_eq.
Qed.

(** Base directories for which the test is not containment: below [..], or any
    base whose cleaned path ends in it, a name can climb further up and is
    accepted; and for a base that cleans to [.] or [/], or is empty, every
    name is refused. *)
Theorem write_file_degenerate_bases :
  (contained ".." "../x" = true ∧ Join ".." "../x" = "../../x") ∧
  (∀ baseDir name, clean_elems baseDir = [] → contained baseDir name = false) ∧
  clean_elems "." = [] ∧ clean_elems "/" = [] ∧ clean_elems "" = [] ∧ clean_elems "a/.." = [].
Proof.
  split; [done|]. split; [|done]. intros baseDir name. apply contained_degenerate.
Qed.

(** At-least-once execution is harmless: when a run of [write_file] succeeded,
    every later run of the same job that succeeds, in any environment, leaves
    the world exactly as it is, and one that fails touches no other file. *)
Theorem write_file_idempotent he he' baseDir ctx ctx' j wd wd1 o wd2 :
  WriteFile he baseDir ctx j wd = (HOk, wd1) → WriteFile he' baseDir ctx' j wd1 = (o, wd2) →
  (o = HOk → wd2 = wd1) ∧
  ∃ target, ∀ path, path ≠ target → hw_files wd2 !! path = hw_files wd1 !! path.
Proof.
  intros H1 H2. apply WriteFile_effect in H1 as [[_ ?]|(p & l & Hp & _ & Hl1 & _ & Hd1 & Hf1)]; [done|].
  destruct Hf1 as [[_ ?]|(c1 & Hf1 & -> & Hc1)]; [done|]. rewrite (Hc1 eq_refl) in Hf1.
  apply WriteFile_effect in H2 as [[-> ?]|(p' & l' & Hp' & _ & Hl2 & _ & Hd2 & Hf2)]; [split; [done|by exists ""]|].
  rewrite Hp in Hp'. injection Hp' as <-. destruct Hf2 as [[Hf2 Ho]|(c2 & Hf2 & -> & Hc2)].
  - split; [done|]. exists "". by rewrite Hf2.
  - split.
    + intros Ho. rewrite (Hc2 Ho), Hf1, insert_insert_eq, <-Hf1 in Hf2.
      rewrite Hd1, (assoc_L _), (idemp_L _), <-Hd1 in Hd2. destruct wd1, wd2. simpl in *. by subst.
    + exists (Join baseDir (Name p)). intros path Hne. by rewrite Hf2, lookup_insert_ne.
Qed.

(** ** [http_check] *)

Lemma http_timeout_range p :
  (TimeoutSeconds p ≤ 0 → http_timeout p = 5 * Second) ∧
  (0 < TimeoutSeconds p ≤ 9223372036 → http_timeout p = TimeoutSeconds p * Second) ∧
  (9223372037 ≤ TimeoutSeconds p ≤ 18446744073 → http_timeout p < 0).
Proof.
  unfold http_timeout, Second, Millisecond, Microsecond. split_and!; intros Ht.
  - by rewrite (proj2 (Z.ltb_ge _ _)) by lia.
  - rewrite (proj2 (Z.ltb_lt _ _)) by lia. apply int64_id. lia.
  - rewrite (proj2 (Z.ltb_lt _ _)) by lia. unfold int64, wrap.
    rewrite <-(Z.mod_add _ (-1) (2 ^ 64)) by lia. rewrite Z.mod_small; lia.
Qed.

(** [http_check] succeeds exactly when the request is built and answered with
    a 2xx status within the timeout, and changes nothing; the timeout is five
    seconds unless the payload sets a positive one, then that many seconds as
    long as they fit a [Duration] (beyond 9223372036 seconds the product
    overflows and the timeout is negative). *)
Theorem HTTPCheck_spec he ctx j wd p :
  unmarshal_http (Payload j) = Ok p → URL p ≠ "" →
  (HTTPCheck he ctx j wd).2 = wd ∧
  ((HTTPCheck he ctx j wd).1 = HOk ↔
     he_request he (URL p) = None ∧
     ∃ status, he_do he (URL p) (http_timeout p) = Ok status ∧ 200 ≤ status < 300) ∧
  (TimeoutSeconds p ≤ 0 → http_timeout p = 5 * Second) ∧
  (0 < TimeoutSeconds p ≤ 9223372036 → http_timeout p = TimeoutSeconds p * Second) ∧
  (9223372037 ≤ TimeoutSeconds p ≤ 18446744073 → http_timeout p < 0).
Proof.
  intros Hp Hu. pose proof (http_timeout_range p) as Ht. unfold HTTPCheck.
  rewrite Hp, bool_decide_false by done.
  destruct (he_request he (URL p)); [by split; [|split; [split; [|intros []]|]]|].
  destruct (he_do he (URL p) (http_timeout p)) as [st|t];
    [|by split; [|split; [split; [|intros (_ & ? & ? & _)]|]]].
  destruct (Z.ltb_spec st 200), (Z.leb_spec 300 st); simpl; split; try done; split; try done;
    (split; [|intros (_ & ? & [= <-] & ?)]); try done; try lia. intros _. split; [done|]. eauto.
Qed.

End handlers.

(** ** Concrete payloads *)

(** A decoder that takes the payload as the name, or the URL. *)
#[local] Instance enc_demo : Encoding := {|
  unmarshal_sum := λ _, Ok (SumNumbersPayload [S754_zero false]);
  unmarshal_write := λ s, Ok (WriteFilePayload s "hello");
  unmarshal_http := λ s, Ok (HttpCheckPayload s 10);
|}.

#[export] Instance quote_demo : Quoting := {| quote := λ s, s; time_quote := λ s, s |}.

Definition he_demo : handler_env := HandlerEnv (λ _, None) (λ _, None) (λ _, None) (λ _ _, Ok 204).
Definition hw_demo : hworld := HWorld ∅ ∅ [].
Definition job_with (payload : string) : Job := MkJob 1 "write_file" payload 1 5 "".

(** The default [WRITE_FILE_DIR]. *)
Lemma writes_regular : regular_base "./data/writes".
Proof. exists ["data"], "writes". by split. Qed.

(** With the default base directory and nothing there, the directories above the
    file are made, [data] above the base included. *)
Example write_file_makes_dirs :
  hw_dirs (WriteFile he_demo "./data/writes" Background (job_with "a/b.txt") hw_demo).2
  = {[ "data"; "data/writes"; "data/writes/a" ]}.
Proof. by vm_compute. Qed.

Lemma write_file_sandbox_witness :
  hw_files (WriteFile he_demo "./data/writes" Background (job_with "a/b.txt") hw_demo).2
    !! "data/writes/a/b.txt" = Some "hello".
Proof.
  destruct (write_file_sandbox he_demo "./data/writes" Background (job_with "a/b.txt") hw_demo _ _
    writes_regular (surjective_pairing _)) as (_ & _ & _ & H).
  destruct (H (WriteFilePayload "a/b.txt" "hello") eq_refl) as [_ Hf]; try done.
  by repeat constructor.
Defined.

Lemma write_file_idempotent_witness :
  let w1 := (WriteFile he_demo "./data/writes" Background (job_with "a") hw_demo).2 in
  (WriteFile he_demo "./data/writes" Background (job_with "a") w1).2 = w1.
Proof.
  intros w1.
  assert (WriteFile he_demo "./data/writes" Background (job_with "a") hw_demo = (HOk, w1)) as H1
    by (vm_compute; reflexivity).
  destruct (write_file_idempotent he_demo he_demo "./data/writes" Background Background
    (job_with "a") hw_demo w1 _ _ H1 (surjective_pairing _)) as [H _]. by apply H.
Defined.

