(* ===== verification/Process.v ===== *)
(** * The loops and scrapes around the store

    The reaper's loop of [cmd/jobqueue], the collector of [internal/metrics]
    behind [/metrics], and the level of [internal/logging]. *)

From stdpp Require Import prelude gmap strings list relations sorting.
From Stdlib Require Import Ascii String Floats.SpecFloat.
From S2P Require Import Prelude GoBase Job Store StoreFacts Steps Claim Invariant History.
From S2P Require Import StoreSpec Outbox WorkerFacts Config Demo.
#[local] Open Scope jq_scope.

(** ** The reaper's loop *)

(** A turn of [runReaper]: what its [select] picks; a tick comes with what the
    other processes did to the tables before it. *)
Inductive reap_turn (Sp : Type) : Type :=
| ReapDone
| ReapTick (before : db → db) (ctx : context Sp) (e : stmt_env).
Arguments ReapDone {Sp}.
Arguments ReapTick {Sp} _ _ _.

Inductive reap_log : Type :=
| ReapFailed (err : error)
| Reaped (reclaimed deadLettered : Z).

(** A sample of the [/metrics] page: name, [job_type] label and value. *)
Record metric : Type := MkMetric {
  m_name : string;
  m_label : option string;
  m_value : spec_float;
}.

(** [time.Duration.Seconds]. *)
Definition Seconds (d : Z) : spec_float :=
  SFadd 53 1024 (float_of (Z.quot d Second))
    (SFdiv 53 1024 (float_of (Z.rem d Second)) (float_of 1000000000)).

Section process.
Context {Pg : Postgres} {Sp : Type}.

Fixpoint runReaper (turns : list (reap_turn Sp)) (s : db) : list reap_log * db :=
  match turns with
  | [] | ReapDone :: _ => ([], s)
  | ReapTick before ctx e :: turns =>
      let '(r, s) := ReapExpiredLeases ctx e (before s) in
      let line := match r with
                  | Err err => [ReapFailed err]
                  | Ok (reclaimed, deadLettered) =>
                      if 0 <? reclaimed then [Reaped reclaimed deadLettered] else []
                  end in
      let '(lines, s) := runReaper turns s in (line ++ lines, s)
  end.

(** ** The collector *)

(** One query of a scrape: its context, the statement and the tables then. *)
Record query : Type := Query {
  q_ctx : context Sp;
  q_env : stmt_env;
  q_db : db;
}.

(** The samples of one query of counts, in the map's iteration order. *)
Definition collect_counts (name status msg : string) (q : query) : list metric * list (string * error) :=
  match CountByStatusAndType (q_ctx q) (q_env q) status (q_db q) with
  | Err err => ([], [(msg, err)])
  | Ok counts =>
      ((λ p : string * Z, MkMetric name (Some p.1) (float_of p.2))
         <$> env_plan (q_env q) (map_to_list counts), [])
  end.

Definition Collect (depth inflight lag : query) (now : Z) : list metric * list (string * error) :=
  let '(m1, l1) := collect_counts "jobqueue_queue_depth" "queued" "metrics: queue depth query failed" depth in
  let '(m2, l2) := collect_counts "jobqueue_in_flight" "running" "metrics: in-flight query failed" inflight in
  let '(m3, l3) :=
    match ShipperLag (q_ctx lag) (q_env lag) now (q_db lag) with
    | Err err => ([], [("metrics: shipper lag query failed", err)])
    | Ok d => ([MkMetric "jobqueue_shipper_lag_seconds" None (Seconds d)], [])
    end in
  (m1 ++ m2 ++ m3, l1 ++ l2 ++ l3).

(** ** Logging *)

Inductive Level : Type := LevelDebug | LevelInfo | LevelWarn | LevelError.

(** [strings.ToLower] on ASCII. *)
Fixpoint to_lower (s : string) : string :=
  match s with
  | EmptyString => ""
  | String c s =>
      let n := nat_of_ascii c in
      String (if (65 <=? n)%nat && (n <=? 90)%nat then ascii_of_nat (n + 32) else c) (to_lower s)
  end.

Definition parseLevel (level : string) : Level :=
  let l := to_lower level in
  if bool_decide (l = "debug") then LevelDebug
  else if bool_decide (l = "warn") then LevelWarn
  else if bool_decide (l = "error") then LevelError
  else LevelInfo.

(** ** What they do *)

Definition turns_steps (turns : list (reap_turn Sp)) : Prop :=
  Forall (λ t, match t with ReapDone => True | ReapTick before _ _ => ∀ s, rtc db_step s (before s) end)
    turns.

Lemma runReaper_steps turns s : turns_steps turns → rtc db_step s (runReaper turns s).2.
Proof.
  revert s. induction turns as [|[|before ctx e] turns IH]; intros s Ht; simpl; [done|done|].
  apply Forall_cons in Ht as [Hb Ht]. specialize (Hb s).
  destruct (ReapExpiredLeases ctx e (before s)) as [r s1] eqn:E.
  assert (rtc db_step (before s) s1) as Hr.
  { apply run_stmt_atomic in E as [->|(a & Ha)]; [done|]. apply rtc_once. by eapply step_reap. }
  specialize (IH s1 Ht). destruct (runReaper turns s1) as [lines s2]. simpl in *.
  etrans; [exact Hb|]. by etrans.
Qed.

Lemma runReaper_app turns turns' s :
  Forall (λ t, t ≠ ReapDone) turns →
  (runReaper (turns ++ turns') s).2 = (runReaper turns' (runReaper turns s).2).2.
Proof.
  revert s. induction turns as [|[|before ctx e] turns IH]; intros s Ht; simpl; [done| |].
  - by apply Forall_cons in Ht as [? _].
  - apply Forall_cons in Ht as [_ Ht].
    destruct (ReapExpiredLeases ctx e (before s)) as [r s1]. specialize (IH s1 Ht).
    destruct (runReaper (turns ++ turns') s1) as [l2 s2], (runReaper turns s1) as [l3 s3]. done.
Qed.

(** A failed pass never stops the reaper: whatever its earlier ticks met, and
    whatever other processes did in between, a later tick that finds the
    database healthy and no blocked row leaves no expired lease behind, and the
    tables stay reachable throughout. *)
Theorem runReaper_recovers turns before ctx e s :
  let s0 := before (runReaper turns s).2 in
  reachable s → turns_steps turns → Forall (λ t, t ≠ ReapDone) turns →
  (∀ s, rtc db_step s (before s)) →
  ctx_err ctx = None → env_fault e = None → reap_room e s0 →
  (∀ id r, jobs s0 !! id = Some r → expired e r → exhausted r = true →
     id ∉ DL_JobID <$> dead_letters s0) →
  let s' := (runReaper (turns ++ [ReapTick before ctx e]) s).2 in
  reachable s' ∧ ∀ id r, jobs s' !! id = Some r → ¬ expired e r.
Proof.
  intros s0 Hre Ht Hnd Hb Hc Hf Hroom Hno s'.
  assert (reachable s0) as Hre0.
  { unfold reachable in *. etrans; [exact Hre|]. etrans; [by apply runReaper_steps|apply Hb]. }
  assert (s' = (ReapExpiredLeases ctx e s0).2) as Hs'.
  { unfold s'. rewrite runReaper_app by done. simpl. fold s0.
    by destruct (ReapExpiredLeases ctx e s0). }
  destruct (stmt_reap_unblocked e s0 Hroom Hno) as ([n d] & s1 & Hs).
  assert (s' = s1) as ->.
  { rewrite Hs'. unfold ReapExpiredLeases. by rewrite (run_stmt_quiet _ _ _ _ _ _ _ Hc Hf Hs). }
  split.
  - unfold reachable in *. eapply rtc_r; [exact Hre0|]. by eapply step_reap.
  - apply stmt_reap_effect in Hs as (rows & _ & _ & [_ Hj _ _ _ _]);
      [|by apply wf_letters_unique, reachable_wf].
    intros id r'. rewrite Hj, lookup_sql_update. intros (r & Hr & ->)%fmap_Some Hx.
    destruct (reap_where e id r) eqn:E.
    + destruct Hx as [_ (t & Ht' & _)]. done.
    + apply (reap_where_expired e id) in Hx. by rewrite E in Hx.
Qed.

Lemma elem_of_collect_counts name status msg q m :
  ctx_err (q_ctx q) = None → env_fault (q_env q) = None →
  m ∈ (collect_counts name status msg q).1 ↔
  ∃ ty, count_rows status ty (q_db q) ≠ 0 ∧
    m = MkMetric name (Some ty) (float_of (count_rows status ty (q_db q))).
Proof.
  intros Hc Hf. unfold collect_counts.
  destruct (CountByStatusAndType _ _ _ _) as [counts|err] eqn:E.
  - simpl. rewrite list_elem_of_fmap. setoid_rewrite (env_plan_perm (q_env q)).
    pose proof (λ ty, CountByStatusAndType_spec _ _ _ _ _ ty E) as Hl. split.
    + intros ([ty n] & -> & Hin%elem_of_map_to_list). rewrite Hl in Hin.
      case_decide; simplify_eq. by exists ty.
    + intros (ty & Hn & ->). exists (ty, count_rows status ty (q_db q)). split; [done|].
      apply elem_of_map_to_list. rewrite Hl. by rewrite decide_False.
  - unfold CountByStatusAndType, run_stmt in E. by rewrite Hc, Hf in E.
Qed.

Lemma collect_counts_name name status msg q m :
  m ∈ (collect_counts name status msg q).1 → m_name m = name.
Proof.
  unfold collect_counts. destruct (CountByStatusAndType _ _ _ _); simpl; [|by rewrite elem_of_nil].
  by intros (p & -> & _)%list_elem_of_fmap.
Qed.

(** A query that answers logs nothing. *)
Lemma collect_counts_quiet name status msg q :
  ctx_err (q_ctx q) = None → env_fault (q_env q) = None → (collect_counts name status msg q).2 = [].
Proof.
  intros Hc Hf. unfold collect_counts, CountByStatusAndType, run_stmt. by rewrite Hc, Hf.
Qed.

Definition answers (q : query) : Prop := ctx_err (q_ctx q) = None ∧ env_fault (q_env q) = None.

(** A scrape is exact: when its queries reach the database, the gauges of queue
    depth and of jobs in flight are, per job type, the number of queued and of
    running rows, for exactly the types that have any, and the lag is the age
    of the oldest pending event; a failing query of queue depths costs only
    its own gauges, and only failures are logged. *)
Theorem Collect_spec depth inflight lag now :
  answers inflight → answers lag → reachable (q_db lag) →
  let '(ms, log) := Collect depth inflight lag now in
  (∀ m, m ∈ ms ∧ m_name m = "jobqueue_in_flight" ↔
     ∃ ty, count_rows "running" ty (q_db inflight) ≠ 0 ∧
       m = MkMetric "jobqueue_in_flight" (Some ty) (float_of (count_rows "running" ty (q_db inflight)))) ∧
  MkMetric "jobqueue_shipper_lag_seconds" None
    (Seconds match pending (q_db lag) with
             | [] => 0
             | r :: _ => Since now (OccurredAt (ev_event r))
             end) ∈ ms ∧
  (answers depth →
     log = [] ∧
     ∀ m, m ∈ ms ∧ m_name m = "jobqueue_queue_depth" ↔
       ∃ ty, count_rows "queued" ty (q_db depth) ≠ 0 ∧
         m = MkMetric "jobqueue_queue_depth" (Some ty) (float_of (count_rows "queued" ty (q_db depth)))).
Proof.
  intros [Hci Hfi] [Hcl Hfl] Hre. unfold Collect. rewrite ShipperLag_spec by done.
  destruct (collect_counts _ _ _ depth) as [m1 l1] eqn:E1.
  destruct (collect_counts _ _ _ inflight) as [m2 l2] eqn:E2.
  set (lagm := MkMetric "jobqueue_shipper_lag_seconds" None _).
  assert (∀ m, m ∈ m1 → m_name m = "jobqueue_queue_depth") as H1.
  { intros m Hm. eapply (collect_counts_name _ _ _ depth). by rewrite E1. }
  assert (∀ m, m ∈ m2 → m_name m = "jobqueue_in_flight") as H2.
  { intros m Hm. eapply (collect_counts_name _ _ _ inflight). by rewrite E2. }
  assert (∀ m, m ∈ m1 ++ m2 ++ [lagm] ↔ m ∈ m1 ∨ m ∈ m2 ∨ m = lagm) as Hm.
  { intros m. by rewrite !elem_of_app, list_elem_of_singleton. }
  split_and!.
  - intros m. rewrite Hm.
    pose proof (elem_of_collect_counts "jobqueue_in_flight" "running"
      "metrics: in-flight query failed" inflight m Hci Hfi) as Hin. rewrite E2 in Hin. simpl in Hin.
    rewrite <-Hin. split; [|intros Hx; split; [by auto|by apply H2]].
    intros [[Hx|[Hx| ->]] Hn]; [apply H1 in Hx; congruence|done|done].
  - apply Hm. by auto.
  - intros [Hcd Hfd]. split.
    + pose proof (collect_counts_quiet "jobqueue_queue_depth" "queued"
        "metrics: queue depth query failed" depth Hcd Hfd) as Q1. rewrite E1 in Q1.
      pose proof (collect_counts_quiet "jobqueue_in_flight" "running"
        "metrics: in-flight query failed" inflight Hci Hfi) as Q2. rewrite E2 in Q2.
      simpl in *. by rewrite Q1, Q2.
    + intros m. rewrite Hm.
      pose proof (elem_of_collect_counts "jobqueue_queue_depth" "queued"
        "metrics: queue depth query failed" depth m Hcd Hfd) as Hin. rewrite E1 in Hin. simpl in Hin.
      rewrite <-Hin. split; [|intros Hx; split; [by auto|by apply H1]].
      intros [[Hx|[Hx| ->]] Hn]; [done|apply H2 in Hx; congruence|done].
Qed.

End process.

(** ** On the demonstration tables *)

Definition demo_tick (t : Z) : reap_turn unit := ReapTick (λ s, s) bg (quiet (sec t)).

(** A tick before the lease of [demo_running] ends, then one on a lost
    connection, then one after the lease. *)
Definition demo_lost : reap_turn unit :=
  ReapTick (λ s, s) bg
    (StmtEnv (sec 50) ∅ (λ _, 0%N) (Some (false, "connection reset")) false (λ _ l, l)
       (λ _ l, Permutation_refl l)).

Lemma runReaper_recovers_witness :
  reachable (runReaper [demo_tick 10; demo_lost; demo_tick 60] demo_running).2.
Proof.
  apply (runReaper_recovers [demo_tick 10; demo_lost] (λ s, s) bg (quiet (sec 60)) demo_running).
  - eapply rtc_l; [apply (step_enqueue "sum_numbers" "[1]" "" (quiet 0) db_empty 1); reflexivity|].
    apply rtc_once. by eapply (step_claim "worker-0" (30 * Second) 1 (quiet (sec 1))).
  - repeat constructor; intros s; apply rtc_refl.
  - by repeat constructor.
  - intros s. apply rtc_refl.
  - reflexivity.
  - reflexivity.
  - split; by vm_compute.
  - intros id r _ _ _.
    assert (dead_letters (runReaper [demo_tick 10; demo_lost] demo_running).2 = []) as ->
      by (by vm_compute).
    apply not_elem_of_nil.
Defined.

Definition demo_query (s : db) : query (Sp:=unit) := Query bg (quiet (sec 3)) s.

Lemma Collect_spec_witness :
  MkMetric "jobqueue_in_flight" (Some "sum_numbers") (float_of 1)
    ∈ (Collect (demo_query demo_running) (demo_query demo_running) (demo_query demo_completed)
         (5 * Second)).1.
Proof.
  pose proof (Collect_spec (demo_query demo_running) (demo_query demo_running)
    (demo_query demo_completed) (5 * Second)) as H.
  destruct (Collect _ _ _ _) as [ms log]. simpl.
  destruct H as (Hin & _); [by split|by split|apply demo_reachable|].
  apply (Hin (MkMetric "jobqueue_in_flight" (Some "sum_numbers") (float_of 1))).
  exists "sum_numbers".
  assert (count_rows "running" "sum_numbers" (q_db (demo_query demo_running)) = 1) as -> by (by vm_compute).
  by split.
Defined.
