(* ===== verification/Metrics.v ===== *)
(** * Instruments

    [internal/metrics]: the instruments [New] creates and registers, the
    descriptors of the collector, and what the worker records on them.  The
    Prometheus client is a parameter ([Prometheus]); its documented behaviour is
    that a registration panics on a name already taken, and that using an
    instrument with another number of label values than it was declared with
    panics. *)

From stdpp Require Import prelude gmap strings list sorting.
From Stdlib Require Import Floats.SpecFloat.
From S2P Require Import Prelude GoBase Job Store StoreFacts Tracing Worker WorkerFacts Config Process Demo.
#[local] Open Scope jq_scope.

(** ** Declarations *)

Inductive kind : Type := Histogram (buckets : list spec_float) | Counter | Gauge.

Record instrument : Type := MkInstrument {
  in_kind : kind;
  in_name : string;
  in_help : string;
  in_labels : list string;
}.

(** [MustRegister]: the instruments of the registry afterwards, or a panic. *)
Class Prometheus : Type := {
  DefBuckets : list spec_float;
  MustRegister : list instrument → list instrument → option (list instrument);
}.
Class PrometheusLaws (Pr : Prometheus) : Prop := {
  register_fresh : ∀ reg l, NoDup (in_name <$> reg ++ l) → MustRegister reg l = Some (reg ++ l);
}.

(** The name of an instrument under the namespace. *)
Definition fq_name (name : string) : string := "jobqueue_" +:+ name.

Record Metrics : Type := MkMetrics {
  ClaimDuration : instrument;
  JobDuration : instrument;
  Retries : instrument;
  DeadLetters : instrument;
}.

Section declarations.
Context {Pr : Prometheus}.

Definition instruments (m : Metrics) : list instrument :=
  [ClaimDuration m; JobDuration m; Retries m; DeadLetters m].

(** [metrics.New]. *)
Definition metrics_New (reg : list instrument) : option (Metrics * list instrument) :=
  let m := MkMetrics
    (MkInstrument (Histogram DefBuckets) (fq_name "claim_duration_seconds")
       "Time taken by a single Claim call, whether or not it found a job." [])
    (MkInstrument (Histogram DefBuckets) (fq_name "job_duration_seconds")
       "Time spent executing a claimed job's handler, by job type." ["job_type"])
    (MkInstrument Counter (fq_name "retries_total")
       "Jobs sent back to the queue after a failed attempt, by job type." ["job_type"])
    (MkInstrument Counter (fq_name "dead_letters_total")
       "Jobs that reached terminal failure, by job type." ["job_type"]) in
  reg ← MustRegister reg (instruments m); Some (m, reg).

(** What [storeCollector.Describe] sends. *)
Definition store_descs : list instrument :=
  [MkInstrument Gauge "jobqueue_queue_depth" "Number of jobs currently queued, by job type." ["job_type"];
   MkInstrument Gauge "jobqueue_in_flight" "Number of jobs currently running, by job type." ["job_type"];
   MkInstrument Gauge "jobqueue_shipper_lag_seconds"
     "Age of the oldest unshipped job_events row, in seconds (0 if none)." []].

Definition RegisterStoreCollector (reg : list instrument) : option (list instrument) := MustRegister reg store_descs.

(** The registry [runWork] builds. *)
Definition work_metrics : option (Metrics * list instrument) :=
  '(m, reg) ← metrics_New []; reg ← RegisterStoreCollector reg; Some (m, reg).

(** ** Use *)

(** An effect of the worker on an instrument: a histogram observes, a counter
    counts, with a label value exactly when it is declared with a label. *)
Definition records_on (i : instrument) (eff : effect) : Prop :=
  match eff, in_kind i with
  | EObserve name label _, Histogram _ => in_name i = fq_name name ∧ (in_labels i = [] → label = "")
  | EInc name label, Counter => in_name i = fq_name name ∧ in_labels i = ["job_type"]
  | _, _ => False
  end.

Definition is_metric (eff : effect) : bool :=
  match eff with EObserve _ _ _ | EInc _ _ => true | _ => false end.

(** Every metric effect has its instrument. *)
Definition declared (m : Metrics) (eff : effect) : Prop :=
  is_metric eff = false ∨ ∃ i, i ∈ instruments m ∧ records_on i eff.

(** A sample of the collector has its descriptor, with its label or without. *)
Definition described (x : metric) : Prop :=
  ∃ i, i ∈ store_descs ∧ in_name i = m_name x ∧ (in_labels i = [] ↔ m_label x = None).

(** How often an instrument was used for a job type. *)
Definition is_inc (counter label : string) (eff : effect) : bool :=
  match eff with EInc c t => bool_decide (c = counter) && bool_decide (t = label) | _ => false end.
Definition is_observation (name label : string) (eff : effect) : bool :=
  match eff with EObserve c t _ => bool_decide (c = name) && bool_decide (t = label) | _ => false end.

Definition incs (counter label : string) (l : list effect) : nat :=
  length (filter (λ eff, is_inc counter label eff) l).
Definition observations (name label : string) (l : list effect) : nat :=
  length (filter (λ eff, is_observation name label eff) l).

Lemma incs_app c t l l' : incs c t (l ++ l') = (incs c t l + incs c t l')%nat.
Proof. unfold incs. by rewrite filter_app, length_app. Qed.
Lemma observations_app c t l l' : observations c t (l ++ l') = (observations c t l + observations c t l')%nat.
Proof. unfold observations. by rewrite filter_app, length_app. Qed.

(** Spans and log lines record nothing. *)
Lemma silent_counts c t l :
  Forall (λ eff, is_metric eff = false) l → incs c t l = 0%nat ∧ observations c t l = 0%nat.
Proof.
  unfold incs, observations. induction 1 as [|eff l Heff _ [IH1 IH2]]; [done|].
  rewrite !filter_cons. by destruct eff.
Qed.

Lemma report_effects_silent {O : Otel} span ctx msg r :
  Forall (λ eff, is_metric eff = false) (report_effects span ctx msg r).
Proof. destruct r; by repeat constructor. Qed.

Lemma registered `{!PrometheusLaws Pr} :
  ∃ m, work_metrics = Some (m, instruments m ++ store_descs) ∧
    NoDup (in_name <$> instruments m ++ store_descs) ∧
    instruments m = [ClaimDuration m; JobDuration m; Retries m; DeadLetters m] ∧
    records_on (ClaimDuration m) (EObserve "claim_duration_seconds" "" 0) ∧
    (∀ t n, records_on (JobDuration m) (EObserve "job_duration_seconds" t n)) ∧
    (∀ t, records_on (Retries m) (EInc "retries_total" t)) ∧
    (∀ t, records_on (DeadLetters m) (EInc "dead_letters_total" t)).
Proof.
  unfold work_metrics, metrics_New. set (m := MkMetrics _ _ _ _).
  assert (NoDup (in_name <$> instruments m ++ store_descs)) as Hnd.
  { apply (bool_decide_eq_true_1 _). vm_compute. reflexivity. }
  exists m. rewrite register_fresh by (apply (bool_decide_eq_true_1 _); vm_compute; reflexivity).
  cbn [mbind option_bind]. unfold RegisterStoreCollector. rewrite register_fresh by exact Hnd.
  by split_and!.
Qed.

End declarations.

Section use.
Context {Pr : Prometheus} {PrL : PrometheusLaws Pr} {Pg : Postgres} {O : Otel} {W : Type}.
Implicit Types (w : Worker (W:=W)) (j : Job).

(** The outputs of one job: its duration, then [mid], among spans and logs. *)
Lemma job_records m t n sp mid rep sp' a b :
  (∀ t n, records_on (JobDuration m) (EObserve "job_duration_seconds" t n)) →
  is_metric sp = false → is_metric sp' = false → Forall (λ eff, is_metric eff = false) rep →
  Forall (declared m) mid → observations "job_duration_seconds" t mid = 0%nat →
  incs "retries_total" t mid = a → incs "dead_letters_total" t mid = b →
  Forall (declared m) ([EObserve "job_duration_seconds" t n; sp] ++ mid ++ rep ++ [sp']) ∧
  observations "job_duration_seconds" t ([EObserve "job_duration_seconds" t n; sp] ++ mid ++ rep ++ [sp']) = 1%nat ∧
  incs "retries_total" t ([EObserve "job_duration_seconds" t n; sp] ++ mid ++ rep ++ [sp']) = a ∧
  incs "dead_letters_total" t ([EObserve "job_duration_seconds" t n; sp] ++ mid ++ rep ++ [sp']) = b.
Proof.
  intros Hj Hsp Hsp' Hrep Hmid Ho <- <-.
  assert (∀ l, Forall (λ eff, is_metric eff = false) l → Forall (declared m) l) as Hs.
  { intros l Hl. eapply Forall_impl; [exact Hl|]. by left. }
  assert (Forall (λ eff, is_metric eff = false) (rep ++ [sp'])) as Htail by (apply Forall_app; split; [done|by constructor]).
  split_and!.
  - apply Forall_app. split; [|apply Forall_app; split; [done|by apply Hs]].
    constructor; [|apply Hs; by constructor]. right. exists (JobDuration m). split; [by right; left|by apply Hj].
  - rewrite !observations_app. destruct (silent_counts "job_duration_seconds" t _ Htail) as [_ Ht].
    rewrite observations_app in Ht. unfold observations at 1. rewrite !filter_cons, filter_nil.
    destruct sp; try done; simpl; rewrite !bool_decide_true by done; simpl; lia.
  - rewrite !incs_app. destruct (silent_counts "retries_total" t _ Htail) as [Ht _].
    rewrite incs_app in Ht. unfold incs at 1. rewrite !filter_cons, filter_nil. destruct sp; try done; simpl; lia.
  - rewrite !incs_app. destruct (silent_counts "dead_letters_total" t _ Htail) as [Ht _].
    rewrite incs_app in Ht. unfold incs at 1. rewrite !filter_cons, filter_nil. destruct sp; try done; simpl; lia.
Qed.

(** What processing one job records. *)
Lemma process_records m w pe ctx j (st st' : wstate W) :
  (∀ t n, records_on (JobDuration m) (EObserve "job_duration_seconds" t n)) →
  (∀ t, records_on (Retries m) (EInc "retries_total" t)) →
  (∀ t, records_on (DeadLetters m) (EInc "dead_letters_total" t)) →
  process w pe ctx j st = Some st' →
  let failed := bool_decide (is_Some (exec_result w ctx j (ws_world st)).1) in
  let last := MaxAttempts j <=? Attempts j in
  ∃ out, ws_out st' = ws_out st ++ out ∧ Forall (declared m) out ∧
    observations "job_duration_seconds" (Type_ j) out = 1%nat ∧
    incs "retries_total" (Type_ j) out = (if failed && negb last then 1 else 0)%nat ∧
    incs "dead_letters_total" (Type_ j) out = (if failed && last then 1 else 0)%nat.
Proof.
  intros Hj Hr Hd. unfold process. fold (job_ctx ctx j).
  change (execute w _ j (ws_world st)) with (exec_result w ctx j (ws_world st)).
  pose proof (λ span c msg r, report_effects_silent span c msg r) as Hrep.
  assert (∀ t, Forall (declared m) [EInc "retries_total" t]) as Hr'.
  { intros t. apply Forall_singleton. right. exists (Retries m). split; [by right; right; left|by apply Hr]. }
  assert (∀ t, Forall (declared m) [EInc "dead_letters_total" t]) as Hd'.
  { intros t. apply Forall_singleton. right. exists (DeadLetters m). split; [by right; right; right; left|by apply Hd]. }
  assert (∀ c t, incs c t [EInc c t] = 1%nat) as Hone.
  { intros c t. unfold incs. rewrite filter_cons. simpl. by rewrite !bool_decide_true. }
  assert (∀ c c' t, c ≠ c' → incs c t [EInc c' t] = 0%nat) as Hnone.
  { intros c c' t Hne. unfold incs. rewrite filter_cons. simpl. by rewrite bool_decide_false. }
  destruct (exec_result w ctx j (ws_world st)) as [[err|] wd]; cbn [fst].
  - destruct (MaxAttempts j <=? Attempts j).
    + destruct (Fail _ _ _ _ _) as [r s]. intros [= <-]. eexists. split; [reflexivity|].
      apply (job_records m _ _ _ [EInc "dead_letters_total" (Type_ j)]); auto.
    + destruct (calculateRetryDelay _ _ _); [|done]. destruct (Retry _ _ _ _ _ _) as [r s]. intros [= <-].
      eexists. split; [reflexivity|].
      apply (job_records m _ _ _ [EInc "retries_total" (Type_ j)]); auto.
  - destruct (Complete _ _ _ _) as [r s]. intros [= <-]. eexists. split; [reflexivity|].
    by apply (job_records m _ _ _ []).
Qed.

Lemma collect_described depth inflight lag now :
  Forall described (Collect (Sp:=span_context) depth inflight lag now).1.
Proof.
  unfold Collect, collect_counts.
  assert (∀ i x l, i ∈ store_descs → in_name i = x → in_labels i ≠ [] →
    Forall described ((λ p : string * Z, MkMetric x (Some p.1) (float_of p.2)) <$> l)) as Hc.
  { intros i x l Hi Hx Hl. apply Forall_fmap, Forall_forall. intros p _. exists i. split_and!; [done..|]. by split. }
  destruct (CountByStatusAndType _ _ "queued" _); destruct (CountByStatusAndType _ _ "running" _);
    destruct (ShipperLag _ _ _ _); simpl; repeat (apply Forall_app; split); try done;
    first [ by eapply Hc; [by left|done|done]
          | by eapply Hc; [by right; left|done|done]
          | apply Forall_singleton; eexists; split; [by right; right; left|by split] ].
Qed.

(** The instruments fit their use: at start-up of a worker process the seven
    instruments have distinct names, so no registration panics; everything a
    worker's turn and a scrape record goes to a declared instrument of the
    right kind with its label; and processing a job adds exactly one duration
    of its type, one retry exactly when the handler failed with attempts left,
    and one dead letter exactly when it failed on the last attempt, whatever
    the database answers. *)
Theorem metrics_fit :
  ∃ m, work_metrics = Some (m, instruments m ++ store_descs) ∧
    NoDup (in_name <$> instruments m ++ store_descs) ∧
    (∀ depth inflight lag now, Forall described (Collect (Sp:=span_context) depth inflight lag now).1) ∧
    (∀ n, declared m (EObserve "claim_duration_seconds" "" n)) ∧
    (∀ w pe ctx j (st st' : wstate W), process w pe ctx j st = Some st' →
       let failed := bool_decide (is_Some (exec_result w ctx j (ws_world st)).1) in
       let last := MaxAttempts j <=? Attempts j in
       ∃ out, ws_out st' = ws_out st ++ out ∧ Forall (declared m) out ∧
         observations "job_duration_seconds" (Type_ j) out = 1%nat ∧
         incs "retries_total" (Type_ j) out = (if failed && negb last then 1 else 0)%nat ∧
         incs "dead_letters_total" (Type_ j) out = (if failed && last then 1 else 0)%nat).
Proof.
  destruct registered as (m & Hm & Hnd & _ & Hc & Hj & Hr & Hd). exists m. split_and!; [done..| | |].
  - apply collect_described.
  - intros n. right. exists (ClaimDuration m). split; [by left|exact Hc].
  - intros w pe ctx j st st'. by apply process_records.
Qed.

End use.

(** ** A concrete registry *)

#[export] Instance prometheus_demo : Prometheus := {|
  DefBuckets := [];
  MustRegister := λ reg l, if decide (NoDup (in_name <$> reg ++ l)) then Some (reg ++ l) else None;
|}.

#[export] Instance prometheus_demo_laws : PrometheusLaws prometheus_demo.
Proof. constructor. intros reg l H. simpl. by rewrite decide_True. Qed.

Lemma metrics_fit_witness : ∃ m, work_metrics = Some (m, instruments m ++ store_descs).
Proof.
  destruct (metrics_fit (W:=unit)) as (m & Hm & _). by exists m.
Defined.
