(* ===== verification/Reports.v ===== *)
(** * Analytics reports

    [internal/analytics/reports.go]: the bucketed reports over the ClickHouse
    table and the drain-time estimate.  The queries read the table as it is,
    without FINAL.  [uniq] is ClickHouse's approximate count of distinct
    values, a parameter. *)

From stdpp Require Import prelude gmap strings list sorting.
From Stdlib Require Import Floats.SpecFloat.
From S2P Require Import Prelude GoBase Job Store Shipper Config Process Demo ShipperFacts.
#[local] Open Scope jq_scope.

(** ** Aggregation *)

Fixpoint sum_list (l : list Z) : Z :=
  match l with [] => 0 | x :: l => x + sum_list l end.

Definition count_if {A} (P : A → bool) (l : list A) : Z := Z.of_nat (length (filter (λ x, P x) l)).

(** [event_type = 'enqueued'] and [event_type IN (...)]. *)
Definition is_arrival (r : ch_row) : bool := bool_decide (ch_event_type r = "enqueued").
Definition is_departure (r : ch_row) : bool :=
  bool_decide (ch_event_type r = "completed") || bool_decide (ch_event_type r = "failed")
  || bool_decide (ch_event_type r = "reaped_failed").

(** [int64(d.Seconds())]. *)
Definition whole_seconds (d : Z) : Z := float_trunc (Seconds d).

(** [WHERE occurred_at >= now() - INTERVAL ? SECOND], at [now] in seconds; the
    column counts milliseconds. *)
Definition in_window (now window : Z) (ch : list ch_row) : list ch_row :=
  filter (λ r, (now - whole_seconds window) * 1000 <=? ch_occurred_at r) ch.

(** [toStartOfInterval(occurred_at, INTERVAL n SECOND)], in seconds. *)
Definition bucket_of (n : Z) (r : ch_row) : Z := ch_occurred_at r / 1000 / n * n.

(** The keys of a GROUP BY, in the order of an ORDER BY on them. *)
Definition buckets (n : Z) (rows : list ch_row) : list Z :=
  order_by Z.leb (remove_dups (bucket_of n <$> rows)).

Definition in_bucket (n b : Z) (r : ch_row) : bool := bucket_of n r =? b.

(** ** The reports *)

Record ArrivalCompletion : Type := MkArrivalCompletion {
  AC_Bucket : Z;
  Arrivals : Z;
  Completions : Z;
}.

Record BacklogPoint : Type := MkBacklogPoint {
  BP_Bucket : Z;
  ActiveWorkers : Z;
  CumulativeBacklog : Z;
}.

Record CompletionRate : Type := MkCompletionRate {
  CR_JobType : string;
  CR_Completions : Z;
}.

(** A query of the ClickHouse client: an error, or the rows at a time.  An
    interval must be positive. *)
Record ch_query : Type := ChQuery {
  cq_error : option string;
  cq_now : Z;
  cq_interval_error : string;
}.

Definition run_query {A} (q : ch_query) (prefix : string) (positive : bool) (rows : list A) :
    result error (list A) :=
  match cq_error q with
  | Some t => Err (EWrap prefix (EText t))
  | None => if positive then Ok rows else Err (EWrap prefix (EText (cq_interval_error q)))
  end.

Definition arrivals_in (n b : Z) (rows : list ch_row) : Z :=
  count_if (λ r, in_bucket n b r && is_arrival r) rows.
Definition completions_in (n b : Z) (rows : list ch_row) : Z :=
  count_if (λ r, in_bucket n b r && is_departure r) rows.

Definition ArrivalsVsCompletions (q : ch_query) (window bucket : Z) (ch : list ch_row) :
    result error (list ArrivalCompletion) :=
  let n := whole_seconds bucket in
  let rows := in_window (cq_now q) window ch in
  run_query q "analytics: arrivals vs completions: " (0 <? n)
    ((λ b, MkArrivalCompletion b (arrivals_in n b rows) (completions_in n b rows)) <$> buckets n rows).

(** [sum(net_change) OVER (ORDER BY bucket)]: the running sum. *)
Fixpoint running (acc : Z) (l : list (Z * Z * Z)) : list BacklogPoint :=
  match l with
  | [] => []
  | (b, workers, net) :: l => MkBacklogPoint b workers (acc + net) :: running (acc + net) l
  end.

Definition BacklogVsWorkers (uniq : list string → Z) (q : ch_query) (window bucket : Z)
    (ch : list ch_row) : result error (list BacklogPoint) :=
  let n := whole_seconds bucket in
  let rows := in_window (cq_now q) window ch in
  let workers b :=
    uniq (ch_worker_id <$> filter (λ r, in_bucket n b r && bool_decide (ch_event_type r = "claimed")) rows) in
  run_query q "analytics: backlog vs workers: " (0 <? n)
    (running 0 ((λ b, (b, workers b, arrivals_in n b rows - completions_in n b rows)) <$> buckets n rows)).

Definition RecentCompletionRates (q : ch_query) (window : Z) (ch : list ch_row) :
    result error (list CompletionRate) :=
  let rows := in_window (cq_now q) window ch in
  run_query q "analytics: recent completion rates: " true
    ((λ t, MkCompletionRate t (count_if (λ r, bool_decide (ch_job_type r = t) && is_departure r) rows))
       <$> remove_dups (ch_job_type <$> rows)).

(** ** The drain-time estimate *)

Record DrainEstimate : Type := MkDrainEstimate {
  DE_JobType : string;
  Backlog : Z;
  CompletionsPerSec : spec_float;
  EstimatedSeconds : spec_float;
  CanEstimate : bool;
}.

Definition estimate (backlog : gmap string Z) (rates : gmap string spec_float) (t : string) : DrainEstimate :=
  let rate := default (S754_zero false) (rates !! t) in
  let n := default 0 (backlog !! t) in
  if SFltb (S754_zero false) rate
  then MkDrainEstimate t n rate (SFdiv 53 1024 (float_of n) rate) true
  else MkDrainEstimate t n rate (S754_zero false) false.

(** The map's iteration order does not show: the types are distinct and sorted
    by their bytes at the end. *)
Definition EstimateDrainTime (backlog : gmap string Z) (completionsPerSec : gmap string spec_float) :
    list DrainEstimate :=
  let jobTypes := elements (dom backlog ∪ dom completionsPerSec) in
  order_by (λ a b, String.leb (DE_JobType a) (DE_JobType b)) (estimate backlog completionsPerSec <$> jobTypes).

(** ** The reports agree *)

Lemma buckets_NoDup n rows : NoDup (buckets n rows).
Proof. unfold buckets. rewrite order_by_perm. apply NoDup_remove_dups. Qed.

Lemma elem_of_buckets n rows b : b ∈ buckets n rows ↔ ∃ r, r ∈ rows ∧ bucket_of n r = b.
Proof.
  unfold buckets. rewrite order_by_perm, elem_of_remove_dups, list_elem_of_fmap. split; intros (r & ? & ?); eauto.
Qed.

Lemma buckets_sorted n rows : StronglySorted Z.lt (buckets n rows).
Proof.
  assert (StronglySorted Z.leb (buckets n rows)) as Hs.
  { apply order_by_sorted; intros *; rewrite !Is_true_true, !Z.leb_le; lia. }
  pose proof (buckets_NoDup n rows) as Hnd. revert Hnd.
  induction Hs as [|x l Hs IH Hf]; intros Hnd; constructor; apply NoDup_cons in Hnd as [Hx Hnd]; [by auto|].
  apply Forall_forall. intros y Hy. rewrite Forall_forall in Hf. specialize (Hf _ Hy).
  apply Is_true_true, Z.leb_le in Hf. assert (x ≠ y) by (by intros ->). lia.
Qed.

Lemma count_if_cons {A} (P : A → bool) x l :
  count_if P (x :: l) = (if P x then 1 else 0) + count_if P l.
Proof. unfold count_if. rewrite filter_cons. case_decide as H; destruct (P x); simpl; try done; lia. Qed.

Lemma sum_list_add (f g : Z → Z) bs :
  sum_list ((λ b, f b + g b) <$> bs) = sum_list (f <$> bs) + sum_list (g <$> bs).
Proof. induction bs as [|b bs IH]; [done|]. rewrite !fmap_cons. cbn [sum_list]. rewrite IH. lia. Qed.

Lemma sum_list_indicator (b0 v : Z) bs :
  NoDup bs → sum_list ((λ b, if b0 =? b then v else 0) <$> bs) = if decide (b0 ∈ bs) then v else 0.
Proof.
  induction 1 as [|b bs Hb Hnd IH]; [done|]. rewrite fmap_cons. cbn [sum_list]. rewrite IH.
  destruct (Z.eqb_spec b0 b) as [->|Hne].
  - rewrite decide_False, decide_True by (done || by left). lia.
  - destruct (decide (b0 ∈ bs)) as [Hd|Hd].
    + by rewrite decide_True by (by right).
    + rewrite decide_False; [done|]. by intros [|]%elem_of_cons.
Qed.

(** Counting per bucket counts everything once. *)
Lemma count_by_bucket n (P : ch_row → bool) rows bs :
  NoDup bs → (∀ r, r ∈ rows → bucket_of n r ∈ bs) →
  sum_list ((λ b, count_if (λ r, in_bucket n b r && P r) rows) <$> bs) = count_if P rows.
Proof.
  intros Hnd. induction rows as [|r rows IH]; intros Hin.
  - clear. induction bs as [|b bs IH]; [done|]. rewrite fmap_cons. cbn [sum_list]. by rewrite IH.
  - rewrite count_if_cons, <-IH by (intros; apply Hin; by right).
    rewrite (list_fmap_ext _ (λ b, (if bucket_of n r =? b then if P r then 1 else 0 else 0)
      + count_if (λ r, in_bucket n b r && P r) rows)).
    + rewrite sum_list_add, sum_list_indicator by done. by rewrite decide_True by (apply Hin; by left).
    + intros i b _. rewrite count_if_cons. unfold in_bucket. by destruct (_ =? _).
Qed.

Lemma running_buckets acc l : BP_Bucket <$> running acc l = (λ x, x.1.1) <$> l.
Proof. revert acc. induction l as [|[[b w] k] l IH]; intros acc; simpl; [done|]. by rewrite IH. Qed.

Lemma running_lookup acc l i p :
  running acc l !! i = Some p → CumulativeBacklog p = acc + sum_list (snd <$> take (S i) l).
Proof.
  revert acc i. induction l as [|[[b w] k] l IH]; intros acc [|i]; try done.
  - intros [= <-]. simpl. lia.
  - intros Hp. simpl in Hp. rewrite (IH _ _ Hp), firstn_cons, fmap_cons. cbn [sum_list snd]. lia.
Qed.

(** Over the window, every arrival and completion is counted once. *)
Lemma ArrivalsVsCompletions_totals q window bucket ch ac :
  ArrivalsVsCompletions q window bucket ch = Ok ac →
  sum_list (Arrivals <$> ac) = count_if is_arrival (in_window (cq_now q) window ch) ∧
  sum_list (Completions <$> ac) = count_if is_departure (in_window (cq_now q) window ch).
Proof.
  unfold ArrivalsVsCompletions, run_query. destruct (cq_error q); [done|].
  destruct (0 <? whole_seconds bucket); [|done]. intros [= <-].
  set (rows := in_window (cq_now q) window ch). set (n := whole_seconds bucket).
  assert (∀ r, r ∈ rows → bucket_of n r ∈ buckets n rows) as Hin.
  { intros r Hr. apply elem_of_buckets. eauto. }
  split; rewrite <-list_fmap_compose.
  - apply (count_by_bucket n is_arrival); [apply buckets_NoDup|done].
  - apply (count_by_bucket n is_departure); [apply buckets_NoDup|done].
Qed.

(** The two bucketed reports agree: over the same window they have the same
    buckets in increasing order, the cumulative backlog at each bucket is the
    sum of arrivals minus completions up to it, and over the whole window the
    arrivals and completions are the enqueued and the terminal events there,
    each counted once. *)
Theorem reports_agree uniq q window bucket ch ac bp :
  ArrivalsVsCompletions q window bucket ch = Ok ac → BacklogVsWorkers uniq q window bucket ch = Ok bp →
  StronglySorted Z.lt (AC_Bucket <$> ac) ∧ BP_Bucket <$> bp = AC_Bucket <$> ac ∧
  (∀ i p, bp !! i = Some p →
     CumulativeBacklog p = sum_list ((λ a, Arrivals a - Completions a) <$> take (S i) ac)) ∧
  sum_list (Arrivals <$> ac) = count_if is_arrival (in_window (cq_now q) window ch) ∧
  sum_list (Completions <$> ac) = count_if is_departure (in_window (cq_now q) window ch).
Proof.
  intros Ha. pose proof (ArrivalsVsCompletions_totals _ _ _ _ _ Ha) as [Ht1 Ht2]. revert Ha Ht1 Ht2.
  unfold ArrivalsVsCompletions, BacklogVsWorkers, run_query.
  destruct (cq_error q); [done|]. destruct (0 <? whole_seconds bucket); [|done].
  intros [= <-] Ht1 Ht2 [= <-]. set (rows := in_window (cq_now q) window ch). set (n := whole_seconds bucket).
  set (f := λ b, MkArrivalCompletion b _ _).
  assert (AC_Bucket <$> (f <$> buckets n rows) = buckets n rows) as Hb.
  { rewrite <-list_fmap_compose. by rewrite list_fmap_id. }
  split_and!.
  - rewrite Hb. apply buckets_sorted.
  - rewrite Hb, running_buckets, <-list_fmap_compose. by rewrite list_fmap_id.
  - intros i p ->%running_lookup. rewrite <-!fmap_take, <-!list_fmap_compose. simpl. done.
  - exact Ht1.
  - exact Ht2.
Qed.

(** ** The estimate *)

Definition by_type (a b : DrainEstimate) : bool := String.leb (DE_JobType a) (DE_JobType b).

Lemma estimate_type backlog rates t : DE_JobType (estimate backlog rates t) = t.
Proof. unfold estimate. by destruct (SFltb _ _). Qed.

Lemma by_type_order :
  (∀ a b, by_type a b ∨ by_type b a) ∧ (∀ a b c, by_type a b → by_type b c → by_type a c).
Proof.
  unfold by_type. split.
  - intros a b. rewrite !Is_true_true. apply String.leb_total.
  - intros a b c. apply (transitivity (R:=String.le)).
Qed.

(** Sorting estimates of distinct types forgets the order they came in. *)
Lemma order_by_type_unique backlog rates ts ts' :
  ts ≡ₚ ts' →
  order_by by_type (estimate backlog rates <$> ts) = order_by by_type (estimate backlog rates <$> ts').
Proof.
  intros Hp. destruct by_type_order as [Htot Htr].
  apply (StronglySorted_unique_strong by_type); [|by apply order_by_sorted..|].
  - intros a b Ha Hb Hab Hba.
    assert (∀ l x, x ∈ order_by by_type (estimate backlog rates <$> l) →
              x = estimate backlog rates (DE_JobType x)) as Hx.
    { intros l x. rewrite order_by_perm. intros (t & -> & _)%list_elem_of_fmap.
      by rewrite estimate_type. }
    rewrite (Hx _ a Ha), (Hx _ b Hb). f_equal. apply String.leb_antisym; by apply Is_true_true.
  - by rewrite !order_by_perm, Hp.
Qed.

(** The drain-time estimate does not depend on the iteration order of Go's maps
    and covers exactly the types of either map, each once, sorted by name; a
    type gets an estimate exactly when its completion rate is positive, and
    then it is its backlog over that rate, a missing backlog counting as 0. *)
Theorem EstimateDrainTime_spec backlog rates :
  let l := EstimateDrainTime backlog rates in
  (∀ ts, ts ≡ₚ elements (dom backlog ∪ dom rates) →
     order_by by_type (estimate backlog rates <$> ts) = l) ∧
  StronglySorted (λ a b, String.leb (DE_JobType a) (DE_JobType b) = true) l ∧
  DE_JobType <$> l ≡ₚ elements (dom backlog ∪ dom rates) ∧
  (∀ e, e ∈ l →
     Backlog e = default 0 (backlog !! DE_JobType e) ∧
     (CanEstimate e = true ↔
        ∃ rate, rates !! DE_JobType e = Some rate ∧ SFltb (S754_zero false) rate = true ∧
          EstimatedSeconds e = SFdiv 53 1024 (float_of (Backlog e)) rate)).
Proof.
  intros l. destruct by_type_order as [Htot Htr]. split_and!.
  - intros ts Hts. by apply order_by_type_unique.
  - pose proof (order_by_sorted by_type Htot Htr
      (estimate backlog rates <$> elements (dom backlog ∪ dom rates))) as Hs.
    unfold l, EstimateDrainTime. fold by_type. induction Hs as [|x k Hs IH Hf]; constructor; [done|].
    eapply Forall_impl; [exact Hf|]. intros y Hy. by apply Is_true_true in Hy.
  - unfold l, EstimateDrainTime. rewrite order_by_perm, <-list_fmap_compose.
    rewrite (list_fmap_ext _ id); [by rewrite list_fmap_id|]. intros i t _. apply estimate_type.
  - intros e. unfold l, EstimateDrainTime. rewrite order_by_perm.
    intros (t & -> & _)%list_elem_of_fmap. rewrite estimate_type. unfold estimate.
    destruct (rates !! t) as [rate|] eqn:Hr; simpl.
    + destruct (SFltb (S754_zero false) rate) eqn:E; simpl; (split; [done|]).
      * split; [by eauto|done].
      * split; [done|]. intros (rate' & [= <-] & Hlt & _). congruence.
    + split; [done|]. split; [done|]. by intros (? & ? & _).
Qed.

(** ** Reports on the demonstration pipeline *)

Definition demo_query_at (now : Z) : ch_query := ChQuery None now "interval must be positive".
Definition demo_shipped : list ch_row := p_ch (RunShipper 10 [TurnTick (demo_cycle (sec 4))] demo_pipe).2.

Lemma reports_agree_witness :
  ∃ ac, ArrivalsVsCompletions (demo_query_at 10) Hour Minute demo_shipped = Ok ac ∧
    sum_list (Arrivals <$> ac) = 1 ∧ sum_list (Completions <$> ac) = 1.
Proof.
  eexists. split; [reflexivity|].
  destruct (reports_agree (λ l, Z.of_nat (length l)) (demo_query_at 10) Hour Minute demo_shipped _ _
    eq_refl eq_refl) as (_ & _ & _ & Ha & Hc).
  split; [etrans; [exact Ha|by vm_compute]|etrans; [exact Hc|by vm_compute]].
Defined.
