(* ===== verification/Backlog.v ===== *)
(** * The backlog report and the queue

    The [backlog] report of ClickHouse counts events; the gauges of Prometheus
    count rows of Postgres.  Under the lease discipline, once the outbox has
    been shipped, they are the same number. *)

From stdpp Require Import prelude gmap strings list relations sorting.
From Stdlib Require Import Floats.SpecFloat.
From S2P Require Import Prelude GoBase Job Store StoreFacts Steps Claim Invariant History.
From S2P Require Import StoreSpec Lifecycle Ledger Demo Shipper ShipperFacts Config Process Reports.
#[local] Open Scope jq_scope.

Section backlog.
Context {Pg : Postgres} {Ch : ClickHouse}.
Implicit Types (s : db) (y : sys).

(** The rows that wait or run. *)
Definition active (p : Z * job_row) : bool :=
  bool_decide (r_status p.2 = StatusQueued) || bool_decide (r_status p.2 = StatusRunning).
Definition active_rows s : Z := count_if active (map_to_list (jobs s)).

Lemma count_if_perm {A} (P : A → bool) l l' : l ≡ₚ l' → count_if P l = count_if P l'.
Proof. unfold count_if. by intros ->. Qed.

Lemma total_live s : total live_value (abs_jobs s) = active_rows s.
Proof.
  unfold active_rows, abs_jobs. induction (jobs s) as [|id r m Hid IH] using map_ind.
  - rewrite fmap_empty, map_to_list_empty. done.
  - rewrite fmap_insert, total_fresh, IH by (by rewrite lookup_fmap, Hid).
    rewrite (count_if_perm _ _ _ (map_to_list_insert _ _ _ Hid)), count_if_cons. f_equal.
    unfold live_value, active. simpl. destruct (r_status r); done.
Qed.

Lemma count_arrivals l :
  count_if is_arrival (ch_of <$> l) - count_if is_departure (ch_of <$> l) = tally net_value l.
Proof.
  induction l as [|ev l IH]; [done|]. rewrite fmap_cons, !count_if_cons. simpl. rewrite <-IH.
  unfold is_arrival, is_departure, ch_of, net_value, ending_value. simpl.
  destruct (Event_EventType ev); simpl; lia.
Qed.

(** The last point of the report has the whole window. *)
Lemma backlog_last uniq q window bucket ch bp :
  BacklogVsWorkers uniq q window bucket ch = Ok bp →
  default 0 (CumulativeBacklog <$> last bp) =
  count_if is_arrival (in_window (cq_now q) window ch) - count_if is_departure (in_window (cq_now q) window ch).
Proof.
  unfold BacklogVsWorkers, run_query. destruct (cq_error q); [done|].
  destruct (0 <? whole_seconds bucket); [|done]. intros [= <-].
  set (rows := in_window (cq_now q) window ch). set (n := whole_seconds bucket).
  assert (∀ r, r ∈ rows → bucket_of n r ∈ buckets n rows) as Hin by (intros r Hr; apply elem_of_buckets; eauto).
  rewrite <-(count_by_bucket n is_arrival rows _ (buckets_NoDup n rows) Hin).
  rewrite <-(count_by_bucket n is_departure rows _ (buckets_NoDup n rows) Hin).
  generalize (buckets n rows). intros bs. set (net := λ b, (b, _, _)).
  assert (∀ acc l, default acc (CumulativeBacklog <$> last (running acc l)) = acc + sum_list (snd <$> l)) as Hlast.
  { intros acc l. revert acc. induction l as [|[[b w] k] l IH]; intros acc; [simpl; lia|].
    rewrite fmap_cons. cbn [running sum_list snd]. specialize (IH (acc + k)).
    rewrite last_cons. destruct (last (running (acc + k) l)); simpl in *; lia. }
  rewrite Hlast. clear Hlast Hin. rewrite Z.add_0_l. induction bs as [|b bs IH]; [done|].
  rewrite !fmap_cons. cbn [sum_list]. rewrite IH. unfold net. cbn [snd]. unfold arrivals_in, completions_in. lia.
Qed.

(** C24. The [backlog] report ends at the queue's real length: if every event of the
    outbox has reached ClickHouse once, in any order, and the window reaches
    back to the first, then after any run under the lease discipline the last
    cumulative backlog is the number of jobs that are queued or running in
    Postgres. *)
Theorem backlog_is_queue uniq q window bucket y ch bp :
  sys_reachable y → ch ≡ₚ ch_of <$> outbox (sy_db y) →
  (∀ c, c ∈ ch → (cq_now q - whole_seconds window) * 1000 ≤ ch_occurred_at c) →
  BacklogVsWorkers uniq q window bucket ch = Ok bp →
  default 0 (CumulativeBacklog <$> last bp) = active_rows (sy_db y).
Proof.
  intros Hy Hch Hw Hb. rewrite (backlog_last _ _ _ _ _ _ Hb).
  assert (in_window (cq_now q) window ch = ch) as ->.
  { unfold in_window. apply filter_all. intros c Hc%Hw. by apply Is_true_true, Z.leb_le. }
  rewrite !(count_if_perm _ _ _ Hch), count_arrivals, <-total_live.
  destruct (balanced live_value net_value _ _ _ (λ t ty n o h H, proj2 (proj2 (values_step t ty n o h H)))
    (strict_reachable _ Hy)) as [-> _]. done.
Qed.

End backlog.

(** ** The demonstration pipeline *)

Lemma backlog_is_queue_witness :
  ∃ bp, BacklogVsWorkers (λ l, Z.of_nat (length l)) (demo_query_at 10) Hour Minute demo_shipped = Ok bp ∧
    default 0 (CumulativeBacklog <$> last bp) = active_rows demo_completed.
Proof.
  destruct (BacklogVsWorkers (λ l, Z.of_nat (length l)) (demo_query_at 10) Hour Minute demo_shipped) as [bp|] eqn:E;
    [|by vm_compute in E].
  exists bp. split; [done|].
  apply (backlog_is_queue (λ l, Z.of_nat (length l)) (demo_query_at 10) Hour Minute demo_sys_done demo_shipped bp
    demo_sys_done_reachable); [|by apply Forall_forall; vm_compute; repeat constructor|exact E].
  assert (demo_shipped = ch_of <$> outbox demo_completed) as ->; [vm_compute; reflexivity|done].
Defined.
