(* ===== verification/DurationText.v ===== *)
(** * Numbers and durations as text

    Decimal text is parsed back: for the digits [pretty] prints, and for the
    text of every [time.Duration], including the fraction that
    [time.ParseDuration] computes in floating point, which is exact there. *)

From stdpp Require Import prelude strings list pretty.
From Stdlib Require Import Ascii String Floats.SpecFloat.
From S2P Require Import Prelude GoBase Config.
#[local] Open Scope jq_scope.

(** ** Small integers are exact in a [float64] *)

(** [f] is the positive integer [n], exactly. *)
Definition float_is (f : spec_float) (n : Z) : Prop :=
  ∃ m e, f = S754_finite false m e ∧ e ≤ 0 ∧ Z.pos m = n * 2 ^ (- e).

Lemma float_is_trunc f n : float_is f n → float_trunc f = n.
Proof.
  intros (m & e & -> & He & Hm). unfold float_trunc. destruct (Z.leb_spec 0 e).
  - replace e with 0 in * by lia. simpl in *. lia.
  - rewrite Hm, Z.div_mul; [done|]. apply Z.pow_nonzero; lia.
Qed.

Lemma digits2_log2 p : Z.pos (digits2_pos p) = Z.log2 (Z.pos p) + 1.
Proof.
  induction p as [p IH|p IH|]; cbn [digits2_pos]; [| |done].
  - rewrite Pos2Z.inj_succ, IH, Pos2Z.inj_xI, Z.log2_succ_double by lia. lia.
  - rewrite Pos2Z.inj_succ, IH, Pos2Z.inj_xO, Z.log2_double by lia. lia.
Qed.

Lemma log2_mul_pow n t : 0 < n → 0 ≤ t → Z.log2 (n * 2 ^ t) = Z.log2 n + t.
Proof. intros. rewrite Z.log2_mul_pow2 by lia. lia. Qed.

Lemma shr_1_double m : 0 < m → shr_1 (Build_shr_record (2 * m) false false) = Build_shr_record m false false.
Proof. by destruct m. Qed.

(** Shifting out zeros is exact. *)
Lemma iter_shr p m :
  0 < m →
  iter_pos shr_1 p (Build_shr_record (m * 2 ^ Z.pos p) false false) = Build_shr_record m false false.
Proof.
  revert m. induction p as [p IH|p IH|]; intros m Hm; cbn [iter_pos].
  - replace (m * 2 ^ Z.pos p~1) with (2 * (m * 2 ^ Z.pos p * 2 ^ Z.pos p)).
    + assert (0 < 2 ^ Z.pos p) by (apply Z.pow_pos_nonneg; lia). rewrite shr_1_double by nia.
      by rewrite !IH by nia.
    + rewrite Pos2Z.inj_xI, Z.pow_add_r, Z.pow_mul_r, Z.pow_1_r by lia.
      replace ((2 ^ 2) ^ Z.pos p) with (2 ^ Z.pos p * 2 ^ Z.pos p); [lia|].
      rewrite <-Z.pow_mul_l. by f_equal.
  - replace (m * 2 ^ Z.pos p~0) with (m * 2 ^ Z.pos p * 2 ^ Z.pos p).
    + assert (0 < 2 ^ Z.pos p) by (apply Z.pow_pos_nonneg; lia). by rewrite !IH by nia.
    + rewrite Pos2Z.inj_xO, <-Z.mul_assoc, <-Z.pow_add_r by lia. f_equal. f_equal. lia.
  - replace (m * 2 ^ 1) with (2 * m) by lia. by apply shr_1_double.
Qed.

Lemma pow2_53 n : 0 < n < 2 ^ 53 → 0 ≤ Z.log2 n ≤ 52.
Proof.
  intros Hn. pose proof (Z.log2_nonneg n).
  assert (Z.log2 n < 53) by (apply Z.log2_lt_pow2; lia). lia.
Qed.

(** Rounding keeps a number of at most 53 bits. *)
Lemma round_exact n t M :
  0 < n < 2 ^ 53 → 0 ≤ t → Z.pos M = n * 2 ^ t →
  float_is (binary_round_aux 53 1024 false (Z.pos M) (- t) loc_Exact) n.
Proof.
  intros Hn Ht HM. pose proof (pow2_53 n Hn) as Hl.
  assert (Z.pos (digits2_pos M) = Z.log2 n + t + 1) as Hd.
  { rewrite digits2_log2, HM, log2_mul_pow by lia. lia. }
  unfold binary_round_aux, shr_fexp, shr_record_of_loc.
  cbn [Zdigits2]. rewrite Hd. unfold fexp, emin.
  replace (Z.max (Z.log2 n + t + 1 + - t - 53) (3 - 1024 - 53) - - t) with (Z.log2 n - 52 + t) by lia.
  destruct (Z.log2 n - 52 + t) as [|s|s] eqn:Es; cbn [shr].
  - cbn [loc_of_shr_record round_nearest_even shr_m Zdigits2]. rewrite Hd.
    replace (Z.max (Z.log2 n + t + 1 + - t - 53) (3 - 1024 - 53) - - t) with (Z.log2 n - 52 + t) by lia.
    rewrite Es. cbn [shr shr_m]. destruct (Z.leb_spec (- t) (1024 - 53)); [|lia].
    exists M, (- t). split_and!; [done|lia|]. by rewrite Z.opp_involutive.
  - assert (Z.pos M = n * 2 ^ (t - Z.pos s) * 2 ^ Z.pos s) as HMs.
    { rewrite <-Z.mul_assoc, <-Z.pow_add_r by lia. rewrite HM. f_equal. f_equal. lia. }
    assert (0 < 2 ^ (t - Z.pos s)) by (apply Z.pow_pos_nonneg; lia).
    assert (0 < n * 2 ^ (t - Z.pos s)) as Hpos by nia.
    rewrite HMs, iter_shr by done. cbn [loc_of_shr_record round_nearest_even shr_m].
    destruct (n * 2 ^ (t - Z.pos s)) as [|m|m] eqn:Em; [lia| |lia]. cbn [Zdigits2].
    rewrite digits2_log2, <-Em, log2_mul_pow by lia.
    replace (Z.max (Z.log2 n + (t - Z.pos s) + 1 + (- t + Z.pos s) - 53) (3 - 1024 - 53)
             - (- t + Z.pos s)) with 0 by lia.
    cbn [shr shr_m]. rewrite Em. destruct (Z.leb_spec (- t + Z.pos s) (1024 - 53)); [|lia].
    exists m, (- t + Z.pos s). split_and!; [done|lia|]. rewrite <-Em. f_equal. f_equal. lia.
  - cbn [loc_of_shr_record round_nearest_even shr_m Zdigits2]. rewrite Hd.
    replace (Z.max (Z.log2 n + t + 1 + - t - 53) (3 - 1024 - 53) - - t) with (Z.log2 n - 52 + t) by lia.
    rewrite Es. cbn [shr shr_m]. destruct (Z.leb_spec (- t) (1024 - 53)); [|lia].
    exists M, (- t). split_and!; [done|lia|]. by rewrite Z.opp_involutive.
Qed.

Lemma iter_xO m d : Z.pos (Pos.iter xO m d) = Z.pos m * 2 ^ Z.pos d.
Proof.
  induction d as [|d IH] using Pos.peano_ind; [simpl; lia|].
  rewrite Pos.iter_succ, Pos2Z.inj_xO, IH, Pos2Z.inj_succ, Z.pow_succ_r by lia. lia.
Qed.

Lemma float_of_exact n : 0 < n < 2 ^ 53 → float_is (float_of n) n.
Proof.
  intros Hn. pose proof (pow2_53 n Hn) as Hl. destruct n as [|p|p]; [lia| |lia].
  unfold float_of, binary_normalize, binary_round, shl_align, fexp, emin. rewrite digits2_log2.
  replace (Z.max (Z.log2 (Z.pos p) + 1 + 0 - 53) (3 - 1024 - 53) - 0) with (Z.log2 (Z.pos p) - 52) by lia.
  replace (Z.max (Z.log2 (Z.pos p) + 1 + 0 - 53) (3 - 1024 - 53)) with (Z.log2 (Z.pos p) - 52) by lia.
  destruct (Z.log2 (Z.pos p) - 52) as [|d|d] eqn:E.
  - apply (round_exact (Z.pos p) 0); [done|lia|lia].
  - lia.
  - change (Z.neg d) with (- Z.pos d). apply round_exact; [done|lia|]. by rewrite iter_xO.
Qed.

Lemma float_mul_exact f g a b :
  float_is f a → float_is g b → 0 < a * b < 2 ^ 53 → float_is (SFmul 53 1024 f g) (a * b).
Proof.
  intros (m & e & -> & He & Hm) (m' & e' & -> & He' & Hm') Hab. unfold SFmul. cbn [xorb].
  replace (e + e') with (- (- e - e')) by lia. apply round_exact; [done|lia|].
  rewrite Pos2Z.inj_mul, Hm, Hm'. replace (- e - e') with (- e + - e') by lia.
  rewrite Z.pow_add_r by lia. lia.
Qed.

(** ** Fractions of a unit *)

(** The quotient of a unit by a power of ten below it is exact. *)
Lemma unit_over_scale p j :
  p = 3 ∨ p = 6 ∨ p = 9 → 0 ≤ j ≤ p →
  SFdiv 53 1024 (float_of (10 ^ p)) (float_of (10 ^ j)) = float_of (10 ^ (p - j)).
Proof.
  intros Hp Hj.
  assert (j = 0 ∨ j = 1 ∨ j = 2 ∨ j = 3 ∨ j = 4 ∨ j = 5 ∨ j = 6 ∨ j = 7 ∨ j = 8 ∨ j = 9) as Hj'.
  { lia. }
  destruct Hp as [->|[->| ->]]; destruct_or? Hj'; subst j; try lia; by vm_compute.
Qed.

Lemma fraction_ns_exact f p j :
  p = 3 ∨ p = 6 ∨ p = 9 → 0 ≤ j ≤ p → 0 < f < 10 ^ j →
  fraction_ns f (10 ^ p) (10 ^ j) = f * 10 ^ (p - j).
Proof.
  intros Hp Hj Hf. unfold fraction_ns. rewrite unit_over_scale by done.
  assert (0 < 10 ^ (p - j)) by (apply Z.pow_pos_nonneg; lia).
  assert (10 ^ j * 10 ^ (p - j) = 10 ^ p) as E by (rewrite <-Z.pow_add_r by lia; f_equal; lia).
  assert (10 ^ p ≤ 10 ^ 9) by (apply Z.pow_le_mono_r; [lia|]; lia).
  assert (10 ^ 9 < 2 ^ 53) by lia.
  apply float_is_trunc. apply float_mul_exact; [apply float_of_exact; nia..|nia].
Qed.

(** ** Decimal digits *)

Definition digit (d : Z) : Prop := 0 ≤ d ≤ 9.

(** The text of a list of digits in front of [t], and its value. *)
Definition digits_text (ds : list Z) (t : string) : string := foldr (λ d, String (digit_char d)) t ds.
Definition digits_value (x : Z) (ds : list Z) : Z := foldl (λ x d, x * 10 + d) x ds.

Lemma digit_cases d :
  digit d → d = 0 ∨ d = 1 ∨ d = 2 ∨ d = 3 ∨ d = 4 ∨ d = 5 ∨ d = 6 ∨ d = 7 ∨ d = 8 ∨ d = 9.
Proof. unfold digit. lia. Qed.

Lemma digit_of_char d : digit d → digit_of (digit_char d) = Some d.
Proof. intros H%digit_cases. destruct_or! H; by subst. Qed.

Lemma pretty_N_char_digit n : (n < 10)%N → pretty_N_char n = digit_char (Z.of_N n).
Proof.
  intros H. assert (digit (Z.of_N n)) as Hd by (unfold digit; lia).
  apply digit_cases in Hd. rewrite <-(N2Z.id n) at 1. destruct_or! Hd; rewrite Hd; reflexivity.
Qed.

Lemma digits_text_app ds es t : digits_text (ds ++ es) t = digits_text ds (digits_text es t).
Proof. unfold digits_text. by rewrite foldr_app. Qed.

Lemma digits_text_tail ds t u : digits_text ds t +:+ u = digits_text ds (t +:+ u).
Proof.
  induction ds as [|d ds IH]; [done|].
  change (String (digit_char d) (digits_text ds t +:+ u) = String (digit_char d) (digits_text ds (t +:+ u))).
  by rewrite IH.
Qed.

Lemma digits_value_app x ds es : digits_value x (ds ++ es) = digits_value (digits_value x ds) es.
Proof. unfold digits_value. by rewrite foldl_app. Qed.

(** The digits [pretty] prints: at least one, no leading zero but for zero
    itself, and the number they stand for. *)
Record decimal (n : Z) (ds : list Z) : Prop := Decimal {
  dec_digits : Forall digit ds;
  dec_value : digits_value 0 ds = n;
  dec_head : ∃ d ds', ds = d :: ds' ∧ (d = 0 → n = 0 ∧ ds' = []);
}.

Lemma pretty_go_digits n t :
  ∃ ds, pretty_N_go n t = digits_text ds t ∧ Forall digit ds ∧ digits_value 0 ds = Z.of_N n ∧
    (n = 0%N → ds = []) ∧ ((0 < n)%N → ∃ d ds', ds = d :: ds' ∧ 0 < d).
Proof.
  revert t. induction (N.lt_wf_0 n) as [n _ IH]; intros t.
  destruct (decide (n = 0)%N) as [->|Hn].
  - exists []. rewrite pretty_N_go_0. split_and!; [done|done|done|done|lia].
  - rewrite pretty_N_go_step by lia. set (c := pretty_N_char _).
    destruct (IH (n `div` 10)%N (N.div_lt n 10 ltac:(lia) ltac:(lia)) (String c t))
      as (ds & -> & Hd & Hv & H0 & Hh).
    pose proof (N.mod_lt n 10 ltac:(lia)) as Hm. pose proof (N.div_mod n 10 ltac:(lia)) as Hdm.
    unfold c. rewrite pretty_N_char_digit by done. clear c. revert Hm Hdm Hv H0 Hh.
    generalize (n `mod` 10)%N as m, (n `div` 10)%N as q. intros m q Hm Hdm Hv H0 Hh.
    exists (ds ++ [Z.of_N m]).
    rewrite digits_text_app. split_and!; [done| | |done|].
    + apply Forall_app. split; [done|]. constructor; [unfold digit; lia|done].
    + rewrite digits_value_app, Hv. cbn [digits_value foldl]. lia.
    + intros _. destruct (decide (0 < q)%N) as [Hq|Hq].
      * destruct (Hh Hq) as (d & ds' & -> & ?). by exists d, (ds' ++ [Z.of_N m]).
      * rewrite H0 by lia. exists (Z.of_N m), []. split; [done|lia].
Qed.

Lemma pretty_decimal n : ∃ ds, decimal (Z.of_N n) ds ∧ ∀ t, pretty n +:+ t = digits_text ds t.
Proof.
  unfold pretty, pretty_N. destruct (decide (n = 0)%N) as [->|Hn].
  - exists [0]. split; [|done]. split; [by repeat constructor|done|]. by exists 0, [].
  - destruct (pretty_go_digits n "") as (ds & -> & Hd & Hv & _ & Hh). exists ds. split.
    + split; [done|done|]. destruct Hh as (d & ds' & -> & ?); [lia|]. exists d, ds'. split; [done|lia].
    + intros t. by rewrite digits_text_tail.
Qed.

Lemma digits_value_mono ds x : Forall digit ds → 0 ≤ x → x ≤ digits_value x ds.
Proof.
  revert x. induction ds as [|d ds IH]; intros x Hd Hx; [done|].
  apply Forall_cons in Hd as [Hd0 Hd]. unfold digit in Hd0. specialize (IH (x * 10 + d) Hd ltac:(lia)).
  change (x ≤ digits_value (x * 10 + d) ds). lia.
Qed.

(** Reading digits back, by each of the loops. *)
Lemma span_digits_text ds t :
  Forall digit ds → (span_digits t).1 = [] → (span_digits t).2 = t →
  span_digits (digits_text ds t) = (ds, t).
Proof.
  intros Hd H1 H2. induction Hd as [|d ds Hd0 Hd IH].
  - change (digits_text [] t) with t. destruct (span_digits t). by simplify_eq/=.
  - change (digits_text (d :: ds) t) with (String (digit_char d) (digits_text ds t)).
    cbn [span_digits]. by rewrite digit_of_char, IH.
Qed.

Lemma leading_int_value ds x :
  Forall digit ds → 0 ≤ x → digits_value x ds ≤ 2 ^ 63 → leading_int ds x = Some (digits_value x ds).
Proof.
  revert x. induction ds as [|d ds IH]; intros x Hd Hx Hv; [done|].
  apply Forall_cons in Hd as [Hd0 Hd]. unfold digit in Hd0.
  change (digits_value x (d :: ds)) with (digits_value (x * 10 + d) ds) in *.
  pose proof (digits_value_mono ds (x * 10 + d) Hd ltac:(lia)). cbn [leading_int].
  change (2 ^ 63 / 10) with 922337203685477580.
  destruct (Z.ltb_spec 922337203685477580 x); [lia|].
  destruct (Z.ltb_spec (2 ^ 63) (x * 10 + d)); [lia|]. apply IH; [done|lia|done].
Qed.

Lemma leading_fraction_value ds x scale :
  Forall digit ds → 0 ≤ x → digits_value x ds < 2 ^ 59 →
  leading_fraction ds x scale = (digits_value x ds, scale * 10 ^ Z.of_nat (List.length ds)).
Proof.
  revert x scale. induction ds as [|d ds IH]; intros x scale Hd Hx Hv.
  - simpl. f_equal. lia.
  - apply Forall_cons in Hd as [Hd0 Hd]. unfold digit in Hd0.
    change (digits_value x (d :: ds)) with (digits_value (x * 10 + d) ds) in *.
    pose proof (digits_value_mono ds (x * 10 + d) Hd ltac:(lia)). cbn [leading_fraction].
    change ((2 ^ 63 - 1) / 10) with 922337203685477580.
    destruct (Z.ltb_spec 922337203685477580 x); [lia|].
    destruct (Z.ltb_spec (2 ^ 63) (x * 10 + d)); [lia|].
    rewrite IH by (done || lia). f_equal. cbn [List.length].
    rewrite Nat2Z.inj_succ, Z.pow_succ_r by lia. lia.
Qed.

(** ** The fraction that [fmtFrac] prints *)

(** Its digits: the last one is not zero, and with the zeros dropped they are
    the last [prec] digits of [v]. *)
Lemma fmtFrac_loop_spec prec v print buf :
  0 ≤ v →
  ∃ fs, let '(buf', v', print') := fmtFrac_loop prec v print buf in
    buf' = digits_text fs buf ∧ Forall digit fs ∧ v' = v / 10 ^ Z.of_nat prec ∧
    (List.length fs ≤ prec)%nat ∧
    print' = (print || negb (bool_decide (fs = []))) ∧
    digits_value 0 fs * 10 ^ (Z.of_nat prec - Z.of_nat (List.length fs)) = v mod 10 ^ Z.of_nat prec ∧
    (print = true → List.length fs = prec).
Proof.
  revert v print buf. induction prec as [|prec IH]; intros v print buf Hv; cbn [fmtFrac_loop].
  - exists []. split_and!; try done; [by rewrite Z.div_1_r|by rewrite orb_false_r|by rewrite Z.mod_1_r].
  - set (d := v mod 10). set (print1 := print || negb (d =? 0)).
    set (buf1 := if print1 then _ else _).
    destruct (IH (v / 10) print1 buf1 ltac:(apply Z.div_pos; lia)) as (fs & H).
    assert (digit d) as Hd by (unfold digit, d; pose proof (Z.mod_pos_bound v 10); lia).
    destruct (fmtFrac_loop prec (v / 10) print1 buf1) as [[buf' v'] print'].
    destruct H as (-> & Hfs & -> & Hlen & -> & Hval & Hpr).
    assert (v / 10 / 10 ^ Z.of_nat prec = v / 10 ^ Z.of_nat (S prec)) as Hdiv.
    { rewrite Z.div_div, Nat2Z.inj_succ, Z.pow_succ_r by lia. done. }
    assert (v mod 10 ^ Z.of_nat (S prec) = 10 * ((v / 10) mod 10 ^ Z.of_nat prec) + d) as Hmod.
    { rewrite Nat2Z.inj_succ, Z.pow_succ_r, Z.rem_mul_r by lia. unfold d. lia. }
    destruct print1 eqn:Ep.
    + exists (fs ++ [d]). specialize (Hpr eq_refl). rewrite length_app. cbn [List.length].
      split_and!; [by rewrite digits_text_app| |done|lia| | |lia].
      * apply Forall_app. split; [done|by apply Forall_singleton].
      * rewrite (bool_decide_false (fs ++ [d] = [])) by (by intros [_ ?]%app_nil). by rewrite orb_true_r.
      * rewrite digits_value_app, Hmod, <-Hval, Hpr.
        replace (Z.of_nat (S prec) - Z.of_nat (prec + 1)) with 0 by lia. rewrite Z.sub_diag.
        cbn [digits_value foldl]. lia.
    + apply orb_false_elim in Ep as [-> Ep]. exists fs.
      split_and!; [done|done|done|lia|done| |done].
      assert (d = 0) as Hd0 by lia.
      rewrite Hmod, <-Hval, Hd0.
      replace (Z.of_nat (S prec) - Z.of_nat (List.length fs))
        with (Z.succ (Z.of_nat prec - Z.of_nat (List.length fs))) by lia.
      rewrite Z.pow_succ_r by lia. lia.
Qed.

Lemma fmtFrac_spec v prec buf :
  0 ≤ v →
  ∃ fs, fmtFrac v prec buf = (if bool_decide (fs = []) then buf else "." +:+ digits_text fs buf,
                              v / 10 ^ Z.of_nat prec) ∧
    Forall digit fs ∧ (List.length fs ≤ prec)%nat ∧
    digits_value 0 fs * 10 ^ (Z.of_nat prec - Z.of_nat (List.length fs)) = v mod 10 ^ Z.of_nat prec.
Proof.
  intros Hv. destruct (fmtFrac_loop_spec prec v false buf Hv) as (fs & H). exists fs. unfold fmtFrac.
  destruct (fmtFrac_loop prec v false buf) as [[buf' v'] print'].
  destruct H as (-> & Hfs & -> & Hlen & -> & Hval & _). split_and!; try done.
  f_equal. case_bool_decide; [by subst|done].
Qed.

(** ** Reading a duration back *)

(** What follows a component: nothing, or the next number. *)
Definition boundary (rest : string) : Prop :=
  match rest with EmptyString => True | String c _ => is_unit_end c = true end.

Definition no_end (u : string) : bool := (fix go s := match s with
  | EmptyString => true | String c s => negb (is_unit_end c) && go s end) u.

Lemma span_unit_text u rest : no_end u = true → boundary rest → span_unit (u +:+ rest) = (u, rest).
Proof.
  intros Hu Hr. induction u as [|c u IH].
  - change ("" +:+ rest) with rest. destruct rest as [|c rest]; [done|]. simpl in *. by rewrite Hr.
  - change (String c u +:+ rest) with (String c (u +:+ rest)). simpl in Hu.
    apply andb_prop in Hu as [Hc Hu]. apply negb_true_iff in Hc. cbn [span_unit].
    by rewrite Hc, IH.
Qed.

Lemma is_unit_end_digit d : digit d → is_unit_end (digit_char d) = true.
Proof. intros Hd. unfold is_unit_end. rewrite digit_of_char by done. apply orb_true_r. Qed.

Lemma not_unit_end c : is_unit_end c = false → digit_of c = None ∧ c ≠ "."%char.
Proof.
  unfold is_unit_end. intros [H1 H2]%orb_false_elim. split; [by destruct (digit_of c)|].
  by apply bool_decide_eq_false in H1.
Qed.

(** The text after the integer digits: the fraction and the unit. *)
Definition frac_text (fs : list Z) (t : string) : string :=
  if bool_decide (fs = []) then t else "." +:+ digits_text fs t.

Section parse.
Context {Q : Quoting}.

Lemma parse_component_text orig n ds fs u unit rest extra :
  decimal n ds → Forall digit fs → digits_value 0 fs < 2 ^ 59 → 0 ≤ n →
  unitMap u = Some unit → no_end u = true → boundary rest → 0 < unit →
  (if 0 <? digits_value 0 fs
   then fraction_ns (digits_value 0 fs) unit (10 ^ Z.of_nat (List.length fs)) else 0) = extra →
  0 ≤ extra → n * unit + extra ≤ 2 ^ 63 →
  parse_component orig (digits_text ds (frac_text fs (u +:+ rest))) = Ok (n * unit + extra, rest).
Proof.
  intros [Hds Hv (d0 & ds' & -> & _)] Hfs Hfv Hn Hu Hne Hr Hpos Hx Hx0 Hmax.
  assert (u ≠ "") as Hu0 by (by intros ->).
  assert (∀ c s, u +:+ rest = String c s → digit_of c = None ∧ c ≠ "."%char) as Hhead.
  { intros c s E. destruct u as [|c' u]; [done|]. injection E as <- _. apply not_unit_end.
    simpl in Hne. apply andb_prop in Hne as [Hc _]. by apply negb_true_iff in Hc. }
  unfold parse_component.
  assert (match digits_text (d0 :: ds') (frac_text fs (u +:+ rest)) with
          | String c _ => is_unit_end c | EmptyString => false end = true) as ->.
  { apply is_unit_end_digit. by apply Forall_cons in Hds as [? _]. }
  cbn [check bind_result].
  assert (span_digits (u +:+ rest) = ([], u +:+ rest)) as Hsu.
  { destruct (u +:+ rest) as [|c s] eqn:E; [done|]. cbn [span_digits].
    by destruct (Hhead c s eq_refl) as [-> _]. }
  assert (span_digits (frac_text fs (u +:+ rest)) = ([], frac_text fs (u +:+ rest))) as Hsf.
  { unfold frac_text. case_bool_decide; [done|reflexivity]. }
  rewrite span_digits_text by (done || by rewrite Hsf).
  rewrite leading_int_value by (done || (rewrite Hv; nia)). rewrite Hv. cbn [bind_result].
  assert (∀ A (k : list Z * string → A),
    k (match frac_text fs (u +:+ rest) with
       | EmptyString => ([], frac_text fs (u +:+ rest))
       | String c s' => if bool_decide (c = "."%char) then span_digits s' else ([], frac_text fs (u +:+ rest))
       end) = k (fs, u +:+ rest)) as Hk.
  { intros A k. f_equal. unfold frac_text. case_bool_decide as Ef.
    - subst fs. destruct (u +:+ rest) as [|c s] eqn:E; [done|].
      destruct (Hhead c s eq_refl) as [_ Hc]. by rewrite bool_decide_false.
    - change ("." +:+ digits_text fs (u +:+ rest)) with (String "."%char (digits_text fs (u +:+ rest))).
      cbn [span_digits]. rewrite bool_decide_true by done.
      by rewrite span_digits_text by (done || by rewrite Hsu). }
  cbv zeta. rewrite (Hk _ (λ p, let '(fs, s) := p in _)). cbv beta iota.
  rewrite leading_fraction_value by (done || lia).
  rewrite (bool_decide_false (d0 :: ds' = [])) by done. cbn [andb negb check bind_result].
  rewrite span_unit_text by done. rewrite (bool_decide_false (u = "")) by done. cbn [negb check bind_result].
  rewrite Hu. cbn [bind_result].
  assert (n ≤ 2 ^ 63 / unit) as Hle by (apply Z.div_le_lower_bound; nia).
  destruct (Z.leb_spec n (2 ^ 63 / unit)); [|lia]. cbn [check bind_result].
  rewrite Z.mul_1_l.
  assert ((if 0 <? digits_value 0 fs
           then n * unit + fraction_ns (digits_value 0 fs) unit (10 ^ Z.of_nat (List.length fs))
           else n * unit) = n * unit + extra) as ->.
  { destruct (0 <? digits_value 0 fs); lia. }
  destruct (Z.leb_spec (n * unit + extra) (2 ^ 63)); [|lia]. done.
Qed.

End parse.

Lemma digits_value_lt ds : Forall digit ds → 0 ≤ digits_value 0 ds < 10 ^ Z.of_nat (List.length ds).
Proof.
  intros Hd. rewrite <-(rev_involutive ds) in *. induction (rev ds) as [|d l IH]; [done|].
  cbn [rev] in *. apply Forall_app in Hd as [Hl Hd]. apply Forall_cons in Hd as [Hd _]. specialize (IH Hl).
  rewrite digits_value_app, length_app. cbn [List.length].
  rewrite Nat2Z.inj_add, Z.pow_add_r by lia. unfold digit in Hd.
  change (digits_value ?x [d]) with (x * 10 + d). change (10 ^ Z.of_nat 1) with 10. lia.
Qed.

Section roundtrip.
Context {Q : Quoting}.

(** Enough fuel for the loop to read [s]. *)
Definition reads (orig s : string) (d : Z) (r : result error Z) : Prop :=
  ∀ fuel, (String.length s ≤ fuel)%nat → parse_loop fuel orig s d = Some r.

Lemma reads_nil orig d : reads orig "" d (Ok d).
Proof. by intros []. Qed.

Lemma reads_step orig s s' d v r :
  parse_component orig s = Ok (v, s') → 0 ≤ d + v ≤ 2 ^ 63 → reads orig s' (d + v) r → reads orig s d r.
Proof.
  intros Hc Hd Hr fuel Hf. pose proof (parse_component_spec _ _ _ _ Hc) as [Hlt _].
  destruct s as [|c s]; [simpl in Hlt; lia|]. destruct fuel as [|fuel]; [simpl in *; lia|].
  cbn [parse_loop]. rewrite Hc, Z.mod_small by lia.
  destruct (Z.ltb_spec (2 ^ 63) (d + v)); [lia|]. apply Hr. simpl in *. lia.
Qed.

Lemma component_plain orig v u unit rest :
  0 ≤ v → unitMap u = Some unit → no_end u = true → boundary rest → 0 < unit → v * unit ≤ 2 ^ 63 →
  parse_component orig (fmtInt v (u +:+ rest)) = Ok (v * unit, rest).
Proof.
  intros Hv Hu Hne Hr Hpos Hmax. unfold fmtInt.
  destruct (pretty_decimal (Z.to_N v)) as (ds & Hd & ->). rewrite Z2N.id in Hd by lia.
  pose proof (parse_component_text orig v ds [] u unit rest 0) as H. rewrite Z.add_0_r in H.
  by apply H.
Qed.

Lemma component_fraction orig v w p fs u rest :
  0 ≤ v → p = 3 ∨ p = 6 ∨ p = 9 → Forall digit fs → Z.of_nat (List.length fs) ≤ p →
  digits_value 0 fs * 10 ^ (p - Z.of_nat (List.length fs)) = w mod 10 ^ p →
  unitMap u = Some (10 ^ p) → no_end u = true → boundary rest → v * 10 ^ p + w mod 10 ^ p ≤ 2 ^ 63 →
  parse_component orig (fmtInt v (frac_text fs (u +:+ rest))) = Ok (v * 10 ^ p + w mod 10 ^ p, rest).
Proof.
  intros Hv Hp Hfs Hl Hval Hu Hne Hr Hmax. unfold fmtInt.
  destruct (pretty_decimal (Z.to_N v)) as (ds & Hd & ->). rewrite Z2N.id in Hd by lia.
  pose proof (digits_value_lt fs Hfs) as Hlt.
  assert (10 ^ Z.of_nat (List.length fs) ≤ 10 ^ 9) by (apply Z.pow_le_mono_r; [lia|]; lia).
  assert (10 ^ 9 < 2 ^ 59) by lia. assert (0 < 10 ^ p) by (apply Z.pow_pos_nonneg; [lia|]; lia).
  apply parse_component_text; try done; try lia.
  - destruct (Z.ltb_spec 0 (digits_value 0 fs)) as [Hf|Hf].
    + by rewrite fraction_ns_exact by (done || lia).
    + rewrite <-Hval. replace (digits_value 0 fs) with 0 by lia. lia.
Qed.

(** The text of a duration below a second. *)
Lemma component_whole orig u (p : nat) t :
  0 ≤ u ≤ 2 ^ 63 → p = 3%nat ∨ p = 6%nat ∨ p = 9%nat → unitMap t = Some (10 ^ Z.of_nat p) → no_end t = true →
  parse_component orig (let '(buf, v) := fmtFrac u p t in fmtInt v buf) = Ok (u, "").
Proof.
  intros Hu Hp Ht Hne. destruct (fmtFrac_spec u p t) as (fs & -> & Hfs & Hl & Hv); [lia|].
  assert (0 < 10 ^ Z.of_nat p) as Hpos by (apply Z.pow_pos_nonneg; lia).
  pose proof (Z.div_mod u (10 ^ Z.of_nat p) ltac:(lia)) as Hdm.
  fold (frac_text fs t). rewrite <-(string_app_nil_r t) at 1.
  rewrite (component_fraction orig (u / 10 ^ Z.of_nat p) u (Z.of_nat p) fs t "");
    try done; [|by apply Z.div_pos; lia|lia|lia|lia].
  do 2 f_equal. lia.
Qed.

Lemma boundary_fmtInt v t : boundary (fmtInt v t).
Proof.
  unfold fmtInt. destruct (pretty_decimal (Z.to_N v)) as (ds & [Hd _ (d & ds' & -> & _)] & ->).
  apply is_unit_end_digit. by apply Forall_cons in Hd as [? _].
Qed.

(** The seconds and what stands before them. *)
Lemma reads_seconds orig sec w d :
  0 ≤ sec → 0 ≤ d → d + (sec * Second + w mod Second) ≤ 2 ^ 63 →
  ∀ fs, Forall digit fs → (List.length fs ≤ 9)%nat →
  digits_value 0 fs * 10 ^ (9 - Z.of_nat (List.length fs)) = w mod 10 ^ 9 →
  reads orig (fmtInt sec (frac_text fs "s")) d (Ok (d + (sec * Second + w mod Second))).
Proof.
  intros Hs Hd Hm fs Hfs Hl Hv. pose proof (Z.mod_pos_bound w (10 ^ 9) ltac:(lia)) as Hw.
  change Second with (10 ^ 9) in *.
  apply (reads_step _ _ "" d (sec * 10 ^ 9 + w mod 10 ^ 9)); [|lia|apply reads_nil].
  apply (component_fraction orig sec w 9 fs "s" ""); try done; [auto|lia|lia].
Qed.

Lemma reads_unit orig v t unit rest d r :
  0 ≤ v → unitMap t = Some unit → no_end t = true → 0 < unit → 0 ≤ d → d + v * unit ≤ 2 ^ 63 →
  boundary rest → reads orig rest (d + v * unit) r → reads orig (fmtInt v (t +:+ rest)) d r.
Proof.
  intros Hv Ht Hne Hpos Hd Hmax Hb Hr. apply (reads_step _ _ rest d (v * unit)); [|nia|done].
  apply component_plain; try done. lia.
Qed.

Lemma reads_body orig u : 0 ≤ u ≤ 2 ^ 63 → reads orig (Duration_body u) 0 (Ok u).
Proof.
  intros Hu. unfold Duration_body.
  destruct (Z.eqb_spec u 0) as [->|Hu0].
  { apply (reads_unit orig 0 "s" Second ""); try done. apply reads_nil. }
  destruct (Z.ltb_spec u Microsecond).
  { apply (reads_unit orig u "ns" 1 ""); try done; try lia.
    replace (0 + u * 1) with u by lia. apply reads_nil. }
  destruct (Z.ltb_spec u Millisecond).
  { apply (reads_step _ _ "" 0 u); [|lia|apply reads_nil]. apply component_whole; try done; auto. }
  destruct (Z.ltb_spec u Second).
  { apply (reads_step _ _ "" 0 u); [|lia|apply reads_nil]. apply component_whole; try done; auto. }
  destruct (fmtFrac_spec u 9 "s") as (fs & -> & Hfs & Hl & Hv); [lia|].
  change (10 ^ Z.of_nat 9) with 1000000000 in *. change (10 ^ 9) with 1000000000 in *.
  fold (frac_text fs "s"). set (sec := u / 1000000000). set (minutes := sec / 60). set (hours := minutes / 60).
  assert (u = hours * 3600000000000 + minutes mod 60 * 60000000000 + sec mod 60 * 1000000000 + u mod 1000000000)
    as Hsum.
  { pose proof (Z.div_mod u 1000000000 ltac:(done)). pose proof (Z.div_mod sec 60 ltac:(done)).
    pose proof (Z.div_mod minutes 60 ltac:(done)). unfold hours, minutes, sec in *. lia. }
  assert (0 ≤ sec) by (apply Z.div_pos; lia). assert (0 ≤ minutes) by (apply Z.div_pos; lia).
  assert (0 ≤ hours) by (apply Z.div_pos; lia).
  pose proof (Z.mod_pos_bound minutes 60 ltac:(done)). pose proof (Z.mod_pos_bound sec 60 ltac:(done)).
  pose proof (Z.mod_pos_bound u 1000000000 ltac:(done)).
  assert (minutes = 0 → minutes mod 60 = 0 ∧ hours = 0) as Hm0 by (by intros ->).
  assert (∀ d, 0 ≤ d → d + sec mod 60 * 1000000000 + u mod 1000000000 = u →
    reads orig (fmtInt (sec mod 60) (frac_text fs "s")) d (Ok u)) as Hsec.
  { intros d Hd Ed. rewrite <-Ed at 1. rewrite <-Z.add_assoc.
    apply (reads_seconds orig (sec mod 60) u d); try done; [lia|]. change Second with 1000000000. lia. }
  assert (∀ d, 0 ≤ d → d + minutes mod 60 * 60000000000 + sec mod 60 * 1000000000 + u mod 1000000000 = u →
    reads orig (fmtInt (minutes mod 60) ("m" +:+ fmtInt (sec mod 60) (frac_text fs "s"))) d (Ok u)) as Hmin.
  { intros d Hd Ed. apply (reads_unit _ _ _ 60000000000); try done; [lia|lia|apply boundary_fmtInt|].
    apply Hsec; lia. }
  destruct (Z.ltb_spec 0 minutes); [|by apply Hsec; lia].
  destruct (Z.ltb_spec 0 hours); [|by apply Hmin; lia].
  apply (reads_unit _ _ _ 3600000000000); try done; [lia|apply boundary_fmtInt|]. apply Hmin; lia.
Qed.

(** A readable text starts like a number and is more than ["0"]. *)
Lemma reads_head orig s u :
  reads orig s 0 (Ok u) → s ≠ "" → s ≠ "0" ∧ ∃ c s', s = String c s' ∧ is_unit_end c = true.
Proof.
  intros Hr Hs. specialize (Hr _ (le_n _)). split; [by intros ->|].
  destruct s as [|c s]; [done|]. exists c, s. split; [done|]. cbn [parse_loop String.length] in Hr.
  destruct (parse_component orig (String c s)) as [[v s']|] eqn:E; [|done].
  unfold parse_component in E. by apply bind_result_ok in E as (_ & Hc%check_ok & _).
Qed.

Lemma Duration_body_nonempty u : 0 ≤ u ≤ 2 ^ 63 → Duration_body u ≠ "".
Proof.
  intros Hu E. pose proof (reads_body "" u Hu 0%nat) as H. rewrite E in H.
  assert (u = 0) as -> by (specialize (H (le_n _)); by injection H). done.
Qed.

(** Every duration is read back from its text. *)
Lemma ParseDuration_String d : - 2 ^ 63 ≤ d < 2 ^ 63 → ParseDuration (Duration_String d) = Ok d.
Proof.
  intros Hd. set (orig := Duration_String d).
  pose proof (reads_body orig (Z.abs d) ltac:(lia)) as Hr.
  pose proof (Duration_body_nonempty (Z.abs d) ltac:(lia)) as Hne.
  destruct (reads_head _ _ _ Hr Hne) as (Hz & c & s & Hb & Hc).
  assert (c ≠ "-"%char ∧ c ≠ "+"%char) as [Hm Hp] by (by split; intros ->).
  unfold ParseDuration, parse_duration. destruct (Z.ltb_spec d 0) as [Hlt|Hge].
  - assert (orig = String "-"%char (Duration_body (Z.abs d))) as Ho.
    { unfold orig, Duration_String. by destruct (Z.ltb_spec d 0); [|lia]. }
    clearbody orig. rewrite Ho at 1. rewrite bool_decide_true, !bool_decide_false by done.
    rewrite (Hr _ (le_n _)). f_equal. lia.
  - assert (orig = String c s) as Ho.
    { unfold orig, Duration_String. by destruct (Z.ltb_spec d 0); [lia|]. }
    clearbody orig. rewrite Ho at 1. rewrite (bool_decide_false (c = "-"%char)), (bool_decide_false (c = "+"%char)) by done.
    rewrite Hb, <-Ho in *. rewrite !bool_decide_false by done. rewrite (Hr _ (le_n _)).
    destruct (Z.ltb_spec (2 ^ 63 - 1) (Z.abs d)); [lia|]. f_equal. lia.
Qed.

End roundtrip.
