(* ===== verification/Percentiles.v ===== *)
(** * Durations by job type, and redelivered events

    [DurationPercentiles] of [internal/analytics/reports.go], and what a batch
    delivered twice does to each report.  ClickHouse's [quantile] is approximate
    and a parameter, as is the order in which it groups rows. *)

From stdpp Require Import prelude gmap strings list sorting.
From Stdlib Require Import Floats.SpecFloat.
From S2P Require Import Prelude GoBase Job Store Shipper Config Process Demo ShipperFacts Reports.
#[local] Open Scope jq_scope.

Record DurationPercentile : Type := MkDurationPercentile {
  DP_JobType : string;
  P99Seconds : spec_float;
  Samples : Z;
}.

Definition is_claim (r : ch_row) : bool := bool_decide (ch_event_type r = "claimed").
Definition is_finish (r : ch_row) : bool :=
  bool_decide (ch_event_type r = "completed") || bool_decide (ch_event_type r = "failed").

(** The columns of the GROUP BY of the inner query. *)
Definition attempt_key (r : ch_row) : Z * Z := (ch_job_id r, ch_attempts r).

(** [minIf(occurred_at, P)]: the epoch when no row matches. *)
Definition min_if (P : ch_row → bool) (g : list ch_row) : Z :=
  match ch_occurred_at <$> filter (λ r, P r) g with
  | [] => 0
  | t :: ts => foldl Z.min t ts
  end.

(** A row of the inner query: a type of the group ([any], here that of its first
    row) and the milliseconds from claim to finish, if the HAVING clause keeps
    it. *)
Definition sample (g : list ch_row) : option (string * Z) :=
  let claimed_at := min_if is_claim g in
  let terminal_at := min_if is_finish g in
  match head g with
  | Some r => if (0 <? claimed_at) && (claimed_at <? terminal_at)
              then Some (ch_job_type r, terminal_at - claimed_at) else None
  | None => None
  end.

Definition attempt_rows (rows : list ch_row) : list ch_row :=
  filter (λ r, is_claim r || is_finish r) rows.

(** The rows of the inner query. *)
Definition samples (rows : list ch_row) : list (string * Z) :=
  omap (λ k, sample (filter (λ r, attempt_key r = k) (attempt_rows rows)))
    (remove_dups (attempt_key <$> attempt_rows rows)).

(** [dateDiff('millisecond', ...) / 1000.0]. *)
Definition duration_seconds (ms : Z) : spec_float := SFdiv 53 1024 (float_of ms) (float_of 1000).

Definition percentile_le (a b : DurationPercentile) : bool := SFleb (P99Seconds b) (P99Seconds a).

(** The durations of one type. *)
Definition durations_of (t : string) (l : list (string * Z)) : list Z :=
  snd <$> filter (λ p, p.1 = t) l.

Definition DurationPercentiles (quantile99 : list spec_float → spec_float) (q : ch_query) (window : Z)
    (ch : list ch_row) : result error (list DurationPercentile) :=
  let l := samples (in_window (cq_now q) window ch) in
  run_query q "analytics: duration percentiles: " true
    (order_by percentile_le
       ((λ t, let ds := durations_of t l in
              MkDurationPercentile t (quantile99 (duration_seconds <$> ds)) (Z.of_nat (length ds)))
          <$> remove_dups l.*1)).

(** ** Redelivery *)

(** [ch'] is [ch] with some of its rows delivered again, in any order. *)
Definition redelivered (ch ch' : list ch_row) : Prop := ∀ r, r ∈ ch' ↔ r ∈ ch.

Lemma foldl_min_spec t ts x : x = foldl Z.min t ts ↔ x ∈ t :: ts ∧ ∀ y, y ∈ t :: ts → x ≤ y.
Proof.
  revert t. induction ts as [|u ts IH]; intros t; simpl.
  - setoid_rewrite list_elem_of_singleton. split; [by intros ->; split; [|intros ? ->]|by intros [-> _]].
  - rewrite IH. setoid_rewrite elem_of_cons. setoid_rewrite elem_of_cons. split.
    + intros [Hx Hmin]. split.
      * destruct Hx as [->|Hx]; [|by auto]. destruct (Z.min_spec t u) as [[_ ->]|[_ ->]]; auto.
      * intros y [->|[->|Hy]]; [pose proof (Hmin (t `min` u) (or_introl eq_refl)); lia..|by apply Hmin; right].
    + intros [Hx Hmin]. split.
      * destruct Hx as [->|[->|Hx]]; [| |by right]; left.
        -- pose proof (Hmin u ltac:(auto)). lia.
        -- pose proof (Hmin t ltac:(auto)). lia.
      * intros y [->|Hy]; [|by apply Hmin; auto].
        destruct (Z.min_spec t u) as [[_ ->]|[_ ->]]; apply Hmin; auto.
Qed.

(** A minimum does not see duplicates. *)
Lemma min_if_set P g g' : (∀ r, r ∈ g ↔ r ∈ g') → min_if P g = min_if P g'.
Proof.
  intros Hg. unfold min_if.
  assert (∀ t, t ∈ ch_occurred_at <$> filter (λ r, P r) g ↔ t ∈ ch_occurred_at <$> filter (λ r, P r) g') as Ht.
  { intros t. rewrite !list_elem_of_fmap. setoid_rewrite list_elem_of_filter. by setoid_rewrite Hg. }
  destruct (ch_occurred_at <$> filter (λ r, P r) g) as [|t ts], (ch_occurred_at <$> filter (λ r, P r) g') as [|t' ts'].
  - done.
  - exfalso. apply (not_elem_of_nil t'), Ht. by left.
  - exfalso. apply (not_elem_of_nil t), Ht. by left.
  - apply foldl_min_spec. destruct (proj1 (foldl_min_spec t ts _) eq_refl) as [H1 H2].
    split; [by apply Ht|]. intros y Hy. by apply H2, Ht.
Qed.

(** Rows of one job have one type. *)
Definition one_type (ch : list ch_row) : Prop :=
  ∀ r r', r ∈ ch → r' ∈ ch → ch_job_id r = ch_job_id r' → ch_job_type r = ch_job_type r'.

Lemma sample_set g g' k :
  (∀ r, r ∈ g ↔ r ∈ g') → (∀ r, r ∈ g → attempt_key r = k) → one_type g → sample g = sample g'.
Proof.
  intros Hg Hk Ht. unfold sample. rewrite (min_if_set is_claim g g'), (min_if_set is_finish g g') by done.
  destruct g as [|r g], g' as [|r' g']; simpl.
  - done.
  - exfalso. apply (not_elem_of_nil r'), Hg. by left.
  - exfalso. apply (not_elem_of_nil r), Hg. by left.
  - assert (ch_job_type r = ch_job_type r') as ->; [|done].
    assert (r' ∈ r :: g) as Hr' by (apply Hg; by left).
    apply Ht; [by left|done|]. pose proof (Hk r ltac:(by left)). pose proof (Hk r' Hr').
    unfold attempt_key in *. congruence.
Qed.

Lemma omap_Permutation {A B} (f : A → option B) (l l' : list A) : l ≡ₚ l' → omap f l ≡ₚ omap f l'.
Proof.
  induction 1 as [|x l l' _ IH|x y l|l1 l2 l3 _ IH1 _ IH2]; simpl; [done| | |by etrans].
  - destruct (f x); by rewrite IH.
  - destruct (f x), (f y); try done. apply Permutation_swap.
Qed.

Lemma samples_set rows rows' :
  (∀ r, r ∈ rows ↔ r ∈ rows') → one_type rows → samples rows ≡ₚ samples rows'.
Proof.
  intros Hr Ht. unfold samples.
  assert (∀ r, r ∈ attempt_rows rows ↔ r ∈ attempt_rows rows') as Ha.
  { intros r. unfold attempt_rows. rewrite !list_elem_of_filter. by rewrite Hr. }
  assert (remove_dups (attempt_key <$> attempt_rows rows) ≡ₚ remove_dups (attempt_key <$> attempt_rows rows')) as Hk.
  { apply NoDup_Permutation; [apply NoDup_remove_dups..|]. intros k.
    rewrite !elem_of_remove_dups, !list_elem_of_fmap. by setoid_rewrite Ha. }
  etrans; [by apply (omap_Permutation _ _ _ Hk)|]. clear Hk. apply reflexive_eq.
  apply list_omap_ext, Forall_Forall2_diag, Forall_forall. intros k _.
  apply (sample_set _ _ k).
  - intros r. rewrite !list_elem_of_filter. by rewrite Ha.
  - by intros r [? _]%list_elem_of_filter.
  - intros r r' [_ [_ H1]%list_elem_of_filter]%list_elem_of_filter [_ [_ H2]%list_elem_of_filter]%list_elem_of_filter.
    by apply Ht.
Qed.

Lemma in_window_app now window ch ch' :
  in_window now window (ch ++ ch') = in_window now window ch ++ in_window now window ch'.
Proof. apply filter_app. Qed.

Lemma count_if_app {A} (P : A → bool) l l' : count_if P (l ++ l') = count_if P l + count_if P l'.
Proof. unfold count_if. rewrite filter_app, length_app. lia. Qed.

(** The percentiles of a permuted list of samples. *)
Lemma percentile_rows_perm (quantile99 : list spec_float → spec_float) l l' :
  (∀ x y, x ≡ₚ y → quantile99 x = quantile99 y) → l ≡ₚ l' →
  let row l t := let ds := durations_of t l in
                 MkDurationPercentile t (quantile99 (duration_seconds <$> ds)) (Z.of_nat (length ds)) in
  order_by percentile_le (row l <$> remove_dups l.*1) ≡ₚ order_by percentile_le (row l' <$> remove_dups l'.*1).
Proof.
  intros Hq Hl row. rewrite !order_by_perm.
  assert (remove_dups l.*1 ≡ₚ remove_dups l'.*1) as Hk.
  { apply NoDup_Permutation; [apply NoDup_remove_dups..|]. intros t. by rewrite !elem_of_remove_dups, Hl. }
  rewrite Hk. apply reflexive_eq, list_fmap_ext. intros i t _. unfold row.
  assert (durations_of t l ≡ₚ durations_of t l') as Hd by (unfold durations_of; by rewrite Hl).
  f_equal; [apply Hq; by rewrite Hd|by rewrite Hd].
Qed.

(** What redelivered events do to the reports: the percentiles by job type are
    those of the events delivered once (same types, samples and quantiles),
    since an attempt is a minimum over its rows, while the counting reports
    count every redelivered arrival and completion of the window again. *)
Theorem redelivery_reports quantile99 q window bucket ch dup l ac ac' :
  (∀ r, r ∈ dup → r ∈ ch) → one_type ch → (∀ x y, x ≡ₚ y → quantile99 x = quantile99 y) →
  DurationPercentiles quantile99 q window ch = Ok l →
  ArrivalsVsCompletions q window bucket ch = Ok ac →
  ArrivalsVsCompletions q window bucket (ch ++ dup) = Ok ac' →
  (∃ l', DurationPercentiles quantile99 q window (ch ++ dup) = Ok l' ∧ l' ≡ₚ l) ∧
  sum_list (Arrivals <$> ac') =
    sum_list (Arrivals <$> ac) + count_if is_arrival (in_window (cq_now q) window dup) ∧
  sum_list (Completions <$> ac') =
    sum_list (Completions <$> ac) + count_if is_departure (in_window (cq_now q) window dup).
Proof.
  intros Hdup Ht Hq HP Ha Ha'. split.
  - unfold DurationPercentiles, run_query in *. destruct (cq_error q); [done|].
    injection HP as <-. eexists. split; [done|]. symmetry. apply percentile_rows_perm; [done|].
    apply samples_set.
    + intros r. rewrite in_window_app, elem_of_app. split; [by auto|]. intros [?|Hr]; [done|].
      unfold in_window in *. apply list_elem_of_filter in Hr as [Hw Hr]. apply list_elem_of_filter. auto.
    + intros r r' [_ H1]%list_elem_of_filter [_ H2]%list_elem_of_filter. by apply Ht.
  - destruct (ArrivalsVsCompletions_totals _ _ _ _ _ Ha) as [-> ->].
    destruct (ArrivalsVsCompletions_totals _ _ _ _ _ Ha') as [-> ->].
    by rewrite in_window_app, !count_if_app.
Qed.

(** The pipeline of the demonstration, delivered twice. *)
Lemma redelivery_reports_witness :
  ∃ ac', ArrivalsVsCompletions (demo_query_at 10) Hour Minute (demo_shipped ++ demo_shipped) = Ok ac' ∧
    sum_list (Arrivals <$> ac') = 2.
Proof.
  assert (one_type demo_shipped) as Hone.
  { assert (Forall (λ r, ch_job_type r = "sum_numbers") demo_shipped) as Hall.
    { vm_compute. by repeat constructor. }
    rewrite Forall_forall in Hall. intros r r' H1 H2 _. by rewrite (Hall _ H1), (Hall _ H2). }
  eexists. split; [reflexivity|].
  destruct (redelivery_reports (λ _, S754_zero false) (demo_query_at 10) Hour Minute demo_shipped demo_shipped
    _ _ _ (λ r H, H) Hone (λ x y _, eq_refl) eq_refl eq_refl eq_refl) as (_ & H & _).
  etrans; [exact H|by vm_compute].
Defined.
