(* ===== verification/Fmt.v ===== *)
(** * Text output

    What the command line uses of Go's text packages: runes of a UTF-8 string
    ([unicode/utf8]), the verbs %d, %f and the padding of [fmt], the RFC 3339
    form of a time and [Duration.Round] of package [time]. *)

From stdpp Require Import prelude strings list pretty.
From Stdlib Require Import Ascii String Floats.SpecFloat.
From S2P Require Import Prelude GoBase Config.
#[local] Open Scope jq_scope.

(** ** Runes *)

Definition byte_of (c : ascii) : Z := Z.of_N (N_of_ascii c).
Definition char_of (b : Z) : ascii := ascii_of_N (Z.to_N b).

Definition in_range (lo hi b : Z) : bool := (lo <=? b) && (b <=? hi).

(** The continuation byte at the head of a string, if there is one in the range
    given. *)
Definition cont (lo hi : Z) (s : string) : option (Z * string) :=
  match s with
  | String c s' => let b := byte_of c in if in_range lo hi b then Some (b mod 64, s') else None
  | EmptyString => None
  end.

(** The first rune of a string that starts with the byte [b], and the number of
    bytes after it that belong to it: [utf8.DecodeRuneInString], with the
    accepted range of a second byte as in its table.  [None] is
    [(RuneError, 1)]. *)
Definition decode_tail (b : Z) (s : string) : option (Z * nat) :=
  if b <? 128 then Some (b, 0%nat)
  else if in_range 194 223 b then
    '(x, _) ← cont 128 191 s; Some (b mod 32 * 64 + x, 1%nat)
  else if in_range 224 239 b then
    '(x, s) ← cont (if b =? 224 then 160 else 128) (if b =? 237 then 159 else 191) s;
    '(y, _) ← cont 128 191 s; Some (b mod 16 * 4096 + x * 64 + y, 2%nat)
  else if in_range 240 244 b then
    '(x, s) ← cont (if b =? 240 then 144 else 128) (if b =? 244 then 143 else 191) s;
    '(y, s) ← cont 128 191 s;
    '(z, _) ← cont 128 191 s; Some (b mod 8 * 262144 + x * 4096 + y * 64 + z, 3%nat)
  else None.

(** [utf8.AppendRune]: a surrogate or a number beyond U+10FFFF is written as
    U+FFFD. *)
Definition encode_rune (r : Z) : string :=
  let cont x := char_of (128 + x mod 64) in
  let r := if in_range 0 55295 r || in_range 57344 1114111 r then r else 65533 in
  if r <? 128 then String (char_of r) ""
  else if r <? 2048 then String (char_of (192 + r / 64)) (String (cont r) "")
  else if r <? 65536 then
    String (char_of (224 + r / 4096)) (String (cont (r / 64)) (String (cont r) ""))
  else String (char_of (240 + r / 262144))
         (String (cont (r / 4096)) (String (cont (r / 64)) (String (cont r) ""))).

(** [utf8.RuneCountInString]; [skip] bytes belong to the rune before. *)
Fixpoint rune_count_from (skip : nat) (s : string) : nat :=
  match s, skip with
  | EmptyString, _ => 0
  | String _ s', S skip => rune_count_from skip s'
  | String c s', O =>
      S (rune_count_from (match decode_tail (byte_of c) s' with Some (_, n) => n | None => 0%nat end) s')
  end%nat.

Definition RuneCount : string → nat := rune_count_from 0.

(** ** Padding *)

Fixpoint spaces (n : nat) : string := match n with O => "" | S n => String " "%char (spaces n) end.

(** [%<w>s] and [%-<w>s]: the width counts runes. *)
Definition pad_left (w : nat) (s : string) : string := spaces (w - RuneCount s) +:+ s.
Definition pad_right (w : nat) (s : string) : string := s +:+ spaces (w - RuneCount s).

(** ** Floats *)

(** [n / d] rounded to the nearest integer, halves to even; [d > 0]. *)
Definition round_half_even (n d : Z) : Z :=
  let q := n / d in
  match n mod d * 2 ?= d with
  | Lt => q
  | Gt => q + 1
  | Eq => if Z.even q then q else q + 1
  end.

Fixpoint zeros (n : nat) : string := match n with O => "" | S n => String "0"%char (zeros n) end.

(** The digits of [n] with a period before the last [prec] of them. *)
Definition fixed_digits (prec : nat) (n : Z) : string :=
  let d := pretty (Z.to_N n) in
  let d := zeros (S prec - String.length d) +:+ d in
  let k := (String.length d - prec)%nat in
  String.substring 0 k d +:+ "." +:+ String.substring k prec d.

(** [%.<prec>f] for [prec > 0]: the exact binary value, rounded once. *)
Definition fmt_f (prec : nat) (f : spec_float) : string :=
  match f with
  | S754_nan => "NaN"
  | S754_infinity s => if s then "-Inf" else "+Inf"
  | S754_zero s => (if s then "-" else "") +:+ fixed_digits prec 0
  | S754_finite s m e =>
      let n := Z.pos m * 10 ^ Z.of_nat prec in
      (if s then "-" else "") +:+
        fixed_digits prec (if 0 <=? e then n * 2 ^ e else round_half_even n (2 ^ (- e)))
  end.

(** ** Times *)

(** The local time zone: seconds east of UTC at a given Unix second. *)
Class Zone : Type := { zone_offset : Z → Z }.

(** The proleptic Gregorian date of a day counted from 1970-01-01, by eras of
    400 years that start on the first of March. *)
Definition civil (day : Z) : Z * Z * Z :=
  let z := day + 719468 in
  let era := z / 146097 in
  let doe := z mod 146097 in
  let yoe := (doe - doe / 1460 + doe / 36524 - doe / 146096) / 365 in
  let doy := doe - (365 * yoe + yoe / 4 - yoe / 100) in
  let mp := (5 * doy + 2) / 153 in
  let d := doy - (153 * mp + 2) / 5 + 1 in
  let m := if mp <? 10 then mp + 3 else mp - 9 in
  let y := yoe + era * 400 + (if m <=? 2 then 1 else 0) in
  (y, m, d).

(** [appendInt(b, x, width)] of package [time]. *)
Definition append_int (width : nat) (x : Z) : string :=
  let d := pretty (Z.to_N (Z.abs x)) in
  (if x <? 0 then "-" else "") +:+ zeros (width - String.length d) +:+ d.

(** [Format(time.RFC3339)] of a Unix second. *)
Definition rfc3339 `{Zone} (t : Z) : string :=
  let off := zone_offset t in
  let l := t + off in
  let '(y, m, d) := civil (l / 86400) in
  let s := l mod 86400 in
  let zone := Z.quot off 60 in
  append_int 4 y +:+ "-" +:+ append_int 2 m +:+ "-" +:+ append_int 2 d +:+ "T" +:+
  append_int 2 (s / 3600) +:+ ":" +:+ append_int 2 (s / 60 mod 60) +:+ ":" +:+ append_int 2 (s mod 60) +:+
  (if off =? 0 then "Z"
   else (if zone <? 0 then "-" else "+") +:+ append_int 2 (Z.abs zone / 60) +:+ ":" +:+
          append_int 2 (Z.abs zone mod 60)).

(** [Duration.Round]. *)
Definition Duration_Round (d m : Z) : Z :=
  if m <=? 0 then d else
  let r := Z.rem d m in
  if d <? 0 then
    let r := - r in
    if r + r <? m then d + r
    else let d1 := int64 (d - m + r) in if d1 <? d then d1 else - 2 ^ 63
  else
    if r + r <? m then d - r
    else let d1 := int64 (d + m - r) in if d <? d1 then d1 else max_int64.

(** ** Values *)

Definition utc : Zone := {| zone_offset := λ _, 0 |}.
Definition ist : Zone := {| zone_offset := λ _, 19800 |}.

Example rfc3339_epoch : @rfc3339 utc 0 = "1970-01-01T00:00:00Z".
Proof. reflexivity. Qed.
Example rfc3339_leap : @rfc3339 ist 1709164800 = "2024-02-29T05:30:00+05:30".
Proof. reflexivity. Qed.
Example rfc3339_before : @rfc3339 utc (-1) = "1969-12-31T23:59:59Z".
Proof. reflexivity. Qed.
Example fmt_f_tenth : fmt_f 3 (SFdiv 53 1024 (float_of 1) (float_of 10)) = "0.100".
Proof. reflexivity. Qed.
Example fmt_f_half_even : fmt_f 1 (SFdiv 53 1024 (float_of 1) (float_of 4)) = "0.2".
Proof. reflexivity. Qed.
Example fmt_f_large : fmt_f 4 (float_of 123456) = "123456.0000".
Proof. reflexivity. Qed.
Example pad_runes : pad_right 3 (micro_sign +:+ "s") = micro_sign +:+ "s ".
Proof. reflexivity. Qed.
Example Round_up : Duration_Round (1500 * Millisecond) Second = 2 * Second.
Proof. reflexivity. Qed.
Example Round_top : Duration_Round max_int64 Second = max_int64.
Proof. reflexivity. Qed.
