(* ===== verification/Flag.v ===== *)
(** * Command-line flags

    What [cmd/jobqueue] uses of package [flag] and, below it, of [strconv]: flag
    sets of string, integer and duration flags that end the process on an
    error.  The loop of [Parse] takes at least one argument per turn, so it is
    structural in the list of arguments. *)

From stdpp Require Import prelude gmap strings list pretty.
From Stdlib Require Import Ascii String.
From S2P Require Import Prelude GoBase Config DurationText Fmt.
#[local] Open Scope jq_scope.

(** ** [strconv.ParseInt(s, 0, 64)] *)

(** [lower(c)] is [c | ('x' - 'X')]. *)
Definition lower (c : ascii) : Z := Z.lor (byte_of c) 32.

Definition is_char (c : ascii) (x : ascii) : bool := bool_decide (c = x).
Arguments is_char : simpl never.

(** The value of a digit in any base up to 36. *)
Definition digit36 (c : ascii) : option Z :=
  if in_range 48 57 (byte_of c) then Some (byte_of c - 48)
  else if in_range 97 122 (lower c) then Some (lower c - 97 + 10)
  else None.

(** The base a literal announces, and its digits. *)
Definition base_prefix (s : string) : Z * string :=
  match s with
  | String c s1 =>
      if is_char c "0" then
        match s1 with
        | String p (String _ _ as digits) =>
            if lower p =? 98 then (2, digits)
            else if lower p =? 111 then (8, digits)
            else if lower p =? 120 then (16, digits)
            else (8, s1)
        | _ => (8, s1)
        end
      else (10, s)
  | EmptyString => (10, s)
  end.

(** The loop of [ParseUint] in base 0: the value, and whether an underscore was
    seen. *)
Fixpoint parse_digits (base : Z) (s : string) (n : Z) (underscores : bool) : result num_error (Z * bool) :=
  match s with
  | EmptyString => Ok (n, underscores)
  | String c s =>
      if is_char c "_" then parse_digits base s n true else
      match digit36 c with
      | None => Err ErrSyntax
      | Some d =>
          if base <=? d then Err ErrSyntax
          else if (2 ^ 64 - 1) / base + 1 <=? n then Err ErrRange
          else if 2 ^ 64 - 1 <? n * base + d then Err ErrRange
          else parse_digits base s (n * base + d) underscores
      end
  end.

(** What [underscoreOK] saw last: the start, a digit, an underscore, or
    something else. *)
Inductive saw : Type := SawStart | SawDigit | SawUnderscore | SawOther.

Fixpoint underscores_ok (hex : bool) (s : string) (i : saw) : bool :=
  match s with
  | EmptyString => match i with SawUnderscore => false | _ => true end
  | String c s =>
      if in_range 48 57 (byte_of c) || hex && in_range 97 102 (lower c) then underscores_ok hex s SawDigit
      else if is_char c "_" then
        match i with SawDigit => underscores_ok hex s SawUnderscore | _ => false end
      else match i with SawUnderscore => false | _ => underscores_ok hex s SawOther end
  end.

Definition underscoreOK (s : string) : bool :=
  match s with
  | String c (String p s') =>
      if is_char c "0" && ((lower p =? 98) || (lower p =? 111) || (lower p =? 120))
      then underscores_ok (lower p =? 120) s' SawDigit
      else underscores_ok false s SawStart
  | _ => underscores_ok false s SawStart
  end.

(** The errors met in the order of the loop: an error of a digit stops it. *)
Definition ParseUint0 (s : string) : result num_error Z :=
  if bool_decide (s = "") then Err ErrSyntax else
  let '(base, digits) := base_prefix s in
  let? p := parse_digits base digits 0 false in
  let '(n, underscores) := p in
  let? _ := check (negb underscores || underscoreOK s) ErrSyntax in
  Ok n.

Definition ParseInt0 (s : string) : result num_error Z :=
  if bool_decide (s = "") then Err ErrSyntax else
  let '(neg, digits) :=
    match s with
    | String c s' => if is_char c "+" then (false, s') else if is_char c "-" then (true, s') else (false, s)
    | EmptyString => (false, s)
    end in
  let? n := ParseUint0 digits in
  if neg then (if 2 ^ 63 <? n then Err ErrRange else Ok (- n))
  else (if 2 ^ 63 <=? n then Err ErrRange else Ok n).

(** ** Flag sets *)

(** The value of a flag; its constructor is the flag's kind.  [fs.Int] and
    [fs.Int64] have the same width. *)
Inductive flag_value : Type :=
| VString (s : string)
| VInt (n : Z)
| VDuration (d : Z).

#[global] Instance flag_value_eq_dec : EqDecision flag_value.
Proof. solve_decision. Defined.

(** [f.formal], with the current values. *)
Abbreviation FlagSet := (gmap string flag_value).

Inductive flag_error : Type :=
| BadSyntax (arg : string)
| ErrHelp
| NotDefined (name : string)
| NeedsArgument (name : string)
| InvalidValue (value name reason : string).

Section flags.
Context {Q : Quoting}.
Implicit Types (fs : FlagSet) (args : list string).

(** The line [failf] prints; asking for help prints none. *)
Definition flag_error_text (e : flag_error) : option string :=
  match e with
  | BadSyntax a => Some ("bad flag syntax: " +:+ a)
  | ErrHelp => None
  | NotDefined n => Some ("flag provided but not defined: -" +:+ n)
  | NeedsArgument n => Some ("flag needs an argument: -" +:+ n)
  | InvalidValue v n r => Some ("invalid value " +:+ quote v +:+ " for flag -" +:+ n +:+ ": " +:+ r)
  end.

(** [flag.Value.Set]: the new value, or the error text. *)
Definition flag_set (cur : flag_value) (s : string) : result string flag_value :=
  match cur with
  | VString _ => Ok (VString s)
  | VInt _ =>
      match ParseInt0 s with
      | Ok n => Ok (VInt n)
      | Err ErrSyntax => Err "parse error"
      | Err ErrRange => Err "value out of range"
      end
  | VDuration _ =>
      match ParseDuration s with
      | Ok d => Ok (VDuration d)
      | Err _ => Err "parse error"
      end
  end.

(** The name up to the first equals sign after its first character, and the
    value behind it. *)
Fixpoint split_equals (s : string) : string * option string :=
  match s with
  | EmptyString => ("", None)
  | String c s' =>
      if is_char c "=" then ("", Some s')
      else let '(n, v) := split_equals s' in (String c n, v)
  end.

Definition split_name (s : string) : string * option string :=
  match s with
  | EmptyString => ("", None)
  | String c s' => let '(n, v) := split_equals s' in (String c n, v)
  end.

(** What an argument is to [parseOne]: not a flag, the end of the flags, or the
    text of a flag without its dashes. *)
Inductive arg_kind : Type := Positional | EndOfFlags | FlagText (s : string).

Definition classify (s : string) : arg_kind :=
  match s with
  | String c (String c2 s2 as s1) =>
      if negb (is_char c "-") then Positional
      else if is_char c2 "-" then (if bool_decide (s2 = "") then EndOfFlags else FlagText s2)
      else FlagText s1
  | _ => Positional
  end.

Definition bad_name (name : string) : bool :=
  match name with
  | EmptyString => true
  | String c _ => is_char c "-" || is_char c "="
  end.

(** The loop of [Parse] over [parseOne]: the flags set and the arguments left,
    or the error that ends the process.  A flag without an equals sign takes
    the next argument. *)
Fixpoint Parse_loop fs args : result flag_error (FlagSet * list string) :=
  match args with
  | [] => Ok (fs, [])
  | s :: rest =>
      match classify s with
      | Positional => Ok (fs, args)
      | EndOfFlags => Ok (fs, rest)
      | FlagText text =>
          if bad_name text then Err (BadSyntax s) else
          let '(name, value) := split_name text in
          match fs !! name with
          | None =>
              if bool_decide (name = "help") || bool_decide (name = "h") then Err ErrHelp
              else Err (NotDefined name)
          | Some cur =>
              match value with
              | Some v =>
                  match flag_set cur v with
                  | Ok x => Parse_loop (<[name := x]> fs) rest
                  | Err r => Err (InvalidValue v name r)
                  end
              | None =>
                  match rest with
                  | [] => Err (NeedsArgument name)
                  | v :: rest =>
                      match flag_set cur v with
                      | Ok x => Parse_loop (<[name := x]> fs) rest
                      | Err r => Err (InvalidValue v name r)
                      end
                  end
              end
          end
      end
  end.

(** The exit code of [ExitOnError]. *)
Definition flag_exit (e : flag_error) : Z := match e with ErrHelp => 0 | _ => 2 end.

(** The values the program reads back through its pointers. *)
Definition get_string fs (name : string) : string :=
  match fs !! name with Some (VString s) => s | _ => "" end.
Definition get_int fs (name : string) : Z :=
  match fs !! name with Some (VInt n) => n | _ => 0 end.
Definition get_duration fs (name : string) : Z :=
  match fs !! name with Some (VDuration d) => d | _ => 0 end.

End flags.

Example ParseInt0_hex : ParseInt0 "-0x_ff" = Ok (-255).
Proof. reflexivity. Qed.
Example ParseInt0_octal : ParseInt0 "010" = Ok 8.
Proof. reflexivity. Qed.
Example ParseInt0_zero : ParseInt0 "0" = Ok 0.
Proof. reflexivity. Qed.
Example ParseInt0_underscore : ParseInt0 "1__0" = Err ErrSyntax.
Proof. reflexivity. Qed.
Example ParseInt0_max : ParseInt0 "9223372036854775807" = Ok max_int64.
Proof. reflexivity. Qed.
Example ParseInt0_overflow : ParseInt0 "9223372036854775808" = Err ErrRange.
Proof. reflexivity. Qed.

(** ** Reading integers back *)

Lemma digit36_char d : digit d → digit36 (digit_char d) = Some d ∧ is_char (digit_char d) "_" = false.
Proof. intros H%digit_cases. destruct_or! H; by subst. Qed.

Lemma parse_digits_text ds x :
  Forall digit ds → 0 ≤ x → digits_value x ds < 2 ^ 64 →
  parse_digits 10 (digits_text ds "") x false = Ok (digits_value x ds, false).
Proof.
  revert x. induction ds as [|d ds IH]; intros x Hd Hx Hv; [done|].
  apply Forall_cons in Hd as [Hd0 Hd]. pose proof (digit36_char d Hd0) as [E1 E2]. unfold digit in Hd0.
  change (digits_value x (d :: ds)) with (digits_value (x * 10 + d) ds) in *.
  pose proof (digits_value_mono ds (x * 10 + d) Hd ltac:(lia)).
  change (digits_text (d :: ds) "") with (String (digit_char d) (digits_text ds "")).
  cbn [parse_digits]. rewrite E1, E2. destruct (Z.leb_spec 10 d); [lia|].
  change ((2 ^ 64 - 1) / 10 + 1) with 1844674407370955162.
  destruct (Z.leb_spec 1844674407370955162 x); [lia|].
  destruct (Z.ltb_spec (2 ^ 64 - 1) (x * 10 + d)); [lia|]. apply IH; [done|lia|done].
Qed.

Lemma is_char_digit d c : digit d → d ≠ 0 → c ∈ ["0"; "+"; "-"]%char → is_char (digit_char d) c = false.
Proof.
  intros H%digit_cases Hd Hc. rewrite !elem_of_cons, elem_of_nil in Hc.
  destruct_or! H; destruct_or! Hc; subst; done.
Qed.

Lemma ParseUint0_pretty n : Z.of_N n < 2 ^ 64 → ParseUint0 (pretty n) = Ok (Z.of_N n).
Proof.
  intros Hn. destruct (pretty_decimal n) as (ds & [Hd Hv (d & ds' & -> & Hz)] & Ht).
  specialize (Ht ""). rewrite string_app_nil_r in Ht. rewrite Ht.
  unfold ParseUint0. rewrite bool_decide_false by done.
  destruct (decide (d = 0)) as [->|Hne].
  - destruct (Hz eq_refl) as [-> ->]. reflexivity.
  - assert (base_prefix (digits_text (d :: ds') "") = (10, digits_text (d :: ds') "")) as ->.
    { apply Forall_cons in Hd as [Hd _].
      change (digits_text (d :: ds') "") with (String (digit_char d) (digits_text ds' "")).
      cbn [base_prefix]. rewrite is_char_digit by (done || by left). done. }
    rewrite parse_digits_text by (done || lia). cbn [bind_result negb orb check]. by rewrite Hv.
Qed.

(** An [int64] is read back from its decimal text. *)
Lemma ParseInt0_pretty z : - 2 ^ 63 ≤ z < 2 ^ 63 → ParseInt0 (pretty z) = Ok z.
Proof.
  intros Hz. destruct z as [|p|p]; [done| |].
  - change (pretty (Z.pos p)) with (pretty (N.pos p)).
    pose proof (ParseUint0_pretty (N.pos p) ltac:(lia)) as H.
    destruct (pretty_decimal (N.pos p)) as (ds & [Hd Hv (d & ds' & -> & H0)] & Ht).
    specialize (Ht ""). rewrite string_app_nil_r in Ht. rewrite Ht in *.
    apply Forall_cons in Hd as [Hd _].
    assert (d ≠ 0) as Hd0 by (intros ->; by destruct (H0 eq_refl)).
    change (digits_text (d :: ds') "") with (String (digit_char d) (digits_text ds' "")) in *.
    unfold ParseInt0. rewrite bool_decide_false by done.
    rewrite !is_char_digit by (done || by repeat constructor). rewrite H.
    cbn [bind_result]. change (Z.of_N (N.pos p)) with (Z.pos p).
    destruct (Z.leb_spec (2 ^ 63) (Z.pos p)); [lia|done].
  - change (pretty (Z.neg p)) with (String "-"%char (pretty (N.pos p))).
    unfold ParseInt0. rewrite bool_decide_false by done. cbv beta iota delta [is_char].
    rewrite (bool_decide_false ("-"%char = "+"%char)), bool_decide_true by done.
    rewrite ParseUint0_pretty by lia. cbn [bind_result]. change (Z.of_N (N.pos p)) with (Z.pos p).
    destruct (Z.ltb_spec (2 ^ 63) (Z.pos p)); [lia|done].
Qed.

Lemma parse_digits_range base s n u m u' :
  0 < base → 0 ≤ n → parse_digits base s n u = Ok (m, u') → 0 ≤ m.
Proof.
  intros Hb. revert n u. induction s as [|c s IH]; intros n u Hn; cbn [parse_digits].
  - by intros [= <- <-].
  - destruct (is_char c "_"); [by apply IH|]. destruct (digit36 c) as [d|] eqn:Ed; [|done].
    repeat case_match; try done. apply IH.
    assert (0 ≤ d); [|lia]. revert Ed. unfold digit36, in_range.
    repeat case_match; try done; intros [= <-]; lia.
Qed.

(** What is accepted fits the flag's type. *)
Lemma ParseInt0_range s n : ParseInt0 s = Ok n → - 2 ^ 63 ≤ n < 2 ^ 63.
Proof.
  unfold ParseInt0. case_bool_decide as Hs; [done|].
  set (p := match s with EmptyString => _ | _ => _ end). destruct p as [neg digits].
  intros (m & Hm & H)%bind_result_ok.
  assert (0 ≤ m) as Hpos.
  { unfold ParseUint0 in Hm. case_bool_decide as Hds; [done|].
    destruct (base_prefix digits) as [base ds] eqn:E.
    apply bind_result_ok in Hm as ([k u] & Hk & (_ & _ & [= <-])%bind_result_ok).
    eapply parse_digits_range; [|done|exact Hk]. revert E. unfold base_prefix.
    repeat case_match; intros; simplify_eq; lia. }
  destruct neg; repeat case_match; simplify_eq; lia.
Qed.

(** ** Reading flags back *)

Definition same_kind (a b : flag_value) : Prop :=
  match a, b with
  | VString _, VString _ | VInt _, VInt _ | VDuration _, VDuration _ => True
  | _, _ => False
  end.

(** Values of the flag's Go type. *)
Definition fits (v : flag_value) : Prop :=
  match v with VString _ => True | VInt n | VDuration n => - 2 ^ 63 ≤ n < 2 ^ 63 end.

(** The canonical text of a value. *)
Definition value_text (v : flag_value) : string :=
  match v with VString s => s | VInt n => pretty n | VDuration d => Duration_String d end.

Fixpoint no_equals (s : string) : bool :=
  match s with EmptyString => true | String c s => negb (is_char c "=") && no_equals s end.

(** A name a flag can be given by. *)
Definition plain_name (s : string) : bool := negb (bad_name s) && no_equals s.

(** The ways to write a flag: one dash or two, the value attached or as the
    next argument. *)
Record spelling : Type := Spelling { two_dashes : bool; attached : bool }.

Definition spell (sp : spelling) (name : string) (v : flag_value) : list string :=
  let dashes := if two_dashes sp then "--" else "-" in
  if attached sp then [dashes +:+ name +:+ "=" +:+ value_text v] else [dashes +:+ name; value_text v].

Definition spell_all (l : list (spelling * string * flag_value)) : list string :=
  l ≫= λ a, spell a.1.1 a.1.2 a.2.

Definition assign (fs : FlagSet) (l : list (spelling * string * flag_value)) : FlagSet :=
  foldl (λ fs a, <[a.1.2 := a.2]> fs) fs l.

Lemma split_equals_some s v : no_equals s = true → split_equals (s +:+ "=" +:+ v) = (s, Some v).
Proof.
  induction s as [|c s IH]; [done|]. cbn [no_equals]. intros [Hc%negb_true_iff Hs]%andb_prop.
  change (String c s +:+ "=" +:+ v) with (String c (s +:+ "=" +:+ v)). cbn [split_equals].
  by rewrite Hc, IH.
Qed.

Lemma split_equals_none s : no_equals s = true → split_equals s = (s, None).
Proof.
  induction s as [|c s IH]; [done|]. cbn [no_equals split_equals].
  intros [Hc%negb_true_iff Hs]%andb_prop. by rewrite Hc, IH.
Qed.

Lemma plain_name_inv s :
  plain_name s = true → ∃ c s', s = String c s' ∧ is_char c "-" = false ∧ is_char c "=" = false ∧ no_equals s' = true.
Proof.
  destruct s as [|c s]; [done|]. unfold plain_name. cbn [bad_name no_equals].
  intros [[H1 H2]%negb_true_iff%orb_false_elim [_ H3]%andb_prop]%andb_prop. by exists c, s.
Qed.

Lemma classify_dashes (two : bool) name t c s :
  name = String c s → is_char c "-" = false →
  classify ((if two then "--" else "-") +:+ name +:+ t) = FlagText (name +:+ t).
Proof.
  intros -> Hc. destruct two; [reflexivity|].
  change (String "-" EmptyString +:+ String c s +:+ t) with (String "-" (String c (s +:+ t))).
  unfold classify. by rewrite Hc.
Qed.

Section flags_facts.
Context {Q : Quoting}.

Lemma flag_set_text cur v : same_kind cur v → fits v → flag_set cur (value_text v) = Ok v.
Proof.
  destruct cur, v; try done; simpl; intros _ Hr.
  - by rewrite ParseInt0_pretty.
  - by rewrite ParseDuration_String.
Qed.

Lemma flag_set_kind cur s v : flag_set cur s = Ok v → same_kind cur v ∧ fits v.
Proof.
  destruct cur; simpl; [by intros [= <-]| |].
  - destruct (ParseInt0 s) as [m|[]] eqn:E; try done. intros [= <-]. split; [done|]. by eapply ParseInt0_range.
  - destruct (ParseDuration s) eqn:E; [|done]. intros [= <-]. split; [done|]. by eapply ParseDuration_range.
Qed.

(** One flag is read and the rest is left to the loop. *)
Lemma Parse_loop_spell sp name v cur fs rest :
  plain_name name = true → fs !! name = Some cur → same_kind cur v → fits v →
  Parse_loop fs (spell sp name v ++ rest) = Parse_loop (<[name := v]> fs) rest.
Proof.
  intros Hn Hfs Hk Hr. pose proof (flag_set_text cur v Hk Hr) as Hset.
  destruct (plain_name_inv name Hn) as (c & s & Hname & Hd & He & Hs).
  assert (bad_name (name +:+ "=" +:+ value_text v) = false ∧ bad_name name = false) as [Hb1 Hb2].
  { rewrite Hname. change (String c s +:+ "=" +:+ value_text v) with (String c (s +:+ "=" +:+ value_text v)).
    cbn [bad_name]. by rewrite Hd, He. }
  unfold spell. destruct (attached sp); cbn [app Parse_loop].
  - rewrite (classify_dashes _ _ _ c s) by done. rewrite Hb1.
    assert (split_name (name +:+ "=" +:+ value_text v) = (name, Some (value_text v))) as ->.
    { rewrite Hname. change (split_name (String c s +:+ "=" +:+ value_text v)) with
        (let '(n, w) := split_equals (s +:+ "=" +:+ value_text v) in (String c n, w)).
      by rewrite split_equals_some. }
    by rewrite Hfs, Hset.
  - rewrite <-(string_app_nil_r name) at 1. rewrite (classify_dashes _ _ _ c s) by done.
    rewrite string_app_nil_r, Hb2.
    assert (split_name name = (name, None)) as ->.
    { rewrite Hname. cbn [split_name]. by rewrite split_equals_none. }
    by rewrite Hfs, Hset.
Qed.

(** What stops the loop: no argument, or one that is not a flag. *)
Definition stops (rest : list string) : Prop :=
  match rest with [] => True | s :: _ => classify s = Positional end.

Lemma Parse_loop_stops fs rest : stops rest → Parse_loop fs rest = Ok (fs, rest).
Proof. destruct rest as [|s rest]; [done|]. cbn. by intros ->. Qed.

(** Flags are read back: for any list of assignments to defined flags, each
    with a value of the flag's type and spelled with one dash or two, with an
    equals sign or as two arguments, parsing yields exactly those values (the
    last one for a flag given twice, the defaults for the others) and leaves
    the arguments that follow. *)
Theorem flags_roundtrip fs l rest :
  (∀ sp name v, (sp, name, v) ∈ l →
     plain_name name = true ∧ fits v ∧ ∃ cur, fs !! name = Some cur ∧ same_kind cur v) →
  stops rest →
  Parse_loop fs (spell_all l ++ rest) = Ok (assign fs l, rest).
Proof.
  intros Hl Hr. revert fs Hl. induction l as [|[[sp name] v] l IH]; intros fs Hl.
  - by apply Parse_loop_stops.
  - destruct (Hl sp name v ltac:(by left)) as (Hn & Hf & cur & Hcur & Hk).
    unfold spell_all. cbn [mbind list_bind fst snd]. rewrite <-app_assoc.
    rewrite (Parse_loop_spell sp name v cur) by done. apply IH.
    intros sp' name' v' Hin. destruct (Hl sp' name' v' ltac:(by right)) as (Hn' & Hf' & cur' & Hcur' & Hk').
    split_and!; [done..|]. destruct (decide (name = name')) as [->|Hne].
    + exists v. rewrite lookup_insert_eq. split; [done|]. rewrite Hcur in Hcur'. simplify_eq.
      by destruct cur', v, v'.
    + exists cur'. by rewrite lookup_insert_ne.
Qed.

(** The flags of a set keep their names and types. *)
Definition typed (fs fs' : FlagSet) : Prop :=
  (∀ name, is_Some (fs !! name) ↔ is_Some (fs' !! name)) ∧
  ∀ name cur v, fs !! name = Some cur → fs' !! name = Some v → same_kind cur v ∧ (v = cur ∨ fits v).

Lemma typed_refl fs : typed fs fs.
Proof. split; [done|]. intros name cur v Hc Hv. simplify_eq. split; [by destruct cur|by left]. Qed.

Lemma typed_insert fs fs' name cur v :
  fs !! name = Some cur → same_kind cur v → fits v → typed (<[name := v]> fs) fs' → typed fs fs'.
Proof.
  intros Hc Hk Hf [H1 H2]. split.
  - intros name'. rewrite <-H1. destruct (decide (name = name')) as [<-|Hne].
    + rewrite lookup_insert_eq, Hc. done.
    + by rewrite lookup_insert_ne.
  - intros name' cur' v' Hc' Hv'. destruct (decide (name = name')) as [<-|Hne].
    + destruct (H2 name v v') as [Hk' Hor]; [by rewrite lookup_insert_eq|done|]. simplify_eq.
      split; [by destruct cur, v, v'|]. destruct Hor as [->|?]; by right.
    + apply H2 with name'; [by rewrite lookup_insert_ne|done].
Qed.

Lemma Parse_loop_typed args fs fs' rest : Parse_loop fs args = Ok (fs', rest) → typed fs fs'.
Proof.
  revert fs. induction args as [args IH] using (induction_ltof1 _ (@List.length string)).
  unfold ltof in IH. intros fs. destruct args as [|s args]; cbn [Parse_loop].
  { intros [= <- <-]. apply typed_refl. }
  destruct (classify s) as [| |text]; [intros [= <- <-]; apply typed_refl..|].
  destruct (bad_name text); [done|]. destruct (split_name text) as [name value].
  destruct (fs !! name) as [cur|] eqn:Hc; [|by case_match].
  destruct value as [v|]; [|destruct args as [|v args]; [done|]];
    (destruct (flag_set cur v) as [x|] eqn:Hx; [|done]); apply flag_set_kind in Hx as [Hk Hf];
    intros H; (eapply typed_insert; [done..|]); (eapply IH; [|exact H]); simpl; lia.
Qed.

End flags_facts.
