(* ===== verification/Json.v ===== *)
(** * JSON

    What the program uses of [encoding/json]: [json.Valid] for the payload of
    [jobqueue enqueue], and [json.Unmarshal] into the payload structs of the
    handlers.  A document is checked whole before anything is stored; a value
    of the wrong type is an error too.  Only the texts of those errors are
    parameters (class [JsonText]). *)

From stdpp Require Import prelude strings list.
From Stdlib Require Import Ascii String Floats.SpecFloat.
From S2P Require Import Prelude GoBase Config Fmt Flag.
#[local] Open Scope jq_scope.

(** ** Documents *)

(** A number keeps its text: it is converted by the type it is stored in. *)
#[warnings="-register-all"] Inductive json : Type :=
| JNull
| JBool (b : bool)
| JNumber (lit : string)
| JString (s : string)
| JArray (l : list json)
| JObject (l : list (string * json)).

Definition char (n : nat) : ascii := ascii_of_nat n.
Definition chr (n : nat) : string := String (char n) "".

Definition is_space (c : ascii) : bool :=
  is_char c " " || is_char c (char 9) || is_char c (char 10) || is_char c (char 13).

Fixpoint skip_space (s : string) : string :=
  match s with String c s' => if is_space c then skip_space s' else s | EmptyString => "" end.

(** ** Strings *)

Definition hex_value (c : ascii) : option Z :=
  let b := byte_of c in
  if in_range 48 57 b then Some (b - 48)
  else if in_range 97 102 b then Some (b - 97 + 10)
  else if in_range 65 70 b then Some (b - 65 + 10)
  else None.

(** [getu4]: four hexadecimal digits, and what follows. *)
Definition getu4 (s : string) : option (Z * string) :=
  match s with
  | String a (String b (String c (String d s))) =>
      a ← hex_value a; b ← hex_value b; c ← hex_value c; d ← hex_value d;
      Some (((a * 16 + b) * 16 + c) * 16 + d, s)
  | _ => None
  end.

(** The second half of a surrogate pair. *)
Definition low_surrogate (s : string) : option Z :=
  match s with
  | String b (String u s) =>
      if is_char b (char 92) && is_char u "u" then
        '(r, _) ← getu4 s; if in_range 56320 57343 r then Some r else None
      else None
  | _ => None
  end.

(** The text an escape stands for, and how many bytes it has after the
    backslash. *)
Definition escape (s : string) : option (string * nat) :=
  match s with
  | EmptyString => None
  | String c s =>
      if is_char c (char 34) || is_char c (char 92) || is_char c "/" then Some (String c "", 1%nat)
      else if is_char c "b" then Some (chr 8, 1%nat)
      else if is_char c "f" then Some (chr 12, 1%nat)
      else if is_char c "n" then Some (chr 10, 1%nat)
      else if is_char c "r" then Some (chr 13, 1%nat)
      else if is_char c "t" then Some (chr 9, 1%nat)
      else if is_char c "u" then
        '(r, rest) ← getu4 s;
        if in_range 55296 57343 r then
          match (if in_range 55296 56319 r then low_surrogate rest else None) with
          | Some r1 => Some (encode_rune ((r - 55296) * 1024 + (r1 - 56320) + 65536), 11%nat)
          | None => Some (encode_rune 65533, 5%nat)
          end
        else Some (encode_rune r, 5%nat)
      else None
  end.

Definition prepend (t : string) (r : option (string * string)) : option (string * string) :=
  '(s, rest) ← r; Some (t +:+ s, rest).

(** The rest of a string after its opening quote: its value (invalid UTF-8 is
    replaced by U+FFFD) and what follows the closing quote.  [keep] bytes are
    the rest of a rune, [drop] bytes the rest of an escape. *)
Fixpoint string_rest (keep drop : nat) (s : string) : option (string * string) :=
  match s, drop, keep with
  | EmptyString, _, _ => None
  | String _ s', S drop, _ => string_rest 0 drop s'
  | String c s', O, S keep => prepend (String c "") (string_rest keep 0 s')
  | String c s', O, O =>
      if is_char c (char 34) then Some ("", s')
      else if is_char c (char 92) then
        '(t, n) ← escape s'; prepend t (string_rest 0 n s')
      else if byte_of c <? 32 then None
      else match decode_tail (byte_of c) s' with
           | Some (_, n) => prepend (String c "") (string_rest n 0 s')
           | None => prepend (encode_rune 65533) (string_rest 0 0 s')
           end
  end.

(** ** Numbers *)

Definition is_digit (c : ascii) : bool := in_range 48 57 (byte_of c).

Fixpoint digits_prefix (s : string) : string * string :=
  match s with
  | String c s' => if is_digit c then let '(d, r) := digits_prefix s' in (String c d, r) else ("", s)
  | EmptyString => ("", "")
  end.

(** At least one digit. *)
Definition digits1 (s : string) : option (string * string) :=
  match digits_prefix s with ("", _) => None | p => Some p end.

(** A zero, or digits that start with another one. *)
Definition int_part (s : string) : option (string * string) :=
  match s with
  | String c s' => if is_char c "0" then Some ("0", s') else digits1 s
  | EmptyString => None
  end.

Definition frac_part (s : string) : option (string * string) :=
  match s with
  | String c s' => if is_char c "." then '(d, r) ← digits1 s'; Some (String c d, r) else Some ("", s)
  | EmptyString => Some ("", "")
  end.

Definition exp_part (s : string) : option (string * string) :=
  match s with
  | String c s' =>
      if is_char c "e" || is_char c "E" then
        match s' with
        | String sg s'' =>
            if is_char sg "+" || is_char sg "-"
            then '(d, r) ← digits1 s''; Some (String c (String sg d), r)
            else '(d, r) ← digits1 s'; Some (String c d, r)
        | EmptyString => None
        end
      else Some ("", s)
  | EmptyString => Some ("", "")
  end.

(** A number: its text and what follows. *)
Definition number (s : string) : option (string * string) :=
  let '(sign, s) := match s with
                    | String c s' => if is_char c "-" then ("-", s') else ("", s)
                    | EmptyString => ("", s)
                    end in
  '(i, s) ← int_part s; '(f, s) ← frac_part s; '(e, s) ← exp_part s;
  Some (sign +:+ i +:+ f +:+ e, s).

(** ** Values *)

(** A literal keyword at the head of a string. *)
Fixpoint keyword (k s : string) : option string :=
  match k, s with
  | EmptyString, _ => Some s
  | String a k, String b s => if is_char b a then keyword k s else None
  | _, _ => None
  end.

Definition maxNestingDepth : Z := 10000.

(** A parse that ran out of fuel is [None]; a syntax error is [Some None].
    [depth] is the number of containers that may still be opened. *)
Definition parsed (A : Type) : Type := option (option (A * string)).

Definition then_ {A B} (r : parsed A) (k : A → string → parsed B) : parsed B :=
  match r with Some (Some (a, s)) => k a s | Some None => Some None | None => None end.

(** Skip space and read one character. *)
Definition next_char (s : string) : option (ascii * string) :=
  match skip_space s with String c s' => Some (c, s') | EmptyString => None end.

Fixpoint jvalue (fuel : nat) (depth : Z) (s : string) : parsed json :=
  match fuel with
  | O => None
  | S fuel =>
      match skip_space s with
      | EmptyString => Some None
      | String c s' as s0 =>
          if is_char c (char 34) then Some ('(v, r) ← string_rest 0 0 s'; Some (JString v, r))
          else if is_char c "[" then
            if depth <=? 0 then Some None else
            match next_char s' with
            | Some (c', r) =>
                if is_char c' "]" then Some (Some (JArray [], r))
                else then_ (jelements fuel (depth - 1) s') (λ l r, Some (Some (JArray l, r)))
            | None => Some None
            end
          else if is_char c "{" then
            if depth <=? 0 then Some None else
            match next_char s' with
            | Some (c', r) =>
                if is_char c' "}" then Some (Some (JObject [], r))
                else then_ (jmembers fuel (depth - 1) s') (λ l r, Some (Some (JObject l, r)))
            | None => Some None
            end
          else if is_char c "t" then Some (r ← keyword "true" s0; Some (JBool true, r))
          else if is_char c "f" then Some (r ← keyword "false" s0; Some (JBool false, r))
          else if is_char c "n" then Some (r ← keyword "null" s0; Some (JNull, r))
          else Some ('(n, r) ← number s0; Some (JNumber n, r))
      end
  end
with jelements (fuel : nat) (depth : Z) (s : string) : parsed (list json) :=
  match fuel with
  | O => None
  | S fuel =>
      then_ (jvalue fuel depth s) (λ v s,
        match next_char s with
        | Some (c, r) =>
            if is_char c "]" then Some (Some ([v], r))
            else if is_char c "," then then_ (jelements fuel depth r) (λ l r, Some (Some (v :: l, r)))
            else Some None
        | None => Some None
        end)
  end
with jmembers (fuel : nat) (depth : Z) (s : string) : parsed (list (string * json)) :=
  match fuel with
  | O => None
  | S fuel =>
      match next_char s with
      | Some (c, s) =>
          if is_char c (char 34) then
            match string_rest 0 0 s with
            | None => Some None
            | Some (k, s) =>
                match next_char s with
                | Some (c, s) =>
                    if is_char c ":" then
                      then_ (jvalue fuel depth s) (λ v s,
                        match next_char s with
                        | Some (c, r) =>
                            if is_char c "}" then Some (Some ([(k, v)], r))
                            else if is_char c ","
                            then then_ (jmembers fuel depth r) (λ l r, Some (Some ((k, v) :: l, r)))
                            else Some None
                        | None => Some None
                        end)
                    else Some None
                | None => Some None
                end
            end
          else Some None
      | None => Some None
      end
  end.

(** A whole document: one value and space around it.  Two units of fuel per
    byte are enough ([parse_total]). *)
Definition parse (s : string) : option (option json) :=
  match jvalue (2 + 2 * String.length s) maxNestingDepth s with
  | None => None
  | Some None => Some None
  | Some (Some (v, r)) => Some (if bool_decide (skip_space r = "") then Some v else None)
  end.

(** [json.Valid]. *)
Definition Valid (s : string) : bool :=
  match parse s with Some (Some _) => true | _ => false end.

(** ** Conversions *)

(** [strconv.ParseInt(lit, 10, 64)] of a number's text. *)
Definition int_of_lit (lit : string) : option Z :=
  match atoi lit with Ok n => Some n | Err _ => None end.

(** The exponent's digits: [readFloat] stops adding at 10000. *)
Fixpoint exp_digits (s : string) (e : Z) : Z :=
  match s with
  | String c s => exp_digits s (if e <? 10000 then e * 10 + (byte_of c - 48) else e)
  | EmptyString => e
  end.

(** The digits of a mantissa, without its period, and the number after it. *)
Fixpoint mantissa (s : string) (point : bool) (m : Z) (scale : Z) : Z * Z * string :=
  match s with
  | String c s' =>
      if is_char c "." then mantissa s' true m scale
      else if is_digit c then mantissa s' point (m * 10 + (byte_of c - 48)) (if point then scale + 1 else scale)
      else (m, scale, s)
  | EmptyString => (m, scale, "")
  end.

Definition exponent (s : string) : Z :=
  match s with
  | String _ (String sg s' as s1) =>
      if is_char sg "-" then - exp_digits s' 0
      else if is_char sg "+" then exp_digits s' 0 else exp_digits s1 0
  | _ => 0
  end.

(** The [float64] nearest to [m * 10^e], ties to even. *)
Definition round_decimal (m e : Z) : spec_float :=
  if 0 <=? e then binary_normalize 53 1024 (m * 10 ^ e) 0 false
  else match m with
       | Z.pos p => SFdiv 53 1024 (S754_finite false p 0) (S754_finite false (Z.to_pos (10 ^ (- e))) 0)
       | _ => S754_zero false
       end.

(** [strconv.ParseFloat(lit, 64)] of a number's text; [None] when it is out of
    range. *)
Definition float_of_lit (lit : string) : option spec_float :=
  let '(neg, s) := match lit with
                   | String c s => if is_char c "-" then (true, s) else (false, lit)
                   | EmptyString => (false, lit)
                   end in
  let '(m, scale, s) := mantissa s false 0 0 in
  match round_decimal m (exponent s - scale) with
  | S754_infinity _ | S754_nan => None
  | f => Some (if neg then SFopp f else f)
  end.

(** ** Storing into a struct *)

(** The kinds a type error names. *)
Definition json_kind (v : json) : string :=
  match v with
  | JNull => "null" | JBool _ => "bool" | JNumber _ => "number" | JString _ => "string"
  | JArray _ => "array" | JObject _ => "object"
  end.

(** The texts of the two kinds of error: of a document that is not JSON, and of
    a value of the given kind that does not fit the field (or, with no field,
    the struct). *)
Class JsonText : Type := {
  syntax_text : string → string;
  type_text : string → option string → string;
}.

(** [foldName]: ASCII letters, and the two other runes that fold to one, U+017F
    to S and U+212A to K. *)
Fixpoint fold_name (s : string) : string :=
  match s with
  | EmptyString => ""
  | String c s' =>
      match s' with
      | String c2 s2 =>
          if (byte_of c =? 197) && (byte_of c2 =? 191) then String "S" (fold_name s2)
          else match s2 with
               | String c3 s3 =>
                   if (byte_of c =? 226) && (byte_of c2 =? 132) && (byte_of c3 =? 170)
                   then String "K" (fold_name s3)
                   else String (if in_range 97 122 (byte_of c) then char_of (byte_of c - 32) else c) (fold_name s')
               | EmptyString =>
                   String (if in_range 97 122 (byte_of c) then char_of (byte_of c - 32) else c) (fold_name s')
               end
      | EmptyString =>
          String (if in_range 97 122 (byte_of c) then char_of (byte_of c - 32) else c) ""
      end
  end.

(** A field matches a key that is its name up to case. *)
Definition matches (name key : string) : bool := bool_decide (fold_name key = fold_name name).

(** Storing one value: the new contents, and what did not fit, as the error
    names it.  A null leaves a string or a number as it was. *)
Definition store_string (v : json) (cur : string) : string * option string :=
  match v with JString s => (s, None) | JNull => (cur, None) | _ => (cur, Some (json_kind v)) end.

Definition store_number {A} (conv : string → option A) (v : json) (cur : A) : A * option string :=
  match v with
  | JNumber lit => match conv lit with Some n => (n, None) | None => (cur, Some ("number " +:+ lit)) end
  | JNull => (cur, None)
  | _ => (cur, Some (json_kind v))
  end.

(** A slice: the elements its array has held so far, and its length.  A value is
    stored over what the array holds at its index. *)
Record slice : Type := Slice { backing : list spec_float; slice_len : nat }.

Definition first_error (a b : option string) : option string := match a with Some _ => a | None => b end.

Fixpoint store_elements (l : list json) (held : list spec_float) : list spec_float * option string :=
  match l with
  | [] => (held, None)
  | v :: l =>
      let '(x, err) := store_number float_of_lit v (default (S754_zero false) (head held)) in
      let '(xs, errs) := store_elements l (tail held) in (x :: xs, first_error err errs)
  end.

(** An empty array and null start afresh. *)
Definition store_floats (v : json) (cur : slice) : slice * option string :=
  match v with
  | JArray [] => (Slice [] 0, None)
  | JArray l => let '(xs, err) := store_elements l (backing cur) in (Slice xs (List.length l), err)
  | JNull => (Slice [] 0, None)
  | _ => (cur, Some (json_kind v))
  end.

Definition slice_elems (s : slice) : list spec_float := take (slice_len s) (backing s).

Section unmarshal.
Context `{JsonText} {A : Type}.

(** A struct: how the value of a key is stored, with the field's name if it does
    not fit; unknown keys are skipped. *)
Definition struct_store : Type := string → json → A → A * option (string * string).

(** The members are stored in order, whatever does not fit; the first error is
    reported. *)
Fixpoint store_members (store : struct_store) (l : list (string * json)) (a : A)
    (err : option string) : A * option string :=
  match l with
  | [] => (a, err)
  | (k, v) :: l =>
      let '(a, e) := store k v a in
      let e := (λ p : string * string, type_text p.1 (Some p.2)) <$> e in
      store_members store l a (first_error err e)
  end.

(** [json.Unmarshal] into a struct that holds [init]. *)
Definition Unmarshal (store : struct_store) (init : A) (s : string) : result string A :=
  match parse s with
  | Some (Some JNull) => Ok init
  | Some (Some (JObject l)) =>
      match store_members store l init None with
      | (a, None) => Ok a
      | (_, Some err) => Err err
      end
  | Some (Some v) => Err (type_text (json_kind v) None)
  | _ => Err (syntax_text s)
  end.

End unmarshal.
Arguments struct_store : clear implicits.

(** Storing through a field. *)
Definition store_field {A B} (name : string) (set : B → A) (r : B * option string) :
    A * option (string * string) :=
  (set r.1, (λ kind, (kind, name)) <$> r.2).
