(* ===== verification/JsonFacts.v ===== *)
(** * Facts about the JSON decoder

    The decoder always answers, and it reads back the text of every document:
    a printer [print] for documents, and [parse (print v)]. *)

From stdpp Require Import prelude strings list.
From Stdlib Require Import Ascii String Floats.SpecFloat.
From S2P Require Import Prelude GoBase Config Fmt Flag Json.
#[local] Open Scope jq_scope.

(** ** Termination *)

Lemma skip_space_length s : (String.length (skip_space s) ≤ String.length s)%nat.
Proof. induction s as [|c s IH]; simpl; [done|]. destruct (is_space c); simpl; lia. Qed.

Lemma next_char_length s c r : next_char s = Some (c, r) → (String.length r < String.length s)%nat.
Proof.
  unfold next_char. pose proof (skip_space_length s). destruct (skip_space s); [done|].
  intros [= <- <-]. simpl in *. lia.
Qed.

Lemma prepend_some t r v rest :
  prepend t r = Some (v, rest) → ∃ v', r = Some (v', rest) ∧ v = t +:+ v'.
Proof. unfold prepend. destruct r as [[v' r']|]; simpl; [|done]. intros [= <- <-]. eauto. Qed.

Lemma string_rest_length keep drop s v r :
  string_rest keep drop s = Some (v, r) → (String.length r < String.length s)%nat.
Proof.
  revert keep drop v. induction s as [|c s IH]; intros keep drop v; [done|]. cbn [string_rest].
  destruct drop as [|drop]; [|intros H%IH; simpl; lia].
  destruct keep as [|keep]; [|intros (v' & H%IH & _)%prepend_some; simpl; lia].
  destruct (is_char c (char 34)); [intros [= <- <-]; simpl; lia|].
  destruct (is_char c (char 92)).
  { destruct (escape s) as [[t n]|]; simpl; [|done]. intros (v' & H%IH & _)%prepend_some. lia. }
  destruct (byte_of c <? 32); [done|].
  destruct (decode_tail _ _) as [[x n]|]; intros (v' & H%IH & _)%prepend_some; simpl; lia.
Qed.

Lemma keyword_length k s r :
  keyword k s = Some r → (String.length r + String.length k = String.length s)%nat.
Proof.
  revert s. induction k as [|a k IH]; intros [|b s]; simpl; try done.
  - by intros [= <-].
  - intros [= <-]. simpl. lia.
  - destruct (is_char b a); [|done]. intros H%IH. lia.
Qed.

Lemma digits_prefix_length s :
  (String.length (digits_prefix s).2 + String.length (digits_prefix s).1 = String.length s)%nat.
Proof.
  induction s as [|c s IH]; simpl; [done|]. destruct (is_digit c); simpl; [|lia].
  destruct (digits_prefix s). simpl in *. lia.
Qed.

Lemma digits1_length s d r :
  digits1 s = Some (d, r) → (String.length r < String.length s)%nat.
Proof.
  unfold digits1. pose proof (digits_prefix_length s). destruct (digits_prefix s) as [[|c d'] r']; [done|].
  intros [= <- <-]. simpl in *. lia.
Qed.

Lemma part_length (f : string → option (string * string)) s t r :
  (f = frac_part ∨ f = exp_part) → f s = Some (t, r) → (String.length r ≤ String.length s)%nat.
Proof.
  intros [-> | ->].
  - unfold frac_part. destruct s as [|c s]; [by intros [= <- <-]|]. destruct (is_char c ".").
    + destruct (digits1 s) as [[d r']|] eqn:E; [|done]. intros [= <- <-].
      apply digits1_length in E. simpl. lia.
    + by intros [= <- <-].
  - unfold exp_part. destruct s as [|c s]; [by intros [= <- <-]|].
    destruct (is_char c "e" || is_char c "E"); [|by intros [= <- <-]].
    destruct s as [|sg s]; [done|]. destruct (is_char sg "+" || is_char sg "-").
    + destruct (digits1 s) as [[d r']|] eqn:E; [|done]. intros [= <- <-].
      apply digits1_length in E. simpl. lia.
    + destruct (digits1 (String sg s)) as [[d r']|] eqn:E; [|done]. intros [= <- <-].
      apply digits1_length in E. simpl in *. lia.
Qed.

Lemma number_length s n r : number s = Some (n, r) → (String.length r < String.length s)%nat.
Proof.
  unfold number. set (p := match s with EmptyString => _ | _ => _ end).
  assert (String.length p.2 ≤ String.length s)%nat as Hp.
  { unfold p. destruct s as [|c s]; [done|]. destruct (is_char c "-"); simpl; lia. }
  destruct p as [sg s1]. simpl in Hp.
  destruct (int_part s1) as [[i s2]|] eqn:E1; [|done]. cbn [mbind option_bind].
  destruct (frac_part s2) as [[f s3]|] eqn:E2; [|done]. cbn [mbind option_bind].
  destruct (exp_part s3) as [[e s4]|] eqn:E3; [|done]. intros [= _ <-].
  apply (part_length frac_part) in E2; [|by left]. apply (part_length exp_part) in E3; [|by right].
  assert (String.length s2 < String.length s1)%nat; [|lia].
  unfold int_part in E1. destruct s1 as [|c s1]; [done|]. destruct (is_char c "0").
  - injection E1 as <- <-. simpl. lia.
  - by apply digits1_length in E1.
Qed.

(** With enough fuel the parse answers, and what it leaves is shorter. *)
Definition answers_within {A} (s : string) (p : parsed A) : Prop :=
  ∃ r, p = Some r ∧ ∀ v rest, r = Some (v, rest) → (String.length rest < String.length s)%nat.

Lemma answers_fail {A} s : answers_within (A:=A) s (Some None).
Proof. by exists None. Qed.

Lemma answers_option {A} s (o : option (A * string)) :
  (∀ v r, o = Some (v, r) → (String.length r < String.length s)%nat) → answers_within s (Some o).
Proof. intros H. by exists o. Qed.

Lemma answers_then {A B} s s' (p : parsed A) (k : A → string → parsed B) :
  answers_within s' p → (String.length s' ≤ String.length s)%nat →
  (∀ v r, (String.length r < String.length s')%nat → answers_within s (k v r)) →
  answers_within s (then_ p k).
Proof.
  intros (r & -> & Hr) Hs Hk. destruct r as [[v r]|]; simpl; [|apply answers_fail].
  apply Hk. by apply Hr with v.
Qed.

(** A separator after an element, then the closing bracket or more of the same. *)
Lemma answers_sep {A} (close : ascii) s s' (one : A) (p : string → parsed (list A)) :
  (String.length s' < String.length s)%nat →
  (∀ r, (String.length r < String.length s')%nat → answers_within r (p r)) →
  answers_within (A:=list A) s
    match next_char s' with
    | Some (c, r) =>
        if is_char c close then Some (Some ([one], r))
        else if is_char c "," then then_ (p r) (λ l r, Some (Some (one :: l, r))) else Some None
    | None => Some None
    end.
Proof.
  intros Hs Hp. destruct (next_char s') as [[c r]|] eqn:E; [|apply answers_fail].
  apply next_char_length in E. destruct (is_char c close).
  { apply answers_option. intros v r' [= <- <-]. lia. }
  destruct (is_char c ","); [|apply answers_fail].
  eapply answers_then; [by apply Hp|lia|]. intros v r' Hr'. apply answers_option.
  intros ? ? [= <- <-]. lia.
Qed.

Lemma parse_answers fuel :
  (∀ d s, (2 * String.length s + 1 ≤ fuel)%nat → answers_within s (jvalue fuel d s)) ∧
  (∀ d s, (2 * String.length s + 2 ≤ fuel)%nat → answers_within s (jelements fuel d s)) ∧
  (∀ d s, (2 * String.length s + 2 ≤ fuel)%nat → answers_within s (jmembers fuel d s)).
Proof.
  induction fuel as [|fuel (IHv & IHe & IHm)]; [split_and!; intros; lia|]. split_and!; intros d s Hf.
  - cbn [jvalue]. pose proof (skip_space_length s) as Hsp.
    destruct (skip_space s) as [|c s'] eqn:Es; [apply answers_fail|]. simpl in Hsp.
    assert (∀ A (k : nat → Z → string → parsed (list A)) close (con : list A → json),
      (∀ d s, (2 * String.length s + 2 ≤ fuel)%nat → answers_within s (k fuel d s)) →
      answers_within s
        (if d <=? 0 then Some None else
         match next_char s' with
         | Some (c', r) =>
             if is_char c' close then Some (Some (con [], r))
             else then_ (k fuel (d - 1) s') (λ l r, Some (Some (con l, r)))
         | None => Some None
         end)) as Hcont.
    { intros A k close con Hk. destruct (d <=? 0); [apply answers_fail|].
      destruct (next_char s') as [[c' r]|] eqn:E; [|apply answers_fail]. apply next_char_length in E.
      destruct (is_char c' close); [apply answers_option; intros v r' [= <- <-]; lia|].
      eapply answers_then; [apply Hk; lia|lia|]. intros v r' Hr'. apply answers_option.
      intros ? ? [= <- <-]. lia. }
    destruct (is_char c (char 34)).
    { apply answers_option. intros v r.
      destruct (string_rest 0 0 s') as [[t r']|] eqn:E; simpl; [|done]. intros [= _ <-].
      apply string_rest_length in E. lia. }
    destruct (is_char c "["); [by apply (Hcont json jelements)|].
    destruct (is_char c "{"); [by apply (Hcont _ jmembers)|].
    assert (∀ a w (x : json), answers_within s (Some (r ← keyword (String a w) (String c s'); Some (x, r)))) as Hkw.
    { intros a w x. apply answers_option. intros v r.
      destruct (keyword _ _) as [r'|] eqn:E; simpl; [|done]. intros [= _ <-].
      apply keyword_length in E. simpl in *. lia. }
    destruct (is_char c "t"); [apply Hkw|]. destruct (is_char c "f"); [apply Hkw|].
    destruct (is_char c "n"); [apply Hkw|].
    apply answers_option. intros v r. destruct (number _) as [[n r']|] eqn:E; simpl; [|done].
    intros [= _ <-]. apply number_length in E. simpl in *. lia.
  - cbn [jelements]. eapply answers_then; [apply IHv; lia|lia|]. intros v r Hr.
    apply (answers_sep "]"); [done|]. intros r' Hr'. apply IHe. lia.
  - cbn [jmembers]. destruct (next_char s) as [[c s1]|] eqn:E1; [|apply answers_fail].
    apply next_char_length in E1. destruct (is_char c (char 34)); [|apply answers_fail].
    destruct (string_rest 0 0 s1) as [[k s2]|] eqn:E2; [|apply answers_fail]. apply string_rest_length in E2.
    destruct (next_char s2) as [[c2 s3]|] eqn:E3; [|apply answers_fail]. apply next_char_length in E3.
    destruct (is_char c2 ":"); [|apply answers_fail].
    eapply answers_then; [apply IHv; lia|lia|]. intros v r Hr.
    apply (answers_sep "}" _ _ (k, v)); [lia|]. intros r' Hr'. apply IHm. lia.
Qed.

Lemma parse_total s : ∃ r, parse s = Some r.
Proof.
  unfold parse. destruct (proj1 (parse_answers (2 + 2 * String.length s)) maxNestingDepth s) as (r & -> & _); [lia|].
  destruct r as [[v rest]|]; eauto.
Qed.

(** ** Printing *)

Definition hex_char (n : Z) : ascii := char_of (if n <? 10 then 48 + n else 97 + n - 10).

(** A byte of a string: quotes, backslashes and control characters are
    escaped. *)
Definition print_char (c : ascii) : string :=
  if is_char c (char 34) || is_char c (char 92) then String (char 92) (String c "")
  else if byte_of c <? 32 then
    String (char 92) ("u00" +:+ String (hex_char (byte_of c / 16)) (String (hex_char (byte_of c mod 16)) ""))
  else String c "".

Fixpoint print_chars (s : string) : string :=
  match s with EmptyString => "" | String c s => print_char c +:+ print_chars s end.

Definition print_string (s : string) : string := chr 34 +:+ print_chars s +:+ chr 34.

Fixpoint commas (l : list string) : string :=
  match l with
  | [] => ""
  | [x] => x
  | x :: l => x +:+ "," +:+ commas l
  end.

Fixpoint print (v : json) : string :=
  match v with
  | JNull => "null"
  | JBool b => if b then "true" else "false"
  | JNumber lit => lit
  | JString s => print_string s
  | JArray l => "[" +:+ commas (map print l) +:+ "]"
  | JObject l => "{" +:+ commas (map (λ p, print_string p.1 +:+ ":" +:+ print p.2) l) +:+ "}"
  end.

(** Valid UTF-8; [skip] bytes belong to the rune before. *)
Fixpoint utf8_from (skip : nat) (s : string) : bool :=
  match s, skip with
  | EmptyString, _ => true
  | String _ s', S skip => utf8_from skip s'
  | String c s', O => match decode_tail (byte_of c) s' with Some (_, n) => utf8_from n s' | None => false end
  end.

Definition utf8 (s : string) : bool := utf8_from 0 s.

(** Documents a text can stand for: numbers in JSON's syntax, strings in UTF-8,
    and the containers open at once. *)
Fixpoint wf_json (d : Z) (v : json) : bool :=
  match v with
  | JNull | JBool _ => true
  | JNumber lit => bool_decide (number lit = Some (lit, ""))
  | JString s => utf8 s
  | JArray l => (0 <? d) && forallb (wf_json (d - 1)) l
  | JObject l => (0 <? d) && forallb (λ p, utf8 p.1 && wf_json (d - 1) p.2) l
  end.

(** Induction through the containers. *)
Fixpoint json_nested_ind (P : json → Prop) (Hn : P JNull) (Hb : ∀ b, P (JBool b))
    (Hl : ∀ lit, P (JNumber lit)) (Hs : ∀ s, P (JString s))
    (Ha : ∀ l, Forall P l → P (JArray l)) (Ho : ∀ l, Forall (λ p : string * json, P p.2) l → P (JObject l))
    (v : json) {struct v} : P v :=
  let rec := json_nested_ind P Hn Hb Hl Hs Ha Ho in
  match v with
  | JNull => Hn
  | JBool b => Hb b
  | JNumber lit => Hl lit
  | JString s => Hs s
  | JArray l => Ha l ((fix go l := match l return Forall P l with
                        | [] => List.Forall_nil _ | x :: l => List.Forall_cons _ x l (rec x) (go l) end) l)
  | JObject l => Ho l ((fix go l := match l return Forall (λ p, P p.2) l with
                         | [] => List.Forall_nil _ | x :: l => List.Forall_cons _ x l (rec x.2) (go l) end) l)
  end.

(** ** Reading strings back *)

(** A fact about a byte, checked on all of them. *)
Definition all_bytes (P : ascii → bool) : bool := forallb (λ n, P (ascii_of_nat n)) (seq 0 256).

Lemma all_bytes_spec P : all_bytes P = true → ∀ c, P c = true.
Proof.
  intros H c. unfold all_bytes in H. rewrite forallb_forall in H. rewrite <-(ascii_nat_embedding c).
  apply H, in_seq. pose proof (nat_ascii_bounded c). lia.
Qed.

(** A printed control character is read back. *)
Lemma escape_control c t : byte_of c < 32 →
  escape (String "u" (String "0" (String "0"
    (String (hex_char (byte_of c / 16)) (String (hex_char (byte_of c mod 16)) t)))))
  = Some (String c "", 5%nat).
Proof.
  intros Hc.
  assert (all_bytes (λ c, negb (byte_of c <? 32) || bool_decide (
    hex_value (hex_char (byte_of c / 16)) = Some (byte_of c / 16) ∧
    hex_value (hex_char (byte_of c mod 16)) = Some (byte_of c mod 16) ∧
    encode_rune (((0 * 16 + 0) * 16 + byte_of c / 16) * 16 + byte_of c mod 16) = String c "" ∧
    in_range 55296 57343 (((0 * 16 + 0) * 16 + byte_of c / 16) * 16 + byte_of c mod 16) = false)) = true) as H
    by (by vm_compute).
  apply all_bytes_spec with (c := c) in H. apply orb_prop in H as [H|H].
  { apply negb_true_iff, Z.ltb_ge in H. lia. }
  apply bool_decide_eq_true in H as (H1 & H2 & H3 & H4).
  unfold escape. cbv [is_char]. rewrite !bool_decide_false by done. rewrite bool_decide_true by done.
  cbn [orb getu4]. change (hex_value "0"%char) with (Some 0). cbn [mbind option_bind].
  rewrite H1, H2. cbn [mbind option_bind]. by rewrite H4, H3.
Qed.

Lemma print_char_high c : 128 ≤ byte_of c → print_char c = String c "".
Proof.
  intros Hc.
  assert (all_bytes (λ c, (byte_of c <? 128) || bool_decide (print_char c = String c "")) = true) as H by (by vm_compute).
  apply all_bytes_spec with (c := c) in H. apply orb_prop in H as [H%Z.ltb_lt|H%bool_decide_eq_true]; [lia|done].
Qed.

Lemma cont_print lo hi s x s1 t :
  128 ≤ lo → cont lo hi s = Some (x, s1) →
  cont lo hi (print_chars s +:+ t) = Some (x, print_chars s1 +:+ t).
Proof.
  intros Hlo. unfold cont. destruct s as [|c s]; [done|]. cbn [print_chars].
  destruct (in_range lo hi (byte_of c)) eqn:E; [|done]. intros [= <- <-].
  rewrite print_char_high by (unfold in_range in E; lia).
  change (String c "" +:+ print_chars s) with (String c (print_chars s)).
  change (String c (print_chars s) +:+ t) with (String c (print_chars s +:+ t)).
  cbv beta iota zeta. by rewrite E.
Qed.

Lemma decode_tail_print b s x n t :
  decode_tail b s = Some (x, n) → decode_tail b (print_chars s +:+ t) = Some (x, n).
Proof.
  unfold decode_tail. repeat case_match; try done;
    repeat (match goal with
            | |- context [cont ?lo ?hi ?s ≫= _] => destruct (cont lo hi s) as [[? ?]|] eqn:?; [|done]
            end; cbn [mbind option_bind]);
    intros [= <- <-];
    repeat (erewrite cont_print by (done || lia); cbn [mbind option_bind]); done.
Qed.

Fixpoint high_prefix (n : nat) (s : string) : Prop :=
  match n, s with
  | O, _ => True
  | S n, String c s => 128 ≤ byte_of c ∧ high_prefix n s
  | S _, EmptyString => False
  end.

Lemma cont_high lo hi s x s1 n :
  128 ≤ lo → cont lo hi s = Some (x, s1) → high_prefix n s1 → high_prefix (S n) s.
Proof.
  intros Hlo. unfold cont. destruct s as [|c s]; [done|].
  destruct (in_range lo hi (byte_of c)) eqn:E; [|done]. intros [= <- <-] Hs. split; [|done].
  unfold in_range in E. lia.
Qed.

Lemma decode_tail_high b s x n : decode_tail b s = Some (x, n) → high_prefix n s.
Proof.
  unfold decode_tail. repeat case_match; try done;
    repeat (match goal with
            | |- context [cont ?lo ?hi ?s ≫= _] => destruct (cont lo hi s) as [[? ?]|] eqn:?; [|done]
            end; cbn [mbind option_bind]);
    intros [= <- <-]; try done;
    repeat (eapply cont_high; [|eassumption|]; [lia|]); done.
Qed.

Lemma decode_tail_ascii b s : b < 128 → decode_tail b s = Some (b, 0%nat).
Proof. intros Hb. unfold decode_tail. by destruct (Z.ltb_spec b 128); [|lia]. Qed.

Lemma string_cons_app c a b : String c a +:+ b = String c (a +:+ b).
Proof. done. Qed.

Lemma string_rest_print s keep t :
  utf8_from keep s = true → high_prefix keep s →
  string_rest keep 0 (print_chars s +:+ chr 34 +:+ t) = Some (s, t).
Proof.
  revert keep. induction s as [|c s IH]; intros keep Hu Hh.
  { destruct keep; [reflexivity|done]. }
  cbn [print_chars]. rewrite string_app_assoc. set (rest := print_chars s +:+ chr 34 +:+ t) in *.
  destruct keep as [|keep].
  - cbn [utf8_from] in Hu. destruct (decode_tail (byte_of c) s) as [[x n]|] eqn:Ed; [|done].
    unfold print_char. destruct (is_char c (char 34) || is_char c (char 92)) eqn:Esp.
    + rewrite !string_cons_app. cbn [string_rest].
      change (is_char (char 92) (char 34)) with false. change (is_char (char 92) (char 92)) with true. cbv iota.
      unfold escape. change ("" +:+ rest) with rest. rewrite Esp. cbn [orb mbind option_bind string_rest].
      assert (n = 0%nat) as ->.
      { apply orb_prop in Esp as [E|E]; apply bool_decide_eq_true in E; subst c;
          rewrite decode_tail_ascii in Ed by done; by simplify_eq. }
      by rewrite IH.
    + destruct (Z.ltb_spec (byte_of c) 32) as [Hc|Hc].
      * rewrite !string_cons_app. change ("" +:+ ?a) with a. rewrite !string_cons_app. change ("" +:+ ?a) with a.
        cbn [string_rest].
        change (is_char (char 92) (char 34)) with false. change (is_char (char 92) (char 92)) with true. cbv iota.
        rewrite escape_control by done. cbn [mbind option_bind].
        rewrite decode_tail_ascii in Ed by lia. simplify_eq.
        cbn [string_rest]. by rewrite IH.
      * rewrite string_cons_app. cbn [string_rest]. apply orb_false_elim in Esp as [-> ->].
        destruct (Z.ltb_spec (byte_of c) 32); [lia|]. change ("" +:+ rest) with rest. unfold rest.
        rewrite (decode_tail_print _ _ _ _ _ Ed). rewrite IH; [done|done|by eapply decode_tail_high].
  - destruct Hh as [Hc Hh]. rewrite print_char_high, string_cons_app by done. cbn [string_rest].
    change ("" +:+ rest) with rest. by rewrite IH.
Qed.

(** ** Reading numbers back *)

(** What follows a value inside a document. *)
Definition delim (t : string) : Prop :=
  match t with EmptyString => True | String c _ => c = ","%char ∨ c = "]"%char ∨ c = "}"%char end.

Lemma delim_comma t : delim ("," +:+ t).
Proof. by left. Qed.
Lemma delim_bracket t : delim ("]" +:+ t).
Proof. by right; left. Qed.
Lemma delim_brace t : delim ("}" +:+ t).
Proof. by right; right. Qed.

#[export] Hint Resolve delim_comma delim_bracket delim_brace : jq.

Lemma digits_prefix_app s t :
  delim t → digits_prefix (s +:+ t) = ((digits_prefix s).1, (digits_prefix s).2 +:+ t).
Proof.
  intros Ht. induction s as [|c s IH].
  - change ("" +:+ t) with t. destruct t as [|c t]; [done|]. by destruct Ht as [->|[-> | ->]].
  - rewrite string_cons_app. cbn [digits_prefix]. destruct (is_digit c); [|done].
    rewrite IH. by destruct (digits_prefix s).
Qed.

Lemma digits1_app s d r t : delim t → digits1 s = Some (d, r) → digits1 (s +:+ t) = Some (d, r +:+ t).
Proof.
  intros Ht. unfold digits1. rewrite digits_prefix_app by done.
  destruct (digits_prefix s) as [[|c d'] r']; [done|]. by intros [= <- <-].
Qed.

Lemma int_part_app s d r t : delim t → int_part s = Some (d, r) → int_part (s +:+ t) = Some (d, r +:+ t).
Proof.
  intros Ht. destruct s as [|c s]; [done|]. rewrite string_cons_app. unfold int_part.
  destruct (is_char c "0"); [by intros [= <- <-]|].
  intros H. rewrite <-string_cons_app. by apply digits1_app.
Qed.

Lemma frac_part_app s d r t : delim t → frac_part s = Some (d, r) → frac_part (s +:+ t) = Some (d, r +:+ t).
Proof.
  intros Ht. destruct s as [|c s].
  - intros [= <- <-]. change ("" +:+ t) with t. destruct t as [|c t]; [done|]. by destruct Ht as [->|[-> | ->]].
  - rewrite string_cons_app. unfold frac_part. destruct (is_char c "."); [|by intros [= <- <-]].
    destruct (digits1 s) as [[d' r']|] eqn:E; [|done]. intros [= <- <-].
    by rewrite (digits1_app _ _ _ _ Ht E).
Qed.

Lemma exp_part_app s d r t : delim t → exp_part s = Some (d, r) → exp_part (s +:+ t) = Some (d, r +:+ t).
Proof.
  intros Ht. destruct s as [|c s].
  - intros [= <- <-]. change ("" +:+ t) with t. destruct t as [|c t]; [done|]. by destruct Ht as [->|[-> | ->]].
  - rewrite string_cons_app. unfold exp_part.
    destruct (is_char c "e" || is_char c "E"); [|by intros [= <- <-]].
    destruct s as [|sg s]; [done|]. rewrite string_cons_app.
    destruct (is_char sg "+" || is_char sg "-").
    + destruct (digits1 s) as [[d' r']|] eqn:E; [|done]. intros [= <- <-].
      by rewrite (digits1_app _ _ _ _ Ht E).
    + destruct (digits1 (String sg s)) as [[d' r']|] eqn:E; [|done]. intros [= <- <-].
      rewrite <-string_cons_app. by rewrite (digits1_app _ _ _ _ Ht E).
Qed.

Lemma number_app s n r t : delim t → number s = Some (n, r) → number (s +:+ t) = Some (n, r +:+ t).
Proof.
  intros Ht Hn. unfold number in *.
  assert (s ≠ "") as Hs by (by intros ->).
  assert (∀ A (k : string * string → A),
    k (match s +:+ t with String c s' => if is_char c "-" then ("-", s') else ("", s +:+ t) | EmptyString => ("", s +:+ t) end)
    = k (let '(sg, s1) := match s with String c s' => if is_char c "-" then ("-", s') else ("", s) | EmptyString => ("", s) end in (sg, s1 +:+ t)))
    as Hk.
  { intros A k. f_equal. destruct s as [|c s]; [done|]. rewrite string_cons_app. by destruct (is_char c "-"). }
  rewrite (Hk _ (λ p, let '(sign, s) := p in _)). clear Hk.
  destruct (match s with EmptyString => _ | _ => _ end) as [sg s1].
  destruct (int_part s1) as [[i s2]|] eqn:E1; [|done]. cbn [mbind option_bind] in *.
  rewrite (int_part_app _ _ _ _ Ht E1). cbn [mbind option_bind].
  destruct (frac_part s2) as [[f s3]|] eqn:E2; [|done]. cbn [mbind option_bind] in *.
  rewrite (frac_part_app _ _ _ _ Ht E2). cbn [mbind option_bind].
  destruct (exp_part s3) as [[e s4]|] eqn:E3; [|done]. cbn [mbind option_bind] in *.
  rewrite (exp_part_app _ _ _ _ Ht E3). cbn [mbind option_bind]. by simplify_eq.
Qed.

(** ** Reading documents back *)

Lemma string_length_app a b : String.length (a +:+ b) = (String.length a + String.length b)%nat.
Proof. induction a as [|c a IH]; [done|]. rewrite string_cons_app. simpl. by rewrite IH. Qed.

(** How a number starts, and that no other value starts so. *)
Definition number_start (c : ascii) : bool := is_digit c || is_char c "-".

Lemma number_start_other c :
  number_start c = true →
  is_space c = false ∧ is_char c (char 34) = false ∧ is_char c "[" = false ∧ is_char c "{" = false ∧
  is_char c "t" = false ∧ is_char c "f" = false ∧ is_char c "n" = false ∧
  is_char c "]" = false ∧ is_char c "}" = false.
Proof.
  intros Hc.
  assert (all_bytes (λ c, negb (number_start c) || negb (is_space c || is_char c (char 34) || is_char c "["
    || is_char c "{" || is_char c "t" || is_char c "f" || is_char c "n" || is_char c "]" || is_char c "}"))
    = true) as H by (by vm_compute).
  apply all_bytes_spec with (c := c) in H. rewrite Hc in H. cbn [negb orb] in H.
  apply negb_true_iff in H. do 8 (apply orb_false_elim in H as [H ?]). by split_and!.
Qed.

Lemma number_head s n r : number s = Some (n, r) → ∃ c s', s = String c s' ∧ number_start c = true.
Proof.
  destruct s as [|c s]; [done|]. intros H. exists c, s. split; [done|]. unfold number_start, number in *.
  destruct (is_char c "-"); [by rewrite orb_true_r|]. rewrite orb_false_r.
  destruct (int_part (String c s)) as [[i s2]|] eqn:E; [|done]. unfold int_part in E.
  destruct (is_char c "0") eqn:E0; [apply bool_decide_eq_true in E0; by subst c|].
  unfold digits1 in E. cbn [digits_prefix] in E. by destruct (is_digit c).
Qed.

(** The first character of a printed value. *)
Lemma print_head d v :
  wf_json d v = true →
  ∃ c s, print v = String c s ∧ is_space c = false ∧ is_char c "]" = false ∧ is_char c "}" = false.
Proof.
  destruct v as [|[]|lit|s|l|l]; cbn [wf_json print]; intros Hwf;
    try (by eexists _, _; split; [reflexivity|]).
  apply bool_decide_eq_true in Hwf. apply number_head in Hwf as (c & s & -> & Hc).
  apply number_start_other in Hc as (? & _ & _ & _ & _ & _ & _ & ? & ?). by exists c, s.
Qed.

Lemma next_char_head c s : is_space c = false → next_char (String c "" +:+ s) = Some (c, s).
Proof. intros Hc. unfold next_char. change (String c "" +:+ s) with (String c s). cbn [skip_space]. by rewrite Hc. Qed.

(** The value [v] is read back from its text, with any fuel that is enough. *)
Definition reads_back (v : json) : Prop :=
  ∀ d fuel t, wf_json d v = true → delim t → (2 * String.length (print v) + 1 ≤ fuel)%nat →
    jvalue fuel d (print v +:+ t) = Some (Some (v, t)).

Lemma jelements_print l d fuel t :
  Forall reads_back l → l ≠ [] → forallb (wf_json d) l = true →
  (2 * String.length (commas (map print l)) + 2 ≤ fuel)%nat →
  jelements fuel d (commas (map print l) +:+ "]" +:+ t) = Some (Some (l, t)).
Proof.
  intros Hl. revert fuel. induction Hl as [|v l Hv Hl IH]; intros fuel Hne Hwf Hf; [done|].
  cbn [forallb] in Hwf. apply andb_prop in Hwf as [Hwv Hwl].
  destruct fuel as [|fuel]; [lia|]. cbn [jelements]. destruct l as [|w l].
  - cbn [map commas] in *. rewrite Hv by (done || solve [auto with jq] || lia). cbn [then_].
    by rewrite (next_char_head "]").
  - change (commas (map print (v :: w :: l))) with (print v +:+ "," +:+ commas (map print (w :: l))) in *.
    rewrite !string_length_app in Hf. cbn [String.length] in Hf.
    rewrite !string_app_assoc, Hv by (done || solve [auto with jq] || lia). cbn [then_].
    rewrite (next_char_head ","), IH by (done || lia). done.
Qed.

Lemma jmembers_print l d fuel t :
  Forall (λ p : string * json, reads_back p.2) l → l ≠ [] →
  forallb (λ p, utf8 p.1 && wf_json d p.2) l = true →
  (2 * String.length (commas (map (λ p, print_string p.1 +:+ ":" +:+ print p.2) l)) + 2 ≤ fuel)%nat →
  jmembers fuel d (commas (map (λ p, print_string p.1 +:+ ":" +:+ print p.2) l) +:+ "}" +:+ t)
  = Some (Some (l, t)).
Proof.
  intros Hl. set (pr := λ p : string * json, print_string p.1 +:+ ":" +:+ print p.2). revert fuel.
  induction Hl as [|[k v] l Hv Hl IH]; intros fuel Hne Hwf Hf; [done|].
  cbn [forallb fst snd] in *. apply andb_prop in Hwf as [[Hk Hwv]%andb_prop Hwl].
  destruct fuel as [|fuel]; [lia|]. cbn [jmembers].
  assert (∀ u r, delim u → (2 * String.length (print v) + 1 ≤ fuel)%nat →
    pr (k, v) +:+ u = r →
    ∃ r1 r2, next_char r = Some (char 34, r1) ∧ string_rest 0 0 r1 = Some (k, r2) ∧
      ∃ r3, next_char r2 = Some (":"%char, r3) ∧ jvalue fuel d r3 = Some (Some (v, u))) as Hone.
  { intros u r Hu Hfu <-. unfold pr, print_string. cbn [fst snd]. rewrite !string_app_assoc.
    eexists _, _. split; [by rewrite (next_char_head (char 34))|].
    split; [by apply (string_rest_print k 0)|]. eexists. split; [by rewrite (next_char_head ":")|]. by apply Hv. }
  destruct l as [|p l].
  - cbn [map commas] in *. fold pr in Hf. unfold pr in Hf. cbn [fst snd] in Hf. rewrite !string_length_app in Hf.
    destruct (Hone ("}" +:+ t) (pr (k, v) +:+ "}" +:+ t)) as (r1 & r2 & -> & E2 & r3 & E3 & E4);
      [auto with jq|lia|done|].
    change (is_char (char 34) (char 34)) with true. cbv iota. rewrite E2, E3.
    change (is_char ":" ":") with true. cbv iota. rewrite E4. cbn [then_].
    by rewrite (next_char_head "}").
  - change (commas (map pr ((k, v) :: p :: l))) with (pr (k, v) +:+ "," +:+ commas (map pr (p :: l))) in *.
    rewrite !string_length_app in Hf. cbn [String.length] in Hf.
    assert (2 * String.length (print v) + 1 ≤ fuel)%nat as Hfv.
    { unfold pr in Hf. cbn [fst snd] in Hf. rewrite !string_length_app in Hf. lia. }
    rewrite !string_app_assoc.
    destruct (Hone ("," +:+ commas (map pr (p :: l)) +:+ "}" +:+ t) _ ltac:(auto with jq) Hfv eq_refl)
      as (r1 & r2 & -> & E2 & r3 & E3 & E4).
    change (is_char (char 34) (char 34)) with true. cbv iota. rewrite E2, E3.
    change (is_char ":" ":") with true. cbv iota. rewrite E4. cbn [then_].
    rewrite (next_char_head ","), IH by (done || lia). done.
Qed.

Lemma skip_space_head c s : is_space c = false → skip_space (String c s) = String c s.
Proof. intros Hc. cbn [skip_space]. by rewrite Hc. Qed.

(** A printed list does not start like an empty one. *)
Lemma commas_head (f : list string) x r close t :
  f = x :: r → (∃ c s, x = String c s ∧ is_space c = false ∧ is_char c close = false) →
  ∃ c s, next_char (commas f +:+ t) = Some (c, s) ∧ is_char c close = false.
Proof.
  intros -> (c & s & -> & Hsp & Hc). unfold next_char. destruct r as [|y r].
  - change (commas [String c s] +:+ t) with (String c (s +:+ t)). rewrite skip_space_head by done. eauto.
  - change (commas (String c s :: y :: r) +:+ t) with (String c ((s +:+ "," +:+ commas (y :: r)) +:+ t)).
    rewrite skip_space_head by done. eauto.
Qed.

Lemma jvalue_number lit d fuel t :
  number lit = Some (lit, "") → delim t → jvalue (S fuel) d (lit +:+ t) = Some (Some (JNumber lit, t)).
Proof.
  intros Hn Ht. pose proof (number_app _ _ _ _ Ht Hn) as Hna. change ("" +:+ t) with t in Hna.
  apply number_head in Hn as (c & s & -> & Hc).
  apply number_start_other in Hc as (Hsp & H1 & H2 & H3 & H4 & H5 & H6 & _ & _).
  rewrite string_cons_app in *. cbn [jvalue]. rewrite skip_space_head by done.
  by rewrite H1, H2, H3, H4, H5, H6, Hna.
Qed.

Lemma jvalue_print v : reads_back v.
Proof.
  induction v as [|b|lit|s|l IH|l IH] using json_nested_ind; intros d fuel t Hwf Ht Hf;
    (destruct fuel as [|fuel]; [lia|]); cbn [wf_json] in Hwf.
  - reflexivity.
  - by destruct b.
  - apply bool_decide_eq_true in Hwf. by apply jvalue_number.
  - cbn [print]. unfold print_string. rewrite !string_app_assoc.
    change (chr 34 +:+ ?u) with (String (char 34) u). cbn [jvalue].
    rewrite skip_space_head by done. change (is_char (char 34) (char 34)) with true. cbv iota.
    by rewrite (string_rest_print s 0).
  - apply andb_prop in Hwf as [Hd Hwf]. cbn [print] in *. rewrite !string_length_app in Hf. cbn [String.length] in Hf.
    rewrite !string_app_assoc. change ("[" +:+ ?u) with (String "[" u). cbn [jvalue].
    rewrite skip_space_head by done. change (is_char "[" (char 34)) with false. change (is_char "[" "[") with true.
    cbv iota. destruct (Z.leb_spec d 0); [lia|]. destruct l as [|v l].
    + change (commas (map print []) +:+ "]" +:+ t) with ("]" +:+ t). by rewrite (next_char_head "]").
    + destruct (commas_head (map print (v :: l)) (print v) (map print l) "]" ("]" +:+ t))
        as (c & s & -> & ->); [done| |].
      { cbn [forallb] in Hwf. apply andb_prop in Hwf as [Hv _].
        destruct (print_head _ _ Hv) as (c & s & ? & ? & ? & _). eauto. }
      rewrite jelements_print by (done || lia). done.
  - apply andb_prop in Hwf as [Hd Hwf]. cbn [print] in *. rewrite !string_length_app in Hf. cbn [String.length] in Hf.
    rewrite !string_app_assoc. change ("{" +:+ ?u) with (String "{" u). cbn [jvalue].
    rewrite skip_space_head by done. change (is_char "{" (char 34)) with false.
    change (is_char "{" "[") with false. change (is_char "{" "{") with true.
    cbv iota. destruct (Z.leb_spec d 0); [lia|]. destruct l as [|[k v] l].
    + change (commas (map _ []) +:+ "}" +:+ t) with ("}" +:+ t). by rewrite (next_char_head "}").
    + destruct (commas_head (map (λ p, print_string p.1 +:+ ":" +:+ print p.2) ((k, v) :: l)) _ _ "}" ("}" +:+ t) eq_refl)
        as (c & s & -> & ->); [by eexists _, _; split; [reflexivity|]|].
      rewrite jmembers_print by (done || lia). done.
Qed.

(** Every document is read back from its text. *)
Lemma parse_print v : wf_json maxNestingDepth v = true → parse (print v) = Some (Some v).
Proof.
  intros Hwf. unfold parse. pose proof (jvalue_print v maxNestingDepth (2 + 2 * String.length (print v))%nat "" Hwf I) as H.
  rewrite string_app_nil_r in H. by rewrite H by lia.
Qed.
