(* ===== verification/Payloads.v ===== *)
(** * Payloads

    The decoder of [Json] at the payload structs of [internal/handlers]: an
    instance of the class [Encoding] that [Handlers] is stated over. *)

From stdpp Require Import prelude gmap strings list pretty.
From Stdlib Require Import Ascii String Floats.SpecFloat.
From S2P Require Import Prelude GoBase Job Store Tracing Worker Config DurationText FilePath Handlers.
From S2P Require Import Fmt Flag Json JsonFacts.
#[local] Open Scope jq_scope.

(** The fields of the structs, by their tags. *)
Definition store_sum : struct_store slice := λ k v p,
  if matches "numbers" k then store_field "numbers" id (store_floats v p) else (p, None).

Definition store_write : struct_store writeFilePayload := λ k v p,
  if matches "name" k then
    store_field "name" (λ s, WriteFilePayload s (Content p)) (store_string v (Name p))
  else if matches "content" k then
    store_field "content" (λ s, WriteFilePayload (Name p) s) (store_string v (Content p))
  else (p, None).

Definition store_http : struct_store httpCheckPayload := λ k v p,
  if matches "url" k then
    store_field "url" (λ s, HttpCheckPayload s (TimeoutSeconds p)) (store_string v (URL p))
  else if matches "timeout_seconds" k then
    store_field "timeout_seconds" (λ n, HttpCheckPayload (URL p) n)
      (store_number int_of_lit v (TimeoutSeconds p))
  else (p, None).

#[export] Instance json_encoding `{JsonText} : Encoding := {|
  unmarshal_sum := λ s,
    let? p := Unmarshal store_sum (Slice [] 0) s in Ok (SumNumbersPayload (slice_elems p));
  unmarshal_write := Unmarshal store_write (WriteFilePayload "" "");
  unmarshal_http := Unmarshal store_http (HttpCheckPayload "" 0);
|}.

(** ** Payloads that clients build *)

Definition write_file_doc (name content : string) : json :=
  JObject [("name", JString name); ("content", JString content)].
Definition sum_doc (lits : list string) : json := JObject [("numbers", JArray (JNumber <$> lits))].
Definition http_doc (url : string) (timeout : Z) : json :=
  JObject [("url", JString url); ("timeout_seconds", JNumber (pretty timeout))].

Section facts.
Context `{JsonText}.

Lemma Unmarshal_object {A} (store : struct_store A) init l :
  wf_json maxNestingDepth (JObject l) = true →
  Unmarshal store init (print (JObject l)) =
  match store_members store l init None with (a, None) => Ok a | (_, Some err) => Err err end.
Proof. intros Hwf. unfold Unmarshal. by rewrite parse_print. Qed.

Lemma write_file_doc_wf name content :
  utf8 name = true → utf8 content = true → wf_json maxNestingDepth (write_file_doc name content) = true.
Proof. intros Hn Hc. simpl. by rewrite Hn, Hc. Qed.

Lemma write_file_doc_decode name content :
  utf8 name = true → utf8 content = true →
  unmarshal_write (print (write_file_doc name content)) = Ok (WriteFilePayload name content).
Proof.
  intros Hn Hc. pose proof (write_file_doc_wf name content Hn Hc) as Hwf. unfold write_file_doc in *.
  change (unmarshal_write ?s) with (Unmarshal store_write (WriteFilePayload "" "") s). by rewrite Unmarshal_object.
Qed.

(** A decimal is a JSON number. *)
Lemma digits_prefix_text ds : Forall digit ds → digits_prefix (digits_text ds "") = (digits_text ds "", "").
Proof.
  induction 1 as [|d ds Hd _ IH]; [done|].
  change (digits_text (d :: ds) "") with (String (digit_char d) (digits_text ds "")). cbn [digits_prefix].
  rewrite IH. assert (Json.is_digit (digit_char d) = true) as ->; [|done].
  apply digit_cases in Hd. destruct_or! Hd; by subst.
Qed.

Lemma number_pretty (z : Z) : number (pretty z) = Some (pretty z, "").
Proof.
  assert (∀ n, int_part (pretty (n : N)) = Some (pretty n, "") ∧
    ∃ d ds, pretty n = String (digit_char d) (digits_text ds "") ∧ digit d) as Hint.
  { intros n. destruct (pretty_decimal n) as (ds & [Hd Hv (d & ds' & -> & H0)] & Ht).
    specialize (Ht ""). rewrite string_app_nil_r in Ht. rewrite Ht. split.
    - pose proof Hd as Hd'. apply Forall_cons in Hd as [Hd _]. destruct (decide (d = 0)) as [->|Hne].
      + destruct (H0 eq_refl) as [_ ->]. reflexivity.
      + change (digits_text (d :: ds') "") with (String (digit_char d) (digits_text ds' "")) at 1.
        cbn [int_part]. rewrite is_char_digit by (done || by left).
        change (String (digit_char d) (digits_text ds' "")) with (digits_text (d :: ds') "").
        unfold digits1. by rewrite digits_prefix_text.
    - apply Forall_cons in Hd as [Hd _]. by exists d, ds'. }
  destruct z as [|p|p]; [done| |].
  - change (pretty (Z.pos p)) with (pretty (N.pos p)).
    destruct (Hint (N.pos p)) as [Hi (d & ds & Ep & Hd)]. unfold number. rewrite Ep in *.
    assert (is_char (digit_char d) "-" = false) as ->.
    { apply digit_cases in Hd. destruct_or! Hd; by subst. }
    rewrite Hi. cbn [mbind option_bind frac_part exp_part].
    change ("" +:+ "") with "". by rewrite string_app_nil_r.
  - change (pretty (Z.neg p)) with (String "-"%char (pretty (N.pos p))).
    destruct (Hint (N.pos p)) as [Hi _]. unfold number. cbv beta iota.
    change (is_char "-" "-") with true. cbv iota.
    rewrite Hi. cbn [mbind option_bind frac_part exp_part].
    change ("" +:+ "") with "". by rewrite string_app_nil_r.
Qed.

(** A decimal within an [int64] is read back by [strconv]'s integer parser. *)
Lemma parse_uint_text ds x :
  Forall digit ds → 0 ≤ x → digits_value x ds < 2 ^ 64 →
  parse_uint (digits_text ds "") x = Ok (digits_value x ds).
Proof.
  revert x. induction ds as [|d ds IH]; intros x Hd Hx Hv; [done|].
  apply Forall_cons in Hd as [Hd0 Hd]. pose proof (digit_of_char d Hd0) as E. unfold digit in Hd0.
  change (digits_value x (d :: ds)) with (digits_value (x * 10 + d) ds) in *.
  pose proof (digits_value_mono ds (x * 10 + d) Hd ltac:(lia)).
  change (digits_text (d :: ds) "") with (String (digit_char d) (digits_text ds "")).
  cbn [parse_uint]. rewrite E. change ((2 ^ 64 - 1) / 10 + 1) with 1844674407370955162.
  destruct (Z.leb_spec 1844674407370955162 x); [lia|].
  destruct (Z.ltb_spec (2 ^ 64 - 1) (x * 10 + d)); [lia|]. apply IH; [done|lia|done].
Qed.

Lemma parse_uint_pretty (n : N) :
  Z.of_N n < 2 ^ 64 → ∃ c s, pretty n = String c s ∧ parse_uint (pretty n) 0 = Ok (Z.of_N n) ∧
    c ≠ "-"%char ∧ c ≠ "+"%char.
Proof.
  intros Hn. destruct (pretty_decimal n) as (ds & [Hd Hv (d & ds' & -> & _)] & Ht).
  specialize (Ht ""). rewrite string_app_nil_r in Ht. rewrite Ht.
  exists (digit_char d), (digits_text ds' ""). rewrite parse_uint_text, Hv by (done || lia).
  split; [done|]. split; [done|]. apply Forall_cons in Hd as [Hd%digit_cases _].
  split; destruct_or! Hd; by subst.
Qed.

Lemma int_of_lit_pretty (z : Z) : - 2 ^ 63 ≤ z < 2 ^ 63 → int_of_lit (pretty z) = Some z.
Proof.
  intros Hz. unfold int_of_lit, atoi. destruct z as [|p|p]; [done| |].
  - change (pretty (Z.pos p)) with (pretty (N.pos p)).
    destruct (parse_uint_pretty (N.pos p) ltac:(lia)) as (c & s & E & Hp & H1 & H2). rewrite E in *.
    rewrite !bool_decide_false by done. rewrite Hp. cbn [bind_result].
    change (Z.of_N (N.pos p)) with (Z.pos p). by destruct (Z.leb_spec (2 ^ 63) (Z.pos p)); [lia|].
  - change (pretty (Z.neg p)) with (String "-"%char (pretty (N.pos p))).
    destruct (parse_uint_pretty (N.pos p) ltac:(lia)) as (c & s & E & Hp & H1 & H2).
    rewrite bool_decide_true by done. rewrite bool_decide_false by (by rewrite E). rewrite Hp. cbn [bind_result].
    change (Z.of_N (N.pos p)) with (Z.pos p). by destruct (Z.ltb_spec (2 ^ 63) (Z.pos p)); [lia|].
Qed.

Lemma http_doc_decode url timeout :
  utf8 url = true → - 2 ^ 63 ≤ timeout < 2 ^ 63 →
  unmarshal_http (print (http_doc url timeout)) = Ok (HttpCheckPayload url timeout).
Proof.
  intros Hu Ht. unfold http_doc.
  change (unmarshal_http ?s) with (Unmarshal store_http (HttpCheckPayload "" 0) s).
  rewrite Unmarshal_object.
  - cbn [store_members]. change (store_http "url" (JString url) ?p) with
      (HttpCheckPayload url (TimeoutSeconds p), @None (string * string)). cbv iota beta.
    change (store_http "timeout_seconds" (JNumber (pretty timeout)) ?p) with
      (store_field "timeout_seconds" (λ n, HttpCheckPayload (URL p) n)
        (store_number int_of_lit (JNumber (pretty timeout)) (TimeoutSeconds p))).
    cbn [store_number]. by rewrite int_of_lit_pretty.
  - cbn. rewrite Hu. rewrite bool_decide_true by apply number_pretty. done.
Qed.

(** Literals and the floats they denote. *)
Definition denotes (lit : string) (x : spec_float) : Prop :=
  number lit = Some (lit, "") ∧ float_of_lit lit = Some x.

Lemma store_elements_literals lits xs :
  Forall2 denotes lits xs → store_elements (JNumber <$> lits) [] = (xs, None).
Proof.
  induction 1 as [|lit x lits xs [_ Hx] _ IH]; [done|].
  rewrite fmap_cons. cbn [store_elements store_number]. rewrite Hx. cbn [tail]. by rewrite IH.
Qed.

Lemma sum_doc_decode lits xs :
  Forall2 denotes lits xs → unmarshal_sum (print (sum_doc lits)) = Ok (SumNumbersPayload xs).
Proof.
  intros Hl. unfold sum_doc.
  change (unmarshal_sum ?s) with
    (let? p := Unmarshal store_sum (Slice [] 0) s in Ok (SumNumbersPayload (slice_elems p))).
  rewrite Unmarshal_object.
  - cbn [store_members]. change (store_sum "numbers" ?v ?p) with (store_field "numbers" id (store_floats v p)).
    destruct lits as [|lit lits]; [inversion Hl; done|].
    pose proof (store_elements_literals _ _ Hl) as He. rewrite fmap_cons in *. cbn [store_floats backing]. rewrite He.
    cbn. unfold slice_elems. simpl. rewrite length_fmap. apply Forall2_length in Hl. simpl in Hl.
    rewrite (firstn_all2 xs) by (simpl; lia). done.
  - cbn [wf_json forallb]. apply andb_true_intro. split; [done|]. apply andb_true_intro. split; [|done].
    apply andb_true_intro. split; [done|]. cbn [snd]. apply andb_true_intro. split; [done|].
    apply forallb_forall. intros v Hv%list_elem_of_In.
    apply list_elem_of_fmap in Hv as (lit & -> & [i Hi]%list_elem_of_lookup).
    destruct (Forall2_lookup_l _ _ _ _ _ Hl Hi) as (x & _ & [Hn _]). simpl. by apply bool_decide_true.
Qed.

(** C38. Payloads round trip: for every name, content and URL of valid UTF-8, every
    [int64] timeout and every list of JSON number literals, the handlers decode
    the printed document back to exactly those values, so [sum_numbers] logs
    the sum of the literals' floats in order with their number; and the decoder
    answers on every input whatsoever, within its fuel. *)
Theorem payloads_roundtrip {O : Otel} :
  (∀ name content, utf8 name = true → utf8 content = true →
     unmarshal_write (print (write_file_doc name content)) = Ok (WriteFilePayload name content)) ∧
  (∀ url timeout, utf8 url = true → - 2 ^ 63 ≤ timeout < 2 ^ 63 →
     unmarshal_http (print (http_doc url timeout)) = Ok (HttpCheckPayload url timeout)) ∧
  (∀ lits xs ctx j wd, Forall2 denotes lits xs → lits ≠ [] → Payload j = print (sum_doc lits) →
     SumNumbers ctx j wd =
       (HOk, HWorld (hw_files wd) (hw_dirs wd)
               (hw_log wd ++ [SumLine (Job_ID j) (foldl float64_add (S754_zero false) xs)
                                (Z.of_nat (List.length lits))]))) ∧
  (∀ s, ∃ r, parse s = Some r).
Proof.
  split_and!; [apply write_file_doc_decode|apply http_doc_decode| |apply parse_total].
  intros lits xs ctx j wd Hl Hne Hp. unfold SumNumbers. rewrite Hp, (sum_doc_decode _ _ Hl).
  pose proof (Forall2_length _ _ _ Hl) as Hlen. cbn [Numbers]. rewrite bool_decide_false; [by rewrite Hlen|].
  intros E. apply Hne, length_zero_iff_nil. unfold length in E. lia.
Qed.

End facts.
