(* ===== verification/Cli.v ===== *)
(** * The command line

    The client subcommands of [cmd/jobqueue/main.go]: [enqueue], [status] and
    [watch] over gRPC, [dead-letters] and [analytics] on the databases.  A
    command prints lines and returns, exits with a code, panics, or waits; it is
    written in a small monad over the tables.  The calls that acquire a resource
    note it; what a command releases is a matter of the calls it defers, which
    run when its function returns or panics and which [os.Exit] skips. *)

From stdpp Require Import prelude gmap strings list pretty sorting.
From Stdlib Require Import Ascii String Floats.SpecFloat.
From S2P Require Import Prelude GoBase Job Store Tracing Worker GrpcServer Shipper Config Process Reports.
From S2P Require Import Percentiles Fmt Flag Json JsonFacts.
#[local] Open Scope jq_scope.

(** ** Commands *)

(** What a command acquires: the handler of the signals behind its context, the
    provider of its spans, the pool of a [Store], a gRPC connection, the
    connection of a ClickHouse [Client], the listener of the gRPC server and
    the server of the metrics. *)
Inductive resource : Type :=
| SignalNotify | TracerProvider | StorePool | ClientConn | ClickHouseConn | Listener | MetricsServer.

#[global] Instance resource_eq_dec : EqDecision resource.
Proof. solve_decision. Defined.

(** What a command does, in order: a line on standard output or standard error,
    the usage text of a flag set, a record of the logger, a call that acquires a
    resource, a [defer] of the call that releases one, and that call. *)
Inductive line : Type :=
| Out (s : string)
| ErrOut (s : string)
| UsageOf (flagset : string)
| Log (level : Level) (msg : string) (attrs : list (string * string))
| Acquired (r : resource)
| Deferred (r : resource)
| Released (r : resource).

Inductive ended (A : Type) : Type :=
| Returns (a : A)
| Exits (code : Z)
| Panics (msg : string)
| Waits.
Arguments Returns {A} _.
Arguments Exits {A} _.
Arguments Panics {A} _.
Arguments Waits {A}.

Definition cmd (A : Type) : Type := db → list line * ended A * db.

Definition ret {A} (a : A) : cmd A := λ s, ([], Returns a, s).

Definition bind {A B} (c : cmd A) (k : A → cmd B) : cmd B := λ s,
  match c s with
  | (l, Returns a, s) => let '(l', r, s) := k a s in (l ++ l', r, s)
  | (l, Exits code, s) => (l, Exits code, s)
  | (l, Panics msg, s) => (l, Panics msg, s)
  | (l, Waits, s) => (l, Waits, s)
  end.

Notation "'let!' x ':=' c 'in' k" := (bind c (λ x, k))
  (at level 10, x pattern, c at level 100, k at level 200) : jq_scope.

Definition say (l : line) : cmd unit := λ s, ([l], Returns tt, s).
Definition os_Exit {A} (code : Z) : cmd A := λ s, ([], Exits code, s).

(** [fmt.Fprintln(os.Stderr, msg); os.Exit(1)]. *)
Definition die {A} (msg : string) : cmd A := let! _ := say (ErrOut msg) in os_Exit 1.

Definition or_die {E A} (r : result E A) (msg : E → string) : cmd A :=
  match r with Ok a => ret a | Err e => die (msg e) end.

(** [logger.Error(msg, ...); os.Exit(1)]. *)
Definition fatal {A} (msg : string) (attrs : list (string * string)) : cmd A :=
  let! _ := say (Log LevelError msg attrs) in os_Exit 1.

Definition panics {A} (msg : string) : cmd A := λ s, ([], Panics msg, s).

Definition or_log {A} (r : result error A) (msg : string) (attrs : list (string * string)) : cmd A :=
  match r with
  | Ok a => ret a
  | Err e => fatal msg (attrs ++ [("error", Error e)])
  end.

Definition say_all (l : list line) : cmd unit := λ s, (l, Returns tt, s).

(** ** Resources and deferred calls *)

(** A call that acquires [r], unless it fails. *)
Definition acquire {E A} (r : resource) (x : result E A) : cmd (result E A) :=
  match x with
  | Ok _ => let! _ := say (Acquired r) in ret x
  | Err _ => ret x
  end.

(** [Store.Close], [Client.Close] of [internal/analytics], and the function that
    [dialClient] returns. *)
Definition store_Close : line := Released StorePool.
Definition client_Close : line := Released ClickHouseConn.
Definition closeConn : line := Released ClientConn.

(** The shutdown function of [tracing.Setup], and [stop] of
    [signal.NotifyContext]. *)
Definition shutdownTracing : line := Released TracerProvider.
Definition stop : line := Released SignalNotify.

Definition release (r : resource) : line :=
  match r with
  | SignalNotify => stop
  | TracerProvider => shutdownTracing
  | StorePool => store_Close
  | ClientConn => closeConn
  | ClickHouseConn => client_Close
  | Listener | MetricsServer => Released r
  end.

Definition defer (r : resource) : cmd unit := say (Deferred r).

Definition acquired (l : list line) : list resource :=
  omap (λ x, match x with Acquired r => Some r | _ => None end) l.
Definition deferred (l : list line) : list resource :=
  omap (λ x, match x with Deferred r => Some r | _ => None end) l.
Definition released (l : list line) : list resource :=
  omap (λ x, match x with Released r => Some r | _ => None end) l.

(** What a user or the logger sees. *)
Definition visible (x : line) : bool :=
  match x with Acquired _ | Deferred _ | Released _ => false | _ => true end.
Definition printed (l : list line) : list line := filter (λ x, visible x) l.

(** The body of a function: when it returns or panics its deferred calls run,
    the last one first. *)
Definition func {A} (body : cmd A) : cmd A := λ s,
  match body s with
  | (l, Returns a, s) => (l ++ (release <$> reverse (deferred l)), Returns a, s)
  | (l, Panics msg, s) => (l ++ (release <$> reverse (deferred l)), Panics msg, s)
  | (l, r, s) => (l, r, s)
  end.

(** The tables as the command reads them. *)
Definition read_db {A} (f : db → A) : cmd A := λ s, ([], Returns (f s), s).

(** ** What surrounds a command *)

(** The client side of gRPC: the error of a call as the client prints it, and
    the error for a message that is not valid UTF-8. *)
Class Grpc : Type := {
  rpc_text : rpc_error → string;
  marshal_text : string;
}.

(** A gRPC call: the error of [NewClient], the error of the transport with
    whether the server ran the call, and the server's own context and
    statement. *)
Record call_env (Sp : Type) : Type := CallEnv {
  ce_dial : option string;
  ce_fault : option (bool * string);
  ce_ctx : context Sp;
  ce_stmt : stmt_env;
}.
Arguments CallEnv {Sp} _ _ _ _.
Arguments ce_dial {Sp} _.
Arguments ce_fault {Sp} _.
Arguments ce_ctx {Sp} _.
Arguments ce_stmt {Sp} _.

(** pgxpool: parsing a connection string to a pool's configuration. *)
Record pool_config : Type := PoolConfig { MaxConns : Z }.
Class Pgx : Type := { ParseConfig : string → result string pool_config }.

(** Go leaves the conversion of a float out of range to the implementation. *)
Class GoArch : Type := { float_out_of_range : spec_float → Z }.

(** ** [store.New] and [analytics.NewClient] *)

(** [store.New]: the configuration of the pool, [create] being the error of
    [NewWithConfig].  [maxConns] of 0 keeps the pool's own default. *)
Definition store_New `{Pgx} (create : option string) (connString : string) (maxConns : Z) :
    cmd (result error pool_config) :=
  match ParseConfig connString with
  | Err t => ret (Err (EWrap "store: parsing connection string: " (EText t)))
  | Ok cfg =>
      let cfg := if 0 <? maxConns then PoolConfig maxConns else cfg in
      acquire StorePool
        match create with
        | Some t => Err (EWrap "store: creating pool: " (EText t))
        | None => Ok cfg
        end
  end.

(** [NewClient]: [clickhouse.Open] acquires the connection, and a failed [Ping]
    returns without closing it. *)
Definition NewClient (open ping : option string) : cmd (result error unit) :=
  let! conn := acquire ClickHouseConn (match open with Some t => Err t | None => Ok tt end) in
  match conn with
  | Err t => ret (Err (EWrap "analytics: opening connection: " (EText t)))
  | Ok _ =>
      match ping with
      | Some t => ret (Err (EWrap "analytics: ping: " (EText t)))
      | None => ret (Ok tt)
      end
  end.

Section client.
Context {Pg : Postgres} {O : Otel} {Q : Quoting} {G : Grpc}.
Implicit Types (cfg : Config) (args : list string).

(** [fs.Parse(args)] of a set with [flag.ExitOnError]. *)
Definition parse_flags (name : string) (fs : FlagSet) args : cmd FlagSet :=
  match Parse_loop fs args with
  | Ok (fs, _) => ret fs
  | Err e =>
      let! _ := say_all (match flag_error_text e with Some t => [ErrOut t] | None => [] end
                         ++ [UsageOf name]) in
      os_Exit (flag_exit e)
  end.

Definition dialClient (dial : option string) (addr : string) : cmd (result error unit) :=
  acquire ClientConn
    match dial with
    | Some t => Err (EWrap ("dialing " +:+ addr +:+ ": ") (EText t))
    | None => Ok tt
    end.

(** A unary call: a fault of the transport loses the answer. *)
Definition call {A} (ce : call_env span_context) (run : db → result rpc_error A * db) (s : db) :
    result string A * db :=
  match ce_fault ce with
  | Some (false, t) => (Err t, s)
  | Some (true, t) => (Err t, (run s).2)
  | None => let '(r, s) := run s in
            (match r with Ok a => Ok a | Err e => Err (rpc_text e) end, s)
  end.

Definition lift_call {A} (f : db → result string A * db) : cmd (result string A) :=
  λ s, let '(r, s) := f s in ([], Returns r, s).

Definition enqueue_flags : FlagSet := <["type" := VString ""]> (<["payload" := VString "{}"]> ∅).

(** A string field of a message must be valid UTF-8. *)
Definition client_Submit (ce : call_env span_context) (ty payload : string) : db → result string Z * db :=
  if utf8 ty
  then call ce (λ s, (Submit (ce_ctx ce) (ce_stmt ce) ty payload s).1)
  else λ s, (Err marshal_text, s).

Definition runEnqueue (ce : call_env span_context) cfg args : cmd unit := func (
  let! fs := parse_flags "enqueue" enqueue_flags args in
  let jobType := get_string fs "type" in
  let payload := get_string fs "payload" in
  if bool_decide (jobType = "") then die "enqueue: -type is required" else
  if negb (Valid payload) then die "enqueue: -payload is not valid JSON" else
  let! client := dialClient (ce_dial ce) (GRPCAddr cfg) in
  let! _ := or_die client (λ e, "enqueue: " +:+ Error e) in
  let! _ := defer ClientConn in
  let! r := lift_call (client_Submit ce jobType payload) in
  let! id := or_die r (λ t, "enqueue failed: " +:+ t) in
  say (Out ("enqueued job " +:+ pretty id +:+ " (type=" +:+ jobType +:+ ")"))).

Definition status_line (u : StatusUpdate) : string :=
  "job " +:+ pretty (Id u) +:+ ": status=" +:+ Upd_Status u +:+ " attempts=" +:+
  pretty (Upd_Attempts u) +:+ "/" +:+ pretty (Upd_MaxAttempts u) +:+ " last_error=" +:+ quote (Upd_LastError u).

Definition printStatusUpdate (u : StatusUpdate) : cmd unit := say (Out (status_line u)).

Definition id_flags : FlagSet := <["id" := VInt 0]> ∅.

Definition runStatus (ce : call_env span_context) cfg args : cmd unit := func (
  let! fs := parse_flags "status" id_flags args in
  let id := get_int fs "id" in
  if id =? 0 then die "status: -id is required" else
  let! client := dialClient (ce_dial ce) (GRPCAddr cfg) in
  let! _ := or_die client (λ e, "status: " +:+ Error e) in
  let! _ := defer ClientConn in
  let! r := lift_call (call ce (λ s, (Server_GetStatus (ce_ctx ce) (ce_stmt ce) id s, s))) in
  let! u := or_die r (λ t, "status failed: " +:+ t) in
  printStatusUpdate u).

(** What the client receives of a stream: all its messages and its end, or, when
    the transport breaks, the first [n] messages and the error. *)
Definition received (broken : option (nat * string)) (r : list StatusUpdate * watch_end) :
    list StatusUpdate * option (option string) :=
  match broken with
  | Some (n, t) => (take n r.1, Some (Some t))
  | None => (r.1, match r.2 with
                  | WatchOk => Some None
                  | WatchErr e => Some (Some (rpc_text e))
                  | Watching => None
                  end)
  end.

(** The loop over [stream.Recv]: [io.EOF] returns, another error exits. *)
Definition recv_loop (updates : list StatusUpdate) (eos : option (option string)) : cmd unit :=
  let! _ := say_all (Out ∘ status_line <$> updates) in
  match eos with
  | None => λ s, ([], Waits, s)
  | Some None => ret tt
  | Some (Some t) => die ("watch stream error: " +:+ t)
  end.

Definition runWatch (dial open : option string) (broken : option (nat * string))
    (turns : list watch_turn) cfg args : cmd unit := func (
  let! fs := parse_flags "watch" id_flags args in
  let id := get_int fs "id" in
  if id =? 0 then die "watch: -id is required" else
  let! client := dialClient dial (GRPCAddr cfg) in
  let! _ := or_die client (λ e, "watch: " +:+ Error e) in
  let! _ := defer ClientConn in
  match open with
  | Some t => die ("watch failed: " +:+ t)
  | None => let '(updates, eos) := received broken (WatchStatus id turns) in recv_loop updates eos
  end).

(** ** Reading the databases *)

Context {Px : Pgx} {Zn : Zone}.

Definition letter_line (dl : DeadLetter) : string :=
  "job " +:+ pretty (DL_JobID dl) +:+ " (type=" +:+ DL_Type dl +:+ ", attempts=" +:+ pretty (DL_Attempts dl)
  +:+ ", failed_at=" +:+ rfc3339 (DL_FailedAt dl / 1000000) +:+ "): " +:+ DL_LastError dl.

Definition dead_letter_flags : FlagSet := <["limit" := VInt 20]> ∅.

Definition runDeadLetters (create : option string) (ctx : context span_context) (e : stmt_env) cfg args : cmd unit := func (
  let! fs := parse_flags "dead-letters" dead_letter_flags args in
  let! st := store_New create (DatabaseURL cfg) (DBMaxConns cfg) in
  let! _ := or_die st (λ e, "dead-letters: " +:+ Error e) in
  let! _ := defer StorePool in
  let! r := read_db (ListDeadLetters ctx e (get_int fs "limit")) in
  let! letters := or_die r (λ e, "dead-letters failed: " +:+ Error e) in
  if bool_decide (List.length letters = 0%nat) then say (Out "no dead letters")
  else say_all (Out ∘ letter_line <$> letters)).

(** What surrounds [analytics]: the connection to ClickHouse, its query and table,
    its approximate aggregates, and the connection to Postgres. *)
Record analytics_env : Type := AnalyticsEnv {
  ae_open : option string;
  ae_ping : option string;
  ae_query : ch_query;
  ae_ch : list ch_row;
  ae_uniq : list string → Z;
  ae_quantile99 : list spec_float → spec_float;
  ae_create : option string;
  ae_ctx : context span_context;
  ae_stmt : stmt_env;
}.

Definition analytics_flags : FlagSet :=
  <["report" := VString ""]> (<["window" := VDuration Hour]> (<["bucket" := VDuration Minute]> ∅)).

Definition row3 (w2 w3 : nat) (a b c : string) : line :=
  Out (a +:+ " " +:+ pad_left w2 b +:+ " " +:+ pad_left w3 c).

Definition arrivals_row (r : ArrivalCompletion) : line :=
  row3 10 12 (pad_right 25 (rfc3339 (AC_Bucket r))) (pretty (Arrivals r)) (pretty (Completions r)).
Definition duration_row (r : DurationPercentile) : line :=
  row3 12 10 (pad_right 20 (DP_JobType r)) (fmt_f 3 (P99Seconds r)) (pretty (Samples r)).
Definition backlog_row (r : BacklogPoint) : line :=
  row3 14 18 (pad_right 25 (rfc3339 (BP_Bucket r))) (pretty (ActiveWorkers r)) (pretty (CumulativeBacklog r)).

Context {Ga : GoArch}.

(** [time.Duration(f)] for a [float64]. *)
Definition float_to_int64 (f : spec_float) : Z :=
  match f with
  | S754_zero _ | S754_finite _ _ _ =>
      let n := float_trunc f in if in_range (- 2 ^ 63) max_int64 n then n else float_out_of_range f
  | _ => float_out_of_range f
  end.

(** [completionsPerSec]. *)
Definition rates_per_sec (window : Z) (rates : list CompletionRate) : gmap string spec_float :=
  foldl (λ m r, <[CR_JobType r := SFdiv 53 1024 (float_of (CR_Completions r)) (Seconds window)]> m) ∅ rates.

Definition eta (e : DrainEstimate) : string :=
  if CanEstimate e
  then Duration_String (Duration_Round (float_to_int64 (SFmul 53 1024 (EstimatedSeconds e) (float_of Second))) Second)
  else "unknown (no recent completions)".

Definition drain_row (e : DrainEstimate) : line :=
  Out (pad_right 20 (DE_JobType e) +:+ " " +:+ pad_left 10 (pretty (Backlog e)) +:+ " " +:+
       pad_left 14 (fmt_f 4 (CompletionsPerSec e)) +:+ " " +:+ pad_left 16 (eta e)).

Definition analytics_error (e : error) : string := "analytics: " +:+ Error e.

(** The [drain-time] report: the live backlog of Postgres over the recent rates
    of ClickHouse. *)
Definition run_drain_time (ae : analytics_env) cfg (window : Z) : cmd unit :=
  let! st := store_New (ae_create ae) (DatabaseURL cfg) (DBMaxConns cfg) in
  let! _ := or_die st (λ e, "analytics: connecting to postgres: " +:+ Error e) in
  let! _ := defer StorePool in
  let! r := read_db (CountByStatusAndType (ae_ctx ae) (ae_stmt ae) "queued") in
  let! backlog := or_die r analytics_error in
  let! rates := or_die (RecentCompletionRates (ae_query ae) window (ae_ch ae)) analytics_error in
  say_all (Out (pad_right 20 "job_type" +:+ " " +:+ pad_left 10 "backlog" +:+ " " +:+
                pad_left 14 "rate_per_sec" +:+ " " +:+ pad_left 16 "eta")
           :: (drain_row <$> EstimateDrainTime backlog (rates_per_sec window rates))).

Definition runAnalytics (ae : analytics_env) cfg args : cmd unit := func (
  let! fs := parse_flags "analytics" analytics_flags args in
  let report := get_string fs "report" in
  let window := get_duration fs "window" in
  let bucket := get_duration fs "bucket" in
  let! ch := NewClient (ae_open ae) (ae_ping ae) in
  let! _ := or_die ch (λ e, "analytics: connecting to clickhouse: " +:+ Error e) in
  let! _ := defer ClickHouseConn in
  if bool_decide (report = "arrivals") then
    let! rows := or_die (ArrivalsVsCompletions (ae_query ae) window bucket (ae_ch ae)) analytics_error in
    say_all (row3 10 12 (pad_right 25 "bucket") "arrivals" "completions" :: (arrivals_row <$> rows))
  else if bool_decide (report = "duration") then
    let! rows := or_die (DurationPercentiles (ae_quantile99 ae) (ae_query ae) window (ae_ch ae)) analytics_error in
    say_all (row3 12 10 (pad_right 20 "job_type") "p99_seconds" "samples" :: (duration_row <$> rows))
  else if bool_decide (report = "backlog") then
    let! rows := or_die (BacklogVsWorkers (ae_uniq ae) (ae_query ae) window bucket (ae_ch ae)) analytics_error in
    say_all (row3 14 18 (pad_right 25 "bucket") "active_workers" "cumulative_backlog" :: (backlog_row <$> rows))
  else if bool_decide (report = "drain-time") then run_drain_time ae cfg window
  else die "analytics: -report must be one of: arrivals, duration, backlog, drain-time").

End client.
