(* ===== verification/Work.v ===== *)
(** * The server and worker processes

    [runServe] and [runWork] of [cmd/jobqueue/main.go]: the start-up sequences,
    and the goroutines of a worker process (N workers, the reaper and the
    shipper) as an interleaving step relation.  A step is what one goroutine
    does between two points where another process can act on the databases: one
    call of the store or of ClickHouse, one run of a handler, a wait, or a
    return.  Other processes take [pipe_step]s in between. *)

From stdpp Require Import prelude gmap strings list pretty relations sorting.
From S2P Require Import Prelude GoBase Job Store StoreFacts Steps Claim Invariant History.
From S2P Require Import Tracing Worker WorkerFacts Shipper ShipperFacts Handlers Config Process.
From S2P Require Import Metrics Fmt Flag Cli.
#[local] Open Scope jq_scope.

(** ** Start-up *)

(** [tracing.Setup]: the error of the exporter, or the provider of the spans. *)
Definition tracing_Setup (exporter : option string) : cmd (result error unit) :=
  acquire TracerProvider
    match exporter with
    | Some t => Err (EWrap "tracing: creating exporter: " (EText t))
    | None => Ok tt
    end.

(** [signal.NotifyContext]. *)
Definition NotifyContext : cmd unit := say (Acquired SignalNotify).

(** [net.Listen]. *)
Definition net_Listen (fault : option string) : cmd (result error unit) :=
  acquire Listener match fault with Some t => Err (EText t) | None => Ok tt end.

(** [Store.Ping]. *)
Definition store_Ping (fault : option string) : result error unit :=
  match fault with Some t => Err (EText t) | None => Ok tt end.

(** A failure of tracing is logged and nothing else; otherwise the caller's
    function defers the shutdown. *)
Definition start_tracing (exporter : option string) : cmd unit :=
  let! shutdownTracing := tracing_Setup exporter in
  match shutdownTracing with
  | Err e => say (Log LevelError "tracing setup failed, continuing without traces" [("error", Error e)])
  | Ok _ => defer TracerProvider
  end.

(** What a process meets when it starts. *)
Record boot_env : Type := BootEnv {
  be_tracing : option string;
  be_create : option string;
  be_ping : option string;
  be_listen : option string;
  be_metrics : option string;
  be_ch_open : option string;
  be_ch_ping : option string;
}.

(** How [grpcServer.Serve] ends: not yet, after the signal ([GracefulStop]), or
    with an error.  It closes its listener when it returns. *)
Inductive serve_end : Type :=
| Serving
| Stopped
| ServeFailed (t : string).

(** How [runWork] ends: it waits, or its goroutines have returned, with or
    without the metrics server already down. *)
Inductive work_end : Type :=
| Working
| Finished (metrics_down : bool).

(** A panic in a goroutine: the runtime prints it and the process exits with 2;
    the deferred calls of other goroutines do not run. *)
Definition goroutine_panics {A} (msg : string) : cmd A :=
  let! _ := say (ErrOut ("panic: " +:+ msg)) in os_Exit 2.

Section start.
Context {Px : Pgx} {Pr : Prometheus} {Q : Quoting}.
Implicit Types (be : boot_env) (cfg : Config).

Definition runServe be (se : serve_end) cfg : cmd unit := func (
  let! _ := NotifyContext in
  let! _ := defer SignalNotify in
  let! _ := start_tracing (be_tracing be) in
  let! st := store_New (be_create be) (DatabaseURL cfg) (DBMaxConns cfg) in
  let! _ := or_log st "failed to connect to database" [] in
  let! _ := defer StorePool in
  let! _ := or_log (store_Ping (be_ping be)) "database ping failed" [] in
  let! lis := net_Listen (be_listen be) in
  let! _ := or_log lis "failed to listen" [("addr", GRPCAddr cfg)] in
  let! _ := say (Log LevelInfo "gRPC server listening" [("addr", GRPCAddr cfg)]) in
  match se with
  | Serving => λ s, ([], Waits, s)
  | Stopped => say_all [Log LevelInfo "shutting down gRPC server" []; Released Listener;
                        Log LevelInfo "shutdown complete" []]
  | ServeFailed t =>
      let! _ := say (Released Listener) in fatal "gRPC server exited with error" [("error", t)]
  end).

(** What [runWork] has set up when it waits for its goroutines. *)
Record work_setup : Type := WorkSetup {
  su_workers : Z;
  su_pool : pool_config;
  su_shipper : bool;
}.

Definition work_flags cfg : FlagSet := <["workers" := VInt (WorkerCount cfg)]> ∅.

(** [int32(workerCount) + 4]. *)
Definition db_max_conns (workerCount : Z) : Z := int32 (int32 workerCount + 4).

(** The goroutine of [metricsServer.ListenAndServe]: a failure to listen is
    logged and nothing else.  It runs beside the rest of the start-up; here it
    comes first. *)
Definition serve_metrics (listen : option string) : cmd unit :=
  match listen with
  | Some t => say (Log LevelError "metrics server failed" [("error", t)])
  | None => say (Acquired MetricsServer)
  end.

(** The goroutine of [metricsServer.Shutdown], when it has come that far. *)
Definition shutdown_metrics (listen : option string) (metrics_down : bool) : cmd unit :=
  match listen with
  | None => if metrics_down then say (Released MetricsServer) else ret tt
  | Some _ => ret tt
  end.

(** [runWork] up to [g.Wait()]. *)
Definition startWork be cfg (args : list string) : cmd work_setup :=
  let! fs := parse_flags "work" (work_flags cfg) args in
  let workerCount := get_int fs "workers" in
  if workerCount <=? 0 then die ("work: -workers must be positive, got " +:+ pretty workerCount) else
  let! _ := NotifyContext in
  let! _ := defer SignalNotify in
  let! _ := start_tracing (be_tracing be) in
  let! st := store_New (be_create be) (DatabaseURL cfg) (db_max_conns workerCount) in
  let! pool := or_log st "failed to connect to database" [] in
  let! _ := defer StorePool in
  let! _ := or_log (store_Ping (be_ping be)) "database ping failed" [] in
  let! _ := match work_metrics with
            | Some _ => ret tt
            | None => panics "duplicate metrics collector registration attempted"
            end in
  let! _ := serve_metrics (be_metrics be) in
  let! _ := say (Log LevelInfo "metrics listening" [("addr", MetricsAddr cfg)]) in
  let! chClient := NewClient (be_ch_open be) (be_ch_ping be) in
  let! shipper :=
    match chClient with
    | Err e =>
        let! _ := say (Log LevelError "clickhouse unreachable, running without event shipping"
                         [("error", Error e)]) in ret false
    | Ok _ => let! _ := defer ClickHouseConn in ret true
    end in
  let! _ := say (Log LevelInfo "workers started" [("count", pretty workerCount)]) in
  ret (WorkSetup workerCount pool shipper).

(** The reaper and the shipper start their tickers; [time.NewTicker(d)] panics
    unless [d > 0]. *)
Definition start_tickers cfg (shipper : bool) : cmd unit :=
  if (ReapInterval cfg <=? 0) || shipper && (ShipInterval cfg <=? 0)
  then goroutine_panics "non-positive interval for NewTicker" else ret tt.

(** [runWork]: the goroutines all return nil, so once they have, the process
    logs and its function returns. *)
Definition runWork be cfg (args : list string) (we : work_end) : cmd unit := func (
  let! su := startWork be cfg args in
  let! _ := start_tickers cfg (su_shipper su) in
  match we with
  | Working => λ s, ([], Waits, s)
  | Finished metrics_down =>
      let! _ := shutdown_metrics (be_metrics be) metrics_down in
      say (Log LevelInfo "shutdown complete" [])
  end).

End start.

(** ** The goroutines *)

(** The reaper: before its ticker, at its [select], or returned. *)
Inductive rphase : Type := RStart | RSelect | RStopped.

(** The shipper: likewise, with the events of a cycle between its calls. *)
Inductive sphase : Type :=
| ShStart
| ShSelect
| ShInserting (events : list Event)
| ShMarking (events : list Event)
| ShStopped.

(** What the goroutines share: the databases, the handlers' world, and the
    metrics and spans emitted. *)
Record shared : Type := Shared {
  sh_pipe : pipe;
  sh_world : hworld;
  sh_out : list effect;
}.

Definition sh_db (x : shared) : db := p_pg (sh_pipe x).
Definition with_db (s : db) (x : shared) : shared :=
  Shared (Pipe s (p_ch (sh_pipe x))) (sh_world x) (sh_out x).
Definition add_out (l : list effect) (x : shared) : shared := Shared (sh_pipe x) (sh_world x) (sh_out x ++ l).

(** A worker's view of it, and what it leaves. *)
Definition wstate_of (x : shared) : wstate hworld := WState (sh_db x) (sh_world x) (sh_out x).
Definition seen (ch : list ch_row) (st : wstate hworld) : shared := Shared (Pipe (ws_db st) ch) (ws_world st) (ws_out st).

(** [fmt.Sprintf("worker-%d", i)]. *)
Definition worker_id (i : nat) : string := "worker-" +:+ pretty (N.of_nat i).

(** What an observer notes of a step: a call of [Claim] and the job it returned,
    a run of a handler and its error, a worker's report, another statement. *)
Inductive act : Type :=
| Tau
| ActClaim (lease : Z) (e : stmt_env) (j : option Job)
| ActRun (j : Job) (err : option error)
| ActReport (e : stmt_env) (j : Job)
| ActStmt (e : stmt_env).

Section goroutines.
Context {Pg : Postgres} {Ch : ClickHouse} {O : Otel} {En : Encoding} {Q : Quoting}.
Implicit Types (cfg : Config) (x : shared) (c : bool) (a : act).

(** Where a worker's loop is: at its head, calling [Claim], waiting after an
    empty poll, running the handler of a job, recording its outcome, or
    returned. *)
Inductive wphase : Type :=
| WHead (interval : Z)
| WClaiming (interval : Z)
| WWaiting (interval : Z)
| WHolding (j : Job)
| WReporting (ctx : context span_context) (j : Job) (err : option error)
| WStopped.

(** The job a worker has claimed and not reported. *)
Definition held_job (ph : wphase) : option Job :=
  match ph with WHolding j | WReporting _ j _ => Some j | _ => None end.

(** [worker.New]. *)
Definition worker_New (handler : Handler (W:=hworld)) (id : string)
    (lease poll maxPoll retryBase maxRetry : Z) : Worker (W:=hworld) :=
  MkWorker handler id lease poll maxPoll retryBase maxRetry.

(** The worker [i] of the loop in [runWork]. *)
Definition worker_of cfg (he : handler_env) (i : nat) : Worker (W:=hworld) :=
  worker_New (Dispatch (newHandlerRegistry he (WriteFileDir cfg))) (worker_id i)
    (LeaseDuration cfg) (PollInterval cfg) (MaxPollInterval cfg) (RetryBaseDelay cfg) (MaxRetryDelay cfg).

(** [process] up to the end of its execute span, and the rest of it. *)
Definition process_execute (w : Worker (W:=hworld)) (elapsed : Z) (ctx : context span_context) (j : Job)
    (st : wstate hworld) : option error * wstate hworld :=
  let execCtx := tracer_Start (job_ctx ctx j) "execute" in
  let '(err, wd) := execute w execCtx j (ws_world st) in
  (err, WState (ws_db st) wd (ws_out st ++
     [EObserve "job_duration_seconds" (Type_ j) elapsed; ESpan "execute" (ctx_trace execCtx) [] (Error <$> err)])).

Definition process_report (w : Worker (W:=hworld)) (pe : proc_env) (ctx : context span_context) (j : Job)
    (err : option error) (st : wstate hworld) : option (wstate hworld) :=
  let jobCtx := job_ctx ctx j in
  let endClaim := ESpan "claim" (ctx_trace jobCtx) (claim_attrs j) None in
  match err with
  | None =>
      let '(r, s) := Complete jobCtx (pe_stmt pe) (Job_ID j) (ws_db st) in
      Some (WState s (ws_world st) (ws_out st ++
        report_effects "complete" jobCtx "complete failed" r ++ [endClaim]))
  | Some err =>
      if MaxAttempts j <=? Attempts j then
        let '(r, s) := Fail jobCtx (pe_stmt pe) (Job_ID j) (Error err) (ws_db st) in
        Some (WState s (ws_world st) (ws_out st ++ EInc "dead_letters_total" (Type_ j) ::
          report_effects "fail" jobCtx "fail failed" r ++ [endClaim]))
      else
        match calculateRetryDelay w (pe_draw pe) j with
        | None => None
        | Some delay =>
            let '(r, s) := Retry jobCtx (pe_stmt pe) (Job_ID j) (pe_now pe + delay) (Error err) (ws_db st) in
            Some (WState s (ws_world st) (ws_out st ++ EInc "retries_total" (Type_ j) ::
              report_effects "retry" jobCtx "retry failed" r ++ [endClaim]))
        end
  end.

(** The phase, the outputs and the job after a call of [Claim]. *)
Definition after_claim (interval : Z) (r : result error (list Job)) : wphase :=
  match r with Ok (j :: _) => WHolding j | _ => WWaiting interval end.

Definition claim_out (elapsed : Z) (r : result error (list Job)) : list effect :=
  EObserve "claim_duration_seconds" "" elapsed ::
  match r with Ok _ => [] | Err err => [ELog "claim failed" (Error err)] end.

Definition claimed (r : result error (list Job)) : option Job :=
  match r with Ok jl => head jl | Err _ => None end.

(** One step of worker [i]; [c] says whether the process's context is done.  A
    call sees the cancellation only if it has happened. *)
Inductive worker_step cfg (i : nat) c : act → wphase → shared → wphase → shared → Prop :=
| ws_stop iv x : c = true → worker_step cfg i c Tau (WHead iv) x WStopped x
| ws_go iv x : c = false → worker_step cfg i c Tau (WHead iv) x (WClaiming iv) x
| ws_claim iv x (ctx : context span_context) e elapsed r s' :
    (c = false → ctx_err ctx = None) →
    Claim ctx e (worker_id i) (LeaseDuration cfg) 1 (sh_db x) = (r, s') →
    worker_step cfg i c (ActClaim (LeaseDuration cfg) e (claimed r))
      (WClaiming iv) x (after_claim iv r) (add_out (claim_out elapsed r) (with_db s' x))
| ws_done iv x : c = true → worker_step cfg i c Tau (WWaiting iv) x WStopped x
| ws_wake iv x :
    worker_step cfg i c Tau (WWaiting iv) x (WHead (next_interval (MaxPollInterval cfg) iv)) (add_out [EWait iv] x)
| ws_execute j x he (ctx : context span_context) elapsed err st' :
    process_execute (worker_of cfg he i) elapsed ctx j (wstate_of x) = (err, st') →
    worker_step cfg i c (ActRun j err) (WHolding j) x (WReporting ctx j err) (seen (p_ch (sh_pipe x)) st')
| ws_report j x he (ctx : context span_context) err pe st' :
    draw_ok (pe_draw pe) →
    process_report (worker_of cfg he i) pe ctx j err (wstate_of x) = Some st' →
    worker_step cfg i c (ActReport (pe_stmt pe) j) (WReporting ctx j err) x
      (WHead (PollInterval cfg)) (seen (p_ch (sh_pipe x)) st').

(** [runReaper]. *)
Inductive reaper_step c : act → rphase → shared → rphase → shared → Prop :=
| rs_done x : c = true → reaper_step c Tau RSelect x RStopped x
| rs_tick x (ctx : context span_context) e r s' :
    (c = false → ctx_err ctx = None) →
    ReapExpiredLeases ctx e (sh_db x) = (r, s') → reaper_step c (ActStmt e) RSelect x RSelect (with_db s' x).

(** [RunShipper] and the calls of [shipOnce]. *)
Inductive shipper_step cfg c : act → sphase → shared → sphase → shared → Prop :=
| ss_done x : c = true → shipper_step cfg c Tau ShSelect x ShStopped x
| ss_fetch x (ctx : context span_context) e r :
    (c = false → ctx_err ctx = None) →
    FetchUnshippedEvents ctx e (ShipBatchSize cfg) (sh_db x) = r →
    shipper_step cfg c Tau ShSelect x
      (match r with Ok (ev :: evs) => ShInserting (ev :: evs) | _ => ShSelect end) x
| ss_insert events x ce r ch' :
    InsertEvents ce events (p_ch (sh_pipe x)) = (r, ch') →
    shipper_step cfg c Tau (ShInserting events) x
      (match r with Ok _ => ShMarking events | Err _ => ShSelect end)
      (Shared (Pipe (sh_db x) ch') (sh_world x) (sh_out x))
| ss_mark events x (ctx : context span_context) e r s' :
    (c = false → ctx_err ctx = None) →
    MarkEventsShipped ctx e (ID <$> events) (sh_db x) = (r, s') →
    shipper_step cfg c (ActStmt e) (ShMarking events) x ShSelect (with_db s' x).

(** ** The process *)

Record proc : Type := Proc {
  pr_shared : shared;
  pr_cancelled : bool;
  pr_crashed : bool;
  pr_workers : list wphase;
  pr_reaper : rphase;
  pr_shipper : option sphase;
}.

(** A step of the process itself: the signal, or a step of one of its
    goroutines.  [time.NewTicker(d)] panics unless [d > 0], and a panic in a
    goroutine ends the process. *)
Inductive own_step cfg : act → proc → proc → Prop :=
| ps_cancel x c ws r sh :
    own_step cfg Tau (Proc x c false ws r sh) (Proc x true false ws r sh)
| ps_worker a i ph ph' x x' c ws r sh :
    ws !! i = Some ph → worker_step cfg i c a ph x ph' x' →
    own_step cfg a (Proc x c false ws r sh) (Proc x' c false (<[i := ph']> ws) r sh)
| ps_reaper_start x c ws sh :
    own_step cfg Tau (Proc x c false ws RStart sh) (Proc x c (ReapInterval cfg <=? 0) ws RSelect sh)
| ps_reaper a r r' x x' c ws sh :
    reaper_step c a r x r' x' → own_step cfg a (Proc x c false ws r sh) (Proc x' c false ws r' sh)
| ps_shipper_start x c ws r :
    own_step cfg Tau (Proc x c false ws r (Some ShStart))
      (Proc x c (ShipInterval cfg <=? 0) ws r (Some ShSelect))
| ps_shipper a p p' x x' c ws r :
    shipper_step cfg c a p x p' x' →
    own_step cfg a (Proc x c false ws r (Some p)) (Proc x' c false ws r (Some p')).

(** The process among others. *)
Inductive proc_step cfg : proc → proc → Prop :=
| ps_own a y y' : own_step cfg a y y' → proc_step cfg y y'
| ps_other p p' wd out c ws r sh :
    pipe_step p p' →
    proc_step cfg (Proc (Shared p wd out) c false ws r sh) (Proc (Shared p' wd out) c false ws r sh).

(** The process when [g.Wait()] starts to wait. *)
Definition work_init cfg (su : work_setup) (x : shared) : proc :=
  Proc x false false (replicate (Z.to_nat (su_workers su)) (WHead (PollInterval cfg))) RStart
    (if su_shipper su then Some ShStart else None).

(** [g.Wait()] returns. *)
Definition all_returned (y : proc) : Prop :=
  Forall (λ ph, ph = WStopped) (pr_workers y) ∧ pr_reaper y = RStopped ∧
  (pr_shipper y = None ∨ pr_shipper y = Some ShStopped).

End goroutines.

#[export] Hint Constructors own_step proc_step : jq.
