(* ===== verification/WorkFacts.v ===== *)
(** * What a worker process guarantees

    Any interleaving of its goroutines with each other and with other processes
    keeps the databases reachable and gives every attempt to one worker at most;
    after a signal the process finishes what it holds and returns. *)

From stdpp Require Import prelude gmap strings list pretty relations sorting.
From S2P Require Import Prelude GoBase Job Store StoreFacts Steps Claim Invariant History.
From S2P Require Import Tracing Worker WorkerFacts Shipper ShipperFacts Handlers Config Process Demo.
From S2P Require Import Metrics Fmt Flag Cli Work.
#[local] Open Scope jq_scope.

Section facts.
Context {Pg : Postgres} {Ch : ClickHouse} {O : Otel} {En : Encoding} {Q : Quoting}.
Implicit Types (cfg : Config) (x : shared) (y : proc) (c : bool).

#[global] Instance stopped_dec (ph : wphase) : Decision (ph = WStopped).
Proof. destruct ph; (by left) || (by right). Defined.

(** ** The halves of a job *)

(** [process] is its two halves. *)
Lemma process_split (w : Worker (W:=hworld)) pe ctx j st :
  process w pe ctx j st =
  process_report w pe ctx j (process_execute w (pe_elapsed pe) ctx j st).1
    (process_execute w (pe_elapsed pe) ctx j st).2.
Proof.
  unfold process, process_execute, process_report. fold (job_ctx ctx j).
  destruct (execute _ _ _ _) as [[err|] wd]; cbn [fst snd ws_db ws_world ws_out].
  - case_match.
    + destruct (Fail _ _ _ _ _). by rewrite <-app_assoc.
    + case_match; [|done]. destruct (Retry _ _ _ _ _ _). by rewrite <-app_assoc.
  - destruct (Complete _ _ _ _). by rewrite <-app_assoc.
Qed.

Lemma process_execute_db (w : Worker (W:=hworld)) elapsed ctx j st err st' :
  process_execute w elapsed ctx j st = (err, st') → ws_db st' = ws_db st.
Proof. unfold process_execute. destruct (execute _ _ _ _). by intros [= _ <-]. Qed.

(** A report is one call, of a statement that the outcome and the attempts
    choose. *)
Lemma process_report_stmt (w : Worker (W:=hworld)) pe ctx j err st st' :
  process_report w pe ctx j err st = Some st' →
  ws_db st' = ws_db st ∨
  match err with
  | None => stmt_complete (Job_ID j) (pe_stmt pe) (ws_db st) = Ok (tt, ws_db st')
  | Some _ =>
      if decide (MaxAttempts j ≤ Attempts j)
      then ∃ msg, stmt_fail (Job_ID j) msg (pe_stmt pe) (ws_db st) = Ok (tt, ws_db st')
      else ∃ t msg, stmt_retry (Job_ID j) t msg (pe_stmt pe) (ws_db st) = Ok (tt, ws_db st')
  end.
Proof.
  unfold process_report. destruct err as [err|].
  - destruct (Z.leb_spec (MaxAttempts j) (Attempts j)).
    + destruct (Fail _ _ _ _ _) as [r s] eqn:E. intros [= <-]. rewrite decide_True by done.
      apply run_stmt_atomic in E as [->|([] & Hs)]; [by left|right; by eauto].
    + case_match; [|done]. destruct (Retry _ _ _ _ _ _) as [r s] eqn:E. intros [= <-].
      rewrite decide_False by lia. apply run_stmt_atomic in E as [->|([] & Hs)]; [by left|right; by eauto].
  - destruct (Complete _ _ _ _) as [r s] eqn:E. intros [= <-].
    apply run_stmt_atomic in E as [->|([] & Hs)]; [by left|by right].
Qed.

Lemma process_report_total (w : Worker (W:=hworld)) pe ctx j err st :
  draw_ok (pe_draw pe) → ∃ st', process_report w pe ctx j err st = Some st'.
Proof.
  intros Hd. unfold process_report. destruct err; [|destruct (Complete _ _ _ _); eauto].
  case_match; [destruct (Fail _ _ _ _ _); eauto|].
  destruct (retry_delay_range w (pe_draw pe) j Hd) as (d & -> & _). destruct (Retry _ _ _ _ _ _). eauto.
Qed.

(** ** Steps on the databases *)

Lemma call_queue_steps {A} (ctx : context span_context) e p (body : stmt A) s r s' ch :
  run_stmt ctx e p body s = (r, s') → (∀ b s', body e s = Ok (b, s') → queue_step s s') →
  rtc pipe_step (Pipe s ch) (Pipe s' ch).
Proof.
  intros [->|(a & Ha)]%run_stmt_atomic Hb; [done|]. apply rtc_once, pipe_queue. eauto.
Qed.

Lemma report_pipe_steps (w : Worker (W:=hworld)) pe ctx j err st st' ch :
  process_report w pe ctx j err st = Some st' → rtc pipe_step (Pipe (ws_db st) ch) (Pipe (ws_db st') ch).
Proof.
  intros [->|H]%process_report_stmt; [done|]. apply rtc_once, pipe_queue. destruct err.
  - case_decide; [destruct H as [msg H]; by eapply queue_fail|]. destruct H as (t & msg & H). by eapply queue_retry.
  - by eapply queue_complete.
Qed.

Lemma worker_step_pipe cfg i c a ph x ph' x' :
  worker_step cfg i c a ph x ph' x' → rtc pipe_step (sh_pipe x) (sh_pipe x').
Proof.
  destruct 1 as [| |iv [[s ch] wd out] ctx e elapsed r s' _ Hc| | |j [[s ch] wd out] he ctx elapsed err st' Hp
    |j [[s ch] wd out] he ctx err pe st' _ Hp]; simpl; try done.
  - eapply call_queue_steps; [exact Hc|]. intros. by eapply queue_claim.
  - by rewrite (process_execute_db _ _ _ _ _ _ _ Hp).
  - by apply (report_pipe_steps _ _ _ _ _ _ _ ch) in Hp.
Qed.

Lemma reaper_step_pipe c a r x r' x' : reaper_step c a r x r' x' → rtc pipe_step (sh_pipe x) (sh_pipe x').
Proof.
  destruct 1 as [|[[s ch] wd out] ctx e r s' _ Hc]; simpl; [done|].
  eapply call_queue_steps; [exact Hc|]. intros. by eapply queue_reap.
Qed.

(** ** The invariant *)

(** A claim event of the outbox for the attempt [j], by worker [i]. *)
Definition logged (s : db) (i : nat) (j : Job) : Prop :=
  ∃ ev, ev ∈ outbox s ∧ Event_EventType ev = EventClaimed ∧ JobID ev = Job_ID j ∧
    Event_Attempts ev = Attempts j ∧ WorkerID ev = worker_id i.

(** What the shipper knows between its calls. *)
Definition shipper_ok (p : pipe) (sh : option sphase) : Prop :=
  match sh with
  | Some (ShInserting evs) => ∀ ev, ev ∈ evs → ev ∈ outbox (p_pg p)
  | Some (ShMarking evs) => ∀ ev, ev ∈ evs → ev ∈ outbox (p_pg p) ∧ ch_of ev ∈ p_ch p
  | _ => True
  end.

Definition holds (y : proc) (i : nat) (j : Job) : Prop := pr_workers y !! i ≫= held_job = Some j.

Record proc_inv (y : proc) : Prop := ProcInv {
  pv_pipe : pipe_reachable (sh_pipe (pr_shared y));
  pv_logged : ∀ i j, holds y i j → logged (sh_db (pr_shared y)) i j;
  pv_distinct : ∀ i k a b, holds y i a → holds y k b →
    Job_ID a = Job_ID b → Attempts a = Attempts b → i = k;
  pv_shipper : shipper_ok (sh_pipe (pr_shared y)) (pr_shipper y);
}.

Lemma logged_prefix s s' i j : outbox s `prefix_of` outbox s' → logged s i j → logged s' i j.
Proof. intros Hp (ev & Hin & H). exists ev. split; [by eapply elem_of_prefix|done]. Qed.

Lemma shipper_ok_grows p p' sh :
  outbox (p_pg p) `prefix_of` outbox (p_pg p') → p_ch p `prefix_of` p_ch p' →
  shipper_ok p sh → shipper_ok p' sh.
Proof.
  intros Ho Hc. destruct sh as [[| |evs|evs|]|]; simpl; try done.
  - intros H ev Hev. eapply elem_of_prefix; [by apply H|done].
  - intros H ev Hev. destruct (H ev Hev) as [? ?]. split; by eapply elem_of_prefix.
Qed.

(** A claim is of an attempt that no event of the outbox had claimed before. *)
Lemma Claim_fresh (ctx : context span_context) e i lease s j l s' :
  reachable s → Claim ctx e (worker_id i) lease 1 s = (Ok (j :: l), s') →
  logged s' i j ∧ ∀ k j', logged s k j' → Job_ID j' = Job_ID j → Attempts j' ≠ Attempts j.
Proof.
  intros Hr Hc. pose proof Hc as Hc0. apply run_stmt_ok in Hc.
  assert (reachable s') as Hr'.
  { unfold reachable in *. eapply rtc_r; [exact Hr|]. by eapply step_claim. }
  apply stmt_claim_effect in Hc as (iv & rows & _ & _ & _ & Hjl & _ & [_ _ _ (k0 & Hev & _ & _) _ _]).
  destruct rows as [|p rows]; [done|]. injection Hjl as -> _.
  assert (outbox s' = outbox s ++ (ev_event <$> number_events (env_now e) k0 (claim_event (worker_id i) <$> (p :: rows)))) as Ho.
  { unfold outbox. by rewrite Hev, fmap_app. }
  set (ev0 := ev_event (event_of (env_now e) k0 (claim_event (worker_id i) p))).
  assert (ev0 ∈ ev_event <$> number_events (env_now e) k0 (claim_event (worker_id i) <$> (p :: rows))) as Hin.
  { simpl. by left. }
  split.
  - exists ev0. split; [rewrite Ho; apply elem_of_app; by right|done].
  - intros k j' (ev & Hev' & Het & Hid & Ha & _) Eid Eat.
    apply history_reachable, replay_claims_NoDup in Hr' as [Hnd _].
    rewrite Ho, filter_app, fmap_app in Hnd. apply NoDup_app in Hnd as (_ & Hdis & _).
    apply (Hdis (JobID ev, Event_Attempts ev)).
    + apply list_elem_of_fmap. exists ev. split; [done|]. by apply list_elem_of_filter.
    + apply list_elem_of_fmap. exists ev0. split; [|by apply list_elem_of_filter].
      by rewrite Hid, Ha, Eid, Eat.
Qed.

(** Steps that leave the phases of the workers and the shipper alone. *)
Lemma proc_inv_grow x x' c c' cr cr' ws r r' sh :
  rtc pipe_step (sh_pipe x) (sh_pipe x') →
  proc_inv (Proc x c cr ws r sh) → proc_inv (Proc x' c' cr' ws r' sh).
Proof.
  intros Hs [Hp Hl Hd Hsh]. simpl in *.
  destruct (pipe_steps_spec _ _ (pipe_reachable_inv _ Hp) Hs) as (_ & Ho & Hc).
  split; simpl.
  - unfold pipe_reachable in *. by etrans.
  - intros i j Hij. eapply logged_prefix; [exact Ho|]. by apply Hl.
  - exact Hd.
  - by eapply shipper_ok_grows.
Qed.

(** The job of a worker after a step: none, the one it had, or a fresh
    attempt. *)
Lemma worker_step_holding cfg i c a ph x ph' x' j :
  pipe_reachable (sh_pipe x) → worker_step cfg i c a ph x ph' x' → held_job ph' = Some j →
  held_job ph = Some j ∨
  logged (sh_db x') i j ∧ ∀ k b, logged (sh_db x) k b → Job_ID b = Job_ID j → Attempts b ≠ Attempts j.
Proof.
  intros Hp Hs Hph. destruct Hs as [| |iv [[s ch] wd out] ctx e elapsed r s' _ Hc| | | |]; try done; [|by left].
  destruct r as [[|j0 l]|err]; simpl in Hph; try done. injection Hph as ->. simpl in *.
  right. eapply Claim_fresh; [|exact Hc]. by apply (pipe_reachable_db _ Hp).
Qed.

(** A worker moves to a phase in which it holds nothing, the job it held, or a
    fresh attempt. *)
Lemma proc_inv_worker i ph x c cr ws r sh :
  (∀ j, held_job ph = Some j → ws !! i ≫= held_job = Some j ∨ logged (sh_db x) i j ∧
     ∀ k b, k ≠ i → ws !! k ≫= held_job = Some b → Job_ID b = Job_ID j → Attempts b ≠ Attempts j) →
  proc_inv (Proc x c cr ws r sh) → proc_inv (Proc x c cr (<[i := ph]> ws) r sh).
Proof.
  intros Hph [Hp Hl Hd Hsh]. unfold holds in *. simpl in *.
  assert (∀ k j, (<[i := ph]> ws) !! k ≫= held_job = Some j →
    ws !! k ≫= held_job = Some j ∨ k = i ∧ logged (sh_db x) i j ∧
      ∀ k b, k ≠ i → ws !! k ≫= held_job = Some b → Job_ID b = Job_ID j → Attempts b ≠ Attempts j) as Hlk.
  { intros k j (ph1 & [(-> & <- & _)|[Hne Hk]]%list_lookup_insert_Some & Hj)%bind_Some.
    - destruct (Hph j Hj) as [?|?]; auto.
    - left. by rewrite Hk. }
  split; simpl; [done| | |done].
  - intros k j [Hk|(-> & Hk & _)]%Hlk; [by apply Hl|done].
  - intros k1 k2 b1 b2 H1%Hlk H2%Hlk Eid Eat. destruct (decide (k1 = k2)) as [|Hne]; [done|]. exfalso.
    destruct H1 as [H1|(-> & _ & H1)], H2 as [H2|(-> & _ & H2)]; [|by eapply H2|by eapply H1|done].
    by apply Hne, (Hd k1 k2 b1 b2).
Qed.

Lemma proc_inv_worker_step cfg i c a ph x ph' x' cr ws r sh :
  ws !! i = Some ph → worker_step cfg i c a ph x ph' x' →
  proc_inv (Proc x c cr ws r sh) → proc_inv (Proc x' c cr (<[i := ph']> ws) r sh).
Proof.
  intros Hi Hs Hinv. pose proof (pv_pipe _ Hinv) as Hp. simpl in Hp. apply proc_inv_worker.
  - intros j Hph. rewrite Hi. destruct (worker_step_holding _ _ _ _ _ _ _ _ _ Hp Hs Hph) as [Hj|[Hl Hf]]; [by left|].
    right. split; [done|]. intros k b _ Hk. apply Hf with k. by apply (pv_logged _ Hinv).
  - eapply proc_inv_grow; [by eapply worker_step_pipe|exact Hinv].
Qed.

(** The shipper's cycle, call by call. *)
Lemma shipper_step_spec cfg c a p x p' x' :
  pipe_reachable (sh_pipe x) → shipper_ok (sh_pipe x) (Some p) → shipper_step cfg c a p x p' x' →
  rtc pipe_step (sh_pipe x) (sh_pipe x') ∧ shipper_ok (sh_pipe x') (Some p').
Proof.
  intros Hr Hok Hs. pose proof (pipe_reachable_inv _ Hr) as Hi.
  destruct Hs as [x|x ctx e r _ Hf|evs [[s ch] wd out] ce r ch' Hins|evs [[s ch] wd out] ctx e r s' _ Hm]; simpl in *.
  - done.
  - split; [done|]. destruct r as [[|ev evs]|err]; try done.
    intros ev' Hev'. eapply fetched_in_outbox; [apply Hi|exact Hf|done].
  - apply InsertEvents_spec in Hins as (rows & -> & Hrows & Hall). split.
    + apply rtc_once, pipe_insert. eapply Forall_impl; [exact Hrows|].
      intros c' (ev & Hev & ->). exists ev. split; [by apply Hok|done].
    + destruct r as [[]|err]; [|done]. rewrite (Hall eq_refl). intros ev Hev. split; [by apply Hok|].
      apply elem_of_app. right. apply list_elem_of_fmap. eauto.
  - split; [|done]. eapply mark_pipe_step; [|exact Hm].
    intros ev Hev (ev' & Hid & Hev')%list_elem_of_fmap. destruct (Hok _ Hev') as [Ho Hc].
    assert (ev = ev') as ->; [|done]. eapply outbox_id_inj; [apply Hi|done|done|done].
Qed.

Lemma proc_inv_own cfg a y y' : proc_inv y → own_step cfg a y y' → proc_inv y'.
Proof.
  intros Hinv Hs. destruct Hs as
    [x c ws r sh|a i ph ph' x x' c ws r sh Hi Hs|x c ws sh|a r r' x x' c ws sh Hs|x c ws r|a p p' x x' c ws r Hs].
  - by eapply proc_inv_grow.
  - by eapply proc_inv_worker_step.
  - by eapply proc_inv_grow.
  - eapply proc_inv_grow; [by eapply reaper_step_pipe|exact Hinv].
  - destruct Hinv. by split.
  - pose proof (pv_pipe _ Hinv) as Hp. pose proof (pv_shipper _ Hinv) as Hok. simpl in *.
    destruct (shipper_step_spec _ _ _ _ _ _ _ Hp Hok Hs) as [Hst Hok'].
    destruct (proc_inv_grow x x' c c false false ws r r (Some p) Hst Hinv) as [H1 H2 H3 _].
    by split.
Qed.

Lemma proc_inv_step cfg y y' : proc_inv y → proc_step cfg y y' → proc_inv y'.
Proof.
  intros Hinv Hst. destruct Hst as [a y1 y2 Hs|p p' wd out c ws r sh Hs]; [by eapply proc_inv_own|].
  eapply proc_inv_grow; [|exact Hinv]. by apply rtc_once.
Qed.

Lemma proc_inv_init cfg su x : pipe_reachable (sh_pipe x) → proc_inv (work_init cfg su x).
Proof.
  intros Hp. split; simpl; [done| | |by destruct (su_shipper su)].
  - by intros i j (ph & [-> _]%lookup_replicate & ?)%bind_Some.
  - by intros i k a b (ph & [-> _]%lookup_replicate & ?)%bind_Some.
Qed.

Lemma proc_inv_steps cfg y y' : proc_inv y → rtc (proc_step cfg) y y' → proc_inv y'.
Proof. intros Hi. induction 1 as [|y y1 y' Hs _ IH]; [done|]. apply IH. by eapply proc_inv_step. Qed.

(** A worker process is safe under every interleaving of its workers, reaper
    and shipper with each other and with any other processes: the databases
    stay reachable, so every property of the tables and of the delivery holds
    while it runs, and no two of its workers ever hold the same attempt of a
    job; each held attempt has its claim event under that worker's name. *)
Theorem work_process_safe cfg su x y :
  pipe_reachable (sh_pipe x) → rtc (proc_step cfg) (work_init cfg su x) y →
  pipe_reachable (sh_pipe (pr_shared y)) ∧ reachable (sh_db (pr_shared y)) ∧
  (∀ i j, pr_workers y !! i ≫= held_job = Some j → logged (sh_db (pr_shared y)) i j) ∧
  (∀ i k a b, i ≠ k → pr_workers y !! i ≫= held_job = Some a → pr_workers y !! k ≫= held_job = Some b →
     (Job_ID a, Attempts a) ≠ (Job_ID b, Attempts b)).
Proof.
  intros Hp Hs. destruct (proc_inv_steps _ _ _ (proc_inv_init cfg su x Hp) Hs) as [H1 H2 H3 _].
  split_and!; [done|by apply pipe_reachable_db|done|].
  intros i k a b Hne Ha Hb [= Eid Eat]. by apply Hne, (H3 i k a b).
Qed.

(** ** Shutdown *)

(** How many steps a worker may still take once the context is done. *)
Definition rank (ph : wphase) : nat :=
  match ph with WStopped => 0 | WHead _ => 1 | WWaiting _ | WReporting _ _ _ => 2 | WHolding _ => 3 | WClaiming _ => 4 end.

Definition total_rank (ws : list wphase) : nat := sum_list_with rank ws.

Lemma worker_step_rank cfg i a ph x ph' x' : worker_step cfg i true a ph x ph' x' → (rank ph' < rank ph)%nat.
Proof.
  destruct 1 as [| |iv x ctx e elapsed r s' _ _| | | |]; simpl; try lia.
  destruct r as [[|j l]|err]; simpl; lia.
Qed.

Lemma total_rank_insert ws i ph ph' :
  ws !! i = Some ph → (total_rank (<[i := ph']> ws) + rank ph = total_rank ws + rank ph')%nat.
Proof.
  unfold total_rank. revert i. induction ws as [|p ws IH]; intros [|i] Hi; simplify_eq/=; [lia|].
  specialize (IH _ Hi). lia.
Qed.

(** Once the signal has come, a step of a worker uses up rank and any other step
    leaves the workers alone. *)
Lemma shutdown_step cfg y y' :
  pr_cancelled y = true → proc_step cfg y y' →
  pr_cancelled y' = true ∧
  (pr_workers y' = pr_workers y ∨ (total_rank (pr_workers y') < total_rank (pr_workers y))%nat).
Proof.
  intros Hc Hst. destruct Hst as [a y1 y2 Hs|p p' wd out c ws r sh Hs]; [|by auto]. destruct Hs as
    [x c ws r sh|a i ph ph' x x' c ws r sh Hi Hs|x c ws sh|a r r' x x' c ws sh Hs|x c ws r|a p p' x x' c ws r Hs];
    simpl in *; subst; try by auto.
  split; [done|]. right. apply worker_step_rank in Hs. pose proof (total_rank_insert _ _ _ ph' Hi). lia.
Qed.

(** A run of the process; [n] counts the steps its workers took. *)
Inductive proc_run cfg : nat → proc → proc → Prop :=
| run_nil y : proc_run cfg 0 y y
| run_other n y y1 y' :
    proc_step cfg y y1 → pr_workers y1 = pr_workers y → proc_run cfg n y1 y' → proc_run cfg n y y'
| run_worker n y y1 y' :
    proc_step cfg y y1 → pr_workers y1 ≠ pr_workers y → proc_run cfg n y1 y' → proc_run cfg (S n) y y'.

Lemma shutdown_run cfg n y y' :
  pr_cancelled y = true → proc_run cfg n y y' →
  (n + total_rank (pr_workers y') ≤ total_rank (pr_workers y))%nat.
Proof.
  intros Hc Hr. induction Hr as [y|n y y1 y' Hs E _ IH|n y y1 y' Hs E _ IH]; [lia| |];
    destruct (shutdown_step _ _ _ Hc Hs) as [Hc1 Hw]; specialize (IH Hc1).
  - by rewrite <-E.
  - destruct Hw; [done|lia].
Qed.

Lemma total_rank_le ws : (total_rank ws ≤ 4 * length ws)%nat.
Proof. unfold total_rank. induction ws as [|[] ws IH]; simpl in *; lia. Qed.

(** A worker at the head of its loop claims nothing more. *)
Lemma shutdown_head cfg n y y' i iv :
  pr_cancelled y = true → proc_run cfg n y y' → pr_workers y !! i = Some (WHead iv) ∨ pr_workers y !! i = Some WStopped →
  pr_workers y' !! i = Some (WHead iv) ∨ pr_workers y' !! i = Some WStopped.
Proof.
  intros Hc Hr. assert (∀ y y1, pr_cancelled y = true → proc_step cfg y y1 →
    pr_workers y !! i = Some (WHead iv) ∨ pr_workers y !! i = Some WStopped →
    pr_workers y1 !! i = Some (WHead iv) ∨ pr_workers y1 !! i = Some WStopped) as Hone.
  { clear. intros y y1 Hc Hst. destruct Hst as [a y2 y3 Hs|p p' wd out c ws r sh Hs]; [|done]. destruct Hs as
      [x c ws r sh|a k ph ph' x x' c ws r sh Hk Hs|x c ws sh|a r r' x x' c ws sh Hs|x c ws r|a p p' x x' c ws r Hs];
      simpl in *; try done. subst c.
    destruct (decide (k = i)) as [->|Hne]; [|by rewrite list_lookup_insert_ne].
    rewrite Hk, list_lookup_insert_eq by (by eapply lookup_lt_Some).
    intros [[= ->]|[= ->]]; inversion Hs; subst; auto; done. }
  induction Hr as [y|n y y1 y' Hs E _ IH|n y y1 y' Hs E _ IH]; [done| |]; intros Hi;
    destruct (shutdown_step _ _ _ Hc Hs) as [Hc1 _]; apply IH; eauto.
Qed.

(** Some step is always possible for a worker that has not returned. *)
Definition plain_env : handler_env := HandlerEnv (λ _, None) (λ _, None) (λ _, None) (λ _ _, Ok 200).
Definition plain_proc : proc_env := ProcEnv (quiet 0) 0 0 (λ n, n - 1).

Lemma worker_progress cfg i c ph x : ph ≠ WStopped → ∃ a ph' x', worker_step cfg i c a ph x ph' x'.
Proof.
  intros Hph. destruct ph as [iv|iv|iv|j|ctx j err|]; [| | | | |done].
  - destruct c; eexists _, _, _; [by apply ws_stop|by apply ws_go].
  - destruct (Claim (Background (S:=span_context)) (quiet 0) (worker_id i) (LeaseDuration cfg) 1 (sh_db x)) as [r s'] eqn:E.
    eexists _, _, _. by apply (ws_claim _ _ _ _ _ Background (quiet 0) 0 r s').
  - eexists _, _, _. apply ws_wake.
  - destruct (process_execute (worker_of cfg plain_env i) 0 Background j (wstate_of x)) as [err st'] eqn:E.
    eexists _, _, _. by eapply ws_execute.
  - assert (draw_ok (pe_draw plain_proc)) as Hd by (intros n Hn; simpl; lia).
    destruct (process_report_total (worker_of cfg plain_env i) plain_proc ctx j err (wstate_of x) Hd) as (st' & Hp).
    eexists _, _, _. by eapply ws_report.
Qed.

Lemma total_rank_0 ws : total_rank ws = 0%nat → Forall (λ ph, ph = WStopped) ws.
Proof.
  unfold total_rank. induction ws as [|[] ws IH]; simpl; intros H; try lia; constructor; [done|by apply IH].
Qed.

Lemma workers_return cfg x ws r sh :
  ∃ x' ws', rtc (proc_step cfg) (Proc x true false ws r sh) (Proc x' true false ws' r sh) ∧
    Forall (λ ph, ph = WStopped) ws'.
Proof.
  remember (total_rank ws) as n eqn:Hn. revert x ws Hn. induction (lt_wf n) as [n _ IH]. intros x ws ->.
  destruct (decide (Forall (λ ph, ph = WStopped) ws)) as [Hall|Hex]; [by exists x, ws|].
  assert (∃ i ph, ws !! i = Some ph ∧ ph ≠ WStopped) as (i & ph & Hi & Hph).
  { clear IH. induction ws as [|p ws IHw]; [by destruct Hex|].
    destruct p; [by eexists 0%nat, _..|].
    destruct IHw as (i & ph & ? & ?); [intros Hf; by apply Hex; constructor|]. by exists (S i), ph. }
  destruct (worker_progress cfg i true ph x Hph) as (a & ph' & x1 & Hs).
  pose proof (worker_step_rank _ _ _ _ _ _ _ Hs). pose proof (total_rank_insert _ _ _ ph' Hi).
  destruct (IH (total_rank (<[i := ph']> ws)) ltac:(lia) x1 _ eq_refl) as (x' & ws' & Hr & Hall).
  exists x', ws'. split; [|done]. eapply rtc_l; [by eapply ps_own, ps_worker|exact Hr].
Qed.

Lemma reaper_returns cfg x ws r sh :
  0 < ReapInterval cfg →
  rtc (proc_step cfg) (Proc x true false ws r sh) (Proc x true false ws RStopped sh).
Proof.
  intros Hi.
  assert (rtc (proc_step cfg) (Proc x true false ws RSelect sh) (Proc x true false ws RStopped sh)) as Hsel.
  { apply rtc_once. eapply ps_own, ps_reaper. by apply rs_done. }
  destruct r; [|exact Hsel|done]. eapply rtc_l; [eapply ps_own, ps_reaper_start|].
  destruct (Z.leb_spec (ReapInterval cfg) 0); [lia|exact Hsel].
Qed.

Lemma shipper_returns cfg x ws r p :
  0 < ShipInterval cfg →
  ∃ x', rtc (proc_step cfg) (Proc x true false ws r (Some p)) (Proc x' true false ws r (Some ShStopped)).
Proof.
  intros Hi.
  assert (∀ x, rtc (proc_step cfg) (Proc x true false ws r (Some ShSelect)) (Proc x true false ws r (Some ShStopped))) as Hsel.
  { intros x0. apply rtc_once. eapply ps_own, ps_shipper. by apply ss_done. }
  assert (∀ x evs, ∃ x', rtc (proc_step cfg) (Proc x true false ws r (Some (ShMarking evs)))
    (Proc x' true false ws r (Some ShStopped))) as Hmark.
  { intros x0 evs.
    destruct (MarkEventsShipped (Background (S:=span_context)) (quiet 0) (ID <$> evs) (sh_db x0)) as [q s'] eqn:E.
    eexists. eapply rtc_l; [|apply Hsel]. eapply ps_own, ps_shipper. by eapply (ss_mark _ _ _ _ Background (quiet 0)). }
  destruct p as [| |evs|evs|]; [|by eexists| |by apply Hmark|by eexists].
  - exists x. eapply rtc_l; [eapply ps_own, ps_shipper_start|].
    destruct (Z.leb_spec (ShipInterval cfg) 0); [lia|apply Hsel].
  - destruct (InsertEvents ch_quiet evs (p_ch (sh_pipe x))) as [[[]|err] ch'] eqn:E.
    + destruct (Hmark (Shared (Pipe (sh_db x) ch') (sh_world x) (sh_out x)) evs) as (x' & Hx').
      exists x'. eapply rtc_l; [|exact Hx']. eapply ps_own, ps_shipper.
      apply (ss_insert cfg true evs x ch_quiet (Ok tt) ch' E).
    + eexists. eapply rtc_l; [|apply Hsel]. eapply ps_own, ps_shipper.
      apply (ss_insert cfg true evs x ch_quiet (Err err) ch' E).
Qed.

(** C25. Shutdown terminates: once the signal has come, the workers of a process
    take at most four steps each, whatever the other goroutines and processes
    do in between; a worker at the head of its loop starts no further claim;
    and from every state of such a process it can return. *)
Theorem work_shutdown cfg y :
  pr_cancelled y = true → pr_crashed y = false → 0 < ReapInterval cfg → 0 < ShipInterval cfg →
  (∀ n y', proc_run cfg n y y' → (n ≤ 4 * length (pr_workers y))%nat ∧
     ∀ i iv, pr_workers y !! i = Some (WHead iv) →
       pr_workers y' !! i = Some (WHead iv) ∨ pr_workers y' !! i = Some WStopped) ∧
  ∃ z, rtc (proc_step cfg) y z ∧ all_returned z.
Proof.
  intros Hc Hcr Hreap Hship. split.
  - intros n y' Hr. split.
    + pose proof (shutdown_run _ _ _ _ Hc Hr). pose proof (total_rank_le (pr_workers y)). lia.
    + intros i iv Hi. eapply shutdown_head; [done|exact Hr|by left].
  - destruct y as [x c cr ws r sh]. simpl in *. subst c cr.
    destruct (workers_return cfg x ws r sh) as (x1 & ws1 & H1 & Hall).
    pose proof (reaper_returns cfg x1 ws1 r sh Hreap) as H2. destruct sh as [p|].
    + destruct (shipper_returns cfg x1 ws1 RStopped p Hship) as (x2 & H3).
      eexists. split; [etrans; [exact H1|]; etrans; [exact H2|exact H3]|].
      split_and!; [done|done|by right].
    + eexists. split; [etrans; [exact H1|exact H2]|]. split_and!; [done|done|by left].
Qed.

(** ** Tickers *)

Lemma crash_step cfg y y' :
  0 < ReapInterval cfg → 0 < ShipInterval cfg → pr_crashed y = false → proc_step cfg y y' → pr_crashed y' = false.
Proof.
  intros Hr Hs Hc Hst0. destruct Hst0 as [a y1 y2 Hst|]; [|done]. destruct Hst; simpl in *; try done.
  - destruct (Z.leb_spec (ReapInterval cfg) 0); [lia|done].
  - destruct (Z.leb_spec (ShipInterval cfg) 0); [lia|done].
Qed.

Lemma crash_steps cfg y y' :
  0 < ReapInterval cfg → 0 < ShipInterval cfg → pr_crashed y = false →
  rtc (proc_step cfg) y y' → pr_crashed y' = false.
Proof.
  intros Hr Hs Hc Hst. induction Hst as [|y y1 y' Hy _ IH]; [done|]. apply IH. by eapply crash_step.
Qed.

(** The tickers: with positive intervals no goroutine of a worker process ever
    panics; with a reap interval of zero or less, which [Load] accepts, the
    process can crash in its first step and then takes no other. *)
Theorem work_tickers cfg su x :
  (0 < ReapInterval cfg → 0 < ShipInterval cfg →
     ∀ y, rtc (proc_step cfg) (work_init cfg su x) y → pr_crashed y = false) ∧
  (ReapInterval cfg ≤ 0 →
     ∃ y, proc_step cfg (work_init cfg su x) y ∧ pr_crashed y = true ∧ ∀ z, ¬ proc_step cfg y z).
Proof.
  split.
  - intros Hr Hs y Hy. exact (crash_steps cfg (work_init cfg su x) y Hr Hs eq_refl Hy).
  - intros Hr. eexists. split; [eapply ps_own, ps_reaper_start|]. simpl.
    destruct (Z.leb_spec (ReapInterval cfg) 0); [|lia]. split; [done|]. inversion 1 as [a y1 y2 Ho|]; by inversion Ho.
Qed.

(** ** One worker, in sequence *)

Inductive worker_steps cfg i c : list act → wphase → shared → wphase → shared → Prop :=
| wsteps_refl ph x : worker_steps cfg i c [] ph x ph x
| wsteps_l a l ph x ph1 x1 ph' x' :
    worker_step cfg i c a ph x ph1 x1 → worker_steps cfg i c l ph1 x1 ph' x' → worker_steps cfg i c (a :: l) ph x ph' x'.

(** A turn of [Run] that loops is a sequence of steps of the process with
    nothing in between. *)
Lemma run_iter_steps cfg i he it interval st interval' st' ch :
  draw_ok (pe_draw (it_proc it)) → ctx_err (it_claim_ctx it) = None →
  run_iter (worker_of cfg he i) it interval st = Looping interval' st' →
  ∃ l, worker_steps cfg i false l (WHead interval) (seen ch st) (WHead interval') (seen ch st').
Proof.
  intros Hd Hctx. unfold run_iter. destruct (ctx_err (it_ctx it)); [done|].
  destruct (Claim _ _ _ _ _ _) as [r s] eqn:E. intros H.
  set (x1 := add_out (claim_out (it_claim_elapsed it) r) (with_db s (seen ch st))).
  assert (∀ l ph x, worker_steps cfg i false l (after_claim interval r) x1 ph x →
    ∃ l, worker_steps cfg i false l (WHead interval) (seen ch st) ph x) as Hclaim.
  { intros l ph x Hl. eexists. eapply wsteps_l; [by apply ws_go|].
    eapply wsteps_l; [by eapply (ws_claim _ _ _ _ (seen ch st) _ _ (it_claim_elapsed it))|exact Hl]. }
  destruct r as [[|j l]|err].
  - destruct (it_done_while_waiting it); [done|]. injection H as <- <-.
    eapply Hclaim, wsteps_l; [apply ws_wake|]. apply wsteps_refl.
  - destruct (process _ _ _ _ _) as [st1|] eqn:Ep; [|done]. injection H as <- <-.
    rewrite process_split in Ep. destruct (process_execute _ _ _ _ _) as [err st2] eqn:Ee. simpl in Ep.
    eapply Hclaim, wsteps_l; [exact (ws_execute cfg i false j x1 he _ _ _ _ Ee)|].
    eapply wsteps_l; [|apply wsteps_refl].
    apply (ws_report cfg i false j (seen ch st2) he (it_ctx it) err (it_proc it) st1 Hd).
    unfold wstate_of, seen. by destruct st2.
  - destruct (it_done_while_waiting it); [done|]. injection H as <- <-.
    eapply Hclaim, wsteps_l; [apply ws_wake|]. apply wsteps_refl.
Qed.

End facts.

(** ** Start-up *)

Section start_facts.
Context {Px : Pgx} {Pr : Prometheus} {PrL : PrometheusLaws Pr} {Q : Quoting}.

(** Start-up of a worker process: it needs a positive number of workers and a
    database it can reach, and nothing else: whatever happens to tracing, it
    starts, and whatever happens to ClickHouse, it starts, without the shipper
    exactly when ClickHouse is unreachable.  Its pool has a connection for each
    worker and four more, as long as that number fits an [int32].  Nothing is
    written to the tables. *)
Theorem work_starts be cfg args fs rest s :
  Parse_loop (work_flags cfg) args = Ok (fs, rest) →
  let n := get_int fs "workers" in
  let '(lines, r, s') := startWork be cfg args s in
  s' = s ∧
  (n ≤ 0 → r = Exits 1) ∧
  (0 < n → (∃ su, r = Returns su) ↔
     is_ok (ParseConfig (DatabaseURL cfg)) = true ∧ be_create be = None ∧ be_ping be = None) ∧
  (∀ su, r = Returns su →
     su_workers su = n ∧ (su_shipper su = true ↔ be_ch_open be = None ∧ be_ch_ping be = None) ∧
     (n ≤ 2 ^ 31 - 5 → MaxConns (su_pool su) = n + 4)).
Proof.
  intros Hp n. unfold startWork, parse_flags. rewrite Hp. cbn [bind ret app]. fold n.
  destruct (Z.leb_spec n 0) as [Hn|Hn].
  { cbn. split_and!; [done|done|lia|done]. }
  destruct registered as (m & Hreg & _). rewrite Hreg.
  unfold start_tracing, store_New, store_Ping, NewClient, tracing_Setup, serve_metrics, acquire.
  assert (n ≤ 2 ^ 31 - 5 → db_max_conns n = n + 4) as Hm.
  { intros Hle. unfold db_max_conns. rewrite !int32_id by (rewrite ?int32_id by lia; lia). lia. }
  destruct (be_tracing be); destruct (ParseConfig (DatabaseURL cfg)) as [pc|t]; destruct (be_create be) as [t1|];
    destruct (be_ping be) as [t2|]; destruct (be_metrics be); destruct (be_ch_open be) as [t3|]; destruct (be_ch_ping be) as [t4|]; cbn;
    (split_and!; [done|lia| |]);
    try (intros _; split; [by intros [su ?]|by intros (? & ? & ?)]);
    try (intros _; split; [done|by eauto]);
    intros su Hsu; try done; injection Hsu as <-; cbn;
    (split_and!; [done|by split; [|intros []]|]);
    intros Hle; rewrite Hm by done; by destruct (Z.ltb_spec 0 (n + 4)); [|lia].
Qed.

End start_facts.
