(* ===== verification/Pool.v ===== *)
(** * The connection pool of a worker process

    [runWork] sizes the pool of its store for its own demand.  A goroutine of
    the process uses at most one connection at a time, in its calls of the
    store, so no call ever waits for a connection, with room for two scrapes of
    the metrics at once. *)

From stdpp Require Import prelude gmap strings list pretty relations sorting.
From S2P Require Import Prelude GoBase Job Store StoreFacts Steps Claim Invariant History.
From S2P Require Import Tracing Worker WorkerFacts Shipper ShipperFacts Handlers Config Process.
From S2P Require Import Metrics Fmt Flag Cli Work WorkFacts.
#[local] Open Scope jq_scope.

(** What a command returns, by its structure. *)
Definition returns {A} (P : A → Prop) (c : cmd A) : Prop := ∀ s l a s', c s = (l, Returns a, s') → P a.

Lemma returns_bind {A B} (P : A → Prop) (R : B → Prop) (c : cmd A) (k : A → cmd B) :
  returns P c → (∀ a, P a → returns R (k a)) → returns R (bind c k).
Proof.
  intros Hc Hk s l b s'. unfold bind. destruct (c s) as [[l1 [a|code|msg|]] s1] eqn:E; [|done..].
  specialize (Hk a (Hc _ _ _ _ E) s1). destruct (k a s1) as [[l2 q] s2]. intros [= _ -> ->]. by eapply Hk.
Qed.

Lemma returns_any {A} (c : cmd A) : returns (λ _, True) c.
Proof. done. Qed.

Lemma returns_or_log {A} (P : A → Prop) (r : result error A) msg attrs :
  (∀ a, r = Ok a → P a) → returns P (or_log r msg attrs).
Proof. intros H s l a s'. destruct r as [b|err]; [|done]. intros [= _ <- _]. by apply H. Qed.

Lemma returns_func {A} (P : A → Prop) (c : cmd A) : returns P c → returns P (func c).
Proof.
  intros Hc s l a s'. unfold func. destruct (c s) as [[l1 []] s1] eqn:E; [|done..].
  intros [= _ <- _]. by eapply Hc.
Qed.

(** A command that returned went through its parts. *)
Lemma bind_returned {A B} (c : cmd A) (k : A → cmd B) s l b s' :
  bind c k s = (l, Returns b, s') →
  ∃ l1 a s1 l2, c s = (l1, Returns a, s1) ∧ k a s1 = (l2, Returns b, s') ∧ l = l1 ++ l2.
Proof.
  unfold bind. destruct (c s) as [[l1 [a|code|msg|]] s1]; [|done..].
  destruct (k a s1) as [[l2 r] s2] eqn:E. intros [= <- -> ->]. by exists l1, a, s1, l2.
Qed.

Section pool.
Context {Pg : Postgres} {Ch : ClickHouse} {O : Otel} {En : Encoding} {Q : Quoting} {Px : Pgx} {Pr : Prometheus}.
Implicit Types (cfg : Config) (y : proc).

Lemma store_New_conns create conn n :
  0 < n → returns (λ r, ∀ pool, r = Ok pool → MaxConns pool = n) (store_New create conn n).
Proof.
  intros Hn s l r s'. unfold store_New, acquire, ret, say, bind. destruct (Z.ltb_spec 0 n); [|lia].
  destruct (ParseConfig conn), create; intros [= _ <- _]; intros pool; [done| |done..]. by intros [= <-].
Qed.

(** The workers [startWork] returns with, and its pool. *)
Lemma startWork_setup be cfg args s lines su s' :
  startWork be cfg args s = (lines, Returns su, s') →
  0 < su_workers su ∧ (su_workers su ≤ 2 ^ 31 - 5 → MaxConns (su_pool su) = su_workers su + 4).
Proof.
  assert (returns (λ su, 0 < su_workers su ∧ (su_workers su ≤ 2 ^ 31 - 5 → MaxConns (su_pool su) = su_workers su + 4))
    (startWork be cfg args)) as H; [|apply H].
  unfold startWork. eapply returns_bind; [apply returns_any|]. intros fs _.
  destruct (Z.leb_spec (get_int fs "workers") 0) as [|Hn]; [done|].
  do 3 (eapply returns_bind; [apply returns_any|]; intros _ _).
  eapply (returns_bind (λ r, ∀ pool, r = Ok pool →
    get_int fs "workers" ≤ 2 ^ 31 - 5 → MaxConns pool = get_int fs "workers" + 4)).
  { intros s0 l0 r0 s1 Hst pool Hp Hle. assert (db_max_conns (get_int fs "workers") = get_int fs "workers" + 4) as Hdb
      by (unfold db_max_conns; rewrite !int32_id; rewrite ?int32_id; lia).
    rewrite Hdb in Hst. by eapply store_New_conns in Hst; [apply Hst|lia]. }
  intros st Hst. eapply (returns_bind (λ pool, get_int fs "workers" ≤ 2 ^ 31 - 5 → MaxConns pool = get_int fs "workers" + 4)).
  { apply returns_or_log. exact Hst. }
  intros pool Hpool. repeat (eapply returns_bind; [apply returns_any|]; intros ? _).
  by intros ???? [= _ <- _].
Qed.

(** ** Demand *)

(** Whether a goroutine may be in a call of the store. *)
Definition worker_calls (ph : wphase) : nat := match ph with WClaiming _ | WReporting _ _ _ => 1 | _ => 0 end.
Definition reaper_calls (r : rphase) : nat := match r with RSelect => 1 | _ => 0 end.
Definition shipper_calls (sh : option sphase) : nat := match sh with Some ShSelect | Some (ShMarking _) => 1 | _ => 0 end.

(** The connections a process uses at most. *)
Definition demand y : nat :=
  sum_list_with worker_calls (pr_workers y) + reaper_calls (pr_reaper y) + shipper_calls (pr_shipper y).

Lemma demand_le y : (demand y ≤ length (pr_workers y) + 2)%nat.
Proof.
  unfold demand. assert (sum_list_with worker_calls (pr_workers y) ≤ length (pr_workers y))%nat as Hw.
  { induction (pr_workers y) as [|[] l IH]; simpl; lia. }
  assert (reaper_calls (pr_reaper y) ≤ 1)%nat by (destruct (pr_reaper y); simpl; lia).
  assert (shipper_calls (pr_shipper y) ≤ 1)%nat by (destruct (pr_shipper y) as [[]|]; simpl; lia). lia.
Qed.

Lemma proc_step_workers cfg y y' : proc_step cfg y y' → length (pr_workers y') = length (pr_workers y).
Proof. intros [a y1 y2 Hs|]; [|done]. destruct Hs; simpl; try done. by rewrite length_insert. Qed.

(** C36. The pool suffices: in every state of a worker process, under any
    interleaving, the calls of the store that its workers, its reaper and its
    shipper may be in, and two scrapes of the metrics besides, have a connection
    each, as long as the number of workers and four fit an [int32]. *)
Theorem pool_suffices be cfg args s lines su s' x y :
  startWork be cfg args s = (lines, Returns su, s') → su_workers su ≤ 2 ^ 31 - 5 →
  rtc (proc_step cfg) (work_init cfg su x) y → Z.of_nat (demand y) + 2 ≤ MaxConns (su_pool su).
Proof.
  intros Hs Hle Hr. destruct (startWork_setup _ _ _ _ _ _ _ Hs) as [Hpos Hpool]. rewrite (Hpool Hle).
  assert (length (pr_workers y) = length (pr_workers (work_init cfg su x))) as Hlen.
  { induction Hr as [|y1 y2 y3 Hy _ IH]; [done|]. by rewrite IH, (proc_step_workers _ _ _ Hy). }
  simpl in Hlen. rewrite length_replicate in Hlen. pose proof (demand_le y). lia.
Qed.

End pool.
