(* ===== verification/CliFacts.v ===== *)
(** * The command line, end to end

    What a user of [cmd/jobqueue] can rely on: the effect of [enqueue] on the
    tables, the way of a payload from the command line through gRPC, the tables
    and a worker's claim to the handler, and the lines of [watch]. *)

From stdpp Require Import prelude gmap strings list pretty relations sorting.
From Stdlib Require Import Ascii String Floats.SpecFloat.
From S2P Require Import Prelude GoBase Job Store StoreFacts Steps Demo Claim Invariant History StoreSpec Outbox.
From S2P Require Import Tracing Worker WorkerFacts GrpcServer Shipper Config FilePath Handlers Process Reports.
From S2P Require Import Fmt Flag Json JsonFacts Payloads Cli.
#[local] Open Scope jq_scope.

(** ** Enqueue *)

Section enqueue.
Context {Pg : Postgres} {O : Otel} {Q : Quoting} {G : Grpc}.
Implicit Types (cfg : Config) (args : list string) (ce : call_env span_context).

(** The trace context [Submit] stores with the job. *)
Definition submit_trace ce : string := Inject (tracer_Start (ce_ctx ce) "submit").

Lemma Submit_stmt ctx e ty pl s r s' out :
  Submit ctx e ty pl s = (r, s', out) →
  match r with
  | Ok id => stmt_enqueue ty pl (Inject (tracer_Start ctx "submit")) e s = Ok (id, s')
  | Err _ => s' = s ∨ (∃ b t, env_fault e = Some (b, t)) ∧
               ∃ id, stmt_enqueue ty pl (Inject (tracer_Start ctx "submit")) e s = Ok (id, s')
  end.
Proof.
  unfold Submit. destruct (Enqueue _ _ _ _ _ _) as [[id|err] s1] eqn:E; intros [= <- <- <-].
  - by apply run_stmt_ok in E.
  - unfold Enqueue, run_stmt in E. repeat case_match; simplify_eq; eauto 10.
Qed.

(** The job that [enqueue] inserted, given the values of its flags. *)
Definition inserted ce (ty pl : string) (id : Z) (s s' : db) : Prop :=
  ∃ doc k, jsonb_in pl = Some doc ∧ jobs s !! id = None ∧
    jobs s' = <[id := enqueue_row (ce_stmt ce) ty doc (submit_trace ce)]> (jobs s) ∧
    dead_letters s' = dead_letters s ∧
    outbox s' = outbox s ++ [MkEvent k id ty EventEnqueued 0 "" "" (env_now (ce_stmt ce))].

Lemma stmt_enqueue_inserted ce ty pl id s s' :
  db_wf s → stmt_enqueue ty pl (submit_trace ce) (ce_stmt ce) s = Ok (id, s') → inserted ce ty pl id s s'.
Proof.
  intros Hwf (doc & k & Hdoc & _ & _ & -> & _ & _ & Hj & Hd & _ & Hev & _)%stmt_enqueue_effect.
  exists doc, k. split_and!; [done| |done|done|].
  - destruct (jobs s !! _) eqn:E; [|done]. apply (wf_job_ids _ Hwf) in E. unfold next_id in E. lia.
  - unfold outbox. by rewrite Hev, fmap_app.
Qed.

(** The answer was lost: the transport or the server's connection failed. *)
Definition lost ce : Prop := (∃ b t, ce_fault ce = Some (b, t)) ∨ ∃ b t, env_fault (ce_stmt ce) = Some (b, t).

Lemma client_Submit_effect ce ty pl s r s' :
  db_wf s → client_Submit ce ty pl s = (r, s') →
  match r with
  | Ok id => utf8 ty = true ∧ inserted ce ty pl id s s'
  | Err _ => s' = s ∨ lost ce ∧ ∃ id, inserted ce ty pl id s s'
  end.
Proof.
  intros Hwf. unfold client_Submit, call. destruct (utf8 ty); [|intros [= <- <-]; by left].
  destruct (Submit (ce_ctx ce) (ce_stmt ce) ty pl s) as [[r1 s1] out] eqn:E. apply Submit_stmt in E.
  assert (∀ b t, ce_fault ce = Some (b, t) → lost ce) as Hl1 by (intros; left; eauto).
  destruct (ce_fault ce) as [[[] t]|] eqn:Ef; simpl; intros [= <- <-].
  - destruct r1 as [id|err].
    + right. split; [by eauto|]. exists id. by apply stmt_enqueue_inserted.
    + destruct E as [->|[Hf (id & E)]]; [by left|]. right. split; [by eauto|].
      exists id. by apply stmt_enqueue_inserted.
  - by left.
  - destruct r1 as [id|err]; [split; [done|by apply stmt_enqueue_inserted]|].
    destruct E as [->|[(b & t & Hf) (id & E)]]; [by left|]. right. split; [right; by eauto|].
    exists id. by apply stmt_enqueue_inserted.
Qed.

(** [enqueue] after its flags. *)
Lemma runEnqueue_parsed ce cfg args s fs rest :
  Parse_loop enqueue_flags args = Ok (fs, rest) →
  let ty := get_string fs "type" in let pl := get_string fs "payload" in
  (∃ l, runEnqueue ce cfg args s = (l, Exits 1, s) ∧
     (ty = "" ∨ Valid pl = false ∨ is_Some (ce_dial ce))) ∨
  (ty ≠ "" ∧ Valid pl = true ∧ ce_dial ce = None ∧
   ∃ r s', client_Submit ce ty pl s = (r, s') ∧
     runEnqueue ce cfg args s =
     match r with
     | Ok id => ([Acquired ClientConn; Deferred ClientConn;
                  Out ("enqueued job " +:+ pretty id +:+ " (type=" +:+ ty +:+ ")"); closeConn],
                 Returns tt, s')
     | Err t => ([Acquired ClientConn; Deferred ClientConn; ErrOut ("enqueue failed: " +:+ t)], Exits 1, s')
     end).
Proof.
  intros Hp ty pl. unfold runEnqueue, func, parse_flags. rewrite Hp. cbn [bind ret app]. fold ty pl.
  case_bool_decide as Hty; [left; eexists; split; [done|by left]|].
  destruct (Valid pl); cbn [negb]; [|left; eexists; split; [done|by right; left]].
  unfold dialClient. destruct (ce_dial ce) as [t|]; [left; eexists; split; [done|by right; right]|].
  right. split_and!; [done..|]. destruct (client_Submit ce ty pl s) as [r s'] eqn:E.
  exists r, s'. split; [done|]. unfold bind, or_die, acquire, ret, lift_call, defer. cbn. rewrite E.
  by destruct r.
Qed.

(** C26. [enqueue] against the tables, for all arguments: it returns only after the
    server stored exactly one new job, with the type and document of the flags,
    queued with no attempt, and its one event, and the line it prints has that
    job's id; a missing type or a payload that is not JSON is refused without
    a call; when it exits the tables are as they were, unless the answer was
    lost on the way, and then at most that one job was stored; and with valid
    flags and no failure it does return. *)
Theorem runEnqueue_spec ce cfg args s :
  reachable s →
  (∀ lines s', runEnqueue ce cfg args s = (lines, Returns tt, s') →
     ∃ fs rest id, Parse_loop enqueue_flags args = Ok (fs, rest) ∧
       get_string fs "type" ≠ "" ∧ Valid (get_string fs "payload") = true ∧
       printed lines = [Out ("enqueued job " +:+ pretty id +:+ " (type=" +:+ get_string fs "type" +:+ ")")] ∧
       inserted ce (get_string fs "type") (get_string fs "payload") id s s') ∧
  (∀ lines code s', runEnqueue ce cfg args s = (lines, Exits code, s') →
     s' = s ∨ lost ce ∧ ∃ ty pl id, ty ≠ "" ∧ Valid pl = true ∧ inserted ce ty pl id s s') ∧
  (∀ fs rest doc, Parse_loop enqueue_flags args = Ok (fs, rest) →
     let ty := get_string fs "type" in
     ty ≠ "" → Valid (get_string fs "payload") = true → utf8 ty = true → ce_dial ce = None → ¬ lost ce →
     ctx_err (ce_ctx ce) = None → text_ok ty = true → text_ok (submit_trace ce) = true →
     jsonb_in (get_string fs "payload") = Some doc →
     next_id (ce_stmt ce) SeqJobs (next_job s) ≤ max_int64 → events_left (ce_stmt ce) s →
     ∃ lines s', runEnqueue ce cfg args s = (lines, Returns tt, s')).
Proof.
  intros Hwf%reachable_wf. split_and!.
  - intros lines s' Hr. destruct (Parse_loop enqueue_flags args) as [[fs rest]|err] eqn:Hp;
      [|unfold runEnqueue, func, parse_flags in Hr; by rewrite Hp in Hr].
    destruct (runEnqueue_parsed ce cfg args s fs rest Hp) as [(l & Hl & _)|(Hty & Hv & _ & r & s1 & Hs & Hl)];
      rewrite Hl in Hr; [done|]. apply client_Submit_effect in Hs; [|done].
    destruct r as [id|t]; [|done]. injection Hr as <- <-. destruct Hs as [_ Hi]. by exists fs, rest, id.
  - intros lines code s' Hr. destruct (Parse_loop enqueue_flags args) as [[fs rest]|err] eqn:Hp.
    + destruct (runEnqueue_parsed ce cfg args s fs rest Hp) as [(l & Hl & _)|(Hty & Hv & _ & r & s1 & Hs & Hl)];
        rewrite Hl in Hr; [injection Hr as _ _ <-; by left|]. apply client_Submit_effect in Hs; [|done].
      destruct r as [id|t]; [done|]. injection Hr as _ _ <-. destruct Hs as [->|[Hlost (id & Hi)]]; [by left|].
      right. split; [done|]. eexists _, _, id. by split_and!.
    + unfold runEnqueue, func, parse_flags in Hr. rewrite Hp in Hr. injection Hr as _ _ <-. by left.
  - intros fs rest doc Hp ty Hty Hv Hu Hd Hlost Hctx Ht Ht' Hdoc Hn He.
    destruct (runEnqueue_parsed ce cfg args s fs rest Hp) as [(l & _ & [?|[E|[t E]]])|(_ & _ & _ & r & s1 & Hs & Hl)];
      [done|congruence|congruence|]. fold ty in Hs, Hl.
    assert (∃ s', (Submit (ce_ctx ce) (ce_stmt ce) ty (get_string fs "payload") s).1 =
      (Ok (next_id (ce_stmt ce) SeqJobs (next_job s)), s')) as (s' & Hsub).
    { unfold Submit, Enqueue, run_stmt. change (ctx_err (tracer_Start _ _)) with (ctx_err (ce_ctx ce)).
      destruct (env_fault (ce_stmt ce)) as [[b t]|] eqn:Ef; [exfalso; apply Hlost; right; by eauto|].
      rewrite Hctx. unfold stmt_enqueue. fold (submit_trace ce). rewrite Ht, Ht', Hdoc.
      unfold check, of_option. cbn [andb bind_result]. rewrite (proj2 (Z.leb_le _ _) Hn). cbn [bind_result].
      edestruct (insert_job_events_1_ok (ce_stmt ce)) as (s2 & Hs2 & _); [|rewrite Hs2; by eexists]. exact He. }
    unfold client_Submit, call in Hs. rewrite Hu in Hs.
    destruct (ce_fault ce) as [[b t]|] eqn:Ef; [exfalso; apply Hlost; left; by eauto|].
    rewrite Hsub in Hs. injection Hs as <- <-. eauto.
Qed.

End enqueue.

(** ** From the command line to the file *)

(** [jsonb] as its documentation has it: white space, the order of the keys and
    duplicate keys are not kept; an object of strings under distinct keys comes
    back with the same members. *)
Class JsonbLaws {Pg : Postgres} : Prop := {
  jsonb_members : ∀ (l : list (string * string)) t,
    NoDup l.*1 → wf_json maxNestingDepth (JObject (prod_map id JString <$> l)) = true →
    jsonb_in (print (JObject (prod_map id JString <$> l))) = Some t →
    ∃ l', l' ≡ₚ l ∧ parse t = Some (Some (JObject (prod_map id JString <$> l')));
}.

Section payload.
Context {Pg : Postgres} {Jb : JsonbLaws} {O : Otel} {Q : Quoting} {G : Grpc} {T : JsonText}.
Implicit Types (cfg : Config) (ce : call_env span_context).

(** The payload survives the tables, whatever order the keys come back in. *)
Lemma write_file_doc_stored name content t :
  utf8 name = true → utf8 content = true →
  jsonb_in (print (write_file_doc name content)) = Some t →
  unmarshal_write t = Ok (WriteFilePayload name content).
Proof.
  intros Hn Hc Ht. set (l := [("name", name); ("content", content)]).
  destruct (jsonb_members l t) as (l' & Hp & Hparse).
  - apply (bool_decide_eq_true_1 _). reflexivity.
  - exact (write_file_doc_wf name content Hn Hc).
  - exact Ht.
  - change (unmarshal_write t) with (Unmarshal store_write (WriteFilePayload "" "") t).
    unfold Unmarshal. rewrite Hparse.
    apply Permutation_sym, Permutation_length_2_inv in Hp as [->| ->]; reflexivity.
Qed.

(** The arguments of [jobqueue enqueue] for a file. *)
Definition write_file_args (name content : string) : list string :=
  ["-type"; "write_file"; "-payload"; print (write_file_doc name content)].

Lemma write_file_args_parse name content :
  ∃ fs, Parse_loop enqueue_flags (write_file_args name content) = Ok (fs, []) ∧
    get_string fs "type" = "write_file" ∧ get_string fs "payload" = print (write_file_doc name content).
Proof. eexists. split; [reflexivity|]. split; reflexivity. Qed.

(** C23. End to end: take a name and a content of valid UTF-8, the name without
    [..] elements and with a real element.  If the command
    [enqueue -type write_file] with them as its payload returns, then whatever
    statements run in between, in any process, each time a worker claims the
    job whose id the command printed, and its base directory names one (does
    not clean to [.] or [/] or end in [..]) and the system lets it make the
    directories and write, its handler succeeds and leaves the content in the
    file of that name below the base directory. *)
Theorem enqueue_to_file ce cfg name content s lines s1 :
  reachable s → utf8 name = true → utf8 content = true →
  Forall (λ x, x ≠ "..") (split_slash name) → filter real (split_slash name) ≠ [] →
  runEnqueue ce cfg (write_file_args name content) s = (lines, Returns tt, s1) →
  ∃ id, printed lines = [Out ("enqueued job " +:+ pretty id +:+ " (type=write_file)")] ∧
    jobs s !! id = None ∧ is_Some (jobs s1 !! id) ∧
    ∀ ctx e w lease limit s2 jl s3 j hctx he dir wd,
      rtc db_step s1 s2 → Claim (Sp:=span_context) ctx e w lease limit s2 = (Ok jl, s3) → j ∈ jl → Job_ID j = id →
      regular_base dir → (∀ d, he_mkdir he d = None) → (∀ f, he_write he f = None) →
      ∃ wd', Dispatch (newHandlerRegistry he dir) hctx j wd = (HOk, wd') ∧
        hw_files wd' = <[Clean dir +:+ "/" +:+ join_slash (filter real (split_slash name)) := content]> (hw_files wd).
Proof.
  intros Hre Hn Hc Hdd Hreal Hrun.
  destruct (write_file_args_parse name content) as (fs & Hp & Hty & Hpl).
  destruct (runEnqueue_parsed ce cfg _ s fs [] Hp) as [(l & Hl & _)|(_ & _ & _ & r & s' & Hs & Hl)];
    rewrite Hl in Hrun; [done|]. destruct r as [id|t]; [|done]. injection Hrun as <- <-.
  rewrite Hty, Hpl in Hs. exists id.
  unfold client_Submit, call in Hs. change (utf8 "write_file") with true in Hs. cbv iota in Hs.
  destruct (ce_fault ce) as [[[] ?]|]; [done..|].
  destruct (Submit (ce_ctx ce) (ce_stmt ce) "write_file" (print (write_file_doc name content)) s)
    as [[[i|err] s0] out] eqn:E; [|done]. injection Hs as <- <-.
  apply Submit_stmt in E. assert (db_wf s0) as Hwf by (eapply db_wf_enqueue; [by apply reachable_wf|exact E]).
  destruct (stmt_enqueue_inserted ce _ _ _ _ _ (reachable_wf _ Hre) E) as (doc & k & Hdoc & Hnew & Hj1 & _).
  split_and!; [by rewrite Hty|done|rewrite Hj1, lookup_insert_eq; by eexists|].
  intros ctx e w lease limit s2 jl s3 j hctx he dir wd Hsteps Hclaim Hj Hid Hb Hmk Hwr.
  destruct (Claim_carries ctx e s0 s2 i (enqueue_row (ce_stmt ce) "write_file" doc (submit_trace ce))
    w lease limit jl s3 j) as (Hjt & Hjp & _); [done|by rewrite Hj1, lookup_insert_eq|done..|].
  unfold Dispatch. rewrite Hjt. simpl in Hjp.
  change (newHandlerRegistry he dir !! r_type _) with (Some (WriteFile (Q:=Q) he dir)).
  by apply (WriteFile_plain he dir hctx j wd (WriteFilePayload name content));
    [|rewrite Hjp; apply write_file_doc_stored|..].
Qed.

End payload.

(** ** Watching *)

Section watch.
Context {Pg : Postgres} {O : Otel} {Q : Quoting} {G : Grpc}.
Implicit Types (cfg : Config) (args : list string) (turns : list watch_turn).

Lemma WatchStatus_ids id turns : Forall (λ u, Id u = id) (WatchStatus id turns).1.
Proof.
  induction turns as [|t turns IH]; simpl; [done|].
  destruct (ctx_err (wt_ctx t)); [done|].
  destruct (GetStatus _ _ _ _) as [snap|err] eqn:E; [|done].
  assert (Snap_ID snap = id) as Hid.
  { unfold GetStatus, run_stmt, stmt_get in E. destruct (jobs (wt_db t) !! id) as [r|];
      repeat case_match; by simplify_eq/=. }
  destruct (wt_send t); [done|]. destruct (_ || _); [by repeat constructor|].
  destruct (wt_done t); [by repeat constructor|]. destruct (WatchStatus id turns). simpl in *. by constructor.
Qed.

(** The stream at its end: the updates are printed and the connection closed. *)
Definition watching (updates : list StatusUpdate) (eos : option (option string)) : cmd unit := func (
  let! _ := say (Acquired ClientConn) in let! _ := defer ClientConn in recv_loop updates eos).

Lemma recv_all (us : list StatusUpdate) s :
  ∃ lines, watching us (Some None) s = (lines, Returns tt, s) ∧
    printed lines = Out ∘ status_line <$> us.
Proof.
  eexists. split; [reflexivity|]. unfold printed. rewrite filter_app. cbn [app].
  rewrite app_nil_r, !filter_cons, !decide_False by (by intros []).
  rewrite (filter_none _ (release <$> _)), app_nil_r.
  - apply filter_all. intros x (u & -> & _)%list_elem_of_fmap. done.
  - intros x (r & -> & _)%list_elem_of_fmap. destruct r; by intros [].
Qed.

Lemma runWatch_parsed dial open broken turns cfg args s fs rest :
  Parse_loop id_flags args = Ok (fs, rest) →
  (get_int fs "id" = 0 ∨ is_Some dial ∨ is_Some open) ∧ (∃ l, runWatch dial open broken turns cfg args s = (l, Exits 1, s)) ∨
  get_int fs "id" ≠ 0 ∧ dial = None ∧ open = None ∧
    runWatch dial open broken turns cfg args s =
    let '(updates, eos) := received broken (WatchStatus (get_int fs "id") turns) in
    watching updates eos s.
Proof.
  intros Hp. unfold runWatch, watching, func, parse_flags. rewrite Hp. cbn [bind ret app].
  destruct (Z.eqb_spec (get_int fs "id") 0) as [Hid|Hid]; [left; split; [by left|by eexists]|].
  unfold dialClient. destruct dial as [t|]; [left; split; [by right; left|by eexists]|].
  destruct open as [t|]; [left; split; [by right; right|by eexists]|].
  right. split_and!; [done..|]. cbn [acquire or_die bind ret app defer say].
  destruct (received _ _) as [us eos]. by destruct (recv_loop us eos s) as [[l []] s'].
Qed.

(** C21. [watch] tells its caller when the job is done: it returns normally only
    after printing a line for each update, the last of which, and no other,
    shows the watched job completed or failed; a stream that breaks or ends in
    an error is an exit with 1 after the lines received; and if every poll
    works and one sees the job terminal, it returns after a line for each poll
    up to that one. *)
Theorem runWatch_spec dial open broken turns cfg args s :
  (∀ lines s', runWatch dial open broken turns cfg args s = (lines, Returns tt, s') →
     ∃ fs rest pre u, Parse_loop id_flags args = Ok (fs, rest) ∧ s' = s ∧ broken = None ∧
       printed lines = Out ∘ status_line <$> pre ++ [u] ∧
       Forall (λ u, Id u = get_int fs "id") (pre ++ [u]) ∧ Forall (λ u, ¬ upd_terminal u) pre ∧ upd_terminal u) ∧
  (∀ fs rest n t, Parse_loop id_flags args = Ok (fs, rest) → broken = Some (n, t) →
     ∃ lines, runWatch dial open broken turns cfg args s = (lines, Exits 1, s)) ∧
  (∀ fs rest pre t post st, Parse_loop id_flags args = Ok (fs, rest) → get_int fs "id" ≠ 0 →
     dial = None → open = None → broken = None → turns = pre ++ t :: post →
     Forall turn_ok pre → turn_ok t → turn_status (get_int fs "id") t = Some st →
     st = StatusCompleted ∨ st = StatusFailed →
     Forall (λ t, turn_status (get_int fs "id") t = Some StatusQueued ∨
                  turn_status (get_int fs "id") t = Some StatusRunning) pre →
     ∃ lines, runWatch dial open broken turns cfg args s = (lines, Returns tt, s) ∧
       List.length (printed lines) = S (List.length pre)).
Proof.
  split_and!.
  - intros lines s' Hr. destruct (Parse_loop id_flags args) as [[fs rest]|err] eqn:Hp;
      [|unfold runWatch, func, parse_flags in Hr; by rewrite Hp in Hr].
    destruct (runWatch_parsed dial open broken turns cfg args s fs rest Hp)
      as [[_ [l Hl]]|(_ & _ & _ & Hl)]; rewrite Hl in Hr; [done|].
    pose proof (WatchStatus_ids (get_int fs "id") turns) as Hids.
    destruct (WatchStatus (get_int fs "id") turns) as [us r] eqn:E. apply WatchStatus_shape in E.
    destruct broken as [[n t]|]; [done|]. destruct r; [|done..].
    cbn [received fst snd] in Hr. destruct (recv_all us s) as (l & Hf & Hpr). rewrite Hf in Hr. injection Hr as <- <-.
    destruct E as (pre & u & -> & Hpre & Hu). by exists fs, rest, pre, u.
  - intros fs rest n t Hp ->.
    destruct (runWatch_parsed dial open (Some (n, t)) turns cfg args s fs rest Hp)
      as [[_ Hl]|(_ & _ & _ & ->)]; [done|by eexists].
  - intros fs rest pre t post st Hp Hid -> -> -> -> Hok Ht Hst Hterm Hrun.
    destruct (runWatch_parsed None None None (pre ++ t :: post) cfg args s fs rest Hp)
      as [[[?|[[? ?]|[? ?]]] _]|(_ & _ & _ & ->)]; [done..|].
    destruct (WatchStatus_reaches (get_int fs "id") pre t post st Hok Ht Hst Hterm Hrun) as [H1 H2].
    destruct (WatchStatus (get_int fs "id") (pre ++ t :: post)) as [us r]. simpl in *. subst r.
    cbn [received fst snd]. destruct (recv_all us s) as (l & -> & Hpr). exists l. split; [done|].
    apply (f_equal List.length) in H2. rewrite length_app, !length_fmap in H2. rewrite Hpr, length_fmap, H2. simpl. lia.
Qed.

End watch.
