(* ===== verification/Main.v ===== *)
(** * The entry point

    [main] of [cmd/jobqueue/main.go]: arguments, configuration, logger and the
    dispatch to the subcommands of [Cli] and [Work]. *)

From stdpp Require Import prelude gmap strings list pretty relations sorting.
From Stdlib Require Import Floats.SpecFloat.
From S2P Require Import Prelude GoBase Job Store StoreFacts Steps Invariant StoreSpec Tracing Worker.
From S2P Require Import GrpcServer Shipper Config Process Metrics Reports Percentiles Fmt Flag Json JsonFacts Cli Work.
#[local] Open Scope jq_scope.

(** ** Logging *)

Definition level_rank (l : Level) : Z :=
  match l with LevelDebug => -4 | LevelInfo => 0 | LevelWarn => 4 | LevelError => 8 end.

(** The records a logger of the given level writes. *)
Definition enabled (level : Level) (l : line) : bool :=
  match l with Log lv _ _ => level_rank level <=? level_rank lv | _ => true end.

(** [logging.New(level)]: the output of a command under that logger. *)
Definition with_logger {A} (level : string) (c : cmd A) : cmd A := λ s,
  let '(l, r, s) := c s in (filter (λ x, enabled (parseLevel level) x) l, r, s).

(** A panic that nobody recovers: the runtime prints it and exits with 2. *)
Definition runtime {A} (c : cmd A) : cmd A := λ s,
  match c s with
  | (l, Panics msg, s) => (l ++ [ErrOut ("panic: " +:+ msg)], Exits 2, s)
  | r => r
  end.

(** ** The entry point *)

Section main.
Context {Pg : Postgres} {O : Otel} {Q : Quoting} {G : Grpc} {Px : Pgx} {Pr : Prometheus} {Zn : Zone} {Ga : GoArch}.

(** What the subcommands meet. *)
Record main_env : Type := MainEnv {
  me_call : call_env span_context;
  me_stream : option string;
  me_broken : option (nat * string);
  me_turns : list watch_turn;
  me_create : option string;
  me_ctx : context span_context;
  me_stmt : stmt_env;
  me_analytics : analytics_env;
  me_boot : boot_env;
  me_serve : serve_end;
  me_work : work_end;
}.

Definition usage : string :=
  "usage: jobqueue <serve|work|enqueue|status|watch|dead-letters|analytics> [flags]".

Definition dispatch (me : main_env) (cfg : Config) (sub : string) (args : list string) : cmd unit :=
  if bool_decide (sub = "enqueue") then runEnqueue (me_call me) cfg args
  else if bool_decide (sub = "status") then runStatus (me_call me) cfg args
  else if bool_decide (sub = "watch")
  then runWatch (ce_dial (me_call me)) (me_stream me) (me_broken me) (me_turns me) cfg args
  else if bool_decide (sub = "serve") then runServe (me_boot me) (me_serve me) cfg
  else if bool_decide (sub = "work") then runWork (me_boot me) cfg args (me_work me)
  else if bool_decide (sub = "dead-letters")
  then runDeadLetters (me_create me) (me_ctx me) (me_stmt me) cfg args
  else if bool_decide (sub = "analytics") then runAnalytics (me_analytics me) cfg args
  else die ("unknown subcommand " +:+ quote sub).

(** [os.Args] starts with the program's name. *)
Definition main (env : environ) (me : main_env) (args : list string) : cmd unit := runtime
  match args with
  | _ :: sub :: rest =>
      match Load env with
      | Err e => die ("config error: " +:+ Error e)
      | Ok cfg => with_logger (default "" (env "LOG_LEVEL")) (dispatch me cfg sub rest)
      end
  | _ => die usage
  end.

(** ** What commands do to the tables, and how they exit *)

(** A command that leaves the tables alone. *)
Definition read_only {A} (c : cmd A) : Prop := ∀ s, (c s).2 = s.

(** A line that says what went wrong. *)
Definition complaint (l : line) : Prop :=
  match l with ErrOut _ | Log LevelError _ _ => True | _ => False end.

(** A command that exits with 0 after the usage text, or with 1 or 2 after saying
    what went wrong. *)
Definition exits_cleanly {A} (c : cmd A) : Prop :=
  ∀ s code, (c s).1.2 = Exits code →
    (code = 0 ∧ ∃ name, UsageOf name ∈ (c s).1.1) ∨ ((code = 1 ∨ code = 2) ∧ Exists complaint (c s).1.1).

Lemma read_only_bind {A B} (c : cmd A) (k : A → cmd B) :
  read_only c → (∀ a, read_only (k a)) → read_only (bind c k).
Proof.
  intros Hc Hk s. unfold bind. specialize (Hc s). destruct (c s) as [[l [a|code|msg|]] s1]; simpl in *; subst; try done.
  specialize (Hk a s). by destruct (k a s) as [[l' r] s2].
Qed.

Lemma exits_bind {A B} (c : cmd A) (k : A → cmd B) :
  exits_cleanly c → (∀ a, exits_cleanly (k a)) → exits_cleanly (bind c k).
Proof.
  intros Hc Hk s code. unfold bind. specialize (Hc s code).
  destruct (c s) as [[l [a|code'|msg|]] s1]; simpl in *; [|by intros [= <-]; apply Hc|done..].
  specialize (Hk a s1 code). destruct (k a s1) as [[l' r] s2]. simpl in *. rewrite Exists_app.
  intros [[-> [name Hu]]|[Hcode Hx]]%Hk; [|by auto]. left. split; [done|]. exists name. apply elem_of_app. by right.
Qed.

Lemma read_only_die {A} msg : read_only (die (A:=A) msg).
Proof. done. Qed.
Lemma read_only_fatal {A} msg attrs : read_only (fatal (A:=A) msg attrs).
Proof. done. Qed.
Lemma read_only_or_die {E A} (r : result E A) msg : read_only (or_die r msg).
Proof. by destruct r. Qed.
Lemma read_only_or_log {A} (r : result error A) msg attrs : read_only (or_log r msg attrs).
Proof. by destruct r. Qed.
Lemma read_only_flags name fs args : read_only (parse_flags name fs args).
Proof. intros s. unfold parse_flags. by destruct (Parse_loop fs args) as [[]|]. Qed.
Lemma read_only_acquire {E A} r (x : result E A) : read_only (acquire r x).
Proof. by destruct x. Qed.
Lemma read_only_store create conn n : read_only (store_New create conn n).
Proof. intros s. unfold store_New. destruct (ParseConfig conn); [apply read_only_acquire|done]. Qed.
Lemma read_only_client open ping : read_only (NewClient open ping).
Proof. by destruct open, ping. Qed.
Lemma read_only_tracing t : read_only (start_tracing t).
Proof. by destruct t. Qed.

Lemma exits_die {A} msg : exits_cleanly (die (A:=A) msg).
Proof. intros s code [= <-]. right. split; [by left|by left]. Qed.
Lemma exits_fatal {A} msg attrs : exits_cleanly (fatal (A:=A) msg attrs).
Proof. intros s code [= <-]. right. split; [by left|by left]. Qed.
Lemma exits_panics {A} msg : exits_cleanly (panics (A:=A) msg).
Proof. done. Qed.
Lemma read_only_func {A} (c : cmd A) : read_only c → read_only (func c).
Proof. intros Hc s. specialize (Hc s). unfold func. by destruct (c s) as [[l []] s']. Qed.
Lemma exits_func {A} (c : cmd A) : exits_cleanly c → exits_cleanly (func c).
Proof. intros Hc s code. specialize (Hc s code). unfold func. by destruct (c s) as [[l []] s']. Qed.
Lemma read_only_runtime {A} (c : cmd A) : read_only c → read_only (runtime c).
Proof. intros Hc s. specialize (Hc s). unfold runtime. by destruct (c s) as [[l []] s']. Qed.
Lemma exits_runtime {A} (c : cmd A) : exits_cleanly c → exits_cleanly (runtime c).
Proof.
  intros Hc s code. specialize (Hc s code). unfold runtime. destruct (c s) as [[l []] s']; try done.
  intros [= <-]. right. split; [by right|]. apply Exists_app. right. by left.
Qed.
Lemma exits_or_die {E A} (r : result E A) msg : exits_cleanly (or_die r msg).
Proof. destruct r; [done|apply exits_die]. Qed.
Lemma exits_or_log {A} (r : result error A) msg attrs : exits_cleanly (or_log r msg attrs).
Proof. destruct r; [done|apply exits_fatal]. Qed.
Lemma exits_flags name fs args : exits_cleanly (parse_flags name fs args).
Proof.
  intros s code. unfold parse_flags. destruct (Parse_loop fs args) as [[]|err]; [done|].
  assert (flag_exit err = 0 ∧ err = ErrHelp ∨ flag_exit err = 2 ∧ is_Some (flag_error_text err)) as Hf
    by (destruct err; simpl; eauto).
  destruct Hf as [[Hf ->]|[Hf [t Ht]]]; intros [= <-].
  - left. split; [done|]. exists name. simpl. by left.
  - right. rewrite Hf, Ht. split; [by right|by left].
Qed.
Lemma exits_acquire {E A} r (x : result E A) : exits_cleanly (acquire r x).
Proof. by destruct x. Qed.
Lemma exits_store create conn n : exits_cleanly (store_New create conn n).
Proof. intros s. unfold store_New. destruct (ParseConfig conn); [apply exits_acquire|done]. Qed.
Lemma exits_client open ping : exits_cleanly (NewClient open ping).
Proof. by destruct open, ping. Qed.
Lemma exits_goroutine {A} msg : exits_cleanly (goroutine_panics (A:=A) msg).
Proof. intros s code [= <-]. right. split; [by right|by left]. Qed.
Lemma exits_tracing t : exits_cleanly (start_tracing t).
Proof. by destruct t. Qed.
Lemma exits_ret {A} (a : A) : exits_cleanly (ret a).
Proof. done. Qed.

(** A call changes the tables through the server only, and does not exit. *)
Lemma read_only_call {A} ce (f : db → result rpc_error A) : read_only (lift_call (call ce (λ s, (f s, s)))).
Proof. intros s. unfold lift_call, call. by destruct (ce_fault ce) as [[[] t]|], (f s). Qed.
Lemma exits_call {A} (f : db → result string A * db) : exits_cleanly (lift_call f).
Proof. intros s code. unfold lift_call. by destruct (f s). Qed.

Lemma read_only_logger {A} level (c : cmd A) : read_only c → read_only (with_logger level c).
Proof. intros Hc s. specialize (Hc s). unfold with_logger. by destruct (c s) as [[l r] s']. Qed.
Lemma exits_logger {A} level (c : cmd A) : exits_cleanly c → exits_cleanly (with_logger level c).
Proof.
  intros Hc s code. specialize (Hc s code). unfold with_logger. destruct (c s) as [[l r] s']. simpl in *.
  intros [[-> [name Hu]]|[Hcode Hx]]%Hc.
  - left. split; [done|]. exists name. by apply list_elem_of_filter.
  - right. split; [done|]. apply Exists_exists in Hx as (x & Hin & Hx). apply Exists_exists. exists x.
    split; [|done]. apply list_elem_of_filter. split; [|done].
    destruct x as [| | |[] m attrs| | |]; try done. by destruct (parseLevel level).
Qed.

End main.

(** Close a goal about a command by its structure. *)
Ltac solve_cmd :=
  repeat first
    [ done
    | apply read_only_die | apply exits_die | apply read_only_fatal | apply exits_fatal | apply exits_panics
    | apply exits_goroutine
    | apply read_only_func | apply exits_func
    | apply read_only_bind | apply exits_bind
    | apply read_only_flags | apply exits_flags
    | apply read_only_or_die | apply exits_or_die
    | apply read_only_or_log | apply exits_or_log
    | apply read_only_tracing | apply exits_tracing
    | apply read_only_acquire | apply exits_acquire
    | apply read_only_store | apply exits_store | apply read_only_client | apply exits_client
    | apply read_only_call | apply exits_call
    | progress intros
    | case_match ].

Section spec.
Context {Pg : Postgres} {O : Otel} {Q : Quoting} {G : Grpc} {Px : Pgx} {Pr : Prometheus} {Zn : Zone} {Ga : GoArch}.
Implicit Types (me : main_env) (cfg : Config) (args : list string).

Lemma runEnqueue_exits ce cfg args : exits_cleanly (runEnqueue ce cfg args).
Proof. unfold runEnqueue. solve_cmd. Qed.
Lemma runStatus_exits ce cfg args : exits_cleanly (runStatus ce cfg args).
Proof. unfold runStatus. solve_cmd. Qed.
Lemma runStatus_read_only ce cfg args : read_only (runStatus ce cfg args).
Proof. unfold runStatus. solve_cmd. Qed.
Lemma runWatch_exits d o b t cfg args : exits_cleanly (runWatch d o b t cfg args).
Proof. unfold runWatch, recv_loop. solve_cmd. Qed.
Lemma runWatch_read_only d o b t cfg args : read_only (runWatch d o b t cfg args).
Proof. unfold runWatch, recv_loop. solve_cmd. Qed.
Lemma runDeadLetters_exits c ctx e cfg args : exits_cleanly (runDeadLetters c ctx e cfg args).
Proof. unfold runDeadLetters. solve_cmd. Qed.
Lemma runDeadLetters_read_only c ctx e cfg args : read_only (runDeadLetters c ctx e cfg args).
Proof. unfold runDeadLetters. solve_cmd. Qed.
Lemma runAnalytics_exits ae cfg args : exits_cleanly (runAnalytics ae cfg args).
Proof. unfold runAnalytics, run_drain_time. solve_cmd. Qed.
Lemma runAnalytics_read_only ae cfg args : read_only (runAnalytics ae cfg args).
Proof. unfold runAnalytics, run_drain_time. solve_cmd. Qed.
Lemma runServe_exits b v cfg : exits_cleanly (runServe b v cfg).
Proof. unfold runServe. solve_cmd. Qed.
Lemma runWork_exits b cfg args f : exits_cleanly (runWork b cfg args f).
Proof. unfold runWork, startWork, start_tickers, serve_metrics, shutdown_metrics. solve_cmd. Qed.

Lemma dispatch_exits me cfg sub args : exits_cleanly (dispatch me cfg sub args).
Proof.
  unfold dispatch. repeat case_bool_decide;
    eauto using runEnqueue_exits, runStatus_exits, runWatch_exits, runServe_exits, runWork_exits,
      runDeadLetters_exits, runAnalytics_exits, exits_die.
Qed.

(** The subcommands that only ask. *)
Definition asking : list string := ["status"; "watch"; "dead-letters"; "analytics"].
Definition subcommands : list string := "enqueue" :: "serve" :: "work" :: asking.

Lemma dispatch_asking me cfg sub args : sub ∈ asking → read_only (dispatch me cfg sub args).
Proof.
  unfold asking. rewrite !elem_of_cons, elem_of_nil. intros Hsub.
  destruct_or! Hsub; try done; subst; unfold dispatch; simpl;
    eauto using runStatus_read_only, runWatch_read_only, runDeadLetters_read_only, runAnalytics_read_only.
Qed.

Lemma dispatch_unknown me cfg sub args :
  sub ∉ subcommands → dispatch me cfg sub args = die ("unknown subcommand " +:+ quote sub).
Proof.
  unfold subcommands, asking. rewrite !not_elem_of_cons. intros Hsub. destruct_and! Hsub.
  unfold dispatch. by rewrite !bool_decide_false by done.
Qed.

(** C39. The program's contract with its caller, whatever the arguments, the
    environment and the level of the logger: an exit is with 0 after the usage
    text of a flag set, or with 1 or 2 after a line that says what went wrong
    and that no log level hides; without a subcommand, with a setting that does
    not parse (before anything else is looked at) and for an unknown subcommand
    the process prints one line on standard error and exits with 1; and
    [status], [watch], [dead-letters] and [analytics] leave the tables as they
    were, whatever they answer. *)
Theorem main_contract env me args s :
  exits_cleanly (main env me args) ∧
  ((List.length args < 2)%nat → main env me args s = ([ErrOut usage], Exits 1, s)) ∧
  (∀ prog sub rest, args = prog :: sub :: rest →
     (∀ err, Load env = Err err →
        main env me args s = ([ErrOut ("config error: " +:+ Error err)], Exits 1, s)) ∧
     (∀ cfg, Load env = Ok cfg → sub ∉ subcommands →
        main env me args s = ([ErrOut ("unknown subcommand " +:+ quote sub)], Exits 1, s)) ∧
     (sub ∈ asking → (main env me args s).2 = s)).
Proof.
  unfold main. split_and!.
  - apply exits_runtime. destruct args as [|prog [|sub rest]]; [apply exits_die..|].
    destruct (Load env); [apply exits_logger, dispatch_exits|apply exits_die].
  - destruct args as [|prog [|sub rest]]; simpl; [done..|lia].
  - intros prog sub rest ->. split_and!.
    + by intros err ->.
    + intros cfg -> Hsub. by rewrite dispatch_unknown.
    + intros Hsub. apply read_only_runtime. destruct (Load env); [|done]. by apply read_only_logger, dispatch_asking.
Qed.

End spec.
