(* ===== verification/Resources.v ===== *)
(** * What a command holds

    The functions of [cmd/jobqueue/main.go] acquire connections, a pool, the
    provider of their spans, a signal handler, a listener and a server of
    metrics.  Most are released by calls they [defer], which Go runs when the
    function returns or panics, last first, and which [os.Exit] skips; the
    listener is closed by the gRPC server when [Serve] returns, and the server
    of the metrics is shut down by a goroutine.  Acquiring and deferring are
    separate lines of a run, so a resource without its [defer] shows. *)

From stdpp Require Import prelude gmap strings list pretty relations sorting.
From Stdlib Require Import Floats.SpecFloat.
From S2P Require Import Prelude GoBase Job Store StoreFacts Steps Tracing Worker GrpcServer Shipper Config.
From S2P Require Import Process Metrics Reports Percentiles Fmt Flag Json JsonFacts Cli Work Pool Main.
#[local] Open Scope jq_scope.

(** ** Bodies by what they acquire, defer and release *)





























(** ** The functions of the program *)

Section resources.
Context {Pg : Postgres} {O : Otel} {Q : Quoting} {G : Grpc} {Px : Pgx} {Pr : Prometheus} {Zn : Zone} {Ga : GoArch}.
Implicit Types (me : main_env) (cfg : Config) (args : list string).
















(** ** How the process ends *)













End resources.
