(* ===== verification/Cluster.v ===== *)
(** * The cluster

    The whole system, closed: one PostgreSQL and one ClickHouse, any number of
    worker processes that start, take steps, are told to stop, crash or are
    killed, and clients that submit jobs over gRPC.  The processes are those of
    [Work]; nothing else touches the databases.  The cluster also keeps, for the
    statements below, the list of all the handler runs there have been.

    A process of the cluster is a process of [Work] among others
    ([cluster_projects]); no attempt of a job is run twice, anywhere
    ([cluster_at_most_once]); and what the tables say of a job really happened
    ([cluster_truthful]). *)

From stdpp Require Import prelude gmap strings list pretty relations sorting.
From S2P Require Import Prelude GoBase Job Store StoreFacts Steps Claim Invariant History StoreSpec Outbox Verdicts.
From S2P Require Import Tracing Worker WorkerFacts Shipper ShipperFacts GrpcServer Handlers Config Process.
From S2P Require Import Metrics Fmt Flag Cli Work WorkFacts Main.
#[local] Open Scope jq_scope.

(** A run of a handler: the claimed job and the error. *)
Abbreviation run := (Job * option error)%type.

Section cluster.
Context {Pg : Postgres} {Ch : ClickHouse} {O : Otel} {En : Encoding} {Q : Quoting} {Px : Pgx} {Pr : Prometheus}.
Implicit Types (cfg : Config) (p : pipe) (y : proc) (a : act).

(** A process, without the databases. *)
Record node : Type := Node {
  n_cfg : Config;
  n_world : hworld;
  n_out : list effect;
  n_cancelled : bool;
  n_crashed : bool;
  n_workers : list wphase;
  n_reaper : rphase;
  n_shipper : option sphase;
}.
Implicit Types (n : node) (nodes : list node) (runs : list run).

Definition view p n : proc :=
  Proc (Shared p (n_world n) (n_out n)) (n_cancelled n) (n_crashed n) (n_workers n) (n_reaper n) (n_shipper n).

Definition node_of cfg y : node :=
  Node cfg (sh_world (pr_shared y)) (sh_out (pr_shared y)) (pr_cancelled y) (pr_crashed y) (pr_workers y)
    (pr_reaper y) (pr_shipper y).

(** SIGKILL, the machine's end: like a panic, nothing more happens. *)
Definition killed n : node :=
  Node (n_cfg n) (n_world n) (n_out n) (n_cancelled n) true (n_workers n) (n_reaper n) (n_shipper n).

Record cluster : Type := Cluster {
  cl_pipe : pipe;
  cl_nodes : list node;
  cl_runs : list run;
}.
Implicit Types (C : cluster).

Definition cl_db C : db := p_pg (cl_pipe C).

Definition ran a : list run := match a with ActRun j err => [(j, err)] | _ => [] end.

Inductive cluster_step : act → cluster → cluster → Prop :=
| cl_own k n a y' p nodes runs :
    nodes !! k = Some n → own_step (n_cfg n) a (view p n) y' →
    cluster_step a (Cluster p nodes runs)
      (Cluster (sh_pipe (pr_shared y')) (<[k := node_of (n_cfg n) y']> nodes) (runs ++ ran a))
| cl_boot be cfg args lines su s' wd p nodes runs :
    startWork be cfg args (p_pg p) = (lines, Returns su, s') →
    cluster_step Tau (Cluster p nodes runs)
      (Cluster (Pipe s' (p_ch p)) (nodes ++ [node_of cfg (work_init cfg su (Shared p wd []))]) runs)
| cl_kill k n p nodes runs :
    nodes !! k = Some n →
    cluster_step Tau (Cluster p nodes runs) (Cluster p (<[k := killed n]> nodes) runs)
| cl_submit ctx e ty payload r s' out p nodes runs :
    Submit ctx e ty payload (p_pg p) = (r, s', out) →
    cluster_step (ActStmt e) (Cluster p nodes runs) (Cluster (Pipe s' (p_ch p)) nodes runs).

Definition cluster_empty : cluster := Cluster pipe_empty [] [].
Definition some_step C C' : Prop := ∃ a, cluster_step a C C'.
Definition cluster_reachable C : Prop := rtc some_step cluster_empty C.

(** ** Steps on the databases *)

Lemma startWork_read_only be cfg args s lines r s' : startWork be cfg args s = (lines, r, s') → s' = s.
Proof.
  intros H. assert (read_only (startWork be cfg args)) as Hr by (unfold startWork, serve_metrics; solve_cmd).
  specialize (Hr s). by rewrite H in Hr.
Qed.

Lemma own_step_pipe cfg a y y' :
  proc_inv y → own_step cfg a y y' → rtc pipe_step (sh_pipe (pr_shared y)) (sh_pipe (pr_shared y')).
Proof.
  intros Hinv Hs. destruct Hs as
    [x c ws r sh|a i ph ph' x x' c ws r sh Hi Hs|x c ws sh|a r r' x x' c ws sh Hs|x c ws r|a p p' x x' c ws r Hs];
    simpl; try done.
  - by eapply worker_step_pipe.
  - by eapply reaper_step_pipe.
  - by eapply shipper_step_spec; [apply (pv_pipe _ Hinv)|apply (pv_shipper _ Hinv)|].
Qed.

Lemma submit_pipe ctx e ty payload r s s' out ch :
  Submit ctx e ty payload s = (r, s', out) →
  rtc pipe_step (Pipe s ch) (Pipe s' ch) ∧ verdicts s' = verdicts s.
Proof.
  unfold Submit, Enqueue. destruct (run_stmt _ _ _ _ _) as [q s1] eqn:E. intros H.
  assert (s1 = s') as -> by (by destruct q; injection H). split.
  - eapply call_queue_steps; [exact E|]. intros. by eapply queue_enqueue.
  - apply run_stmt_atomic in E as [->|(id & E)]; [done|]. by eapply enqueue_verdicts.
Qed.

(** ** The books *)

(** The jobs claimed and not run yet, and the runs not reported yet. *)
Definition unrun (ph : wphase) : option Job := match ph with WHolding j => Some j | _ => None end.
Definition owed (ph : wphase) : option run := match ph with WReporting _ j err => Some (j, err) | _ => None end.

Definition attempt (j : Job) : Z * Z := (Job_ID j, Attempts j).
Definition run_verdict (q : run) : Z * bool := (Job_ID q.1, bool_decide (q.2 = None)).

(** A claimed job is a row's, as of its attempt. *)
Definition carried (s : db) (j : Job) : Prop :=
  ∃ r, jobs s !! Job_ID j = Some r ∧ Type_ j = r_type r ∧ Payload j = r_payload r ∧
    TraceContext j = r_trace_context r ∧ MaxAttempts j = r_max_attempts r ∧ 1 ≤ Attempts j ≤ r_attempts r.

Definition all_jobs (phs : list wphase) runs : list Job := omap unrun phs ++ runs.*1.

Record books (p : pipe) (phs : list wphase) runs : Prop := Books {
  bk_pipe : pipe_reachable p;
  bk_attempts : NoDup (attempt <$> all_jobs phs runs);
  bk_logged : ∀ j, j ∈ all_jobs phs runs → ∃ i, logged (p_pg p) i j;
  bk_carried : ∀ j, j ∈ all_jobs phs runs → carried (p_pg p) j;
  bk_owed : omap owed phs ⊆+ runs;
  bk_verdicts : verdicts (p_pg p) ++ (run_verdict <$> omap owed phs) ⊆+ run_verdict <$> runs;
}.

Lemma pipe_steps_db p p' : rtc pipe_step p p' → rtc db_step (p_pg p) (p_pg p').
Proof.
  induction 1 as [p|p p1 p' Hs _ IH]; [done|].
  destruct Hs as [s s' ch Hs|s ch rows Hr|ids e s s' ch Hids Hs]; simpl in *; [|done|].
  - eapply rtc_l; [by apply queue_step_db|done].
  - eapply rtc_l; [by eapply step_mark|done].
Qed.

Lemma carried_steps s s' j : db_wf s → rtc db_step s s' → carried s j → carried s' j.
Proof.
  intros Hwf Hs (r & Hr & H). destruct (steps_same_job _ _ _ _ Hwf Hs Hr) as (r' & Hr' & Hsame).
  exists r'. split; [done|]. destruct Hsame as (-> & -> & -> & -> & _ & _ & ?).
  destruct H as (? & ? & ? & ? & ? & ?). split_and!; done || lia.
Qed.

(** What the databases' steps keep of the books. *)
Lemma books_steps p p' phs runs :
  books p phs runs → rtc pipe_step p p' → pipe_reachable p' ∧
  (∀ j, j ∈ all_jobs phs runs → (∃ i, logged (p_pg p') i j) ∧ carried (p_pg p') j).
Proof.
  intros [Hp _ Hl Hc _ _] Hs. pose proof (pipe_reachable_inv _ Hp) as Hi.
  destruct (pipe_steps_spec _ _ Hi Hs) as (_ & Ho & _).
  split; [unfold pipe_reachable in *; by etrans|]. intros j Hj. split.
  - destruct (Hl j Hj) as [i Hij]. exists i. by eapply logged_prefix.
  - eapply carried_steps; [apply Hi|by apply pipe_steps_db|by apply Hc].
Qed.

(** A step that writes no verdict and leaves the workers' jobs alone. *)
Lemma books_quiet p p' phs phs' runs :
  rtc pipe_step p p' → verdicts (p_pg p') = verdicts (p_pg p) →
  omap unrun phs' = omap unrun phs → omap owed phs' = omap owed phs →
  books p phs runs → books p' phs' runs.
Proof.
  intros Hs Hv Hu Ho Hb. destruct (books_steps _ _ _ _ Hb Hs) as [Hp Hj]. destruct Hb as [_ Ha _ _ Hw Hvs].
  assert (all_jobs phs' runs = all_jobs phs runs) as E by (unfold all_jobs; by rewrite Hu).
  split; rewrite ?E, ?Ho, ?Hv; try done; intros j Hin; by apply Hj.
Qed.

(** A worker takes a job that no event had claimed. *)
Lemma books_claim p p' phs phs' runs j i :
  rtc pipe_step p p' → verdicts (p_pg p') = verdicts (p_pg p) →
  omap unrun phs' ≡ₚ j :: omap unrun phs → omap owed phs' = omap owed phs →
  logged (p_pg p') i j → carried (p_pg p') j →
  (∀ k b, logged (p_pg p) k b → Job_ID b = Job_ID j → Attempts b ≠ Attempts j) →
  books p phs runs → books p' phs' runs.
Proof.
  intros Hs Hv Hu Ho Hl Hc Hf Hb. destruct (books_steps _ _ _ _ Hb Hs) as [Hp Hj].
  destruct Hb as [_ Ha Hlog _ Hw Hvs].
  assert (all_jobs phs' runs ≡ₚ j :: all_jobs phs runs) as E by (unfold all_jobs; by rewrite Hu).
  split; rewrite ?Ho, ?Hv; try done.
  - rewrite E. apply NoDup_cons. split; [|done]. intros (b & Eb & Hin)%list_elem_of_fmap.
    injection Eb as E1 E2. destruct (Hlog b Hin) as [k Hk]. by apply (Hf k b).
  - intros b. rewrite E. intros [->|Hin]%elem_of_cons; [by eauto|by apply Hj].
  - intros b. rewrite E. intros [->|Hin]%elem_of_cons; [done|by apply Hj].
Qed.

(** A handler runs. *)
Lemma books_run p phs phs' runs j err :
  omap unrun phs ≡ₚ j :: omap unrun phs' → omap owed phs' ≡ₚ (j, err) :: omap owed phs →
  books p phs runs → books p phs' (runs ++ [(j, err)]).
Proof.
  intros Hu Ho [Hp Ha Hl Hc Hw Hv].
  assert (all_jobs phs' (runs ++ [(j, err)]) ≡ₚ all_jobs phs runs) as E.
  { unfold all_jobs. rewrite Hu, fmap_app, app_assoc. simpl. by rewrite <-Permutation_cons_append. }
  split; [done| | | | |].
  - by rewrite E.
  - intros b. rewrite E. apply Hl.
  - intros b. rewrite E. apply Hc.
  - rewrite Ho, <-Permutation_cons_append. by apply submseteq_skip.
  - rewrite Ho, fmap_app. cbn [fmap list_fmap].
    rewrite <-Permutation_cons_append, <-Permutation_middle. by apply submseteq_skip.
Qed.

(** A run is reported, or its report is lost. *)
Lemma books_report p p' phs phs' runs q :
  rtc pipe_step p p' → verdicts (p_pg p') ⊆+ run_verdict q :: verdicts (p_pg p) →
  omap unrun phs' = omap unrun phs → omap owed phs ≡ₚ q :: omap owed phs' →
  books p phs runs → books p' phs' runs.
Proof.
  intros Hs Hv Hu Ho Hb. destruct (books_steps _ _ _ _ Hb Hs) as [Hp Hj]. destruct Hb as [_ Ha _ _ Hw Hvs].
  assert (all_jobs phs' runs = all_jobs phs runs) as E by (unfold all_jobs; by rewrite Hu).
  split; rewrite ?E; try done; try (intros j Hin; by apply Hj).
  - etrans; [|exact Hw]. rewrite Ho. by apply submseteq_cons.
  - etrans; [|exact Hvs]. rewrite Ho. cbn [fmap list_fmap].
    etrans; [by apply submseteq_skips_r|]. simpl. by rewrite Permutation_middle.
Qed.

(** ** Steps and the books *)

Lemma claim_carried ctx e i lease s j l s' :
  reachable s → Claim (Sp:=span_context) ctx e (worker_id i) lease 1 s = (Ok (j :: l), s') → carried s' j.
Proof.
  intros Hr Hc%run_stmt_ok.
  apply stmt_claim_effect in Hc as (iv & rows & _ & _ & _ & Hj & _ & [Hrows Hjobs _ _ _ _]).
  destruct rows as [|[id r'] rows]; [done|]. injection Hj as -> _.
  assert ((id, r') ∈ (id, r') :: rows) as Hin by (by left). rewrite Hrows in Hin.
  apply elem_of_sql_returning in Hin as (r & Hid & HP & ->).
  exists (claim_set e (worker_id i) iv r). simpl. split.
  { rewrite Hjobs, lookup_sql_update, Hid. simpl. by rewrite (Is_true_eq_true _ HP). }
  destruct (wf_rows _ (reachable_wf _ Hr) _ _ Hid) as [[Hle _] _]. split_and!; done || lia.
Qed.

(** One worker moves, among the phases of all. *)
Lemma books_worker cfg i c a ph x ph' x' l1 l2 runs :
  worker_step cfg i c a ph x ph' x' →
  books (sh_pipe x) (l1 ++ ph :: l2) runs → books (sh_pipe x') (l1 ++ ph' :: l2) (runs ++ ran a).
Proof.
  intros Hs Hb. pose proof (worker_step_pipe _ _ _ _ _ _ _ _ Hs) as Hp.
  pose proof (bk_pipe _ _ _ Hb) as Hre. pose proof (pi_wf _ (pipe_reachable_inv _ Hre)) as Hwf.
  destruct Hs as [iv x Hc|iv x Hc|iv [[s ch] wd out] ctx e elapsed r s' _ Hcl|iv x Hc|iv x
    |j x he ctx elapsed err st' Hx|j [[s ch] wd out] he ctx err pe st' _ Hr];
    cbn [ran]; rewrite ?app_nil_r; try (by eapply books_quiet; [..|exact Hb]; rewrite ?omap_app).
  - assert (verdicts s' = verdicts s) as Hv.
    { apply run_stmt_atomic in Hcl as [->|(jl & Hcl)]; [done|]. by eapply claim_verdicts. }
    destruct r as [[|j l]|err]; simpl in *;
      [by eapply books_quiet; [..|exact Hb]; rewrite ?omap_app| |by eapply books_quiet; [..|exact Hb]; rewrite ?omap_app].
    destruct (Claim_fresh _ _ _ _ _ _ _ _ (pipe_reachable_db _ Hre) Hcl) as [Hl Hf].
    eapply (books_claim _ _ _ _ _ j i); [exact Hp|exact Hv| | |exact Hl| |exact Hf|exact Hb].
    + rewrite !omap_app. simpl. by rewrite Permutation_middle.
    + by rewrite !omap_app.
    + by eapply claim_carried, Hcl; apply pipe_reachable_db in Hre.
  - apply (books_run _ (l1 ++ WHolding j :: l2)).
    + rewrite !omap_app. simpl. by rewrite Permutation_middle.
    + rewrite !omap_app. simpl. by rewrite Permutation_middle.
    + unfold seen. simpl. rewrite (process_execute_db _ _ _ _ _ _ _ Hx). by destruct x as [[] ? ?].
  - eapply (books_report _ _ _ _ _ (j, err)); [exact Hp| | | |exact Hb].
    + apply process_report_stmt in Hr as [E|Hr]; simpl in *; [rewrite E; by apply submseteq_cons|].
      unfold run_verdict. simpl. destruct err as [err|].
      * rewrite bool_decide_false by done. case_decide; [destruct Hr as [? Hr]; by eapply fail_verdicts|].
        destruct Hr as (? & ? & Hr). by eapply retry_verdicts.
      * by eapply complete_verdicts.
    + by rewrite !omap_app.
    + rewrite !omap_app. simpl. by rewrite Permutation_middle.
Qed.

(** The other goroutines write no verdict. *)
Lemma reaper_step_verdicts c a r x r' x' :
  db_wf (sh_db x) → reaper_step c a r x r' x' → verdicts (sh_db x') = verdicts (sh_db x) ∧ ran a = [].
Proof.
  intros Hwf Hs. destruct Hs as [x Hc|x ctx e q s' _ Hq]; [done|]. split; [|done].
  apply run_stmt_atomic in Hq as [->|(nd & Hq)]; [done|]. by eapply reap_verdicts.
Qed.

Lemma shipper_step_verdicts cfg c a q x q' x' :
  shipper_step cfg c a q x q' x' → verdicts (sh_db x') = verdicts (sh_db x) ∧ ran a = [].
Proof.
  intros Hs. destruct Hs as [| | |evs x ctx e r s' _ Hm]; try done. split; [|done].
  apply mark_inv in Hm as [->|(_ & _ & _ & Ho)]; [done|]. unfold verdicts, sh_db in *. simpl. by rewrite Ho.
Qed.

(** ** The invariant *)

Definition phases nodes : list wphase := nodes ≫= n_workers.

Lemma phases_insert nodes k n :
  nodes !! k = Some n →
  ∃ l1 l2, phases nodes = l1 ++ n_workers n ++ l2 ∧
    ∀ n', phases (<[k := n']> nodes) = l1 ++ n_workers n' ++ l2.
Proof.
  intros Hk. exists (phases (take k nodes)), (phases (drop (S k) nodes)). unfold phases. split.
  - by rewrite <-(take_drop_middle _ _ _ Hk) at 1; rewrite bind_app, bind_cons.
  - intros n'. rewrite insert_take_drop by (by eapply lookup_lt_Some). by rewrite bind_app, bind_cons.
Qed.

Lemma phases_worker nodes k n i ph :
  nodes !! k = Some n → n_workers n !! i = Some ph →
  ∃ l1 l2, phases nodes = l1 ++ ph :: l2 ∧
    ∀ n' ph', n_workers n' = <[i := ph']> (n_workers n) → phases (<[k := n']> nodes) = l1 ++ ph' :: l2.
Proof.
  intros (l1 & l2 & H & H')%phases_insert Hi.
  exists (l1 ++ take i (n_workers n)), (drop (S i) (n_workers n) ++ l2). split.
  - rewrite H, <-(take_drop_middle _ _ _ Hi) at 1. by rewrite <-!app_assoc.
  - intros n' ph' E. rewrite H', E, insert_take_drop by (by eapply lookup_lt_Some). by rewrite <-!app_assoc.
Qed.

Record cluster_inv C : Prop := ClusterInv {
  ci_books : books (cl_pipe C) (phases (cl_nodes C)) (cl_runs C);
  ci_nodes : ∀ k n, cl_nodes C !! k = Some n → proc_inv (view (cl_pipe C) n);
}.

Lemma cluster_inv_empty : cluster_inv cluster_empty.
Proof.
  split; [|done]. split; simpl; try done; [by apply rtc_refl|constructor|..]; by intros j []%elem_of_nil.
Qed.

(** Every other process sees a step of the databases. *)
Lemma nodes_grow p p' n : rtc pipe_step p p' → proc_inv (view p n) → proc_inv (view p' n).
Proof. intros Hs. by apply proc_inv_grow. Qed.

Lemma view_node_of cfg y : view (sh_pipe (pr_shared y)) (node_of cfg y) = y.
Proof. by destruct y as [[]]. Qed.

(** A new process holds nothing. *)
Lemma phases_boot {A} (f : wphase → option A) nodes cfg su x :
  (∀ iv, f (WHead iv) = None) →
  omap f (phases (nodes ++ [node_of cfg (work_init cfg su x)])) = omap f (phases nodes).
Proof.
  intros Hf. unfold phases. rewrite bind_app, omap_app. cbn [mbind list_bind]. rewrite app_nil_r, (omap_none f (n_workers _)), app_nil_r;
    [done|]. by intros ph [-> _]%elem_of_replicate.
Qed.

(** A step of a process, in the books. *)
Lemma books_own k n a y' p nodes runs :
  nodes !! k = Some n → own_step (n_cfg n) a (view p n) y' → proc_inv (view p n) →
  books p (phases nodes) runs →
  books (sh_pipe (pr_shared y')) (phases (<[k := node_of (n_cfg n) y']> nodes)) (runs ++ ran a).
Proof.
  intros Hk Hs Hinv Hb. pose proof (own_step_pipe _ _ _ _ Hinv Hs) as Hp.
  pose proof (pi_wf _ (pipe_reachable_inv _ (bk_pipe _ _ _ Hb))) as Hwf.
  assert (∀ n', n_workers n' = n_workers n → ran a = [] → verdicts (sh_db (pr_shared y')) = verdicts (p_pg p) →
    books (sh_pipe (pr_shared y')) (phases (<[k := n']> nodes)) (runs ++ ran a)) as Hquiet.
  { intros n' Hn -> Hv. rewrite app_nil_r. destruct (phases_insert _ _ _ Hk) as (l1 & l2 & E & E').
    eapply (books_quiet p _ (phases nodes)); [exact Hp|exact Hv|by rewrite E, E', Hn..|exact Hb]. }
  inversion Hs as [x c ws r sh Ex Ey|a0 i ph ph' x x' c ws r sh Hi Hw Ea Ex Ey|x c ws sh Ex Ey
    |a0 r r' x x' c ws sh Hr Ea Ex Ey|x c ws r Ex Ey|a0 q q' x x' c ws r Hq Ea Ex Ey]; subst; simpl in *.
  - by apply Hquiet.
  - destruct (phases_worker _ _ _ _ _ Hk Hi) as (l1 & l2 & E & E').
    rewrite (E' _ ph') by done. rewrite E in Hb. by eapply (books_worker _ _ _ _ _ (Shared p _ _)).
  - by apply Hquiet.
  - eapply reaper_step_verdicts in Hr as [Hv Hran]; [|done]. by apply Hquiet.
  - by apply Hquiet.
  - apply shipper_step_verdicts in Hq as [Hv Hran]. by apply Hquiet.
Qed.

Lemma cluster_inv_step a C C' : cluster_inv C → cluster_step a C C' → cluster_inv C'.
Proof.
  intros [Hb Hn] Hs. destruct Hs as [k n a y' p nodes runs Hk Hs|be cfg args lines su s' wd p nodes runs Hsw
    |k n p nodes runs Hk|ctx e ty payload r s' out p nodes runs Hs]; simpl in *.
  - pose proof (Hn _ _ Hk) as Hinv. split; simpl; [by eapply books_own|].
    intros k' n' [(-> & <- & _)|[_ Hk']]%list_lookup_insert_Some.
    + rewrite view_node_of. by eapply proc_inv_own.
    + eapply nodes_grow; [by eapply own_step_pipe|by eapply Hn].
  - apply startWork_read_only in Hsw as ->. replace (Pipe (p_pg p) (p_ch p)) with p by (by destruct p).
    split; simpl.
    + eapply (books_quiet p _ (phases nodes)); [done|done|by apply phases_boot..|exact Hb].
    + intros k n [Hk|[_ Hk]]%lookup_app_Some; [by eapply Hn|].
      apply list_lookup_singleton_Some in Hk as [_ <-].
      apply (proc_inv_init cfg su (Shared p wd [])). apply (bk_pipe _ _ _ Hb).
  - split; simpl.
    + destruct (phases_insert _ _ _ Hk) as (l1 & l2 & E & ->). by rewrite E in Hb.
    + intros k' n' [(-> & <- & _)|[_ Hk']]%list_lookup_insert_Some; [|by eapply Hn].
      eapply proc_inv_grow; [|exact (Hn _ _ Hk)]. done.
  - destruct (submit_pipe _ _ _ _ _ _ _ _ (p_ch p) Hs) as [Hp Hv]. destruct p as [s ch]. simpl in *. split; simpl.
    + by eapply books_quiet.
    + intros k n Hk. eapply nodes_grow; [exact Hp|by eapply Hn].
Qed.

Lemma cluster_inv_reachable C : cluster_reachable C → cluster_inv C.
Proof.
  intros H. unfold cluster_reachable in H. pose proof cluster_inv_empty as Hi. revert Hi.
  induction H as [|C1 C2 C3 [a Hs] _ IH]; [done|]. intros Hi. apply IH. by eapply cluster_inv_step.
Qed.

(** ** A process of the cluster *)

(** The run of a process among the others, since it started. *)
Definition running p n : Prop :=
  ∃ su x, pipe_reachable (sh_pipe x) ∧ rtc (proc_step (n_cfg n)) (work_init (n_cfg n) su x) (view p n).

Lemma proc_steps_other cfg p p' n :
  n_crashed n = false → rtc pipe_step p p' → rtc (proc_step cfg) (view p n) (view p' n).
Proof.
  intros Hc. unfold view. rewrite Hc. induction 1 as [|p p1 p' Hs _ IH]; [done|].
  eapply rtc_l; [by apply ps_other|exact IH].
Qed.

Lemma own_step_alive cfg a y y' : own_step cfg a y y' → pr_crashed y = false.
Proof. by destruct 1. Qed.

Lemma running_other p p' n : n_crashed n = false → rtc pipe_step p p' → running p n → running p' n.
Proof.
  intros Hc Hs (su & x & Hx & Hr). exists su, x. split; [done|]. etrans; [exact Hr|]. by apply proc_steps_other.
Qed.

Lemma running_step a C C' :
  cluster_inv C → cluster_step a C C' →
  (∀ k n, cl_nodes C !! k = Some n → n_crashed n = false → running (cl_pipe C) n) →
  ∀ k n, cl_nodes C' !! k = Some n → n_crashed n = false → running (cl_pipe C') n.
Proof.
  intros [Hb Hn] Hs Hr. destruct Hs as [k n a y' p nodes runs Hk Hs|be cfg args lines su s' wd p nodes runs Hsw
    |k n p nodes runs Hk|ctx e ty payload r s' out p nodes runs Hs]; simpl in *; intros k' n'.
  - intros [(-> & <- & _)|[_ Hk']]%list_lookup_insert_Some Hc.
    + pose proof (own_step_alive _ _ _ _ Hs) as Hal. destruct (Hr _ _ Hk Hal) as (su & x & Hx & Hst).
      exists su, x. split; [done|]. rewrite view_node_of. eapply rtc_r; [exact Hst|]. by eapply ps_own.
    + eapply running_other; [done|exact (own_step_pipe _ _ _ _ (Hn _ _ Hk) Hs)|by eapply Hr].
  - apply startWork_read_only in Hsw as ->. replace (Pipe (p_pg p) (p_ch p)) with p by (by destruct p).
    intros [Hk|[_ Hk]]%lookup_app_Some Hc; [by eapply Hr|].
    apply list_lookup_singleton_Some in Hk as [_ <-]. exists su, (Shared p wd []).
    split; [apply (bk_pipe _ _ _ Hb)|]. by apply rtc_refl.
  - intros [(-> & <- & _)|[_ Hk']]%list_lookup_insert_Some Hc; [done|by eapply Hr].
  - destruct (submit_pipe _ _ _ _ _ _ _ _ (p_ch p) Hs) as [Hp _]. destruct p as [s ch]. intros Hk Hc.
    eapply running_other; [done|exact Hp|by eapply Hr].
Qed.

End cluster.

Section theorems.
Context {Pg : Postgres} {Ch : ClickHouse} {O : Otel} {En : Encoding} {Q : Quoting} {Px : Pgx} {Pr : Prometheus}.

(** The cluster refines the processes: in every reachable state of the
    cluster, whatever the other processes did, started, crashed or were killed,
    each process that is alive has made a run of the model of one process among
    arbitrary others since it started, and the databases are reachable, so every
    theorem about a single process and about the tables holds of the whole
    system; and whichever shippers ran, ClickHouse has every event marked
    shipped, its deduplicated view nothing but faithful copies of outbox events,
    and all of them once nothing is pending. *)
Theorem cluster_projects C :
  cluster_reachable C →
  pipe_reachable (cl_pipe C) ∧ reachable (cl_db C) ∧ delivered (cl_pipe C) ∧
  ∀ k n, cl_nodes C !! k = Some n → n_crashed n = false →
    ∃ su x, pipe_reachable (sh_pipe x) ∧
      rtc (proc_step (n_cfg n)) (work_init (n_cfg n) su x) (view (cl_pipe C) n).
Proof.
  intros H. pose proof (cluster_inv_reachable _ H) as Hi. pose proof (bk_pipe _ _ _ (ci_books _ Hi)) as Hp.
  split_and!; [done|by apply pipe_reachable_db|by apply pipe_delivered|]. clear Hi Hp. revert C H.
  apply (rtc_ind_r (R:=some_step) (λ C, ∀ k n, cl_nodes C !! k = Some n → n_crashed n = false → running (cl_pipe C) n));
    [done|]. intros C C' Hre [a Hs] IH. eapply running_step; [by apply cluster_inv_reachable|exact Hs|exact IH].
Qed.

(** The runs of a job. *)
Definition runs_of (id : Z) (C : cluster) : list run := filter (λ q, Job_ID q.1 = id) (cl_runs C).

Lemma runs_claimed C id :
  cluster_reachable C → (length (runs_of id C) ≤ claims_of id (outbox (cl_db C)))%nat.
Proof.
  intros H. destruct (cluster_inv_reachable _ H) as [[_ Ha Hl _ _ _] _]. unfold all_jobs in *.
  rewrite fmap_app in Ha. apply NoDup_app in Ha as (_ & _ & Ha). unfold runs_of, claims_of.
  rewrite <-(length_fmap (attempt ∘ fst)), <-(length_fmap (λ ev, (JobID ev, Event_Attempts ev)) (filter _ (outbox _))).
  apply submseteq_length, NoDup_submseteq.
  - rewrite list_fmap_compose. eapply sublist_NoDup; [exact Ha|]. apply fmap_sublist, fmap_sublist, sublist_filter.
  - intros t (q & -> & [Hq Hin]%list_elem_of_filter)%list_elem_of_fmap.
    destruct (Hl q.1) as (i & ev & Hev & Het & Hid & Hat & _); [apply elem_of_app; right; by apply list_elem_of_fmap_2|].
    apply list_elem_of_fmap. exists ev. split; [unfold attempt; simpl; by rewrite Hid, Hat|].
    apply list_elem_of_filter. by rewrite Hid.
Qed.

(** C4. At most once per attempt: over the whole history of the cluster, with any
    number of processes, crashes, restarts, expired leases and lost reports, no
    attempt of a job is ever given to a handler twice, by whichever process;
    each run was claimed under its worker's name, with the type, payload and
    trace context that were submitted; a job's handler has run at most as often
    as its [attempts] column says; and no two events of the outbox report on the
    same run. *)
Theorem cluster_at_most_once C :
  cluster_reachable C →
  NoDup (attempt <$> (cl_runs C).*1) ∧
  (∀ j err, (j, err) ∈ cl_runs C → (∃ i, logged (cl_db C) i j) ∧ carried (cl_db C) j) ∧
  (∀ id r, jobs (cl_db C) !! id = Some r → Z.of_nat (length (runs_of id C)) ≤ r_attempts r) ∧
  verdicts (cl_db C) ⊆+ run_verdict <$> cl_runs C.
Proof.
  intros H. pose proof (cluster_inv_reachable _ H) as [[Hp Ha Hl Hc _ Hv] _]. split_and!.
  - unfold all_jobs in Ha. rewrite fmap_app in Ha. by apply NoDup_app in Ha as (_ & _ & Ha).
  - intros j err Hin. assert (j ∈ all_jobs (phases (cl_nodes C)) (cl_runs C)) as Hj.
    { apply elem_of_app. right. by apply (list_elem_of_fmap_2 fst _ (j, err)). }
    split; [by apply Hl|by apply Hc].
  - intros id r Hr. destruct (outbox_counts _ _ _ (pipe_reachable_db _ Hp) Hr) as [-> _].
    apply Nat2Z.inj_le. by apply runs_claimed.
  - etrans; [|exact Hv]. by apply submseteq_inserts_r.
Qed.

(** What a terminal row says of the runs. *)
Lemma terminal_ran C id r :
  cluster_reachable C → jobs (cl_db C) !! id = Some r →
  (r_status r = StatusCompleted →
     ∃ j, (j, None) ∈ cl_runs C ∧ Job_ID j = id ∧ Type_ j = r_type r ∧ Payload j = r_payload r) ∧
  (r_status r = StatusFailed →
     (∃ j err, (j, Some err) ∈ cl_runs C ∧ Job_ID j = id ∧ Type_ j = r_type r ∧ Payload j = r_payload r) ∨
     reaped_failed id (outbox (cl_db C))).
Proof.
  intros H Hr. pose proof (cluster_inv_reachable _ H) as [[Hp _ _ Hc _ Hv] _].
  pose proof (terminal_explained _ _ _ (pipe_reachable_db _ Hp) Hr) as Hx.
  assert (∀ b, (id, b) ∈ verdicts (cl_db C) → ∃ j err, (j, err) ∈ cl_runs C ∧ bool_decide (err = None) = b ∧
    Job_ID j = id ∧ Type_ j = r_type r ∧ Payload j = r_payload r) as Hrun.
  { intros b Hb. eapply elem_of_submseteq in Hb; [|etrans; [|exact Hv]; by apply submseteq_inserts_r].
    apply list_elem_of_fmap in Hb as ([j err] & [= Eid ->] & Hin). exists j, err. simpl in *. split_and!; try done.
    all: destruct (Hc j) as (r' & Hr' & Hty & Hpl & _);
      [apply elem_of_app; right; by apply (list_elem_of_fmap_2 fst _ (j, err))|]; subst; unfold cl_db in *; congruence. }
  split; intros Hst; rewrite Hst in Hx; simpl in Hx.
  - destruct (Hrun _ Hx) as (j & err & Hin & Herr & H'). apply bool_decide_eq_true in Herr as ->. by exists j.
  - destruct Hx as [Hx|Hx]; [left|by right]. destruct (Hrun _ Hx) as (j & err & Hin & Herr & H').
    apply bool_decide_eq_false in Herr. destruct err as [err|]; [|done]. by exists j, err.
Qed.

(** C8. The tables tell the truth: in every reachable state of the cluster, a job
    whose row is completed has had a run of its handler that succeeded, on the
    type and payload of the row, and a job whose row is failed has had a run
    that failed or was given up by the reaper. *)
Theorem cluster_truthful C id r :
  cluster_reachable C → jobs (cl_db C) !! id = Some r →
  (r_status r = StatusCompleted →
     ∃ j, (j, None) ∈ cl_runs C ∧ Job_ID j = id ∧ Type_ j = r_type r ∧ Payload j = r_payload r) ∧
  (r_status r = StatusFailed →
     (∃ j err, (j, Some err) ∈ cl_runs C ∧ Job_ID j = id ∧ Type_ j = r_type r ∧ Payload j = r_payload r) ∨
     reaped_failed id (outbox (cl_db C))).
Proof. apply terminal_ran. Qed.

End theorems.
