(* ===== verification/Contract.v ===== *)
(** * The contract with a user

    Everything together: a client enqueues a job on the command line, the
    cluster does what it does, and the client watches the job.  What the two
    commands print can be relied on. *)

From stdpp Require Import prelude gmap strings list pretty relations sorting.
From S2P Require Import Prelude GoBase Job Store StoreFacts Steps Claim Invariant History StoreSpec Outbox Verdicts.
From S2P Require Import Tracing Worker WorkerFacts Shipper ShipperFacts GrpcServer Handlers Config Process.
From S2P Require Import Metrics Fmt Flag Json JsonFacts Cli Work WorkFacts CliFacts Main Cluster.
#[local] Open Scope jq_scope.

Section contract.
Context {Pg : Postgres} {Ch : ClickHouse} {O : Otel} {En : Encoding} {Q : Quoting} {Px : Pgx} {Pr : Prometheus}.
Context {G : Grpc}.
Implicit Types (C : cluster) (ce : call_env span_context) (turns : list watch_turn).

(** ** Runs of the cluster *)

Lemma cluster_steps_reachable C C' : cluster_reachable C → rtc some_step C C' → cluster_reachable C'.
Proof. unfold cluster_reachable. by etrans. Qed.

Lemma cluster_step_runs a C C' : cluster_step a C C' → cl_runs C `prefix_of` cl_runs C'.
Proof. destruct 1; simpl; try done. by eexists. Qed.

Lemma cluster_steps_runs C C' : rtc some_step C C' → cl_runs C `prefix_of` cl_runs C'.
Proof. induction 1 as [|C C1 C' [a Hs] _ IH]; [done|]. etrans; [by eapply cluster_step_runs|exact IH]. Qed.

Lemma cluster_step_pipe a C C' : cluster_inv C → cluster_step a C C' → rtc pipe_step (cl_pipe C) (cl_pipe C').
Proof.
  intros Hinv Hs. destruct Hs as [k n a y' p nodes runs Hk Hs|be cfg args lines su s' wd p nodes runs Hsw
    |k n p nodes runs Hk|ctx e ty payload r s' out p nodes runs Hs]; simpl.
  - exact (own_step_pipe _ _ _ _ (ci_nodes _ Hinv _ _ Hk) Hs).
  - apply startWork_read_only in Hsw as ->. by destruct p.
  - done.
  - destruct p. by apply (submit_pipe _ _ _ _ _ _ _ _ _ Hs).
Qed.

Lemma cluster_steps_pipe C C' : cluster_reachable C → rtc some_step C C' → rtc pipe_step (cl_pipe C) (cl_pipe C').
Proof.
  intros Hre Hs. induction Hs as [|C C1 C' [a Hs] _ IH]; [done|].
  etrans; [by eapply cluster_step_pipe; [apply cluster_inv_reachable|]|]. apply IH.
  eapply cluster_steps_reachable; [exact Hre|]. apply rtc_once. by exists a.
Qed.

Lemma cluster_pipe_inv C : cluster_reachable C → pipe_inv (cl_pipe C).
Proof. intros H. by apply pipe_reachable_inv, (bk_pipe _ _ _ (ci_books _ (cluster_inv_reachable _ H))). Qed.

(** A row stays the same job. *)
Lemma cluster_same_job C C' id r :
  cluster_reachable C → rtc some_step C C' → jobs (cl_db C) !! id = Some r →
  ∃ r', jobs (cl_db C') !! id = Some r' ∧ same_job r r'.
Proof.
  intros Hre Hs Hr. eapply steps_same_job; [|by apply pipe_steps_db, cluster_steps_pipe|done].
  by apply pi_wf, cluster_pipe_inv.
Qed.

(** ** Enqueue *)

(** The cluster after a command changed the tables. *)
Definition with_tables (s : db) C : cluster := Cluster (Pipe s (p_ch (cl_pipe C))) (cl_nodes C) (cl_runs C).

(** A call that reached the server was a [Submit]. *)
Lemma client_Submit_step ce ty pl C id s1 :
  client_Submit ce ty pl (cl_db C) = (Ok id, s1) → some_step C (with_tables s1 C).
Proof.
  unfold client_Submit, call. destruct (utf8 ty); [|done]. destruct (ce_fault ce) as [[[] t]|]; [done..|].
  destruct (Submit (ce_ctx ce) (ce_stmt ce) ty pl (cl_db C)) as [[r s'] out] eqn:E. simpl.
  intros [= _ <-]. exists (ActStmt (ce_stmt ce)). destruct C as [p nodes runs]. by eapply cl_submit.
Qed.

(** ** Watch *)

(** Every update comes from a row of the tables of a turn. *)
Lemma WatchStatus_origin id turns u :
  u ∈ (WatchStatus id turns).1 →
  ∃ t r, t ∈ turns ∧ jobs (wt_db t) !! id = Some r ∧ Upd_Status u = status_text (r_status r).
Proof.
  induction turns as [|t turns IH]; simpl; [by intros ?%elem_of_nil|].
  destruct (ctx_err (wt_ctx t)); [by intros ?%elem_of_nil|].
  destruct (GetStatus _ _ _ _) as [snap|err] eqn:E; [|by intros ?%elem_of_nil].
  assert (∃ r, jobs (wt_db t) !! id = Some r ∧ Upd_Status (update_of snap) = status_text (r_status r)) as (r & Hr & Hu).
  { unfold GetStatus, run_stmt, stmt_get in E. destruct (jobs (wt_db t) !! id) as [r|];
      repeat case_match; simplify_eq/=; by exists r. }
  assert (∀ u', u' = update_of snap → ∃ t' r', t' ∈ t :: turns ∧ jobs (wt_db t') !! id = Some r' ∧
    Upd_Status u' = status_text (r_status r')) as Hthis by (intros u' ->; exists t, r; split; [by left|done]).
  destruct (wt_send t); [by intros ?%elem_of_nil|]. destruct (_ || _); [intros ->%list_elem_of_singleton; by apply Hthis|].
  destruct (wt_done t); [intros ->%list_elem_of_singleton; by apply Hthis|].
  destruct (WatchStatus id turns) as [us q]. simpl in *. intros [->|Hin]%elem_of_cons; [by apply Hthis|].
  destruct (IH Hin) as (t' & r' & Ht' & H'). exists t', r'. split; [by right|done].
Qed.

(** A watch that returns prints a terminal update last. *)
Lemma watch_last dial open broken turns cfg args s lines s' fs rest :
  Parse_loop id_flags args = Ok (fs, rest) → runWatch dial open broken turns cfg args s = (lines, Returns tt, s') →
  ∃ u, last (printed lines) = Some (Out (status_line u)) ∧ Id u = get_int fs "id" ∧
    u ∈ (WatchStatus (get_int fs "id") turns).1 ∧ upd_terminal u.
Proof.
  intros Hp Hr. destruct (runWatch_parsed dial open broken turns cfg args s fs rest Hp)
    as [[_ [l Hl]]|(_ & _ & _ & Hl)]; rewrite Hl in Hr; [done|].
  pose proof (WatchStatus_ids (get_int fs "id") turns) as Hids.
  destruct (WatchStatus (get_int fs "id") turns) as [us r] eqn:E. apply WatchStatus_shape in E.
  destruct broken as [[n t]|]; [done|]. destruct r; [|done..].
  cbn [received fst snd] in Hr. destruct (recv_all us s) as (l & Hf & Hpr). rewrite Hf in Hr. injection Hr as <- _.
  destruct E as (pre & u & -> & _ & Hu). exists u. rewrite Hpr, fmap_app.
  cbn [fmap list_fmap fst] in *. rewrite last_snoc. apply Forall_app in Hids as [_ [Hid _]%Forall_cons].
  split_and!; [done|done|apply elem_of_app; right; by left|done].
Qed.

(** What a terminal status means, in a cluster. *)
Definition really C (id : Z) (ty doc st : string) : Prop :=
  st = "completed" ∧ (∃ j, (j, None) ∈ cl_runs C ∧ Job_ID j = id ∧ Type_ j = ty ∧ Payload j = doc) ∨
  st = "failed" ∧ ((∃ j err, (j, Some err) ∈ cl_runs C ∧ Job_ID j = id ∧ Type_ j = ty ∧ Payload j = doc) ∨
                   reaped_failed id (outbox (cl_db C))).

Lemma really_mono C C' id ty doc st :
  cluster_reachable C → rtc some_step C C' → really C id ty doc st → really C' id ty doc st.
Proof.
  intros Hre Hs. pose proof (cluster_steps_runs _ _ Hs) as Hruns.
  destruct (pipe_steps_spec _ _ (cluster_pipe_inv _ Hre) (cluster_steps_pipe _ _ Hre Hs)) as (_ & Ho & _).
  intros [[-> (j & Hj & H)]|[-> [(j & err & Hj & H)|(ev & Hev & H)]]].
  - left. split; [done|]. exists j. split; [by eapply elem_of_prefix|done].
  - right. split; [done|]. left. exists j, err. split; [by eapply elem_of_prefix|done].
  - right. split; [done|]. right. exists ev. split; [by eapply elem_of_prefix|done].
Qed.

(** The status text of a terminal row is true. *)
Lemma status_really C id r :
  cluster_reachable C → jobs (cl_db C) !! id = Some r →
  r_status r = StatusCompleted ∨ r_status r = StatusFailed →
  really C id (r_type r) (r_payload r) (status_text (r_status r)).
Proof.
  intros Hre Hr Hst. destruct (terminal_ran C id r Hre Hr) as [Hc Hf].
  destruct Hst as [Hst|Hst]; rewrite Hst; [left|right]; auto.
Qed.

(** C1. The contract with a user, over the whole system: when [jobqueue enqueue]
    returns it has printed the id of one new job, which no row had and no handler
    has seen;
    from then on, whatever the processes of the cluster do, the job is there
    with the type and the document that were given; and when a
    [jobqueue watch] of that id, polling whatever states the cluster passes
    through, returns, the last line it has printed says completed or failed and
    it is so: a handler run on that type and document succeeded, or one failed
    or the reaper gave the job up. *)
Theorem user_contract ce cfg args C lines s1 :
  cluster_reachable C → runEnqueue ce cfg args (cl_db C) = (lines, Returns tt, s1) →
  ∃ fs rest id doc, Parse_loop enqueue_flags args = Ok (fs, rest) ∧
    let ty := get_string fs "type" in
    jsonb_in (get_string fs "payload") = Some doc ∧
    printed lines = [Out ("enqueued job " +:+ pretty id +:+ " (type=" +:+ ty +:+ ")")] ∧
    some_step C (with_tables s1 C) ∧ jobs (cl_db C) !! id = None ∧ (∀ q, q ∈ cl_runs C → Job_ID q.1 ≠ id) ∧
    ∀ C2, rtc some_step (with_tables s1 C) C2 →
      (∃ r, jobs (cl_db C2) !! id = Some r ∧ r_type r = ty ∧ r_payload r = doc) ∧
      ∀ dial open broken turns cfg' wargs wfs wrest s lines' s',
        Parse_loop id_flags wargs = Ok (wfs, wrest) → get_int wfs "id" = id →
        Forall (λ t, ∃ C', rtc some_step (with_tables s1 C) C' ∧ rtc some_step C' C2 ∧ wt_db t = cl_db C') turns →
        runWatch dial open broken turns cfg' wargs s = (lines', Returns tt, s') →
        ∃ u, last (printed lines') = Some (Out (status_line u)) ∧ Id u = id ∧ really C2 id ty doc (Upd_Status u).
Proof.
  intros Hre Hrun. pose proof (pi_wf _ (cluster_pipe_inv _ Hre)) as Hwf.
  destruct (Parse_loop enqueue_flags args) as [[fs rest]|err] eqn:Hp;
    [|unfold runEnqueue, func, parse_flags in Hrun; by rewrite Hp in Hrun].
  destruct (runEnqueue_parsed ce cfg args (cl_db C) fs rest Hp) as [(l & Hl & _)|(_ & _ & _ & r & s' & Hs & Hl)];
    rewrite Hl in Hrun; [done|]. destruct r as [id|t]; [|done]. injection Hrun as <- <-.
  pose proof (client_Submit_step _ _ _ _ _ _ Hs) as Hstep.
  apply client_Submit_effect in Hs as (_ & doc & k & Hdoc & Hnew & Hj & _); [|done].
  set (C1 := with_tables s' C) in *.
  assert (cluster_reachable C1) as Hre1 by (eapply cluster_steps_reachable; [exact Hre|by apply rtc_once]).
  assert (∀ C', rtc some_step C1 C' → ∃ r, jobs (cl_db C') !! id = Some r ∧ r_type r = get_string fs "type" ∧ r_payload r = doc) as Hthere.
  { intros C' Hs. assert (jobs (cl_db C1) !! id = Some _) as Hid by (unfold C1, cl_db; simpl; by rewrite Hj, lookup_insert_eq).
    destruct (cluster_same_job C1 C' id _ Hre1 Hs Hid) as (r & Hr & Hsame). exists r. destruct Hsame as (-> & -> & _). by split_and!. }
  exists fs, rest, id, doc. split; [done|]. cbv zeta. split_and!; [done|done|done|done| |].
  - intros q Hq Hid. destruct (bk_carried _ _ _ (ci_books _ (cluster_inv_reachable _ Hre)) q.1) as (r & Hr & _).
    + apply elem_of_app. right. by apply (list_elem_of_fmap_2 fst).
    + unfold cl_db in Hnew. rewrite Hid in Hr. congruence.
  - intros C2 Hs2. split; [by apply Hthere|].
    intros dial open broken turns cfg' wargs wfs wrest s lines s2 Hwp Hwid Hturns Hw.
    destruct (watch_last dial open broken turns cfg' wargs s lines s2 wfs wrest Hwp Hw) as (u & Hlast & Hu & Hin & Hterm).
    rewrite Hwid in *. exists u. split_and!; [done|done|].
    apply WatchStatus_origin in Hin as (t & rt & Ht & Hrt & Hst).
    rewrite Forall_forall in Hturns. destruct (Hturns _ Ht) as (C' & Hs1 & Hs1' & Hdb). rewrite Hdb in Hrt.
    assert (cluster_reachable C') as Hre' by (by eapply cluster_steps_reachable).
    destruct (Hthere C' Hs1) as (r' & Hr' & <- & <-). rewrite Hr' in Hrt. injection Hrt as ->. rewrite Hst.
    eapply really_mono; [exact Hre'|exact Hs1'|]. apply status_really; [done|done|].
    destruct Hterm as [H|H]; rewrite Hst in H; apply status_text_inj in H; auto.
Qed.

End contract.
