(* ===== verification/Leases.v ===== *)
(** * The cluster under the lease discipline

    A lease is meant to bound how long a worker works on a job.  Here the
    cluster runs against a clock, and the leases its workers were given are
    noted: when the statements of all processes see non-decreasing times and no
    report changes the tables after the lease of its job, the cluster is an
    instance of the abstract queue of [Lifecycle], so everything proved there
    under the discipline holds of the processes. *)

From stdpp Require Import prelude gmap strings list pretty relations sorting.
From S2P Require Import Prelude GoBase Job Store StoreFacts Steps Claim Invariant History StoreSpec Outbox Verdicts.
From S2P Require Import Tracing Worker WorkerFacts Lifecycle Shipper ShipperFacts GrpcServer Handlers Config Process.
From S2P Require Import Metrics Fmt Flag Cli Work WorkFacts Main Cluster.
#[local] Open Scope jq_scope.

Section leases.
Context {Pg : Postgres} {Ch : ClickHouse} {O : Otel} {En : Encoding} {Q : Quoting} {Px : Pgx} {Pr : Prometheus}.
Implicit Types (a : act) (C : cluster) (s : db) (ls : list (Job * Z)).

(** The cluster, the latest time a statement saw, and the leases given to
    workers, with their ends. *)
Record timed : Type := Timed {
  tm_cluster : cluster;
  tm_clock : Z;
  tm_leases : list (Job * Z);
}.
Implicit Types (T : timed).

(** The leases once [j] is reported. *)
Definition drop_lease (j : Job) ls : list (Job * Z) := filter (λ q, token q ≠ attempt j) ls.

(** A step from the tables [s] to [s'] under the discipline. *)
Definition timely a s s' (c : Z) ls (c' : Z) ls' : Prop :=
  match a with
  | Tau | ActRun _ _ => c' = c ∧ ls' = ls
  | ActStmt e | ActClaim _ e None => c ≤ env_now e ∧ c' = env_now e ∧ ls' = ls
  | ActClaim lease e (Some j) =>
      c ≤ env_now e ∧ c' = env_now e ∧
      ∃ iv, interval_in (Duration_String lease) = Some iv ∧ ls' = (j, env_now e + iv) :: ls
  | ActReport e j =>
      c ≤ env_now e ∧ c' = env_now e ∧ ls' = drop_lease j ls ∧
      ∀ dl, (j, dl) ∈ ls → env_now e ≤ dl ∨ s' = s
  end.

Inductive timed_step : timed → timed → Prop :=
| tm_step a C C' c ls c' ls' :
    cluster_step a C C' → timely a (cl_db C) (cl_db C') c ls c' ls' →
    timed_step (Timed C c ls) (Timed C' c' ls').

Definition timed_reachable T : Prop := rtc timed_step (Timed cluster_empty 0 []) T.

Lemma timed_reachable_cluster T : timed_reachable T → cluster_reachable (tm_cluster T).
Proof.
  intros H. unfold timed_reachable, cluster_reachable in *. change cluster_empty with (tm_cluster (Timed cluster_empty 0 [])).
  induction H as [|T1 T2 T3 Hs _ IH]; [done|]. destruct Hs as [a C C' c ls c' ls' Hs _].
  eapply rtc_l; [by exists a|exact IH].
Qed.

(** ** What the workers hold *)

Lemma held_jobs_split (phs : list wphase) :
  omap held_job phs ≡ₚ omap unrun phs ++ (omap owed phs).*1.
Proof.
  induction phs as [|[] phs IH]; simpl; try done; rewrite IH; [done|]. by rewrite Permutation_middle.
Qed.

Lemma held_NoDup p phs runs : books p phs runs → NoDup (attempt <$> omap held_job phs).
Proof.
  intros [_ Ha _ _ Ho _]. eapply NoDup_submseteq_inv; [|exact Ha]. apply fmap_submseteq.
  rewrite held_jobs_split. unfold all_jobs. apply submseteq_skips_l. by apply fmap_submseteq.
Qed.

Definition covered (phs : list wphase) ls : Prop := ∀ j, j ∈ omap held_job phs → ∃ dl, (j, dl) ∈ ls.

Lemma drop_lease_perm j dl ls :
  NoDup (token <$> ls) → (j, dl) ∈ ls → ls ≡ₚ (j, dl) :: drop_lease j ls.
Proof.
  unfold drop_lease. induction ls as [|q ls IH]; [by intros _ []%elem_of_nil|].
  simpl. intros [Hq Hnd]%NoDup_cons Hin. rewrite filter_cons. case_decide as Hd.
  - apply elem_of_cons in Hin as [<-|Hin]; [done|]. rewrite IH at 1 by done. apply Permutation_swap.
  - assert (token q = attempt j) as E by (destruct (decide (token q = attempt j)); [done|by destruct Hd]). clear Hd.
    apply elem_of_cons in Hin as [<-|Hin].
    + rewrite filter_all; [done|]. intros q' Hq' E'. apply Hq.
      apply list_elem_of_fmap. exists q'. by rewrite E'.
    + exfalso. apply Hq. apply list_elem_of_fmap. exists (j, dl). by rewrite E.
Qed.

(** ** What a step does *)

(** To the tables. *)
Definition db_effect a s s' : Prop :=
  s' = s ∨
  match a with
  | Tau | ActRun _ _ => False
  | ActStmt e =>
      (∃ ty pl tc id, stmt_enqueue ty pl tc e s = Ok (id, s')) ∨ (∃ nd, stmt_reap e s = Ok (nd, s')) ∨
      (∃ ids, stmt_mark_shipped ids e s = Ok (tt, s'))
  | ActClaim lease e o => ∃ w jl, stmt_claim w lease 1 e s = Ok (jl, s')
  | ActReport e j =>
      stmt_complete (Job_ID j) e s = Ok (tt, s') ∨
      (∃ t msg, Attempts j < MaxAttempts j ∧ stmt_retry (Job_ID j) t msg e s = Ok (tt, s')) ∨
      (∃ msg, MaxAttempts j ≤ Attempts j ∧ stmt_fail (Job_ID j) msg e s = Ok (tt, s'))
  end.

(** A claim that returns a job has committed. *)
Definition claim_effect a s s' : Prop :=
  match a with
  | ActClaim lease e (Some j) => ∃ w l, stmt_claim w lease 1 e s = Ok (j :: l, s')
  | _ => True
  end.

(** To the jobs of a worker, and of all of them. *)
Definition hand_effect a (o o' : option Job) : Prop :=
  match a with
  | ActClaim _ _ (Some j) => o = None ∧ o' = Some j
  | ActReport _ j => o = Some j ∧ o' = None
  | _ => o' = o
  end.

Definition hands_effect a (l l' : list Job) : Prop :=
  match a with
  | ActClaim _ _ (Some j) => l' ≡ₚ j :: l
  | ActReport _ j => l ≡ₚ j :: l'
  | _ => l' = l
  end.

Lemma worker_step_effect cfg i c a ph x ph' x' :
  worker_step cfg i c a ph x ph' x' →
  db_effect a (sh_db x) (sh_db x') ∧ claim_effect a (sh_db x) (sh_db x') ∧ hand_effect a (held_job ph) (held_job ph').
Proof.
  intros Hs. destruct Hs as [iv x Hc|iv x Hc|iv x ctx e elapsed r s' _ Hcl|iv x Hc|iv x
    |j x he ctx elapsed err st' Hx|j x he ctx err pe st' _ Hr]; try (by split_and!; [left|..]).
  - pose proof Hcl as Hcl'. apply run_stmt_atomic in Hcl'. split_and!.
    + destruct Hcl' as [->|(jl & Hj)]; [by left|right]. by eauto.
    + destruct r as [[|j l]|err]; simpl; try done. apply run_stmt_ok in Hcl. eauto.
    + by destruct r as [[|j l]|err].
  - split_and!; [|done|done]. left. by apply process_execute_db in Hx.
  - split_and!; [|done|done]. apply process_report_stmt in Hr as [E|Hr]; [by left|right].
    destruct err as [err|]; [|by left]. right. case_decide; [right|left].
    + destruct Hr as [msg Hr]. eauto.
    + destruct Hr as (t & msg & Hr). exists t, msg. split; [lia|done].
Qed.

Lemma hands_of_hand a (o o' : option Job) (l1 l2 l l' : list Job) :
  hand_effect a o o' → l = l1 ++ option_list o ++ l2 → l' = l1 ++ option_list o' ++ l2 → hands_effect a l l'.
Proof.
  intros H -> ->. destruct a as [|lease e [j|]|j err|e j|e]; simpl in *; try (by rewrite H).
  - destruct H as [-> ->]. simpl. by rewrite Permutation_middle.
  - destruct H as [-> ->]. simpl. by rewrite Permutation_middle.
Qed.

Lemma reaper_step_effect c a r x r' x' :
  reaper_step c a r x r' x' → db_effect a (sh_db x) (sh_db x') ∧ (a = Tau ∨ ∃ e, a = ActStmt e).
Proof.
  intros Hs. destruct Hs as [x Hc|x ctx e q s' _ Hq]; [split; by left|]. split; [|by eauto].
  apply run_stmt_atomic in Hq as [->|(nd & Hq)]; [by left|right]. right. left. eauto.
Qed.

Lemma shipper_step_effect cfg c a q x q' x' :
  shipper_step cfg c a q x q' x' → db_effect a (sh_db x) (sh_db x') ∧ (a = Tau ∨ ∃ e, a = ActStmt e).
Proof.
  intros Hs. destruct Hs as [| | |evs x ctx e r s' _ Hm]; try (split; by left). split; [|by eauto].
  unfold MarkEventsShipped in Hm. case_bool_decide; [injection Hm as _ <-; by left|].
  apply run_stmt_atomic in Hm as [->|([] & Hm)]; [by left|right]. right. right. eauto.
Qed.

Lemma silent_effect a s s' (l : list Job) :
  db_effect a s s' → a = Tau ∨ (∃ e, a = ActStmt e) → db_effect a s s' ∧ claim_effect a s s' ∧ hands_effect a l l.
Proof. intros H Ha. split; [done|]. by destruct Ha as [->|[e ->]]. Qed.

Lemma cluster_step_effect a C C' :
  cluster_step a C C' →
  db_effect a (cl_db C) (cl_db C') ∧ claim_effect a (cl_db C) (cl_db C') ∧
  hands_effect a (omap held_job (phases (cl_nodes C))) (omap held_job (phases (cl_nodes C'))).
Proof.
  intros Hs. destruct Hs as [k n a y' p nodes runs Hk Hs|be cfg args lines su s' wd p nodes runs Hsw
    |k n p nodes runs Hk|ctx e ty payload r s' out p nodes runs Hs]; unfold cl_db; simpl.
  - assert (∀ n', n_workers n' = n_workers n → phases (<[k := n']> nodes) = phases nodes) as Hsame.
    { intros n' Hn. destruct (phases_insert _ _ _ Hk) as (l1 & l2 & -> & ->). by rewrite Hn. }
    inversion Hs as [x c ws r sh Ex Ey|a0 i ph ph' x x' c ws r sh Hi Hw Ea Ex Ey|x c ws sh Ex Ey
      |a0 r r' x x' c ws sh Hr Ea Ex Ey|x c ws r Ex Ey|a0 q q' x x' c ws r Hq Ea Ex Ey]; subst; simpl in *;
      try (by split_and!; [left|done|rewrite Hsame]).
    + destruct (phases_worker _ _ _ _ _ Hk Hi) as (l1 & l2 & E & E'). rewrite (E' _ ph'), E by done.
      apply worker_step_effect in Hw as (Hd & Hc & Hh). split_and!; [done|done|].
      eapply hands_of_hand; [exact Hh|apply omap_middle|apply omap_middle].
    + rewrite Hsame by done. apply reaper_step_effect in Hr as [? ?]. by apply silent_effect.
    + rewrite Hsame by done. apply shipper_step_effect in Hq as [? ?]. by apply silent_effect.
  - apply startWork_read_only in Hsw as ->. rewrite phases_boot by done. by split_and!; [left|..].
  - destruct (phases_insert _ _ _ Hk) as (l1 & l2 & E & E'). rewrite E', E. by split_and!; [left|..].
  - split_and!; [|done|done]. unfold Submit, Enqueue in Hs.
    destruct (run_stmt _ _ _ _ _) as [q s1] eqn:Es. assert (s1 = s') as -> by (by destruct q; injection Hs).
    apply run_stmt_atomic in Es as [->|(id & Es)]; [by left|right]. left. by eauto 8.
Qed.

(** ** The simulation *)

Record leases_ok T (y : sys) : Prop := LeasesOk {
  lo_db : sy_db y = cl_db (tm_cluster T);
  lo_clock : sy_clock y ≤ tm_clock T;
  lo_leases : tm_leases T ⊆+ sy_held y;
  lo_covered : covered (phases (cl_nodes (tm_cluster T))) (tm_leases T);
}.

Lemma covered_mono phs phs' ls ls' :
  omap held_job phs' = omap held_job phs → (∀ q, q ∈ ls → q ∈ ls') → covered phs ls → covered phs' ls'.
Proof. intros E Hls Hc j. rewrite E. intros [dl Hdl]%Hc. eauto. Qed.

Lemma claim_interval w lease limit e s jl s' :
  stmt_claim w lease limit e s = Ok (jl, s') → ∃ iv, interval_in (Duration_String lease) = Some iv.
Proof. intros (iv & _ & Hiv & _)%stmt_claim_effect. by exists iv. Qed.

(** The statements of submitters, the reaper and the shippers, and claims whose
    result is lost. *)
Lemma quiet_sim a e s s' c held :
  a = ActStmt e ∨ (∃ lease, a = ActClaim lease e None) → c ≤ env_now e → db_effect a s s' →
  ∃ y' l, rtc sys_step (Sys s c held) y' ∧ sy_db y' = s' ∧ sy_clock y' ≤ env_now e ∧ sy_held y' = l ++ held.
Proof.
  intros Ha Hc [->|Hs]; [by exists (Sys s c held), []|].
  destruct Ha as [->|[lease ->]]; [destruct Hs as [(ty & pl & tc & id & Hs)|[(nd & Hs)|(ids & Hs)]]|destruct Hs as (w & jl & Hs)].
  - eexists _, []. split; [by eapply rtc_once, sys_submit|done].
  - eexists _, []. split; [by eapply rtc_once, sys_reap|done].
  - eexists _, []. split; [by eapply rtc_once, sys_ship|done].
  - destruct (claim_interval _ _ _ _ _ _ _ Hs) as [iv Hiv].
    eexists _, _. split; [by eapply rtc_once, sys_claim|done].
Qed.

Lemma report_sim e j dl s s' c held held' :
  c ≤ env_now e → env_now e ≤ dl ∨ s' = s → held ≡ₚ (j, dl) :: held' → db_effect (ActReport e j) s s' →
  ∃ y', rtc sys_step (Sys s c held) y' ∧ sy_db y' = s' ∧ sy_clock y' ≤ env_now e ∧ held' ⊆+ sy_held y'.
Proof.
  intros Hc Hdl Hp He. assert (s' = s ∨ sys_step (Sys s c held) (Sys s' (env_now e) held')) as [->|Hs].
  { destruct Hdl as [Hdl|]; [|by left].
    destruct He as [|[Hs|[(t & msg & Ha & Hs)|(msg & Ha & Hs)]]]; [by left|right..].
    - by eapply sys_complete.
    - by eapply sys_retry.
    - by eapply sys_fail. }
  - exists (Sys s c held). split_and!; [done|done|done|]. simpl. rewrite Hp. by apply submseteq_cons.
  - exists (Sys s' (env_now e) held'). split; [by apply rtc_once|]. done.
Qed.

(** What the others hold stays covered when [j] is released. *)
Lemma covered_drop phs phs' ls j :
  NoDup (attempt <$> omap held_job phs) → omap held_job phs ≡ₚ j :: omap held_job phs' →
  covered phs ls → covered phs' (drop_lease j ls).
Proof.
  intros Hnd Hp Hc b Hb. destruct (Hc b) as [dl Hdl]; [rewrite Hp; by right|]. exists dl.
  apply list_elem_of_filter. split; [|done]. rewrite Hp in Hnd. apply NoDup_cons in Hnd as [Hn _].
  intros E. apply Hn. rewrite <-E. by apply (list_elem_of_fmap_2 attempt).
Qed.

(** A claim that committed is one of the abstract queue, whether its answer
    arrived or not. *)
Lemma claim_sim lease e o C C' c ls c' ls' y :
  leases_ok (Timed C c ls) y → timely (ActClaim lease e o) (cl_db C) (cl_db C') c ls c' ls' →
  claim_effect (ActClaim lease e o) (cl_db C) (cl_db C') →
  hands_effect (ActClaim lease e o) (omap held_job (phases (cl_nodes C))) (omap held_job (phases (cl_nodes C'))) →
  db_effect (ActClaim lease e o) (cl_db C) (cl_db C') → (o = None → cl_db C' ≠ cl_db C) →
  ∃ w iv jl, sy_clock y ≤ env_now e ∧ interval_in (Duration_String lease) = Some iv ∧
    stmt_claim w lease 1 e (sy_db y) = Ok (jl, cl_db C') ∧
    leases_ok (Timed C' c' ls')
      (Sys (cl_db C') (env_now e) (((λ j, (j, env_now e + iv)) <$> jl) ++ sy_held y)).
Proof.
  intros [Hdb Hclock Hls Hcov] Ht Hcl Hh Hd Hne. simpl in *. rewrite Hdb. destruct o as [j|]; simpl in *.
  - destruct Ht as (Hc & -> & iv & Hiv & ->). destruct Hcl as (w & l & Hcl).
    exists w, iv, (j :: l). split_and!; [lia|done|done|]. split; simpl; [done|done| |].
    + apply submseteq_skip. by apply submseteq_inserts_l.
    + intros b. rewrite Hh. intros [->|[dl Hdl]%Hcov]%elem_of_cons; eexists; [by left|by right].
  - destruct Ht as (Hc & -> & ->). destruct Hd as [|(w & jl & Hs)]; [by destruct (Hne eq_refl)|].
    destruct (claim_interval _ _ _ _ _ _ _ Hs) as [iv Hiv]. exists w, iv, jl. split_and!; [lia|done|done|].
    split; simpl; [done|done|by apply submseteq_inserts_l|by eapply covered_mono].
Qed.

Lemma timed_sim T T' y :
  cluster_inv (tm_cluster T) → sys_inv y → leases_ok T y → timed_step T T' →
  ∃ y', rtc sys_step y y' ∧ leases_ok T' y'.
Proof.
  intros Hci Hinv Hok Hs. destruct Hs as [a C C' c ls c' ls' Hs Ht].
  pose proof Hok as [Hdb Hclock Hls Hcov]. simpl in *.
  apply cluster_step_effect in Hs as (Hd & Hcl & Hh). destruct y as [s0 c0 held]. simpl in *. subst s0.
  assert (∀ e, a = ActStmt e ∨ (∃ lease, a = ActClaim lease e None) → c ≤ env_now e ∧ c' = env_now e ∧ ls' = ls →
    omap held_job (phases (cl_nodes C')) = omap held_job (phases (cl_nodes C)) →
    ∃ y', rtc sys_step (Sys (cl_db C) c0 held) y' ∧ leases_ok (Timed C' c' ls') y') as Hquiet.
  { intros e Ha (Hc & -> & ->) Hsame.
    destruct (quiet_sim a e (cl_db C) (cl_db C') c0 held Ha) as (y' & l & Hr & Hy & Hyc & Hyh); [lia|done|].
    exists y'. split; [done|]. split; simpl; [done|done| |by eapply covered_mono].
    rewrite Hyh. by apply submseteq_inserts_l. }
  destruct a as [|lease e [j|]|j err|e j|e]; simpl in Ht, Hcl, Hh.
  - destruct Ht as [-> ->]. destruct Hd as [Hd|[]]. exists (Sys (cl_db C) c0 held). split; [done|].
    split; simpl; [done|done|done|by eapply covered_mono].
  - destruct (claim_sim lease e (Some j) C C' c ls c' ls' _ Hok) as (w & iv & jl & Hc & Hiv & Hst & Hok'); [done..|].
    eexists. split; [by apply rtc_once, (sys_claim w lease 1 iv e jl)|exact Hok'].
  - apply (Hquiet e); [by eauto|done|done].
  - destruct Ht as [-> ->]. destruct Hd as [Hd|[]]. exists (Sys (cl_db C) c0 held). split; [done|].
    split; simpl; [done|done|done|by eapply covered_mono].
  - destruct Ht as (Hc & -> & -> & Hdl). destruct (Hcov j) as [dl Hj]; [rewrite Hh; by left|].
    assert (NoDup (token <$> ls)) as Hnd.
    { eapply NoDup_submseteq_inv; [|exact (inv_tokens _ Hinv)]. by apply fmap_submseteq. }
    pose proof (drop_lease_perm _ _ _ Hnd Hj) as Hp. pose proof Hls as Hls'. rewrite Hp in Hls'.
    apply submseteq_cons_l in Hls' as (held' & Hheld & Hrel).
    destruct (report_sim e j dl (cl_db C) (cl_db C') c0 held held') as (y' & Hr & Hy & Hyc & Hyh);
      [lia|by apply Hdl|done|done|].
    exists y'. split; [done|]. split; simpl; [done|done|by etrans|].
    eapply covered_drop; [|exact Hh|exact Hcov]. by eapply held_NoDup, ci_books.
  - apply (Hquiet e); [by eauto|done|done].
Qed.

Lemma sys_steps_reachable y y' : sys_reachable y → rtc sys_step y y' → sys_reachable y'.
Proof. unfold sys_reachable. by etrans. Qed.

Lemma timed_steps_sim T T' y :
  cluster_reachable (tm_cluster T) → sys_reachable y → leases_ok T y → rtc timed_step T T' →
  ∃ y', rtc sys_step y y' ∧ leases_ok T' y'.
Proof.
  intros Hc Hy Hok Hs. revert y Hc Hy Hok. induction Hs as [T|T T1 T' Hs _ IH]; intros y Hc Hy Hok; [by exists y|].
  destruct (timed_sim T T1 y) as (y1 & Hr1 & Hok1); [by apply cluster_inv_reachable|by apply sys_inv_reachable|done..|].
  destruct (IH y1) as (y' & Hr & Hok'); [|by eapply sys_steps_reachable|done|exists y'; by split; [etrans|]].
  destruct Hs as [a C C' c ls c' ls' Hs _]. unfold cluster_reachable in *. eapply rtc_r; [exact Hc|by exists a].
Qed.

Lemma timed_empty_ok : leases_ok (Timed cluster_empty 0 []) sys_empty.
Proof. split; simpl; [done|done|done|by intros j []%elem_of_nil]. Qed.

Lemma timed_abstraction T : timed_reachable T → ∃ y, sys_reachable y ∧ leases_ok T y.
Proof.
  intros H. eapply timed_steps_sim in H as (y & Hy & Hok);
    [by exists y|apply rtc_refl|apply rtc_refl|apply timed_empty_ok].
Qed.

Lemma timed_db_steps T T' : timed_reachable T → rtc timed_step T T' → rtc db_step (cl_db (tm_cluster T)) (cl_db (tm_cluster T')).
Proof.
  intros HT Hs. destruct (timed_abstraction _ HT) as (y & Hy & Hok).
  destruct (timed_steps_sim T T' y (timed_reachable_cluster _ HT) Hy Hok Hs) as (y' & Hr & Hok').
  rewrite <-(lo_db _ _ Hok), <-(lo_db _ _ Hok'). clear -Hr.
  induction Hr as [|y y1 y' [->|Hs]%sys_db_step _ IH]; [done|by rewrite IH|by eapply rtc_l].
Qed.

(** C5. The cluster keeps the lease discipline: if in a run of the whole system the
    statements see non-decreasing times and no report changes the tables after
    its job's lease, then the tables are those of a run of the abstract queue of
    [Lifecycle], in which every job in the hands of a worker of any process is
    held under the lease it was given, and the rest of the run is one of its
    runs.  So what is proved of the abstract queue holds of any number of worker
    processes that start, stop and crash. *)
Theorem cluster_keeps_leases T T' :
  timed_reachable T → rtc timed_step T T' →
  ∃ y y', sys_reachable y ∧ rtc sys_step y y' ∧
    sy_db y = cl_db (tm_cluster T) ∧ sy_db y' = cl_db (tm_cluster T') ∧
    (∀ k i n ph j, cl_nodes (tm_cluster T) !! k = Some n → n_workers n !! i = Some ph → held_job ph = Some j →
       ∃ dl, (j, dl) ∈ sy_held y).
Proof.
  intros HT Hs. destruct (timed_abstraction _ HT) as (y & Hy & Hok).
  destruct (timed_steps_sim T T' y (timed_reachable_cluster _ HT) Hy Hok Hs) as (y' & Hr & [Hdb' _ _ _]).
  destruct Hok as [Hdb _ Hls Hcov]. exists y, y'. split_and!; try done.
  intros k i n ph j Hk Hi Hj. destruct (Hcov j) as [dl Hdl].
  - apply list_elem_of_omap. exists ph. split; [|done]. apply list_elem_of_bind. exists n.
    split; by eapply list_elem_of_lookup_2.
  - exists dl. by eapply elem_of_submseteq.
Qed.

(** C20. Under the discipline a job's handler runs at most five times, whatever
    happens to the processes; a job that has ended never changes again; a failed
    job, and no other, has a dead letter. *)
Theorem cluster_bounded T id r :
  timed_reachable T → jobs (cl_db (tm_cluster T)) !! id = Some r →
  Z.of_nat (length (runs_of id (tm_cluster T))) ≤ r_attempts r ≤ r_max_attempts r ∧ r_max_attempts r = 5 ∧
  (∀ T', rtc timed_step T T' → terminal r → jobs (cl_db (tm_cluster T')) !! id = Some r) ∧
  (id ∈ DL_JobID <$> dead_letters (cl_db (tm_cluster T)) ↔ r_status r = StatusFailed).
Proof.
  intros HT Hr. pose proof (timed_reachable_cluster _ HT) as HC. destruct (timed_abstraction _ HT) as (y & Hy & Hok).
  pose proof (sys_inv_reachable _ Hy) as Hinv. pose proof (lo_db _ _ Hok) as Hdb.
  assert (jobs (sy_db y) !! id = Some r) as Hry by (by rewrite Hdb). destruct (inv_attempts _ Hinv _ _ Hry) as [Hmax _].
  split_and!; [|done| | |split].
  - destruct (outbox_counts _ _ _ (sys_reachable_db _ Hy) Hry) as [-> _]. rewrite Hdb. apply Nat2Z.inj_le.
    by apply runs_claimed.
  - by apply (reachable_max_attempts _ _ _ (sys_reachable_db _ Hy) Hry).
  - intros T' Hs Ht. destruct (timed_steps_sim T T' y HC Hy Hok Hs) as (y' & Hr' & [Hdb' _ _ _]).
    rewrite <-Hdb'. by eapply terminal_steps.
  - rewrite <-Hdb. by eapply inv_letters.
  - rewrite <-Hdb. by eapply wf_failed; [apply (inv_wf _ Hinv)|].
Qed.

End leases.
