(* ===== verification/Starvation.v ===== *)
(** * Starvation of a job, over the whole cluster

    [Fairness] bounds the claims that pass over a due job in the abstract queue;
    here the bound is carried to the processes.  A run of the timed cluster of
    [Leases] in which no report changes the tables after its lease is followed
    claim by claim. *)

From stdpp Require Import prelude gmap strings list pretty relations sorting.
From S2P Require Import Prelude GoBase Job Store StoreFacts Steps Claim Invariant History StoreSpec Outbox Verdicts.
From S2P Require Import Tracing Worker WorkerFacts Lifecycle Fairness Shipper ShipperFacts GrpcServer Handlers.
From S2P Require Import Config Process Metrics Fmt Flag Cli Work WorkFacts Main Cluster Leases.
#[local] Open Scope jq_scope.

Section starvation.
Context {Pg : Postgres} {Ch : ClickHouse} {O : Otel} {En : Encoding} {Q : Quoting} {Px : Pgx} {Pr : Prometheus}.
Implicit Types (a : act) (C : cluster) (s : db) (T : timed).

Definition not_claim a : Prop := match a with ActClaim _ _ _ => False | _ => True end.

(** Runs of the cluster in which [n] claims committed without taking [id], [m] of
    which found its row locked by another transaction and skipped it; a claim may
    have lost its answer.  Everything else the processes, their clients and
    crashes do may happen in between. *)
Inductive overtaken (id : Z) : nat → nat → timed → timed → Prop :=
| ov_none T : overtaken id 0 0 T T
| ov_claim n m lease e o C C' c ls c' ls' T :
    cluster_step (ActClaim lease e o) C C' → timely (ActClaim lease e o) (cl_db C) (cl_db C') c ls c' ls' →
    cl_db C' ≠ cl_db C → jobs (cl_db C') !! id = jobs (cl_db C) !! id →
    overtaken id n m (Timed C' c' ls') T → overtaken id (S n) (skips id e + m) (Timed C c ls) T
| ov_other n m a C C' c ls c' ls' T :
    cluster_step a C C' → timely a (cl_db C) (cl_db C') c ls c' ls' →
    not_claim a ∨ cl_db C' = cl_db C →
    overtaken id n m (Timed C' c' ls') T → overtaken id n m (Timed C c ls) T.

(** Only claims add attempts. *)
Lemma effect_claims_nothing a s s' :
  db_wf s → db_effect a s s' → not_claim a ∨ s' = s → claims_nothing s s'.
Proof.
  intros Hwf Hd [Ha| ->]; [|by intros k]. pose proof (wf_letters_unique _ Hwf) as Hu.
  destruct Hd as [->|Hd]; [by intros k|]. destruct a as [|lease e o|j err|e j|e]; try done.
  - destruct Hd as [Hs|[(t & msg & _ & Hs)|(msg & _ & Hs)]].
    + apply stmt_complete_effect in Hs. by eapply update_claims_nothing.
    + apply stmt_retry_effect in Hs as [_ Hs]. by eapply update_claims_nothing.
    + apply stmt_fail_effect in Hs as [_ Hs]; [|done]. by eapply update_claims_nothing.
  - destruct Hd as [(ty & pl & tc & id & Hs)|[([n d] & Hs)|(ids & Hs)]].
    + by eapply submit_claims_nothing.
    + apply stmt_reap_effect in Hs as (rows & _ & _ & Hs); [|done]. by eapply update_claims_nothing.
    + injection Hs as <-. by intros k.
Qed.

(** A claim changes the row of every job it returns. *)
Lemma claim_changes w lease limit e s jl s' id :
  stmt_claim w lease limit e s = Ok (jl, s') → id ∈ Job_ID <$> jl → jobs s' !! id ≠ jobs s !! id.
Proof.
  intros Hs Hid. apply stmt_claim_effect in Hs as (iv & rows & _ & _ & _ & -> & _ & [Hrows Hj _ _ _ _]).
  rewrite Hrows, claim_returning, <-!list_fmap_compose in Hid.
  apply list_elem_of_fmap in Hid as ([k q] & Hk & Hin). simpl in Hk. subst id.
  destruct (elem_of_claim_select _ _ _ _ Hin) as (Hq & _). simpl in Hq. rewrite Hj, lookup_sql_update, Hq. simpl.
  rewrite bool_decide_true by (by apply (list_elem_of_fmap_2 fst) in Hin).
  intros [= E]. apply (f_equal r_attempts) in E. simpl in E. lia.
Qed.

(** The cluster overtakes as the abstract queue does. *)
Lemma overtaken_sim id n m T T' y :
  overtaken id n m T T' → cluster_reachable (tm_cluster T) → sys_reachable y → leases_ok T y →
  ∃ y', passed_over id n m y y' ∧ leases_ok T' y'.
Proof.
  intros Ho. revert y. induction Ho as [T|n m lease e o C C' c ls c' ls' T Hs Ht Hne Hrow _ IH
    |n m a C C' c ls c' ls' T Hs Ht Ha _ IH]; intros y Hre Hy Hok; [exists y; split; [apply passed_none|done]| |];
    assert (cluster_reachable C') as Hre' by (unfold cluster_reachable in *; eapply rtc_r; [exact Hre|by eexists]).
  - destruct (cluster_step_effect _ _ _ Hs) as (Hd & Hce & Hh).
    destruct (claim_sim lease e o C C' c ls c' ls' y Hok Ht Hce Hh Hd) as (w & iv & jl & Hc & Hiv & Hst & Hok'); [done|].
    destruct y as [s c0 held]. simpl in *.
    destruct (IH _ Hre' ltac:(unfold sys_reachable in *; eapply rtc_r; [exact Hy|by eapply sys_claim]) Hok') as (y' & Hp & Hok2).
    exists y'. split; [|done]. eapply passed_claim; [done|done|exact Hst| |exact Hp].
    intros Hin. apply (claim_changes _ _ _ _ _ _ _ _ Hst Hin). pose proof (lo_db _ _ Hok) as Hdb. simpl in Hdb.
    by rewrite Hdb.
  - destruct (timed_sim (Timed C c ls) (Timed C' c' ls') y) as (y1 & Hr & Hok1);
      [by apply cluster_inv_reachable|by apply sys_inv_reachable|done|by eapply tm_step|].
    destruct (IH y1 Hre' (sys_steps_reachable _ _ Hy Hr) Hok1) as (y' & Hp & Hok').
    exists y'. split; [|done]. apply (passed_over_trans id 0 0 n m y y1 y'); [|done].
    apply passed_zero; [by apply sys_inv_reachable|done|].
    destruct (cluster_step_effect _ _ _ Hs) as (Hd & _). rewrite (lo_db _ _ Hok), (lo_db _ _ Hok1).
    eapply effect_claims_nothing; [|exact Hd|exact Ha].
    rewrite <-(lo_db (Timed C c ls) y Hok). apply inv_wf. by apply sys_inv_reachable.
Qed.

(** Time passes in the abstract queue without a change. *)
Lemma sys_idle s c c' held : c ≤ c' → sys_step (Sys s c held) (Sys s c' held).
Proof.
  intros Hc. eapply (sys_ship [] (quiet c')); [done|]. unfold stmt_mark_shipped.
  assert (mark_row (quiet c') [] <$> job_events s = job_events s) as ->; [|by destruct s].
  rewrite <-(list_fmap_id (job_events s)) at 2. apply list_fmap_ext. intros i x _. unfold mark_row.
  by rewrite bool_decide_false by apply not_elem_of_nil.
Qed.

(** C7. No starvation in the cluster: take a job that is due in some state of a
    run of the whole system in which the times of the statements do not decrease
    and no report changes the tables after its lease.  However many jobs are
    submitted afterwards, and whatever the worker processes, their reapers and
    shippers do and however they crash, the claims that take another job before
    it are at most five for each other job of that state, and five more for each
    claim that finds its row locked by another transaction (the [SKIP LOCKED] of
    the claim query); until one takes it, its row does not change. *)
Theorem no_starvation T T' id r n m :
  timed_reachable T → jobs (cl_db (tm_cluster T)) !! id = Some r → r_status r = StatusQueued →
  r_run_after r < tm_clock T → overtaken id n m T T' →
  Z.of_nat n ≤ 5 * (Z.of_nat (size (jobs (cl_db (tm_cluster T)))) - 1 + Z.of_nat m) ∧
  jobs (cl_db (tm_cluster T')) !! id = Some r.
Proof.
  intros HT Hr Hst Hdue Ho. destruct (timed_abstraction _ HT) as ([s c held] & Hy & [Hdb Hclock Hls Hcov]).
  simpl in Hdb, Hclock. subst s. set (y := Sys (cl_db (tm_cluster T)) (tm_clock T) held).
  assert (sys_reachable y) as Hy' by (unfold sys_reachable in *; eapply rtc_r; [exact Hy|by apply sys_idle]).
  destruct (overtaken_sim id n m T T' y Ho) as (y' & Hp & Hok'); [by apply timed_reachable_cluster|done|by split|].
  rewrite <-(lo_db _ _ Hok'). by apply (passed_over_bounded y y' id r n m).
Qed.

End starvation.
