(* ===== verification/Recovery.v ===== *)
(** * Recovery

    From every state of the cluster under the lease discipline, whatever has
    crashed, one fresh worker process brings any given job to an end, whatever
    the handlers meet: its reaper and its first worker, at times late enough,
    claim, run and report until the job is completed or failed.  Each round
    writes at least one event, and the log is bounded by the number of jobs
    ([outbox_bounded]), so the rounds end. *)

From stdpp Require Import prelude gmap strings list pretty relations sorting.
From S2P Require Import Prelude GoBase Job Store StoreFacts Steps Claim Invariant History StoreSpec Outbox Verdicts.
From S2P Require Import Tracing Worker WorkerFacts Lifecycle Ledger Progress Shipper ShipperFacts GrpcServer Handlers.
From S2P Require Import Config Process Metrics Fmt Flag Cli Work WorkFacts Pool Main Cluster Leases.
#[local] Open Scope jq_scope.

(** ** Sequences on a quiet server *)

(** How far the sequences are ahead of the tables: quiet statements keep it. *)
Definition ahead (s : db) : Z * Z :=
  (next_event s - Z.of_nat (length (job_events s)), next_dead_letter s - Z.of_nat (length (dead_letters s))).

Section quiet.
Context {Pg : Postgres}.
Implicit Types (s : db) (now : Z).

Lemma insert_job_events_ahead now l s s' :
  insert_job_events (quiet now) l s = Ok s' → ahead s' = ahead s.
Proof.
  intros H. pose proof (insert_job_events_quiet _ _ _ _ H) as Hn.
  apply insert_job_events_ok in H as (k & Hev & _ & Hd & _ & Hnd & _). unfold ahead.
  rewrite Hn, Hev, Hd, Hnd, length_app, number_events_length. f_equal. lia.
Qed.

Lemma insert_dead_letters_ahead now msg rows s s' :
  NoDup (DL_JobID <$> dead_letters s) → insert_dead_letters (quiet now) msg rows s = Ok s' → ahead s' = ahead s.
Proof.
  intros Hnd H. assert (next_dead_letter s' = next_dead_letter s + Z.of_nat (length rows)) as Hn.
  { unfold insert_dead_letters in H. destruct rows as [|q rows]; [injection H as <-; simpl; lia|].
    apply bind_result_ok in H as (tbl & _ & [= <-]). unfold next_id. simpl. lia. }
  apply insert_dead_letters_ok in H as (k & Hd & _ & _ & Hev & _ & Hne & _); [|done]. unfold ahead.
  rewrite Hn, Hev, Hd, Hne, length_app, number_letters_length. f_equal. lia.
Qed.

Lemma reap_ahead now s nd s' : db_wf s → stmt_reap (quiet now) s = Ok (nd, s') → ahead s' = ahead s.
Proof.
  intros Hwf H. unfold stmt_reap in H. apply bind_result_ok in H as (s1 & Hd & (s2 & Hi & [= _ <-])%bind_result_ok).
  apply insert_job_events_ahead in Hi as ->. apply insert_dead_letters_ahead in Hd as ->; [done|].
  exact (wf_letters_unique _ Hwf).
Qed.

Lemma claim_ahead now w lease limit s jl s' : stmt_claim w lease limit (quiet now) s = Ok (jl, s') → ahead s' = ahead s.
Proof.
  unfold stmt_claim. intros (? & _ & (? & _ & (? & _ & (? & _ & (s1 & Hi & [= _ <-])%bind_result_ok)%bind_result_ok)%bind_result_ok)%bind_result_ok)%bind_result_ok.
  by apply insert_job_events_ahead in Hi as ->.
Qed.

(** The three reports. *)
Lemma report_ahead now j s s' : db_wf s → db_effect (ActReport (quiet now) j) s s' → ahead s' = ahead s.
Proof.
  intros Hwf [->|[H|[(t & msg & _ & H)|(msg & _ & H)]]]; [done|..].
  - unfold stmt_complete in H. apply bind_result_ok in H as (s1 & Hi & [= <-]).
    by apply insert_job_events_ahead in Hi as ->.
  - unfold stmt_retry in H. apply bind_result_ok in H as (? & _ & (s1 & Hi & [= <-])%bind_result_ok).
    by apply insert_job_events_ahead in Hi as ->.
  - unfold stmt_fail in H.
    apply bind_result_ok in H as (? & _ & (s1 & Hd & (s2 & Hi & [= <-])%bind_result_ok)%bind_result_ok).
    apply insert_job_events_ahead in Hi as ->. apply insert_dead_letters_ahead in Hd as ->; [done|].
    exact (wf_letters_unique _ Hwf).
Qed.

(** No statement but [Enqueue] changes the number of jobs, and none shortens the
    log. *)
Lemma update_effect_sizes now P f ev dead msg rows s s' :
  update_effect now P f ev dead msg rows s s' →
  size (jobs s') = size (jobs s) ∧ (length (job_events s) ≤ length (job_events s'))%nat.
Proof. intros [_ -> _ (k & -> & _) _ _]. rewrite sql_update_size, length_app. split; [done|lia]. Qed.

Lemma report_sizes e j s s' :
  db_wf s → db_effect (ActReport e j) s s' →
  size (jobs s') = size (jobs s) ∧ (length (job_events s) ≤ length (job_events s'))%nat.
Proof.
  intros Hwf [->|[H|[(t & msg & _ & H)|(msg & _ & H)]]]; [done|..].
  - apply stmt_complete_effect in H. by eapply update_effect_sizes.
  - apply stmt_retry_effect in H as [_ H]. by eapply update_effect_sizes.
  - apply stmt_fail_effect in H as [_ H]; [by eapply update_effect_sizes|by apply wf_letters_unique].
Qed.

Lemma letters_le_jobs s : db_wf s → (length (dead_letters s) ≤ size (jobs s))%nat.
Proof.
  intros Hwf. rewrite <-length_map_to_list, <-(length_fmap DL_JobID (dead_letters s)), <-(length_fmap fst (map_to_list _)).
  apply submseteq_length, NoDup_submseteq; [by apply wf_letters_unique|].
  intros id (d & -> & Hd)%list_elem_of_fmap. pose proof (wf_letters _ Hwf) as Hl. rewrite Forall_forall in Hl.
  destruct (Hl _ Hd) as (r & Hr & _). apply list_elem_of_fmap. exists (DL_JobID d, r).
  split; [done|]. by apply elem_of_map_to_list.
Qed.

(** A time after everything the table waits for. *)
Lemma late_time (m : gmap Z job_row) (c : Z) :
  ∃ t, c ≤ t ∧ ∀ id r, m !! id = Some r → r_run_after r ≤ t ∧ ∀ l, r_lease_expires_at r = Some l → l < t.
Proof.
  induction m as [|id r m Hid IH] using map_ind; [exists c; split; [done|]; intros ??; by rewrite lookup_empty|].
  destruct IH as (t & Hc & Ht). exists (Z.max t (Z.max (r_run_after r) (default 0 (r_lease_expires_at r) + 1))).
  split; [lia|]. intros id' r' [[<- <-]|[_ Hr]]%lookup_insert_Some.
  - split; [lia|]. intros l ->. simpl. lia.
  - destruct (Ht _ _ Hr) as [H1 H2]. split; [lia|]. intros l Hl. specialize (H2 _ Hl). lia.
Qed.

End quiet.

(** ** The process that recovers *)

(** A run of a handler in the environment [he] of the process [cfg]. *)
Definition ran_under `{Encoding} `{Quoting} `{Otel} (cfg : Config) (he : handler_env) (q : run) : Prop :=
  ∃ i ctx wd, q.2 = (execute (worker_of cfg he i) ctx q.1 wd).1.

Section recovery.
Context {Pg : Postgres} {Ch : ClickHouse} {O : Otel} {En : Encoding} {Q : Quoting} {Px : Pgx} {Pr : Prometheus}.
Context (cfg : Config) (he : handler_env) (iv : Z).
Context (Hw : text_ok (worker_id 0) = true) (Hpos : 0 ≤ iv).
Context (Hiv : interval_in (Duration_String (LeaseDuration cfg)) = Some iv).
Implicit Types (x : shared) (T : timed) (nodes : list node) (runs : list run) (ls : list (Job * Z)).

(** The process runs last in the list, with the first of its workers in [ph]
    and its reaper at its [select]. *)
Definition fresh (ws : list wphase) (sh : option sphase) (ph : wphase) x : proc :=
  Proc x false false (ph :: ws) RSelect sh.

Definition at_ nodes (y : proc) (c : Z) ls runs : timed :=
  Timed (Cluster (sh_pipe (pr_shared y)) (nodes ++ [node_of cfg y]) runs) c ls.

Lemma at_db nodes y c ls runs : cl_db (tm_cluster (at_ nodes y c ls runs)) = sh_db (pr_shared y).
Proof. done. Qed.

Lemma drive nodes a y y' c ls c' ls' runs :
  own_step cfg a y y' → timely a (sh_db (pr_shared y)) (sh_db (pr_shared y')) c ls c' ls' →
  timed_step (at_ nodes y c ls runs) (at_ nodes y' c' ls' (runs ++ ran a)).
Proof.
  intros Hs Ht. apply (tm_step a); [|exact Ht]. unfold at_. simpl.
  pose proof (cl_own (length nodes) (node_of cfg y) a y' (sh_pipe (pr_shared y)) (nodes ++ [node_of cfg y]) runs) as H.
  rewrite insert_app_r_alt, Nat.sub_diag in H by done. apply H.
  - by rewrite lookup_app_r, Nat.sub_diag.
  - by rewrite view_node_of.
Qed.

Lemma drive_silent nodes a y y' c ls c' ls' runs :
  ran a = [] → own_step cfg a y y' → timely a (sh_db (pr_shared y)) (sh_db (pr_shared y')) c ls c' ls' →
  timed_step (at_ nodes y c ls runs) (at_ nodes y' c' ls' runs).
Proof. intros Ha Hs Ht. pose proof (drive nodes a y y' c ls c' ls' runs Hs Ht) as H. by rewrite Ha, app_nil_r in H. Qed.

Lemma drive_worker nodes ws sh a ph x ph' x' c ls c' ls' runs :
  worker_step cfg 0 false a ph x ph' x' → timely a (sh_db x) (sh_db x') c ls c' ls' →
  timed_step (at_ nodes (fresh ws sh ph x) c ls runs) (at_ nodes (fresh ws sh ph' x') c' ls' (runs ++ ran a)).
Proof.
  intros Hs Ht. apply drive; [|exact Ht]. unfold fresh.
  by apply (ps_worker cfg a 0 ph ph' x x' false (ph :: ws)).
Qed.

Lemma drive_worker_silent nodes ws sh a ph x ph' x' c ls c' ls' runs :
  ran a = [] → worker_step cfg 0 false a ph x ph' x' → timely a (sh_db x) (sh_db x') c ls c' ls' →
  timed_step (at_ nodes (fresh ws sh ph x) c ls runs) (at_ nodes (fresh ws sh ph' x') c' ls' runs).
Proof.
  intros Ha Hs Ht. pose proof (drive_worker nodes ws sh a ph x ph' x' c ls c' ls' runs Hs Ht) as H.
  by rewrite Ha, app_nil_r in H.
Qed.

(** Room in the identity columns for all that may still happen. *)
Definition room (s : db) : Prop :=
  (ahead s).1 + 12 * Z.of_nat (size (jobs s)) + 1 ≤ max_int64 ∧
  (ahead s).2 + 2 * Z.of_nat (size (jobs s)) ≤ max_int64.

Lemma room_same s s' : ahead s' = ahead s → size (jobs s') = size (jobs s) → room s → room s'.
Proof. unfold room. by intros -> ->. Qed.

Lemma timed_next T :
  timed_reachable T → let s := cl_db (tm_cluster T) in
  db_wf s ∧ next_event s ≤ (ahead s).1 + 11 * Z.of_nat (size (jobs s)) ∧
  next_dead_letter s ≤ (ahead s).2 + Z.of_nat (size (jobs s)) ∧
  (∀ id r, jobs s !! id = Some r → r_attempts r < max_int4) ∧
  (∀ id r, jobs s !! id = Some r → r_status r = StatusRunning → id ∉ DL_JobID <$> dead_letters s).
Proof.
  intros (y & Hy & Hok)%timed_abstraction s. pose proof (sys_inv_reachable _ Hy) as Hinv.
  subst s. rewrite <-(lo_db _ _ Hok). pose proof (outbox_bounded _ Hy) as Hb. pose proof (inv_wf _ Hinv) as Hwf.
  pose proof (letters_le_jobs _ Hwf) as Hd. unfold outbox in Hb. rewrite length_fmap in Hb.
  split_and!; [done|simpl; lia|simpl; lia|intros id r; by apply sys_attempts|].
  intros id r Hr Hst Hin. pose proof (inv_letters _ Hinv _ _ Hr Hin). congruence.
Qed.

Lemma timed_tokens T : timed_reachable T → NoDup (token <$> tm_leases T).
Proof.
  intros (y & Hy & Hok)%timed_abstraction. eapply NoDup_submseteq_inv; [|exact (inv_tokens _ (sys_inv_reachable _ Hy))].
  apply fmap_submseteq, (lo_leases _ _ Hok).
Qed.

(** The reaper's turn. *)
Lemma round_reap nodes ws sh v x c ls runs t :
  timed_reachable (at_ nodes (fresh ws sh (WHead v) x) c ls runs) → c ≤ t → room (sh_db x) →
  ∃ s', timed_step (at_ nodes (fresh ws sh (WHead v) x) c ls runs)
                   (at_ nodes (fresh ws sh (WHead v) (with_db s' x)) t ls runs) ∧
    jobs s' = sql_update (reap_where (quiet t)) (reap_set (quiet t)) (jobs (sh_db x)) ∧
    ahead s' = ahead (sh_db x) ∧ (length (job_events (sh_db x)) ≤ length (job_events s'))%nat.
Proof.
  intros HT Ht [Hr1 Hr2]. destruct (timed_next _ HT) as (Hwf & He & Hd & _ & Hrun). unfold cl_db in *. simpl in *.
  fold (sh_db x) in *. destruct (stmt_reap_unblocked (quiet t) (sh_db x)) as (nd & s' & Hs).
  { split; unfold next_id; simpl in *; lia. }
  { intros id r Hr [Hst _] _. by eapply Hrun. }
  exists s'. split_and!.
  - apply (drive_silent nodes (ActStmt (quiet t))); [done| |by split_and!].
    apply ps_reaper. eapply (rs_tick false x Background (quiet t)); [done|]. by apply run_stmt_quiet.
  - by apply (reap_quiet t (sh_db x) nd s' Hwf Hs).
  - by eapply reap_ahead.
  - destruct nd as [n d]. apply stmt_reap_effect in Hs as (rows & _ & _ & Hs); [|by apply wf_letters_unique].
    by eapply update_effect_sizes.
Qed.

(** The worker's turn, when a job is due: it claims one, ... *)
Lemma round_claim nodes ws sh v x c ls runs t id r :
  timed_reachable (at_ nodes (fresh ws sh (WHead v) x) c ls runs) → c ≤ t → room (sh_db x) →
  jobs (sh_db x) !! id = Some r → r_status r = StatusQueued → r_run_after r ≤ t →
  ∃ j x', rtc timed_step (at_ nodes (fresh ws sh (WHead v) x) c ls runs)
            (at_ nodes (fresh ws sh (WHolding j) x') t ((j, t + iv) :: ls) runs) ∧
    size (jobs (sh_db x')) = size (jobs (sh_db x)) ∧ ahead (sh_db x') = ahead (sh_db x) ∧
    (length (job_events (sh_db x)) < length (job_events (sh_db x')))%nat.
Proof.
  intros HT Ht [Hr1 Hr2] Hid Hst Hdue. destruct (timed_next _ HT) as (Hwf & He & Hd & Hatt & _). unfold cl_db in *.
  simpl in HT, Hwf, He, Hd, Hatt. fold (sh_db x) in *.
  destruct (claim_one_quiet (worker_id 0) (LeaseDuration cfg) iv t Hw Hiv (sh_db x) id r)
    as (i & q & s1 & Hi & _ & Hcl & Hj1 & Hn1); [done|simpl in *; lia|done..|].
  set (j := job_of_row (i, claim_set (quiet t) (worker_id 0) iv q)) in *.
  pose proof (claim_ahead _ _ _ _ _ _ _ Hcl) as Hah.
  exists j, (add_out (claim_out 0 (Ok [j])) (with_db s1 x)). split_and!.
  - eapply rtc_l; [by apply (drive_worker_silent nodes ws sh Tau _ x (WClaiming v) x c ls c ls runs); [|apply ws_go|]|].
    apply rtc_once, (drive_worker_silent nodes ws sh (ActClaim (LeaseDuration cfg) (quiet t) (Some j))); [done| |].
    + apply (ws_claim cfg 0 false v x Background (quiet t) 0 (Ok [j]) s1); [done|]. by apply run_stmt_quiet.
    + split_and!; [done|done|]. by exists iv.
  - unfold sh_db at 1. simpl. rewrite Hj1. by eapply map_size_insert_Some.
  - exact Hah.
  - unfold ahead in Hah. injection Hah as Hah _. unfold sh_db at 2. simpl. lia.
Qed.

(** ... runs its handler and reports. *)
Lemma round_report nodes ws sh j x t ls runs :
  timed_reachable (at_ nodes (fresh ws sh (WHolding j) x) t ((j, t + iv) :: ls) runs) →
  ∃ x' ls' q, rtc timed_step (at_ nodes (fresh ws sh (WHolding j) x) t ((j, t + iv) :: ls) runs)
                (at_ nodes (fresh ws sh (WHead (PollInterval cfg)) x') t ls' (runs ++ [q])) ∧
    ran_under cfg he q ∧ size (jobs (sh_db x')) = size (jobs (sh_db x)) ∧ ahead (sh_db x') = ahead (sh_db x) ∧
    (length (job_events (sh_db x)) ≤ length (job_events (sh_db x')))%nat.
Proof.
  intros HT. destruct (timed_next _ HT) as (Hwf & _). pose proof (timed_tokens _ HT) as Hnd. simpl in Hnd.
  destruct (process_execute (worker_of cfg he 0) 0 Background j (wstate_of x)) as [err st2] eqn:Hx.
  pose proof (ws_execute cfg 0 false j x he Background 0 err st2 Hx) as Hexec.
  set (x2 := seen (p_ch (sh_pipe x)) st2) in *. assert (sh_db x2 = sh_db x) as Hx2 by (by apply process_execute_db in Hx).
  set (pe := ProcEnv (quiet t) 0 t (λ n, n - 1)).
  assert (draw_ok (pe_draw pe)) as Hdraw by (intros n Hn; simpl; lia).
  destruct (process_report_total (worker_of cfg he 0) pe Background j err (wstate_of x2) Hdraw) as (st3 & Hrep).
  pose proof (ws_report cfg 0 false j x2 he Background err pe st3 Hdraw Hrep) as Hreport.
  set (x3 := seen (p_ch (sh_pipe x2)) st3) in *.
  pose proof (worker_step_effect _ _ _ _ _ _ _ _ Hreport) as (Heff & _ & _). rewrite Hx2 in Heff. simpl in Heff.
  exists x3, (drop_lease j ((j, t + iv) :: ls)), (j, err). split_and!.
  - eapply rtc_l; [eapply drive_worker; [exact Hexec|by split]|]. simpl.
    apply rtc_once, (drive_worker_silent nodes ws sh (ActReport (quiet t) j)); [done|exact Hreport|].
    split_and!; [simpl; lia|done|done|]. intros dl [[= ->]|Hin]%elem_of_cons; [left; simpl; lia|].
    exfalso. apply NoDup_cons in Hnd as [Hn _]. apply Hn. by apply (list_elem_of_fmap_2 token _ (j, dl)).
  - exists 0%nat. unfold process_execute in Hx. destruct (execute _ _ _ _) as [e0 wd] eqn:E.
    injection Hx as <- _. exists (tracer_Start (job_ctx Background j) "execute"), (ws_world (wstate_of x)).
    cbn [fst snd]. by rewrite E.
  - by destruct (report_sizes _ _ _ _ Hwf Heff).
  - by eapply report_ahead.
  - by destruct (report_sizes _ _ _ _ Hwf Heff).
Qed.

(** The process at rest: its first worker at the head of its loop. *)
Definition resting T runs : Prop :=
  ∃ nodes ws sh v x c ls, T = at_ nodes (fresh ws sh (WHead v) x) c ls runs.

(** One round: the job ends, or the log grows. *)
Lemma one_round T runs id r :
  timed_reachable T → resting T runs → room (cl_db (tm_cluster T)) → jobs (cl_db (tm_cluster T)) !! id = Some r →
  ∃ T' l, rtc timed_step T T' ∧ resting T' (runs ++ l) ∧ Forall (ran_under cfg he) l ∧
    size (jobs (cl_db (tm_cluster T'))) = size (jobs (cl_db (tm_cluster T))) ∧
    ahead (cl_db (tm_cluster T')) = ahead (cl_db (tm_cluster T)) ∧
    ((∃ r', jobs (cl_db (tm_cluster T')) !! id = Some r' ∧ terminal r') ∨
     (length (job_events (cl_db (tm_cluster T))) < length (job_events (cl_db (tm_cluster T'))))%nat).
Proof.
  intros HT (nodes & ws & sh & v & x & c & ls & ->) Hroom Hid. rewrite at_db in *. cbn [fresh pr_shared] in *.
  destruct (late_time (jobs (sh_db x)) c) as (t & Hc & Ht).
  destruct (round_reap nodes ws sh v x c ls runs t HT Hc Hroom) as (s1 & Hs1 & Hj1 & Ha1 & Hl1).
  set (x1 := with_db s1 x) in *. set (T1 := at_ nodes (fresh ws sh (WHead v) x1) t ls runs) in *.
  assert (timed_reachable T1) as HT1 by (unfold timed_reachable in *; by eapply rtc_r).
  assert (size (jobs s1) = size (jobs (sh_db x))) as Hsz1 by (by rewrite Hj1, sql_update_size).
  assert (∃ r1, jobs s1 !! id = Some r1 ∧ (terminal r1 ∨ r_status r1 = StatusQueued ∧ r_run_after r1 ≤ t)) as (r1 & Hr1 & Hcase).
  { rewrite Hj1, lookup_sql_update, Hid. eexists. split; [done|]. destruct (Ht _ _ Hid) as [Hra Hle].
    destruct (reap_where (quiet t) id r) eqn:E; [unfold terminal; simpl; destruct (exhausted r); auto|].
    destruct (r_status r) eqn:Hst; [by right| |left; by left|left; by right].
    exfalso. destruct (wf_rows _ (proj1 (timed_next _ HT)) _ _ Hid) as [_ Hrow]. rewrite Hst in Hrow.
    destruct Hrow as (_ & _ & [l Hl] & _). specialize (Hle _ Hl).
    assert (expired (quiet t) r) as Hx%(reap_where_expired _ id) by (split; [done|]; by exists l).
    by rewrite E in Hx. }
  destruct Hcase as [Hterm|[Hst Hdue]].
  { exists T1, []. rewrite app_nil_r. split_and!; [by apply rtc_once|by repeat eexists|done|done|done|].
    left. by exists r1. }
  destruct (round_claim nodes ws sh v x1 t ls runs t id r1) as (j & x2 & Hr2 & Hsz2 & Ha2 & Hl2); try done;
    [by eapply room_same|].
  destruct (round_report nodes ws sh j x2 t ls runs) as (x3 & ls3 & q & Hr3 & Hq & Hsz3 & Ha3 & Hl3).
  { unfold timed_reachable in *. by etrans. }
  exists (at_ nodes (fresh ws sh (WHead (PollInterval cfg)) x3) t ls3 (runs ++ [q])), [q].
  change (sh_db x1) with s1 in *. rewrite at_db. cbn [fresh pr_shared].
  split_and!; [|by repeat eexists|by constructor|congruence|congruence|right; lia].
  eapply rtc_l; [exact Hs1|]. by etrans.
Qed.

Lemma rounds n T runs id r :
  timed_reachable T → resting T runs → room (cl_db (tm_cluster T)) → jobs (cl_db (tm_cluster T)) !! id = Some r →
  (11 * size (jobs (cl_db (tm_cluster T))) ≤ n + length (job_events (cl_db (tm_cluster T))))%nat →
  ∃ T' l, rtc timed_step T T' ∧ cl_runs (tm_cluster T') = runs ++ l ∧ Forall (ran_under cfg he) l ∧
    ∃ r', jobs (cl_db (tm_cluster T')) !! id = Some r' ∧ terminal r'.
Proof.
  revert T runs r. induction n as [|n IH]; intros T runs r HT Hrest Hroom Hid Hn;
    destruct (one_round T runs id r HT Hrest Hroom Hid) as (T1 & l1 & Hs1 & Hrest1 & Hl1 & Hsz1 & Ha1 & Hend);
    assert (timed_reachable T1) as HT1 by (unfold timed_reachable in *; by etrans);
    pose proof (timed_next _ HT1) as (_ & Hb & _); simpl in Hb;
    (destruct Hend as [Hend|Hgrow];
      [exists T1, l1; split_and!; [done|by destruct Hrest1 as (? & ? & ? & ? & ? & ? & ? & ->)|done|done]|]); [lia|].
  destruct (steps_same_job (cl_db (tm_cluster T)) (cl_db (tm_cluster T1)) id r) as (r1 & Hid1 & _);
    [by apply timed_next|by apply timed_db_steps|done|].
  destruct (IH T1 (runs ++ l1) r1) as (T2 & l2 & Hs2 & Hruns & Hl2 & Hend); [done|done|by eapply room_same|done|lia|].
  exists T2, (l1 ++ l2). split_and!; [by etrans|by rewrite Hruns, app_assoc|by apply Forall_app|done].
Qed.

End recovery.

Section recovers.
Context {Pg : Postgres} {Ch : ClickHouse} {O : Otel} {En : Encoding} {Q : Quoting} {Px : Pgx} {Pr : Prometheus}.

(** C6. Recovery: under the lease discipline, from every state of the cluster,
    whatever has crashed or was killed and whoever holds what, any job can be
    brought to its end by starting one more worker process, whatever its
    handlers meet: for every environment [he] of the handlers there is a run in
    which all further handler runs are those of the new process in [he], and
    which ends the job.  All it needs is a database that lets the process start,
    a positive reap interval, a lease the database can read, and room in the
    identity columns. *)
Theorem cluster_recovers T id r be cfg args lines su s' he iv :
  timed_reachable T → jobs (cl_db (tm_cluster T)) !! id = Some r →
  startWork be cfg args (cl_db (tm_cluster T)) = (lines, Returns su, s') →
  text_ok (worker_id 0) = true → 0 < ReapInterval cfg →
  interval_in (Duration_String (LeaseDuration cfg)) = Some iv → 0 ≤ iv → room (cl_db (tm_cluster T)) →
  ∃ T' l, rtc timed_step T T' ∧ cl_runs (tm_cluster T') = cl_runs (tm_cluster T) ++ l ∧
    Forall (ran_under cfg he) l ∧
    ∃ r', jobs (cl_db (tm_cluster T')) !! id = Some r' ∧ terminal r'.
Proof.
  intros HT Hid Hsw Hw Hreap Hiv Hpos Hroom. destruct (startWork_setup _ _ _ _ _ _ _ Hsw) as [Hsu _].
  pose proof (startWork_read_only _ _ _ _ _ _ _ Hsw) as ->.
  destruct T as [[p nodes runs] c ls]. unfold cl_db in *. simpl in *.
  set (x := Shared p (HWorld ∅ ∅ []) []).
  set (T1 := at_ cfg nodes (work_init cfg su x) c ls runs).
  assert (timed_step (Timed (Cluster p nodes runs) c ls) T1) as Hboot.
  { apply (tm_step Tau); [|by split]. eapply (cl_boot be cfg args lines su (p_pg p) (HWorld ∅ ∅ []) p) in Hsw.
    unfold at_. simpl. by destruct p. }
  destruct (Z.to_nat (su_workers su)) as [|n] eqn:En1; [lia|].
  set (T2 := at_ cfg nodes (fresh (replicate n (WHead (PollInterval cfg))) (if su_shipper su then Some ShStart else None)
    (WHead (PollInterval cfg)) x) c ls runs).
  assert (timed_step T1 T2) as Hstart.
  { apply (drive_silent cfg nodes Tau); [done| |by split]. unfold work_init. rewrite En1. simpl.
    pose proof (ps_reaper_start cfg x false (WHead (PollInterval cfg) :: replicate n (WHead (PollInterval cfg)))
      (if su_shipper su then Some ShStart else None)) as H.
    by destruct (Z.leb_spec (ReapInterval cfg) 0); [lia|]. }
  destruct (rounds cfg he iv Hw Hpos Hiv (11 * size (jobs (p_pg p))) T2 runs id r) as (T3 & l & Hs & Hruns & Hl & Hend).
  - unfold timed_reachable in *. eapply rtc_r; [|exact Hstart]. by eapply rtc_r.
  - by repeat eexists.
  - done.
  - done.
  - unfold T2. rewrite at_db. unfold sh_db. cbn [fresh pr_shared sh_pipe x]. lia.
  - exists T3, l. split_and!; [|done|done|done]. eapply rtc_l; [exact Hboot|]. by eapply rtc_l.
Qed.

End recovers.
