(* ===== verification/Shutdown.v ===== *)
(** * Shutdown of the cluster

    A rolling restart, seen from the tables: every running row is accounted for.
    It is in the hands of a worker, or an answer about it went missing: that of
    its claim was lost, or its report was lost or refused.  So once all workers
    have returned, nothing is left that would have to wait for the reaper but
    the jobs of such answers. *)

From stdpp Require Import prelude gmap strings list pretty relations sorting.
From S2P Require Import Prelude GoBase Job Store StoreFacts Steps Claim Invariant History StoreSpec Outbox Verdicts.
From S2P Require Import Tracing Worker WorkerFacts Lifecycle Shipper ShipperFacts GrpcServer Handlers Config Process.
From S2P Require Import Metrics Fmt Flag Cli Work WorkFacts Main Cluster Leases.
#[local] Open Scope jq_scope.

Section shutdown.
Context {Pg : Postgres} {Ch : ClickHouse} {O : Otel} {En : Encoding} {Q : Quoting} {Px : Pgx} {Pr : Prometheus}.
Implicit Types (a : act) (C : cluster) (s : db).

(** The jobs a step lets slip: those of a claim that committed and whose caller
    did not get them, and that of a report that did not commit, because the
    server refused it or it never came through. *)
Definition slips a s s' (L : list Job) : Prop :=
  match a with
  | ActClaim lease e None => s' = s ∧ L = [] ∨ ∃ w, stmt_claim w lease 1 e s = Ok (L, s')
  | ActReport e j =>
      s' = s ∧ L = [j] ∨
      L = [] ∧ (stmt_complete (Job_ID j) e s = Ok (tt, s') ∨ (∃ t msg, stmt_retry (Job_ID j) t msg e s = Ok (tt, s')) ∨
                (∃ msg, stmt_fail (Job_ID j) msg e s = Ok (tt, s')))
  | _ => L = []
  end.

(** A run of the cluster with the jobs it let slip. *)
Inductive run_slipping : list Job → cluster → Prop :=
| slip_start : run_slipping [] cluster_empty
| slip_step U L a C C' :
    run_slipping U C → cluster_step a C C' → slips a (cl_db C) (cl_db C') L → run_slipping (L ++ U) C'.

Lemma slipping_reachable U C : run_slipping U C → cluster_reachable C.
Proof.
  unfold cluster_reachable. induction 1 as [|U L a C C' _ IH Hs _]; [done|]. eapply rtc_r; [exact IH|by exists a].
Qed.

(** Every run is one. *)
Lemma reachable_slipping C : cluster_reachable C → ∃ U, run_slipping U C.
Proof.
  apply (rtc_ind_r (R:=some_step) (λ C, ∃ U, run_slipping U C)); [exists []; apply slip_start|].
  intros C1 C2 _ [a Hs] [U HU]. pose proof (cluster_step_effect _ _ _ Hs) as (Hd & _ & _).
  assert (∃ L, slips a (cl_db C1) (cl_db C2) L) as [L HL]; [|exists (L ++ U); by eapply slip_step].
  destruct a as [|lease e [j|]|j err|e j|e]; cbn [slips] in *; try by eexists.
  - destruct Hd as [Hd|(w & jl & Hd)]; [exists []; by left|exists jl; right; by exists w].
  - destruct Hd as [Hd|Hd]; [exists [j]; by left|exists []; right; split; [done|]].
    destruct Hd as [Hd|[(t & msg & _ & Hd)|(msg & _ & Hd)]]; [by left|right; left; by exists t, msg|right; right; by exists msg].
Qed.

(** ** Running rows are in somebody's hands *)

Definition attended s (hands : list Job) : Prop :=
  ∀ id r, jobs s !! id = Some r → r_status r = StatusRunning → ∃ j, j ∈ hands ∧ Job_ID j = id.

(** A statement that makes no row running. *)
Lemma attended_update now P f ev dead msg rows s s' hands :
  update_effect now P f ev dead msg rows s s' → (∀ r, r_status (f r) ≠ StatusRunning) →
  attended s hands → attended s' hands.
Proof.
  intros [_ Hj _ _ _ _] Hf Ha id r'. rewrite Hj, lookup_sql_update. intros (r & Hr & ->)%fmap_Some.
  destruct (P id r); [by intros ?%Hf|by apply Ha].
Qed.

(** A report frees its row. *)
Lemma attended_report now id f ev dead msg rows s s' j hands hands' :
  update_effect now (by_id id) f ev dead msg rows s s' → (∀ r, r_status (f r) ≠ StatusRunning) →
  Job_ID j = id → hands ≡ₚ j :: hands' → attended s hands → attended s' hands'.
Proof.
  intros [_ Hj _ _ _ _] Hf Hid Hp Ha i r'. rewrite Hj, lookup_sql_update. intros (r & Hr & ->)%fmap_Some.
  destruct (by_id id i r) eqn:E; [by intros ?%Hf|]. intros Hst. destruct (Ha _ _ Hr Hst) as (b & Hb & Hbi).
  rewrite Hp in Hb. apply elem_of_cons in Hb as [->|Hb]; [|by exists b].
  unfold by_id in E. rewrite <-Hbi, Hid, Z.eqb_refl in E. done.
Qed.

(** A claim of one job makes its row running, and no other. *)
Lemma attended_claim w lease e j l s s' hands :
  stmt_claim w lease 1 e s = Ok (j :: l, s') → attended s hands → attended s' (j :: hands).
Proof.
  intros Hc Ha id r'. pose proof Hc as Heff.
  apply stmt_claim_effect in Heff as (iv & rows & _ & _ & _ & Hl & _ & [Hrows Hj _ _ _ _]).
  rewrite Hj, lookup_sql_update. intros (r & Hr & ->)%fmap_Some Hst.
  destruct (bool_decide _) eqn:E; [|destruct (Ha _ _ Hr Hst) as (b & Hb & Hbi); exists b; split; [by right|done]].
  exists j. split; [by left|].
  assert ((id, claim_set e w iv r) ∈ rows) as Hin.
  { rewrite Hrows. apply elem_of_sql_returning. exists r. split_and!; [done|by rewrite E|done]. }
  assert (length rows ≤ 1)%nat as Hlen.
  { rewrite Hrows, claim_returning, length_fmap, length_claim_select. lia. }
  destruct rows as [|q [|]]; [by apply elem_of_nil in Hin| |simpl in Hlen; lia].
  apply list_elem_of_singleton in Hin as <-. by injection Hl as -> _.
Qed.

(** One that finds no job makes none running. *)
Lemma attended_claim_none w lease e s s' hands :
  stmt_claim w lease 1 e s = Ok ([], s') → attended s hands → attended s' hands.
Proof.
  intros (iv & rows & _ & _ & _ & Hl & _ & [Hrows Hj _ _ _ _])%stmt_claim_effect Ha id r'.
  rewrite Hj, lookup_sql_update. intros (r & Hr & ->)%fmap_Some Hst.
  destruct (bool_decide _) eqn:E; [|by apply (Ha id r)].
  assert ((id, claim_set e w iv r) ∈ rows) as Hin.
  { rewrite Hrows. apply elem_of_sql_returning. exists r. split_and!; [done|by rewrite E|done]. }
  symmetry in Hl. apply fmap_nil_inv in Hl as ->. by apply elem_of_nil in Hin.
Qed.

Lemma attended_mono s hands hands' : hands ⊆ hands' → attended s hands → attended s hands'.
Proof. intros Hsub Ha id r Hr Hst. destruct (Ha id r Hr Hst) as (j & Hj & Hid). exists j. split; [by apply Hsub|done]. Qed.

(** What is in the hands of the workers or was let slip. *)
Definition accounted U C : list Job := U ++ omap held_job (phases (cl_nodes C)).

Lemma attended_step U L a C C' :
  cluster_reachable C → cluster_step a C C' → slips a (cl_db C) (cl_db C') L →
  attended (cl_db C) (accounted U C) → attended (cl_db C') (accounted (L ++ U) C').
Proof.
  intros Hre Hs HL Ha. unfold accounted in *.
  pose proof (pi_wf _ (pipe_reachable_inv _ (bk_pipe _ _ _ (ci_books _ (cluster_inv_reachable _ Hre))))) as Hwf.
  pose proof (wf_letters_unique _ Hwf) as Hu. apply cluster_step_effect in Hs as (Hd & Hcl & Hh). fold (cl_db C) in Hu.
  destruct a as [|lease e [j|]|j err|e j|e]; unfold db_effect in Hd;
    cbn [claim_effect hands_effect slips] in *; try (rewrite HL; simpl); try rewrite Hh.
  - destruct Hd as [Hd|[]]. by rewrite Hd.
  - destruct Hcl as (w & l & Hcl). pose proof (attended_claim _ _ _ _ _ _ _ _ Hcl Ha) as H.
    eapply attended_mono; [|exact H]. intros b. rewrite elem_of_cons, !elem_of_app, Hh, elem_of_cons. tauto.
  - destruct HL as [[HL ->]|[w HL]]; [by rewrite HL|]. destruct L as [|j l].
    + eapply attended_claim_none; [exact HL|exact Ha].
    + eapply attended_mono; [|exact (attended_claim _ _ _ _ _ _ _ _ HL Ha)].
      intros b. simpl. rewrite !elem_of_cons, !elem_of_app. tauto.
  - destruct Hd as [Hd|[]]. by rewrite Hd.
  - assert (U ++ omap held_job (phases (cl_nodes C)) ≡ₚ j :: U ++ omap held_job (phases (cl_nodes C'))) as Hp
      by (rewrite Hh; symmetry; apply Permutation_middle).
    destruct HL as [[HL ->]|[-> HL]].
    { rewrite HL. eapply attended_mono; [|exact Ha]. intros b. by rewrite Hp. }
    destruct HL as [H|[(t & msg & H)|(msg & H)]].
    + apply stmt_complete_effect in H. by eapply attended_report.
    + apply stmt_retry_effect in H as [_ H]. by eapply attended_report.
    + apply stmt_fail_effect in H as [_ H]; [by eapply attended_report|done].
  - destruct Hd as [Hd|[(ty & pl & tc & id & H)|[([n d] & H)|(ids & H)]]]; [by rewrite Hd|..].
    + apply stmt_enqueue_effect in H as (doc & k & _ & _ & _ & _ & _ & _ & Hj & _).
      intros i r. rewrite Hj. intros [[_ <-]|[_ Hr]]%lookup_insert_Some; [done|by apply Ha].
    + apply stmt_reap_effect in H as (rows & _ & _ & H); [|done]. eapply attended_update; [exact H| |exact Ha].
      intros r. simpl. by destruct (exhausted r).
    + intros i r. apply stmt_mark_shipped_outbox in H as [_ Hj]. rewrite Hj. by apply Ha.
Qed.

Lemma slipping_attended U C : run_slipping U C → attended (cl_db C) (accounted U C).
Proof.
  induction 1 as [|U L a C C' HC IH Hs HL]; [intros ??; simpl; by rewrite lookup_empty|].
  eapply attended_step; [by eapply slipping_reachable|done..].
Qed.

(** C22. Graceful shutdown: every run of the cluster, with processes that start,
    stop and crash, has a list of the jobs it let slip (a claim committed and its
    answer was lost, or a report was lost or refused by the server), and every
    running row is in the hands of a worker of some process or among them.  So
    once the workers of all processes have returned, only jobs that slipped can
    be running; if none did, no row has to wait for a lease to
    expire. *)
Theorem graceful_shutdown C :
  cluster_reachable C →
  (∃ U, run_slipping U C) ∧
  ∀ U, run_slipping U C →
    (∀ id r, jobs (cl_db C) !! id = Some r → r_status r = StatusRunning →
       id ∈ Job_ID <$> U ∨
       ∃ k n i ph j, cl_nodes C !! k = Some n ∧ n_workers n !! i = Some ph ∧ held_job ph = Some j ∧ Job_ID j = id) ∧
    ((∀ n, n ∈ cl_nodes C → Forall (λ ph, ph = WStopped) (n_workers n)) →
     (∀ id r, jobs (cl_db C) !! id = Some r → r_status r = StatusRunning → id ∈ Job_ID <$> U) ∧
     (U = [] → ∀ id r, jobs (cl_db C) !! id = Some r → r_status r ≠ StatusRunning)).
Proof.
  intros Hre. split; [by apply reachable_slipping|]. intros U HU. apply slipping_attended in HU as Ha.
  assert (∀ id r, jobs (cl_db C) !! id = Some r → r_status r = StatusRunning → id ∈ Job_ID <$> U ∨
     ∃ k n i ph j, cl_nodes C !! k = Some n ∧ n_workers n !! i = Some ph ∧ held_job ph = Some j ∧ Job_ID j = id) as Hheld.
  { intros id r Hr Hst. destruct (Ha _ _ Hr Hst) as (j & [Hj|Hj]%elem_of_app & Hid).
    { left. apply list_elem_of_fmap. by exists j. }
    right. apply list_elem_of_omap in Hj as (ph & Hph & Hheld). apply list_elem_of_bind in Hph as (n & Hph & Hn).
    apply list_elem_of_lookup_1 in Hph as [i Hi], Hn as [k Hk]. exists k, n, i, ph, j. by split_and!. }
  split; [done|]. intros Hstop.
  assert (∀ id r, jobs (cl_db C) !! id = Some r → r_status r = StatusRunning → id ∈ Job_ID <$> U) as Hslip.
  { intros id r Hr Hst. destruct (Hheld _ _ Hr Hst) as [|(k & n & i & ph & j & Hk & Hi & Hj & _)]; [done|].
    pose proof (Hstop n (list_elem_of_lookup_2 _ _ _ Hk)) as Hall. rewrite Forall_lookup in Hall.
    by rewrite (Hall _ _ Hi) in Hj. }
  split; [done|]. intros -> id r Hr Hst. by apply (Hslip id r Hr), elem_of_nil in Hst.
Qed.

End shutdown.
