(* ===== verification/CommandDemo.v ===== *)
(** * The commands on concrete inputs

    The parameters of the command line and of the processes instantiated, and
    their theorems applied to runs on the demonstration tables. *)

From stdpp Require Import prelude gmap strings list pretty relations sorting.
From Stdlib Require Import Ascii String Floats.SpecFloat.
From S2P Require Import Prelude GoBase Job Store StoreFacts Steps Demo Claim Invariant History StoreSpec Outbox.
From S2P Require Import Tracing Worker WorkerFacts Shipper ShipperFacts GrpcServer FilePath Handlers Config Process.
From S2P Require Import Metrics Reports Fmt Flag Json JsonFacts Payloads Cli Work WorkFacts Pool CliFacts Main Resources.
#[local] Open Scope jq_scope.

#[export] Instance grpc_demo : Grpc := {|
  rpc_text := λ e, match e with RpcStatus _ msg => msg | RpcErr err => Error err end;
  marshal_text := "string field contains invalid UTF-8";
|}.

#[export] Instance json_text_demo : JsonText := {|
  syntax_text := λ _, "invalid character";
  type_text := λ kind field, "cannot unmarshal " +:+ kind +:+ default "" field;
|}.

#[export] Instance pgx_demo : Pgx := {|
  ParseConfig := λ s, if bool_decide (s = "") then Err "empty" else Ok (PoolConfig 4);
|}.

#[export] Instance zone_demo : Zone := {| zone_offset := λ _, 0 |}.
#[export] Instance arch_demo : GoArch := {| float_out_of_range := λ _, - 2 ^ 63 |}.

(** The demonstration server keeps documents as they are. *)
#[export] Instance jsonb_demo : JsonbLaws.
Proof.
  constructor. intros l t _ Hwf. apply parse_print in Hwf. revert Hwf. generalize (print (JObject (prod_map id JString <$> l))).
  intros doc Hdoc. cbn [jsonb_in pg_demo]. case_bool_decide; [done|]. intros [= <-]. by exists l.
Qed.

(** ** The command line *)

(** A call that reaches the server. *)
Definition demo_call (now : Z) : call_env span_context := CallEnv None None Background (quiet now).

Lemma runEnqueue_spec_witness :
  ∃ lines s', runEnqueue (demo_call 0) default_config ["-type"; "sum_numbers"] db_empty = (lines, Returns tt, s').
Proof.
  destruct (runEnqueue_spec (demo_call 0) default_config ["-type"; "sum_numbers"] db_empty) as (_ & _ & H);
    [apply rtc_refl|].
  eapply H; [reflexivity|by vm_compute..| | | | |reflexivity|by vm_compute|by vm_compute]; try reflexivity.
  by intros [(? & ? & ?)|(? & ? & ?)].
Defined.

(** The file [a/b.txt] enqueued, claimed and written. *)
Definition demo_file : list line * ended unit * db :=
  runEnqueue (demo_call 0) default_config (write_file_args "a/b.txt" "hello") db_empty.
Definition demo_file_job : Job :=
  MkJob 1 "write_file" (print (write_file_doc "a/b.txt" "hello")) 1 5 (submit_trace (demo_call 0)).
Definition demo_file_claim : db :=
  (Claim (Background : context span_context) (quiet (sec 1)) "worker-0" (30 * Second) 1 demo_file.2).2.

Lemma enqueue_to_file_witness :
  ∃ wd', Dispatch (newHandlerRegistry he_demo "./data/writes") Background demo_file_job hw_demo = (HOk, wd') ∧
    hw_files wd' = {["data/writes/a/b.txt" := "hello"]}.
Proof.
  destruct (enqueue_to_file (demo_call 0) default_config "a/b.txt" "hello" db_empty demo_file.1.1 demo_file.2)
    as (id & _ & _ & [r Hr] & H); [apply rtc_refl|reflexivity|reflexivity|by repeat constructor|done|reflexivity|].
  assert (id = 1) as ->.
  { assert (jobs demo_file.2 = {[1 := enqueue_row (quiet 0) "write_file" (Payload demo_file_job)
      (TraceContext demo_file_job)]}) as Hj by (vm_compute; reflexivity).
    rewrite Hj in Hr. by apply lookup_singleton_Some in Hr as [-> _]. }
  apply (H Background (quiet (sec 1)) "worker-0" (30 * Second) 1 demo_file.2 [demo_file_job] demo_file_claim
    demo_file_job);
    [apply rtc_refl|vm_compute; reflexivity|apply list_elem_of_here|reflexivity|apply writes_regular
    |reflexivity|reflexivity].
Defined.

Lemma runWatch_spec_witness :
  ∃ lines, runWatch None None None [demo_poll demo_enqueued; demo_poll demo_completed] default_config
    ["-id"; "1"] db_empty = (lines, Returns tt, db_empty) ∧ List.length (printed lines) = 2%nat.
Proof.
  destruct (runWatch_spec None None None [demo_poll demo_enqueued; demo_poll demo_completed] default_config
    ["-id"; "1"] db_empty) as (_ & _ & H).
  eapply (H _ [] [demo_poll demo_enqueued] (demo_poll demo_completed) [] StatusCompleted);
    try reflexivity; [done|by repeat constructor|done|by left|].
  apply Forall_singleton. left. vm_compute; reflexivity.
Defined.

(** A worker without arguments for the program: nothing is looked at. *)
Definition demo_main : main_env := MainEnv (demo_call 0) None None [] None Background (quiet 0)
  (AnalyticsEnv None None (ChQuery None 0 "interval") [] (λ _, 0) (λ _, S754_zero false) None Background (quiet 0))
  (BootEnv None None None None None None None) Serving Working.

Lemma main_contract_witness :
  main (λ _, None) demo_main ["jobqueue"] demo_running = ([ErrOut usage], Exits 1, demo_running) ∧
  (main (λ _, None) demo_main ["jobqueue"; "status"; "-id=1"] demo_running).2 = demo_running.
Proof.
  destruct (main_contract (λ _, None) demo_main ["jobqueue"] demo_running) as (_ & H & _).
  destruct (main_contract (λ _, None) demo_main ["jobqueue"; "status"; "-id=1"] demo_running) as (_ & _ & H').
  split; [by apply H; vm_compute; lia|].
  apply (H' "jobqueue" "status" ["-id=1"] eq_refl). unfold asking. by left.
Defined.

Lemma payloads_roundtrip_witness :
  unmarshal_write (print (write_file_doc "a" "b")) = Ok (WriteFilePayload "a" "b").
Proof. destruct payloads_roundtrip as (H & _). by apply H. Defined.

(** ** The worker process *)

Definition demo_setup : work_setup := WorkSetup 2 (PoolConfig 6) true.
Definition demo_shared : shared := Shared demo_pipe hw_demo [].

Lemma work_process_safe_witness :
  ∃ y, rtc (proc_step default_config) (work_init default_config demo_setup demo_shared) y ∧
    pr_reaper y = RSelect ∧ reachable (sh_db (pr_shared y)).
Proof.
  eexists. assert (rtc (proc_step default_config) (work_init default_config demo_setup demo_shared) _) as Hy
    by (eapply rtc_once, ps_own, ps_reaper_start).
  destruct (work_process_safe default_config demo_setup demo_shared _ demo_pipe_reachable Hy) as (_ & Hre & _).
  split; [exact Hy|]. split; [reflexivity|exact Hre].
Defined.



(** The signal comes before anything else. *)
Definition demo_signalled : proc :=
  Proc demo_shared true false [WHead Second; WStopped] RStopped None.

Lemma work_shutdown_witness :
  ∃ z, rtc (proc_step default_config) demo_signalled z ∧ all_returned z.
Proof.
  by destruct (work_shutdown default_config demo_signalled eq_refl eq_refl) as [_ H].
Defined.

Lemma work_starts_witness :
  let '(lines, r, s') := startWork (BootEnv None None None None None (Some "refused") None) default_config
    ["-workers"; "2"] demo_running in
  s' = demo_running ∧ ∃ su, r = Returns su ∧ MaxConns (su_pool su) = 6 ∧ su_shipper su = false.
Proof.
  pose proof (work_starts (BootEnv None None None None None (Some "refused") None) default_config ["-workers"; "2"]
    _ [] demo_running eq_refl) as H.
  destruct (startWork _ _ _ _) as [[lines r] s'] eqn:E. destruct H as (Hs & _ & Hr & Hsu).
  split; [exact Hs|]. destruct (proj2 (Hr eq_refl)) as (su & Hret); [done|]. exists su. split; [done|].
  destruct (Hsu su Hret) as (_ & Hship & Hm). split; [by apply Hm|].
  destruct (su_shipper su); [|done]. by destruct (proj1 Hship eq_refl).
Defined.

Lemma pool_suffices_witness :
  Z.of_nat (demand (work_init default_config demo_setup demo_shared)) + 2 ≤ 6.
Proof.
  apply (pool_suffices (BootEnv None None None None None None None) default_config ["-workers"; "2"] demo_running
    (startWork (BootEnv None None None None None None None) default_config ["-workers"; "2"] demo_running).1.1
    demo_setup demo_running demo_shared); [vm_compute; reflexivity|by vm_compute|apply rtc_refl].
Defined.
