(* ===== verification/Conformance.v ===== *)
(** * The repository's tests, on the model

    Each test of [internal/store], [internal/worker], [internal/handlers],
    [internal/analytics] and [internal/tracing] that checks a behaviour of the
    modelled code, run on the definitions of this development with the
    demonstration server: the same calls, the same expectations.  The tests of
    concurrency and cancellation are not repeated here: what they sample is
    proved in general ([no_double_claim], [cluster_at_most_once],
    [work_shutdown]). *)

From stdpp Require Import prelude gmap strings list pretty relations sorting.
From Stdlib Require Import Floats.SpecFloat.
From S2P Require Import Prelude GoBase Job Store StoreFacts Steps Demo Claim Invariant History Outbox.
From S2P Require Import Tracing Worker WorkerFacts Shipper ShipperFacts Handlers Config Process Reports Percentiles.
From S2P Require Import Json JsonFacts Payloads CommandDemo.
#[local] Open Scope jq_scope.

(** A call that must succeed. *)
Definition ok {A} (p : result error A * db) : option (A * db) :=
  match p.1 with Ok a => Some (a, p.2) | Err _ => None end.

#[local] Notation "'do' x ':=' c ; k" := (match c with Some x => k | None => None end)
  (at level 10, x pattern, c at level 100, k at level 200).

Definition at_sec (t : Z) : stmt_env := quiet (sec t).
Definition enqueue (t : Z) (ty : string) (s : db) := ok (Enqueue bg (at_sec t) ty "{}" "" s).
Definition claim (t : Z) (w : string) (lease limit : Z) (s : db) := ok (Claim bg (at_sec t) w lease limit s).

(** [INSERT INTO jobs (type, payload, max_attempts) VALUES ('demo_job', '{}', 1)],
    the fixture of two tests. *)
Definition fixture (s : db) : Z * db :=
  let r := enqueue_row (at_sec 0) "demo_job" "{}" "" in
  let r := JobRow (r_type r) (r_payload r) (r_status r) (r_priority r) (r_attempts r) 1 (r_run_after r)
             (r_claimed_at r) (r_claimed_by r) (r_lease_expires_at r) (r_created_at r) (r_completed_at r)
             (r_last_error r) (r_trace_context r) in
  (next_job s, Db (<[next_job s := r]> (jobs s)) (dead_letters s) (job_events s) (next_job s + 1)
                  (next_dead_letter s) (next_event s)).

(** [eventTypesFor]. *)
Definition eventTypesFor (id : Z) (s : db) : list string :=
  event_type_text ∘ Event_EventType <$> filter (λ ev, JobID ev = id) (outbox s).

(** ** [internal/store/jobs_test.go] *)

Example TestEnqueueClaimComplete :
  (do (id, s) := enqueue 0 "demo_job" db_empty;
   do (jl, s) := claim 1 "worker-1" (30 * Second) 1 s;
   do (again, s) := claim 2 "worker-2" (30 * Second) 1 s;
   do (_, s) := ok (Complete bg (at_sec 3) id s);
   do r := jobs s !! id;
   Some ((λ j, (Job_ID j, Type_ j, Attempts j, MaxAttempts j)) <$> jl, again, r_status r, r_completed_at r))
  = Some ([(1, "demo_job", 1, 5)], [], StatusCompleted, Some (sec 3)).
Proof. by vm_compute. Qed.

Example TestRetryReturnsJobToQueueWithBackoff :
  (do (id, s) := enqueue 0 "demo_job" db_empty;
   do (_, s) := claim 1 "worker-1" (30 * Second) 1 s;
   do (_, s) := ok (Retry bg (at_sec 2) id (3602 * Second) "boom" s);
   do r := jobs s !! id;
   do (jl, s) := claim 3 "worker-2" (30 * Second) 1 s;
   Some (r_status r, r_claimed_by r, r_last_error r, r_run_after r, jl))
  = Some (StatusQueued, None, Some "boom", sec 3602, []).
Proof. by vm_compute. Qed.

Example TestFailIsTerminal :
  (do (id, s) := enqueue 0 "demo_job" db_empty;
   do (_, s) := claim 1 "worker-1" (30 * Second) 1 s;
   do (_, s) := ok (Fail bg (at_sec 2) id "unrecoverable" s);
   do r := jobs s !! id;
   Some (r_status r, r_completed_at r, r_last_error r,
         (λ d, (DL_JobID d, DL_Attempts d, DL_LastError d)) <$> dead_letters s))
  = Some (StatusFailed, Some (sec 2), Some "unrecoverable", [(1, 1, "unrecoverable")]).
Proof. by vm_compute. Qed.

(** A negative lease ends before it starts. *)
Example TestReapExpiredLeasesRequeuesUnderAttemptCeiling :
  (do (id, s) := enqueue 0 "demo_job" db_empty;
   do (_, s) := claim 1 "worker-1" (- Second) 1 s;
   do (nd, s) := ok (ReapExpiredLeases bg (at_sec 1) s);
   do r := jobs s !! id;
   Some (nd, r_status r, r_claimed_by r, r_lease_expires_at r, dead_letters s))
  = Some ((1, 0), StatusQueued, None, None, []).
Proof. by vm_compute. Qed.

Example TestReapExpiredLeasesFailsWhenAttemptsExhausted :
  (let '(id, s) := fixture db_empty in
   do (_, s) := claim 1 "worker-1" (- Second) 1 s;
   do (nd, s) := ok (ReapExpiredLeases bg (at_sec 1) s);
   do r := jobs s !! id;
   Some (nd, r_status r, (λ d, (DL_JobID d, DL_Attempts d)) <$> dead_letters s))
  = Some ((1, 1), StatusFailed, [(1, 1)]).
Proof. by vm_compute. Qed.

Example TestListDeadLettersReturnsMostRecentFirst :
  (let fail i s := do (id, s) := enqueue i "demo_job" s;
                   do (_, s) := claim (i + 1) "worker-1" (30 * Second) 1 s;
                   do (_, s) := ok (Fail bg (at_sec (i + 2)) id "boom" s); Some s in
   do s := fail 0 db_empty; do s := fail 10 s; do s := fail 20 s;
   match ListDeadLetters bg (at_sec 30) 10 s, ListDeadLetters bg (at_sec 30) 1 s with
   | Ok letters, Ok limited => Some (DL_JobID <$> letters, length limited)
   | _, _ => None
   end)
  = Some ([3; 2; 1], 1%nat).
Proof. by vm_compute. Qed.

Example TestEventsRecordedForFullSuccessLifecycle :
  (do (id, s) := enqueue 0 "demo_job" db_empty;
   do (_, s) := claim 1 "worker-1" (30 * Second) 1 s;
   do (_, s) := ok (Complete bg (at_sec 2) id s);
   Some (eventTypesFor id s))
  = Some ["enqueued"; "claimed"; "completed"].
Proof. by vm_compute. Qed.

Example TestEventsRecordedForRetryAndFail :
  (do (id, s) := enqueue 0 "demo_job" db_empty;
   do (_, s) := claim 1 "worker-1" (30 * Second) 1 s;
   do (_, s) := ok (Retry bg (at_sec 2) id Second "transient" s);
   do (_, s) := claim 3 "worker-2" (30 * Second) 1 s;
   do (_, s) := ok (Fail bg (at_sec 4) id "permanent" s);
   Some (eventTypesFor id s))
  = Some ["enqueued"; "claimed"; "retried"; "claimed"; "failed"].
Proof. by vm_compute. Qed.

Example TestEventsDistinguishReapedRetryFromReapedFailed :
  (let '(exhausted, s) := fixture db_empty in
   do (requeued, s) := enqueue 0 "demo_job" s;
   do (_, s) := claim 1 "worker-1" (- Second) 2 s;
   do (_, s) := ok (ReapExpiredLeases bg (at_sec 1) s);
   Some (last (eventTypesFor exhausted s), last (eventTypesFor requeued s)))
  = Some (Some "reaped_failed", Some "reaped_retry").
Proof. by vm_compute. Qed.

Example TestFetchAndMarkUnshippedEvents :
  (do (id, s) := enqueue 0 "demo_job" db_empty;
   match FetchUnshippedEvents bg (at_sec 1) 10 s with
   | Ok events =>
       do (_, s) := ok (MarkEventsShipped bg (at_sec 2) (ID <$> events) s);
       match FetchUnshippedEvents bg (at_sec 3) 10 s with
       | Ok again => Some ((λ ev, (JobID ev, Event_EventType ev)) <$> events, again)
       | Err _ => None
       end
   | Err _ => None
   end)
  = Some ([(1, EventEnqueued)], []).
Proof. by vm_compute. Qed.

Example TestCountByStatusAndType :
  (let count st s := match CountByStatusAndType bg (at_sec 9) (status_text st) s with
                     | Ok m => Some (map_to_list m) | Err _ => None end in
   do (_, s) := enqueue 0 "http_check" db_empty;
   do (_, s) := enqueue 1 "http_check" s;
   do (_, s) := enqueue 2 "sum_numbers" s;
   do queued := count StatusQueued s;
   do (jl, s) := claim 3 "worker-1" (30 * Second) 3 s;
   do queuedAfter := count StatusQueued s;
   do running := count StatusRunning s;
   Some (bool_decide (queued ≡ₚ [("http_check", 2); ("sum_numbers", 1)]), length jl, queuedAfter,
         bool_decide (running ≡ₚ [("http_check", 2); ("sum_numbers", 1)])))
  = Some (true, 3%nat, [], true).
Proof. by vm_compute. Qed.

Example TestShipperLag :
  (let lag t s := match ShipperLag bg (at_sec t) (t * Second) s with Ok d => Some d | Err _ => None end in
   do before := lag 0 db_empty;
   do (_, s) := enqueue 1 "sum_numbers" db_empty;
   do after := lag 2 s;
   Some (before, after))
  = Some (0, Second).
Proof. by vm_compute. Qed.

(** ** [internal/worker/worker_test.go] *)

Definition backoff_worker (base max : Z) : Worker (W:=unit) :=
  MkWorker (λ _ _ w, (HOk, w)) "" 0 0 0 base max.
Definition attempt_no (n : Z) : Job := MkJob 0 "" "" n 0 "".

(** The delay is drawn below [base] on the first attempt and below the cap on the
    tenth; the largest draws and the smallest. *)
Example TestCalculateRetryDelayStaysWithinBoundsAndVaries :
  let w := backoff_worker Second (10 * Second) in
  (λ d, calculateRetryDelay w d (attempt_no 1)) <$> [λ n, 0; λ n, n - 1] = [Some 0; Some (Second - 1)] ∧
  (λ d, calculateRetryDelay w d (attempt_no 10)) <$> [λ n, 0; λ n, n - 1] = [Some 0; Some (10 * Second - 1)].
Proof. by vm_compute. Qed.

Example TestCalculateRetryDelayGrowsWithAttempts :
  let w := backoff_worker (100 * Millisecond) (3600 * Second) in
  (λ n, calculateRetryDelay w (λ n, n - 1) (attempt_no n)) <$> [1; 5]
  = [Some (100 * Millisecond - 1); Some (1600 * Millisecond - 1)].
Proof. by vm_compute. Qed.

Example TestCalculateRetryDelayNeverPanicsOnZeroConfig :
  calculateRetryDelay (backoff_worker 0 0) (λ n, n) (attempt_no 3) = Some 0.
Proof. by vm_compute. Qed.

(** ** [internal/handlers/handlers_test.go] *)

Definition failed (o : outcome) : bool := match o with HErr _ => true | _ => false end.
Definition with_payload (v : json) : Job := MkJob 1 "" (print v) 0 0 "".
Definition server (code : Z) : handler_env := HandlerEnv (λ _, None) (λ _, None) (λ _, None) (λ _ _, Ok code).

Example TestDispatchRoutesToRegisteredHandler :
  let r := Register "demo" (λ _ _ wd, (HOk, HWorld {[ "called" := "" ]} ∅ [])) NewRegistry in
  (Dispatch r Background (MkJob 0 "demo" "" 0 0 "") hw_demo).1 = HOk ∧
  hw_files (Dispatch r Background (MkJob 0 "demo" "" 0 0 "") hw_demo).2 = {[ "called" := "" ]}.
Proof. by vm_compute. Qed.

Example TestDispatchUnregisteredTypeReturnsError :
  failed (Dispatch NewRegistry Background (MkJob 0 "does_not_exist" "" 0 0 "") hw_demo).1 = true.
Proof. by vm_compute. Qed.

(** 2xx succeeds, 500 and a missing URL do not. *)
Example TestHTTPCheck :
  let url := JObject [("url", JString "http://127.0.0.1:8080")] in
  (HTTPCheck (server 200) Background (with_payload url) hw_demo).1 = HOk ∧
  failed (HTTPCheck (server 500) Background (with_payload url) hw_demo).1 = true ∧
  failed (HTTPCheck (server 200) Background (with_payload (JObject [])) hw_demo).1 = true.
Proof. by vm_compute. Qed.

Definition run_write (v : json) := WriteFile he_demo "/tmp/t" Background (with_payload v).

Example TestWriteFileWritesContent :
  let '(o, wd) := run_write (write_file_doc "out.txt" "hello") hw_demo in
  o = HOk ∧ hw_files wd !! "/tmp/t/out.txt" = Some "hello".
Proof. by vm_compute. Qed.

Example TestWriteFileIsIdempotentOnReplay :
  let '(_, wd) := run_write (write_file_doc "out.txt" "hello") hw_demo in
  let '(o, wd) := run_write (write_file_doc "out.txt" "hello") wd in
  o = HOk ∧ hw_files wd !! "/tmp/t/out.txt" = Some "hello".
Proof. by vm_compute. Qed.

Example TestWriteFileRejectsPathTraversal :
  let '(o, wd) := run_write (write_file_doc "../../etc/passwd" "pwned") hw_demo in
  failed o = true ∧ hw_files wd = ∅.
Proof. by vm_compute. Qed.

Example TestSumNumbers :
  (SumNumbers Background (with_payload (sum_doc ["1"; "2"; "3.5"])) hw_demo).1 = HOk ∧
  failed (SumNumbers Background (with_payload (sum_doc [])) hw_demo).1 = true.
Proof. by vm_compute. Qed.

(** ** [internal/analytics] *)

Definition test_event (id jobID : Z) (ty : string) (t : EventType) (attempts : Z) (worker : string) (at_ : Z) : Event :=
  MkEvent id jobID ty t attempts worker "" (sec at_).
Definition inserted (l : list Event) : list ch_row := (InsertEvents ch_quiet l []).2.
Definition query_at (t : Z) : ch_query := ChQuery None t "interval".

(** The events of the test, a day after the epoch. *)
Example TestArrivalsVsCompletions :
  let now := 86400 in
  let ch := inserted
    [test_event 1 101 "sum_numbers" EventEnqueued 0 "" (now - 300);
     test_event 2 102 "sum_numbers" EventEnqueued 0 "" (now - 300);
     test_event 3 101 "sum_numbers" EventCompleted 1 "" (now - 240);
     test_event 4 103 "http_check" EventEnqueued 0 "" (now - 60);
     test_event 5 103 "http_check" EventFailed 1 "" (now - 60)] in
  match ArrivalsVsCompletions (query_at now) (3600 * Second) (60 * Second) ch with
  | Ok rows => foldr (λ r acc, Arrivals r + acc) 0 rows = 3 ∧ foldr (λ r acc, Completions r + acc) 0 rows = 2
  | Err _ => False
  end.
Proof. by vm_compute. Qed.

(** The samples are of two and four seconds. *)
Example TestDurationPercentiles :
  let now := 86400 in
  let ch := inserted
    [test_event 1 201 "sum_numbers" EventClaimed 1 "" (now - 10);
     test_event 2 201 "sum_numbers" EventCompleted 1 "" (now - 8);
     test_event 3 202 "sum_numbers" EventClaimed 1 "" (now - 10);
     test_event 4 202 "sum_numbers" EventFailed 1 "" (now - 6);
     test_event 5 203 "sum_numbers" EventClaimed 1 "" (now - 10);
     test_event 6 203 "sum_numbers" EventRetried 1 "" (now - 9)] in
  samples (in_window now (3600 * Second) ch) = [("sum_numbers", 2000); ("sum_numbers", 4000)] ∧
  match DurationPercentiles (λ l, default (S754_zero false) (last l)) (query_at now) (3600 * Second) ch with
  | Ok [r] => DP_JobType r = "sum_numbers" ∧ Samples r = 2 ∧ SFeqb (P99Seconds r) (float_of 4) = true
  | _ => False
  end.
Proof. by vm_compute. Qed.

Example TestBacklogVsWorkers :
  let now := 86400 in
  let ch := inserted
    [test_event 1 301 "sum_numbers" EventEnqueued 0 "" (now - 180);
     test_event 2 302 "sum_numbers" EventEnqueued 0 "" (now - 180);
     test_event 3 301 "sum_numbers" EventClaimed 1 "worker-1" (now - 120);
     test_event 4 302 "sum_numbers" EventClaimed 1 "worker-2" (now - 120);
     test_event 5 301 "sum_numbers" EventCompleted 1 "" (now - 60);
     test_event 6 302 "sum_numbers" EventCompleted 1 "" (now - 60)] in
  match BacklogVsWorkers (λ l, Z.of_nat (length (remove_dups l))) (query_at now) (3600 * Second) (60 * Second) ch with
  | Ok rows => (CumulativeBacklog <$> last rows) = Some 0 ∧ foldr (λ r acc, ActiveWorkers r `max` acc) 0 rows = 2
  | Err _ => False
  end.
Proof. by vm_compute. Qed.

Example TestRecentCompletionRates :
  let now := 86400 in
  let ch := inserted
    [test_event 1 401 "sum_numbers" EventCompleted 1 "" (now - 30);
     test_event 2 402 "sum_numbers" EventCompleted 1 "" (now - 20);
     test_event 3 403 "http_check" EventFailed 5 "" (now - 10);
     test_event 4 404 "sum_numbers" EventCompleted 1 "" (now - 600)] in
  match RecentCompletionRates (query_at now) (60 * Second) ch with
  | Ok rates => (λ r, (CR_JobType r, CR_Completions r)) <$> rates = [("sum_numbers", 2); ("http_check", 1)]
  | Err _ => False
  end.
Proof. by vm_compute. Qed.

Example TestEstimateDrainTime :
  (λ e, (DE_JobType e, CanEstimate e, Backlog e, SFeqb (EstimatedSeconds e) (float_of 10))) <$>
    EstimateDrainTime {[ "sum_numbers" := 100; "write_file" := 5 ]}
      {[ "sum_numbers" := float_of 10; "http_check" := float_of 2 ]}
  = [("http_check", true, 0, false); ("sum_numbers", true, 100, true); ("write_file", false, 5, false)].
Proof. by vm_compute. Qed.

Example TestShipOnceMovesEventsFromPostgresToClickHouse :
  (do (id, s) := enqueue 0 "demo_job" db_empty;
   do (_, s) := claim 1 "worker-1" (30 * Second) 1 s;
   do (_, s) := ok (Complete bg (at_sec 2) id s);
   let '(_, p) := shipOnce (demo_cycle (sec 3)) 500 (Pipe s []) in
   Some (length (pending s), length (pending (p_pg p)), ch_event_type <$> p_ch p))
  = Some (3%nat, 0%nat, ["enqueued"; "claimed"; "completed"]).
Proof. by vm_compute. Qed.

Example TestShipOnceIsANoOpWithNothingToShip :
  shipOnce (demo_cycle (sec 3)) 500 pipe_empty = (NothingToShip, pipe_empty).
Proof. by vm_compute. Qed.

(** ** [internal/tracing/tracing_test.go] *)

Example TestInjectExtractRoundTripsTraceID :
  let submit := tracer_Start Background "submit" in
  Inject submit ≠ "" ∧
  ctx_trace (tracer_Start (Extract Background (Inject submit)) "claim") = ctx_trace submit.
Proof. by vm_compute. Qed.

Example TestExtractWithEmptyStringLeavesContextUnchanged (ctx : context span_context) : Extract ctx "" = ctx.
Proof. done. Qed.
