(* ===== verification/ClusterDemo.v ===== *)
(** * A run of the cluster

    One process starts, a client submits a [write_file] job, a worker of the
    process claims it, runs its handler and reports, all under the lease
    discipline; the theorems about the cluster applied to it. *)

From stdpp Require Import prelude gmap strings list pretty relations sorting.
From S2P Require Import Prelude GoBase Job Store StoreFacts Steps Demo Claim Invariant History StoreSpec Outbox Verdicts.
From S2P Require Import Tracing Worker WorkerFacts Lifecycle Fairness Shipper ShipperFacts GrpcServer Handlers Config Process.
From S2P Require Import Metrics Fmt Flag Json JsonFacts Payloads Cli Work WorkFacts CliFacts Main Cluster Contract Leases.
From S2P Require Import Starvation Recovery Shutdown CommandDemo.
#[local] Open Scope jq_scope.

Definition run_su : work_setup := WorkSetup 1 (PoolConfig 5) true.
Definition run_payload : string := print (write_file_doc "a/b.txt" "hello").

(** The states of the worker and of the shared store along the run. *)
Definition run_node (ph : wphase) (x : shared) : node :=
  node_of default_config (Proc x false false [ph] RStart (Some ShStart)).
Definition run_head : wphase := WHead (PollInterval default_config).

Definition run_x0 : shared := Shared pipe_empty hw_demo [].
Definition run_submit := Submit Background (quiet 0) "write_file" run_payload db_empty.
Definition run_x1 : shared := Shared (Pipe run_submit.1.2 []) hw_demo [].
Definition run_claim :=
  Claim (Background : context span_context) (quiet (sec 1)) (worker_id 0) (LeaseDuration default_config) 1 (sh_db run_x1).
Definition run_x2 : shared := add_out (claim_out 0 run_claim.1) (with_db run_claim.2 run_x1).
Definition run_job : Job := MkJob 1 "write_file" run_payload 1 5 "1.".
Definition run_exec := process_execute (worker_of default_config he_demo 0) 0 Background run_job (wstate_of run_x2).
Definition run_x3 : shared := seen [] run_exec.2.
Definition run_proc : proc_env := ProcEnv (quiet (sec 2)) 0 0 (λ n, n - 1).
Definition run_report := process_report (worker_of default_config he_demo 0) run_proc Background run_job None (wstate_of run_x3).
Definition run_x4 : shared := default run_x3 (seen [] <$> run_report).

Definition run_T (ph : wphase) (x : shared) (c : Z) (ls : list (Job * Z)) (runs : list run) : timed :=
  Timed (Cluster (sh_pipe x) [run_node ph x] runs) c ls.

Definition run_lease : Job * Z := (run_job, sec 31).
Definition run_claimed : timed := run_T (WHolding run_job) run_x2 (sec 1) [run_lease] [].
Definition run_done : timed := run_T run_head run_x4 (sec 2) [] [(run_job, None)].

Lemma run_claim_job : claimed run_claim.1 = Some run_job ∧ after_claim (PollInterval default_config) run_claim.1 = WHolding run_job.
Proof. by split; vm_compute. Qed.
Lemma run_exec_ok : run_exec.1 = None.
Proof. by vm_compute. Qed.
Lemma run_report_ok : run_report = Some (default run_exec.2 run_report).
Proof. by vm_compute. Qed.

(** A step of the only worker of the only process. *)
Lemma run_worker_step a ph x ph' x' runs :
  worker_step default_config 0 false a ph x ph' x' →
  cluster_step a (Cluster (sh_pipe x) [run_node ph x] runs) (Cluster (sh_pipe x') [run_node ph' x'] (runs ++ ran a)).
Proof.
  intros Hs. apply (cl_own 0 (run_node ph x) a (Proc x' false false [ph'] RStart (Some ShStart)) (sh_pipe x) [run_node ph x] runs);
    [done|]. destruct x as [p wd out].
  by apply (ps_worker default_config a 0 ph ph' (Shared p wd out) x' false [ph] RStart (Some ShStart)).
Qed.

Lemma run_worker a ph x ph' x' c ls runs c' ls' :
  worker_step default_config 0 false a ph x ph' x' →
  timely a (sh_db x) (sh_db x') c ls c' ls' →
  timed_step (run_T ph x c ls runs) (run_T ph' x' c' ls' (runs ++ ran a)).
Proof. intros Hs Ht. eapply tm_step; [by apply run_worker_step|exact Ht]. Qed.

Lemma run_started : timed_reachable (run_T run_head run_x1 0 [] []).
Proof.
  eapply rtc_l.
  { apply (tm_step Tau _ (Cluster pipe_empty [run_node run_head run_x0] []) 0 [] 0 []); [|by split]. eapply (cl_boot (BootEnv None None None None None None None) default_config
      ["-workers"; "1"] _ run_su _ hw_demo pipe_empty [] []). vm_compute. reflexivity. }
  apply rtc_once, (tm_step (ActStmt (quiet 0))); [|by split_and!].
  eapply (cl_submit Background (quiet 0) "write_file" run_payload _ run_submit.1.2 _ pipe_empty). reflexivity.
Qed.

Lemma run_claimed_reachable : timed_reachable run_claimed.
Proof.
  eapply rtc_r; [eapply rtc_r; [exact run_started|]|].
  - by apply (run_worker Tau _ _ (WClaiming (PollInterval default_config)) run_x1 0 [] [] 0 []); [apply ws_go|].
  - destruct run_claim_job as [Hj Ha]. unfold run_claimed. rewrite <-Ha.
    apply (run_worker (ActClaim (LeaseDuration default_config) (quiet (sec 1)) (claimed run_claim.1)) _ _ _ _ 0 [] []).
    + by apply (ws_claim _ _ _ _ run_x1 Background (quiet (sec 1)) 0 run_claim.1 run_claim.2);
        [|apply surjective_pairing].
    + rewrite Hj. cbn [timely]. split_and!; [by vm_compute|done|]. exists (sec 30). split; [by vm_compute|done].
Qed.

Lemma run_done_reachable : timed_reachable run_done.
Proof.
  eapply rtc_r; [eapply rtc_r; [exact run_claimed_reachable|]|].
  - apply (run_worker (ActRun run_job None) _ _ (WReporting Background run_job None) run_x3 (sec 1) [run_lease] [] (sec 1) [run_lease]);
      [|by split].
    rewrite <-run_exec_ok. apply (ws_execute _ _ _ _ run_x2 he_demo Background 0), surjective_pairing.
  - apply (run_worker (ActReport (quiet (sec 2)) run_job) _ _ run_head run_x4 (sec 1) [run_lease] [(run_job, None)] (sec 2) []).
    + pose proof run_report_ok as E. unfold run_x4. rewrite E. cbn [fmap option_fmap option_map default from_option].
      apply (ws_report _ _ _ _ run_x3 he_demo Background None run_proc); [intros n Hn; simpl; lia|exact E].
    + split_and!; [by vm_compute|done|by vm_compute|]. intros dl Hdl. left.
      apply list_elem_of_singleton in Hdl as [= ->]. by vm_compute.
Qed.

(** ** The theorems on this run *)

Definition run_cluster : cluster := tm_cluster run_done.

Lemma run_cluster_reachable : cluster_reachable run_cluster.
Proof. exact (timed_reachable_cluster _ run_done_reachable). Qed.

Lemma run_status : r_status <$> jobs (cl_db run_cluster) !! 1 = Some StatusCompleted.
Proof. by vm_compute. Qed.

Lemma cluster_at_most_once_witness : carried (cl_db run_cluster) run_job.
Proof.
  destruct (cluster_at_most_once run_cluster run_cluster_reachable) as (_ & H & _).
  apply (H run_job None). by left.
Defined.

Lemma cluster_truthful_witness :
  ∃ j, (j, None) ∈ cl_runs run_cluster ∧ Job_ID j = 1.
Proof.
  pose proof run_status as Hst. destruct (jobs (cl_db run_cluster) !! 1) as [r|] eqn:Hr; [|done].
  destruct (cluster_truthful run_cluster 1 r run_cluster_reachable Hr) as [H _].
  destruct H as (j & Hj & Hid & _); [by injection Hst|]. exists j. split; [exact Hj|exact Hid].
Defined.

Lemma cluster_keeps_leases_witness :
  ∃ y, sys_reachable y ∧ sy_db y = cl_db (tm_cluster run_claimed) ∧ ∃ dl, (run_job, dl) ∈ sy_held y.
Proof.
  destruct (cluster_keeps_leases run_claimed run_claimed run_claimed_reachable (rtc_refl _ _))
    as (y & y' & Hy & _ & Hdb & _ & H).
  exists y. split; [exact Hy|]. split; [exact Hdb|]. by eapply (H 0%nat 0%nat).
Defined.

Lemma cluster_bounded_witness :
  Z.of_nat (length (runs_of 1 run_cluster)) ≤ 5.
Proof.
  pose proof run_status as Hst. destruct (jobs (cl_db run_cluster) !! 1) as [r|] eqn:Hr; [|done].
  destruct (cluster_bounded run_done 1 r run_done_reachable Hr) as ([H1 H2] & H3 & _). unfold run_cluster. lia.
Defined.

(** The process that holds the job is lost; another one ends it. *)
Lemma run_claimed_job : is_Some (jobs (cl_db (tm_cluster run_claimed)) !! 1).
Proof. vm_compute. by eexists. Qed.

Lemma cluster_recovers_witness :
  ∃ T' r', rtc timed_step run_claimed T' ∧ jobs (cl_db (tm_cluster T')) !! 1 = Some r' ∧ terminal r'.
Proof.
  destruct run_claimed_job as [r Hr].
  destruct (cluster_recovers run_claimed 1 r (BootEnv None None None None None None None) default_config ["-workers"; "1"]
    (startWork (BootEnv None None None None None None None) default_config ["-workers"; "1"]
       (cl_db (tm_cluster run_claimed))).1.1 run_su (cl_db (tm_cluster run_claimed)) he_demo (sec 30))
    as (T' & l & Hs & _ & _ & r' & Hr' & Ht);
    [exact run_claimed_reachable|exact Hr|vm_compute; reflexivity|reflexivity|reflexivity|reflexivity|by vm_compute
    |by split; vm_compute|].
  exists T', r'. split; [exact Hs|]. split; [exact Hr'|exact Ht].
Defined.

(** A job enqueued from the command line stays. *)
Definition run_enqueue := runEnqueue (demo_call 0) default_config ["-type"; "sum_numbers"] db_empty.

Lemma user_contract_witness :
  ∃ id, ∀ C2, rtc some_step (with_tables run_enqueue.2 cluster_empty) C2 → is_Some (jobs (cl_db C2) !! id).
Proof.
  destruct (user_contract (demo_call 0) default_config ["-type"; "sum_numbers"] cluster_empty run_enqueue.1.1 run_enqueue.2)
    as (fs & rest & id & doc & _ & _ & _ & _ & _ & _ & H); [apply rtc_refl|vm_compute; reflexivity|].
  exists id. intros C2 HC2. destruct (H C2 HC2) as [(r & Hr & _) _]. by exists r.
Defined.

(** The run up to the claim lets nothing slip. *)
Lemma run_claimed_slipping : run_slipping [] (tm_cluster run_claimed).
Proof.
  destruct run_claim_job as [Hj Ha]. unfold run_claimed, run_T. cbn [tm_cluster]. rewrite <-Ha.
  apply (slip_step [] [] (ActClaim (LeaseDuration default_config) (quiet (sec 1)) (claimed run_claim.1))
    (Cluster (sh_pipe run_x1) [run_node (WClaiming (PollInterval default_config)) run_x1] [])); [| |by rewrite Hj].
  - apply (slip_step [] [] Tau (Cluster (sh_pipe run_x1) [run_node run_head run_x1] [])); [|by apply (run_worker_step Tau); apply ws_go|done].
    apply (slip_step [] [] (ActStmt (quiet 0)) (Cluster pipe_empty [run_node run_head run_x0] [])); [| |done].
    + apply (slip_step [] [] Tau cluster_empty); [apply slip_start| |done].
      eapply (cl_boot (BootEnv None None None None None None None) default_config ["-workers"; "1"] _ run_su _ hw_demo
        pipe_empty [] []). vm_compute. reflexivity.
    + eapply (cl_submit Background (quiet 0) "write_file" run_payload _ run_submit.1.2 _ pipe_empty). reflexivity.
  - apply (run_worker_step (ActClaim (LeaseDuration default_config) (quiet (sec 1)) (claimed run_claim.1)) _ _ _ _ []).
    by apply (ws_claim _ _ _ _ run_x1 Background (quiet (sec 1)) 0 run_claim.1 run_claim.2); [|apply surjective_pairing].
Qed.

Lemma graceful_shutdown_witness :
  ∃ k n i ph j, cl_nodes (tm_cluster run_claimed) !! k = Some n ∧
    n_workers n !! i = Some ph ∧ held_job ph = Some j ∧ Job_ID j = 1.
Proof.
  destruct run_claimed_job as [r Hr].
  destruct (graceful_shutdown (tm_cluster run_claimed) (timed_reachable_cluster _ run_claimed_reachable)) as [_ H].
  destruct (H [] run_claimed_slipping) as [Hrun _].
  assert (r_status <$> jobs (cl_db (tm_cluster run_claimed)) !! 1 = Some StatusRunning) as Hst by (by vm_compute).
  rewrite Hr in Hst. injection Hst as Hst. destruct (Hrun 1 r Hr Hst) as [Hin|Hh]; [|exact Hh].
  apply elem_of_nil in Hin. destruct Hin.
Defined.

(** ** A crowd

    Two more jobs come at seconds 1 and 2 and a fourth at second 3; at second 10
    the worker claims the first job and passes over the second. *)

Definition crowd_submit (now : Z) (s : db) := Submit Background (quiet now) "write_file" run_payload s.
Definition crowd_x (s : db) : shared := Shared (Pipe s []) hw_demo [].
Definition crowd_s2 : db := (crowd_submit (sec 1) run_submit.1.2).1.2.
Definition crowd_s3 : db := (crowd_submit (sec 2) crowd_s2).1.2.
Definition crowd_s4 : db := (crowd_submit (sec 3) crowd_s3).1.2.
Definition crowd_claim :=
  Claim (Background : context span_context) (quiet (sec 10)) (worker_id 0) (LeaseDuration default_config) 1 crowd_s4.
Definition crowd_T3 : timed := run_T run_head (crowd_x crowd_s3) (sec 2) [] [].
Definition crowd_end : timed :=
  run_T (after_claim (PollInterval default_config) crowd_claim.1)
    (add_out (claim_out 0 crowd_claim.1) (with_db crowd_claim.2 (crowd_x crowd_s4))) (sec 10) [(run_job, sec 40)] [].

Lemma crowd_submitted now s nodes :
  cluster_step (ActStmt (quiet now)) (Cluster (Pipe s []) nodes []) (Cluster (Pipe (crowd_submit now s).1.2 []) nodes []).
Proof.
  destruct (crowd_submit now s) as [[r s'] out] eqn:E.
  exact (cl_submit Background (quiet now) "write_file" run_payload r s' out (Pipe s []) nodes [] E).
Qed.

Lemma crowd_step now s c : c ≤ now →
  timed_step (run_T run_head (crowd_x s) c [] []) (run_T run_head (crowd_x (crowd_submit now s).1.2) now [] []).
Proof. intros Hc. apply (tm_step (ActStmt (quiet now))); [apply crowd_submitted|by split_and!]. Qed.

Lemma crowd_reachable : timed_reachable crowd_T3.
Proof.
  eapply rtc_r; [eapply rtc_r; [exact run_started|]|].
  - by apply (crowd_step (sec 1)).
  - by apply (crowd_step (sec 2)).
Qed.

Lemma crowd_claimed : claimed crowd_claim.1 = Some run_job.
Proof. by vm_compute. Qed.

Lemma crowd_overtaken : overtaken 2 1 (skips 2 (quiet (sec 10)) + 0) crowd_T3 crowd_end.
Proof.
  eapply ov_other; [apply (crowd_submitted (sec 3) crowd_s3)|by split_and!|by left|].
  eapply (ov_other _ _ _ Tau); [apply (run_worker_step Tau run_head (crowd_x crowd_s4)), ws_go; done|by split|by left|].
  eapply (ov_claim _ _ _ (LeaseDuration default_config) (quiet (sec 10)) (claimed crowd_claim.1)).
  - apply (run_worker_step _ (WClaiming (PollInterval default_config)) (crowd_x crowd_s4)).
    by apply (ws_claim _ _ _ _ (crowd_x crowd_s4) Background (quiet (sec 10)) 0 crowd_claim.1 crowd_claim.2);
      [|apply surjective_pairing].
  - rewrite crowd_claimed. cbn [timely]. split_and!; [by vm_compute|reflexivity|].
    exists (sec 30). split; [by vm_compute|reflexivity].
  - intros E. apply (f_equal (λ s, length (job_events s))) in E. vm_compute in E. discriminate E.
  - vm_compute. reflexivity.
  - apply ov_none.
Qed.

Lemma no_starvation_witness :
  jobs (cl_db (tm_cluster crowd_end)) !! 2 = jobs crowd_s3 !! 2 ∧
  Z.of_nat 1 ≤ 5 * (Z.of_nat (size (jobs crowd_s3)) - 1).
Proof.
  destruct (jobs crowd_s3 !! 2) as [r|] eqn:Hr; [|by vm_compute in Hr].
  assert (r_status r = StatusQueued ∧ r_run_after r = sec 1) as [Hst Hrun]
    by (vm_compute in Hr; by injection Hr as <-).
  destruct (no_starvation crowd_T3 crowd_end 2 r 1 (skips 2 (quiet (sec 10)) + 0) crowd_reachable Hr Hst) as [Hn Hr'];
    [rewrite Hrun; by vm_compute|exact crowd_overtaken|]. split; [exact Hr'|].
  assert (skips 2 (quiet (sec 10)) = 0%nat) as E by (by vm_compute). rewrite E, Z.add_0_r in Hn. exact Hn.
Defined.
